(* ===== verification/_CoqProject ===== *)
-Q . S2P
Prelude.v
Utf8.v
Enc.v
Crypto.v
Merkle.v
MerkleProofs.v
MerkleTheorems.v
ProtoRecord.v
Envelope.v
IdentityRecords.v
Server.v
CodecTheorems.v
Ledger.v
LedgerProofs.v
LedgerTheorems.v
X3dh.v
Mailbox.v
RateLimit.v
Wire.v
WireProofs.v
ServiceTheorems.v
RelayParts.v
RelayChannels.v
ChannelProofs.v
Relay.v
RelayProofs.v
RelayTheorems.v
Ratchet.v
RatchetProofs.v
Conversation.v
Session.v
FileTransfer.v
Content.v
IdentityIds.v
DmTheorems.v
Roles.v
RolesProofs.v
Invite.v
Channel.v
Keystore.v
IdentityTheorems.v
LocalStore.v
LocalStoreProofs.v
ClientTheorems.v
Mls.v
MlsTheorems.v
Sync.v
SyncTheorems.v
ClientMessages.v
ClientMessagesProofs.v
ClientChannels.v
ClientChannelsProofs.v
ClientChannelTheorems.v
ClientDm.v
ClientSignals.v
ClientDmProofs.v
ClientDmTheorems.v
SignalTheorems.v
ClientPeers.v
PeerTheorems.v
Servers.v
ServerPolicies.v
ServerControl.v
ServerProofs.v
ServerControlProofs.v
ServerLinks.v
ServerPolicyProofs.v
ServerDemo.v
ServerTheorems.v
ServerRemoval.v
Transport.v
TransportTheorems.v
Unfurl.v
UnfurlTheorems.v
Federation.v
FederationTheorems.v
