(* ===== verification/Prelude.v ===== *)
(** * DaNTe: a federated, end-to-end encrypted messenger

    DaNTe is a set of Rust crates (under [src/crates]).  Clients hold
    identities and sessions; relays store sealed mail, encrypted channel logs
    and a verifiable public ledger of identities and servers, and gossip with
    each other.  This development models the parts whose correctness the rest
    relies on, from the bytes on the wire through the relay's request handler
    up to the operations of the client's engine, and proves what they promise.
    Definitions keep the names of the code, with a prefix where Rust has a
    method of a type ([record_encode] for [Record::encode]); field names carry
    a prefix per record.

    ** Files

    Foundations.

    - [Prelude]: bytes, machine integers as [N] with their wrap-around and
      saturation, Rust's [Result] with its [let?], stateful fallible
      operations ([Step]: errors keep what was written before them, [None] is
      a panic) with [do!], sums over lists and finite maps, stable sorting.
    - [Utf8]: UTF-8 validity and char boundaries of the Rust library.
    - [Enc] ([dante-proto/src/enc.rs]): the Writer and Reader of the canonical
      codec, and the interfaces [Parses] (decoding an encoding gives the value
      back) and [Canon] (what decodes was the encoding of the value), with one
      instance per primitive and per list shape.
    - [Crypto] ([dante-crypto]): the layer over the external primitives.  The
      primitives are the fields of the class [CryptoPrims]; the classes
      [CryptoLaws], [SignLaws], [AgreeLaws], [AeadLaws], [KdfLaws] name the
      documented facts that some theorems use (signatures verify, agreement is
      symmetric, decryption undoes encryption).  [Toy] is an executable
      instance of all of them, on which the witnesses are evaluated.
    - [Merkle], [MerkleProofs], [MerkleTheorems]
      ([dante-proto/src/merkle.rs]): tree hashing, the provers (top-down) and
      the verifiers (bottom-up).
    - [ProtoRecord] ([record.rs], [head.rs], [pow.rs] of [dante-proto]),
      [Envelope] ([envelope.rs]), [IdentityRecords] ([dante-identity],
      [records.rs]), [Server] ([server.rs], [tombstone.rs] of [dante-ledger]):
      the signed record, tree heads, sealed envelopes and the record bodies,
      with codecs, challenges and checks.  [CodecTheorems]: their properties.
    - [IdentityIds], [Keystore] ([dante-identity]): identifiers in their text
      form, the keystore file and backups.  [IdentityTheorems].

    The ledger and the relay.

    - [Ledger] ([dante-ledger/src/ledger.rs]): store interface
      ([RecordStore] with its laws, and the [MemoryStore] instance), state,
      queries, [append] with its seven handlers, [evaporate].
      [LedgerProofs]: the invariant [ledger_wf], the declarative rules
      [accepted] that [append] refines, the order [extends] between a ledger
      and what it evolves to.  [LedgerTheorems]: the properties.
    - [Mailbox], [RateLimit], [Wire] ([mailbox.rs], [ratelimit.rs], [wire.rs]
      of [dante-net]); [WireProofs]: both message codecs are canonical.
      [ServiceTheorems]: the properties of these and of [X3dh].
    - [RelayParts], [RelayChannels], [Relay] ([dante-relay/src/state.rs]): the
      relay.  The fields of the Rust struct [RelayState] are grouped by
      concern (ledger, mail, prekeys, key packages, blobs, channels, signals,
      limits, peers); each handler is an operation on its group, [Relay] lifts
      them with lenses, and [handle] dispatches requests as the code does,
      with the rate-limit charge first.  A relay believes a [KeyDirectory],
      an interface of which the ledger is the instance.
      [ChannelProofs], [RelayProofs]: the invariants of every group and the
      step relations [chan_step] and [relay_step], which have one constructor
      per entry point (client requests, gossip, housekeeping, drained
      queues, settings).  [RelayTheorems]: the properties.

    Sessions, groups and formats of a client.

    - [X3dh], [Ratchet], [RatchetProofs], [Session] ([dante-dm]): prekey
      bundles and the handshake, the double ratchet, direct-message sessions.
      [Conversation] runs two parties against a transcript.  [FileTransfer]:
      files cut into sealed chunks.  [DmTheorems].
    - [Content], [Roles], [RolesProofs], [Invite], [Channel], [LocalStore],
      [LocalStoreProofs] ([content.rs], [roles.rs], [invite.rs], [channel.rs],
      [store.rs] of [dante-core]): what messages say, the signed policy of a
      server, invite links, channel control, the encrypted state file.
      [ClientTheorems].
    - [Mls] ([dante-mls]): the checks and formats around OpenMLS, whose calls
      are the fields of the class [Openmls]; [ToyMls] is a small instance.
      [MlsTheorems].
    - [Sync] ([dante-net/src/sync.rs]): the client's requests over a
      [Connection], of which the modelled relay is an instance
      ([relay_connection]), and the client's ledger replica.  [SyncTheorems].

    The engine ([dante-core/src/engine.rs]), by concern.  Rust's [Engine] is
    one struct; here each file has the fields its operations use, and [Servers]
    puts them together.

    - [ClientMessages], [ClientMessagesProofs]: the book of messages, edits,
      reactions and pins.  [ClientChannels], [ClientChannelsProofs]: posting
      to and polling channels.  [ClientChannelTheorems].
    - [ClientDm], [ClientDmProofs]: sending and receiving direct messages,
      prekeys, deduplication.  [ClientSignals]: call signalling by topic.
      [ClientDmTheorems], [SignalTheorems].
    - [ClientPeers]: contacts, blocking, verification, the own profile.
      [PeerTheorems].
    - [Servers], [ServerPolicies], [ServerControl]: servers and channels,
      members, links and bans; roles, shortcodes and nicknames; what control
      messages from others do.  An operation is a step of [Engine W], with [W]
      the world behind the connection; [Env] has what the operations only
      read.  [ServerProofs] has the frames ([sends], [changes], composed by
      [stays]), [ServerControlProofs] the authority each change needs,
      [ServerLinks] the uses of links, [ServerPolicyProofs] the edits of
      policies.  [ServerTheorems], [ServerRemoval].

    The network.

    - [Transport] ([transport.rs], [socks5.rs] of [dante-net]): frames, the
      SOCKS5 handshake, the TCP client and the relay's loop over the class
      [Net], and the libp2p client over the class [P2pNode].
      [TransportTheorems] runs both ends over a connection in memory.
    - [Unfurl] ([unfurl.rs] of [dante-net] and [dante-relay]): the fetcher of
      link previews over the class [Web], and the relay's gate.
      [UnfurlTheorems].
    - [Federation] ([run.rs] of [dante-relay], [p2p.rs] of [dante-core], the
      topics of [dante-p2p]): what a relay hears, publishes and copies from
      siblings, and the client's side of gossip.  [FederationTheorems].

    ** What is shown

    - Codecs are canonical: encoding and decoding are inverse both ways, for
      records, tree heads, identity bodies, requests and responses; signed
      bytes determine what is signed, and the challenges of the relay's writes
      are pairwise distinct up to SHA-256 collisions.
    - Merkle proofs: what the provers make the verifiers accept; an accepted
      inclusion proof names a leaf, or exhibits a collision.
    - Ledger: [append] refines declarative rules; it never panics and refuses
      without a trace; every earlier head is provably a prefix of every later
      one; no replay; only the current key acts; rotation keeps the identity;
      revoked and evaporated identities stay so; evaporation is exact and the
      same on every replica; a client's replica is what the client's own rules
      make of the relay's log, and equal to the relay's ledger where the log
      has no tombstones.
    - Relay: over every run from a fresh state, every decodable request is
      answered and all stores stay well-formed; a client writes a channel's log
      only as a member, and what else enters a log is signed by a key of the
      ledger, by a member if the relay has the roster, or adopted unsigned
      from a sibling's copy; rosters are bound to their root and never go
      back; byte counters kept by
      wrapping arithmetic are exact; polling delivers a whole log; adopting a
      sibling's log never overwrites.  Mailbox and limits: exact accounting,
      exact expiry, and the burst each default limiter grants in [f64]
      arithmetic (the Standard Library's executable binary64).
    - Direct messages: both sides derive the same secret and stay in step over
      any transcript of deliveries, each message is read at most once, an
      envelope served again is ignored while the window remembers it, a
      blocked peer is sent no text and no file, and a first message sent
      through the engine arrives.
    - Groups and channels: a roster changes only by commits of the host, which
      add and rekey only what the ledger does not object to, but for external
      commits under the host's name, which are not vetted; what polling
      reports, edits and deletes was posted by the member it names; positions
      never go back.
    - Servers: control messages change no more than their sender's authority
      allows; links admit as often as they say; changes of a policy do what
      they say and reach every member; a removed member can no longer post.
    - Network: a request over TCP is a call of the relay's handler, so the
      [Connection] of the other theorems is what the code provides; clients
      agree on a channel's relay; previews connect to public addresses only,
      which by IANA's registries are the globally reachable unicast ones, up
      to two anycast addresses refused and six IPv6 blocks not refused.  What
      a relay's queues hold reaches its siblings entry by entry, and whatever
      a relay hears, publishes and copies is a run of its steps; an accepted
      post reaches the siblings unchanged; relays and clients clash on the
      format of a channel's gossip.
    - Divergences that modelling showed are theorems or examples beside the
      component they concern.

    ** Fuel and bounds

    Recursion that is not structural has fuel that is enough: the Merkle
    functions recurse on halves with the number of leaves, [replenish] with
    the target, [poll] with the number of stored entries and one, the ratchet's
    skipping with at most [MAX_SKIP] steps, cutting a file into chunks with its
    length, trimming the book with the number of messages over the limit,
    base32 with the three symbols a step can emit, [pull_loop] with the number
    of records missing, [mint_key_packages] with the size of the pool, reading
    an HTTP head or body with the bytes it may still grow by, copying a
    sibling's ledger with its batches and a channel's log with the rows it may
    still take; text is cut with its length.  [serve_conn] takes the number of requests it may answer.
    Sequence numbers are assumed below [2^64 - 1] ([seq_room] and the
    premises of [chan_step]): the code adds one without a check.  The quota of
    the channel store is assumed below [2^64 - 1], the saturation point.
    Lengths are assumed to fit the codec's [u32] prefix where the code
    truncates them.

    ** Not modelled

    External primitives and libraries are parameters: SHA-256, Ed25519,
    X25519, HKDF, HMAC, XChaCha20-Poly1305, Argon2id, OpenMLS, and the minting
    of TURN credentials.  Random secrets and the clock are arguments.  Sockets,
    DNS, TLS and the libp2p node are the classes of the network files; a
    deadline is an error that any of their calls may return.  The libp2p swarm
    and the discovery of relays, the start of the relay's process, WebRTC and audio, the engine's calls and the user
    interfaces are left out: they are input and output around libraries that
    are not part of the repository.  [HashMap] iteration order, which the code
    does not rely on, is that of stdpp's maps. *)

From stdpp Require Export base gmap strings list countable sorting pretty option.
From Stdlib Require Export ZArith.
From Stdlib Require Export Strings.Byte.

Declare Scope dante_scope.
Delimit Scope dante_scope with dante.
Open Scope dante_scope.

(** ** Bytes *)

(** [u8] is the Standard Library's [byte]; a Rust [&[u8]], [Vec<u8>] or
    [[u8; N]] is a list of them. *)
Abbreviation byte := Byte.byte.
Abbreviation bytes := (list Byte.byte).

#[global] Instance byte_eq_dec : EqDecision byte.
Proof. intros x y. destruct (Byte.byte_eq_dec x y); [left|right]; assumption. Defined.

(** The numeric value of a byte, and the byte of a number ([n as u8]). *)
Definition b2n (b : byte) : N := Byte.to_N b.
Definition n2b (n : N) : byte := default x00 (Byte.of_N (N.land n 255)).

Lemma low_byte n : (N.land n 255 = n mod 256)%N.
Proof. exact (N.land_ones n 8). Qed.

Lemma b2n_lt b : (b2n b < 256)%N.
Proof. unfold b2n. pose proof (Byte.to_N_bounded b). lia. Qed.

Lemma n2b_b2n b : n2b (b2n b) = b.
Proof.
  unfold n2b. rewrite low_byte, N.mod_small by apply b2n_lt.
  unfold b2n. by rewrite Byte.of_to_N.
Qed.

Lemma b2n_n2b n : b2n (n2b n) = (n mod 256)%N.
Proof.
  unfold n2b, b2n. rewrite low_byte. destruct (Byte.of_N (n mod 256)) as [b|] eqn:Hb; simpl.
  - by apply Byte.to_of_N.
  - apply Byte.of_N_None_iff in Hb.
    pose proof (N.mod_lt n 256 ltac:(done)). lia.
Qed.

Lemma b2n_inj a b : b2n a = b2n b → a = b.
Proof. intros H. by rewrite <- (n2b_b2n a), <- (n2b_b2n b), H. Qed.

#[global] Program Instance byte_countable : Countable byte :=
  inj_countable b2n (λ n, Some (n2b n)) _.
Next Obligation. intros b. simpl. by rewrite n2b_b2n. Qed.

(** A Rust string literal, as the bytes of its UTF-8 encoding (the literals
    of the source are ASCII). *)
Definition lit (s : string) : bytes := String.list_byte_of_string s.

(** ** Machine integers

    Unsigned integers are [N], with the wrap-around and the saturation of the
    source written out.  [saturating_sub] is [N.sub], which truncates at 0. *)
Definition u16_max : N := 65535.
Definition u32_max : N := 4294967295.
Definition u64_max : N := 18446744073709551615.

(** [x as u32] on a wider integer. *)
Definition as_u32 (n : N) : N := n mod 4294967296.
(** Wrapping 64-bit and 32-bit results ([+] in a release build). *)
Definition wrap64 (n : N) : N := n mod 18446744073709551616.
Definition wrap32 (n : N) : N := n mod 4294967296.
(** [u64::saturating_add] (and [usize::saturating_add] on a 64-bit target). *)
Definition sat_add64 (a b : N) : N := N.min (a + b) u64_max.

(** [Vec::len], [str::len]: a [usize]. *)
Definition len {A} (l : list A) : N := N.of_nat (length l).

Lemma len_app {A} (l k : list A) : len (l ++ k) = (len l + len k)%N.
Proof. unfold len. rewrite length_app. lia. Qed.

Lemma len_cons {A} (x : A) l : len (x :: l) = (1 + len l)%N.
Proof. unfold len. simpl. lia. Qed.

Lemma len_nil {A} : len (@nil A) = 0%N.
Proof. done. Qed.

(** ** Results: Rust's [Result<A, E>] *)
Inductive result (A E : Type) : Type :=
  | Ok (a : A)
  | Err (e : E).
Arguments Ok {A E} a.
Arguments Err {A E} e.

Definition is_ok {A E} (r : result A E) : bool :=
  match r with Ok _ => true | Err _ => false end.

Definition result_bind {A B E} (m : result A E) (k : A → result B E) : result B E :=
  match m with Ok a => k a | Err e => Err e end.

Definition map_err {A E F} (f : E → F) (m : result A E) : result A F :=
  match m with Ok a => Ok a | Err e => Err (f e) end.

Definition ok_or {A E} (o : option A) (e : E) : result A E :=
  match o with Some a => Ok a | None => Err e end.

(** [let x = m?; k] and [m?; k]. *)
Notation "'let?' x := m 'in' k" :=
  (result_bind m (λ x, k)) (at level 10, x pattern, m at level 100, k at level 200) : dante_scope.
(** [if c { return Err(e) }; k] *)
Notation "'guard' c 'else' e ';' k" :=
  (if c then k else Err e) (at level 10, c at level 100, e at level 100, k at level 200)
  : dante_scope.

#[global] Instance result_eq_dec `{EqDecision A, EqDecision E} : EqDecision (result A E).
Proof. solve_decision. Defined.

Lemma result_bind_Ok {A B E} (m : result A E) (k : A → result B E) b :
  result_bind m k = Ok b ↔ ∃ a, m = Ok a ∧ k a = Ok b.
Proof. destruct m; simpl; naive_solver. Qed.

(** Method chaining on a builder: [w.u16(v).u8(k)]. *)
Notation "w |> f" := (f w) (at level 50, left associativity, only parsing) : dante_scope.

(** ** Tactics *)

(** Break every [if], [match] and [bind] of an equation that ends in [Ok]. *)
Ltac inv_result :=
  repeat match goal with
  | H : result_bind ?m _ = Ok _ |- _ =>
      let a := fresh "a" in let Ha := fresh "Hm" in
      apply result_bind_Ok in H as (a & Ha & H)
  | H : Ok _ = Ok _ |- _ => injection H as H; subst
  | H : Err _ = Ok _ |- _ => discriminate H
  | H : Ok _ = Err _ |- _ => discriminate H
  | H : map_err _ ?m = Ok _ |- _ => destruct m eqn:?; simpl in H
  | H : ok_or ?m _ = Ok _ |- _ => destruct m eqn:?; simpl in H
  end.

(** ** Lists *)

Lemma app_inj_length_l {A} (a b c d : list A) :
  length a = length c → a ++ b = c ++ d → a = c ∧ b = d.
Proof. intros Hl H. by apply app_inj_1. Qed.

Lemma take_app_all {A} (l k : list A) n : n = length l → take n (l ++ k) = l.
Proof. intros ->. by rewrite take_app_length. Qed.

Lemma drop_app_all {A} (l k : list A) n : n = length l → drop n (l ++ k) = k.
Proof. intros ->. by rewrite drop_app_length. Qed.

(** The first position satisfying a test ([iter().position]). *)
Fixpoint position {A} (p : A → bool) (l : list A) : option nat :=
  match l with
  | [] => None
  | x :: l' => if p x then Some 0%nat else S <$> position p l'
  end.

(** Sum of a measure over a list, in [N] ([iter().map(f).sum()]). *)
Definition sum_by {A} (f : A → N) (l : list A) : N := foldr (λ x acc, f x + acc)%N 0%N l.

Lemma sum_by_app {A} (f : A → N) l k : sum_by f (l ++ k) = (sum_by f l + sum_by f k)%N.
Proof. induction l as [|x l IH]; simpl; [done|]. unfold sum_by in *. simpl. lia. Qed.

Lemma sum_by_perm {A} (f : A → N) l k : l ≡ₚ k → sum_by f l = sum_by f k.
Proof. induction 1; unfold sum_by in *; simpl in *; lia. Qed.

Lemma sum_by_elem {A} (f : A → N) l x : x ∈ l → (f x ≤ sum_by f l)%N.
Proof.
  induction 1 as [x l|x y l _ IH]; unfold sum_by in *; simpl in *; lia.
Qed.

(** [VecDeque] used as a bounded queue: [push_back] then [pop_front] while
    the queue is longer than [cap]. *)
Definition push_capped {A} (cap : nat) (x : A) (q : list A) : list A :=
  let q' := q ++ [x] in drop (length q' - cap) q'.

Lemma push_capped_bound {A} cap (x : A) q : (length (push_capped cap x q) ≤ cap)%nat.
Proof. unfold push_capped. rewrite length_drop. lia. Qed.

(** Whether every byte list of a list fits a [u32] length prefix. *)
Definition fits_u32 {A} (l : list A) : Prop := (len l < 4294967296)%N.

(** ** Stateful operations

    A [&mut self] method that returns a [Result]: the state is threaded
    through errors too (an early [return Err(..)] keeps what was written
    before it), and [None] is a panic (an index out of bounds). *)
Definition Step (S E A : Type) : Type := S → option (result A E * S).

Section step.
Context {S E : Type}.
Definition st_ret {A} (a : A) : Step S E A := λ s, Some (Ok a, s).
Definition st_bind {A B} (m : Step S E A) (k : A → Step S E B) : Step S E B :=
  λ s, match m s with
       | None => None
       | Some (Ok a, s') => k a s'
       | Some (Err e, s') => Some (Err e, s')
       end.
(** Use a pure [Result] with [?]. *)
Definition st_lift {A} (m : result A E) : Step S E A := λ s, Some (m, s).
(** [if c { return Err(e) }] *)
Definition st_reject (c : bool) (e : E) : Step S E unit :=
  λ s, Some (if c then Err e else Ok tt, s).
(** [v[i]]: panics out of bounds. *)
Definition st_index {A} (o : option A) : Step S E A :=
  λ s, match o with Some a => Some (Ok a, s) | None => None end.
Definition st_get : Step S E S := λ s, Some (Ok s, s).
Definition st_modify (f : S → S) : Step S E unit := λ s, Some (Ok tt, f s).
End step.

Notation "'do!' x := m 'in' k" :=
  (st_bind m (λ x, k)) (at level 10, x pattern, m at level 100, k at level 200) : dante_scope.

(** The state a step reads is the one it runs in. *)
Lemma st_get_bind {S E A} (k : S → Step S E A) s : st_bind st_get k s = k s s.
Proof. done. Qed.
Lemma st_bind_Some {S E A B} (m : Step S E A) (k : A → Step S E B) s r s' :
  st_bind m k s = Some (r, s') ↔
  (∃ a s1, m s = Some (Ok a, s1) ∧ k a s1 = Some (r, s')) ∨
  (∃ e, m s = Some (Err e, s') ∧ r = Err e).
Proof.
  unfold st_bind. destruct (m s) as [[[a|e] s1]|]; split.
  - intros H. left. eauto.
  - intros [(? & ? & [= <- <-] & ?)|(? & ? & _)]; done.
  - intros [= <- <-]. right. eauto.
  - intros [(? & ? & ? & _)|(? & [= <- <-] & ->)]; done.
  - done.
  - intros [(? & ? & ? & _)|(? & ? & _)]; done.
Qed.

(** A successful run ran every step. *)
Lemma st_bind_Ok {S E A B} (m : Step S E A) (k : A → Step S E B) s b s' :
  st_bind m k s = Some (Ok b, s') ↔ ∃ a s1, m s = Some (Ok a, s1) ∧ k a s1 = Some (Ok b, s').
Proof. rewrite st_bind_Some. naive_solver. Qed.

(** Take a successful run of a stateful operation apart. *)
Ltac inv_step :=
  repeat match goal with
  | H : st_bind _ _ _ = Some (Ok _, _) |- _ =>
      let a := fresh "a" in let s := fresh "s" in let Hm := fresh "Hm" in
      apply st_bind_Ok in H as (a & s & Hm & H)
  | H : st_ret _ _ = Some _ |- _ => unfold st_ret in H; injection H as H; subst
  | H : st_get _ = Some (Ok _, _) |- _ => unfold st_get in H; injection H as <- <-
  | H : st_modify _ _ = Some (Ok _, _) |- _ => unfold st_modify in H; first [injection H as <- <-|injection H as <-]
  | H : st_lift ?m _ = Some (Ok _, _) |- _ =>
      let E := fresh "E" in unfold st_lift in H; injection H as E <-
  | H : st_index ?o _ = Some (Ok _, _) |- _ =>
      let E := fresh "E" in unfold st_index in H; destruct o eqn:E in H; [injection H as <- <-|discriminate H]
  | H : st_reject ?c _ _ = Some (Ok _, _) |- _ =>
      let E := fresh "E" in unfold st_reject in H; destruct c eqn:E in H;
      [discriminate H|first [injection H as <- <-|injection H as <-]]
  end.

(** [slice::sort_by_key] is stable: an element goes before the first later one
    with a key that is not smaller. *)
Fixpoint insert_by {A} (key : A → N) (x : A) (l : list A) : list A :=
  match l with
  | [] => [x]
  | y :: l' => if (key x <=? key y)%N then x :: l else y :: insert_by key x l'
  end.
Definition sort_by_key {A} (key : A → N) (l : list A) : list A := foldr (insert_by key) [] l.

Lemma insert_by_perm {A} (key : A → N) x l : insert_by key x l ≡ₚ x :: l.
Proof.
  induction l as [|y l IH]; simpl; [done|]. destruct (_ <=? _)%N; [done|].
  rewrite IH. by constructor.
Qed.

Lemma sort_by_key_perm {A} (key : A → N) l : sort_by_key key l ≡ₚ l.
Proof.
  induction l as [|x l IH]; [done|]. unfold sort_by_key in *. cbn [foldr].
  by rewrite insert_by_perm, IH.
Qed.

Lemma insert_by_sorted {A} (key : A → N) x l :
  StronglySorted (λ a b, key a ≤ key b)%N l → StronglySorted (λ a b, key a ≤ key b)%N (insert_by key x l).
Proof.
  induction 1 as [|y l Hl IH Hy]; simpl; [by repeat constructor|].
  destruct (key x <=? key y)%N eqn:E.
  - apply N.leb_le in E. constructor; [by constructor|]. constructor; [done|].
    eapply List.Forall_impl; [|exact Hy]. simpl. lia.
  - apply N.leb_gt in E. constructor; [done|]. rewrite insert_by_perm. constructor; [lia|done].
Qed.

Lemma sort_by_key_sorted {A} (key : A → N) l :
  StronglySorted (λ a b, key a ≤ key b)%N (sort_by_key key l).
Proof.
  induction l as [|x l IH]; [constructor|]. unfold sort_by_key in *. cbn [foldr]. by apply insert_by_sorted.
Qed.

(** ** Totals over a finite map ([values().map(f).sum()]) *)
Section map_sum.
Context {K : Type} `{Countable K}.

Definition map_sum {V} (f : V → N) (m : gmap K V) : N := sum_by (f ∘ snd) (map_to_list m).

Lemma map_sum_empty {V} (f : V → N) : map_sum f (∅ : gmap K V) = 0%N.
Proof. unfold map_sum. by rewrite map_to_list_empty. Qed.

Lemma map_sum_insert {V} (f : V → N) (m : gmap K V) k v :
  m !! k = None → map_sum f (<[k := v]> m) = (f v + map_sum f m)%N.
Proof.
  intros Hk. unfold map_sum. etrans; [apply sum_by_perm, map_to_list_insert, Hk|done].
Qed.

Lemma map_sum_delete {V} (f : V → N) (m : gmap K V) k v :
  m !! k = Some v → map_sum f m = (f v + map_sum f (delete k m))%N.
Proof.
  intros Hk. rewrite <- (map_sum_insert f (delete k m) k v) by apply lookup_delete_eq.
  by rewrite insert_delete_id.
Qed.

(** Replacing the value of a key. *)
Lemma map_sum_update {V} (f : V → N) (m : gmap K V) k v :
  (map_sum f (<[k := v]> m) + from_option f 0 (m !! k) = f v + map_sum f m)%N.
Proof.
  rewrite <- insert_delete_eq, map_sum_insert by apply lookup_delete_eq.
  destruct (m !! k) as [w|] eqn:Hk; simpl.
  - rewrite (map_sum_delete f m k w Hk). lia.
  - rewrite delete_id by done. lia.
Qed.

Lemma map_sum_elem {V} (f : V → N) (m : gmap K V) k v : m !! k = Some v → (f v ≤ map_sum f m)%N.
Proof. intros Hk. rewrite (map_sum_delete f m k v Hk). lia. Qed.

Lemma map_sum_ext {V} (f g : V → N) (m : gmap K V) :
  (∀ k v, m !! k = Some v → f v = g v) → map_sum f m = map_sum g m.
Proof.
  induction m as [|k v m Hk IH] using map_ind; intros Hfg; [done|].
  rewrite !map_sum_insert by done. rewrite IH.
  - by rewrite (Hfg k) by by rewrite lookup_insert_eq.
  - intros k' v' Hk'. apply (Hfg k'). rewrite lookup_insert_ne; [done|]. congruence.
Qed.

(** [retain] and [values_mut]: keep or change the values, dropping some. *)
Lemma map_sum_omap {V W} (f : V → N) (g : W → N) (h : V → option W) (m : gmap K V) :
  (∀ k v, m !! k = Some v → from_option g 0 (h v) = f v)%N →
  map_sum g (omap h m) = map_sum f m.
Proof.
  induction m as [|k v m Hk IH] using map_ind; intros Hh; [by rewrite omap_empty|].
  assert (IH' : map_sum g (omap h m) = map_sum f m).
  { apply IH. intros k' v' Hk'. apply (Hh k'). rewrite lookup_insert_ne; [done|congruence]. }
  pose proof (Hh k v (lookup_insert_eq _ _ _)) as Hv.
  rewrite map_sum_insert by done. destruct (h v) as [w|] eqn:Ehv; simpl in Hv.
  - rewrite (omap_insert_Some h m k v w Ehv), map_sum_insert; [lia|].
    by rewrite lookup_omap, Hk.
  - rewrite (omap_insert_None h m k v Ehv), delete_id; [lia|]. by rewrite lookup_omap, Hk.
Qed.
End map_sum.
