(* ===== verification/Utf8.v ===== *)
(** * UTF-8, as the Rust standard library checks it

    A Rust [String] or [&str] is modelled by its UTF-8 bytes; this file gives
    the well-formedness test behind [core::str::from_utf8], the characters of
    a valid string ([str::chars]) and the character boundaries
    ([str::is_char_boundary]).  The table is the one of the Unicode standard:
    no overlong forms, no surrogates, nothing above U+10FFFF. *)

From S2P Require Import Prelude.

(** A continuation byte, [10xxxxxx]. *)
Definition is_cont (b : byte) : bool := (128 <=? b2n b)%N && (b2n b <? 192)%N.

Definition low6 (b : byte) : N := (b2n b mod 64)%N.

(** The code points of a byte string, when it is well-formed. *)
Fixpoint utf8_decode (bs : bytes) : option (list N) :=
  match bs with
  | [] => Some []
  | b0 :: r0 =>
    if (b2n b0 <? 128)%N then cons (b2n b0) <$> utf8_decode r0
    else if (b2n b0 <? 194)%N then None
    else match r0 with
    | [] => None
    | b1 :: r1 =>
      if negb (is_cont b1) then None
      else if (b2n b0 <? 224)%N
      then cons (b2n b0 mod 32 * 64 + low6 b1)%N <$> utf8_decode r1
      else match r1 with
      | [] => None
      | b2 :: r2 =>
        if negb (is_cont b2) then None
        else if (b2n b0 <? 240)%N then
          let c := (b2n b0 mod 16 * 4096 + low6 b1 * 64 + low6 b2)%N in
          if (c <? 2048)%N || ((55296 <=? c)%N && (c <? 57344)%N) then None
          else cons c <$> utf8_decode r2
        else match r2 with
        | [] => None
        | b3 :: r3 =>
          if negb (is_cont b3) || (245 <=? b2n b0)%N then None
          else
            let c := (b2n b0 mod 8 * 262144 + low6 b1 * 4096 + low6 b2 * 64 + low6 b3)%N in
            if (c <? 65536)%N || (1114111 <? c)%N then None
            else cons c <$> utf8_decode r3
        end
      end
    end
  end.

(** [core::str::from_utf8(bs).is_ok()]. *)
Definition utf8_valid (bs : bytes) : bool :=
  match utf8_decode bs with Some _ => true | None => false end.

(** [char::is_control]: the general category Cc. *)
Definition is_control (c : N) : bool :=
  (c <? 32)%N || ((127 <=? c)%N && (c <? 160)%N).

(** [s.chars().all(|c| !c.is_control())] of a valid string. *)
Definition no_control_chars (s : bytes) : bool :=
  match utf8_decode s with
  | Some cs => forallb (λ c, negb (is_control c)) cs
  | None => false
  end.

(** [str::is_char_boundary]. *)
Definition is_char_boundary (s : bytes) (i : nat) : bool :=
  if (i =? 0)%nat then true
  else match s !! i with
  | None => (i =? length s)%nat
  | Some b => negb (is_cont b)
  end.

(** [u8::to_ascii_lowercase] *)
Definition ascii_lowercase (b : byte) : byte :=
  if ((65 <=? b2n b) && (b2n b <=? 90))%N then n2b (b2n b + 32) else b.

Example utf8_ascii : utf8_valid (lit "hello") = true. Proof. reflexivity. Qed.
Example utf8_o_umlaut : utf8_decode [xc3; xb6] = Some [246%N]. Proof. reflexivity. Qed.
Example utf8_bad_ff : utf8_valid [xff] = false. Proof. reflexivity. Qed.
Example utf8_overlong : utf8_valid [xc0; x80] = false. Proof. reflexivity. Qed.
Example utf8_surrogate : utf8_valid [xed; xa0; x80] = false. Proof. reflexivity. Qed.

#[local] Tactic Notation "break_if" hyp(H) "as" ident(E) :=
  match type of H with context [if ?c then None else _] => destruct c eqn:E end.

(** A valid string splits at its first character, which has one to four
    bytes, the first of them not a continuation byte and the others are. *)
Lemma utf8_valid_cons s :
  utf8_valid s = true → s ≠ [] →
  ∃ b tl rest, s = b :: tl ++ rest ∧ is_cont b = false ∧
    forallb is_cont tl = true ∧ (length tl ≤ 3)%nat ∧ utf8_valid rest = true ∧
    (∀ rest', utf8_valid rest' = true → utf8_valid (b :: tl ++ rest') = true).
Proof.
  unfold utf8_valid. intros Hv Hne. destruct s as [|b0 r0]; [done|].
  simpl in Hv.
  destruct (b2n b0 <? 128)%N eqn:H0.
  { exists b0, [], r0. simpl. rewrite H0.
    destruct (utf8_decode r0) eqn:?; simpl in *; [|done].
    split_and!; [done| |done|lia|done|].
    - unfold is_cont. apply andb_false_intro1, N.leb_gt. by apply N.ltb_lt in H0.
    - intros rest' Hr. destruct (utf8_decode rest'); done. }
  destruct (b2n b0 <? 194)%N eqn:H1; [done|].
  assert (Hc : is_cont b0 = false).
  { unfold is_cont. apply andb_false_intro2. apply N.ltb_ge. apply N.ltb_ge in H1. lia. }
  destruct r0 as [|b1 r1]; [done|].
  destruct (is_cont b1) eqn:Hc1; simpl in Hv; [|done].
  destruct (b2n b0 <? 224)%N eqn:H2.
  { exists b0, [b1], r1. simpl. rewrite H0, H1, Hc1. simpl. rewrite H2.
    destruct (utf8_decode r1) eqn:?; simpl in *; [|done].
    split_and!; first [done | lia | by simpl; rewrite ?Hc1, ?Hc2, ?Hc3 | intros rest' Hr; destruct (utf8_decode rest'); done]. }
  destruct r1 as [|b2 r2]; [done|].
  destruct (is_cont b2) eqn:Hc2; simpl in Hv; [|done].
  destruct (b2n b0 <? 240)%N eqn:H3.
  { break_if Hv as Hrange; [done|].
    exists b0, [b1; b2], r2. simpl. rewrite H0, H1, Hc1, H2, Hc2. simpl. rewrite H3, Hrange.
    destruct (utf8_decode r2) eqn:?; simpl in *; [|done].
    split_and!; first [done | lia | by simpl; rewrite ?Hc1, ?Hc2, ?Hc3 | intros rest' Hr; destruct (utf8_decode rest'); done]. }
  destruct r2 as [|b3 r3]; [done|].
  break_if Hv as H4; [done|]. break_if Hv as Hrange; [done|].
  exists b0, [b1; b2; b3], r3. simpl. rewrite H0, H1, Hc1, H2, Hc2. simpl. rewrite H3, H4, Hrange.
  pose proof H4 as [Hc3%negb_false_iff _]%orb_false_iff.
  destruct (utf8_decode r3) eqn:?; simpl in *; [|done].
  split_and!; first [done | lia | by simpl; rewrite ?Hc1, ?Hc2, ?Hc3 | intros rest' Hr; destruct (utf8_decode rest'); done].
Qed.

(** Cutting a valid string at a character boundary leaves a valid string. *)
Lemma utf8_take_boundary s i :
  utf8_valid s = true → is_char_boundary s i = true → utf8_valid (take i s) = true.
Proof.
  remember (length s) as n eqn:Hn. revert s Hn i.
  induction n as [n IH] using lt_wf_ind. intros s -> i Hv Hb.
  destruct i as [|i]; [done|].
  destruct s as [|b0 s0]; [done|].
  destruct (utf8_valid_cons (b0 :: s0) Hv) as (b & tl & rest & E & Hc & Htl & Hlen & Hr & Hk); [done|].
  injection E as -> ->.
  unfold is_char_boundary in Hb. simpl in Hb.
  destruct (decide (i < length tl)%nat) as [Hi|Hi].
  { rewrite lookup_app_l in Hb by lia.
    destruct (lookup_lt_is_Some_2 tl i Hi) as [c Hlk]. rewrite Hlk in Hb.
    assert (is_cont c = true) as Hcc.
    { rewrite forallb_forall in Htl. apply Htl. apply list_elem_of_In.
      by eapply list_elem_of_lookup_2. }
    by rewrite Hcc in Hb. }
  simpl. rewrite take_app_ge by lia.
  apply Hk. apply (IH (length rest)); [simpl; rewrite length_app; lia|done|done|].
  rewrite lookup_app_r in Hb by lia. unfold is_char_boundary.
  destruct (i - length tl)%nat as [|j] eqn:Ej; [done|]. change (S j =? 0)%nat with false. cbv iota.
  destruct (rest !! S j); [done|].
  apply Nat.eqb_eq in Hb. apply Nat.eqb_eq. rewrite length_app in Hb. lia.
Qed.

(** [truncate] helper used by the identity records: a boundary is at most
    three bytes below any position. *)
Lemma char_boundary_near s i :
  utf8_valid s = true → (i ≤ length s)%nat →
  ∃ j, (j ≤ i)%nat ∧ (i ≤ j + 3)%nat ∧ is_char_boundary s j = true.
Proof.
  remember (length s) as n eqn:Hn. revert s Hn i.
  induction n as [n IH] using lt_wf_ind. intros s -> i Hv Hi.
  destruct i as [|i]; [exists 0%nat; auto with lia|].
  destruct s as [|b0 s0]; [simpl in Hi; lia|].
  destruct (utf8_valid_cons (b0 :: s0) Hv) as (b & tl & rest & E & Hc & Htl & Hlen & Hr & Hk); [done|].
  injection E as -> ->. simpl in Hi. rewrite length_app in Hi.
  destruct (decide (i < length tl)%nat) as [Hlt|Hge].
  { exists 0%nat. repeat split; lia. }
  destruct (IH (length rest)) with (s := rest) (i := (i - length tl)%nat) as (j & Hj1 & Hj2 & Hj);
    [simpl; rewrite length_app; lia|done|done|lia|].
  exists (S (length tl + j))%nat. repeat split; [lia..|].
  unfold is_char_boundary in *. change (S (length tl + j) =? 0)%nat with false. cbv iota.
  change ((b :: tl ++ rest) !! S (length tl + j)%nat) with ((tl ++ rest) !! (length tl + j)%nat).
  change (length (b :: tl ++ rest)) with (S (length (tl ++ rest))).
  rewrite lookup_app_r by lia. replace (length tl + j - length tl)%nat with j by lia.
  destruct (j =? 0)%nat eqn:Ej.
  - apply Nat.eqb_eq in Ej as ->. destruct rest as [|c rest'] eqn:Hrest; simpl.
    + apply Nat.eqb_eq. rewrite length_app. simpl. lia.
    + destruct (utf8_valid_cons (c :: rest') Hr) as (c' & ? & ? & E & Hcc & _); [done|].
      injection E as -> _. by rewrite Hcc.
  - destruct (rest !! j); [done|]. apply Nat.eqb_eq. apply Nat.eqb_eq in Hj.
    rewrite length_app. lia.
Qed.
