(* ===== verification/Enc.v ===== *)
(** * The canonical codec ([crates/dante-proto/src/enc.rs])

    [Writer] appends to a buffer, [Reader] walks a buffer with a position.
    Two interfaces say what a decoder promises about an encoding, and every
    wire type of the development is proved against them:
    [Parses] (decoding an encoding gives the value back and stops after it)
    and [Canon] (whatever decodes was the encoding of the value). *)

From S2P Require Import Prelude Utf8.

(** ** Decode errors *)
Inductive WireError : Type :=
  | Eof
  | Trailing (n : N)
  | LengthTooLarge (n : N)
  | BadBool (b : N)
  | BadUtf8
  | BadDiscriminant (ty : string) (value : N)
  | Invalid (what : string).

#[global] Instance WireError_eq_dec : EqDecision WireError.
Proof. solve_decision. Defined.

(** ** Big-endian integers ([to_be_bytes], [from_be_bytes]) *)

Fixpoint be (k : nat) (v : N) : bytes :=
  match k with
  | O => []
  | S k' => n2b (N.shiftr v (8 * N.of_nat k')) :: be k' v
  end.

Lemma be_S k v : be (S k) v = n2b (v / 256 ^ N.of_nat k) :: be k v.
Proof. cbn [be]. by rewrite N.shiftr_div_pow2, N.pow_mul_r. Qed.

Definition of_be (bs : bytes) : N := foldl (λ acc b, acc * 256 + b2n b)%N 0%N bs.

Lemma length_be k v : length (be k v) = k.
Proof. induction k; simpl; congruence. Qed.

Lemma of_be_app bs b : of_be (bs ++ [b]) = (of_be bs * 256 + b2n b)%N.
Proof. unfold of_be. by rewrite foldl_app. Qed.

Lemma foldl_be_acc bs acc :
  foldl (λ acc b, acc * 256 + b2n b)%N acc bs = (acc * 256 ^ len bs + of_be bs)%N.
Proof.
  revert acc. unfold of_be. induction bs as [|b bs IH]; intros acc.
  - simpl. rewrite len_nil, N.pow_0_r. lia.
  - cbn [foldl]. rewrite IH, (IH (0 * 256 + b2n b)%N), len_cons, N.pow_add_r, N.pow_1_r. lia.
Qed.

Lemma of_be_cons b bs : of_be (b :: bs) = (b2n b * 256 ^ len bs + of_be bs)%N.
Proof. unfold of_be at 1. cbn [foldl]. rewrite foldl_be_acc. f_equal. Qed.

Lemma of_be_lt bs : (of_be bs < 256 ^ len bs)%N.
Proof.
  induction bs as [|b bs IH]; [done|].
  rewrite of_be_cons, len_cons, N.pow_add_r, N.pow_1_r. pose proof (b2n_lt b). nia.
Qed.

Lemma len_be k v : len (be k v) = N.of_nat k.
Proof. unfold len. by rewrite length_be. Qed.

Lemma of_be_be k v : of_be (be k v) = (v mod 256 ^ N.of_nat k)%N.
Proof.
  induction k as [|k IH]; [by rewrite N.mod_1_r|].
  rewrite be_S, of_be_cons, IH, len_be, b2n_n2b.
  replace (N.of_nat (S k)) with (N.of_nat k + 1)%N by lia.
  rewrite N.pow_add_r, N.pow_1_r, N.Div0.mod_mul_r. lia.
Qed.

Lemma be_mod k v : be k (v mod 256 ^ N.of_nat k) = be k v.
Proof.
  assert (H : ∀ j m, (j ≤ m)%nat → be j (v mod 256 ^ N.of_nat m) = be j v).
  { induction j as [|j IH]; intros m Hm; [done|]. rewrite !be_S. f_equal; [|apply IH; lia].
    rewrite <- (n2b_b2n (n2b (v / _))), <- (n2b_b2n (n2b (_ / _))), !b2n_n2b. f_equal.
    replace (N.of_nat m) with (N.of_nat j + (1 + N.of_nat (m - S j)))%N by lia.
    rewrite N.pow_add_r, N.Div0.mod_mul_r, N.mul_comm, N.div_add by (apply N.pow_nonzero; lia).
    rewrite N.div_small by (apply N.mod_lt, N.pow_nonzero; lia). rewrite N.add_0_l.
    rewrite N.pow_add_r, N.pow_1_r, N.Div0.mod_mul_r, N.mul_comm, N.Div0.mod_add.
    apply N.Div0.mod_mod. }
  by apply H.
Qed.

Lemma be_of_be bs : be (length bs) (of_be bs) = bs.
Proof.
  induction bs as [|b bs IH]; [done|]. cbn [length]. rewrite be_S. f_equal.
  - rewrite of_be_cons. unfold len. rewrite N.add_comm, N.div_add by (apply N.pow_nonzero; lia).
    rewrite N.div_small by (rewrite <- (Nat2N.id (length bs)); rewrite Nat2N.id; apply of_be_lt).
    by rewrite N.add_0_l, n2b_b2n.
  - transitivity (be (length bs) (of_be bs)); [|done].
    rewrite <- (be_mod _ (of_be (b :: bs))), <- (be_mod _ (of_be bs)). f_equal. rewrite of_be_cons. unfold len. rewrite N.add_comm, N.Div0.mod_add. done.
Qed.

(** Byte strings of one length are equal when they spell one number. *)
Lemma of_be_inj a b : length a = length b → of_be a = of_be b → a = b.
Proof. intros Hl He. by rewrite <- (be_of_be a), <- (be_of_be b), He, Hl. Qed.

Lemma be_inj k v w :
  (v < 256 ^ N.of_nat k)%N → (w < 256 ^ N.of_nat k)%N → be k v = be k w → v = w.
Proof.
  intros Hv Hw H. rewrite <- (N.mod_small v _ Hv), <- (N.mod_small w _ Hw).
  by rewrite <- !of_be_be, H.
Qed.


(** ** Writer *)

Record Writer := mkWriter { w_buf : bytes }.

Definition w_new : Writer := mkWriter [].
(** [Writer::with_capacity] only reserves room. *)
Definition w_with_capacity (capacity : N) : Writer := mkWriter [].
Definition w_u8 (v : N) (w : Writer) : Writer := mkWriter (w_buf w ++ [n2b v]).
Definition w_u16 (v : N) (w : Writer) : Writer := mkWriter (w_buf w ++ be 2 v).
Definition w_u32 (v : N) (w : Writer) : Writer := mkWriter (w_buf w ++ be 4 v).
Definition w_u64 (v : N) (w : Writer) : Writer := mkWriter (w_buf w ++ be 8 v).
Definition w_bool (v : bool) (w : Writer) : Writer :=
  mkWriter (w_buf w ++ [n2b (if v then 1 else 0)]).
Definition w_fixed (bs : bytes) (w : Writer) : Writer := mkWriter (w_buf w ++ bs).
(** The length prefix is [bytes.len() as u32]: it truncates. *)
Definition w_bytes (bs : bytes) (w : Writer) : Writer :=
  let w1 := w_u32 (as_u32 (len bs)) w in mkWriter (w_buf w1 ++ bs).
Definition w_string (s : bytes) (w : Writer) : Writer := w_bytes s w.
Definition w_into_vec (w : Writer) : bytes := w_buf w.

(** [for x in xs { w.f(x); }] *)
Definition w_each {A} (f : A → Writer → Writer) (xs : list A) (w : Writer) : Writer :=
  foldl (λ w x, f x w) w xs.

(** The encoding written by each primitive. *)
Definition lenp (bs : bytes) : bytes := be 4 (as_u32 (len bs)) ++ bs.


Lemma w_buf_u8 v w : w_buf (w_u8 v w) = w_buf w ++ [n2b v]. Proof. done. Qed.
Lemma w_buf_u16 v w : w_buf (w_u16 v w) = w_buf w ++ be 2 v. Proof. done. Qed.
Lemma w_buf_u32 v w : w_buf (w_u32 v w) = w_buf w ++ be 4 v. Proof. done. Qed.
Lemma w_buf_u64 v w : w_buf (w_u64 v w) = w_buf w ++ be 8 v. Proof. done. Qed.
Lemma w_buf_bool v w : w_buf (w_bool v w) = w_buf w ++ [n2b (if v then 1 else 0)].
Proof. done. Qed.
Lemma w_buf_fixed v w : w_buf (w_fixed v w) = w_buf w ++ v. Proof. done. Qed.
Lemma w_buf_bytes v w : w_buf (w_bytes v w) = w_buf w ++ lenp v.
Proof. unfold w_bytes, lenp, w_u32. cbn [w_buf]. by rewrite <- app_assoc. Qed.
Lemma w_buf_string v w : w_buf (w_string v w) = w_buf w ++ lenp v.
Proof. apply w_buf_bytes. Qed.
Lemma w_buf_each {A} (f : A → Writer → Writer) (e : A → bytes) xs w :
  (∀ x w, w_buf (f x w) = w_buf w ++ e x) →
  w_buf (w_each f xs w) = w_buf w ++ mjoin (e <$> xs).
Proof.
  intros Hf. revert w. unfold w_each. induction xs as [|x xs IH]; intros w; simpl.
  - by rewrite app_nil_r.
  - by rewrite IH, Hf, <- app_assoc.
Qed.
Lemma w_buf_new : w_buf w_new = []. Proof. done. Qed.
Lemma w_buf_with_capacity n : w_buf (w_with_capacity n) = []. Proof. done. Qed.
Lemma w_into_vec_buf w : w_into_vec w = w_buf w. Proof. done. Qed.

Create Rewrite HintDb writer.
#[export] Hint Rewrite w_into_vec_buf w_buf_u8 w_buf_u16 w_buf_u32 w_buf_u64 w_buf_bool
  w_buf_fixed w_buf_bytes w_buf_string w_buf_new w_buf_with_capacity : writer.

(** ** Reader *)

Record Reader := mkReader { r_buf : bytes; r_pos : nat }.

Definition r_new (buf : bytes) : Reader := mkReader buf 0.
Definition r_remaining (r : Reader) : nat := length (r_buf r) - r_pos r.

(** A read either fails or returns the value and the moved reader. *)
Definition Read (A : Type) : Type := Reader → result (A * Reader) WireError.

Definition r_ret {A} (a : A) : Read A := λ r, Ok (a, r).
Definition r_err {A} (e : WireError) : Read A := λ _, Err e.
Definition r_bind {A B} (m : Read A) (k : A → Read B) : Read B :=
  λ r, match m r with Ok (a, r') => k a r' | Err e => Err e end.

Notation "'let!' x := m 'in' k" :=
  (r_bind m (λ x, k)) (at level 10, x pattern, m at level 100, k at level 200) : dante_scope.

Definition r_take (n : nat) : Read bytes := λ r,
  if (r_remaining r <? n)%nat then Err Eof
  else Ok (take n (drop (r_pos r) (r_buf r)), mkReader (r_buf r) (r_pos r + n)).

Definition r_u8 : Read N := let! b := r_take 1 in r_ret (of_be b).
Definition r_u16 : Read N := let! b := r_take 2 in r_ret (of_be b).
Definition r_u32 : Read N := let! b := r_take 4 in r_ret (of_be b).
Definition r_u64 : Read N := let! b := r_take 8 in r_ret (of_be b).
Definition r_bool : Read bool :=
  let! b := r_u8 in
  if (b =? 0)%N then r_ret false else if (b =? 1)%N then r_ret true else r_err (BadBool b).
Definition r_fixed (n : nat) : Read bytes := r_take n.
Definition r_bytes : Read bytes :=
  let! n := r_u32 in λ r,
  if (N.of_nat (r_remaining r) <? n)%N then Err (LengthTooLarge n)
  else r_take (N.to_nat n) r.
Definition r_string : Read bytes :=
  let! raw := r_bytes in if utf8_valid raw then r_ret raw else r_err BadUtf8.
Definition r_finish : Read unit := λ r,
  if (r_remaining r =? 0)%nat then Ok (tt, r) else Err (Trailing (N.of_nat (r_remaining r))).

(** [r.remaining() > 0] *)
Definition r_more : Read bool := λ r, Ok ((0 <? r_remaining r)%nat, r).

(** [for _ in 0..n { out.push(m?); }] *)
Fixpoint r_repeat {A} (n : nat) (m : Read A) : Read (list A) :=
  match n with
  | O => r_ret []
  | S n' => let! x := m in let! xs := r_repeat n' m in r_ret (x :: xs)
  end.

(** The decoder of every length-prefixed list: a [u32] count, refused when it
    exceeds the bytes left, then that many elements. *)
Definition r_counted {A} (m : Read A) : Read (list A) :=
  let! n := r_u32 in λ r,
  if (N.of_nat (r_remaining r) <? n)%N then Err (LengthTooLarge n)
  else r_repeat (N.to_nat n) m r.

(** Run a decoder on a whole buffer; the value is what [decode] returns. *)
Definition run {A} (m : Read A) (bs : bytes) : result A WireError :=
  match m (r_new bs) with Ok (a, _) => Ok a | Err e => Err e end.

(** ** Laws *)

(** The reader that has consumed [pre] and has [post] left. *)
Definition rd (pre post : bytes) : Reader := mkReader (pre ++ post) (length pre).

Class Parses {A} (m : Read A) (enc : A → bytes) (ok : A → Prop) : Prop :=
  parses a pre post : ok a → m (rd pre (enc a ++ post)) = Ok (a, rd (pre ++ enc a) post).

Class Canon {A} (m : Read A) (enc : A → bytes) (ok : A → Prop) : Prop :=
  canon pre xs a r : m (rd pre xs) = Ok (a, r) →
    ok a ∧ ∃ post, xs = enc a ++ post ∧ r = rd (pre ++ enc a) post.

Lemma r_new_rd bs : r_new bs = rd [] bs. Proof. done. Qed.

Lemma r_remaining_rd pre post : r_remaining (rd pre post) = length post.
Proof. unfold r_remaining, rd. simpl. rewrite length_app. lia. Qed.

Lemma r_take_rd n pre xs :
  r_take n (rd pre xs) =
  if (length xs <? n)%nat then Err Eof else Ok (take n xs, rd (pre ++ take n xs) (drop n xs)).
Proof.
  unfold r_take. rewrite r_remaining_rd. destruct (length xs <? n)%nat eqn:H; [done|].
  apply Nat.ltb_ge in H. unfold rd. cbn [r_buf r_pos].
  rewrite drop_app_length, <- app_assoc, take_drop.
  rewrite length_app, length_take. do 2 f_equal. by rewrite Nat.min_l by lia.
Qed.

Lemma r_bind_rd {A B} (m : Read A) enc ok (k : A → Read B) a pre post :
  Parses m enc ok → ok a →
  r_bind m k (rd pre (enc a ++ post)) = k a (rd (pre ++ enc a) post).
Proof. intros Hp Ha. unfold r_bind. by rewrite (parses a pre post Ha). Qed.

Lemma r_bind_canon {A B} (m : Read A) enc ok (k : A → Read B) pre xs b r :
  Canon m enc ok → r_bind m k (rd pre xs) = Ok (b, r) →
  ∃ a post, ok a ∧ xs = enc a ++ post ∧ k a (rd (pre ++ enc a) post) = Ok (b, r).
Proof.
  unfold r_bind. intros Hc H. destruct (m (rd pre xs)) as [[a r']|] eqn:E; [|done].
  destruct (canon pre xs a r' E) as (Ha & post & -> & ->). eauto.
Qed.

(** ** The primitives meet the laws *)

Definition enc_u8 (v : N) : bytes := [n2b v].
Definition enc_bool (b : bool) : bytes := [n2b (if b then 1 else 0)].
Definition ok_u8 (v : N) : Prop := (v < 256)%N.
Definition ok_u16 (v : N) : Prop := (v < 65536)%N.
Definition ok_u32 (v : N) : Prop := (v < 4294967296)%N.
Definition ok_u64 (v : N) : Prop := (v < 18446744073709551616)%N.
Definition ok_len (n : nat) (bs : bytes) : Prop := length bs = n.
Definition ok_str (s : bytes) : Prop := fits_u32 s ∧ utf8_valid s = true.

Lemma take_read_parses {A} n (f : bytes → A) (enc : A → bytes) (ok : A → Prop) :
  (∀ a, ok a → length (enc a) = n ∧ f (enc a) = a) →
  Parses (let! b := r_take n in r_ret (f b)) enc ok.
Proof.
  intros H a pre post Ha. destruct (H a Ha) as [Hl Hf].
  unfold r_bind, r_ret. rewrite r_take_rd, length_app.
  destruct (_ <? _)%nat eqn:E; [apply Nat.ltb_lt in E; lia|].
  by rewrite take_app_all, drop_app_all, Hf by done.
Qed.

Lemma take_read_canon {A} n (f : bytes → A) (enc : A → bytes) (ok : A → Prop) :
  (∀ bs, length bs = n → ok (f bs) ∧ enc (f bs) = bs) →
  Canon (let! b := r_take n in r_ret (f b)) enc ok.
Proof.
  intros H pre xs a r. unfold r_bind, r_ret. rewrite r_take_rd.
  destruct (length xs <? n)%nat eqn:E; [done|]. apply Nat.ltb_ge in E.
  intros [= <- <-]. destruct (H (take n xs)) as [Hok He]; [rewrite length_take; lia|].
  split; [done|]. exists (drop n xs). by rewrite He, take_drop.
Qed.

Lemma int_parses k : Parses (let! b := r_take k in r_ret (of_be b)) (be k)
  (λ v, v < 256 ^ N.of_nat k)%N.
Proof.
  apply take_read_parses. intros v Hv. rewrite length_be, of_be_be. split; [done|].
  by apply N.mod_small.
Qed.

Lemma int_canon k : Canon (let! b := r_take k in r_ret (of_be b)) (be k)
  (λ v, v < 256 ^ N.of_nat k)%N.
Proof.
  apply take_read_canon. intros bs <-. split; [apply of_be_lt|apply be_of_be].
Qed.

#[export] Instance u8_parses : Parses r_u8 enc_u8 ok_u8.
Proof.
  apply take_read_parses. intros v Hv. split; [done|].
  unfold enc_u8, of_be. simpl. rewrite b2n_n2b. by apply N.mod_small.
Qed.
#[export] Instance u16_parses : Parses r_u16 (be 2) ok_u16. Proof. apply (int_parses 2). Qed.
#[export] Instance u32_parses : Parses r_u32 (be 4) ok_u32. Proof. apply (int_parses 4). Qed.
#[export] Instance u64_parses : Parses r_u64 (be 8) ok_u64. Proof. apply (int_parses 8). Qed.
#[export] Instance u8_canon : Canon r_u8 enc_u8 ok_u8.
Proof.
  apply take_read_canon. intros [|b [|]] Hl; try done. unfold ok_u8, enc_u8.
  replace (of_be [b]) with (b2n b) by (by rewrite of_be_cons, len_nil, N.pow_0_r, N.mul_1_r, N.add_0_r).
  split; [apply b2n_lt|by rewrite n2b_b2n].
Qed.
#[export] Instance u16_canon : Canon r_u16 (be 2) ok_u16. Proof. apply (int_canon 2). Qed.
#[export] Instance u32_canon : Canon r_u32 (be 4) ok_u32. Proof. apply (int_canon 4). Qed.
#[export] Instance u64_canon : Canon r_u64 (be 8) ok_u64. Proof. apply (int_canon 8). Qed.

#[export] Instance fixed_parses n : Parses (r_fixed n) id (ok_len n).
Proof.
  intros a pre post Ha. unfold r_fixed, id. rewrite r_take_rd, length_app.
  unfold ok_len in Ha. destruct (_ <? _)%nat eqn:E; [apply Nat.ltb_lt in E; lia|].
  by rewrite take_app_all, drop_app_all by done.
Qed.
#[export] Instance fixed_canon n : Canon (r_fixed n) id (ok_len n).
Proof.
  intros pre xs a r. unfold r_fixed. rewrite r_take_rd.
  destruct (length xs <? n)%nat eqn:E; [done|]. apply Nat.ltb_ge in E.
  intros [= <- <-]. unfold ok_len, id. split; [rewrite length_take; lia|].
  exists (drop n xs). by rewrite take_drop.
Qed.

#[export] Instance bool_parses : Parses r_bool enc_bool (λ _, True).
Proof.
  intros b pre post _. unfold r_bool.
  rewrite (r_bind_rd r_u8 enc_u8 ok_u8 _ (if b then 1 else 0)%N) by (by destruct b + apply _).
  by destruct b.
Qed.
#[export] Instance bool_canon : Canon r_bool enc_bool (λ _, True).
Proof.
  intros pre xs b r H. apply (r_bind_canon _ enc_u8 ok_u8) in H; [|apply _].
  destruct H as (v & post & Hv & -> & H). split; [done|]. exists post.
  destruct (v =? 0)%N eqn:E0; [apply N.eqb_eq in E0 as ->; by injection H as <- <-|].
  destruct (v =? 1)%N eqn:E1; [apply N.eqb_eq in E1 as ->; by injection H as <- <-|done].
Qed.

Lemma as_u32_fits {A} (l : list A) : fits_u32 l → as_u32 (len l) = len l.
Proof. apply N.mod_small. Qed.

Lemma as_u32_ok n : ok_u32 (as_u32 n).
Proof. unfold ok_u32, as_u32. by apply N.mod_lt. Qed.

#[export] Instance bytes_parses : Parses r_bytes lenp fits_u32.
Proof.
  intros bs pre post Hf. unfold r_bytes, lenp. rewrite <- app_assoc.
  rewrite (r_bind_rd _ _ _ _ _ _ _ u32_parses) by apply as_u32_ok.
  rewrite r_remaining_rd, (as_u32_fits bs Hf), length_app.
  destruct (_ <? _)%N eqn:E; [apply N.ltb_lt in E; unfold len in E; lia|].
  unfold len at 1. rewrite Nat2N.id.
  rewrite (fixed_parses (length bs) bs _ post eq_refl). unfold id. by rewrite <- app_assoc.
Qed.
#[export] Instance bytes_canon : Canon r_bytes lenp fits_u32.
Proof.
  intros pre xs bs r H. apply (r_bind_canon _ (be 4) ok_u32) in H; [|apply _].
  destruct H as (n & post & Hn & -> & H). rewrite r_remaining_rd in H.
  destruct (_ <? _)%N eqn:E in H; [done|].
  destruct (fixed_canon (N.to_nat n) _ _ _ _ H) as (Hl & post' & -> & ->).
  unfold ok_len in Hl. assert (Hlen : len bs = n) by (unfold len; rewrite Hl; lia).
  assert (Hf : fits_u32 bs) by (unfold fits_u32; by rewrite Hlen).
  split; [done|]. exists post'. unfold lenp. rewrite (as_u32_fits bs Hf), Hlen.
  unfold id. by rewrite <- !app_assoc.
Qed.

#[export] Instance string_parses : Parses r_string lenp ok_str.
Proof.
  intros s pre post [Hf Hu]. unfold r_string.
  rewrite (r_bind_rd _ _ _ _ _ _ _ bytes_parses) by done. by rewrite Hu.
Qed.
#[export] Instance string_canon : Canon r_string lenp ok_str.
Proof.
  intros pre xs s r H. apply (r_bind_canon _ lenp fits_u32) in H; [|apply _].
  destruct H as (v & post & Hv & -> & H). destruct (utf8_valid v) eqn:E; [|done].
  injection H as <- <-. split; [done|eauto].
Qed.

(** ** Lists *)

Lemma join_cons {A} (enc : A → bytes) a l :
  mjoin (enc <$> a :: l) = enc a ++ mjoin (enc <$> l).
Proof. done. Qed.

Section lists.
Context {A : Type} (m : Read A) (enc : A → bytes) (ok : A → Prop).

Lemma repeat_parses `{!Parses m enc ok} l pre post :
  Forall ok l →
  r_repeat (length l) m (rd pre (mjoin (enc <$> l) ++ post))
  = Ok (l, rd (pre ++ mjoin (enc <$> l)) post).
Proof.
  intros Hl. revert pre. induction Hl as [|a l Ha Hl IH]; intros pre.
  - simpl. by rewrite app_nil_r.
  - cbn [length r_repeat]. rewrite join_cons, <- app_assoc.
    rewrite (r_bind_rd m enc ok) by done. unfold r_bind. rewrite IH. unfold r_ret. by rewrite <- app_assoc.
Qed.

Lemma repeat_canon `{!Canon m enc ok} n pre xs l r :
  r_repeat n m (rd pre xs) = Ok (l, r) →
  length l = n ∧ Forall ok l ∧
  ∃ post, xs = mjoin (enc <$> l) ++ post ∧ r = rd (pre ++ mjoin (enc <$> l)) post.
Proof.
  revert pre xs l r. induction n as [|n IH]; intros pre xs l r H; simpl in H.
  - injection H as <- <-. repeat split; [constructor|]. exists xs. by rewrite app_nil_r.
  - apply (r_bind_canon _ enc ok) in H; [|apply _].
    destruct H as (a & post & Ha & -> & H). unfold r_bind in H.
    destruct (r_repeat n m _) as [[l' r']|] eqn:E; [|done].
    destruct (IH _ _ _ _ E) as (Hn & Hl & post' & -> & ->).
    injection H as <- <-. split; [simpl; congruence|]. split; [by constructor|].
    exists post'. rewrite join_cons. by rewrite <- !app_assoc.
Qed.

(** What a counted list writes: the count, then the elements. *)
Definition enc_list (l : list A) : bytes := be 4 (as_u32 (len l)) ++ mjoin (enc <$> l).
Definition ok_list (l : list A) : Prop := fits_u32 l ∧ Forall ok l.

Hypothesis enc_nonempty : ∀ a, ok a → (1 ≤ length (enc a))%nat.

Lemma mjoin_length_ge l : Forall ok l → (length l ≤ length (mjoin (enc <$> l)))%nat.
Proof.
  induction 1 as [|a l Ha _ IH]; [done|]. rewrite join_cons, length_app.
  specialize (enc_nonempty a Ha). cbn [length]. lia.
Qed.

Lemma counted_parses `{!Parses m enc ok} : Parses (r_counted m) enc_list ok_list.
Proof using enc_nonempty.
  intros l pre post [Hf Hl]. unfold r_counted, enc_list. rewrite <- app_assoc.
  rewrite (r_bind_rd _ _ _ _ _ _ _ u32_parses) by apply as_u32_ok.
  rewrite r_remaining_rd, (as_u32_fits l Hf), length_app.
  pose proof (mjoin_length_ge l Hl).
  destruct (_ <? _)%N eqn:E; [apply N.ltb_lt in E; unfold len in E; lia|].
  unfold len at 1. rewrite Nat2N.id, (repeat_parses l) by done. by rewrite <- app_assoc.
Qed.

Lemma counted_canon `{!Canon m enc ok} : Canon (r_counted m) enc_list ok_list.
Proof using Type.
  intros pre xs l r H. apply (r_bind_canon _ (be 4) ok_u32) in H; [|apply _].
  destruct H as (n & post & Hn & -> & H). rewrite r_remaining_rd in H.
  destruct (_ <? _)%N eqn:E in H; [done|].
  destruct (repeat_canon _ _ _ _ _ H) as (Hln & Hl & post' & -> & ->).
  assert (Hlen : len l = n) by (unfold len; rewrite Hln; lia).
  assert (Hf : fits_u32 l) by (unfold fits_u32; by rewrite Hlen).
  split; [done|]. exists post'. unfold enc_list. rewrite (as_u32_fits l Hf), Hlen.
  by rewrite <- !app_assoc.
Qed.
End lists.

Lemma len_lenp s : len (lenp s) = (4 + len s)%N.
Proof. unfold lenp. rewrite len_app. by unfold len; rewrite length_be. Qed.

Lemma lenp_nonempty s : (1 ≤ length (lenp s))%nat.
Proof. unfold lenp. rewrite length_app, length_be. lia. Qed.

(** [let x = m?; let y = n?; (x, y)]: a pair of fields. *)
Definition r_pair {A B} (m : Read A) (n : Read B) : Read (A * B) :=
  let! a := m in let! b := n in r_ret (a, b).

#[export] Instance pair_parses {A B} (m : Read A) (n : Read B) ea eb oa ob :
  Parses m ea oa → Parses n eb ob →
  Parses (r_pair m n) (λ p, ea p.1 ++ eb p.2) (λ p, oa p.1 ∧ ob p.2).
Proof.
  intros Hm Hn [a b] pre post [Ha Hb]. unfold r_pair. cbn [fst snd]. rewrite <- app_assoc.
  rewrite (r_bind_rd m ea oa) by done. rewrite (r_bind_rd n eb ob) by done.
  unfold r_ret. by rewrite <- app_assoc.
Qed.
#[export] Instance pair_canon {A B} (m : Read A) (n : Read B) ea eb oa ob :
  Canon m ea oa → Canon n eb ob →
  Canon (r_pair m n) (λ p, ea p.1 ++ eb p.2) (λ p, oa p.1 ∧ ob p.2).
Proof.
  intros Hm Hn pre xs [a b] r H. apply (r_bind_canon _ ea oa) in H; [|done].
  destruct H as (a' & post & Ha & -> & H). apply (r_bind_canon _ eb ob) in H; [|done].
  destruct H as (b' & post' & Hb & -> & H). injection H as <- <- <-.
  split; [done|]. exists post'. cbn [fst snd]. by rewrite <- !app_assoc.
Qed.

(** ** Whole-buffer decoders *)

Lemma run_parse {A} (m : Read A) bs a r : m (rd [] (bs ++ [])) = Ok (a, r) → run m bs = Ok a.
Proof. unfold run. rewrite app_nil_r. change (r_new bs) with (rd [] bs). by intros ->. Qed.

Lemma run_canon {A} (m : Read A) bs a : run m bs = Ok a → ∃ r, m (rd [] bs) = Ok (a, r).
Proof. unfold run. change (r_new bs) with (rd [] bs). destruct (m _) as [[??]|]; [|done]. intros [= ->]. eauto. Qed.

Lemma r_bind_assoc {A B C} (m : Read A) (k : A → Read B) (k' : B → Read C) r :
  r_bind (r_bind m k) k' r = r_bind m (λ a, r_bind (k a) k') r.
Proof. unfold r_bind. by destruct (m r) as [[??]|]. Qed.

Lemma r_bind_finish {B} (k : unit → Read B) pre :
  r_bind r_finish k (rd pre []) = k tt (rd pre []).
Proof. unfold r_bind, r_finish. by rewrite r_remaining_rd. Qed.

Lemma r_bind_finish_canon {B} (k : unit → Read B) pre xs b r :
  r_bind r_finish k (rd pre xs) = Ok (b, r) → xs = [] ∧ k tt (rd pre []) = Ok (b, r).
Proof.
  unfold r_bind, r_finish. rewrite r_remaining_rd. by destruct xs.
Qed.

(** Leftover bytes make [finish] fail with their number. *)
Lemma r_finish_trailing {B} (k : unit → Read B) pre x xs :
  r_bind r_finish k (rd pre (x :: xs)) = Err (Trailing (len (x :: xs))).
Proof. unfold r_bind, r_finish. by rewrite r_remaining_rd. Qed.

Lemma r_bind_more {B} (k : bool → Read B) pre xs :
  r_bind r_more k (rd pre xs) = k (0 <? length xs)%nat (rd pre xs).
Proof. unfold r_bind, r_more. by rewrite r_remaining_rd. Qed.

(** One field of an encoding: find the law of the next read and use it. *)
Ltac parse_side := first [assumption | exact I | done | (split; assumption) | idtac].
Ltac parse1 :=
  match goal with
  | |- r_bind r_finish _ _ = _ => rewrite r_bind_finish
  | |- r_bind ?m ?k (rd ?pre ?xs) = _ =>
      let H := fresh "Hp" in
      eassert (H : Parses m _ _) by typeclasses eauto;
      refine (eq_trans (r_bind_rd m _ _ k _ pre _ H _) _); [parse_side|clear H]
  end; cbv beta.
(** The same for what a successful read says of its input. *)
Ltac canon1 H :=
  match type of H with
  | r_bind r_finish _ _ = _ => apply r_bind_finish_canon in H as [-> H]
  | r_bind ?m ?k (rd ?pre ?xs) = Ok (?b, ?r) =>
      let Hc := fresh "Hc" in let a := fresh "a" in let post := fresh "post" in
      let Ha := fresh "Hok" in
      eassert (Hc : Canon m _ _) by typeclasses eauto;
      apply (r_bind_canon m _ _ k pre xs b r Hc) in H as (a & post & Ha & -> & H);
      clear Hc
  end; cbv beta in H.
Ltac parses := repeat parse1.
Ltac canons H := repeat canon1 H.
Ltac enc_norm := autorewrite with writer; rewrite <- ?app_assoc, ?app_nil_l.

(** Encodings stay folded in proofs; [vm_compute] still evaluates them. *)
#[global] Opaque be lenp enc_u8 enc_bool.
