(* ===== verification/Crypto.v ===== *)
(** * Cryptographic primitives ([crates/dante-crypto/src])

    The crate is a thin layer over [sha2], [ed25519-dalek] and [argon2].
    Those three are outside the repository, so they are the fields of one
    class, [CryptoPrims]; what the layer itself does (which bytes are hashed,
    how a key is parsed before it verifies, how a proof of work is judged) is
    defined here from the source.  [CryptoLaws] names the documented facts
    the development uses. *)

From S2P Require Import Prelude.

(** The external primitives. *)
Class CryptoPrims : Type := {
  (** [Sha256::new(); update(..); finalize()]: the digest of all the input. *)
  prim_sha256 : bytes → bytes;
  (** [VerifyingKey::from_bytes(b).is_ok()]. *)
  prim_vk_ok : bytes → bool;
  (** [vk.verify_strict(msg, sig).is_ok()]. *)
  prim_verify_strict : bytes → bytes → bytes → bool;
  (** [Params::new(m, t, p, Some(out_len))] then [hash_password_into]: password,
      salt, memory, time, lanes, output length. *)
  prim_argon2id : bytes → bytes → N → N → N → nat → option bytes;
  (** [SigningKey::from_bytes(sk).verifying_key().to_bytes()], and signing. *)
  prim_vk_of_sk : bytes → bytes;
  prim_sign : bytes → bytes → bytes;
  (** X25519: the public key of a secret, and the raw agreement. *)
  prim_x25519_public : bytes → bytes;
  prim_x25519 : bytes → bytes → bytes;
  (** HKDF-SHA-256 extract (salt, ikm) and expand (prk, info, length). *)
  prim_hkdf_extract : bytes → bytes → bytes;
  prim_hkdf_expand : bytes → bytes → nat → option bytes;
  (** HMAC-SHA-256 (key, message). *)
  prim_hmac_sha256 : bytes → bytes → bytes;
  (** XChaCha20-Poly1305 (key, nonce, text, associated data). *)
  prim_xchacha_seal : bytes → bytes → bytes → bytes → bytes;
  prim_xchacha_open : bytes → bytes → bytes → bytes → option bytes;
}.

(** Documented output sizes: a SHA-256 digest has 32 bytes, Argon2id fills
    the buffer it is given. *)
Class CryptoLaws `{CryptoPrims} : Prop := {
  sha256_length m : length (prim_sha256 m) = 32%nat;
  argon2id_length p s m t l n d : prim_argon2id p s m t l n = Some d → length d = n;
}.

(** Ed25519: an honest signature verifies under the signer's key. *)
Class SignLaws `{CryptoPrims} : Prop := {
  vk_of_sk_length sk : length sk = 32%nat → length (prim_vk_of_sk sk) = 32%nat;
  vk_of_sk_ok sk : length sk = 32%nat → prim_vk_ok (prim_vk_of_sk sk) = true;
  sign_verifies sk m : prim_verify_strict (prim_vk_of_sk sk) m (prim_sign sk m) = true;
  sign_length sk m : length (prim_sign sk m) = 64%nat;
}.

(** X25519: both sides agree. *)
Class AgreeLaws `{CryptoPrims} : Prop := {
  x25519_public_length sk : length (prim_x25519_public sk) = 32%nat;
  x25519_comm a b : prim_x25519 a (prim_x25519_public b) = prim_x25519 b (prim_x25519_public a);
}.

(** AEAD: decryption undoes encryption; a tag of 16 bytes is appended. *)
Class AeadLaws `{CryptoPrims} : Prop := {
  xchacha_open_seal k n p a : prim_xchacha_open k n (prim_xchacha_seal k n p a) a = Some p;
  xchacha_seal_length k n p a : length (prim_xchacha_seal k n p a) = (length p + 16)%nat;
}.

(** HKDF-Expand only fails above [255 * 32] bytes; an HMAC-SHA-256 tag has 32. *)
Class KdfLaws `{CryptoPrims} : Prop := {
  hkdf_expand_some prk info n :
    (n ≤ 255 * 32)%nat → ∃ o, prim_hkdf_expand prk info n = Some o ∧ length o = n;
  hmac_length k m : length (prim_hmac_sha256 k m) = 32%nat;
}.

Inductive CryptoError : Type :=
  | CE_InvalidKey
  | CE_BadSignature
  | CE_AeadFailure
  | CE_DegenerateAgreement
  | CE_Kdf
  | CE_Argon2 (what : string)
  | CE_PowUnmetDifficulty.

#[global] Instance CryptoError_eq_dec : EqDecision CryptoError.
Proof. solve_decision. Defined.

Definition SIG_LEN : nat := 64.

Section crypto.
Context `{CryptoPrims}.

(** ** hash.rs *)
Definition sha256 (data : bytes) : bytes := prim_sha256 data.
(** The hasher is fed the parts in order: the digest of their concatenation. *)
Definition sha256_parts (parts : list bytes) : bytes := prim_sha256 (mjoin parts).

(** SHA-256 has collisions, as its digests are short: a statement that needs
    an injective digest asks for it on the messages that are hashed. *)
Definition collision_free (msgs : list bytes) : Prop :=
  ∀ x y, x ∈ msgs → y ∈ msgs → sha256 x = sha256 y → x = y.

Lemma collision_free_sub ms ms' :
  ms' ⊆ ms → collision_free ms → collision_free ms'.
Proof using Type. unfold collision_free. set_solver. Qed.

(** A list whose digests are pairwise distinct where the messages are. *)
Lemma collision_free_decide msgs :
  forallb (λ x, forallb (λ y, negb (bool_decide (sha256 x = sha256 y)) || bool_decide (x = y)) msgs) msgs = true →
  collision_free msgs.
Proof using Type.
  intros Hb x y Hx Hy E. rewrite List.forallb_forall in Hb. apply list_elem_of_In in Hx, Hy.
  specialize (Hb x Hx). rewrite List.forallb_forall in Hb. specialize (Hb y Hy).
  rewrite (bool_decide_eq_true_2 (sha256 x = sha256 y)) in Hb by done. by apply bool_decide_eq_true in Hb.
Qed.

(** ** sign.rs

    A [SignPublic] is kept as its 32 bytes ([to_bytes] gives them back). *)
Definition sign_public_from_bytes (bs : bytes) : result bytes CryptoError :=
  if prim_vk_ok bs then Ok bs else Err CE_InvalidKey.
Definition sign_verify (key msg sig : bytes) : result unit CryptoError :=
  if prim_verify_strict key msg sig then Ok tt else Err CE_BadSignature.

(** ** agree.rs: the all-zero output of a low-order point is refused *)
Definition agree_public (sk : bytes) : bytes := prim_x25519_public sk.
Definition agree (sk their_public : bytes) : result bytes CryptoError :=
  let shared := prim_x25519 sk their_public in
  if bool_decide (shared = replicate 32 x00) then Err CE_DegenerateAgreement else Ok shared.

(** ** aead.rs, kdf.rs, mac.rs *)
Definition xchacha_seal (key nonce plaintext aad : bytes) : bytes :=
  prim_xchacha_seal key nonce plaintext aad.
Definition xchacha_open (key nonce ciphertext aad : bytes) : result bytes CryptoError :=
  ok_or (prim_xchacha_open key nonce ciphertext aad) CE_AeadFailure.
Definition kdf_extract (salt ikm : bytes) : bytes := prim_hkdf_extract salt ikm.
Definition kdf_expand (prk info : bytes) (n : nat) : result bytes CryptoError :=
  ok_or (prim_hkdf_expand prk info n) CE_Kdf.
Definition hmac_sha256 (key msg : bytes) : bytes := prim_hmac_sha256 key msg.

(** ** pow.rs *)
Definition PARALLELISM : N := 1.
Definition MAX_VERIFY_M_COST_KIB : N := 131072.
Definition MAX_VERIFY_T_COST : N := 8.
Definition DIGEST_LEN : nat := 32.
Definition NONCE_LEN : nat := 16.

Record Difficulty := mkDifficulty { df_m_cost_kib : N; df_t_cost : N; df_bits : N }.
Definition REGISTRATION : Difficulty := mkDifficulty 65536 3 20.
Definition LIVENESS : Difficulty := mkDifficulty 16384 3 16.

Record PowProof := mkPowProof {
  pw_m_cost_kib : N;
  pw_t_cost : N;
  pw_difficulty : N;
  pw_nonce : bytes;
}.

Definition digest (challenge nonce : bytes) (m_cost_kib t_cost : N) : result bytes CryptoError :=
  ok_or (prim_argon2id (challenge ++ nonce) (take 16 challenge) m_cost_kib t_cost
           PARALLELISM DIGEST_LEN)
        (CE_Argon2 "hash failed").

(** [u8::leading_zeros] *)
Definition leading_zeros_u8 (b : N) : N := if (b =? 0)%N then 8 else 7 - N.log2 b.

Fixpoint leading_zero_bits (bs : bytes) : N :=
  match bs with
  | [] => 0
  | b :: bs' =>
    if (b2n b =? 0)%N then 8 + leading_zero_bits bs' else leading_zeros_u8 (b2n b)
  end.

Definition pow_verify (challenge : bytes) (proof : PowProof)
    (min_bits min_m_cost_kib min_t_cost : N) : result unit CryptoError :=
  if (pw_difficulty proof <? min_bits)%N || (pw_m_cost_kib proof <? min_m_cost_kib)%N
     || (pw_t_cost proof <? min_t_cost)%N
  then Err CE_PowUnmetDifficulty
  else if (MAX_VERIFY_M_COST_KIB <? pw_m_cost_kib proof)%N
     || (MAX_VERIFY_T_COST <? pw_t_cost proof)%N
  then Err CE_PowUnmetDifficulty
  else
    let? d := digest challenge (pw_nonce proof) (pw_m_cost_kib proof) (pw_t_cost proof) in
    if (pw_difficulty proof <=? leading_zero_bits d)%N then Ok tt
    else Err CE_PowUnmetDifficulty.

(** The number of leading zero bits is the number of zero bits before the
    first one of the digest read as a big-endian number. *)
Lemma leading_zero_bits_le bs : (leading_zero_bits bs ≤ 8 * len bs)%N.
Proof using Type.
  induction bs as [|b bs IH]; [done|]. simpl. rewrite len_cons.
  destruct (b2n b =? 0)%N eqn:E; [lia|]. unfold leading_zeros_u8. rewrite E. lia.
Qed.

(** What an accepted proof of work means, and that its costs are capped
    before Argon2 is called. *)
Lemma pow_verify_ok challenge proof mb mm mt :
  pow_verify challenge proof mb mm mt = Ok tt ↔
  (mb ≤ pw_difficulty proof ∧ mm ≤ pw_m_cost_kib proof ≤ MAX_VERIFY_M_COST_KIB ∧
   mt ≤ pw_t_cost proof ≤ MAX_VERIFY_T_COST)%N ∧
  ∃ d, digest challenge (pw_nonce proof) (pw_m_cost_kib proof) (pw_t_cost proof) = Ok d ∧
       (pw_difficulty proof ≤ leading_zero_bits d)%N.
Proof using Type.
  unfold pow_verify. case_match eqn:E1; [|case_match eqn:E2].
  { split; [done|]. intros [(?&?&?) _]. rewrite !orb_true_iff, !N.ltb_lt in E1. lia. }
  { split; [done|]. intros [(?&?&?) _]. rewrite !orb_true_iff, !N.ltb_lt in E2. lia. }
  apply orb_false_iff in E1 as [[E1a E1b]%orb_false_iff E1c].
  apply orb_false_iff in E2 as [E2a E2b]. rewrite !N.ltb_ge in *.
  destruct (digest _ _ _ _) as [d|e]; simpl.
  - destruct (_ <=? _)%N eqn:E3; [apply N.leb_le in E3|apply N.leb_gt in E3].
    + split; [intros _; split; [lia|eauto]|done].
    + split; [done|]. intros [_ (d' & [= <-] & Hd)]. lia.
  - split; [done|]. by intros [_ (d' & [=] & _)].
Qed.
End crypto.

#[global] Instance Difficulty_eq_dec : EqDecision Difficulty.
Proof. solve_decision. Defined.
#[global] Instance PowProof_eq_dec : EqDecision PowProof.
Proof. solve_decision. Defined.

(** ** A toy instance

    A concrete, executable instance of the primitives on which the witnesses
    of the development are evaluated.  Nothing is proved from it. *)
Module Toy.
(** A polynomial digest. *)
Definition digest_N (m : bytes) : N :=
  foldl (λ acc b, N.land (263 * acc + b2n b + 12345) 18446744073709551615)%N 7%N m.
Fixpoint to_bytes (k : nat) (v : N) : bytes :=
  match k with O => [] | S k' => to_bytes k' (N.shiftr v 8) ++ [n2b v] end.
Definition hash (m : bytes) : bytes := to_bytes 32 (digest_N m).
(** A keyed tag stands for a signature: 64 bytes. *)
Definition sign (key msg : bytes) : bytes := hash (key ++ msg) ++ hash (msg ++ key).
Definition verify (key msg sig : bytes) : bool := bool_decide (sig = sign key msg).

Fixpoint of_bytes (bs : bytes) (acc : N) : N :=
  match bs with [] => acc | b :: bs' => of_bytes bs' (acc * 256 + b2n b)%N end.
Definition group_mul (a b : N) : bytes := to_bytes 32 (a * b)%N.
Definition tag (k n p a : bytes) : bytes := drop 16 (hash (k ++ n ++ p ++ a)).

#[export] Instance prims : CryptoPrims := {
  prim_sha256 := hash;
  prim_vk_ok := λ k, (length k =? 32)%nat;
  prim_verify_strict := verify;
  prim_argon2id := λ p s m t l n, Some (replicate n x00);
  prim_vk_of_sk := λ sk, sk;
  prim_sign := sign;
  prim_x25519_public := λ sk, group_mul (of_bytes sk 0) 5;
  prim_x25519 := λ sk pk, group_mul (of_bytes sk 0) (of_bytes pk 0);
  prim_hkdf_extract := λ s i, hash (s ++ i);
  prim_hkdf_expand := λ p i n,
    if (n <=? 255 * 32)%nat then Some (take n (mjoin (replicate (S (n / 32)) (hash (p ++ i)))))
    else None;
  prim_hmac_sha256 := λ k m, hash (k ++ x00 :: m);
  prim_xchacha_seal := λ k n p a, p ++ tag k n p a;
  prim_xchacha_open := λ k n c a,
    let p := take (length c - 16) c in
    if (16 <=? length c)%nat && bool_decide (c = p ++ tag k n p a) then Some p else None;
}.

Lemma to_bytes_length k v : length (to_bytes k v) = k.
Proof. revert v. induction k; intros v; simpl; [done|]. rewrite length_app, IHk. simpl. lia. Qed.

#[export] Instance laws : CryptoLaws.
Proof.
  constructor.
  - intros m. apply to_bytes_length.
  - intros p s m t l n d [= <-]. apply length_replicate.
Qed.

#[export] Instance sign_laws : SignLaws.
Proof.
  constructor; cbn [prim_vk_of_sk prim_vk_ok prim_verify_strict prim_sign prims].
  - done.
  - intros sk ->. done.
  - intros sk m. by apply bool_decide_eq_true_2.
  - intros sk m. unfold sign, hash. by rewrite length_app, !to_bytes_length.
Qed.

Lemma to_bytes_S k v : to_bytes (S k) v = to_bytes k (v / 256) ++ [n2b v].
Proof. cbn [to_bytes]. by rewrite N.shiftr_div_pow2. Qed.

Lemma to_bytes_mod k v : to_bytes k (v mod 256 ^ N.of_nat k) = to_bytes k v.
Proof.
  revert v. induction k as [|k IH]; intros v; [done|]. rewrite !to_bytes_S.
  replace (256 ^ N.of_nat (S k))%N with (256 * 256 ^ N.of_nat k)%N
    by (rewrite <- N.pow_succ_r'; f_equal; lia).
  f_equal.
  - rewrite <- (IH (v / 256)%N). f_equal. rewrite N.Div0.mod_mul_r.
    rewrite N.mul_comm, N.div_add by done.
    by rewrite N.div_small, N.add_0_l by by apply N.mod_lt.
  - f_equal. apply b2n_inj. rewrite !b2n_n2b, N.Div0.mod_mul_r.
    rewrite N.mul_comm, N.Div0.mod_add. apply N.Div0.mod_mod.
Qed.

Lemma of_bytes_app bs b acc : of_bytes (bs ++ [b]) acc = (of_bytes bs acc * 256 + b2n b)%N.
Proof. revert acc. induction bs as [|c bs IH]; intros acc; simpl; [done|apply IH]. Qed.

Lemma of_to_bytes k v : of_bytes (to_bytes k v) 0 = (v mod 256 ^ N.of_nat k)%N.
Proof.
  revert v. induction k as [|k IH]; intros v; [by rewrite N.mod_1_r|].
  rewrite to_bytes_S, of_bytes_app, IH, b2n_n2b.
  replace (256 ^ N.of_nat (S k))%N with (256 * 256 ^ N.of_nat k)%N
    by (rewrite <- N.pow_succ_r'; f_equal; lia).
  rewrite N.Div0.mod_mul_r. lia.
Qed.

#[export] Instance agree_laws : AgreeLaws.
Proof.
  constructor.
  - intros sk. apply to_bytes_length.
  - intros a b. cbn [prim_x25519 prim_x25519_public prims]. unfold group_mul. rewrite !of_to_bytes.
    set (M := (256 ^ N.of_nat 32)%N). rewrite <- (to_bytes_mod 32), <- (to_bytes_mod 32 (_ b _ * _)).
    fold M. rewrite !N.Div0.mul_mod_idemp_r. do 2 f_equal. lia.
Qed.

Lemma tag_length k n p a : length (tag k n p a) = 16%nat.
Proof. unfold tag, hash. by rewrite length_drop, to_bytes_length. Qed.

#[export] Instance aead_laws : AeadLaws.
Proof.
  constructor; intros k n p a; cbn [prim_xchacha_open prim_xchacha_seal prims]; [|by rewrite length_app, tag_length].
  rewrite length_app, tag_length, Nat.add_sub, take_app_length.
  rewrite bool_decide_eq_true_2 by done.
  by replace (16 <=? length p + 16)%nat with true by (symmetry; apply Nat.leb_le; lia).
Qed.

Lemma length_join_replicate j (h : bytes) :
  length (mjoin (replicate j h)) = (j * length h)%nat.
Proof.
  induction j as [|j IH]; [done|].
  change (mjoin (replicate (S j) h)) with (h ++ mjoin (replicate j h)).
  rewrite length_app, IH. lia.
Qed.

#[export] Instance kdf_laws : KdfLaws.
Proof.
  constructor; [|intros k m; apply to_bytes_length].
  intros prk info n Hn. cbn [prim_hkdf_expand prims].
  apply Nat.leb_le in Hn as ->. eexists. split; [done|].
  rewrite length_take. enough (n ≤ length (mjoin (replicate (S (n / 32)) (hash (prk ++ info)))))%nat by lia.
  rewrite length_join_replicate. unfold hash. rewrite to_bytes_length.
  pose proof (Nat.div_mod_eq n 32). pose proof (Nat.mod_upper_bound n 32). lia.
Qed.
End Toy.
