(* ===== verification/Merkle.v ===== *)
(** * RFC 6962 Merkle trees ([crates/dante-proto/src/merkle.rs])

    Tree hash, inclusion proofs and consistency proofs, with the loops of the
    source.  A [usize] is a [nat] here: sizes and indices are lengths of
    in-memory vectors, so [k << 1] cannot overflow.  Recursions that are not
    structural carry a fuel; each has an equation that holds at the fuel the
    top-level function supplies. *)

From S2P Require Import Prelude Crypto.

Abbreviation Hash := (list Byte.byte).

(** ** Powers of two *)

(** [k] grows by doubling while [k << 1 < n]; [n] doublings are enough. *)
Fixpoint split_loop (fuel k n : nat) : nat :=
  match fuel with
  | O => k
  | S fuel' => if 2 * k <? n then split_loop fuel' (2 * k) n else k
  end.
Definition split (n : nat) : nat := split_loop n 1 n.

(** [usize::is_power_of_two] *)
Definition is_power_of_two (n : nat) : bool := n =? 2 ^ Nat.log2 n.

Section merkle.
Context `{CryptoPrims}.

Definition empty_root : Hash := sha256 [].
Definition leaf_hash (entry : bytes) : Hash := sha256_parts [[x00]; entry].
Definition node_hash (left right : Hash) : Hash := sha256_parts [[x01]; left; right].

Fixpoint root_fuel (fuel : nat) (leaves : list Hash) : Hash :=
  match fuel, leaves with
  | _, [] => empty_root
  | _, [x] => x
  | O, _ => empty_root
  | S fuel', _ =>
    let k := split (length leaves) in
    node_hash (root_fuel fuel' (take k leaves)) (root_fuel fuel' (drop k leaves))
  end.
Definition root (leaves : list Hash) : Hash := root_fuel (length leaves) leaves.

Fixpoint inclusion_proof_fuel (fuel index : nat) (leaves : list Hash) : option (list Hash) :=
  if length leaves <=? index then None
  else if length leaves =? 1 then Some []
  else match fuel with
  | O => None
  | S fuel' =>
    let k := split (length leaves) in
    if index <? k
    then p ← inclusion_proof_fuel fuel' index (take k leaves);
         Some (p ++ [root (drop k leaves)])
    else p ← inclusion_proof_fuel fuel' (index - k) (drop k leaves);
         Some (p ++ [root (take k leaves)])
  end.
Definition inclusion_proof (index : nat) (leaves : list Hash) : option (list Hash) :=
  inclusion_proof_fuel (length leaves) index leaves.

(** The path is consumed from its end ([split_last]); the recursion is on
    the reversed path. *)
Fixpoint root_from_inclusion_rev (rpath : list Hash) (index size : nat) (leaf : Hash)
    : option Hash :=
  if (size =? 0) || (size <=? index) then None
  else if size =? 1 then (match rpath with [] => Some leaf | _ => None end)
  else match rpath with
  | [] => None
  | last :: rest =>
    let k := split size in
    if index <? k
    then h ← root_from_inclusion_rev rest index k leaf; Some (node_hash h last)
    else h ← root_from_inclusion_rev rest (index - k) (size - k) leaf;
         Some (node_hash last h)
  end.
Definition root_from_inclusion (index size : nat) (leaf : Hash) (path : list Hash)
    : option Hash := root_from_inclusion_rev (rev path) index size leaf.

Definition verify_inclusion (index size : nat) (leaf : Hash) (path : list Hash)
    (expected_root : Hash) : bool :=
  bool_decide (root_from_inclusion index size leaf path = Some expected_root).

Fixpoint subproof_fuel (fuel m : nat) (leaves : list Hash) (on_border : bool) : list Hash :=
  if m =? length leaves then (if on_border then [] else [root leaves])
  else match fuel with
  | O => []
  | S fuel' =>
    let k := split (length leaves) in
    if m <=? k then subproof_fuel fuel' m (take k leaves) on_border ++ [root (drop k leaves)]
    else subproof_fuel fuel' (m - k) (drop k leaves) false ++ [root (take k leaves)]
  end.
Definition subproof (m : nat) (leaves : list Hash) (on_border : bool) : list Hash :=
  subproof_fuel (length leaves) m leaves on_border.

Definition consistency_proof (old_size : nat) (leaves : list Hash) : option (list Hash) :=
  let n := length leaves in
  if (old_size =? 0) || (n <? old_size) then None
  else if old_size =? n then Some []
  else Some (subproof old_size leaves true).

(** [while fnode & 1 == 1 { fnode >>= 1; snode >>= 1; }] *)
Fixpoint strip_ones (fuel fnode snode : nat) : nat * nat :=
  match fuel with
  | O => (fnode, snode)
  | S fuel' => if Nat.odd fnode then strip_ones fuel' (fnode / 2) (snode / 2)
               else (fnode, snode)
  end.

(** [loop { fnode >>= 1; snode >>= 1; if fnode & 1 == 1 || fnode == 0 { break; } }] *)
Fixpoint skip_even (fuel fnode snode : nat) : nat * nat :=
  match fuel with
  | O => (fnode, snode)
  | S fuel' =>
    let f := fnode / 2 in let s := snode / 2 in
    if Nat.odd f || (f =? 0) then (f, s) else skip_even fuel' f s
  end.

(** The [for c in iter] loop: [None] is the early [return false], otherwise
    the final [(fnode, fr, sr)]. *)
Fixpoint consistency_loop (iter : list Hash) (fnode snode : nat) (fr sr : Hash)
    : option (nat * Hash * Hash) :=
  match iter with
  | [] => Some (fnode, fr, sr)
  | c :: iter' =>
    if snode =? 0 then None
    else if Nat.odd fnode || (fnode =? snode) then
      let fr' := node_hash c fr in
      let sr' := node_hash c sr in
      let '(f, s) := if negb (Nat.odd fnode) then skip_even (S fnode) fnode snode
                     else (fnode, snode) in
      consistency_loop iter' (f / 2) (s / 2) fr' sr'
    else consistency_loop iter' (fnode / 2) (snode / 2) fr (node_hash sr c)
  end.

Definition verify_consistency (old_size new_size : nat) (old_root new_root : Hash)
    (proof : list Hash) : bool :=
  if new_size <? old_size then false
  else if old_size =? new_size then bool_decide (proof = []) && bool_decide (old_root = new_root)
  else if old_size =? 0 then bool_decide (proof = [])
  else
    let work := (if is_power_of_two old_size then [old_root] else []) ++ proof in
    match work with
    | [] => false
    | first :: iter =>
      let '(fnode, snode) := strip_ones old_size (old_size - 1) (new_size - 1) in
      match consistency_loop iter fnode snode first first with
      | None => false
      | Some (fnode', fr, sr) =>
        (fnode' =? 0) && bool_decide (fr = old_root) && bool_decide (sr = new_root)
      end
    end.

(** ** Splitting *)

Lemma split_loop_spec fuel a n :
  2 ^ a < n → n ≤ 2 ^ (a + fuel) →
  ∃ j, split_loop fuel (2 ^ a) n = 2 ^ j ∧ 2 ^ j < n ∧ n ≤ 2 ^ S j.
Proof using Type.
  revert a. induction fuel as [|fuel IH]; intros a Hlt Hle; cbn [split_loop].
  - rewrite Nat.add_0_r in Hle. lia.
  - destruct (2 * 2 ^ a <? n) eqn:E.
    + apply Nat.ltb_lt in E. rewrite <- Nat.pow_succ_r' in *. apply IH; [done|].
      by replace (S a + fuel) with (a + S fuel) by lia.
    + apply Nat.ltb_ge in E. exists a. rewrite Nat.pow_succ_r'. lia.
Qed.

Lemma split_spec n : 2 ≤ n → ∃ j, split n = 2 ^ j ∧ 2 ^ j < n ∧ n ≤ 2 ^ S j.
Proof using Type.
  intros Hn. apply (split_loop_spec n 0 n); simpl; [lia|].
  pose proof (Nat.pow_gt_lin_r 2 n). lia.
Qed.

Lemma split_bounds n : 2 ≤ n → 1 ≤ split n ∧ split n < n.
Proof using Type.
  intros Hn. destruct (split_spec n Hn) as (j & -> & Hj & _).
  pose proof (Nat.pow_nonzero 2 j). lia.
Qed.

(** A size in a known power-of-two range splits at that power. *)
Lemma split_pow n j : 2 ^ j < n → n ≤ 2 ^ S j → split n = 2 ^ j.
Proof using Type.
  intros H1 H2. pose proof (Nat.pow_nonzero 2 j).
  destruct (split_spec n) as (i & -> & Hi & Hi'); [lia|]. f_equal.
  destruct (Nat.lt_trichotomy i j) as [Hlt|[->|Hlt]]; [|done|].
  - pose proof (Nat.pow_le_mono_r 2 (S i) j). lia.
  - pose proof (Nat.pow_le_mono_r 2 (S j) i). lia.
Qed.

(** ** Equations: the fuel is enough *)

Lemma root_fuel_S fuel l :
  2 ≤ length l →
  root_fuel (S fuel) l =
  node_hash (root_fuel fuel (take (split (length l)) l)) (root_fuel fuel (drop (split (length l)) l)).
Proof using Type. destruct l as [|x [|y l]]; simpl length; [lia..|done]. Qed.

Lemma root_fuel_enough f1 f2 l :
  length l ≤ f1 → length l ≤ f2 → root_fuel f1 l = root_fuel f2 l.
Proof using Type.
  revert f2 l. induction f1 as [|f1 IH]; intros f2 l H1 H2.
  - destruct l; [by destruct f2|simpl in H1; lia].
  - destruct (decide (2 ≤ length l)) as [Hl|Hl].
    + destruct f2 as [|f2]; [lia|]. rewrite !root_fuel_S by done.
      destruct (split_bounds _ Hl).
      f_equal; apply IH; rewrite ?length_take, ?length_drop; lia.
    + destruct l as [|x [|y l]]; [by destruct f2..|simpl in Hl; lia].
Qed.

Lemma root_nil : root [] = empty_root. Proof using Type. done. Qed.
Lemma root_one x : root [x] = x. Proof using Type. done. Qed.
Lemma root_split l :
  2 ≤ length l →
  root l = node_hash (root (take (split (length l)) l)) (root (drop (split (length l)) l)).
Proof using Type.
  intros Hl. destruct (split_bounds _ Hl). unfold root at 1.
  rewrite (root_fuel_enough _ (S (length l))), root_fuel_S by lia.
  f_equal; unfold root; apply root_fuel_enough; rewrite ?length_take, ?length_drop; lia.
Qed.

Lemma inclusion_proof_fuel_enough f1 f2 i l :
  length l ≤ f1 → length l ≤ f2 → inclusion_proof_fuel f1 i l = inclusion_proof_fuel f2 i l.
Proof using Type.
  revert f2 i l. induction f1 as [|f1 IH]; intros f2 i l H1 H2.
  - destruct l; [by destruct f2|simpl in H1; lia].
  - destruct (decide (2 ≤ length l)) as [Hl|Hl].
    + destruct f2 as [|f2]; [lia|]. cbn [inclusion_proof_fuel].
      destruct (split_bounds _ Hl). repeat case_match; [done..| |];
        f_equal; apply IH; rewrite ?length_take, ?length_drop; lia.
    + destruct l as [|x [|y l]]; [by destruct f2..|simpl in Hl; lia].
Qed.

Lemma inclusion_proof_eq i l :
  inclusion_proof i l =
  if length l <=? i then None
  else if length l =? 1 then Some []
  else let k := split (length l) in
    if i <? k
    then p ← inclusion_proof i (take k l); Some (p ++ [root (drop k l)])
    else p ← inclusion_proof (i - k) (drop k l); Some (p ++ [root (take k l)]).
Proof using Type.
  unfold inclusion_proof at 1.
  rewrite (inclusion_proof_fuel_enough _ (S (length l))) by lia. cbn [inclusion_proof_fuel].
  case_match eqn:E1; [done|]. case_match eqn:E2; [done|].
  apply Nat.leb_gt in E1. apply Nat.eqb_neq in E2.
  destruct (split_bounds (length l)); [lia|]. unfold inclusion_proof.
  case_match; f_equal; apply inclusion_proof_fuel_enough;
    rewrite ?length_take, ?length_drop; lia.
Qed.

Lemma subproof_fuel_enough f1 f2 m l b :
  1 ≤ m ≤ length l → length l ≤ f1 → length l ≤ f2 →
  subproof_fuel f1 m l b = subproof_fuel f2 m l b.
Proof using Type.
  revert f2 m l b. induction f1 as [|f1 IH]; intros f2 m l b Hm H1 H2; [lia|].
  destruct f2 as [|f2]; [lia|]. cbn [subproof_fuel].
  case_match eqn:E; [done|]. apply Nat.eqb_neq in E.
  destruct (split_bounds (length l)); [lia|].
  case_match eqn:Ek; [apply Nat.leb_le in Ek|apply Nat.leb_gt in Ek];
    f_equal; apply IH; rewrite ?length_take, ?length_drop; lia.
Qed.

Lemma subproof_eq m l b :
  1 ≤ m ≤ length l →
  subproof m l b =
  if m =? length l then (if b then [] else [root l])
  else let k := split (length l) in
    if m <=? k then subproof m (take k l) b ++ [root (drop k l)]
    else subproof (m - k) (drop k l) false ++ [root (take k l)].
Proof using Type.
  intros Hm. unfold subproof at 1.
  rewrite (subproof_fuel_enough _ (S (length l))) by lia. cbn [subproof_fuel].
  case_match eqn:E; [done|]. apply Nat.eqb_neq in E.
  destruct (split_bounds (length l)); [lia|]. unfold subproof.
  case_match eqn:Ek; [apply Nat.leb_le in Ek|apply Nat.leb_gt in Ek];
    f_equal; apply subproof_fuel_enough; rewrite ?length_take, ?length_drop; lia.
Qed.

(** ** Inclusion proofs *)

Lemma root_from_inclusion_snoc path last i n leaf :
  root_from_inclusion i n leaf (path ++ [last]) =
  if (n =? 0) || (n <=? i) then None
  else if n =? 1 then None
  else let k := split n in
    if i <? k
    then h ← root_from_inclusion i k leaf path; Some (node_hash h last)
    else h ← root_from_inclusion (i - k) (n - k) leaf path; Some (node_hash last h).
Proof using Type.
  unfold root_from_inclusion. rewrite rev_app_distr. simpl rev. cbn [app root_from_inclusion_rev].
  reflexivity.
Qed.

(** An inclusion proof exists for every index in range, and recomputes the
    root from the leaf. *)
Lemma inclusion_complete i l leaf :
  l !! i = Some leaf →
  ∃ p, inclusion_proof i l = Some p ∧
       root_from_inclusion i (length l) leaf p = Some (root l).
Proof using Type.
  remember (length l) as n eqn:Hn. revert l Hn i.
  induction n as [n IH] using lt_wf_ind. intros l Hn i Hi.
  pose proof (lookup_lt_Some _ _ _ Hi) as Hlt. rewrite inclusion_proof_eq, <- Hn.
  destruct (n <=? i) eqn:E; [apply Nat.leb_le in E; lia|].
  destruct (n =? 1) eqn:E1.
  { apply Nat.eqb_eq in E1 as ->. exists []. split; [done|].
    destruct l as [|x [|]]; [done| |done]. replace i with 0 in * by (simpl in Hlt; lia).
    by injection Hi as ->. }
  apply Nat.eqb_neq in E1. destruct (split_bounds n) as [Hk1 Hk2]; [lia|].
  assert (Hl2 : 2 ≤ length l) by lia. rewrite (root_split l Hl2), <- Hn.
  cbv zeta. set (k := split n) in *.
  destruct (i <? k) eqn:Ek; [apply Nat.ltb_lt in Ek|apply Nat.ltb_ge in Ek].
  - destruct (IH k) with (l := take k l) (i := i) as (p & Hp & Hr);
      [lia|rewrite length_take; lia|by rewrite lookup_take_lt by lia|].
    rewrite Hp. eexists. split; [done|]. rewrite root_from_inclusion_snoc. cbv zeta.
    replace ((n =? 0) || (n <=? i)) with false by (symmetry; apply orb_false_iff; split;
      [apply Nat.eqb_neq|apply Nat.leb_gt]; lia).
    replace (n =? 1) with false by (symmetry; apply Nat.eqb_neq; lia). fold k.
    replace (i <? k) with true by (symmetry; apply Nat.ltb_lt; lia). by rewrite Hr.
  - destruct (IH (n - k)) with (l := drop k l) (i := i - k) as (p & Hp & Hr);
      [lia|rewrite length_drop; lia|by rewrite lookup_drop, Nat.add_comm, Nat.sub_add by lia|].
    rewrite Hp. eexists. split; [done|]. rewrite root_from_inclusion_snoc. cbv zeta.
    replace ((n =? 0) || (n <=? i)) with false by (symmetry; apply orb_false_iff; split;
      [apply Nat.eqb_neq|apply Nat.leb_gt]; lia).
    replace (n =? 1) with false by (symmetry; apply Nat.eqb_neq; lia). fold k.
    replace (i <? k) with false by (symmetry; apply Nat.ltb_ge; lia). by rewrite Hr.
Qed.
End merkle.
