(* ===== verification/MerkleProofs.v ===== *)
(** * Merkle proofs are complete and sound

    [verify_consistency] walks the tree bottom-up on two indices, while
    [consistency_proof] builds the path top-down.  The two are related
    through [bpath], the bottom-up path over an abstract labelling of the
    tree's nodes by level and index. *)

From S2P Require Import Prelude Crypto Merkle.

(** ** Halving indices *)

Definition up (x l : nat) : nat := x / 2 ^ l.

Lemma up_0 x : up x 0 = x. Proof. apply Nat.div_1_r. Qed.
Lemma up_S x l : up x (S l) = up x l / 2.
Proof. unfold up. rewrite Nat.pow_succ_r', Nat.mul_comm. by rewrite Nat.Div0.div_div. Qed.

Lemma odd_half f : Nat.odd f = true → f = 2 * (f / 2) + 1.
Proof.
  intros Hf. pose proof (Nat.div_mod_eq f 2).
  rewrite <- Nat.bit0_odd, Nat.bit0_eqb in Hf. apply Nat.eqb_eq in Hf. lia.
Qed.
Lemma even_half f : Nat.odd f = false → f = 2 * (f / 2).
Proof.
  intros Hf. pose proof (Nat.div_mod_eq f 2). pose proof (Nat.mod_upper_bound f 2).
  rewrite <- Nat.bit0_odd, Nat.bit0_eqb in Hf. apply Nat.eqb_neq in Hf. lia.
Qed.
Lemma odd_add_even a b : Nat.odd (2 * a + b) = Nat.odd b.
Proof. rewrite Nat.add_comm. apply Nat.odd_add_mul_2. Qed.

(** ** The bottom-up path *)

Section bpath.
Context {A : Type}.

(** Siblings met climbing [k] levels from the node of index [f] at level
    [l], in the tree whose last index at that level is [s]. *)
Fixpoint bpath (k : nat) (nd : nat → nat → A) (l f s : nat) : list A :=
  match k with
  | O => []
  | S k' =>
    if s =? 0 then []
    else if Nat.odd f then nd l (f - 1) :: bpath k' nd (S l) (f / 2) (s / 2)
    else if f =? s then bpath k' nd (S l) (f / 2) (s / 2)
    else nd l (f + 1) :: bpath k' nd (S l) (f / 2) (s / 2)
  end.

Lemma bpath_0 k nd l f : bpath k nd l f 0 = [].
Proof. by destruct k. Qed.

Lemma bpath_nonempty k nd l f s :
  f ≠ 0 → f ≤ s → s < 2 ^ k → bpath k nd l f s ≠ [].
Proof.
  revert l f s. induction k as [|k IH]; intros l f s Hf Hs Hk; [simpl in Hk; lia|].
  cbn [bpath]. destruct (s =? 0) eqn:E; [apply Nat.eqb_eq in E; lia|].
  destruct (Nat.odd f) eqn:Eo; [done|]. destruct (f =? s) eqn:Ef; [|done].
  apply even_half in Eo. apply IH; [lia|apply Nat.Div0.div_le_mono; lia|].
  apply Nat.Div0.div_lt_upper_bound. by rewrite <- Nat.pow_succ_r'.
Qed.
End bpath.

(** ** The verification loop climbs [bpath] *)

Section loop.
Context `{CryptoPrims}.

Lemma skip_even_fuel f1 f2 f s :
  f < f1 → f < f2 → skip_even f1 f s = skip_even f2 f s.
Proof.
  revert f2 f s. induction f1 as [|f1 IH]; intros f2 f s H1 H2; [lia|].
  destruct f2 as [|f2]; [lia|]. cbn [skip_even].
  destruct (Nat.odd _ || _) eqn:E; [done|].
  apply orb_false_iff in E as [_ E%Nat.eqb_neq].
  assert (f / 2 < f) by (apply Nat.div_lt; [|lia]; destruct f; [done|lia]).
  apply IH; lia.
Qed.

(** On an even node without a right sibling the loop first climbs. *)
Lemma loop_skip iter f fr sr :
  Nat.odd f = false → f ≠ 0 → iter ≠ [] →
  consistency_loop iter f f fr sr = consistency_loop iter (f / 2) (f / 2) fr sr.
Proof.
  intros Ho Hf Hi. destruct iter as [|c iter]; [done|]. cbn [consistency_loop].
  apply even_half in Ho as Hh. set (g := f / 2) in *.
  replace (f =? 0) with false by (symmetry; by apply Nat.eqb_neq).
  replace (g =? 0) with false by (symmetry; apply Nat.eqb_neq; lia).
  rewrite Ho, !Nat.eqb_refl, !orb_true_r. cbn [negb].
  replace (skip_even (S f) f f) with
    (if Nat.odd g || (g =? 0) then (g, g) else skip_even f g g)
    by (cbn [skip_even]; done).
  replace (g =? 0) with false by (symmetry; apply Nat.eqb_neq; lia).
  rewrite orb_false_r. destruct (Nat.odd g) eqn:Eg; [done|]. cbn [negb].
  by rewrite (skip_even_fuel f (S g)) by lia.
Qed.

(** [nd] and [od] label the nodes of the new and of the old tree, with
    [N'] and [M] their last leaf indices. *)
Section climb.
Context (nd od : nat → nat → Hash) (M N' : nat).
Hypothesis MN : M ≤ N'.
Hypothesis nd_pair : ∀ l i, 2 * i + 1 ≤ up N' l →
  nd (S l) i = node_hash (nd l (2 * i)) (nd l (2 * i + 1)).
Hypothesis nd_last : ∀ l i, 2 * i = up N' l → nd (S l) i = nd l (2 * i).
Hypothesis od_pair : ∀ l i, 2 * i + 1 ≤ up M l →
  od (S l) i = node_hash (od l (2 * i)) (od l (2 * i + 1)).
Hypothesis od_last : ∀ l i, 2 * i = up M l → od (S l) i = od l (2 * i).
Hypothesis od_nd : ∀ l i, i < up M l → od l i = nd l i.

Lemma up_le l : up M l ≤ up N' l.
Proof using MN. apply Nat.Div0.div_le_mono. exact MN. Qed.

Lemma climb_loop k l :
  up N' l < 2 ^ k →
  consistency_loop (bpath k nd l (up M l) (up N' l)) (up M l) (up N' l)
    (od l (up M l)) (nd l (up M l))
  = Some (0, od (l + k) 0, nd (l + k) 0).
Proof using All.
  revert l. induction k as [|k IH]; intros l Hk.
  - simpl in Hk. pose proof (up_le l). replace (up M l) with 0 by lia.
    cbn. by rewrite Nat.add_0_r.
  - assert (HS : up N' (S l) < 2 ^ k).
    { rewrite up_S. apply Nat.Div0.div_lt_upper_bound. by rewrite <- Nat.pow_succ_r'. }
    specialize (IH (S l) HS). rewrite Nat.add_succ_comm in IH. rewrite !up_S in IH.
    pose proof (up_le l) as Hle. set (f := up M l) in *. set (s := up N' l) in *.
    cbn [bpath]. destruct (s =? 0) eqn:Es.
    { apply Nat.eqb_eq in Es. rewrite Es, bpath_0 in IH. cbn in IH.
      assert (f = 0) as Hf by lia. rewrite Hf, Es in *. cbn in IH |- *.
      injection IH as H1 H2. rewrite <- H1, <- H2.
      by rewrite (od_last l 0), (nd_last l 0) by (cbn; done). }
    apply Nat.eqb_neq in Es. destruct (Nat.odd f) eqn:Eo.
    { apply odd_half in Eo as Hf. cbn [consistency_loop].
      replace (s =? 0) with false by (symmetry; by apply Nat.eqb_neq).
      rewrite Eo. cbn [orb negb]. rewrite <- IH. f_equal.
      - rewrite od_pair by (fold f; lia). rewrite <- Hf, (od_nd l (2 * (f / 2))) by (fold f; lia).
        do 2 f_equal. lia.
      - rewrite nd_pair by (fold s; lia). rewrite <- Hf. do 2 f_equal. lia. }
    apply even_half in Eo as Hf. destruct (f =? s) eqn:Efs.
    { apply Nat.eqb_eq in Efs. rewrite <- Efs in *.
      assert (f / 2 ≠ 0) by lia.
      rewrite loop_skip; [|done|done|apply bpath_nonempty; [done|lia|]].
      - rewrite <- IH. f_equal.
        + rewrite od_last by (fold f; lia). by rewrite <- Hf.
        + rewrite nd_last by (fold s; lia). by rewrite <- Hf.
      - apply Nat.Div0.div_lt_upper_bound. by rewrite <- Nat.pow_succ_r'. }
    apply Nat.eqb_neq in Efs. cbn [consistency_loop].
    replace (s =? 0) with false by (symmetry; by apply Nat.eqb_neq).
    replace (f =? s) with false by (symmetry; by apply Nat.eqb_neq).
    rewrite Eo. cbn [orb]. rewrite <- IH. f_equal.
    + rewrite od_last by (fold f; lia). by rewrite <- Hf.
    + rewrite nd_pair by (fold s; lia). by rewrite <- Hf.
Qed.
End climb.
End loop.

(** ** Arithmetic of levels *)

Lemma pow2_pos l : 1 ≤ 2 ^ l.
Proof. pose proof (Nat.pow_nonzero 2 l). lia. Qed.

Lemma up_bounds x l : up x l * 2 ^ l ≤ x ∧ x < (up x l + 1) * 2 ^ l.
Proof.
  unfold up. pose proof (pow2_pos l). pose proof (Nat.div_mod_eq x (2 ^ l)).
  pose proof (Nat.mod_upper_bound x (2 ^ l)). nia.
Qed.

Lemma up_unique x l i : i * 2 ^ l ≤ x → x < (i + 1) * 2 ^ l → up x l = i.
Proof. intros H1 H2. pose proof (up_bounds x l). pose proof (pow2_pos l). nia. Qed.

(** Every positive number is a power of two times an odd number. *)
Lemma odd_part m : 1 ≤ m → ∃ v q, m = 2 ^ v * (2 * q + 1).
Proof.
  induction m as [m IH] using lt_wf_ind. intros Hm. destruct (Nat.odd m) eqn:E.
  - apply odd_half in E. exists 0, (m / 2). rewrite Nat.pow_0_r. lia.
  - apply even_half in E. destruct (IH (m / 2)) as (v & q & Hq); [lia..|].
    exists (S v), q. rewrite Nat.pow_succ_r'. lia.
Qed.

Lemma odd_part_pow2 v q j : 2 ^ v * (2 * q + 1) = 2 ^ j → v = j ∧ q = 0.
Proof.
  revert j. induction v as [|v IH]; intros [|j] E; rewrite ?Nat.pow_succ_r' in E; simpl in E.
  - lia.
  - lia.
  - lia.
  - destruct (IH j) as [-> ->]; [lia|done].
Qed.

Lemma odd_part_lt v q j : 2 ^ j < 2 ^ v * (2 * q + 1) → 2 ^ v * (2 * q + 1) < 2 ^ S j → v < j.
Proof.
  intros H1 H2. destruct (Nat.lt_ge_cases v j) as [|Hge]; [done|exfalso].
  replace v with (j + (v - j)) in * by lia. rewrite Nat.pow_add_r in *.
  rewrite Nat.pow_succ_r' in H2. pose proof (pow2_pos j). pose proof (pow2_pos (v - j)).
  destruct (v - j) as [|e]; [simpl in *; destruct q; nia|].
  rewrite Nat.pow_succ_r' in *. pose proof (pow2_pos e). nia.
Qed.

Lemma up_odd_part v q : up (2 ^ v * (2 * q + 1) - 1) v = 2 * q.
Proof. pose proof (pow2_pos v). apply up_unique; nia. Qed.

Lemma strip_ones_odd_part fuel v q s :
  v < fuel → strip_ones fuel (2 ^ v * (2 * q + 1) - 1) s = (2 * q, up s v).
Proof.
  revert v s. induction fuel as [|fuel IH]; intros v s Hv; [lia|]. cbn [strip_ones].
  destruct v as [|v].
  - replace (2 ^ 0 * (2 * q + 1) - 1) with (2 * q + 0) by (simpl; lia).
    rewrite odd_add_even. cbn [Nat.odd Nat.even negb]. by rewrite Nat.add_0_r, up_0.
  - pose proof (pow2_pos v).
    assert (E : 2 ^ S v * (2 * q + 1) - 1 = 2 * (2 ^ v * (2 * q + 1) - 1) + 1)
      by (rewrite Nat.pow_succ_r'; nia).
    rewrite E, odd_add_even. change (Nat.odd 1) with true. cbv iota.
    replace ((2 * (2 ^ v * (2 * q + 1) - 1) + 1) / 2) with (2 ^ v * (2 * q + 1) - 1)
      by (apply Nat.div_unique with (r := 1); lia).
    rewrite IH by lia. f_equal. rewrite up_S. unfold up.
    rewrite !Nat.Div0.div_div. f_equal. lia.
Qed.

Lemma is_power_of_two_pow i : is_power_of_two (2 ^ i) = true.
Proof. unfold is_power_of_two. rewrite Nat.log2_pow2 by lia. apply Nat.eqb_refl. Qed.

Lemma is_power_of_two_between m j : 2 ^ j < m → m < 2 ^ S j → is_power_of_two m = false.
Proof.
  intros H1 H2. unfold is_power_of_two. rewrite (Nat.log2_unique m j) by lia.
  apply Nat.eqb_neq. lia.
Qed.

Lemma bpath_fuel {A} k1 k2 (nd : nat → nat → A) l f s :
  s < 2 ^ k1 → s < 2 ^ k2 → bpath k1 nd l f s = bpath k2 nd l f s.
Proof.
  revert k2 l f s. induction k1 as [|k1 IH]; intros k2 l f s H1 H2.
  - replace s with 0 by (simpl in H1; lia). by rewrite !bpath_0.
  - destruct k2 as [|k2]; [replace s with 0 by (simpl in H2; lia); by rewrite !bpath_0|].
    assert (∀ k, s < 2 ^ S k → s / 2 < 2 ^ k) as Hd.
    { intros k Hk. apply Nat.Div0.div_lt_upper_bound. by rewrite <- Nat.pow_succ_r'. }
    cbn [bpath]. repeat case_match; [done|..]; rewrite (IH k2) by auto; done.
Qed.

(** ** Nodes of a list of leaves *)

Section nodes.
Context `{CryptoPrims}.

Definition node (L : list Hash) (l i : nat) : Hash := root (take (2 ^ l) (drop (i * 2 ^ l) L)).

Lemma node_pair L l i :
  2 * i + 1 ≤ up (length L - 1) l →
  node L (S l) i = node_hash (node L l (2 * i)) (node L l (2 * i + 1)).
Proof.
  intros Hi. pose proof (up_bounds (length L - 1) l) as [Hb _]. pose proof (pow2_pos l).
  assert (HL : (2 * i + 1) * 2 ^ l < length L) by nia.
  unfold node at 1. rewrite root_split; rewrite length_take, length_drop, Nat.pow_succ_r'; [|nia].
  rewrite (split_pow _ l) by (rewrite ?Nat.pow_succ_r'; nia). unfold node. f_equal.
  - rewrite take_take. f_equal. replace (2 * i * 2 ^ l) with (i * (2 * 2 ^ l)) by lia.
    f_equal. lia.
  - rewrite skipn_firstn_comm, drop_drop. f_equal. f_equal; [lia|]. f_equal. lia.
Qed.

Lemma node_last L l i :
  2 * i = up (length L - 1) l → node L (S l) i = node L l (2 * i).
Proof.
  intros Hi. pose proof (up_bounds (length L - 1) l) as [_ Hb]. pose proof (pow2_pos l).
  rewrite <- Hi in Hb. unfold node. f_equal. rewrite Nat.pow_succ_r'.
  replace (i * (2 * 2 ^ l)) with (2 * i * 2 ^ l) by lia.
  rewrite !take_ge; [done|..]; rewrite length_drop; nia.
Qed.

Lemma node_prefix L m l i : (i + 1) * 2 ^ l ≤ m → node (take m L) l i = node L l i.
Proof.
  intros Hm. unfold node. f_equal. rewrite skipn_firstn_comm, take_take. f_equal. lia.
Qed.

Lemma node_suffix L a l i : node (drop (a * 2 ^ l) L) l i = node L l (a + i).
Proof. unfold node. rewrite drop_drop. do 3 f_equal. lia. Qed.

Lemma node_top L l : length L ≤ 2 ^ l → node L l 0 = root L.
Proof. intros Hl. unfold node. rewrite drop_0. by rewrite take_ge. Qed.
End nodes.

(** ** [subproof] is the bottom-up path *)

Section path.
Context `{CryptoPrims}.

Lemma up_full l d : up (2 ^ (l + d) - 1) l = 2 ^ d - 1.
Proof. pose proof (pow2_pos l). pose proof (pow2_pos d). rewrite Nat.pow_add_r. apply up_unique; nia. Qed.

Lemma up_shift x l d : up (2 ^ (l + d) + x) l = 2 ^ d + up x l.
Proof.
  pose proof (up_bounds x l). rewrite Nat.pow_add_r. apply up_unique; nia.
Qed.

Lemma up_lt x l d : x < 2 ^ (l + d) → up x l < 2 ^ d.
Proof. intros Hx. pose proof (up_bounds x l). rewrite Nat.pow_add_r in Hx. pose proof (pow2_pos l). nia. Qed.

Lemma up_ge x l d : 2 ^ (l + d) ≤ x → 2 ^ d ≤ up x l.
Proof. intros Hx. pose proof (up_bounds x l). rewrite Nat.pow_add_r in Hx. pose proof (pow2_pos l). nia. Qed.

(** Descending into the left subtree of size [2 ^ (l + d)]. *)
Lemma bpath_left (L : list Hash) d l m :
  2 ^ (l + d) < length L → length L ≤ 2 ^ S (l + d) → 1 ≤ m ≤ 2 ^ (l + d) →
  bpath (S d) (node L) l (up (m - 1) l) (up (length L - 1) l) =
  bpath d (node (take (2 ^ (l + d)) L)) l (up (m - 1) l) (up (2 ^ (l + d) - 1) l)
  ++ [root (drop (2 ^ (l + d)) L)].
Proof.
  revert l. induction d as [|d IH]; intros l H1 H2 Hm.
  - rewrite Nat.add_0_r in *. cbn [bpath app].
    rewrite (up_unique (m - 1) l 0) by lia.
    rewrite (up_unique (length L - 1) l 1) by (rewrite Nat.pow_succ_r' in H2; lia).
    simpl. f_equal. unfold node. rewrite Nat.mul_1_l. f_equal.
    rewrite take_ge; [done|]. rewrite length_drop. rewrite Nat.pow_succ_r' in H2. lia.
  - rewrite <- Nat.add_succ_comm in *. specialize (IH (S l) H1 H2 Hm). rewrite !up_S in IH.
    rewrite Nat.add_succ_comm in *.
    pose proof (up_lt (m - 1) l (S d)) as Hf. pose proof (up_ge (length L - 1) l (S d)) as Hs.
    pose proof (up_full l (S d)) as Hk. pose proof (pow2_pos d) as Hd.
    assert (Hnd : ∀ i, i < 2 ^ S d → node (take (2 ^ (l + S d)) L) l i = node L l i).
    { intros i Hi. apply node_prefix. rewrite Nat.pow_add_r. pose proof (pow2_pos l). nia. }
    set (f := up (m - 1) l) in *. set (s := up (length L - 1) l) in *.
    set (k := up (2 ^ (l + S d) - 1) l) in *.
    change (bpath (S (S d)) (node L) l f s) with
      (if s =? 0 then [] else if Nat.odd f then node L l (f - 1) :: bpath (S d) (node L) (S l) (f / 2) (s / 2)
       else if f =? s then bpath (S d) (node L) (S l) (f / 2) (s / 2)
       else node L l (f + 1) :: bpath (S d) (node L) (S l) (f / 2) (s / 2)).
    rewrite IH. cbn [bpath]. rewrite Nat.pow_succ_r' in *.
    replace (s =? 0) with false by (symmetry; apply Nat.eqb_neq; lia).
    replace (k =? 0) with false by (symmetry; apply Nat.eqb_neq; lia).
    destruct (Nat.odd f) eqn:Eo; [rewrite Hnd by lia; done|].
    apply even_half in Eo.
    replace (f =? s) with false by (symmetry; apply Nat.eqb_neq; lia).
    replace (f =? k) with false by (symmetry; apply Nat.eqb_neq; lia).
    by rewrite Hnd by lia.
Qed.

(** Descending into the right subtree, after [2 ^ (l + d)] leaves. *)
Lemma bpath_right (L : list Hash) d l m :
  2 ^ (l + d) < length L → length L ≤ 2 ^ S (l + d) → 2 ^ (l + d) < m ≤ length L →
  bpath (S d) (node L) l (up (m - 1) l) (up (length L - 1) l) =
  bpath d (node (drop (2 ^ (l + d)) L)) l (up (m - 2 ^ (l + d) - 1) l)
    (up (length L - 2 ^ (l + d) - 1) l)
  ++ [root (take (2 ^ (l + d)) L)].
Proof.
  revert l. induction d as [|d IH]; intros l H1 H2 Hm.
  - rewrite Nat.add_0_r in *. cbn [bpath app]. rewrite Nat.pow_succ_r' in H2.
    rewrite (up_unique (m - 1) l 1), (up_unique (length L - 1) l 1) by lia.
    simpl. f_equal.
  - rewrite <- Nat.add_succ_comm in *. specialize (IH (S l) H1 H2 Hm). rewrite !up_S in IH.
    rewrite Nat.add_succ_comm in *.
    assert (Hnd : ∀ i, node (drop (2 ^ (l + S d)) L) l i = node L l (2 ^ S d + i)).
    { intros i. rewrite (Nat.add_comm l), Nat.pow_add_r. apply node_suffix. }
    pose proof (up_shift (m - 2 ^ (l + S d) - 1) l (S d)) as Ef.
    pose proof (up_shift (length L - 2 ^ (l + S d) - 1) l (S d)) as Es.
    replace (2 ^ (l + S d) + (m - 2 ^ (l + S d) - 1)) with (m - 1) in Ef by lia.
    replace (2 ^ (l + S d) + (length L - 2 ^ (l + S d) - 1)) with (length L - 1) in Es by lia.
    assert (Hle : up (m - 2 ^ (l + S d) - 1) l ≤ up (length L - 2 ^ (l + S d) - 1) l)
      by (apply Nat.Div0.div_le_mono; lia).
    set (f := up (m - 1) l) in *. set (s := up (length L - 1) l) in *.
    set (f' := up (m - 2 ^ (l + S d) - 1) l) in *.
    set (s' := up (length L - 2 ^ (l + S d) - 1) l) in *.
    change (bpath (S (S d)) (node L) l f s) with
      (if s =? 0 then [] else if Nat.odd f then node L l (f - 1) :: bpath (S d) (node L) (S l) (f / 2) (s / 2)
       else if f =? s then bpath (S d) (node L) (S l) (f / 2) (s / 2)
       else node L l (f + 1) :: bpath (S d) (node L) (S l) (f / 2) (s / 2)).
    rewrite IH. cbn [bpath]. pose proof (pow2_pos d) as Hd. rewrite Nat.pow_succ_r' in Ef, Es, Hnd.
    replace (s =? 0) with false by (symmetry; apply Nat.eqb_neq; lia).
    replace (Nat.odd f) with (Nat.odd f') by (by rewrite Ef, odd_add_even).
    destruct (s' =? 0) eqn:Es'.
    { apply Nat.eqb_eq in Es'. assert (f' = 0) as Ef' by lia. rewrite Ef', Es' in *.
      cbn [Nat.odd Nat.even negb]. replace (f =? s) with true by (symmetry; apply Nat.eqb_eq; lia).
      by rewrite bpath_0. }
    apply Nat.eqb_neq in Es'. destruct (Nat.odd f') eqn:Eo.
    + apply odd_half in Eo. rewrite Hnd. cbn [app]. do 2 f_equal. lia.
    + destruct (f' =? s') eqn:Efs; [apply Nat.eqb_eq in Efs|apply Nat.eqb_neq in Efs].
      * by replace (f =? s) with true by (symmetry; apply Nat.eqb_eq; lia).
      * replace (f =? s) with false by (symmetry; apply Nat.eqb_neq; lia).
        rewrite Hnd. cbn [app]. do 2 f_equal. lia.
Qed.

(** The whole path of [subproof] away from the border: the largest complete
    subtree that ends at [m], then its siblings upwards. *)
Lemma subproof_path L v q K :
  let m := 2 ^ v * (2 * q + 1) in
  (m < length L ∨ ∃ i, m = length L ∧ m = 2 ^ i) →
  up (length L - 1) v < 2 ^ K →
  subproof m L false = node L v (2 * q) :: bpath K (node L) v (2 * q) (up (length L - 1) v).
Proof.
  intros m Hm HK. subst m. revert v q K L Hm HK.
  enough (∀ n v q K L, n = length L →
    (2 ^ v * (2 * q + 1) < length L ∨ ∃ i, 2 ^ v * (2 * q + 1) = length L ∧ 2 ^ v * (2 * q + 1) = 2 ^ i) →
    up (length L - 1) v < 2 ^ K →
    subproof (2 ^ v * (2 * q + 1)) L false =
    node L v (2 * q) :: bpath K (node L) v (2 * q) (up (length L - 1) v)) by eauto.
  induction n as [n IH] using lt_wf_ind. intros v q K L Hn Hm HK.
  pose proof (pow2_pos v) as Hv.
  rewrite subproof_eq by (destruct Hm as [?|[? [? ?]]]; nia).
  destruct Hm as [Hm|(i & Hm1 & Hm2)].
  2: { rewrite Hm1, Nat.eqb_refl. destruct (odd_part_pow2 _ _ _ Hm2) as [-> ->].
       rewrite <- Hm1, (up_unique _ _ 0), bpath_0 by (simpl; lia).
       simpl (2 * 0). rewrite node_top; [done|]. rewrite <- Hm1. simpl. lia. }
  replace (_ =? length L) with false by (symmetry; apply Nat.eqb_neq; lia).
  destruct (split_spec (length L)) as (j & Hj & H1 & H2); [nia|]. cbv zeta. rewrite Hj.
  pose proof (up_odd_part v q) as Hup.
  destruct (_ <=? 2 ^ j) eqn:Ek; [apply Nat.leb_le in Ek|apply Nat.leb_gt in Ek].
  - assert (v ≤ j) as Hvj by (apply (Nat.pow_le_mono_r_iff 2); nia).
    replace j with (v + (j - v)) in * by lia. set (d := j - v) in *.
    rewrite (IH (2 ^ (v + d))) with (K := d) (L := take (2 ^ (v + d)) L);
      rewrite ?length_take, ?Nat.min_l by lia; [|lia|done| |].
    + rewrite node_prefix by (rewrite Nat.pow_add_r in *; nia).
      rewrite (bpath_fuel K (S d)) by (done || apply up_lt; rewrite Nat.add_succ_r; lia).
      rewrite <- Hup, bpath_left by nia. by rewrite Hup.
    + apply Nat.le_lteq in Ek as [?|Ek]; [by left|right; eauto].
    + rewrite up_full. pose proof (pow2_pos d). lia.
  - assert (v < j) as Hvj by (eapply odd_part_lt; [exact Ek|lia]).
    replace j with (v + S (j - v - 1)) in * by lia. set (e := j - v - 1) in *.
    assert (Hqe : 2 ^ e ≤ q).
    { rewrite Nat.pow_add_r, Nat.pow_succ_r' in Ek. apply Nat.mul_lt_mono_pos_l in Ek; lia. }
    assert (Hq : 2 ^ v * (2 * q + 1) - 2 ^ (v + S e) = 2 ^ v * (2 * (q - 2 ^ e) + 1)).
    { rewrite Nat.pow_add_r, Nat.pow_succ_r', <- Nat.mul_sub_distr_l. f_equal. lia. }
    rewrite Hq. pose proof (pow2_pos (v + S e)).
    rewrite (IH (length L - 2 ^ (v + S e))) with (K := S e) (L := drop (2 ^ (v + S e)) L);
      rewrite ?length_drop; [|lia|done|left; lia|].
    + rewrite (Nat.add_comm v (S e)), Nat.pow_add_r, node_suffix.
      rewrite <- Nat.pow_add_r, (Nat.add_comm (S e) v).
      replace (2 ^ S e + 2 * (q - 2 ^ e)) with (2 * q) by (rewrite Nat.pow_succ_r'; lia).
      rewrite (bpath_fuel K (S (S e))) by (done || apply up_lt; rewrite Nat.add_succ_r; lia).
      rewrite <- Hup, bpath_right by lia. by rewrite Hup, Hq, up_odd_part.
    + apply up_lt. rewrite Nat.pow_succ_r' in H2. lia.
Qed.

(** On the border the first element is the old root, left out when the old
    size is a power of two. *)
Lemma subproof_border L m :
  1 ≤ m → (m < length L ∨ ∃ i, m = length L ∧ m = 2 ^ i) →
  (if is_power_of_two m then [root (take m L)] else []) ++ subproof m L true
  = subproof m L false.
Proof.
  remember (length L) as n eqn:Hn. revert L Hn.
  induction n as [n IH] using lt_wf_ind. intros L Hn H1 Hm.
  rewrite !subproof_eq by (destruct Hm as [?|[? [? ?]]]; lia).
  destruct Hm as [Hm|(i & Hm1 & Hm2)].
  2: { rewrite Hm1, Hn, Nat.eqb_refl, <- Hn, <- Hm1, Hm2, is_power_of_two_pow.
       rewrite take_ge; [done|]. lia. }
  rewrite <- Hn. replace (m =? n) with false by (symmetry; apply Nat.eqb_neq; lia).
  destruct (split_spec n) as (j & Hj & Hj1 & Hj2); [lia|]. cbv zeta. rewrite Hj.
  destruct (m <=? 2 ^ j) eqn:Ek; [apply Nat.leb_le in Ek|apply Nat.leb_gt in Ek].
  - rewrite <- (IH (2 ^ j)) with (L := take (2 ^ j) L); [|done|rewrite length_take; lia|done|].
    + rewrite take_take, Nat.min_l by lia. by rewrite app_assoc.
    + apply Nat.le_lteq in Ek as [?|Ek]; [by left|right; eauto].
  - by rewrite (is_power_of_two_between m j) by (rewrite ?Nat.pow_succ_r' in *; lia).
Qed.

(** The verifier accepts the prover's consistency proof. *)
Lemma consistency_complete L m :
  1 ≤ m ≤ length L →
  ∃ p, consistency_proof m L = Some p ∧
       verify_consistency m (length L) (root (take m L)) (root L) p = true.
Proof.
  intros Hm. unfold consistency_proof, verify_consistency.
  replace (m =? 0) with false by (symmetry; apply Nat.eqb_neq; lia).
  replace (length L <? m) with false by (symmetry; apply Nat.ltb_ge; lia). cbn [orb].
  destruct (m =? length L) eqn:Emn.
  { apply Nat.eqb_eq in Emn. exists []. split; [done|].
    rewrite take_ge by lia. by rewrite !bool_decide_eq_true_2. }
  apply Nat.eqb_neq in Emn. eexists. split; [done|].
  rewrite subproof_border by lia.
  destruct (odd_part m) as (v & q & Hvq); [lia|].
  pose proof (Nat.pow_gt_lin_r 2 (length L) ltac:(lia)) as HK. set (K := length L) in *.
  assert (HS : up (length L - 1) v < 2 ^ K).
  { apply up_lt. fold K. rewrite Nat.pow_add_r. pose proof (pow2_pos v). nia. }
  rewrite Hvq at 1. rewrite (subproof_path L v q K) by (done || left; lia).
  rewrite Hvq at 1 2. rewrite strip_ones_odd_part; [|pose proof (Nat.pow_gt_lin_r 2 v ltac:(lia)); nia].
  pose proof (climb_loop (node L) (node (take m L)) (m - 1) (length L - 1)) as Hc.
  assert (Hl : length (take m L) = m) by (rewrite length_take; lia).
  specialize (Hc ltac:(lia) (node_pair L) (node_last L)).
  assert (Hup : up (m - 1) v = 2 * q) by (by rewrite Hvq, up_odd_part).
  pose proof (pow2_pos v).
  assert (Hpre : node (take m L) v (2 * q) = node L v (2 * q)) by (apply node_prefix; nia).
  specialize (Hc ltac:(intros l i; rewrite <- Hl at 1; apply node_pair)
                 ltac:(intros l i; rewrite <- Hl at 1; apply node_last)).
  specialize (Hc ltac:(intros l i Hi; apply node_prefix; pose proof (up_bounds (m - 1) l); nia)).
  specialize (Hc K v HS). fold K in Hc. rewrite Hup, Hpre in Hc. fold K. rewrite Hc.
  rewrite !node_top by (rewrite ?Hl; fold K; etrans; [|apply (Nat.pow_le_mono_r 2 K); lia]; lia).
  by rewrite !bool_decide_eq_true_2.
Qed.
End path.

(** ** Soundness of inclusion proofs

    A 32-byte digest has collisions, so soundness is stated for the messages
    that are actually hashed: those of the tree and those of the
    verification. *)

Section soundness.
Context `{CryptoPrims}.

Definition hash32 (h : Hash) : Prop := length h = 32.

(** The message [node_hash] feeds to SHA-256. *)
Definition node_msg (left right : Hash) : bytes := mjoin [[x01]; left; right].

(** The node messages hashed by [root]. *)
Fixpoint tree_msgs_fuel (fuel : nat) (leaves : list Hash) : list bytes :=
  match fuel with
  | O => []
  | S fuel' =>
    if length leaves <=? 1 then []
    else let k := split (length leaves) in
      node_msg (root (take k leaves)) (root (drop k leaves))
      :: tree_msgs_fuel fuel' (take k leaves) ++ tree_msgs_fuel fuel' (drop k leaves)
  end.
Definition tree_msgs (leaves : list Hash) : list bytes :=
  tree_msgs_fuel (length leaves) leaves.

(** The node messages hashed by [root_from_inclusion]. *)
Fixpoint path_msgs_rev (rpath : list Hash) (index size : nat) (leaf : Hash) : list bytes :=
  match rpath with
  | [] => []
  | last :: rest =>
    let k := split size in
    if index <? k then
      match root_from_inclusion_rev rest index k leaf with
      | Some h => node_msg h last :: path_msgs_rev rest index k leaf
      | None => []
      end
    else
      match root_from_inclusion_rev rest (index - k) (size - k) leaf with
      | Some h => node_msg last h :: path_msgs_rev rest (index - k) (size - k) leaf
      | None => []
      end
  end.
Definition path_msgs (path : list Hash) (index size : nat) (leaf : Hash) : list bytes :=
  path_msgs_rev (rev path) index size leaf.

Lemma node_hash_msg a b : node_hash a b = sha256 (node_msg a b).
Proof. done. Qed.

Lemma node_msg_inj a b c d :
  hash32 a → hash32 c → node_msg a b = node_msg c d → a = c ∧ b = d.
Proof.
  intros Ha Hc E. unfold node_msg in E. simpl in E. rewrite !app_nil_r in E.
  injection E as E. apply app_inj_length_l in E; [done|congruence].
Qed.

Lemma root_hash32 `{!CryptoLaws} l : Forall hash32 l → hash32 (root l).
Proof.
  intros Hl. destruct (decide (2 ≤ length l)) as [Hl2|Hl2].
  - rewrite root_split by done. apply sha256_length.
  - destruct l as [|x [|y l]]; [apply sha256_length|by inversion Hl|simpl in Hl2; lia].
Qed.

Lemma root_from_inclusion_hash32 `{!CryptoLaws} rpath i n leaf h :
  hash32 leaf → root_from_inclusion_rev rpath i n leaf = Some h → hash32 h.
Proof.
  intros Hleaf Hr. destruct rpath as [|last rest]; simpl in Hr.
  - repeat case_match; try done. by injection Hr as <-.
  - repeat (case_match; try done);
      match goal with _ : (?o ≫= _) = Some h |- _ => destruct o; simpl in *; [|done] end;
      injection Hr as <-; apply sha256_length.
Qed.

Lemma tree_msgs_fuel_enough f1 f2 l :
  length l ≤ f1 → length l ≤ f2 → tree_msgs_fuel f1 l = tree_msgs_fuel f2 l.
Proof.
  revert f2 l. induction f1 as [|f1 IH]; intros f2 l H1 H2.
  - destruct l; [by destruct f2|simpl in H1; lia].
  - destruct f2 as [|f2]; [destruct l; [done|simpl in H2; lia]|]. cbn [tree_msgs_fuel].
    destruct (length l <=? 1) eqn:E; [done|]. apply Nat.leb_gt in E.
    destruct (split_bounds (length l)); [lia|]. cbv zeta. f_equal.
    f_equal; apply IH; rewrite ?length_take, ?length_drop; lia.
Qed.

Lemma tree_msgs_split l :
  2 ≤ length l →
  let k := split (length l) in
  tree_msgs l = node_msg (root (take k l)) (root (drop k l))
                :: tree_msgs (take k l) ++ tree_msgs (drop k l).
Proof.
  intros Hl k. unfold tree_msgs at 1.
  rewrite (tree_msgs_fuel_enough _ (S (length l))) by lia. cbn [tree_msgs_fuel].
  replace (length l <=? 1) with false by (symmetry; apply Nat.leb_gt; lia).
  destruct (split_bounds _ Hl). subst k. cbv zeta. unfold tree_msgs. f_equal.
  f_equal; apply tree_msgs_fuel_enough; rewrite ?length_take, ?length_drop; lia.
Qed.

Lemma inclusion_sound_rev `{!CryptoLaws} rpath l i leaf :
  Forall hash32 l → Forall hash32 rpath → hash32 leaf →
  collision_free (path_msgs_rev rpath i (length l) leaf ++ tree_msgs l) →
  root_from_inclusion_rev rpath i (length l) leaf = Some (root l) →
  l !! i = Some leaf.
Proof.
  revert l i. induction rpath as [|last rest IH]; intros l i Hl Hp Hleaf Hcf Hr.
  - simpl in Hr. repeat case_match; try done. injection Hr as ->.
    destruct l as [|x [|]]; try done. apply orb_false_iff in H1 as [_ Hi%Nat.leb_gt].
    simpl in Hi. by replace i with 0 by lia.
  - inversion_clear Hp as [|?? Hlast Hrest].
    cbn [root_from_inclusion_rev path_msgs_rev] in *. cbv zeta in *.
    destruct (_ || _) eqn:E1 in Hr; [done|].
    apply orb_false_iff in E1 as [E0%Nat.eqb_neq Hi%Nat.leb_gt].
    destruct (length l =? 1) eqn:E1 in Hr; [done|]. apply Nat.eqb_neq in E1.
    assert (Hl2 : 2 ≤ length l) by lia. destruct (split_bounds _ Hl2) as [Hk1 Hk2].
    pose proof (tree_msgs_split l Hl2) as Hms. rewrite (root_split l Hl2) in Hr.
    cbv zeta in Hms. set (k := split (length l)) in *.
    assert (Htk : length (take k l) = k) by (rewrite length_take; lia).
    assert (Hdk : length (drop k l) = length l - k) by apply length_drop.
    destruct (i <? k) eqn:Ek; [apply Nat.ltb_lt in Ek|apply Nat.ltb_ge in Ek].
    + destruct (root_from_inclusion_rev rest i k leaf) as [h|] eqn:Eh; [|done].
      simpl in Hr. injection Hr as Hr; rewrite !node_hash_msg in Hr.
      apply Hcf in Hr; [|rewrite Hms; set_solver..].
      pose proof (root_from_inclusion_hash32 _ _ _ _ _ Hleaf Eh) as Hh.
      destruct (node_msg_inj _ _ _ _ Hh (root_hash32 _ (Forall_take _ k _ Hl)) Hr) as [-> _].
      rewrite <- (lookup_take_lt l k i) by lia. apply IH; rewrite ?Htk; auto using Forall_take.
      eapply collision_free_sub; [|exact Hcf]. rewrite Hms. set_solver.
    + destruct (root_from_inclusion_rev rest (i - k) (length l - k) leaf) as [h|] eqn:Eh; [|done].
      simpl in Hr. injection Hr as Hr; rewrite !node_hash_msg in Hr.
      apply Hcf in Hr; [|rewrite Hms; set_solver..].
      destruct (node_msg_inj _ _ _ _ Hlast (root_hash32 _ (Forall_take _ k _ Hl)) Hr) as [_ ->].
      replace i with (k + (i - k)) by lia. rewrite <- lookup_drop.
      apply IH; rewrite ?Hdk; auto using Forall_drop.
      eapply collision_free_sub; [|exact Hcf]. rewrite Hms. set_solver.
Qed.
End soundness.
