(* ===== verification/MerkleTheorems.v ===== *)
(** * What Merkle proofs promise

    Completeness and soundness of inclusion proofs, completeness of
    consistency proofs, and what the final check of [verify_consistency]
    leaves open. *)

From S2P Require Import Prelude Crypto Merkle MerkleProofs.

(** A small tree over the toy digest. *)
Module TreeDemo.
#[local] Existing Instance Toy.prims.
Definition leaves : list Hash := leaf_hash <$> [[x01]; [x02]; [x03]; [x04]; [x05]].
Definition second : Hash := leaf_hash [x02].
Definition path : list Hash := default [] (inclusion_proof 1 leaves).
End TreeDemo.

Section theorems.
Context `{CryptoPrims}.

(** C5: consistency proofs are complete. For every log of [n] leaves and
    every earlier size [m] with [1 <= m <= n], [consistency_proof] produces
    a proof, and [verify_consistency] accepts it for the root of the first
    [m] leaves and the root of all of them. *)
Theorem consistency_proof_verifies leaves m :
  (1 ≤ m ≤ length leaves)%nat →
  ∃ p, consistency_proof m leaves = Some p ∧
       verify_consistency m (length leaves) (root (take m leaves)) (root leaves) p = true.
Proof. apply consistency_complete. Qed.

(** inclusion proofs are complete. For every leaf of a log,
    [inclusion_proof] produces a path and [verify_inclusion] accepts it
    against the log's root. *)
Theorem inclusion_proof_verifies leaves i leaf :
  leaves !! i = Some leaf →
  ∃ p, inclusion_proof i leaves = Some p ∧
       verify_inclusion i (length leaves) leaf p (root leaves) = true.
Proof.
  intros (p & ? & ?)%inclusion_complete. exists p. split; [done|]. by apply bool_decide_eq_true_2.
Qed.

(** C6: inclusion proofs are sound. If [verify_inclusion] accepts any path
    for a leaf at an index, then that leaf is at that index of the log,
    unless two of the messages hashed by the tree and by the verifier
    collide. *)
Theorem inclusion_proof_sound `{!CryptoLaws} leaves path i leaf :
  Forall hash32 leaves → Forall hash32 path → hash32 leaf →
  collision_free (path_msgs path i (length leaves) leaf ++ tree_msgs leaves) →
  verify_inclusion i (length leaves) leaf path (root leaves) = true →
  leaves !! i = Some leaf.
Proof.
  intros Hl Hp Hleaf Hcf Hv%bool_decide_eq_true_1.
  apply (inclusion_sound_rev (rev path)); try done.
  rewrite Forall_forall in *. intros x Hx. apply Hp. by apply in_rev.
Qed.

(** What the verifier does not check. From an old size of 1, a one-hash
    proof is accepted for *every* claimed new size: the loop stops when the
    old index reaches 0, and the new index is never required to have
    reached 0 too. *)
Theorem consistency_ignores_new_size (n : nat) (old sibling : Hash) :
  (2 ≤ n)%nat → verify_consistency 1 n old (node_hash old sibling) [sibling] = true.
Proof.
  intros Hn. unfold verify_consistency.
  replace (n <? 1)%nat with false by (symmetry; apply Nat.ltb_ge; lia).
  replace (1 =? n)%nat with false by (symmetry; apply Nat.eqb_neq; lia).
  change (is_power_of_two 1) with true. cbn [Nat.eqb app strip_ones Nat.sub Nat.odd Nat.even negb].
  unfold consistency_loop. replace (n - 1 =? 0)%nat with false by (symmetry; apply Nat.eqb_neq; lia).
  destruct (0 =? n - 1)%nat eqn:E; [apply Nat.eqb_eq in E; lia|].
  cbn [Nat.odd Nat.even negb orb Nat.div Nat.divmod fst Nat.eqb andb].
  by rewrite !bool_decide_eq_true_2.
Qed.
End theorems.

Section witnesses.
#[local] Existing Instance Toy.prims.
#[local] Existing Instance Toy.laws.

Lemma consistency_proof_verifies_witness :
  (1 ≤ 3 ≤ length TreeDemo.leaves)%nat ∧
  ∃ p, consistency_proof 3 TreeDemo.leaves = Some p ∧
       verify_consistency 3 (length TreeDemo.leaves) (root (take 3 TreeDemo.leaves))
         (root TreeDemo.leaves) p = true.
Proof.
  split; [vm_compute; lia|]. apply (consistency_proof_verifies TreeDemo.leaves 3). vm_compute. lia.
Defined.

Lemma inclusion_proof_verifies_witness :
  ∃ p, inclusion_proof 1 TreeDemo.leaves = Some p ∧
       verify_inclusion 1 (length TreeDemo.leaves) TreeDemo.second p (root TreeDemo.leaves) = true.
Proof. apply (inclusion_proof_verifies TreeDemo.leaves 1 TreeDemo.second). reflexivity. Defined.

Lemma inclusion_proof_sound_witness : TreeDemo.leaves !! 1%nat = Some TreeDemo.second.
Proof.
  apply (inclusion_proof_sound TreeDemo.leaves TreeDemo.path 1 TreeDemo.second).
  - vm_compute. repeat constructor.
  - vm_compute. repeat constructor.
  - reflexivity.
  - assert (Hd : forallb (λ x, forallb (λ y,
        negb (bool_decide (sha256 x = sha256 y)) || bool_decide (x = y))
        (path_msgs TreeDemo.path 1 (length TreeDemo.leaves) TreeDemo.second ++ tree_msgs TreeDemo.leaves))
        (path_msgs TreeDemo.path 1 (length TreeDemo.leaves) TreeDemo.second ++ tree_msgs TreeDemo.leaves)
      = true) by (vm_compute; reflexivity).
    intros x y Hx%list_elem_of_In Hy%list_elem_of_In E.
    rewrite forallb_forall in Hd. specialize (Hd x Hx).
    rewrite forallb_forall in Hd. specialize (Hd y Hy).
    apply orb_true_iff in Hd as [Hd|Hd]; [|by apply bool_decide_eq_true_1 in Hd].
    apply negb_true_iff, bool_decide_eq_false in Hd. done.
  - vm_compute. reflexivity.
Defined.

Lemma consistency_ignores_new_size_witness :
  verify_consistency 1 1000 TreeDemo.second (node_hash TreeDemo.second TreeDemo.second)
    [TreeDemo.second] = true.
Proof. apply (consistency_ignores_new_size 1000). lia. Defined.
End witnesses.
