(* ===== verification/ProtoRecord.v ===== *)
(** * Ledger records and tree heads ([crates/dante-proto/src/record.rs],
    [head.rs], [pow.rs])

    The signed record envelope, its canonical encoding and signature check,
    the signed tree head, and the wire form of a proof of work. *)

From S2P Require Import Prelude Utf8 Enc Crypto Merkle.

(** ** record.rs *)

Definition RECORD_VERSION : N := 1.
Definition CLOCK_SKEW_MS : N := 300000.

Inductive RecordKind : Type :=
  | IdentityAnnounce
  | LivenessProof
  | KeyRotation
  | ServerRegister
  | ServerDelist
  | Tombstone
  | IdentityRevoke
  | IdentityProfile.

#[global] Instance RecordKind_eq_dec : EqDecision RecordKind.
Proof. solve_decision. Defined.

Definition kind_as_u8 (k : RecordKind) : N :=
  match k with
  | IdentityAnnounce => 1
  | LivenessProof => 2
  | KeyRotation => 3
  | ServerRegister => 4
  | ServerDelist => 5
  | Tombstone => 6
  | IdentityRevoke => 7
  | IdentityProfile => 8
  end.

Definition kind_from_u8 (v : N) : result RecordKind WireError :=
  match v with
  | 1%N => Ok IdentityAnnounce
  | 2%N => Ok LivenessProof
  | 3%N => Ok KeyRotation
  | 4%N => Ok ServerRegister
  | 5%N => Ok ServerDelist
  | 6%N => Ok Tombstone
  | 7%N => Ok IdentityRevoke
  | 8%N => Ok IdentityProfile
  | other => Err (BadDiscriminant "RecordKind" other)
  end.

Record record := mkRecord {
  rec_v : N;
  rec_kind : RecordKind;
  rec_body : bytes;
  rec_author : bytes;
  rec_created_ms : N;
  rec_sig : bytes;
}.

#[global] Instance record_eq_dec : EqDecision record.
Proof. solve_decision. Defined.

(** The Rust types of the fields: machine widths and array lengths. *)
Definition record_ok (r : record) : Prop :=
  ok_u16 (rec_v r) ∧ fits_u32 (rec_body r) ∧ ok_len 32 (rec_author r) ∧
  ok_u64 (rec_created_ms r) ∧ ok_len SIG_LEN (rec_sig r).

(** Lift a pure [Result] into the reader ([RecordKind::from_u8(r.u8()?)?]). *)
Definition r_lift {A} (m : result A WireError) : Read A :=
  λ r, match m with Ok a => Ok (a, r) | Err e => Err e end.

Section record.
Context `{CryptoPrims}.

Definition record_write_prefix (self : record) (w : Writer) : Writer :=
  w |> w_u16 (rec_v self) |> w_u8 (kind_as_u8 (rec_kind self)) |> w_bytes (rec_body self)
    |> w_fixed (rec_author self) |> w_u64 (rec_created_ms self).

Definition record_signing_bytes (self : record) : bytes :=
  w_into_vec (record_write_prefix self (w_with_capacity (15 + len (rec_body self) + 32))).

Definition record_encode (self : record) : bytes :=
  w_into_vec (record_write_prefix self (w_with_capacity (15 + len (rec_body self) + 32 + 64))
              |> w_fixed (rec_sig self)).

Definition r_record : Read record :=
  let! v := r_u16 in
  let! k := r_u8 in
  let! kind := r_lift (kind_from_u8 k) in
  let! body := r_bytes in
  let! author := r_fixed 32 in
  let! created_ms := r_u64 in
  let! sig := r_fixed SIG_LEN in
  let! _ := r_finish in
  r_ret (mkRecord v kind body author created_ms sig).
Definition record_decode (bs : bytes) : result record WireError := run r_record bs.

Definition record_id (self : record) : bytes := sha256 (record_encode self).

(** [seal_with]: sign the bytes of the record whose signature is all zero
    (the signing bytes do not include it). *)
Definition record_seal_with (kind : RecordKind) (body author : bytes) (created_ms : N)
    (sign : bytes → bytes) : record :=
  let rec := mkRecord RECORD_VERSION kind body author created_ms (replicate SIG_LEN x00) in
  mkRecord RECORD_VERSION kind body author created_ms (sign (record_signing_bytes rec)).

Definition record_verify_signature (self : record) : result unit CryptoError :=
  let? pk := sign_public_from_bytes (rec_author self) in
  sign_verify pk (record_signing_bytes self) (rec_sig self).

(** *** The codec is canonical *)

Lemma kind_round k : kind_from_u8 (kind_as_u8 k) = Ok k.
Proof. by destruct k. Qed.

Lemma kind_canon v k : kind_from_u8 v = Ok k → v = kind_as_u8 k.
Proof.
  unfold kind_from_u8. repeat case_match; try done; by intros [= <-].
Qed.

#[export] Instance kind_parses :
  Parses (let! k := r_u8 in r_lift (kind_from_u8 k)) (λ k, enc_u8 (kind_as_u8 k)) (λ _, True).
Proof.
  intros k pre post _. rewrite (r_bind_rd _ _ _ _ _ _ _ u8_parses) by by destruct k.
  unfold r_lift. by rewrite kind_round.
Qed.

Lemma r_bind_kind {B} (k : RecordKind → Read B) kd pre post :
  r_bind r_u8 (λ v, r_bind (r_lift (kind_from_u8 v)) k) (rd pre (enc_u8 (kind_as_u8 kd) ++ post))
  = k kd (rd (pre ++ enc_u8 (kind_as_u8 kd)) post).
Proof.
  rewrite <- (r_bind_assoc r_u8). apply (r_bind_rd _ _ _ _ _ _ _ kind_parses). done.
Qed.

Lemma r_lift_ok {A B} (m : result A WireError) (k : A → Read B) a r :
  m = Ok a → r_bind (r_lift m) k r = k a r.
Proof. intros ->. done. Qed.

Lemma r_lift_canon {A B} (m : result A WireError) (k : A → Read B) r b r' :
  r_bind (r_lift m) k r = Ok (b, r') → ∃ a, m = Ok a ∧ k a r = Ok (b, r').
Proof. unfold r_bind, r_lift. destruct m; [eauto|done]. Qed.

Lemma record_encode_eq r :
  record_encode r =
  be 2 (rec_v r) ++ enc_u8 (kind_as_u8 (rec_kind r)) ++ lenp (rec_body r) ++ rec_author r
  ++ be 8 (rec_created_ms r) ++ rec_sig r.
Proof. unfold record_encode, record_write_prefix. by enc_norm. Qed.

Lemma record_signing_bytes_eq r :
  record_signing_bytes r =
  be 2 (rec_v r) ++ enc_u8 (kind_as_u8 (rec_kind r)) ++ lenp (rec_body r) ++ rec_author r
  ++ be 8 (rec_created_ms r).
Proof. unfold record_signing_bytes, record_write_prefix. by enc_norm. Qed.

Lemma record_round r : record_ok r → record_decode (record_encode r) = Ok r.
Proof.
  destruct r as [v k b a c s]. intros Hok. unfold record_ok in Hok. simpl in Hok.
  destruct_and! Hok. eapply run_parse. rewrite record_encode_eq, <- !app_assoc. simpl.
  unfold r_record. parse1. refine (eq_trans (r_bind_kind _ _ _ _) _). parses. done.
Qed.

Lemma record_decode_canon bs r : record_decode bs = Ok r → record_ok r ∧ record_encode r = bs.
Proof.
  intros [r' Hr]%run_canon. unfold r_record in Hr. canons Hr.
  apply r_lift_canon in Hr as (k & Hk%kind_canon & Hr). canons Hr.
  injection Hr as <- _. rewrite record_encode_eq. simpl. subst. split; [done|].
  unfold id. by rewrite app_nil_r.
Qed.
End record.

(** ** pow.rs: the wire form of a proof of work *)

Definition w_pow (proof : PowProof) (w : Writer) : Writer :=
  w |> w_u32 (pw_m_cost_kib proof) |> w_u32 (pw_t_cost proof) |> w_u8 (pw_difficulty proof)
    |> w_fixed (pw_nonce proof).

Definition r_pow : Read PowProof :=
  let! m_cost_kib := r_u32 in
  let! t_cost := r_u32 in
  let! difficulty := r_u8 in
  let! nonce := r_fixed NONCE_LEN in
  r_ret (mkPowProof m_cost_kib t_cost difficulty nonce).

Definition pow_ok (p : PowProof) : Prop :=
  ok_u32 (pw_m_cost_kib p) ∧ ok_u32 (pw_t_cost p) ∧ ok_u8 (pw_difficulty p) ∧
  ok_len NONCE_LEN (pw_nonce p).

Definition enc_pow (p : PowProof) : bytes :=
  be 4 (pw_m_cost_kib p) ++ be 4 (pw_t_cost p) ++ enc_u8 (pw_difficulty p) ++ pw_nonce p.

Lemma w_buf_pow p w : w_buf (w_pow p w) = w_buf w ++ enc_pow p.
Proof. unfold w_pow, enc_pow. by enc_norm. Qed.
#[export] Hint Rewrite w_buf_pow : writer.

#[export] Instance pow_parses : Parses r_pow enc_pow pow_ok.
Proof.
  intros [m t d n] pre post Hok. unfold pow_ok in Hok. simpl in Hok. destruct_and! Hok.
  unfold enc_pow, r_pow. simpl. rewrite <- !app_assoc. parses. unfold r_ret, id.
  by rewrite <- !app_assoc.
Qed.
#[export] Instance pow_canon : Canon r_pow enc_pow pow_ok.
Proof.
  intros pre xs p r H. unfold r_pow in H. canons H. injection H as <- <-.
  split; [done|]. eexists. unfold enc_pow, id. simpl. by rewrite <- !app_assoc.
Qed.

(** ** head.rs *)

Definition TREE_HEAD_VERSION : N := 1.
Definition TREE_HEAD_DOMAIN : bytes := lit "dante/tree-head/v1".

Record TreeHead := mkTreeHead { th_size : N; th_root : bytes }.

Record SignedTreeHead := mkSTH { sth_head : TreeHead; sth_signer : bytes; sth_sig : bytes }.

#[global] Instance TreeHead_eq_dec : EqDecision TreeHead.
Proof. solve_decision. Defined.
#[global] Instance SignedTreeHead_eq_dec : EqDecision SignedTreeHead.
Proof. solve_decision. Defined.

Definition tree_head_signing_bytes (self : TreeHead) : bytes :=
  w_into_vec (w_with_capacity (len TREE_HEAD_DOMAIN + 2 + 8 + 32)
              |> w_fixed TREE_HEAD_DOMAIN |> w_u16 TREE_HEAD_VERSION
              |> w_u64 (th_size self) |> w_fixed (th_root self)).

Definition sth_encode (self : SignedTreeHead) : bytes :=
  w_into_vec (w_with_capacity (8 + 32 + 32 + 64)
              |> w_u64 (th_size (sth_head self)) |> w_fixed (th_root (sth_head self))
              |> w_fixed (sth_signer self) |> w_fixed (sth_sig self)).

Definition r_sth : Read SignedTreeHead :=
  let! size := r_u64 in
  let! root := r_fixed 32 in
  let! signer := r_fixed 32 in
  let! sig := r_fixed SIG_LEN in
  let! _ := r_finish in
  r_ret (mkSTH (mkTreeHead size root) signer sig).
Definition sth_decode (bs : bytes) : result SignedTreeHead WireError := run r_sth bs.

Definition sth_ok (s : SignedTreeHead) : Prop :=
  ok_u64 (th_size (sth_head s)) ∧ ok_len 32 (th_root (sth_head s)) ∧
  ok_len 32 (sth_signer s) ∧ ok_len SIG_LEN (sth_sig s).

Section head.
Context `{CryptoPrims}.

(** [seal]: the signer's public key and its signature over the head. *)
Definition sth_seal (head : TreeHead) (public : bytes) (sign : bytes → bytes) : SignedTreeHead :=
  mkSTH head public (sign (tree_head_signing_bytes head)).

Definition sth_verify (self : SignedTreeHead) : result unit CryptoError :=
  let? pk := sign_public_from_bytes (sth_signer self) in
  sign_verify pk (tree_head_signing_bytes (sth_head self)) (sth_sig self).
End head.

Lemma sth_round s : sth_ok s → sth_decode (sth_encode s) = Ok s.
Proof.
  destruct s as [[sz rt] sg si]. intros Hok. unfold sth_ok in Hok. simpl in Hok.
  destruct_and! Hok. eapply run_parse. unfold sth_encode. enc_norm. simpl.
  unfold r_sth. parses. done.
Qed.

Lemma sth_decode_canon bs s : sth_decode bs = Ok s → sth_ok s ∧ sth_encode s = bs.
Proof.
  intros [r' Hr]%run_canon. unfold r_sth in Hr. canons Hr. injection Hr as <- _.
  split; [done|]. unfold sth_encode. enc_norm. simpl. unfold id. by rewrite app_nil_r.
Qed.

(** The bytes a tree head signs determine the head: two heads with the same
    signing bytes are the same head. *)
Lemma tree_head_signing_inj a b :
  ok_u64 (th_size a) → ok_u64 (th_size b) →
  tree_head_signing_bytes a = tree_head_signing_bytes b → a = b.
Proof.
  intros Ha Hb E. destruct a as [sa ra], b as [sb rb]. unfold tree_head_signing_bytes in E.
  autorewrite with writer in E. cbn [th_size th_root] in *. rewrite <- !app_assoc in E.
  apply app_inv_head, app_inv_head, app_inv_head in E.
  apply app_inj_length_l in E as [E ->]; [|by rewrite !length_be].
  apply be_inj in E; [by subst|done..].
Qed.
