(* ===== verification/Envelope.v ===== *)
(** * The sealed-sender envelope ([crates/dante-proto/src/envelope.rs])

    What a relay stores and forwards: a day-rotating hint, a padded
    ciphertext and timing.  The sender is inside the ciphertext, bound to the
    message and to the hint by a signature. *)

From S2P Require Import Prelude Utf8 Enc Crypto.

Definition ENVELOPE_VERSION : N := 1.
Definition EPOCH_MS : N := 86400000.
Definition SEAL_KDF_INFO : bytes := lit "dante/sealed-sender/v1".
Definition HINT_DOMAIN : bytes := lit "dante/recipient-hint/v1".
Definition CONTENT_SIG_DOMAIN : bytes := lit "dante/sealed-sender-content/v1".
Definition SIZE_BUCKETS : list N := [256; 1024; 4096; 16384; 65536; 262144; 1048576]%N.

Record SealedContent := mkSealedContent {
  sc_sender_idk : bytes;
  sc_sender_sig : bytes;
  sc_inner : bytes;
}.

Record Envelope := mkEnvelope {
  env_v : N;
  env_recipient_hint : bytes;
  env_payload : bytes;
  env_size_class : N;
  env_deposited_ms : N;
  env_ttl_ms : N;
}.

#[global] Instance SealedContent_eq_dec : EqDecision SealedContent.
Proof. solve_decision. Defined.
#[global] Instance Envelope_eq_dec : EqDecision Envelope.
Proof. solve_decision. Defined.

(** ** Codecs *)

Definition sealed_content_encode (self : SealedContent) : bytes :=
  w_into_vec (w_with_capacity (32 + 64 + 4 + len (sc_inner self))
              |> w_fixed (sc_sender_idk self) |> w_fixed (sc_sender_sig self)
              |> w_bytes (sc_inner self)).

Definition r_sealed_content : Read SealedContent :=
  let! sender_idk := r_fixed 32 in
  let! sender_sig := r_fixed SIG_LEN in
  let! inner := r_bytes in
  let! _ := r_finish in
  r_ret (mkSealedContent sender_idk sender_sig inner).
Definition sealed_content_decode (bs : bytes) : result SealedContent WireError :=
  run r_sealed_content bs.

Definition envelope_encode (self : Envelope) : bytes :=
  w_into_vec (w_with_capacity (28 + len (env_payload self))
              |> w_u16 (env_v self) |> w_fixed (env_recipient_hint self)
              |> w_bytes (env_payload self) |> w_u16 (env_size_class self)
              |> w_u64 (env_deposited_ms self) |> w_u32 (env_ttl_ms self)).

Definition r_envelope : Read Envelope :=
  let! v := r_u16 in
  let! recipient_hint := r_fixed 8 in
  let! payload := r_bytes in
  let! size_class := r_u16 in
  let! deposited_ms := r_u64 in
  let! ttl_ms := r_u32 in
  let! _ := r_finish in
  r_ret (mkEnvelope v recipient_hint payload size_class deposited_ms ttl_ms).
Definition envelope_decode (bs : bytes) : result Envelope WireError := run r_envelope bs.

Definition envelope_ok (e : Envelope) : Prop :=
  ok_u16 (env_v e) ∧ ok_len 8 (env_recipient_hint e) ∧ fits_u32 (env_payload e) ∧
  ok_u16 (env_size_class e) ∧ ok_u64 (env_deposited_ms e) ∧ ok_u32 (env_ttl_ms e).

(** [now_ms.saturating_sub(deposited_ms) > ttl_ms] *)
Definition is_expired (self : Envelope) (now_ms : N) : bool :=
  (env_ttl_ms self <? now_ms - env_deposited_ms self)%N.

(** [SIZE_BUCKETS.iter().position(|&b| len + 4 <= b)] *)
Definition bucket_for (n : N) : option (N * N) :=
  i ← position (λ b, (n + 4 <=? b)%N) SIZE_BUCKETS;
  b ← SIZE_BUCKETS !! i;
  Some (N.of_nat i, b).

(** The value of a [Result] the code [expect]s; [d] stands for the panic,
    which [KdfLaws] excludes. *)
Definition expect_ok {A E} (d : A) (r : result A E) : A :=
  match r with Ok a => a | Err _ => d end.

Definition header_aad (v : N) (hint : bytes) (size_class deposited_ms ttl_ms : N) : bytes :=
  w_into_vec (w_with_capacity 24 |> w_u16 v |> w_fixed hint |> w_u16 size_class
              |> w_u64 deposited_ms |> w_u32 ttl_ms).

Section envelope.
Context `{CryptoPrims}.

Definition sig_challenge (recipient_hint inner : bytes) : bytes :=
  sha256_parts [CONTENT_SIG_DOMAIN; recipient_hint; inner].

Definition recipient_hint (recipient_id : bytes) (at_ms : N) : bytes :=
  take 8 (sha256_parts [HINT_DOMAIN; recipient_id; be 8 (at_ms / EPOCH_MS)]).

Definition derive_seal (shared eph_pub recipient_ik_pub : bytes) : bytes * bytes :=
  let prk := kdf_extract (eph_pub ++ recipient_ik_pub) shared in
  (expect_ok [] (kdf_expand prk (SEAL_KDF_INFO ++ lit "/key") 32),
   expect_ok [] (kdf_expand prk (SEAL_KDF_INFO ++ lit "/nonce") 24)).

(** [padded.resize(bucket, 0)] after the length prefix and the content. *)
Definition pad_to (bucket : N) (plain : bytes) : bytes :=
  let p := be 4 (as_u32 (len plain)) ++ plain in
  take (N.to_nat bucket) (p ++ replicate (N.to_nat bucket - length p) x00).

(** [eph] is the fresh ephemeral secret of [AgreeSecret::generate]. *)
Definition envelope_seal_with (recipient_id recipient_ik_pub sender_idk_pub inner : bytes)
    (deposited_ms ttl_ms : N) (sign : bytes → bytes) (eph : bytes)
    : result Envelope CryptoError :=
  let hint := recipient_hint recipient_id deposited_ms in
  let content := mkSealedContent sender_idk_pub (sign (sig_challenge hint inner)) inner in
  let plain := sealed_content_encode content in
  let? (size_class, bucket) := ok_or (bucket_for (len plain)) CE_InvalidKey in
  let padded := pad_to bucket plain in
  let eph_pub := agree_public eph in
  let? shared := agree eph recipient_ik_pub in
  let '(key, nonce) := derive_seal shared eph_pub recipient_ik_pub in
  let aad := header_aad ENVELOPE_VERSION hint size_class deposited_ms ttl_ms in
  let ct := xchacha_seal key nonce padded aad in
  Ok (mkEnvelope ENVELOPE_VERSION hint (eph_pub ++ ct) size_class deposited_ms ttl_ms).

Definition envelope_open (self : Envelope) (recipient_ik : bytes)
    : result SealedContent CryptoError :=
  if negb (env_v self =? ENVELOPE_VERSION)%N || (len (env_payload self) <? 32)%N
  then Err CE_AeadFailure
  else
    let eph_pub := take 32 (env_payload self) in
    let recipient_ik_pub := agree_public recipient_ik in
    let? shared := agree recipient_ik eph_pub in
    let '(key, nonce) := derive_seal shared eph_pub recipient_ik_pub in
    let aad := header_aad (env_v self) (env_recipient_hint self) (env_size_class self)
                 (env_deposited_ms self) (env_ttl_ms self) in
    let? padded := xchacha_open key nonce (drop 32 (env_payload self)) aad in
    if (len padded <? 4)%N then Err CE_AeadFailure
    else
      let real_len := of_be (take 4 padded) in
      if (len padded <? 4 + real_len)%N then Err CE_AeadFailure
      else
        let? content := map_err (λ _, CE_AeadFailure)
          (sealed_content_decode (take (N.to_nat real_len) (drop 4 padded))) in
        let? signer := sign_public_from_bytes (sc_sender_idk content) in
        let? _ := sign_verify signer
          (sig_challenge (env_recipient_hint self) (sc_inner content))
          (sc_sender_sig content) in
        Ok content.

(** ** Lemmas *)

Lemma sealed_content_encode_eq c :
  sealed_content_encode c = sc_sender_idk c ++ sc_sender_sig c ++ lenp (sc_inner c).
Proof using Type. unfold sealed_content_encode. by enc_norm. Qed.

Lemma sealed_content_round c :
  ok_len 32 (sc_sender_idk c) → ok_len SIG_LEN (sc_sender_sig c) → fits_u32 (sc_inner c) →
  sealed_content_decode (sealed_content_encode c) = Ok c.
Proof using Type.
  destruct c as [k s i]. cbn [sc_sender_idk sc_sender_sig sc_inner]. intros Hk Hs Hi.
  eapply run_parse. unfold sealed_content_encode. enc_norm. cbn.
  unfold r_sealed_content. parses. done.
Qed.

Lemma envelope_round e : envelope_ok e → envelope_decode (envelope_encode e) = Ok e.
Proof using Type.
  destruct e as [v h p c d t]. intros Hok. unfold envelope_ok in Hok. cbn in Hok.
  destruct_and! Hok. eapply run_parse. unfold envelope_encode. enc_norm. cbn.
  unfold r_envelope. parses. done.
Qed.

Lemma envelope_decode_canon bs e :
  envelope_decode bs = Ok e → envelope_ok e ∧ envelope_encode e = bs.
Proof using Type.
  intros [r' Hr]%run_canon. unfold r_envelope in Hr. canons Hr. injection Hr as <- _.
  split; [done|]. unfold envelope_encode. enc_norm. cbn. unfold id. by rewrite app_nil_r.
Qed.

Lemma bucket_for_spec n c b :
  bucket_for n = Some (c, b) →
  SIZE_BUCKETS !! N.to_nat c = Some b ∧ (n + 4 ≤ b)%N ∧ (b ≤ 1048576)%N ∧ (c < 7)%N.
Proof using Type.
  unfold bucket_for, SIZE_BUCKETS. simpl.
  repeat (case_match; simpl; [intros [= <- <-]; rewrite N.leb_le in *; split_and!; done || lia|]).
  done.
Qed.

Lemma length_pad bucket plain :
  (len plain + 4 ≤ bucket)%N → len (pad_to bucket plain) = bucket.
Proof using Type.
  intros Hb. unfold pad_to, len in *.
  rewrite length_take, !length_app, length_replicate, !length_be. lia.
Qed.

Lemma pad_to_eq bucket plain :
  (len plain + 4 ≤ bucket)%N →
  ∃ z, pad_to bucket plain = be 4 (as_u32 (len plain)) ++ plain ++ z.
Proof using Type.
  intros Hb. unfold pad_to. rewrite take_ge; [rewrite <- app_assoc; eauto|].
  unfold len in *. rewrite !length_app, length_replicate, !length_be. lia.
Qed.

Lemma derive_seal_lengths `{!KdfLaws} s e r :
  length (derive_seal s e r).1 = 32%nat ∧ length (derive_seal s e r).2 = 24%nat.
Proof.
  unfold derive_seal, kdf_expand. cbn [fst snd].
  destruct (hkdf_expand_some (kdf_extract (e ++ r) s) (SEAL_KDF_INFO ++ lit "/key") 32) as (a & -> & ?);
    [lia|].
  by destruct (hkdf_expand_some (kdf_extract (e ++ r) s) (SEAL_KDF_INFO ++ lit "/nonce") 24) as (b & -> & ?);
    [lia|].
Qed.

(** Opening with the recipient's key gives back the content sealed for it. *)
Lemma open_seal `{!SignLaws, !AgreeLaws, !AeadLaws} recipient_id ik_sk idk_sk inner d t eph env :
  length idk_sk = 32%nat →
  envelope_seal_with recipient_id (agree_public ik_sk) (prim_vk_of_sk idk_sk) inner d t
    (prim_sign idk_sk) eph = Ok env →
  envelope_open env ik_sk =
  Ok (mkSealedContent (prim_vk_of_sk idk_sk)
        (prim_sign idk_sk (sig_challenge (env_recipient_hint env) inner)) inner).
Proof.
  intros Hsk Hs. unfold envelope_seal_with in Hs.
  set (hint := recipient_hint recipient_id d) in *.
  set (content := mkSealedContent _ _ _) in Hs.
  destruct (bucket_for _) as [[c b]|] eqn:Hb; [|done]. cbn [ok_or result_bind] in Hs.
  apply bucket_for_spec in Hb as (_ & Hb & Hmax & _).
  destruct (agree eph _) as [shared|] eqn:Ha; [|done]. cbn [result_bind] in Hs.
  destruct (derive_seal _ _ _) as [key nonce] eqn:Hd. injection Hs as <-.
  unfold envelope_open. cbn [env_v env_payload env_recipient_hint env_size_class
    env_deposited_ms env_ttl_ms]. rewrite N.eqb_refl. cbn [negb orb].
  pose proof (x25519_public_length eph) as Hlp. unfold agree_public at 1.
  unfold agree_public in *. replace (len _ <? 32)%N with false
    by (symmetry; apply N.ltb_ge; rewrite len_app; unfold len; lia).
  rewrite take_app_all, drop_app_all by done.
  replace (agree ik_sk (prim_x25519_public eph)) with (Ok (E:=CryptoError) shared)
    by (rewrite <- Ha; unfold agree; by rewrite x25519_comm).
  cbn [result_bind]. rewrite Hd. unfold xchacha_open, xchacha_seal.
  rewrite xchacha_open_seal. cbn [ok_or result_bind].
  rewrite (length_pad b) by done. destruct (pad_to_eq b _ Hb) as [z Hz]. rewrite Hz.
  set (plain := sealed_content_encode content) in *.
  assert (Hf : fits_u32 plain) by (unfold fits_u32; lia).
  rewrite (as_u32_fits plain Hf), take_app_all, drop_app_all by by rewrite length_be.
  rewrite of_be_be, N.mod_small by exact Hf.
  replace (b <? 4)%N with false by (symmetry; apply N.ltb_ge; lia).
  replace (b <? 4 + len plain)%N with false by (symmetry; apply N.ltb_ge; lia).
  rewrite take_app_all by (unfold len; lia). subst plain.
  rewrite sealed_content_round; [| | |].
  - cbn [map_err result_bind sc_sender_idk sc_inner sc_sender_sig content].
    unfold sign_public_from_bytes, sign_verify. rewrite vk_of_sk_ok by done.
    cbn [result_bind]. by rewrite sign_verifies.
  - by apply vk_of_sk_length.
  - apply sign_length.
  - unfold fits_u32 in *. rewrite sealed_content_encode_eq, !len_app in Hf.
    cbn [sc_inner content] in *. rewrite len_lenp in Hf. lia.
Qed.

(** The stored size only shows the bucket. *)
Lemma seal_payload_length `{!AgreeLaws, !AeadLaws} rid ikp idkp inner d t sign eph env :
  envelope_seal_with rid ikp idkp inner d t sign eph = Ok env →
  ∃ b, SIZE_BUCKETS !! N.to_nat (env_size_class env) = Some b ∧
       len (env_payload env) = (32 + b + 16)%N.
Proof.
  unfold envelope_seal_with. intros Hs.
  destruct (bucket_for _) as [[c b]|] eqn:Hb; [|done]. cbn [ok_or result_bind] in Hs.
  apply bucket_for_spec in Hb as (Hl & Hb & _).
  destruct (agree eph _) as [shared|] eqn:Ha; [|done]. cbn [result_bind] in Hs.
  destruct (derive_seal _ _ _) as [key nonce] eqn:Hd. injection Hs as <-.
  cbn [env_size_class env_payload]. exists b. split; [done|]. apply length_pad in Hb. unfold len in *.
  rewrite length_app. unfold agree_public, xchacha_seal.
  rewrite x25519_public_length, xchacha_seal_length. lia.
Qed.
End envelope.
