(* ===== verification/IdentityRecords.v ===== *)
(** * Identity record bodies ([crates/dante-identity/src/records.rs])

    The five record bodies an identity publishes: announcement, liveness
    proof, key rotation, revocation and profile; their codecs, the bytes
    their proofs of work and signatures cover, and their checks. *)

From S2P Require Import Prelude Utf8 Enc Crypto ProtoRecord.

(** ** error.rs *)

Inductive IdentityError : Type :=
  | IE_Crypto (e : CryptoError)
  | IE_Wire (e : WireError)
  | IE_WrongRecordKind
  | IE_BadFingerprint
  | IE_KeystoreOpen
  | IE_KeystoreVersion (v : N)
  | IE_Encoding
  | IE_FieldTooLong
  | IE_BadSignature
  | IE_BadPow
  | IE_BadStatus.

#[global] Instance IdentityError_eq_dec : EqDecision IdentityError.
Proof. solve_decision. Defined.

(** ** Constants and text helpers *)

Definition LIVENESS_BUCKET_MS : N := 7 * 24 * 60 * 60 * 1000.
Definition DISPLAY_HINT_MAX : nat := 64.
Definition STATUS_MAX : N := 256.

Definition valid_status (status : bytes) : bool :=
  negb (bool_decide (status = [])) && (len status <=? STATUS_MAX)%N && no_control_chars status.

Definition ANNOUNCE_POW_DOMAIN : bytes := lit "dante/pow/identity-announce/v1".
Definition LIVENESS_POW_DOMAIN : bytes := lit "dante/pow/liveness/v1".
Definition ROTATION_LINK_DOMAIN : bytes := lit "dante/key-rotation/link/v1".

(** [while !s.is_char_boundary(end) { end -= 1; }] *)
Fixpoint back_to_boundary (s : bytes) (end_ : nat) : nat :=
  if is_char_boundary s end_ then end_
  else match end_ with O => O | S e => back_to_boundary s e end.

Definition truncate_on_char_boundary (s : bytes) (max_bytes : nat) : bytes :=
  if (length s <=? max_bytes)%nat then s else take (back_to_boundary s max_bytes) s.

(** ** The bodies *)

Record AnnounceBody := mkAnnounce {
  an_ik_pub : bytes; an_ik_sig : bytes; an_pow : PowProof; an_display_hint : bytes
}.

Record LivenessBody := mkLiveness { lp_pow : PowProof }.

Record RotationBody := mkRotation {
  kr_prev_idk : bytes; kr_new_idk : bytes; kr_new_ik : bytes;
  kr_new_ik_sig : bytes; kr_link_sig : bytes
}.

Inductive RevokeReason : Type := Unspecified | Compromised | Superseded | Retired.

Definition reason_as_u8 (r : RevokeReason) : N :=
  match r with Unspecified => 0 | Compromised => 1 | Superseded => 2 | Retired => 3 end.

Definition reason_from_u8 (v : N) : RevokeReason :=
  match v with 1%N => Compromised | 2%N => Superseded | 3%N => Retired | _ => Unspecified end.

Record RevokeBody := mkRevoke { rv_revoked_idk : bytes; rv_reason : RevokeReason }.

Record ProfileBody := mkProfile { pf_avatar_hash : option bytes; pf_status : option bytes }.

Inductive IdentityRecord : Type :=
  | IRAnnounce (b : AnnounceBody)
  | IRLiveness (b : LivenessBody)
  | IRKeyRotation (b : RotationBody)
  | IRRevoke (b : RevokeBody)
  | IRProfile (b : ProfileBody).

(** The Rust types of the fields. *)
Definition announce_ok (b : AnnounceBody) : Prop :=
  ok_len 32 (an_ik_pub b) ∧ ok_len SIG_LEN (an_ik_sig b) ∧ pow_ok (an_pow b) ∧
  ok_str (an_display_hint b).
Definition liveness_ok (b : LivenessBody) : Prop := pow_ok (lp_pow b).
Definition rotation_ok (b : RotationBody) : Prop :=
  ok_len 32 (kr_prev_idk b) ∧ ok_len 32 (kr_new_idk b) ∧ ok_len 32 (kr_new_ik b) ∧
  ok_len SIG_LEN (kr_new_ik_sig b) ∧ ok_len SIG_LEN (kr_link_sig b).
Definition revoke_ok (b : RevokeBody) : Prop := ok_len 32 (rv_revoked_idk b).
Definition profile_ok (b : ProfileBody) : Prop :=
  match pf_avatar_hash b with Some h => ok_len 32 h | None => True end ∧
  match pf_status b with Some s => utf8_valid s = true ∧ valid_status s = true | None => True end.

(** ** Codecs *)

Definition announce_encode (self : AnnounceBody) : bytes :=
  w_into_vec (w_with_capacity (32 + N.of_nat SIG_LEN + 25 + len (an_display_hint self))
              |> w_fixed (an_ik_pub self) |> w_fixed (an_ik_sig self)
              |> w_pow (an_pow self) |> w_string (an_display_hint self)).

Definition r_announce : Read AnnounceBody :=
  let! ik_pub := r_fixed 32 in
  let! ik_sig := r_fixed SIG_LEN in
  let! pow := r_pow in
  let! display_hint := r_string in
  let! _ := r_finish in
  r_ret (mkAnnounce ik_pub ik_sig pow display_hint).
Definition announce_decode (bs : bytes) : result AnnounceBody IdentityError :=
  map_err IE_Wire (run r_announce bs).

Definition liveness_encode (self : LivenessBody) : bytes :=
  w_into_vec (w_with_capacity 9 |> w_pow (lp_pow self)).

Definition r_liveness : Read LivenessBody :=
  let! pow := r_pow in
  let! _ := r_finish in
  r_ret (mkLiveness pow).
Definition liveness_decode (bs : bytes) : result LivenessBody IdentityError :=
  map_err IE_Wire (run r_liveness bs).

Definition rotation_encode (self : RotationBody) : bytes :=
  w_into_vec (w_with_capacity (32 + 32 + 32 + N.of_nat SIG_LEN + N.of_nat SIG_LEN)
              |> w_fixed (kr_prev_idk self) |> w_fixed (kr_new_idk self)
              |> w_fixed (kr_new_ik self) |> w_fixed (kr_new_ik_sig self)
              |> w_fixed (kr_link_sig self)).

Definition r_rotation : Read RotationBody :=
  let! prev_idk := r_fixed 32 in
  let! new_idk := r_fixed 32 in
  let! new_ik := r_fixed 32 in
  let! new_ik_sig := r_fixed SIG_LEN in
  let! link_sig := r_fixed SIG_LEN in
  let! _ := r_finish in
  r_ret (mkRotation prev_idk new_idk new_ik new_ik_sig link_sig).
Definition rotation_decode (bs : bytes) : result RotationBody IdentityError :=
  map_err IE_Wire (run r_rotation bs).

Definition revoke_encode (self : RevokeBody) : bytes :=
  w_into_vec (w_with_capacity 33
              |> w_fixed (rv_revoked_idk self) |> w_u8 (reason_as_u8 (rv_reason self))).

Definition r_revoke : Read RevokeBody :=
  let! revoked_idk := r_fixed 32 in
  let! reason := r_u8 in
  let! _ := r_finish in
  r_ret (mkRevoke revoked_idk (reason_from_u8 reason)).
Definition revoke_decode (bs : bytes) : result RevokeBody IdentityError :=
  map_err IE_Wire (run r_revoke bs).

Definition profile_encode (self : ProfileBody) : bytes :=
  let w := w_with_capacity (33 + 4 + match pf_status self with Some s => len s | None => 0 end) in
  let w := match pf_avatar_hash self with
           | Some h => w |> w_bool true |> w_fixed h
           | None => w |> w_bool false
           end in
  let w := match pf_status self with Some s => w |> w_string s | None => w end in
  w_into_vec w.

(** The trailing status is checked before [finish]; the inner result carries
    that early return. *)
Definition r_profile : Read (result ProfileBody IdentityError) :=
  let! has := r_bool in
  let! avatar_hash := (if has then let! h := r_fixed 32 in r_ret (Some h) else r_ret None) in
  let! more := r_more in
  if more : bool then
    let! s := r_string in
    if negb (valid_status s) then r_ret (Err IE_BadStatus)
    else
      let! _ := r_finish in
      r_ret (Ok (mkProfile avatar_hash (Some s)))
  else
    let! _ := r_finish in
    r_ret (Ok (mkProfile avatar_hash None)).
Definition profile_decode (bs : bytes) : result ProfileBody IdentityError :=
  let? inner := map_err IE_Wire (run r_profile bs) in inner.

Definition identity_record_from_record (r : record) : result IdentityRecord IdentityError :=
  match rec_kind r with
  | IdentityAnnounce => let? b := announce_decode (rec_body r) in Ok (IRAnnounce b)
  | LivenessProof => let? b := liveness_decode (rec_body r) in Ok (IRLiveness b)
  | KeyRotation => let? b := rotation_decode (rec_body r) in Ok (IRKeyRotation b)
  | IdentityRevoke => let? b := revoke_decode (rec_body r) in Ok (IRRevoke b)
  | IdentityProfile => let? b := profile_decode (rec_body r) in Ok (IRProfile b)
  | _ => Err IE_WrongRecordKind
  end.

(** ** Challenges and checks *)

Section identity_records.
Context `{CryptoPrims}.

Definition announce_challenge (idk_pub ik_pub : bytes) : bytes :=
  sha256_parts [ANNOUNCE_POW_DOMAIN; idk_pub; ik_pub].

(** [from_proof], with the identity's signing function. *)
Definition announce_from_proof (sign : bytes → bytes) (display_hint ik_pub : bytes)
    (pow : PowProof) : AnnounceBody :=
  mkAnnounce ik_pub (sign ik_pub) pow (truncate_on_char_boundary display_hint DISPLAY_HINT_MAX).

Definition announce_verify (self : AnnounceBody) (idk_pub : bytes)
    (min_pow_bits min_pow_m_cost_kib min_pow_t_cost : N) : result unit IdentityError :=
  if (N.of_nat DISPLAY_HINT_MAX <? len (an_display_hint self))%N then Err IE_FieldTooLong
  else
    let? _ := map_err (λ _, IE_BadSignature)
                (sign_verify idk_pub (an_ik_pub self) (an_ik_sig self)) in
    map_err (λ _, IE_BadPow)
      (pow_verify (announce_challenge idk_pub (an_ik_pub self)) (an_pow self)
         min_pow_bits min_pow_m_cost_kib min_pow_t_cost).

Definition liveness_challenge (idk_pub : bytes) (created_ms : N) : bytes :=
  let bucket := (created_ms / LIVENESS_BUCKET_MS)%N in
  sha256_parts [LIVENESS_POW_DOMAIN; idk_pub; be 8 bucket].

Definition liveness_verify (self : LivenessBody) (idk_pub : bytes)
    (created_ms min_pow_bits min_pow_m_cost_kib min_pow_t_cost : N) : result unit IdentityError :=
  map_err (λ _, IE_BadPow)
    (pow_verify (liveness_challenge idk_pub created_ms) (lp_pow self)
       min_pow_bits min_pow_m_cost_kib min_pow_t_cost).

Definition link_challenge (prev_idk new_idk new_ik : bytes) : bytes :=
  sha256_parts [ROTATION_LINK_DOMAIN; prev_idk; new_idk; new_ik].

(** [build]: both identities sign. *)
Definition rotation_build (prev_idk : bytes) (old_sign : bytes → bytes)
    (new_idk new_ik : bytes) (new_sign : bytes → bytes) : RotationBody :=
  mkRotation prev_idk new_idk new_ik (new_sign new_ik)
    (old_sign (link_challenge prev_idk new_idk new_ik)).

Definition rotation_verify (self : RotationBody) : result unit IdentityError :=
  let? new_idk := map_err (λ _, IE_BadSignature) (sign_public_from_bytes (kr_new_idk self)) in
  let? prev_idk := map_err (λ _, IE_BadSignature) (sign_public_from_bytes (kr_prev_idk self)) in
  let? _ := map_err (λ _, IE_BadSignature)
              (sign_verify new_idk (kr_new_ik self) (kr_new_ik_sig self)) in
  map_err (λ _, IE_BadSignature)
    (sign_verify prev_idk
       (link_challenge (kr_prev_idk self) (kr_new_idk self) (kr_new_ik self))
       (kr_link_sig self)).

Definition revoke_verify (self : RevokeBody) : result unit IdentityError :=
  let? _ := map_err (λ _, IE_BadSignature) (sign_public_from_bytes (rv_revoked_idk self)) in
  Ok tt.
End identity_records.

(** ** Lemmas *)

Lemma announce_round b : announce_ok b → announce_decode (announce_encode b) = Ok b.
Proof.
  destruct b as [p s w h]. intros Hok. unfold announce_ok in Hok. cbn in Hok. destruct_and! Hok.
  unfold announce_decode. erewrite run_parse; [done|].
  unfold announce_encode. enc_norm. cbn. unfold r_announce. parses. done.
Qed.

Lemma announce_decode_canon bs b :
  announce_decode bs = Ok b → announce_ok b ∧ announce_encode b = bs.
Proof.
  unfold announce_decode. destruct (run _ _) eqn:Hr; [|done]. intros [= ->].
  apply run_canon in Hr as [r' Hr]. unfold r_announce in Hr. canons Hr. injection Hr as <- _.
  split; [done|]. unfold announce_encode. enc_norm. cbn. unfold id. by rewrite app_nil_r.
Qed.

Lemma liveness_round b : liveness_ok b → liveness_decode (liveness_encode b) = Ok b.
Proof.
  destruct b as [w]. intros Hok. unfold liveness_ok in Hok. cbn in Hok.
  unfold liveness_decode. erewrite run_parse; [done|].
  unfold liveness_encode. enc_norm. cbn. unfold r_liveness. parses. done.
Qed.

Lemma liveness_decode_canon bs b :
  liveness_decode bs = Ok b → liveness_ok b ∧ liveness_encode b = bs.
Proof.
  unfold liveness_decode. destruct (run _ _) eqn:Hr; [|done]. intros [= ->].
  apply run_canon in Hr as [r' Hr]. unfold r_liveness in Hr. canons Hr. injection Hr as <- _.
  split; [done|]. unfold liveness_encode. enc_norm. cbn. by rewrite app_nil_r.
Qed.

Lemma rotation_round b : rotation_ok b → rotation_decode (rotation_encode b) = Ok b.
Proof.
  destruct b as [a b c d e]. intros Hok. unfold rotation_ok in Hok. cbn in Hok. destruct_and! Hok.
  unfold rotation_decode. erewrite run_parse; [done|].
  unfold rotation_encode. enc_norm. cbn. unfold r_rotation. parses. done.
Qed.

Lemma rotation_decode_canon bs b :
  rotation_decode bs = Ok b → rotation_ok b ∧ rotation_encode b = bs.
Proof.
  unfold rotation_decode. destruct (run _ _) eqn:Hr; [|done]. intros [= ->].
  apply run_canon in Hr as [r' Hr]. unfold r_rotation in Hr. canons Hr. injection Hr as <- _.
  split; [done|]. unfold rotation_encode. enc_norm. cbn. unfold id. by rewrite app_nil_r.
Qed.

Lemma reason_round r : reason_from_u8 (reason_as_u8 r) = r.
Proof. by destruct r. Qed.

Lemma revoke_round b : revoke_ok b → revoke_decode (revoke_encode b) = Ok b.
Proof.
  destruct b as [k r]. intros Hok. unfold revoke_ok in Hok. cbn in Hok.
  unfold revoke_decode. erewrite run_parse; [done|].
  unfold revoke_encode. enc_norm. cbn. unfold r_revoke.
  assert (ok_u8 (reason_as_u8 r)) by by destruct r.
  change [n2b (reason_as_u8 r)] with (enc_u8 (reason_as_u8 r)). parses.
  rewrite reason_round. done.
Qed.

Lemma valid_status_spec s :
  valid_status s = true ↔ s ≠ [] ∧ (len s ≤ STATUS_MAX)%N ∧ no_control_chars s = true.
Proof.
  unfold valid_status. rewrite !andb_true_iff, negb_true_iff, bool_decide_eq_false, N.leb_le. tauto.
Qed.

Lemma status_ok_str s : utf8_valid s = true → valid_status s = true → ok_str s.
Proof.
  intros Hu (_ & Hl & _)%valid_status_spec. split; [|done].
  unfold fits_u32, STATUS_MAX in *. lia.
Qed.

Lemma lenp_more s post : (0 <? length (lenp s ++ post))%nat = true.
Proof. apply Nat.ltb_lt. pose proof (lenp_nonempty s). rewrite length_app. lia. Qed.

(** What [encode] writes for the two optional fields. *)
Lemma profile_encode_eq b :
  profile_encode b =
  enc_bool (bool_decide (is_Some (pf_avatar_hash b))) ++ default [] (pf_avatar_hash b)
  ++ match pf_status b with Some s => lenp s | None => [] end.
Proof.
  destruct b as [[h|] [s|]]; unfold profile_encode; cbn [pf_avatar_hash pf_status];
    enc_norm; rewrite ?app_nil_r; done.
Qed.

Lemma profile_round b : profile_ok b → profile_decode (profile_encode b) = Ok b.
Proof.
  intros Hok. unfold profile_decode.
  enough (run r_profile (profile_encode b) = Ok (Ok b)) as -> by done.
  enough (∃ r, r_profile (rd [] (profile_encode b ++ [])) = Ok (Ok b, r)) as [r Hr]
    by (by eapply run_parse).
  rewrite profile_encode_eq, <- !app_assoc.
  destruct b as [ho so], Hok as [Hh Hs]. cbn [pf_avatar_hash pf_status] in *. unfold r_profile.
  rewrite (r_bind_rd r_bool _ _ _ _ [] _ bool_parses I). cbv beta.
  set (tail := match so with Some s => lenp s | None => [] end ++ []).
  match goal with |- context [r_bind _ ?K (rd _ _)] => set (k := K) end.
  assert (Hk : ∀ pre, k ho (rd pre tail) =
    Ok (Ok (mkProfile ho so), rd (pre ++ tail) [])).
  { intros pre. subst k tail. cbv beta. rewrite r_bind_more. destruct so as [s|].
    - rewrite lenp_more. destruct Hs as [Hu Hs]. pose proof (status_ok_str s Hu Hs).
      refine (eq_trans (r_bind_rd r_string _ _ _ s pre _ string_parses _) _); [done|].
      rewrite Hs. cbn [negb]. rewrite r_bind_finish. unfold r_ret. by rewrite app_nil_r.
    - cbn [length Nat.ltb Nat.leb app]. rewrite r_bind_finish. unfold r_ret. by rewrite app_nil_r. }
  destruct ho as [h|].
  - rewrite bool_decide_eq_true_2 by eauto. cbn [default id].
    rewrite r_bind_assoc. change (h ++ tail) with (id h ++ tail).
    rewrite (r_bind_rd _ _ _ _ h _ _ (fixed_parses 32) Hh).
    eexists. unfold r_bind at 1, r_ret at 1. apply Hk.
  - rewrite bool_decide_eq_false_2 by by intros [? ?]. cbn [default app].
    eexists. unfold r_bind at 1, r_ret at 1. apply Hk.
Qed.

(** *** Truncating the display hint *)

Lemma back_to_boundary_spec s n j :
  (j ≤ n)%nat → is_char_boundary s j = true →
  is_char_boundary s (back_to_boundary s n) = true ∧ (j ≤ back_to_boundary s n ≤ n)%nat.
Proof.
  intros Hj Hb. induction n as [|n IH]; cbn [back_to_boundary].
  - replace j with O in * by lia. rewrite Hb. auto with lia.
  - destruct (is_char_boundary s (S n)) eqn:E; [auto with lia|].
    destruct (decide (j = S n)) as [->|]; [by rewrite E in Hb|].
    destruct IH as [? ?]; [lia|]. auto with lia.
Qed.

Lemma truncate_spec s n :
  utf8_valid s = true →
  utf8_valid (truncate_on_char_boundary s n) = true ∧
  (length (truncate_on_char_boundary s n) ≤ n)%nat ∧
  truncate_on_char_boundary s n `prefix_of` s ∧
  (Nat.min n (length s) ≤ length (truncate_on_char_boundary s n) + 3)%nat.
Proof.
  intros Hu. unfold truncate_on_char_boundary.
  destruct (length s <=? n)%nat eqn:E; [apply Nat.leb_le in E|apply Nat.leb_gt in E].
  - split_and!; [done|done|done|lia].
  - destruct (char_boundary_near s n Hu) as (j & Hj & Hj' & Hb); [lia|].
    destruct (back_to_boundary_spec s n j Hj Hb) as [Hb' ?].
    split_and!; [by apply utf8_take_boundary| |apply prefix_take|]; rewrite length_take; lia.
Qed.

Section build.
Context `{!CryptoPrims, !SignLaws}.

(** A rotation built by the holders of both keys passes its own check. *)
Lemma rotation_build_verifies old_sk new_sk new_ik :
  length old_sk = 32%nat → length new_sk = 32%nat →
  rotation_verify (rotation_build (prim_vk_of_sk old_sk) (prim_sign old_sk)
                     (prim_vk_of_sk new_sk) new_ik (prim_sign new_sk)) = Ok tt.
Proof.
  intros Ho Hn. unfold rotation_verify, rotation_build, sign_public_from_bytes, sign_verify.
  cbn [kr_new_idk kr_prev_idk kr_new_ik kr_new_ik_sig kr_link_sig].
  rewrite !vk_of_sk_ok by done. cbn [map_err result_bind]. rewrite !sign_verifies. done.
Qed.

(** An accepted rotation carries the old key's signature over the new keys. *)
Lemma rotation_verify_inv b :
  rotation_verify b = Ok tt →
  prim_verify_strict (kr_new_idk b) (kr_new_ik b) (kr_new_ik_sig b) = true ∧
  prim_verify_strict (kr_prev_idk b)
    (link_challenge (kr_prev_idk b) (kr_new_idk b) (kr_new_ik b)) (kr_link_sig b) = true.
Proof.
  unfold rotation_verify, sign_public_from_bytes, sign_verify.
  destruct (prim_vk_ok (kr_new_idk b)); [|done].
  destruct (prim_vk_ok (kr_prev_idk b)); [|done]. cbn [map_err result_bind].
  destruct (prim_verify_strict (kr_new_idk b) _ _); [|done]. cbn [map_err result_bind].
  by destruct (prim_verify_strict (kr_prev_idk b) _ _).
Qed.
End build.
