(* ===== verification/Server.v ===== *)
(** * Server-directory records, tombstones and ledger errors
    ([crates/dante-ledger/src/server.rs], [tombstone.rs], [error.rs]) *)

From S2P Require Import Prelude Utf8 Enc Crypto ProtoRecord IdentityRecords.

(** ** error.rs *)

Inductive LedgerError : Type :=
  | LE_UnsupportedVersion (v : N)
  | LE_TimestampInFuture (created_ms now_ms : N)
  | LE_BadSignature
  | LE_BadPow
  | LE_Body (e : IdentityError)
  | LE_Wire (e : WireError)
  | LE_TombstoneNotAllowed
  | LE_AlreadyAnnounced
  | LE_UnknownIdentity
  | LE_IdentityEvaporated
  | LE_IdentityRevoked
  | LE_NotChainTip
  | LE_AuthorMismatch
  | LE_NonMonotonic
  | LE_KeyAlreadyInUse
  | LE_UnknownServer
  | LE_FieldTooLong.

#[global] Instance LedgerError_eq_dec : EqDecision LedgerError.
Proof. solve_decision. Defined.

(** ** server.rs *)

Definition SERVER_POW_DOMAIN : bytes := lit "dante/pow/server-register/v1".
Definition NAME_MAX : N := 64.
Definition SUMMARY_MAX : N := 280.
Definition TAGS_MAX : N := 8.
Definition TAG_LEN_MAX : N := 32.
Definition RELAYS_MAX : N := 8.
Definition RELAY_LEN_MAX : N := 256.

Record RegisterBody := mkRegister {
  sr_server_root : bytes;
  sr_name : bytes;
  sr_summary : bytes;
  sr_tags : list bytes;
  sr_entry_relays : list bytes;
  sr_discoverable : bool;
  sr_invite : bytes;
  sr_pow : PowProof;
}.

Record DelistBody := mkDelist { sd_server_root : bytes }.

Definition register_validate (self : RegisterBody) : result unit LedgerError :=
  if (len (sr_name self) <=? NAME_MAX)%N
     && (len (sr_summary self) <=? SUMMARY_MAX)%N
     && (len (sr_tags self) <=? TAGS_MAX)%N
     && forallb (λ t, len t <=? TAG_LEN_MAX)%N (sr_tags self)
     && (len (sr_entry_relays self) <=? RELAYS_MAX)%N
     && forallb (λ r, len r <=? RELAY_LEN_MAX)%N (sr_entry_relays self)
     && (len (sr_invite self) <=? 2048)%N
  then Ok tt else Err LE_FieldTooLong.

Definition register_encode (self : RegisterBody) : bytes :=
  let w := w_new |> w_fixed (sr_server_root self) |> w_string (sr_name self)
                 |> w_string (sr_summary self) in
  let w := w_each w_string (sr_tags self) (w |> w_u32 (as_u32 (len (sr_tags self)))) in
  let w := w_each w_string (sr_entry_relays self)
             (w |> w_u32 (as_u32 (len (sr_entry_relays self)))) in
  let w := w |> w_bool (sr_discoverable self) |> w_pow (sr_pow self) in
  let w := if bool_decide (sr_invite self = []) then w else w |> w_string (sr_invite self) in
  w_into_vec w.

Definition read_string_list : Read (list bytes) := r_counted r_string.

Definition r_register : Read RegisterBody :=
  let! server_root := r_fixed 32 in
  let! name := r_string in
  let! summary := r_string in
  let! tags := read_string_list in
  let! entry_relays := read_string_list in
  let! discoverable := r_bool in
  let! pow := r_pow in
  let! more := r_more in
  let! invite := (if more : bool then r_string else r_ret []) in
  let! _ := r_finish in
  r_ret (mkRegister server_root name summary tags entry_relays discoverable invite pow).
Definition register_decode (bs : bytes) : result RegisterBody WireError := run r_register bs.

Definition delist_encode (self : DelistBody) : bytes :=
  w_into_vec (w_with_capacity 32 |> w_fixed (sd_server_root self)).

Definition r_delist : Read DelistBody :=
  let! server_root := r_fixed 32 in
  let! _ := r_finish in
  r_ret (mkDelist server_root).
Definition delist_decode (bs : bytes) : result DelistBody WireError := run r_delist bs.

Section server.
Context `{CryptoPrims}.
Definition server_id (server_root : bytes) : bytes := sha256 server_root.
Definition register_challenge (server_root : bytes) : bytes :=
  sha256_parts [SERVER_POW_DOMAIN; server_root].
Definition register_to_record (self : RegisterBody) (created_ms : N) (sign : bytes → bytes)
    : record :=
  record_seal_with ServerRegister (register_encode self) (sr_server_root self) created_ms sign.
Definition delist_to_record (self : DelistBody) (created_ms : N) (sign : bytes → bytes)
    : record :=
  record_seal_with ServerDelist (delist_encode self) (sd_server_root self) created_ms sign.
End server.

(** ** tombstone.rs *)

Definition NULL_AUTHOR : bytes := replicate 32 x00.

Record TombstoneBody := mkTombstone { tb_subject : bytes; tb_evaporated_ms : N }.

Definition tombstone_encode (self : TombstoneBody) : bytes :=
  w_into_vec (w_with_capacity 40 |> w_fixed (tb_subject self) |> w_u64 (tb_evaporated_ms self)).

Definition r_tombstone : Read TombstoneBody :=
  let! subject := r_fixed 32 in
  let! evaporated_ms := r_u64 in
  let! _ := r_finish in
  r_ret (mkTombstone subject evaporated_ms).
Definition tombstone_decode (bs : bytes) : result TombstoneBody WireError := run r_tombstone bs.

Definition tombstone_to_record (self : TombstoneBody) : record :=
  mkRecord RECORD_VERSION Tombstone (tombstone_encode self) NULL_AUTHOR
    (tb_evaporated_ms self) (replicate SIG_LEN x00).

(** ** Lemmas *)

Definition register_ok (b : RegisterBody) : Prop :=
  ok_len 32 (sr_server_root b) ∧ ok_str (sr_name b) ∧ ok_str (sr_summary b) ∧
  ok_list ok_str (sr_tags b) ∧ ok_list ok_str (sr_entry_relays b) ∧
  ok_str (sr_invite b) ∧ pow_ok (sr_pow b).

#[export] Instance string_list_parses :
  Parses read_string_list (enc_list lenp) (ok_list ok_str).
Proof. apply counted_parses; [intros; apply lenp_nonempty|apply _]. Qed.
#[export] Instance string_list_canon :
  Canon read_string_list (enc_list lenp) (ok_list ok_str).
Proof. apply counted_canon, _. Qed.

Lemma w_buf_strings xs w : w_buf (w_each w_string xs w) = w_buf w ++ mjoin (lenp <$> xs).
Proof. apply w_buf_each. intros. apply w_buf_string. Qed.
#[export] Hint Rewrite w_buf_strings : writer.

Lemma register_encode_eq b :
  register_encode b =
  sr_server_root b ++ lenp (sr_name b) ++ lenp (sr_summary b) ++ enc_list lenp (sr_tags b)
  ++ enc_list lenp (sr_entry_relays b) ++ enc_bool (sr_discoverable b) ++ enc_pow (sr_pow b)
  ++ (if bool_decide (sr_invite b = []) then [] else lenp (sr_invite b)).
Proof.
  unfold register_encode, enc_list. case_bool_decide; enc_norm; rewrite ?app_nil_r; done.
Qed.

Lemma register_round b : register_ok b → register_decode (register_encode b) = Ok b.
Proof.
  destruct b as [a n s t e d i w]. intros Hok. unfold register_ok in Hok. cbn in Hok.
  destruct_and! Hok.
  rewrite register_encode_eq.
  cbn [sr_server_root sr_name sr_summary sr_tags sr_entry_relays sr_discoverable sr_invite sr_pow].
  case_bool_decide as Hi; eapply run_parse; rewrite <- !app_assoc; unfold r_register;
    do 7 parse1; rewrite r_bind_more.
  - subst i. cbn [length Nat.ltb Nat.leb app]. unfold r_bind at 1, r_ret at 1.
    rewrite r_bind_finish. done.
  - rewrite lenp_more. parses. done.
Qed.

Lemma delist_round b : ok_len 32 (sd_server_root b) → delist_decode (delist_encode b) = Ok b.
Proof.
  destruct b as [a]. cbn. intros Ha. eapply run_parse. unfold delist_encode. enc_norm. cbn.
  unfold r_delist. parses. done.
Qed.

Lemma tombstone_round b :
  ok_len 32 (tb_subject b) → ok_u64 (tb_evaporated_ms b) →
  tombstone_decode (tombstone_encode b) = Ok b.
Proof.
  destruct b as [a t]. cbn. intros Ha Ht. eapply run_parse. unfold tombstone_encode. enc_norm. cbn.
  unfold r_tombstone. parses. done.
Qed.

Lemma r_bind_inv {A B} (m : Read A) (k : A → Read B) r p :
  r_bind m k r = Ok p → ∃ a r', m r = Ok (a, r') ∧ k a r' = Ok p.
Proof. unfold r_bind. destruct (m r) as [[a r']|]; [eauto|done]. Qed.

Lemma register_decode_root bs b : register_decode bs = Ok b → ok_len 32 (sr_server_root b).
Proof.
  intros [r' Hr]%run_canon. unfold r_register in Hr. canon1 Hr.
  repeat (apply r_bind_inv in Hr as (? & ? & _ & Hr)).
  by injection Hr as <- _.
Qed.
