(* ===== verification/CodecTheorems.v ===== *)
(** * What records, tree heads and envelopes promise

    Canonical codecs, signatures that cover every field, and the sealed
    envelope. *)

From S2P Require Import Prelude Utf8 Enc Crypto ProtoRecord Envelope IdentityRecords Server.

(** Concrete values for the witnesses. *)
Module CodecDemo.
#[local] Existing Instance Toy.prims.
Definition sk : bytes := replicate 32 x07.
Definition rec : record :=
  record_seal_with LivenessProof [x01; x02] (prim_vk_of_sk sk) 1234 (prim_sign sk).
Definition head : TreeHead := mkTreeHead 5 (replicate 32 x09).
Definition sealed : result Envelope CryptoError :=
  envelope_seal_with (replicate 32 x01) (agree_public (replicate 32 x05)) (prim_vk_of_sk sk)
    (lit "hello") 86400000 1000 (prim_sign sk) (replicate 32 x06).
Definition env : Envelope :=
  match sealed with Ok e => e | Err _ => mkEnvelope 0 [] [] 0 0 0 end.
Definition pow : PowProof := mkPowProof 32 1 8 (replicate 16 x00).
Definition server : RegisterBody :=
  mkRegister (prim_vk_of_sk sk) (lit "maps") (lit "about maps") [lit "geo"] [] true [] pow.
End CodecDemo.

Section theorems.
Context `{CryptoPrims}.

(** The record codec is canonical. Every record decodes from its own
    encoding, and whatever decodes is the encoding of what it decodes to:
    two byte strings never decode to the same record. *)
Theorem record_codec_canonical :
  (∀ r, record_ok r → record_decode (record_encode r) = Ok r) ∧
  (∀ bs r, record_decode bs = Ok r → record_ok r ∧ record_encode r = bs).
Proof. split; [apply record_round|apply record_decode_canon]. Qed.

(** a record's signature covers everything but itself. Two records with
    the same signing bytes agree on version, kind, body, author and time. *)
Theorem record_signing_injective r r' :
  record_ok r → record_ok r' → record_signing_bytes r = record_signing_bytes r' →
  rec_v r = rec_v r' ∧ rec_kind r = rec_kind r' ∧ rec_body r = rec_body r' ∧
  rec_author r = rec_author r' ∧ rec_created_ms r = rec_created_ms r'.
Proof.
  set (unsigned r := mkRecord (rec_v r) (rec_kind r) (rec_body r) (rec_author r)
                       (rec_created_ms r) (replicate SIG_LEN x00)).
  assert (Hu : ∀ r, record_encode (unsigned r) = record_signing_bytes r ++ replicate SIG_LEN x00).
  { intros x. rewrite record_encode_eq, record_signing_bytes_eq, <- !app_assoc. done. }
  assert (Hok : ∀ r, record_ok r → record_ok (unsigned r)) by
    (intros x (? & ? & ? & ? & ?); done).
  intros Hr%Hok%record_round Hr'%Hok%record_round E.
  rewrite Hu, E, <- Hu, Hr' in Hr. subst unsigned. by injection Hr as -> -> -> -> ->.
Qed.

(** Signed tree heads. The codec is canonical, and the bytes a head
    signs determine its size and its root, so a signature for one head is
    never a signature for another. *)
Theorem tree_head_codec :
  (∀ s, sth_ok s → sth_decode (sth_encode s) = Ok s) ∧
  (∀ bs s, sth_decode bs = Ok s → sth_ok s ∧ sth_encode s = bs) ∧
  (∀ a b, ok_u64 (th_size a) → ok_u64 (th_size b) →
     tree_head_signing_bytes a = tree_head_signing_bytes b → a = b).
Proof.
  split_and!; [apply sth_round|apply sth_decode_canon|apply tree_head_signing_inj].
Qed.

(** Sealed envelopes open. What is sealed for a recipient's agreement
    key opens under that key, giving back the sender, its signature and the
    plaintext, whatever the sizes, as long as sealing succeeds. *)
Theorem envelope_seal_open `{!SignLaws, !AgreeLaws, !AeadLaws}
    recipient_id ik_sk idk_sk inner deposited_ms ttl_ms eph env :
  length idk_sk = 32%nat →
  envelope_seal_with recipient_id (agree_public ik_sk) (prim_vk_of_sk idk_sk) inner
    deposited_ms ttl_ms (prim_sign idk_sk) eph = Ok env →
  envelope_open env ik_sk =
  Ok (mkSealedContent (prim_vk_of_sk idk_sk)
        (prim_sign idk_sk (sig_challenge (env_recipient_hint env) inner)) inner).
Proof. apply open_seal. Qed.

(** The identity record bodies survive a round trip, with their optional
    trailing fields. *)
Theorem identity_bodies_roundtrip :
  (∀ b, announce_ok b → announce_decode (announce_encode b) = Ok b) ∧
  (∀ b, liveness_ok b → liveness_decode (liveness_encode b) = Ok b) ∧
  (∀ b, rotation_ok b → rotation_decode (rotation_encode b) = Ok b) ∧
  (∀ b, revoke_ok b → revoke_decode (revoke_encode b) = Ok b) ∧
  (∀ b, profile_ok b → profile_decode (profile_encode b) = Ok b).
Proof.
  split_and!;
    [apply announce_round|apply liveness_round|apply rotation_round|apply revoke_round|apply profile_round].
Qed.

(** Cutting a display name to its limit leaves valid text. The result is
    a prefix of the name, is well-formed UTF-8, fits the limit, and loses at
    most three bytes below it. *)
Theorem display_hint_truncation sign hint ik_pub pow :
  utf8_valid hint = true →
  let hint' := an_display_hint (announce_from_proof sign hint ik_pub pow) in
  utf8_valid hint' = true ∧ (length hint' ≤ DISPLAY_HINT_MAX)%nat ∧ hint' `prefix_of` hint ∧
  (Nat.min DISPLAY_HINT_MAX (length hint) ≤ length hint' + 3)%nat.
Proof. apply truncate_spec. Qed.

(** The server directory entry survives a round trip; but its decoder
    also takes a second encoding, the one that spells out an empty invite,
    so this codec is not canonical. *)
Theorem server_register_two_encodings b :
  register_ok b →
  register_decode (register_encode b) = Ok b ∧
  (sr_invite b = [] →
   register_decode (register_encode b ++ be 4 0) = Ok b ∧
   register_encode b ++ be 4 0 ≠ register_encode b).
Proof.
  intros Hok. split; [by apply register_round|]. intros Hi. split.
  - change (be 4 0) with (lenp []). rewrite register_encode_eq, Hi.
    rewrite bool_decide_eq_true_2, app_nil_r, <- !app_assoc by done.
    destruct b as [a n s t e d i w]. unfold register_ok in Hok. cbn in Hok, Hi. subst i.
    destruct_and! Hok. eapply run_parse. rewrite <- !app_assoc.
    cbn [sr_server_root sr_name sr_summary sr_tags sr_entry_relays sr_discoverable sr_invite sr_pow].
    unfold r_register. do 7 parse1. rewrite r_bind_more, lenp_more. parses. done.
  - intros E%(f_equal length). rewrite length_app, length_be in E. lia.
Qed.
End theorems.

Section witnesses.
Import Toy.

Lemma record_codec_canonical_witness :
  record_decode (record_encode CodecDemo.rec) = Ok CodecDemo.rec.
Proof. apply record_codec_canonical. vm_compute. done. Defined.

Lemma record_signing_injective_witness : rec_body CodecDemo.rec = rec_body CodecDemo.rec.
Proof.
  assert (Hok : record_ok CodecDemo.rec) by by vm_compute.
  apply (record_signing_injective CodecDemo.rec CodecDemo.rec Hok Hok eq_refl).
Defined.

Lemma tree_head_codec_witness :
  ok_u64 (th_size CodecDemo.head) ∧ CodecDemo.head = CodecDemo.head.
Proof. split; [by vm_compute|]. apply tree_head_codec; [by vm_compute..|reflexivity]. Defined.

Lemma envelope_seal_open_witness :
  CodecDemo.sealed = Ok CodecDemo.env ∧
  envelope_open CodecDemo.env (replicate 32 x05) =
  Ok (mkSealedContent (prim_vk_of_sk CodecDemo.sk)
        (prim_sign CodecDemo.sk
           (sig_challenge (env_recipient_hint CodecDemo.env) (lit "hello"))) (lit "hello")).
Proof.
  assert (E : CodecDemo.sealed = Ok CodecDemo.env) by (vm_compute; reflexivity).
  split; [exact E|]. eapply envelope_seal_open; [|exact E]. reflexivity.
Defined.

Lemma identity_bodies_roundtrip_witness :
  profile_decode (profile_encode (mkProfile (Some (replicate 32 x01)) (Some (lit "away")))) =
  Ok (mkProfile (Some (replicate 32 x01)) (Some (lit "away"))).
Proof. apply identity_bodies_roundtrip. vm_compute. done. Defined.

Lemma display_hint_truncation_witness :
  (length (an_display_hint (announce_from_proof (prim_sign CodecDemo.sk)
     (mjoin (replicate 40 [xc3; xb6])) (replicate 32 x01) CodecDemo.pow)) ≤ 64)%nat.
Proof. apply display_hint_truncation. vm_compute. reflexivity. Defined.

Lemma server_register_two_encodings_witness :
  register_decode (register_encode CodecDemo.server ++ be 4 0) = Ok CodecDemo.server.
Proof.
  assert (Hok : register_ok CodecDemo.server) 
    by (split_and!; repeat constructor; try by vm_compute).
  exact (proj1 (proj2 (server_register_two_encodings CodecDemo.server Hok) eq_refl)).
Defined.
End witnesses.
