(* ===== verification/Ledger.v ===== *)
(** * The verifiable append-only log ([crates/dante-ledger/src/ledger.rs])

    State, queries, [append] with its seven handlers, and evaporation.  The
    proofs are in [LedgerProofs]. *)

From S2P Require Import Prelude Utf8 Enc Crypto Merkle ProtoRecord IdentityRecords Server.

(** ** Parameters *)

Definition IDENTITY_TTL_MS : N := 90 * 24 * 60 * 60 * 1000.

Record LedgerParams := mkParams {
  lp_identity_ttl_ms : N;
  lp_min_announce_pow_bits : N;
  lp_min_liveness_pow_bits : N;
  lp_min_pow_m_cost_kib : N;
  lp_min_pow_t_cost : N;
}.

Definition default_params : LedgerParams :=
  mkParams IDENTITY_TTL_MS (df_bits REGISTRATION) (df_bits LIVENESS)
    (df_m_cost_kib REGISTRATION) (df_t_cost REGISTRATION).

(** ** The record store, an interface *)

Class RecordStore (S : Type) := {
  rs_len : S → nat;
  rs_get : S → nat → option record;
  rs_push : S → record → S;
}.

(** What the ledger relies on: the store is a list it appends to. *)
Class RecordStoreLaws (S : Type) `{RecordStore S} := {
  rs_view : S → list record;
  rs_len_view s : rs_len s = length (rs_view s);
  rs_get_view s i : rs_get s i = rs_view s !! i;
  rs_push_view s r : rs_view (rs_push s r) = rs_view s ++ [r];
}.

(** [MemoryStore]: a [Vec]. *)
Record MemoryStore := mkMemoryStore { ms_records : list record }.

#[export] Instance memory_store : RecordStore MemoryStore := {
  rs_len s := length (ms_records s);
  rs_get s i := ms_records s !! i;
  rs_push s r := mkMemoryStore (ms_records s ++ [r]);
}.

#[export] Instance memory_store_laws : RecordStoreLaws MemoryStore.
Proof. by refine {| rs_view := ms_records |}. Defined.

(** ** State *)

Record Chain := mkChain {
  ch_root_idk : bytes;
  ch_tip_idk : bytes;
  ch_tip_ik : bytes;
  ch_last_activity_ms : N;
  ch_tombstoned : bool;
  ch_revoked : bool;
  ch_display_hint : bytes;
  ch_avatar_hash : option bytes;
  ch_status : option bytes;
  ch_profile_ms : N;
}.

Definition chain_usable (c : Chain) : bool := negb (ch_tombstoned c) && negb (ch_revoked c).

Record ServerState := mkServerState {
  ss_record_index : nat;
  ss_last_ms : N;
  ss_delisted : bool;
  ss_owner_chain : option nat;
}.

Record Ledger (S : Type) := mkLedger {
  lg_store : S;
  lg_params : LedgerParams;
  lg_leaves : list bytes;
  lg_by_id : gmap bytes nat;
  lg_idk_to_chain : gmap bytes nat;
  lg_id_to_chain : gmap bytes nat;
  lg_chains : list Chain;
  lg_servers : gmap bytes ServerState;
}.
Arguments mkLedger {S}. Arguments lg_store {S}. Arguments lg_params {S}.
Arguments lg_leaves {S}. Arguments lg_by_id {S}. Arguments lg_idk_to_chain {S}.
Arguments lg_id_to_chain {S}. Arguments lg_chains {S}. Arguments lg_servers {S}.

(** Lexicographic order of byte arrays ([sort_unstable] on [[u8; 32]]). *)
Fixpoint bytes_leb (a b : bytes) : bool :=
  match a, b with
  | [], _ => true
  | _ :: _, [] => false
  | x :: a', y :: b' =>
      (b2n x <? b2n y)%N || ((b2n x =? b2n y)%N && bytes_leb a' b')
  end.
Definition bytes_ordered (a b : bytes) : Prop := bytes_leb a b = true.
#[export] Instance bytes_le_dec a b : Decision (bytes_ordered a b).
Proof. unfold bytes_ordered. apply _. Defined.

Section ledger.
Context `{CryptoPrims} {S : Type} `{RecordStore S}.

(** [Ledger::new]: the assertion on the store is the [None] case. *)
Definition ledger_new (store : S) (params : LedgerParams) : option (Ledger S) :=
  if (rs_len store =? 0)%nat
  then Some (mkLedger store params [] ∅ ∅ ∅ [] ∅)
  else None.

(** *** Queries *)

Definition ledger_len (self : Ledger S) : nat := rs_len (lg_store self).

Definition ledger_head (self : Ledger S) : TreeHead :=
  mkTreeHead (wrap64 (len (lg_leaves self))) (root (lg_leaves self)).

Definition ledger_record (self : Ledger S) (index : nat) : option record :=
  rs_get (lg_store self) index.

Definition ledger_inclusion_proof (self : Ledger S) (id : bytes) : option (nat * list bytes) :=
  index ← lg_by_id self !! id;
  path ← inclusion_proof index (lg_leaves self);
  Some (index, path).

Definition ledger_consistency_proof (self : Ledger S) (old_size : nat) : option (list bytes) :=
  consistency_proof old_size (lg_leaves self).

(** [self.chains[i]] panics out of bounds; the maps only hold indices of
    existing chains ([ledger_wf]), so the lookup is total there. *)
Definition chain_of (self : Ledger S) (idk : bytes) : option Chain :=
  i ← lg_idk_to_chain self !! idk; lg_chains self !! i.

Definition chain_by_id (self : Ledger S) (identity_id : bytes) : option Chain :=
  i ← lg_id_to_chain self !! identity_id; lg_chains self !! i.

Definition is_live (self : Ledger S) (idk : bytes) : bool :=
  match chain_of self idk with Some c => chain_usable c | None => false end.

Definition is_revoked (self : Ledger S) (idk : bytes) : bool :=
  match chain_of self idk with Some c => ch_revoked c | None => false end.

Definition last_activity (self : Ledger S) (idk : bytes) : option N :=
  ch_last_activity_ms <$> chain_of self idk.

(** [IdentityId::of] the chain's first key. *)
Definition identity_id (self : Ledger S) (idk : bytes) : option bytes :=
  c ← chain_of self idk;
  match sign_public_from_bytes (ch_root_idk c) with
  | Ok pk => Some (sha256 pk)
  | Err _ => None
  end.

Definition display_name (self : Ledger S) (idk : bytes) : option bytes :=
  c ← chain_of self idk;
  if bool_decide (ch_display_hint c = []) then None else Some (ch_display_hint c).

Definition display_name_by_id (self : Ledger S) (id : bytes) : option bytes :=
  c ← chain_by_id self id;
  if bool_decide (ch_display_hint c = []) then None else Some (ch_display_hint c).

(** [id_to_chain.iter().filter_map(..)]; the order of a [HashMap]'s entries
    is not specified, and nothing below depends on the one chosen here. *)
Definition by_identity {A} (self : Ledger S) (f : Chain → option A) : list (bytes * A) :=
  omap (λ '(id, ci), c ← lg_chains self !! ci; a ← f c; Some (id, a))
    (map_to_list (lg_id_to_chain self)).

Definition usernames (self : Ledger S) : list (bytes * bytes) :=
  by_identity self (λ c, if bool_decide (ch_display_hint c = []) then None
                         else Some (ch_display_hint c)).

Definition ledger_avatar_hash (self : Ledger S) (idk : bytes) : option bytes :=
  chain_of self idk ≫= ch_avatar_hash.
Definition avatar_hash_by_id (self : Ledger S) (id : bytes) : option bytes :=
  chain_by_id self id ≫= ch_avatar_hash.
Definition avatars (self : Ledger S) : list (bytes * bytes) := by_identity self ch_avatar_hash.

Definition ledger_status (self : Ledger S) (idk : bytes) : option bytes :=
  chain_of self idk ≫= ch_status.
Definition status_by_id (self : Ledger S) (id : bytes) : option bytes :=
  chain_by_id self id ≫= ch_status.
Definition statuses (self : Ledger S) : list (bytes * bytes) := by_identity self ch_status.

Definition agreement_key (self : Ledger S) (idk : bytes) : option bytes :=
  c ← chain_of self idk; if chain_usable c then Some (ch_tip_ik c) else None.

Definition idk_for_id (self : Ledger S) (id : bytes) : option bytes :=
  c ← chain_by_id self id; if chain_usable c then Some (ch_tip_idk c) else None.

Definition chain_usable_for_id (self : Ledger S) (id : bytes) : option bool :=
  chain_usable <$> chain_by_id self id.

Definition tip_key (self : Ledger S) (idk : bytes) : option bytes :=
  c ← chain_of self idk; if chain_usable c then Some (ch_tip_idk c) else None.

Definition discoverable_servers (self : Ledger S) : list RegisterBody :=
  omap (λ '(_, state),
    if ss_delisted state then None
    else rec ← rs_get (lg_store self) (ss_record_index state);
         match register_decode (rec_body rec) with
         | Ok reg => if sr_discoverable reg then Some reg else None
         | Err _ => None
         end)
    (map_to_list (lg_servers self)).

(** *** Operations *)

Definition Op (A : Type) : Type := Step (Ledger S) LedgerError A.

(** Field updates. *)
Definition set_chains (f : list Chain → list Chain) (self : Ledger S) : Ledger S :=
  mkLedger (lg_store self) (lg_params self) (lg_leaves self) (lg_by_id self)
    (lg_idk_to_chain self) (lg_id_to_chain self) (f (lg_chains self)) (lg_servers self).
Definition set_idk_to_chain (f : gmap bytes nat → gmap bytes nat) (self : Ledger S) : Ledger S :=
  mkLedger (lg_store self) (lg_params self) (lg_leaves self) (lg_by_id self)
    (f (lg_idk_to_chain self)) (lg_id_to_chain self) (lg_chains self) (lg_servers self).
Definition set_id_to_chain (f : gmap bytes nat → gmap bytes nat) (self : Ledger S) : Ledger S :=
  mkLedger (lg_store self) (lg_params self) (lg_leaves self) (lg_by_id self)
    (lg_idk_to_chain self) (f (lg_id_to_chain self)) (lg_chains self) (lg_servers self).
Definition set_servers (f : gmap bytes ServerState → gmap bytes ServerState)
    (self : Ledger S) : Ledger S :=
  mkLedger (lg_store self) (lg_params self) (lg_leaves self) (lg_by_id self)
    (lg_idk_to_chain self) (lg_id_to_chain self) (lg_chains self) (f (lg_servers self)).

Definition push_record_to (record : record) (self : Ledger S) : Ledger S :=
  mkLedger (rs_push (lg_store self) record) (lg_params self)
    (lg_leaves self ++ [leaf_hash (record_encode record)])
    (<[record_id record := rs_len (lg_store self)]> (lg_by_id self))
    (lg_idk_to_chain self) (lg_id_to_chain self) (lg_chains self) (lg_servers self).

Definition push_record (record : record) : Op bytes :=
  do! _ := st_modify (push_record_to record) in st_ret (record_id record).

(** [for state in servers.values_mut() { if owner == chain_id { delist } }] *)
Definition delist_owned (chain_id : nat) (servers : gmap bytes ServerState)
    : gmap bytes ServerState :=
  (λ state, if bool_decide (ss_owner_chain state = Some chain_id)
            then mkServerState (ss_record_index state) (ss_last_ms state) true
                   (ss_owner_chain state)
            else state) <$> servers.

Definition author_key (record : record) : result bytes LedgerError :=
  map_err (λ _, LE_BadSignature) (sign_public_from_bytes (rec_author record)).

(** [let IdentityRecord::X(body) = from_record(&record)? else { .. }]. *)
Definition body_as {A} (f : IdentityRecord → option A) (record : record) : result A LedgerError :=
  let? r := map_err LE_Body (identity_record_from_record record) in
  ok_or (f r) LE_AuthorMismatch.

Definition new_chain (record : record) (body : AnnounceBody) : Chain :=
  mkChain (rec_author record) (rec_author record) (an_ik_pub body) (rec_created_ms record)
    false false (an_display_hint body) None None 0.

Definition apply_announce (record : record) : Op bytes :=
  do! body := st_lift (body_as (λ r, match r with IRAnnounce b => Some b | _ => None end) record) in
  do! self := st_get in
  do! _ := st_reject (bool_decide (is_Some (lg_idk_to_chain self !! rec_author record)))
             LE_AlreadyAnnounced in
  do! key := st_lift (author_key record) in
  do! _ := st_lift (map_err LE_Body (announce_verify body key
             (lp_min_announce_pow_bits (lg_params self))
             (lp_min_pow_m_cost_kib (lg_params self)) (lp_min_pow_t_cost (lg_params self)))) in
  let chain_id := length (lg_chains self) in
  do! _ := st_modify (set_chains (λ cs, cs ++ [new_chain record body])) in
  do! _ := st_modify (set_idk_to_chain <[rec_author record := chain_id]>) in
  do! _ := st_modify (set_id_to_chain <[sha256 (rec_author record) := chain_id]>) in
  push_record record.

(** [self.chains[chain_id].last_activity_ms = t] and the like. *)
Definition touch_chain (t : N) (c : Chain) : Chain :=
  mkChain (ch_root_idk c) (ch_tip_idk c) (ch_tip_ik c) t (ch_tombstoned c) (ch_revoked c)
    (ch_display_hint c) (ch_avatar_hash c) (ch_status c) (ch_profile_ms c).
Definition rotate_chain (new_idk new_ik : bytes) (t : N) (c : Chain) : Chain :=
  mkChain (ch_root_idk c) new_idk new_ik t (ch_tombstoned c) (ch_revoked c)
    (ch_display_hint c) (ch_avatar_hash c) (ch_status c) (ch_profile_ms c).
Definition revoke_chain (t : N) (c : Chain) : Chain :=
  mkChain (ch_root_idk c) (ch_tip_idk c) (ch_tip_ik c) t (ch_tombstoned c) true
    (ch_display_hint c) (ch_avatar_hash c) (ch_status c) (ch_profile_ms c).
Definition profile_chain (avatar status : option bytes) (t : N) (c : Chain) : Chain :=
  mkChain (ch_root_idk c) (ch_tip_idk c) (ch_tip_ik c) (ch_last_activity_ms c)
    (ch_tombstoned c) (ch_revoked c) (ch_display_hint c) avatar status t.
Definition tombstone_chain (c : Chain) : Chain :=
  mkChain (ch_root_idk c) (ch_tip_idk c) (ch_tip_ik c) (ch_last_activity_ms c) true
    (ch_revoked c) (ch_display_hint c) (ch_avatar_hash c) (ch_status c) (ch_profile_ms c).

Definition apply_liveness (record : record) : Op bytes :=
  do! body := st_lift (body_as (λ r, match r with IRLiveness b => Some b | _ => None end) record) in
  do! self := st_get in
  do! chain_id := st_lift (ok_or (lg_idk_to_chain self !! rec_author record) LE_UnknownIdentity) in
  do! chain := st_index (lg_chains self !! chain_id) in
  do! _ := st_reject (ch_tombstoned chain) LE_IdentityEvaporated in
  do! _ := st_reject (ch_revoked chain) LE_IdentityRevoked in
  do! _ := st_reject (bool_decide (rec_author record ≠ ch_tip_idk chain)) LE_NotChainTip in
  do! _ := st_reject (rec_created_ms record <=? ch_last_activity_ms chain)%N LE_NonMonotonic in
  do! key := st_lift (author_key record) in
  do! _ := st_lift (map_err LE_Body (liveness_verify body key (rec_created_ms record)
             (lp_min_liveness_pow_bits (lg_params self))
             (lp_min_pow_m_cost_kib (lg_params self)) (lp_min_pow_t_cost (lg_params self)))) in
  do! _ := st_modify (set_chains (alter (touch_chain (rec_created_ms record)) chain_id)) in
  push_record record.

Definition apply_rotation (record : record) : Op bytes :=
  do! body := st_lift (body_as (λ r, match r with IRKeyRotation b => Some b | _ => None end) record) in
  do! _ := st_reject (bool_decide (rec_author record ≠ kr_new_idk body)) LE_AuthorMismatch in
  do! _ := st_lift (map_err LE_Body (rotation_verify body)) in
  do! self := st_get in
  do! chain_id := st_lift (ok_or (lg_idk_to_chain self !! kr_prev_idk body) LE_UnknownIdentity) in
  do! chain := st_index (lg_chains self !! chain_id) in
  do! _ := st_reject (ch_tombstoned chain) LE_IdentityEvaporated in
  do! _ := st_reject (ch_revoked chain) LE_IdentityRevoked in
  do! _ := st_reject (bool_decide (kr_prev_idk body ≠ ch_tip_idk chain)) LE_NotChainTip in
  do! _ := st_reject (rec_created_ms record <=? ch_last_activity_ms chain)%N LE_NonMonotonic in
  do! _ := st_reject (bool_decide (is_Some (lg_idk_to_chain self !! kr_new_idk body)))
             LE_KeyAlreadyInUse in
  do! _ := st_modify (set_chains
             (alter (rotate_chain (kr_new_idk body) (kr_new_ik body) (rec_created_ms record))
                chain_id)) in
  do! _ := st_modify (set_idk_to_chain <[kr_new_idk body := chain_id]>) in
  push_record record.

Definition apply_revoke (record : record) : Op bytes :=
  do! body := st_lift (body_as (λ r, match r with IRRevoke b => Some b | _ => None end) record) in
  do! _ := st_reject (bool_decide (rec_author record ≠ rv_revoked_idk body)) LE_AuthorMismatch in
  do! _ := st_lift (map_err LE_Body (revoke_verify body)) in
  do! self := st_get in
  do! chain_id := st_lift (ok_or (lg_idk_to_chain self !! rec_author record) LE_UnknownIdentity) in
  do! chain := st_index (lg_chains self !! chain_id) in
  do! _ := st_reject (ch_tombstoned chain) LE_IdentityEvaporated in
  do! _ := st_reject (ch_revoked chain) LE_IdentityRevoked in
  do! _ := st_reject (bool_decide (rec_author record ≠ ch_tip_idk chain)) LE_NotChainTip in
  do! _ := st_reject (rec_created_ms record <=? ch_last_activity_ms chain)%N LE_NonMonotonic in
  do! _ := st_modify (set_chains (alter (revoke_chain (rec_created_ms record)) chain_id)) in
  do! _ := st_modify (set_servers (delist_owned chain_id)) in
  push_record record.

Definition apply_profile (record : record) : Op bytes :=
  do! body := st_lift (body_as (λ r, match r with IRProfile b => Some b | _ => None end) record) in
  do! self := st_get in
  do! chain_id := st_lift (ok_or (lg_idk_to_chain self !! rec_author record) LE_UnknownIdentity) in
  do! chain := st_index (lg_chains self !! chain_id) in
  do! _ := st_reject (ch_tombstoned chain) LE_IdentityEvaporated in
  do! _ := st_reject (ch_revoked chain) LE_IdentityRevoked in
  do! _ := st_reject (bool_decide (rec_author record ≠ ch_tip_idk chain)) LE_NotChainTip in
  do! _ := st_reject (rec_created_ms record <=? ch_profile_ms chain)%N LE_NonMonotonic in
  do! _ := st_modify (set_chains
             (alter (profile_chain (pf_avatar_hash body) (pf_status body) (rec_created_ms record))
                chain_id)) in
  push_record record.

Definition apply_server_register (record : record) : Op bytes :=
  do! body := st_lift (map_err LE_Wire (register_decode (rec_body record))) in
  do! _ := st_reject (bool_decide (rec_author record ≠ sr_server_root body)) LE_AuthorMismatch in
  do! _ := st_lift (register_validate body) in
  do! self := st_get in
  do! _ := st_lift (map_err (λ _, LE_BadPow)
             (pow_verify (register_challenge (sr_server_root body)) (sr_pow body)
                (lp_min_announce_pow_bits (lg_params self))
                (lp_min_pow_m_cost_kib (lg_params self)) (lp_min_pow_t_cost (lg_params self)))) in
  do! _ := match lg_servers self !! sr_server_root body with
           | Some state => st_reject (rec_created_ms record <=? ss_last_ms state)%N LE_NonMonotonic
           | None => st_ret tt
           end in
  let owner_chain := lg_idk_to_chain self !! sr_server_root body in
  let index := rs_len (lg_store self) in
  do! _ := st_modify (set_servers
             <[sr_server_root body :=
                 mkServerState index (rec_created_ms record) false owner_chain]>) in
  push_record record.

Definition apply_server_delist (record : record) : Op bytes :=
  do! body := st_lift (map_err LE_Wire (delist_decode (rec_body record))) in
  do! _ := st_reject (bool_decide (rec_author record ≠ sd_server_root body)) LE_AuthorMismatch in
  do! self := st_get in
  do! state := st_lift (ok_or (lg_servers self !! sd_server_root body) LE_UnknownServer) in
  do! _ := st_reject (rec_created_ms record <=? ss_last_ms state)%N LE_NonMonotonic in
  do! _ := st_modify (set_servers
             <[sd_server_root body :=
                 mkServerState (ss_record_index state) (rec_created_ms record) true
                   (ss_owner_chain state)]>) in
  push_record record.

Definition append (record : record) (now_ms : N) : Op bytes :=
  do! _ := st_reject (negb (rec_v record =? RECORD_VERSION)%N)
             (LE_UnsupportedVersion (rec_v record)) in
  do! _ := st_reject (sat_add64 now_ms CLOCK_SKEW_MS <? rec_created_ms record)%N
             (LE_TimestampInFuture (rec_created_ms record) now_ms) in
  do! _ := st_reject (bool_decide (rec_kind record = Tombstone)) LE_TombstoneNotAllowed in
  do! _ := st_lift (map_err (λ _, LE_BadSignature) (record_verify_signature record)) in
  match rec_kind record with
  | IdentityAnnounce => apply_announce record
  | LivenessProof => apply_liveness record
  | KeyRotation => apply_rotation record
  | ServerRegister => apply_server_register record
  | ServerDelist => apply_server_delist record
  | IdentityRevoke => apply_revoke record
  | IdentityProfile => apply_profile record
  | Tombstone => st_index None (* unreachable!() *)
  end.

(** The filters of [evaporate]. *)
Definition expired (params : LedgerParams) (now_ms : N) (c : Chain) : bool :=
  negb (ch_tombstoned c)
  && (lp_identity_ttl_ms params <? now_ms - ch_last_activity_ms c)%N.

Definition eligible (now_ms : N) (self : Ledger S) : list bytes :=
  merge_sort bytes_ordered
    (ch_root_idk <$> base.filter (λ c, expired (lg_params self) now_ms c = true) (lg_chains self)).

(** The loop over the eligible roots. *)
Fixpoint evaporate_loop (now_ms : N) (roots : list bytes) : Op (list bytes) :=
  match roots with
  | [] => st_ret []
  | root_idk :: rest =>
      do! self := st_get in
      do! chain_id := st_index (lg_idk_to_chain self !! root_idk) in
      do! _ := st_index (lg_chains self !! chain_id) in
      do! _ := st_modify (set_chains (alter tombstone_chain chain_id)) in
      do! _ := st_modify (set_servers (delist_owned chain_id)) in
      do! id := push_record (tombstone_to_record (mkTombstone root_idk now_ms)) in
      do! ids := evaporate_loop now_ms rest in
      st_ret (id :: ids)
  end.

Definition evaporate (now_ms : N) : Op (list bytes) :=
  do! self := st_get in
  evaporate_loop now_ms (eligible now_ms self).
End ledger.
