(* ===== verification/LedgerProofs.v ===== *)
(** * What the ledger guarantees

    The declarative reading of [append] (which records are accepted, and what
    they change), the invariant of the log, the order in which a log evolves,
    and the consequences: append-only history, verifiable proofs, replay
    protection, permanent revocation, exact evaporation. *)

From S2P Require Import Prelude Utf8 Enc Crypto Merkle MerkleProofs ProtoRecord IdentityRecords Server Ledger.

(** ** Generic facts about stateful steps *)

Section steps.
Context {St E : Type}.

(** A step that only looks. *)
Definition no_write {A} (m : Step St E A) : Prop :=
  ∀ s r s', m s = Some (r, s') → s' = s.
(** A step that cannot return an error. *)
Definition never_err {A} (m : Step St E A) : Prop :=
  ∀ s r s', m s = Some (r, s') → is_ok r = true.
(** A step whose errors leave the state as it was. *)
Definition err_safe {A} (m : Step St E A) : Prop :=
  ∀ s e s', m s = Some (Err e, s') → s' = s.

Lemma no_write_lift {A} (r : result A E) : no_write (st_lift r).
Proof. by intros s r' s' [= <- <-]. Qed.
Lemma no_write_reject c (e : E) : no_write (st_reject c e).
Proof. by intros s r' s' [= <- <-]. Qed.
Lemma no_write_index {A} (o : option A) : no_write (st_index o).
Proof. intros s r' s'. unfold st_index. destruct o; [|done]. by intros [= <- <-]. Qed.
Lemma no_write_get : no_write st_get.
Proof. by intros s r' s' [= <- <-]. Qed.
Lemma no_write_ret {A} (a : A) : no_write (st_ret a).
Proof. by intros s r' s' [= <- <-]. Qed.

Lemma never_err_ret {A} (a : A) : never_err (st_ret a).
Proof. by intros s r' s' [= <- <-]. Qed.
Lemma never_err_modify f : never_err (st_modify f).
Proof. by intros s r' s' [= <- <-]. Qed.
Lemma never_err_index {A} (o : option A) : never_err (st_index o).
Proof. intros s r' s'. unfold st_index. destruct o; [|done]. by intros [= <- <-]. Qed.
Lemma never_err_get : never_err st_get.
Proof. by intros s r' s' [= <- <-]. Qed.
Lemma never_err_bind {A B} (m : Step St E A) (k : A → Step St E B) :
  never_err m → (∀ a, never_err (k a)) → never_err (st_bind m k).
Proof.
  intros Hm Hk s r s' [(a & s1 & _ & H)|(e & H & ->)]%st_bind_Some; [by eapply Hk|].
  by apply Hm in H.
Qed.

Lemma err_safe_bind {A B} (m : Step St E A) (k : A → Step St E B) :
  no_write m → (∀ a, err_safe (k a)) → err_safe (st_bind m k).
Proof.
  intros Hm Hk s e s' [(a & s1 & H1 & H)|(e' & H & _)]%st_bind_Some; [|by eapply Hm].
  apply Hm in H1 as ->. by eapply Hk.
Qed.
Lemma err_safe_never {A} (m : Step St E A) : never_err m → err_safe m.
Proof. intros Hm s e s' H. by apply Hm in H. Qed.
Lemma err_safe_no_write {A} (m : Step St E A) : no_write m → err_safe m.
Proof. intros Hm s e s' H. by apply Hm in H. Qed.

(** Progress: a sequence runs to the end if every step does. *)
Lemma st_bind_total {A B} (m : Step St E A) (k : A → Step St E B) s :
  is_Some (m s) → (∀ a s', m s = Some (Ok a, s') → is_Some (k a s')) → is_Some (st_bind m k s).
Proof.
  unfold st_bind. destruct (m s) as [[[a|e] s']|]; intros [? ?] Hk; [by eapply Hk|eauto|done].
Qed.
End steps.

Create HintDb steps.
#[export] Hint Resolve no_write_lift no_write_reject no_write_index no_write_get no_write_ret
  never_err_ret never_err_modify never_err_index never_err_get never_err_bind : steps.

(** ** The order in which chains and servers evolve *)

Record chain_le (c c' : Chain) : Prop := {
  cl_root : ch_root_idk c' = ch_root_idk c;
  cl_hint : ch_display_hint c' = ch_display_hint c;
  cl_activity : (ch_last_activity_ms c ≤ ch_last_activity_ms c')%N;
  cl_profile : (ch_profile_ms c ≤ ch_profile_ms c')%N;
  cl_tombstoned : ch_tombstoned c = true → ch_tombstoned c' = true;
  cl_revoked : ch_revoked c = true → ch_revoked c' = true;
  cl_frozen : chain_usable c = false →
    ch_tip_idk c' = ch_tip_idk c ∧ ch_tip_ik c' = ch_tip_ik c ∧
    ch_avatar_hash c' = ch_avatar_hash c ∧ ch_status c' = ch_status c ∧
    ch_last_activity_ms c' = ch_last_activity_ms c;
}.

Lemma usable_false c : chain_usable c = false ↔ ch_tombstoned c = true ∨ ch_revoked c = true.
Proof. unfold chain_usable. destruct (ch_tombstoned c), (ch_revoked c); naive_solver. Qed.

Lemma usable_true c : chain_usable c = true ↔ ch_tombstoned c = false ∧ ch_revoked c = false.
Proof. unfold chain_usable. destruct (ch_tombstoned c), (ch_revoked c); naive_solver. Qed.

Lemma chain_le_unusable c c' : chain_le c c' → chain_usable c = false → chain_usable c' = false.
Proof. intros []. rewrite !usable_false. naive_solver. Qed.

#[export] Instance chain_le_preorder : PreOrder chain_le.
Proof.
  split.
  - intros c. split; auto; lia.
  - intros a b c Hab Hbc. pose proof (chain_le_unusable _ _ Hab) as Hu.
    destruct Hab as [? ? ? ? ? ? F1], Hbc as [? ? ? ? ? ? F2].
    split; try congruence; try lia; auto.
    intros Ha. specialize (F1 Ha). specialize (F2 (Hu Ha)). destruct_and!. split_and!; congruence.
Qed.

Lemma chain_le_touch c t :
  chain_usable c = true → (ch_last_activity_ms c < t)%N → chain_le c (touch_chain t c).
Proof. intros Hu Ht. split; simpl; auto; try lia. by rewrite Hu. Qed.
Lemma chain_le_rotate c k ik t :
  chain_usable c = true → (ch_last_activity_ms c < t)%N → chain_le c (rotate_chain k ik t c).
Proof. intros Hu Ht. split; simpl; auto; try lia. by rewrite Hu. Qed.
Lemma chain_le_revoke c t :
  chain_usable c = true → (ch_last_activity_ms c < t)%N → chain_le c (revoke_chain t c).
Proof. intros Hu Ht. split; simpl; auto; try lia. by rewrite Hu. Qed.
Lemma chain_le_profile c a s t :
  chain_usable c = true → (ch_profile_ms c < t)%N → chain_le c (profile_chain a s t c).
Proof. intros Hu Ht. split; simpl; auto; try lia. by rewrite Hu. Qed.
Lemma chain_le_tombstone c : chain_le c (tombstone_chain c).
Proof. split; simpl; auto; lia. Qed.

(** ** The order of byte arrays is a total order *)

#[export] Instance bytes_le_total : Total bytes_ordered.
Proof.
  intros a. unfold bytes_ordered. induction a as [|x a IH]; intros b; [by left|].
  destruct b as [|y b]; [by right|]. cbn [bytes_leb].
  rewrite !orb_true_iff, !andb_true_iff, !N.ltb_lt, !N.eqb_eq.
  destruct (N.lt_total (b2n x) (b2n y)) as [?|[->|?]]; [tauto| |tauto].
  destruct (IH b); tauto.
Qed.
#[export] Instance bytes_le_trans : Transitive bytes_ordered.
Proof.
  intros a. unfold bytes_ordered. induction a as [|x a IH]; intros [|y b] [|z c]; cbn [bytes_leb]; try done.
  rewrite !orb_true_iff, !andb_true_iff, !N.ltb_lt, !N.eqb_eq.
  intros [?|[-> ?]] [?|[? ?]]; try (left; lia). right. split; [congruence|eauto].
Qed.
#[export] Instance bytes_le_antisymm : AntiSymm (=) bytes_ordered.
Proof.
  intros a. unfold bytes_ordered. induction a as [|x a IH]; intros [|y b]; cbn [bytes_leb]; try done.
  rewrite !orb_true_iff, !andb_true_iff, !N.ltb_lt, !N.eqb_eq.
  intros [?|[E ?]] [?|[? ?]]; try lia. f_equal; [by apply b2n_inj|by apply IH].
Qed.

(** Sorting a rearranged list gives the same list. *)
Lemma merge_sort_perm (xs ys : list bytes) :
  xs ≡ₚ ys → merge_sort bytes_ordered xs = merge_sort bytes_ordered ys.
Proof.
  intros Hp. apply (StronglySorted_unique bytes_ordered).
  - apply StronglySorted_merge_sort; apply _.
  - apply StronglySorted_merge_sort; apply _.
  - by rewrite !merge_sort_Permutation.
Qed.

Section proofs.
Context `{CryptoPrims} {St : Type} `{RecordStoreLaws St}.

Implicit Types l : Ledger St.
Implicit Types r : record.

Definition view l : list record := rs_view (lg_store l).

(** ** Well-formed ledgers *)

Record ledger_wf l : Prop := {
  wf_leaves : lg_leaves l = (λ r, leaf_hash (record_encode r)) <$> view l;
  wf_by_id id i : lg_by_id l !! id = Some i → ∃ r, view l !! i = Some r ∧ record_id r = id;
  wf_stored i r : view l !! i = Some r → is_Some (lg_by_id l !! record_id r);
  wf_signed i r : view l !! i = Some r →
    rec_kind r = Tombstone ∨ record_verify_signature r = Ok tt;
  wf_idk k i : lg_idk_to_chain l !! k = Some i → is_Some (lg_chains l !! i);
  wf_keys i c : lg_chains l !! i = Some c →
    lg_idk_to_chain l !! ch_root_idk c = Some i ∧ lg_idk_to_chain l !! ch_tip_idk c = Some i;
  wf_id id i : lg_id_to_chain l !! id = Some i →
    ∃ c, lg_chains l !! i = Some c ∧ sha256 (ch_root_idk c) = id;
  wf_servers k s : lg_servers l !! k = Some s →
    (∃ r b, view l !! ss_record_index s = Some r ∧ rec_kind r = ServerRegister ∧
            register_decode (rec_body r) = Ok b ∧ sr_server_root b = k ∧ rec_author r = k) ∧
    (∀ i, ss_owner_chain s = Some i → is_Some (lg_chains l !! i));
}.

(** ** How a ledger may evolve *)

Record extends l l' : Prop := {
  ext_params : lg_params l' = lg_params l;
  ext_view : view l `prefix_of` view l';
  ext_idk : lg_idk_to_chain l ⊆ lg_idk_to_chain l';
  ext_chain i c : lg_chains l !! i = Some c → ∃ c', lg_chains l' !! i = Some c' ∧ chain_le c c';
  ext_server k s : lg_servers l !! k = Some s →
    ∃ s', lg_servers l' !! k = Some s' ∧ (ss_last_ms s ≤ ss_last_ms s')%N;
}.

#[export] Instance extends_preorder : PreOrder extends.
Proof.
  split.
  - intros l. split; try done; [naive_solver|]. intros k s ?. eauto with lia.
  - intros a b c [P1 V1 I1 C1 S1] [P2 V2 I2 C2 S2]. split.
    + congruence.
    + by trans (view b).
    + by trans (lg_idk_to_chain b).
    + intros i x (y & Hy & ?)%C1. destruct (C2 _ _ Hy) as (z & ? & ?).
      exists z. split; [done|by trans y].
    + intros k x (y & Hy & ?)%S1. destruct (S2 _ _ Hy) as (z & ? & ?).
      exists z. split; [done|lia].
Qed.

(** ** Building blocks *)

Lemma view_push r l : view (push_record_to r l) = view l ++ [r].
Proof. apply rs_push_view. Qed.

Lemma wf_push r l :
  rec_kind r = Tombstone ∨ record_verify_signature r = Ok tt →
  ledger_wf l → ledger_wf (push_record_to r l).
Proof.
  intros Hr [W1 W2 W3 W4 W5 W6 W7 W8]. split; rewrite ?view_push; try done.
  - cbn. rewrite W1, fmap_app. done.
  - cbn. intros id i [[<- <-]|[Hne Hi]]%lookup_insert_Some.
    + exists r. rewrite rs_len_view. split; [|done]. by apply list_lookup_middle.
    + destruct (W2 _ _ Hi) as (r' & ? & ?). exists r'. split; [by apply lookup_app_l_Some|done].
  - cbn. intros i r' [Hi|[Hge Hi]]%lookup_app_Some.
    + destruct (decide (record_id r = record_id r')) as [->|?].
      * rewrite lookup_insert_eq. eauto.
      * rewrite lookup_insert_ne by done. eauto.
    + apply list_lookup_singleton_Some in Hi as [_ <-]. rewrite lookup_insert_eq. eauto.
  - intros i r' [Hi|[Hge Hi]]%lookup_app_Some; [eauto|].
    by apply list_lookup_singleton_Some in Hi as [_ <-].
  - cbn. intros k s Hs. destruct (W8 k s Hs) as [(r' & b & ? & ?) ?]. split; [|done].
    exists r', b. split; [|done]. by apply lookup_app_l_Some.
Qed.

Lemma lookup_alter_Some_inv {A} (f : A → A) i j (xs : list A) y :
  alter f i xs !! j = Some y → ∃ x, xs !! j = Some x ∧ (y = x ∨ (i = j ∧ y = f x)).
Proof.
  destruct (decide (i = j)) as [->|Hne].
  - rewrite list_lookup_alter_eq. destruct (xs !! j); [|done]. intros [= <-]. eauto.
  - rewrite list_lookup_alter_ne by done. eauto.
Qed.

Lemma alter_is_Some {A} (f : A → A) i j (xs : list A) :
  is_Some (xs !! j) → is_Some (alter f i xs !! j).
Proof. intros Hj. apply lookup_lt_is_Some. rewrite length_alter. by apply lookup_lt_is_Some. Qed.

(** Changing one chain keeps the invariant when its root stays and its tip
    is a key of that chain. *)
Lemma wf_alter_chain f i l :
  (∀ c, lg_chains l !! i = Some c →
     ch_root_idk (f c) = ch_root_idk c ∧ lg_idk_to_chain l !! ch_tip_idk (f c) = Some i) →
  ledger_wf l → ledger_wf (set_chains (alter f i) l).
Proof.
  intros Hf [W1 W2 W3 W4 W5 W6 W7 W8]. split; cbn; try done.
  - intros k j Hj. eapply alter_is_Some, W5, Hj.
  - intros j c (c0 & Hc0 & [->|[-> ->]])%lookup_alter_Some_inv; [by apply W6|].
    destruct (Hf _ Hc0) as [-> ->]. destruct (W6 _ _ Hc0). done.
  - intros id j Hj. destruct (W7 _ _ Hj) as (c & Hc & <-).
    destruct (decide (i = j)) as [->|?].
    + exists (f c). rewrite list_lookup_alter_eq, Hc. split; [done|]. by destruct (Hf _ Hc) as [-> _].
    + exists c. by rewrite list_lookup_alter_ne.
  - intros k s Hs. destruct (W8 k s Hs) as [? Ho]. split; [done|].
    intros j Hj. by eapply alter_is_Some, Ho.
Qed.

Lemma wf_delist i l : ledger_wf l → ledger_wf (set_servers (delist_owned i) l).
Proof.
  intros [W1 W2 W3 W4 W5 W6 W7 W8]. split; cbn; try done.
  intros k s. unfold delist_owned. rewrite lookup_fmap, fmap_Some.
  intros (s0 & Hs0 & ->). destruct (W8 _ _ Hs0). by case_bool_decide.
Qed.

Lemma wf_insert_idk k i l :
  lg_idk_to_chain l !! k = None → is_Some (lg_chains l !! i) →
  ledger_wf l → ledger_wf (set_idk_to_chain <[k := i]> l).
Proof.
  intros Hk Hi [W1 W2 W3 W4 W5 W6 W7 W8]. split; cbn; try done.
  - intros k' j [[_ <-]|[_ Hj]]%lookup_insert_Some; eauto.
  - intros j c Hc. destruct (W6 _ _ Hc) as [Hr Ht].
    rewrite !lookup_insert_ne by congruence. done.
Qed.

Lemma wf_new_chain c l :
  ch_tip_idk c = ch_root_idk c → lg_idk_to_chain l !! ch_root_idk c = None →
  ledger_wf l →
  ledger_wf (set_id_to_chain <[sha256 (ch_root_idk c) := length (lg_chains l)]>
              (set_idk_to_chain <[ch_root_idk c := length (lg_chains l)]>
                (set_chains (λ cs, cs ++ [c]) l))).
Proof.
  intros Ht Hk [W1 W2 W3 W4 W5 W6 W7 W8]. split; cbn; try done.
  - intros k j [[_ <-]|[_ Hj]]%lookup_insert_Some; [rewrite list_lookup_middle by done; eauto|].
    destruct (W5 _ _ Hj) as [x Hx]. exists x. by apply lookup_app_l_Some.
  - intros j c' [Hc|[Hge Hc]]%lookup_app_Some.
    + destruct (W6 _ _ Hc). rewrite !lookup_insert_ne by congruence. done.
    + apply list_lookup_singleton_Some in Hc as [Hj <-].
      rewrite Ht, lookup_insert_eq. split; f_equal; lia.
  - intros id j [[<- <-]|[_ Hj]]%lookup_insert_Some.
    + exists c. by rewrite list_lookup_middle.
    + destruct (W7 _ _ Hj) as (x & ? & ?). exists x. split; [by apply lookup_app_l_Some|done].
  - intros k s Hs. destruct (W8 k s Hs) as [? Ho]. split; [done|].
    intros j [x Hx]%Ho. exists x. by apply lookup_app_l_Some.
Qed.

(** The same blocks for [extends]. *)
Lemma ext_push r l : extends l (push_record_to r l).
Proof.
  split; cbn; try done.
  - rewrite view_push. by apply prefix_app_r.
  - intros i c ?. by exists c.
  - intros k s ?. exists s. split; [done|lia].
Qed.

Lemma ext_alter_chain f i l :
  (∀ c, lg_chains l !! i = Some c → chain_le c (f c)) → extends l (set_chains (alter f i) l).
Proof.
  intros Hf. split; cbn; try done.
  - intros j c Hc. destruct (decide (i = j)) as [->|?].
    + exists (f c). rewrite list_lookup_alter_eq, Hc. auto.
    + exists c. by rewrite list_lookup_alter_ne.
  - intros k s ?. exists s. split; [done|lia].
Qed.

Lemma ext_delist i l : extends l (set_servers (delist_owned i) l).
Proof.
  split; cbn; try done.
  - intros j c ?. by exists c.
  - intros k s Hs. unfold delist_owned. rewrite lookup_fmap, Hs. cbn.
    eexists. split; [done|]. by case_bool_decide.
Qed.

Lemma ext_insert_idk k i l :
  lg_idk_to_chain l !! k = None → extends l (set_idk_to_chain <[k := i]> l).
Proof.
  intros Hk. split; cbn; try done.
  - by apply insert_subseteq.
  - intros j c ?. by exists c.
  - intros k' s ?. exists s. split; [done|lia].
Qed.

Lemma ext_new_chain c k id l :
  lg_idk_to_chain l !! k = None →
  extends l (set_id_to_chain <[id := length (lg_chains l)]>
              (set_idk_to_chain <[k := length (lg_chains l)]>
                (set_chains (λ cs, cs ++ [c]) l))).
Proof.
  intros Hk. split; cbn; try done.
  - by apply insert_subseteq.
  - intros j c' ?. exists c'. split; [by apply lookup_app_l_Some|done].
  - intros k' s ?. exists s. split; [done|lia].
Qed.

Lemma ext_insert_server k s l :
  (∀ s0, lg_servers l !! k = Some s0 → (ss_last_ms s0 ≤ ss_last_ms s)%N) →
  extends l (set_servers <[k := s]> l).
Proof.
  intros Hk. split; cbn; try done.
  - intros j c ?. by exists c.
  - intros k' s0 Hs0. destruct (decide (k = k')) as [->|?].
    + exists s. rewrite lookup_insert_eq. auto.
    + exists s0. rewrite lookup_insert_ne by done. split; [done|lia].
Qed.

(** ** The declarative reading of [append] *)

(** What every accepted record satisfies before its kind is looked at. *)
Definition header_ok r (now_ms : N) : Prop :=
  rec_v r = RECORD_VERSION ∧ (rec_created_ms r ≤ sat_add64 now_ms CLOCK_SKEW_MS)%N ∧
  rec_kind r ≠ Tombstone ∧ record_verify_signature r = Ok tt.

(** The chain an identity record acts on: known, usable, and [key] is its tip. *)
Definition acts_on l (key : bytes) (i : nat) (c : Chain) : Prop :=
  lg_idk_to_chain l !! key = Some i ∧ lg_chains l !! i = Some c ∧
  chain_usable c = true ∧ ch_tip_idk c = key.

Inductive accepted r l : Ledger St → Prop :=
  | acc_announce body key :
      rec_kind r = IdentityAnnounce → announce_decode (rec_body r) = Ok body →
      lg_idk_to_chain l !! rec_author r = None →
      sign_public_from_bytes (rec_author r) = Ok key →
      announce_verify body key (lp_min_announce_pow_bits (lg_params l))
        (lp_min_pow_m_cost_kib (lg_params l)) (lp_min_pow_t_cost (lg_params l)) = Ok tt →
      accepted r l
        (push_record_to r
          (set_id_to_chain <[sha256 (rec_author r) := length (lg_chains l)]>
            (set_idk_to_chain <[rec_author r := length (lg_chains l)]>
              (set_chains (λ cs, cs ++ [new_chain r body]) l))))
  | acc_liveness body key i c :
      rec_kind r = LivenessProof → liveness_decode (rec_body r) = Ok body →
      acts_on l (rec_author r) i c → (ch_last_activity_ms c < rec_created_ms r)%N →
      sign_public_from_bytes (rec_author r) = Ok key →
      liveness_verify body key (rec_created_ms r) (lp_min_liveness_pow_bits (lg_params l))
        (lp_min_pow_m_cost_kib (lg_params l)) (lp_min_pow_t_cost (lg_params l)) = Ok tt →
      accepted r l
        (push_record_to r (set_chains (alter (touch_chain (rec_created_ms r)) i) l))
  | acc_rotation body i c :
      rec_kind r = KeyRotation → rotation_decode (rec_body r) = Ok body →
      rec_author r = kr_new_idk body → rotation_verify body = Ok tt →
      acts_on l (kr_prev_idk body) i c → (ch_last_activity_ms c < rec_created_ms r)%N →
      lg_idk_to_chain l !! kr_new_idk body = None →
      accepted r l
        (push_record_to r
          (set_idk_to_chain <[kr_new_idk body := i]>
            (set_chains (alter (rotate_chain (kr_new_idk body) (kr_new_ik body)
                                 (rec_created_ms r)) i) l)))
  | acc_revoke body i c :
      rec_kind r = IdentityRevoke → revoke_decode (rec_body r) = Ok body →
      rec_author r = rv_revoked_idk body → revoke_verify body = Ok tt →
      acts_on l (rec_author r) i c → (ch_last_activity_ms c < rec_created_ms r)%N →
      accepted r l
        (push_record_to r
          (set_servers (delist_owned i)
            (set_chains (alter (revoke_chain (rec_created_ms r)) i) l)))
  | acc_profile body i c :
      rec_kind r = IdentityProfile → profile_decode (rec_body r) = Ok body →
      acts_on l (rec_author r) i c → (ch_profile_ms c < rec_created_ms r)%N →
      accepted r l
        (push_record_to r
          (set_chains (alter (profile_chain (pf_avatar_hash body) (pf_status body)
                                (rec_created_ms r)) i) l))
  | acc_register body :
      rec_kind r = ServerRegister → register_decode (rec_body r) = Ok body →
      rec_author r = sr_server_root body → register_validate body = Ok tt →
      pow_verify (register_challenge (sr_server_root body)) (sr_pow body)
        (lp_min_announce_pow_bits (lg_params l))
        (lp_min_pow_m_cost_kib (lg_params l)) (lp_min_pow_t_cost (lg_params l)) = Ok tt →
      (∀ s, lg_servers l !! sr_server_root body = Some s →
            (ss_last_ms s < rec_created_ms r)%N) →
      accepted r l
        (push_record_to r
          (set_servers <[sr_server_root body :=
              mkServerState (length (view l)) (rec_created_ms r) false
                (lg_idk_to_chain l !! sr_server_root body)]> l))
  | acc_delist body s :
      rec_kind r = ServerDelist → delist_decode (rec_body r) = Ok body →
      rec_author r = sd_server_root body →
      lg_servers l !! sd_server_root body = Some s → (ss_last_ms s < rec_created_ms r)%N →
      accepted r l
        (push_record_to r
          (set_servers <[sd_server_root body :=
              mkServerState (ss_record_index s) (rec_created_ms r) true (ss_owner_chain s)]> l)).

(** *** [append] runs exactly these transitions *)

Lemma body_as_Ok {A} (f : IdentityRecord → option A) r b :
  body_as f r = Ok b ↔ ∃ ir, identity_record_from_record r = Ok ir ∧ f ir = Some b.
Proof.
  unfold body_as. destruct (identity_record_from_record r) as [ir|]; cbn.
  - destruct (f ir) eqn:E; cbn; naive_solver.
  - naive_solver.
Qed.

Lemma author_key_Ok r key : author_key r = Ok key ↔ sign_public_from_bytes (rec_author r) = Ok key.
Proof. unfold author_key. destruct (sign_public_from_bytes _); cbn; naive_solver. Qed.

Lemma map_err_Ok {A E F} (f : E → F) (m : result A E) a : map_err f m = Ok a ↔ m = Ok a.
Proof. destruct m; cbn; naive_solver. Qed.

Lemma ok_or_Ok {A E} (o : option A) (e : E) a : ok_or o e = Ok a ↔ o = Some a.
Proof. destruct o; cbn; naive_solver. Qed.

Lemma acts_on_intro l key i c :
  lg_idk_to_chain l !! key = Some i → lg_chains l !! i = Some c →
  ch_tombstoned c = false → ch_revoked c = false → bool_decide (key ≠ ch_tip_idk c) = false →
  acts_on l key i c.
Proof.
  intros ? ? ? ? E%bool_decide_eq_false. split_and!; try done.
  - by apply usable_true.
  - destruct (decide (key = ch_tip_idk c)); [done|tauto].
Qed.

#[local] Ltac facts :=
  repeat match goal with
  | E : body_as _ _ = Ok _ |- _ =>
      let ir := fresh "ir" in let Hir := fresh "Hir" in let Hf := fresh "Hf" in
      apply body_as_Ok in E as (ir & Hir & Hf); destruct ir; try discriminate Hf;
      injection Hf as ->
  | E : map_err _ _ = Ok _ |- _ => apply map_err_Ok in E
  | E : author_key _ = Ok _ |- _ => apply author_key_Ok in E
  | E : ok_or _ _ = Ok _ |- _ => apply ok_or_Ok in E
  | E : (_ <=? _)%N = false |- _ => apply N.leb_gt in E
  | E : bool_decide (is_Some _) = false |- _ =>
      apply bool_decide_eq_false, eq_None_not_Some in E
  | E : Ok _ = Ok _ |- _ => injection E as E
  | u : unit |- _ => destruct u
  end.

Lemma from_record_kind r ir :
  identity_record_from_record r = Ok ir →
  match ir with
  | IRAnnounce b => rec_kind r = IdentityAnnounce ∧ announce_decode (rec_body r) = Ok b
  | IRLiveness b => rec_kind r = LivenessProof ∧ liveness_decode (rec_body r) = Ok b
  | IRKeyRotation b => rec_kind r = KeyRotation ∧ rotation_decode (rec_body r) = Ok b
  | IRRevoke b => rec_kind r = IdentityRevoke ∧ revoke_decode (rec_body r) = Ok b
  | IRProfile b => rec_kind r = IdentityProfile ∧ profile_decode (rec_body r) = Ok b
  end.
Proof.
  unfold identity_record_from_record. destruct (rec_kind r); try done;
    intros Hi; apply result_bind_Ok in Hi as (b & Hb & [= <-]); done.
Qed.

Lemma not_ne_eq (a b : bytes) : bool_decide (a ≠ b) = false → a = b.
Proof. intros E%bool_decide_eq_false. destruct (decide (a = b)); tauto. Qed.

Lemma push_record_Ok r l id l' :
  push_record r l = Some (Ok id, l') → id = record_id r ∧ l' = push_record_to r l.
Proof. unfold push_record. intros. by inv_step. Qed.

#[local] Ltac run_inv H :=
  inv_step; facts;
  match goal with P : push_record _ _ = Some (Ok _, _) |- _ => apply push_record_Ok in P as [-> ->] end;
  try match goal with Hi : identity_record_from_record _ = Ok _ |- _ =>
    apply from_record_kind in Hi as [? ?] end.

Lemma apply_announce_inv r l id l' :
  apply_announce r l = Some (Ok id, l') → id = record_id r ∧ accepted r l l'.
Proof. intros Hr. unfold apply_announce in Hr. run_inv Hr. split; [done|by econstructor]. Qed.

Lemma apply_liveness_inv r l id l' :
  apply_liveness r l = Some (Ok id, l') → id = record_id r ∧ accepted r l l'.
Proof.
  intros Hr. unfold apply_liveness in Hr. run_inv Hr. split; [done|].
  eapply acc_liveness; eauto using acts_on_intro.
Qed.

Lemma apply_rotation_inv r l id l' :
  apply_rotation r l = Some (Ok id, l') → id = record_id r ∧ accepted r l l'.
Proof.
  intros Hr. unfold apply_rotation in Hr. run_inv Hr. split; [done|].
  eapply acc_rotation; eauto using acts_on_intro, not_ne_eq.
Qed.

Lemma apply_revoke_inv r l id l' :
  apply_revoke r l = Some (Ok id, l') → id = record_id r ∧ accepted r l l'.
Proof.
  intros Hr. unfold apply_revoke in Hr. run_inv Hr. split; [done|].
  eapply acc_revoke; eauto using acts_on_intro, not_ne_eq.
Qed.

Lemma apply_profile_inv r l id l' :
  apply_profile r l = Some (Ok id, l') → id = record_id r ∧ accepted r l l'.
Proof.
  intros Hr. unfold apply_profile in Hr. run_inv Hr. split; [done|].
  eapply acc_profile; eauto using acts_on_intro.
Qed.

Lemma apply_server_register_inv r l id l' :
  rec_kind r = ServerRegister →
  apply_server_register r l = Some (Ok id, l') → id = record_id r ∧ accepted r l l'.
Proof.
  intros Hk Hr. unfold apply_server_register in Hr. inv_step. facts.
  rewrite rs_len_view in *.
  match goal with Hm : match ?o with _ => _ end _ = Some (Ok _, _) |- _ =>
    destruct o as [st|] eqn:Est end; inv_step; facts;
  match goal with P : push_record _ _ = Some (Ok _, _) |- _ => apply push_record_Ok in P as [-> ->] end;
  (split; [done|]; eapply acc_register; eauto using not_ne_eq; intros s0 Hs0; congruence).
Qed.

Lemma apply_server_delist_inv r l id l' :
  rec_kind r = ServerDelist →
  apply_server_delist r l = Some (Ok id, l') → id = record_id r ∧ accepted r l l'.
Proof.
  intros Hk Hr. unfold apply_server_delist in Hr. run_inv Hr. split; [done|].
  eapply acc_delist; eauto using not_ne_eq.
Qed.

Lemma append_inv r now_ms l id l' :
  append r now_ms l = Some (Ok id, l') →
  header_ok r now_ms ∧ accepted r l l' ∧ id = record_id r.
Proof.
  intros Hr. unfold append in Hr. inv_step. facts.
  match goal with E : negb _ = false |- _ => apply negb_false_iff, N.eqb_eq in E end.
  match goal with E : (_ <? _)%N = false |- _ => apply N.ltb_ge in E end.
  match goal with E : bool_decide (_ = Tombstone) = false |- _ => apply bool_decide_eq_false in E end.
  split; [by split_and!|].
  destruct (rec_kind r) eqn:Hk; try done.
  - by apply apply_announce_inv in Hr as [-> ?].
  - by apply apply_liveness_inv in Hr as [-> ?].
  - by apply apply_rotation_inv in Hr as [-> ?].
  - by apply apply_server_register_inv in Hr as [-> ?].
  - by apply apply_server_delist_inv in Hr as [-> ?].
  - by apply apply_revoke_inv in Hr as [-> ?].
  - by apply apply_profile_inv in Hr as [-> ?].
Qed.

(** And the other way: what is described as accepted, [append] accepts. *)
Lemma st_reject_false {A B : Type} {E : Type} (c : bool) (e : E) (k : unit → Step A E B) s :
  c = false → st_bind (st_reject c e) k s = k tt s.
Proof. by intros ->. Qed.
Lemma st_lift_Ok {A B C : Type} {E : Type} (m : result C E) a (k : C → Step A E B) s :
  m = Ok a → st_bind (st_lift m) k s = k a s.
Proof. by intros ->. Qed.
Lemma st_index_Some {A B C : Type} {E : Type} (o : option C) a (k : C → Step A E B) s :
  o = Some a → st_bind (st_index o) k s = k a s.
Proof. by intros ->. Qed.
Lemma st_modify_bind {A B : Type} {E : Type} f (k : unit → Step A E B) s :
  st_bind (st_modify f) k s = k tt (f s).
Proof. done. Qed.

#[local] Ltac run1 :=
  first
    [ rewrite st_get_bind
    | rewrite st_modify_bind
    | rewrite st_reject_false by
        (first [done | apply N.leb_gt; done | apply bool_decide_eq_false; by intros []
               | apply bool_decide_eq_false; by rewrite eq_None_not_Some in *
               | apply bool_decide_eq_false; congruence])
    | erewrite st_lift_Ok by
        (first [ eassumption | unfold author_key; rewrite map_err_Ok; eassumption
               | rewrite map_err_Ok; eassumption | rewrite ok_or_Ok; eassumption ])
    | erewrite st_index_Some by eassumption ]; cbv beta.

Lemma body_as_intro {A} (f : IdentityRecord → option A) r ir b :
  identity_record_from_record r = Ok ir → f ir = Some b → body_as f r = Ok b.
Proof. intros. apply body_as_Ok. eauto. Qed.

Lemma append_intro r now_ms l l' :
  header_ok r now_ms → accepted r l l' → append r now_ms l = Some (Ok (record_id r), l').
Proof.
  intros (Hv & Ht & Hk & Hs) Hacc. unfold append.
  rewrite st_reject_false by (by rewrite Hv).
  rewrite st_reject_false by (by apply N.ltb_ge).
  rewrite st_reject_false by (by apply bool_decide_eq_false).
  erewrite st_lift_Ok by (by rewrite Hs).
  inversion Hacc as [body key Hkind Hd|body key i c Hkind Hd Hact|body i c Hkind Hd ? ? Hact
    |body i c Hkind Hd ? ? Hact|body i c Hkind Hd Hact|body Hkind Hd|body s Hkind Hd]; subst;
    rewrite Hkind; try (destruct Hact as (Hi & Hc & [Htomb Hrev]%usable_true & Htip)).
  - unfold apply_announce. erewrite st_lift_Ok by
      (eapply body_as_intro; [unfold identity_record_from_record; by rewrite Hkind, Hd|done]).
    rewrite st_get_bind, st_reject_false by (by apply bool_decide_eq_false, eq_None_not_Some).
    by repeat run1.
  - unfold apply_liveness. erewrite st_lift_Ok by
      (eapply body_as_intro; [unfold identity_record_from_record; by rewrite Hkind, Hd|done]).
    by repeat run1.
  - unfold apply_rotation. erewrite st_lift_Ok by
      (eapply body_as_intro; [unfold identity_record_from_record; by rewrite Hkind, Hd|done]).
    do 8 run1.
    rewrite st_reject_false by (by apply N.leb_gt).
    rewrite st_reject_false by (by apply bool_decide_eq_false, eq_None_not_Some). done.
  - unfold apply_revoke. erewrite st_lift_Ok by
      (eapply body_as_intro; [unfold identity_record_from_record; by rewrite Hkind, Hd|done]).
    by repeat run1.
  - unfold apply_profile. erewrite st_lift_Ok by
      (eapply body_as_intro; [unfold identity_record_from_record; by rewrite Hkind, Hd|done]).
    by repeat run1.
  - unfold apply_server_register. do 5 run1. rewrite rs_len_view.
    destruct (lg_servers l !! sr_server_root body) as [s|] eqn:Es; [|done].
    rewrite st_reject_false by (apply N.leb_gt; eauto). done.
  - unfold apply_server_delist. by repeat run1.
Qed.

(** *** Accepted records preserve the invariant and the order *)

Lemma acts_on_keys l key i c :
  ledger_wf l → acts_on l key i c →
  lg_idk_to_chain l !! ch_root_idk c = Some i ∧ lg_idk_to_chain l !! ch_tip_idk c = Some i.
Proof. intros Hwf (_ & Hc & _). by apply (wf_keys _ Hwf). Qed.

Lemma wf_insert_server k s l :
  (∃ r b, view l !! ss_record_index s = Some r ∧ rec_kind r = ServerRegister ∧
          register_decode (rec_body r) = Ok b ∧ sr_server_root b = k ∧ rec_author r = k) →
  (∀ i, ss_owner_chain s = Some i → is_Some (lg_chains l !! i)) →
  ledger_wf l → ledger_wf (set_servers <[k := s]> l).
Proof.
  intros Hr Ho [W1 W2 W3 W4 W5 W6 W7 W8]. split; cbn; try done.
  intros k' s' [[<- <-]|[_ Hs]]%lookup_insert_Some; eauto.
Qed.

Lemma accepted_wf r l l' :
  record_verify_signature r = Ok tt → ledger_wf l → accepted r l l' → ledger_wf l'.
Proof.
  intros Hsig Hwf Hacc.
  assert (Hs : rec_kind r = Tombstone ∨ record_verify_signature r = Ok tt) by (by right).
  destruct Hacc as [body key ? ? Hk|body key i c ? ? Ha|body i c ? ? ? ? Ha ? Hk
    |body i c ? ? ? ? Ha|body i c ? ? Ha|body ? Hd Hauth|body s ? Hd ? Hl].
  - apply wf_push; [done|]. by apply (wf_new_chain (new_chain r body)).
  - apply wf_push; [done|]. apply wf_alter_chain; [|done]. intros c' Hc'.
    by destruct (wf_keys _ Hwf _ _ Hc').
  - apply wf_push; [done|].
    change (set_idk_to_chain ?g (set_chains ?f ?x)) with (set_chains f (set_idk_to_chain g x)).
    apply wf_alter_chain.
    + intros c' _. cbn. by rewrite lookup_insert_eq.
    + apply wf_insert_idk; [done| |done]. by destruct Ha as (_ & -> & _).
  - apply wf_push; [done|]. apply wf_delist, wf_alter_chain; [|done]. intros c' Hc'.
    by destruct (wf_keys _ Hwf _ _ Hc').
  - apply wf_push; [done|]. apply wf_alter_chain; [|done]. intros c' Hc'.
    by destruct (wf_keys _ Hwf _ _ Hc').
  - change (push_record_to ?x (set_servers ?f ?y)) with (set_servers f (push_record_to x y)).
    apply wf_insert_server; [| |by apply wf_push].
    + exists r, body. rewrite view_push. cbn. by rewrite list_lookup_middle.
    + intros i Hi. by apply (wf_idk _ Hwf) in Hi.
  - apply wf_push; [done|]. destruct (wf_servers _ Hwf _ _ Hl). by apply wf_insert_server.
Qed.

Lemma accepted_extends r l l' : accepted r l l' → extends l l'.
Proof.
  destruct 1 as [body key ? ? Hk|body key i c ? ? Ha|body i c ? ? ? ? Ha ? Hk
    |body i c ? ? ? ? Ha|body i c ? ? Ha|body ? Hd Hauth ? ? Hm|body s ? Hd ? Hl];
    try destruct Ha as (Hi & Hc & Hu & _).
  - eapply transitivity; [by apply (ext_new_chain (new_chain r body))|apply ext_push].
  - eapply transitivity; [apply ext_alter_chain|apply ext_push].
    intros c' Hc'. simplify_eq. by apply chain_le_touch.
  - eapply transitivity; [apply ext_alter_chain|eapply transitivity; [apply ext_insert_idk, Hk|apply ext_push]].
    intros c' Hc'. simplify_eq. by apply chain_le_rotate.
  - eapply transitivity; [apply ext_alter_chain|eapply transitivity; [apply ext_delist|apply ext_push]].
    intros c' Hc'. simplify_eq. by apply chain_le_revoke.
  - eapply transitivity; [apply ext_alter_chain|apply ext_push].
    intros c' Hc'. simplify_eq. by apply chain_le_profile.
  - eapply transitivity; [apply ext_insert_server|apply ext_push].
    intros s0 Hs0%Hm. cbn. lia.
  - eapply transitivity; [apply ext_insert_server|apply ext_push].
    intros s0 Hs0. simplify_eq. cbn. lia.
Qed.

(** *** [append] always returns, and an error changes nothing *)

Lemma never_err_push r : never_err (push_record r).
Proof. unfold push_record. auto with steps. Qed.

#[local] Ltac err_walk :=
  lazymatch goal with
  | |- err_safe (st_bind (st_modify _) _) =>
      apply err_safe_never; repeat lazymatch goal with |- never_err (st_bind _ _) =>
        apply never_err_bind; [apply never_err_modify|intros ?] end;
      apply never_err_push
  | |- err_safe (st_bind _ _) =>
      apply err_safe_bind; [first [solve [auto with steps] | case_match; auto with steps]|intros ?]
  | |- err_safe (st_index _) => apply err_safe_no_write, no_write_index
  | |- err_safe (match rec_kind ?r with _ => _ end) => destruct (rec_kind r)
  end.

Lemma append_err_safe r now_ms : err_safe (append r now_ms : Op bytes (S:=St)).
Proof.
  unfold append. do 4 err_walk. err_walk.
  - unfold apply_announce. repeat err_walk.
  - unfold apply_liveness. repeat err_walk.
  - unfold apply_rotation. repeat err_walk.
  - unfold apply_server_register. cbv zeta. repeat err_walk.
  - unfold apply_server_delist. repeat err_walk.
  - repeat err_walk.
  - unfold apply_revoke. repeat err_walk.
  - unfold apply_profile. repeat err_walk.
Qed.

#[local] Ltac total_walk :=
  lazymatch goal with
  | |- is_Some (push_record _ _) => unfold push_record, st_bind, st_modify, st_ret; eauto
  | |- is_Some (st_bind (st_index _) _ _) =>
      apply st_bind_total; [|let E := fresh "E" in intros ? ? E; inv_step]
  | |- is_Some (st_bind _ _ _) =>
      apply st_bind_total;
      [first [by eexists | case_match; by eexists]
      |let E := fresh "E" in intros ? ? E; first [inv_step | idtac]]
  end.

Lemma index_total l k i :
  ledger_wf l → lg_idk_to_chain l !! k = Some i →
  is_Some (st_index (E:=LedgerError) (lg_chains l !! i) l).
Proof. intros Hwf Hi. destruct (wf_idk _ Hwf _ _ Hi) as [c Hc]. unfold st_index. rewrite Hc. eauto. Qed.

Lemma append_total r now_ms l : ledger_wf l → is_Some (append r now_ms l).
Proof.
  intros Hwf. unfold append. repeat total_walk.
  match goal with E : bool_decide (_ = Tombstone) = false |- _ => apply bool_decide_eq_false in E end.
  destruct (rec_kind r); try done.
  - unfold apply_announce. repeat total_walk.
  - unfold apply_liveness. repeat total_walk. facts. by eapply index_total.
  - unfold apply_rotation. repeat total_walk. facts. by eapply index_total.
  - unfold apply_server_register. cbv zeta. repeat total_walk.
  - unfold apply_server_delist. repeat total_walk.
  - unfold apply_revoke. repeat total_walk. facts. by eapply index_total.
  - unfold apply_profile. repeat total_walk. facts. by eapply index_total.
Qed.

(** ** Evaporation *)

Definition tombstone_of (now_ms : N) (root : bytes) : record :=
  tombstone_to_record (mkTombstone root now_ms).

(** The effect of evaporating [roots] on one chain. *)
Definition bury (roots : list bytes) (c : Chain) : Chain :=
  if bool_decide (ch_root_idk c ∈ roots) then tombstone_chain c else c.

Lemma bury_root roots c : ch_root_idk (bury roots c) = ch_root_idk c.
Proof. unfold bury. by case_bool_decide. Qed.

Lemma bury_cons root roots c : bury roots (bury [root] c) = bury (root :: roots) c.
Proof.
  unfold bury. repeat (case_bool_decide; cbn [tombstone_chain ch_root_idk] in *); try done;
    set_solver.
Qed.

Lemma alter_bury l i c :
  ledger_wf l → lg_chains l !! i = Some c →
  alter tombstone_chain i (lg_chains l) = bury [ch_root_idk c] <$> lg_chains l.
Proof.
  intros Hwf Hc. apply list_eq. intros j. rewrite list_lookup_fmap.
  destruct (decide (i = j)) as [->|Hne].
  - rewrite list_lookup_alter_eq, Hc. cbn. f_equal. unfold bury.
    rewrite bool_decide_eq_true_2 by set_solver. done.
  - rewrite list_lookup_alter_ne by done. destruct (lg_chains l !! j) as [d|] eqn:Hd; [|done].
    cbn. f_equal. unfold bury. rewrite bool_decide_eq_false_2; [done|].
    intros E%list_elem_of_singleton.
    destruct (wf_keys _ Hwf _ _ Hc) as [Hi _], (wf_keys _ Hwf _ _ Hd) as [Hj _]. congruence.
Qed.

Lemma evaporate_step_wf now_ms i c l :
  ledger_wf l → lg_chains l !! i = Some c →
  let l' := push_record_to (tombstone_of now_ms (ch_root_idk c))
              (set_servers (delist_owned i) (set_chains (alter tombstone_chain i) l)) in
  ledger_wf l' ∧ extends l l'.
Proof.
  intros Hwf Hc. split.
  - apply wf_push; [by left|]. apply wf_delist, wf_alter_chain; [|done].
    intros c' Hc'. by destruct (wf_keys _ Hwf _ _ Hc').
  - eapply transitivity; [apply ext_alter_chain|eapply transitivity; [apply ext_delist|apply ext_push]].
    intros c' Hc'. apply chain_le_tombstone.
Qed.

Lemma evaporate_loop_spec now_ms roots l :
  ledger_wf l → (∀ root, root ∈ roots → ∃ i c, lg_chains l !! i = Some c ∧ ch_root_idk c = root) →
  ∃ l', evaporate_loop now_ms roots l = Some (Ok (record_id ∘ tombstone_of now_ms <$> roots), l') ∧
    ledger_wf l' ∧ extends l l' ∧
    view l' = view l ++ (tombstone_of now_ms <$> roots) ∧
    lg_idk_to_chain l' = lg_idk_to_chain l ∧
    lg_chains l' = bury roots <$> lg_chains l.
Proof.
  revert l. induction roots as [|root roots IH]; intros l Hwf Hroots.
  - exists l. split_and!; [done..|by rewrite app_nil_r|done|].
    symmetry. etrans; [|apply list_fmap_id]. apply list_fmap_ext. done.
  - destruct (Hroots root) as (i & c & Hc & <-); [by left|].
    destruct (wf_keys _ Hwf _ _ Hc) as [Hi _].
    destruct (evaporate_step_wf now_ms i c l Hwf Hc) as [Hwf1 Hext1].
    set (l1 := push_record_to _ _) in Hwf1, Hext1.
    destruct (IH l1 Hwf1) as (l' & Hrun & Hwf' & Hext' & Hv & Hk & Hch).
    { intros root' Hin. destruct (Hroots root') as (j & d & Hd & <-); [by right|].
      destruct (ext_chain _ _ Hext1 _ _ Hd) as (d' & Hd' & []). eauto. }
    exists l'. split_and!; [|done|by trans l1| |done|].
    + cbn [evaporate_loop]. rewrite st_get_bind, (st_index_Some _ _ _ _ Hi),
        (st_index_Some _ _ _ _ Hc), !st_modify_bind. unfold push_record.
      unfold st_bind, st_modify, st_ret. subst l1.
      unfold tombstone_of at 1 in Hrun. rewrite Hrun. done.
    + rewrite Hv. unfold l1. rewrite view_push. cbn. by rewrite <- app_assoc.
    + rewrite Hch. subst l1. cbn [push_record_to set_servers set_chains lg_chains].
      rewrite (alter_bury _ _ _ Hwf Hc), <- list_fmap_compose.
      apply list_fmap_ext. intros _ d _. apply bury_cons.
Qed.

Lemma eligible_elem now_ms l root :
  root ∈ eligible now_ms l ↔
  ∃ c, c ∈ lg_chains l ∧ ch_root_idk c = root ∧ expired (lg_params l) now_ms c = true.
Proof.
  unfold eligible. rewrite merge_sort_Permutation, list_elem_of_fmap.
  setoid_rewrite list_elem_of_filter. naive_solver.
Qed.

Lemma eligible_sorted now_ms l : StronglySorted bytes_ordered (eligible now_ms l).
Proof. apply StronglySorted_merge_sort; apply _. Qed.

Lemma chains_unique l i j c d :
  ledger_wf l → lg_chains l !! i = Some c → lg_chains l !! j = Some d →
  ch_root_idk c = ch_root_idk d → i = j.
Proof.
  intros Hwf Hc Hd E. destruct (wf_keys _ Hwf _ _ Hc) as [Hi _], (wf_keys _ Hwf _ _ Hd) as [Hj _].
  congruence.
Qed.

(** Exactly the expired chains are tombstoned, and every one of them gets
    one tombstone record, in ascending order of root key. *)
Lemma evaporate_spec now_ms l :
  ledger_wf l →
  ∃ l', evaporate now_ms l =
      Some (Ok (record_id ∘ tombstone_of now_ms <$> eligible now_ms l), l') ∧
    ledger_wf l' ∧ extends l l' ∧
    view l' = view l ++ (tombstone_of now_ms <$> eligible now_ms l) ∧
    lg_idk_to_chain l' = lg_idk_to_chain l ∧
    lg_chains l' =
      (λ c, if expired (lg_params l) now_ms c then tombstone_chain c else c) <$> lg_chains l.
Proof.
  intros Hwf. destruct (evaporate_loop_spec now_ms (eligible now_ms l) l Hwf)
    as (l' & Hrun & ? & ? & ? & ? & Hch).
  { intros root (c & [i Hc]%list_elem_of_lookup & <- & _)%eligible_elem. eauto. }
  exists l'. split_and!; try done. rewrite Hch. apply list_fmap_ext. intros i c Hc. unfold bury.
  destruct (expired (lg_params l) now_ms c) eqn:He.
  - rewrite bool_decide_eq_true_2; [done|]. apply eligible_elem. exists c. split; [|done].
    by eapply list_elem_of_lookup_2.
  - rewrite bool_decide_eq_false_2; [done|].
    intros (d & [j Hd]%list_elem_of_lookup & E & He')%eligible_elem.
    pose proof (chains_unique _ _ _ _ _ Hwf Hd Hc E) as ->. congruence.
Qed.

(** A second run at the same time finds nothing to do. *)
Lemma evaporate_again now_ms l ids l' :
  ledger_wf l → evaporate now_ms l = Some (Ok ids, l') → evaporate now_ms l' = Some (Ok [], l').
Proof.
  intros Hwf Hrun. destruct (evaporate_spec now_ms l Hwf) as (l1 & Hrun1 & Hwf' & Hext & _ & _ & Hch).
  assert (l1 = l') as -> by congruence.
  assert (eligible now_ms l' = []) as He.
  { unfold eligible. rewrite Hch, (ext_params _ _ Hext).
    enough (base.filter (λ c, expired (lg_params l) now_ms c = true)
      ((λ c, if expired (lg_params l) now_ms c then tombstone_chain c else c) <$> lg_chains l) = [])
      as -> by done.
    clear Hch. induction (lg_chains l) as [|c cs IH]; [done|].
    rewrite fmap_cons, filter_cons_False; [done|].
    destruct (expired (lg_params l) now_ms c) eqn:E; [by unfold expired|by rewrite E]. }
  unfold evaporate. rewrite st_get_bind, He. done.
Qed.

(** Replicas whose chains differ only in order append the same suffix. *)
Lemma eligible_perm now_ms l l' :
  lg_params l = lg_params l' → lg_chains l ≡ₚ lg_chains l' →
  eligible now_ms l = eligible now_ms l'.
Proof. intros Hp Hc. unfold eligible. rewrite Hp. by apply merge_sort_perm; rewrite Hc. Qed.

(** ** Histories *)

Inductive ledger_step l : Ledger St → Prop :=
  | ls_append r now_ms res l' : append r now_ms l = Some (res, l') → ledger_step l l'
  | ls_evaporate now_ms res l' : evaporate now_ms l = Some (res, l') → ledger_step l l'.

(** Any sequence of submissions (accepted or refused) and evaporations. *)
Definition evolves : relation (Ledger St) := rtc ledger_step.

Lemma step_ok l l' : ledger_wf l → ledger_step l l' → ledger_wf l' ∧ extends l l'.
Proof.
  intros Hwf [r now_ms [id|e] l1 Hr|now_ms res l1 Hr].
  - apply append_inv in Hr as ((_ & _ & _ & Hs) & Ha & _).
    split; [by eapply accepted_wf|by eapply accepted_extends].
  - by apply append_err_safe in Hr as ->.
  - destruct (evaporate_spec now_ms l Hwf) as (l2 & Hrun & ? & ? & _).
    rewrite Hrun in Hr. by injection Hr as <- <-.
Qed.

Lemma evolves_ok l l' : ledger_wf l → evolves l l' → ledger_wf l' ∧ extends l l'.
Proof.
  intros Hwf Hev. induction Hev as [l|l l1 l2 Hstep _ IH]; [done|].
  destruct (step_ok _ _ Hwf Hstep) as [Hwf1 ?]. destruct (IH Hwf1). split; [done|by trans l1].
Qed.

Lemma new_wf store params l : ledger_new store params = Some l → ledger_wf l.
Proof.
  unfold ledger_new. destruct (rs_len store =? 0)%nat eqn:E; [|done]. intros [= <-].
  apply Nat.eqb_eq in E. rewrite rs_len_view in E. apply nil_length_inv in E.
  split; unfold view; cbn; rewrite ?E; try done.
Qed.

Lemma len_leaves l : ledger_wf l → length (lg_leaves l) = ledger_len l.
Proof. intros Hwf. unfold ledger_len. rewrite (wf_leaves _ Hwf), length_fmap. by rewrite rs_len_view. Qed.

Lemma leaves_prefix l l' :
  ledger_wf l → ledger_wf l' → extends l l' →
  lg_leaves l = take (ledger_len l) (lg_leaves l') ∧ ledger_len l ≤ ledger_len l'.
Proof.
  intros Hwf Hwf' Hext. destruct (ext_view _ _ Hext) as [k Hk].
  rewrite <- (len_leaves l Hwf), <- (len_leaves l' Hwf').
  rewrite (wf_leaves _ Hwf), (wf_leaves _ Hwf'), Hk, fmap_app, length_app.
  split; [by rewrite take_app_length|lia].
Qed.

(** Any earlier head is provably a prefix of any later one. *)
Lemma history_consistent l l' :
  ledger_wf l → evolves l l' → 1 ≤ ledger_len l →
  ∃ p, ledger_consistency_proof l' (ledger_len l) = Some p ∧
    verify_consistency (ledger_len l) (ledger_len l')
      (th_root (ledger_head l)) (th_root (ledger_head l')) p = true.
Proof.
  intros Hwf Hev H1'. destruct (evolves_ok _ _ Hwf Hev) as [Hwf' Hext].
  destruct (leaves_prefix _ _ Hwf Hwf' Hext) as [Hl Hle].
  unfold ledger_consistency_proof. cbn [ledger_head th_root].
  rewrite <- (len_leaves l' Hwf') in *. rewrite Hl.
  by apply consistency_complete.
Qed.

Lemma inclusion_available l i r :
  ledger_wf l → view l !! i = Some r →
  ∃ j r' path, ledger_inclusion_proof l (record_id r) = Some (j, path) ∧
    ledger_record l j = Some r' ∧ record_id r' = record_id r ∧
    verify_inclusion j (ledger_len l) (leaf_hash (record_encode r')) path
      (th_root (ledger_head l)) = true.
Proof.
  intros Hwf Hi. destruct (wf_stored _ Hwf _ _ Hi) as [j Hj].
  destruct (wf_by_id _ Hwf _ _ Hj) as (r' & Hr' & Hid).
  assert (Hleaf : lg_leaves l !! j = Some (leaf_hash (record_encode r')))
    by (by rewrite (wf_leaves _ Hwf), list_lookup_fmap, Hr').
  destruct (inclusion_complete _ _ _ Hleaf) as (path & Hp & Hv).
  exists j, r', path. unfold ledger_inclusion_proof. rewrite Hj. cbn. rewrite Hp. cbn.
  rewrite <- (len_leaves _ Hwf). split_and!; try done.
  - unfold ledger_record. by rewrite rs_get_view.
  - by apply bool_decide_eq_true_2.
Qed.

(** *** Replay protection *)

(** Why a record cannot be accepted any more. *)
Definition settled r l : Prop :=
  match rec_kind r with
  | IdentityAnnounce => is_Some (lg_idk_to_chain l !! rec_author r)
  | LivenessProof | IdentityRevoke =>
      ∃ i c, lg_idk_to_chain l !! rec_author r = Some i ∧ lg_chains l !! i = Some c ∧
             (rec_created_ms r ≤ ch_last_activity_ms c)%N
  | IdentityProfile =>
      ∃ i c, lg_idk_to_chain l !! rec_author r = Some i ∧ lg_chains l !! i = Some c ∧
             (rec_created_ms r ≤ ch_profile_ms c)%N
  | KeyRotation =>
      ∃ b, rotation_decode (rec_body r) = Ok b ∧ is_Some (lg_idk_to_chain l !! kr_new_idk b)
  | ServerRegister =>
      ∃ b s, register_decode (rec_body r) = Ok b ∧
             lg_servers l !! sr_server_root b = Some s ∧ (rec_created_ms r ≤ ss_last_ms s)%N
  | ServerDelist =>
      ∃ b s, delist_decode (rec_body r) = Ok b ∧
             lg_servers l !! sd_server_root b = Some s ∧ (rec_created_ms r ≤ ss_last_ms s)%N
  | Tombstone => True
  end.

Lemma ext_chain_at l l' k i c :
  extends l l' → lg_idk_to_chain l !! k = Some i → lg_chains l !! i = Some c →
  ∃ c', lg_idk_to_chain l' !! k = Some i ∧ lg_chains l' !! i = Some c' ∧ chain_le c c'.
Proof.
  intros Hext Hi Hc. destruct (ext_chain _ _ Hext _ _ Hc) as (c' & ? & ?).
  exists c'. split; [|done]. by eapply lookup_weaken, ext_idk.
Qed.

Lemma settled_extends r l l' : extends l l' → settled r l → settled r l'.
Proof.
  intros Hext. unfold settled. destruct (rec_kind r); try done.
  - intros [i Hi]. exists i. by eapply lookup_weaken, ext_idk.
  - intros (i & c & Hi & Hc & ?). destruct (ext_chain_at _ _ _ _ _ Hext Hi Hc) as (c' & ? & ? & []).
    exists i, c'. split_and!; [done..|lia].
  - intros (b & ? & i & Hi). exists b. split; [done|]. exists i. by eapply lookup_weaken, ext_idk.
  - intros (b & s & ? & Hs & ?). destruct (ext_server _ _ Hext _ _ Hs) as (s' & ? & ?).
    exists b, s'. split_and!; [done..|lia].
  - intros (b & s & ? & Hs & ?). destruct (ext_server _ _ Hext _ _ Hs) as (s' & ? & ?).
    exists b, s'. split_and!; [done..|lia].
  - intros (i & c & Hi & Hc & ?). destruct (ext_chain_at _ _ _ _ _ Hext Hi Hc) as (c' & ? & ? & []).
    exists i, c'. split_and!; [done..|lia].
  - intros (i & c & Hi & Hc & ?). destruct (ext_chain_at _ _ _ _ _ Hext Hi Hc) as (c' & ? & ? & []).
    exists i, c'. split_and!; [done..|lia].
Qed.

Lemma settled_after r l l' : accepted r l l' → settled r l'.
Proof.
  unfold settled.
  destruct 1 as [body key Hk|body key i c Hk ? Ha|body i c Hk ? ? ? Ha
    |body i c Hk ? ? ? Ha|body i c Hk ? Ha|body Hk Hd|body s Hk Hd]; rewrite Hk; cbn;
    try destruct Ha as (Hi & Hc & _).
  - rewrite lookup_insert_eq. eauto.
  - exists i, (touch_chain (rec_created_ms r) c). rewrite list_lookup_alter_eq, Hc. cbn. auto with lia.
  - exists body. split; [done|]. rewrite lookup_insert_eq. eauto.
  - exists i, (revoke_chain (rec_created_ms r) c). rewrite list_lookup_alter_eq, Hc. cbn. auto with lia.
  - eexists i, _. rewrite list_lookup_alter_eq, Hc. cbn. split_and!; [done..|cbn; lia].
  - eexists body, _. rewrite lookup_insert_eq. split_and!; [done..|cbn; lia].
  - eexists body, _. rewrite lookup_insert_eq. split_and!; [done..|cbn; lia].
Qed.

Lemma settled_refused r l l' : settled r l → ¬ accepted r l l'.
Proof.
  unfold settled. intros Hb Ha.
  destruct Ha as [body key Hk Hd Hn|body key i c Hk ? (Hi & Hc & _)|body i c Hk Hd ? ? _ ? Hn
    |body i c Hk ? ? ? (Hi & Hc & _)|body i c Hk ? (Hi & Hc & _)|body Hk Hd ? ? ? Hs
    |body s Hk Hd ? Hs]; rewrite Hk in Hb.
  - destruct Hb as [? Hb]. congruence.
  - destruct Hb as (i' & c' & ? & ? & ?). simplify_eq. lia.
  - destruct Hb as (b & Hb & Hex). destruct Hex as [? Hex]. congruence.
  - destruct Hb as (i' & c' & ? & ? & ?). simplify_eq. lia.
  - destruct Hb as (i' & c' & ? & ? & ?). simplify_eq. lia.
  - destruct Hb as (b & s & Hb & Hl & ?). assert (b = body) as -> by congruence.
    apply Hs in Hl. lia.
  - destruct Hb as (b & s' & Hb & Hl & ?). assert (b = body) as -> by congruence.
    assert (s' = s) as -> by congruence. lia.
Qed.

Lemma no_replay r now_ms now' l l1 l2 id res l3 :
  ledger_wf l → append r now_ms l = Some (Ok id, l1) → evolves l1 l2 →
  append r now' l2 = Some (res, l3) → is_ok res = false.
Proof.
  intros Hwf Ha Hev Hr. apply append_inv in Ha as ((_ & _ & _ & Hs) & Ha & _).
  assert (Hwf1 : ledger_wf l1) by by eapply accepted_wf.
  destruct (evolves_ok _ _ Hwf1 Hev) as [_ Hext].
  destruct res as [id'|e]; [|done]. apply append_inv in Hr as (_ & Hr & _).
  exfalso. eapply settled_refused; [|exact Hr]. eapply settled_extends, settled_after, Ha. done.
Qed.

(** *** Identity *)

Lemma identity_id_stable l l' k id :
  extends l l' → identity_id l k = Some id → identity_id l' k = Some id.
Proof.
  intros Hext. unfold identity_id, chain_of.
  destruct (lg_idk_to_chain l !! k) as [i|] eqn:Hi; [|done]. cbn.
  destruct (lg_chains l !! i) as [c|] eqn:Hc; [|done]. cbn.
  destruct (ext_chain_at _ _ _ _ _ Hext Hi Hc) as (c' & -> & Hc' & []). cbn. by rewrite Hc', <- cl_root0.
Qed.

Lemma rotation_same_identity r l l' body :
  rec_kind r = KeyRotation → rotation_decode (rec_body r) = Ok body → accepted r l l' →
  identity_id l' (kr_new_idk body) = identity_id l (kr_prev_idk body) ∧
  tip_key l' (kr_new_idk body) = Some (kr_new_idk body) ∧
  tip_key l' (kr_prev_idk body) = Some (kr_new_idk body) ∧
  agreement_key l' (kr_prev_idk body) = Some (kr_new_ik body).
Proof.
  intros Hk Hd Ha. destruct Ha as [| |b i c ? Hd' ? ? (Hi & Hc & Hu & Ht) ? Hn| | | |]; try congruence.
  assert (b = body) as -> by congruence.
  unfold identity_id, tip_key, agreement_key, chain_of. cbn.
  assert (kr_prev_idk body ≠ kr_new_idk body) by congruence.
  rewrite lookup_insert_eq, lookup_insert_ne by done. rewrite Hi. cbn.
  rewrite list_lookup_alter_eq, Hc. cbn.
  replace (chain_usable (rotate_chain _ _ _ c)) with true by by symmetry. done.
Qed.

Lemma unusable_forever l l' k c :
  extends l l' → chain_of l k = Some c → chain_usable c = false →
  is_live l' k = false ∧ agreement_key l' k = None ∧ tip_key l' k = None ∧
  ∃ c', chain_of l' k = Some c' ∧ ch_tip_idk c' = ch_tip_idk c ∧
    ch_last_activity_ms c' = ch_last_activity_ms c ∧ ch_avatar_hash c' = ch_avatar_hash c ∧
    ch_status c' = ch_status c.
Proof.
  intros Hext Hc Hu. unfold chain_of in Hc.
  destruct (lg_idk_to_chain l !! k) as [i|] eqn:Hi; [|done]. cbn in Hc.
  destruct (ext_chain_at _ _ _ _ _ Hext Hi Hc) as (c' & Hi' & Hc' & Hle).
  assert (Hk : chain_of l' k = Some c') by (unfold chain_of; by rewrite Hi').
  pose proof (chain_le_unusable _ _ Hle Hu) as Hu'. destruct (cl_frozen _ _ Hle Hu) as (? & ? & ? & ? & ?).
  unfold is_live, agreement_key, tip_key. rewrite Hk. cbn. rewrite Hu'. split_and!; try done. eauto 10.
Qed.

(** *** Who may change a chain *)

Lemma chain_authority r l l' i c c' :
  accepted r l l' → lg_chains l !! i = Some c → lg_chains l' !! i = Some c' → c' ≠ c →
  chain_usable c = true ∧
  ((rec_author r = ch_tip_idk c ∧ ch_tip_idk c' = ch_tip_idk c) ∨
   (∃ b, rotation_decode (rec_body r) = Ok b ∧ kr_prev_idk b = ch_tip_idk c ∧
         ch_tip_idk c' = rec_author r ∧
         prim_verify_strict (ch_tip_idk c)
           (link_challenge (ch_tip_idk c) (rec_author r) (ch_tip_ik c')) (kr_link_sig b) = true)).
Proof.
  intros Ha Hc Hc' Hne.
  destruct Ha as [body key ? ? Hk|body key j d ? ? (Hi & Hd & Hu & Ht)
    |body j d ? ? Hau Hv (Hi & Hd & Hu & Ht)|body j d ? ? ? ? (Hi & Hd & Hu & Ht)
    |body j d ? ? (Hi & Hd & Hu & Ht)|body|body s]; cbn in Hc'.
  - rewrite (lookup_app_l_Some _ _ _ _ Hc) in Hc'. congruence.
  - apply lookup_alter_Some_inv in Hc' as (x & Hx & [->|[-> ->]]); simplify_eq. eauto.
  - apply lookup_alter_Some_inv in Hc' as (x & Hx & [->|[-> ->]]); simplify_eq.
    apply rotation_verify_inv in Hv as [_ Hv]. split; [done|]. right. exists body.
    rewrite Ht, Hau. done.
  - apply lookup_alter_Some_inv in Hc' as (x & Hx & [->|[-> ->]]); simplify_eq. eauto.
  - apply lookup_alter_Some_inv in Hc' as (x & Hx & [->|[-> ->]]); simplify_eq. eauto.
  - congruence.
  - congruence.
Qed.

Lemma profile_keeps_activity r l l' k :
  rec_kind r = IdentityProfile → accepted r l l' → last_activity l' k = last_activity l k.
Proof.
  intros Hk Ha. destruct Ha as [| | | |body i c Hkind Hd (Hi & Hc & _)| |]; try congruence.
  unfold last_activity, chain_of. cbn.
  destruct (lg_idk_to_chain l !! k) as [j|]; [|done]. cbn.
  destruct (decide (i = j)) as [->|?]; [|by rewrite list_lookup_alter_ne].
  rewrite list_lookup_alter_eq. by destruct (lg_chains l !! j).
Qed.

(** *** The server directory *)

Lemma discoverable_authentic l reg :
  ledger_wf l → reg ∈ discoverable_servers l →
  ∃ i r, view l !! i = Some r ∧ register_decode (rec_body r) = Ok reg ∧
    rec_author r = sr_server_root reg ∧ record_verify_signature r = Ok tt ∧
    sr_discoverable reg = true.
Proof.
  intros Hwf. unfold discoverable_servers. rewrite list_elem_of_omap.
  intros ([k s] & Hin%elem_of_map_to_list & Hs). cbn in Hs.
  destruct (ss_delisted s); [done|].
  destruct (wf_servers _ Hwf _ _ Hin) as [(r & b & Hr & Hk & Hd & Hb & Ha) _].
  rewrite rs_get_view in Hs. change (rs_view (lg_store l)) with (view l) in Hs.
  rewrite Hr in Hs. cbn in Hs. rewrite Hd in Hs.
  destruct (sr_discoverable b) eqn:Hdisc; [|done]. injection Hs as <-.
  exists (ss_record_index s), r. split_and!; try done; [congruence|].
  destruct (wf_signed _ Hwf _ _ Hr); [congruence|done].
Qed.
End proofs.
