(* ===== verification/LedgerTheorems.v ===== *)
(** * What the ledger promises

    The properties of [dante-ledger], for every ledger that any sequence of
    submissions and evaporations can produce. *)

From S2P Require Import Prelude Utf8 Enc Crypto Merkle ProtoRecord IdentityRecords Server Ledger LedgerProofs.

(** A small scenario over the toy primitives: Ada announces, proves she is
    alive, changes her profile, registers a server under her own key, rotates
    her key and revokes the new one. *)
Module LedgerDemo.
#[local] Existing Instance Toy.prims.
Definition sk (n : N) : bytes := replicate 32 (n2b n).
Definition key (n : N) : bytes := prim_vk_of_sk (sk n).
Definition ik (n : N) : bytes := prim_x25519_public (sk n).
Definition pow : PowProof := mkPowProof 32 1 8 (replicate 16 x00).
Definition params : LedgerParams := mkParams 1000 4 4 0 0.
Definition signed (n : N) (k : RecordKind) (body : bytes) (t : N) : record :=
  record_seal_with k body (key n) t (prim_sign (sk n)).
Definition ada_announce : record :=
  signed 1 IdentityAnnounce
    (announce_encode (announce_from_proof (prim_sign (sk 1)) (lit "ada") (ik 1) pow)) 10.
Definition liveness : record := signed 1 LivenessProof (liveness_encode (mkLiveness pow)) 20.
Definition profile : record :=
  signed 1 IdentityProfile (profile_encode (mkProfile None (Some (lit "busy")))) 25.
Definition server (t : N) : record :=
  signed 1 ServerRegister
    (register_encode (mkRegister (key 1) (lit "maps") [] [] [] true [] pow)) t.
Definition rot_body : RotationBody :=
  rotation_build (key 1) (prim_sign (sk 1)) (key 2) (ik 2) (prim_sign (sk 2)).
Definition rotation : record := signed 2 KeyRotation (rotation_encode rot_body) 30.
Definition revoke : record :=
  signed 2 IdentityRevoke (revoke_encode (mkRevoke (key 2) Retired)) 40.

Definition empty : Ledger MemoryStore := mkLedger (mkMemoryStore []) params [] ∅ ∅ ∅ [] ∅.
Definition after {A} (r : option (result A LedgerError * Ledger MemoryStore)) : Ledger MemoryStore :=
  match r with Some (_, l) => l | None => empty end.
Definition l1 := after (append ada_announce 100 empty).
Definition l2 := after (append liveness 100 l1).
Definition l3 := after (append (server 22) 100 l2).
Definition l4 := after (append rotation 100 l3).
Definition l5 := after (append revoke 100 l4).
(** The branch in which Ada revokes her first key, which owns the server. *)
Definition l6 := after (append (signed 1 IdentityRevoke
                          (revoke_encode (mkRevoke (key 1) Retired)) 40) 100 l3).
Definition server_body : RegisterBody := mkRegister (key 1) (lit "maps") [] [] [] true [] pow.
End LedgerDemo.

Section theorems.
Context `{CryptoPrims} {St : Type} `{RecordStoreLaws St}.
Implicit Types l : Ledger St.
Implicit Types r : record.

(** The ledgers a node can have: a new one and what it evolves to. *)
Definition reachable l : Prop :=
  ∃ store params l0, ledger_new store params = Some l0 ∧ evolves l0 l.

Lemma reachable_wf l : reachable l → ledger_wf l.
Proof.
  intros (store & params & l0 & Hn & Hev). eapply new_wf in Hn. by eapply evolves_ok in Hev as [? _].
Qed.

(** C1: [append] refines its specification. It accepts a record exactly when
    the header is acceptable and one of the seven transitions of [accepted]
    applies, and then moves to that transition's state and returns the
    record's id. *)
Theorem append_refines_spec r now_ms l id l' :
  append r now_ms l = Some (Ok id, l') ↔
  header_ok r now_ms ∧ accepted r l l' ∧ id = record_id r.
Proof.
  split; [apply append_inv|]. intros (? & ? & ->). by apply append_intro.
Qed.

(** C7: [append] never panics and keeps the ledger well-formed; when it
    refuses a record it changes nothing at all. *)
Theorem append_safe r now_ms l :
  reachable l →
  ∃ res l', append r now_ms l = Some (res, l') ∧ ledger_wf l' ∧
    (is_ok res = false → l' = l).
Proof.
  intros Hwf%reachable_wf. destruct (append_total r now_ms l Hwf) as [[res l'] Hr].
  exists res, l'. split; [done|]. split.
  - by eapply step_ok in Hwf as [? _]; [|by eapply ls_append].
  - destruct res as [id|e]; [done|]. intros _. by eapply append_err_safe.
Qed.

(** C2: history is append-only, provably. From any head a ledger has had
    with at least one record, to any head it has later, the consistency
    proof it serves is accepted by the verifier. *)
Theorem history_provable l l' :
  reachable l → evolves l l' → (1 ≤ ledger_len l)%nat →
  view l `prefix_of` view l' ∧
  ∃ p, ledger_consistency_proof l' (ledger_len l) = Some p ∧
    verify_consistency (ledger_len l) (ledger_len l')
      (th_root (ledger_head l)) (th_root (ledger_head l')) p = true.
Proof.
  intros Hwf%reachable_wf Hev Hl. split; [|by apply history_consistent].
  by destruct (evolves_ok _ _ Hwf Hev) as [_ []].
Qed.

(** Every stored record can be proved to be in the log: its inclusion
    proof is served under its id and verifies against the current head. *)
Theorem stored_records_provable l i r :
  reachable l → ledger_record l i = Some r →
  ∃ j r' path, ledger_inclusion_proof l (record_id r) = Some (j, path) ∧
    ledger_record l j = Some r' ∧ record_id r' = record_id r ∧
    verify_inclusion j (ledger_len l) (leaf_hash (record_encode r')) path
      (th_root (ledger_head l)) = true.
Proof.
  intros Hwf%reachable_wf. unfold ledger_record at 1. rewrite rs_get_view.
  by apply inclusion_available.
Qed.

(** C3: no replay. Once accepted, a record is refused for ever, at any time
    and after any further history. *)
Theorem append_no_replay r now_ms now' l l1 l2 id res l3 :
  reachable l → append r now_ms l = Some (Ok id, l1) → evolves l1 l2 →
  append r now' l2 = Some (res, l3) → is_ok res = false.
Proof. intros Hwf%reachable_wf. by apply no_replay. Qed.

(** C4: only the current key acts on an identity. If an accepted record
    changes a chain, the chain was usable, the record's signature verified,
    and either the record is signed by the chain's current key, which stays,
    or it is a rotation that carries the current key's signature over the
    new keys. *)
Theorem only_current_key_acts r now_ms l id l' i c c' :
  append r now_ms l = Some (Ok id, l') →
  lg_chains l !! i = Some c → lg_chains l' !! i = Some c' → c' ≠ c →
  chain_usable c = true ∧ record_verify_signature r = Ok tt ∧
  ((rec_author r = ch_tip_idk c ∧ ch_tip_idk c' = ch_tip_idk c) ∨
   (∃ b, rotation_decode (rec_body r) = Ok b ∧ kr_prev_idk b = ch_tip_idk c ∧
         ch_tip_idk c' = rec_author r ∧
         prim_verify_strict (ch_tip_idk c)
           (link_challenge (ch_tip_idk c) (rec_author r) (ch_tip_ik c')) (kr_link_sig b) = true)).
Proof.
  intros ((_ & _ & _ & Hs) & Ha & _)%append_inv Hc Hc' Hne.
  destruct (chain_authority _ _ _ _ _ _ Ha Hc Hc' Hne) as [? ?]. done.
Qed.

(** Revocation and evaporation are permanent. A chain that is not usable
    never resolves to a key again, and keeps its keys, profile and activity
    whatever is submitted later. *)
Theorem unusable_is_permanent l l' k c :
  reachable l → evolves l l' → chain_of l k = Some c → chain_usable c = false →
  is_live l' k = false ∧ agreement_key l' k = None ∧ tip_key l' k = None ∧
  ∃ c', chain_of l' k = Some c' ∧ ch_tip_idk c' = ch_tip_idk c ∧
    ch_last_activity_ms c' = ch_last_activity_ms c ∧ ch_avatar_hash c' = ch_avatar_hash c ∧
    ch_status c' = ch_status c.
Proof.
  intros Hwf%reachable_wf Hev. destruct (evolves_ok _ _ Hwf Hev) as [_ Hext].
  by apply unusable_forever.
Qed.

(** an identity keeps its id. Rotating resolves both the old and the new
    key to the new key pair and to the identity the old key had, and no later
    history changes the id any key resolves to. *)
Theorem identity_survives_rotation r now_ms l id l1 l2 body :
  reachable l → rec_kind r = KeyRotation → rotation_decode (rec_body r) = Ok body →
  append r now_ms l = Some (Ok id, l1) → evolves l1 l2 →
  tip_key l1 (kr_prev_idk body) = Some (kr_new_idk body) ∧
  agreement_key l1 (kr_prev_idk body) = Some (kr_new_ik body) ∧
  ∀ x, identity_id l (kr_prev_idk body) = Some x →
    identity_id l1 (kr_new_idk body) = Some x ∧
    identity_id l2 (kr_prev_idk body) = Some x ∧ identity_id l2 (kr_new_idk body) = Some x.
Proof.
  intros Hwf%reachable_wf Hk Hd Ha Hev.
  destruct (step_ok _ _ Hwf (ls_append _ _ _ _ _ Ha)) as [Hwf1 Hext1].
  destruct (evolves_ok _ _ Hwf1 Hev) as [_ Hext].
  apply append_inv in Ha as (_ & Ha & _).
  destruct (rotation_same_identity _ _ _ _ Hk Hd Ha) as (Hid & ? & ? & ?).
  split_and!; [done..|]. intros x Hx. rewrite Hid. split_and!; [done| |].
  - eapply identity_id_stable; [|exact Hx]. by trans l1.
  - eapply identity_id_stable; [done|]. by rewrite Hid.
Qed.

(** C39: evaporation is exact. It always runs to the end; it tombstones
    exactly the chains not yet tombstoned and inactive for longer than the
    limit, appends one tombstone for each in ascending order of root key,
    and leaves every other chain as it was. *)
Theorem evaporate_exact now_ms l :
  reachable l →
  ∃ l', evaporate now_ms l =
      Some (Ok (record_id ∘ tombstone_of now_ms <$> eligible now_ms l), l') ∧
    view l' = view l ++ (tombstone_of now_ms <$> eligible now_ms l) ∧
    lg_chains l' =
      (λ c, if expired (lg_params l) now_ms c then tombstone_chain c else c) <$> lg_chains l ∧
    StronglySorted bytes_ordered (eligible now_ms l) ∧
    (∀ root, root ∈ eligible now_ms l ↔
       ∃ c, c ∈ lg_chains l ∧ ch_root_idk c = root ∧ expired (lg_params l) now_ms c = true).
Proof.
  intros Hwf%reachable_wf. destruct (evaporate_spec now_ms l Hwf) as (l' & ? & _ & _ & ? & _ & ?).
  exists l'. split_and!; try done; [apply eligible_sorted|apply eligible_elem].
Qed.

(** Evaporation is idempotent, and replicas agree on it. Running it
    again at the same time appends nothing; and two ledgers with the same
    parameters whose chains differ only in order append the same records. *)
Theorem evaporate_deterministic now_ms l :
  reachable l →
  (∀ ids l', evaporate now_ms l = Some (Ok ids, l') → evaporate now_ms l' = Some (Ok [], l')) ∧
  (∀ k ids l' ids' k', reachable k → lg_params k = lg_params l → lg_chains k ≡ₚ lg_chains l →
     evaporate now_ms l = Some (Ok ids, l') → evaporate now_ms k = Some (Ok ids', k') →
     ids' = ids ∧ ∃ suffix, view l' = view l ++ suffix ∧ view k' = view k ++ suffix).
Proof.
  intros Hwf%reachable_wf. split; [intros; by eapply evaporate_again|].
  intros k ids l' ids' k' Hk%reachable_wf Hp Hc Hl Hk'.
  destruct (evaporate_spec now_ms l Hwf) as (? & E1 & _ & _ & V1 & _).
  destruct (evaporate_spec now_ms k Hk) as (? & E2 & _ & _ & V2 & _).
  rewrite (eligible_perm _ _ _ Hp Hc) in *. rewrite E1 in Hl. rewrite E2 in Hk'.
  simplify_eq. eauto.
Qed.

(** The directory shows only signed entries. Every server listed as
    discoverable is the body of a stored record whose signature verified
    under the server's own root key. *)
Theorem directory_authentic l reg :
  reachable l → reg ∈ discoverable_servers l →
  ∃ i r, view l !! i = Some r ∧ register_decode (rec_body r) = Ok reg ∧
    rec_author r = sr_server_root reg ∧ record_verify_signature r = Ok tt ∧
    sr_discoverable reg = true.
Proof. intros Hwf%reachable_wf. by apply discoverable_authentic. Qed.

(** But delisting by revocation does not last. A revoked identity's key
    can register the same server again: the handler never looks at the state
    of the owner's chain, and the new entry is listed. *)
Theorem revoked_owner_relists r now_ms l body i c :
  header_ok r now_ms → rec_kind r = ServerRegister →
  register_decode (rec_body r) = Ok body → rec_author r = sr_server_root body →
  lg_idk_to_chain l !! rec_author r = Some i → lg_chains l !! i = Some c → ch_revoked c = true →
  register_validate body = Ok tt →
  pow_verify (register_challenge (sr_server_root body)) (sr_pow body)
    (lp_min_announce_pow_bits (lg_params l)) (lp_min_pow_m_cost_kib (lg_params l))
    (lp_min_pow_t_cost (lg_params l)) = Ok tt →
  (∀ s, lg_servers l !! sr_server_root body = Some s → (ss_last_ms s < rec_created_ms r)%N) →
  ∃ l', append r now_ms l = Some (Ok (record_id r), l') ∧
    ss_delisted <$> lg_servers l' !! sr_server_root body = Some false.
Proof.
  intros Hh Hk Hd Ha Hi Hc Hrev Hval Hpow Hs.
  eexists. split; [apply append_intro; [done|by eapply acc_register]|].
  cbn. by rewrite lookup_insert_eq.
Qed.
End theorems.

Section witnesses.
Import Toy LedgerDemo.

Lemma demo_reachable_0 : reachable empty.
Proof. exists (mkMemoryStore []), params, empty. split; [reflexivity|apply rtc_refl]. Qed.

Lemma demo_step r now_ms l : reachable l → evolves l (after (append r now_ms l)).
Proof.
  intros Hwf%reachable_wf. destruct (append_total r now_ms l Hwf) as [[res l'] Hr].
  rewrite Hr. apply rtc_once. by eapply ls_append.
Qed.

Lemma demo_reach r now_ms l : reachable l → reachable (after (append r now_ms l)).
Proof.
  intros Hr. destruct Hr as (s & p & l0 & Hn & Hev). exists s, p, l0. split; [done|].
  etrans; [exact Hev|]. apply demo_step. by exists s, p, l0.
Qed.

Lemma reach1 : reachable l1. Proof. exact (demo_reach ada_announce 100 empty demo_reachable_0). Qed.
Lemma reach2 : reachable l2. Proof. exact (demo_reach liveness 100 l1 reach1). Qed.
Lemma reach3 : reachable l3. Proof. exact (demo_reach (server 22) 100 l2 reach2). Qed.
Lemma reach4 : reachable l4. Proof. exact (demo_reach rotation 100 l3 reach3). Qed.
Lemma evolves12 : evolves l1 l2. Proof. exact (demo_step liveness 100 l1 reach1). Qed.
Lemma evolves23 : evolves l2 l3. Proof. exact (demo_step (server 22) 100 l2 reach2). Qed.
Lemma reach5 : reachable l5. Proof. exact (demo_reach revoke 100 l4 reach4). Qed.

(** A run that is accepted ends in [after]. *)
Lemma demo_accepted r now_ms l :
  (match append r now_ms l with Some (Ok _, _) => true | _ => false end) = true →
  append r now_ms l = Some (Ok (record_id r), after (append r now_ms l)).
Proof.
  destruct (append r now_ms l) as [[[id|]?]|] eqn:E; try done. intros _.
  by apply append_inv in E as (_ & _ & ->).
Qed.

Lemma l1_accepted : append ada_announce 100 empty = Some (Ok (record_id ada_announce), l1).
Proof. refine (demo_accepted _ _ _ _). vm_compute. reflexivity. Qed.
Lemma l2_accepted : append liveness 100 l1 = Some (Ok (record_id liveness), l2).
Proof. refine (demo_accepted _ _ _ _). vm_compute. reflexivity. Qed.
Lemma l4_accepted : append rotation 100 l3 = Some (Ok (record_id rotation), l4).
Proof. refine (demo_accepted _ _ _ _). vm_compute. reflexivity. Qed.

(** Proof steps below do not unfold the scenario; [vm_compute] still does. *)
#[local] Opaque l1 l2 l3 l4 l5 l6.

Lemma append_safe_witness :
  ∃ res l', append liveness 100 l1 = Some (res, l') ∧ ledger_wf l' ∧ (is_ok res = false → l' = l1).
Proof. exact (append_safe liveness 100 l1 reach1). Defined.

Lemma history_provable_witness :
  view l1 `prefix_of` view l3 ∧
  ∃ p, ledger_consistency_proof l3 (ledger_len l1) = Some p ∧
    verify_consistency (ledger_len l1) (ledger_len l3)
      (th_root (ledger_head l1)) (th_root (ledger_head l3)) p = true.
Proof.
  apply (history_provable l1 l3); [exact reach1| |vm_compute; lia].
  etrans; [exact evolves12|exact evolves23].
Defined.

Lemma stored_records_provable_witness :
  ∃ j r' path, ledger_inclusion_proof l2 (record_id ada_announce) = Some (j, path) ∧
    ledger_record l2 j = Some r' ∧ record_id r' = record_id ada_announce ∧
    verify_inclusion j (ledger_len l2) (leaf_hash (record_encode r')) path
      (th_root (ledger_head l2)) = true.
Proof.
  apply (stored_records_provable l2 0 ada_announce); [exact reach2|].
  vm_compute. reflexivity.
Defined.

Lemma append_no_replay_witness :
  is_ok (E:=LedgerError) (match append liveness 900 l2 with Some (r, _) => r | None => Ok [] end) = false.
Proof.
  destruct (append_total liveness 900 l2) as [[res l'] E]; [exact (reachable_wf _ reach2)|].
  rewrite E. refine (append_no_replay _ _ _ _ _ _ _ _ _ _ l2_accepted (rtc_refl _ l2) E).
  exact reach1.
Defined.

Lemma only_current_key_acts_witness :
  ∃ c c', lg_chains l1 !! 0%nat = Some c ∧ lg_chains l2 !! 0%nat = Some c' ∧ c' ≠ c ∧
    chain_usable c = true ∧ record_verify_signature liveness = Ok tt.
Proof.
  destruct (lg_chains l1 !! 0%nat) as [c|] eqn:Hc; [|exfalso; by vm_compute in Hc].
  destruct (lg_chains l2 !! 0%nat) as [c'|] eqn:Hc'; [|exfalso; by vm_compute in Hc'].
  assert (Hne : c' ≠ c).
  { assert (E : (ch_last_activity_ms <$> lg_chains l1 !! 0%nat) = Some 10%N) by (vm_compute; reflexivity).
    assert (E' : (ch_last_activity_ms <$> lg_chains l2 !! 0%nat) = Some 20%N) by (vm_compute; reflexivity).
    rewrite Hc in E. rewrite Hc' in E'. cbn in E, E'. congruence. }
  destruct (only_current_key_acts _ _ _ _ _ 0 c c' l2_accepted Hc Hc' Hne) as (Hu & Hs & _).
  exists c, c'. exact (conj eq_refl (conj eq_refl (conj Hne (conj Hu Hs)))).
Defined.

Lemma unusable_is_permanent_witness : is_live l5 (key 1) = false.
Proof.
  destruct (chain_of l5 (key 1)) as [c|] eqn:Hc; [|exfalso; by vm_compute in Hc].
  apply (unusable_is_permanent l5 l5 (key 1) c); [exact reach5|apply rtc_refl|exact Hc|].
  assert (E : (chain_usable <$> chain_of l5 (key 1)) = Some false) by (vm_compute; reflexivity).
  rewrite Hc in E. cbn in E. congruence.
Defined.

Lemma identity_survives_rotation_witness :
  tip_key l4 (kr_prev_idk rot_body) = Some (kr_new_idk rot_body).
Proof.
  assert (Hd : rotation_decode (rec_body rotation) = Ok rot_body) by (vm_compute; reflexivity).
  exact (proj1 (identity_survives_rotation rotation 100 l3 _ l4 l4 rot_body reach3 eq_refl Hd
           l4_accepted (rtc_refl _ l4))).
Defined.

Lemma evaporate_exact_witness :
  ∃ l', evaporate 5000 l2 =
      Some (Ok (record_id ∘ tombstone_of 5000 <$> eligible 5000 l2), l') ∧
    view l' = view l2 ++ (tombstone_of 5000 <$> eligible 5000 l2) ∧ eligible 5000 l2 = [key 1].
Proof.
  destruct (evaporate_exact 5000 l2) as (l' & ? & ? & _); [exact reach2|].
  exists l'. split_and!; [done..|vm_compute; reflexivity].
Defined.

Lemma evaporate_deterministic_witness :
  ∃ ids l', evaporate 5000 l2 = Some (Ok ids, l') ∧ evaporate 5000 l' = Some (Ok [], l').
Proof.
  destruct (evaporate_spec 5000 l2 (reachable_wf _ reach2)) as (l' & Hl & _).
  eexists _, l'. split; [exact Hl|]. exact (proj1 (evaporate_deterministic 5000 l2 reach2) _ l' Hl).
Defined.

Lemma directory_authentic_witness :
  ∃ reg i r, reg ∈ discoverable_servers l3 ∧ view l3 !! i = Some r ∧
    register_decode (rec_body r) = Ok reg ∧ record_verify_signature r = Ok tt.
Proof.
  assert (Hin : server_body ∈ discoverable_servers l3).
  { assert (discoverable_servers l3 = [server_body]) as -> by (vm_compute; reflexivity). by left. }
  destruct (directory_authentic l3 server_body reach3 Hin) as (i & r & Hv & Hd & _ & Hs & _).
  exact (ex_intro _ server_body (ex_intro _ i (ex_intro _ r (conj Hin (conj Hv (conj Hd Hs)))))).
Defined.

Lemma revoked_owner_relists_witness :
  ∃ l', append (server 50) 100 l6 = Some (Ok (record_id (server 50)), l') ∧
    ss_delisted <$> lg_servers l' !! sr_server_root server_body = Some false.
Proof.
  destruct (lg_chains l6 !! 0%nat) as [c|] eqn:Hc; [|exfalso; by vm_compute in Hc].
  assert (Hrev : (ch_revoked <$> lg_chains l6 !! 0%nat) = Some true) by (vm_compute; reflexivity).
  rewrite Hc in Hrev. injection Hrev as Hrev.
  assert (Hh : header_ok (server 50) 100).
  { split; [vm_compute; reflexivity|]. split; [vm_compute; discriminate|].
    split; [discriminate|vm_compute; reflexivity]. }
  assert (Hd : register_decode (rec_body (server 50)) = Ok server_body) by (vm_compute; reflexivity).
  assert (Hi : lg_idk_to_chain l6 !! rec_author (server 50) = Some 0%nat) by (vm_compute; reflexivity).
  assert (Hv : register_validate server_body = Ok tt) by (vm_compute; reflexivity).
  assert (Hp : pow_verify (register_challenge (sr_server_root server_body)) (sr_pow server_body)
    (lp_min_announce_pow_bits (lg_params l6)) (lp_min_pow_m_cost_kib (lg_params l6))
    (lp_min_pow_t_cost (lg_params l6)) = Ok tt) by (vm_compute; reflexivity).
  assert (Hm : ∀ s, lg_servers l6 !! sr_server_root server_body = Some s →
    (ss_last_ms s < rec_created_ms (server 50))%N).
  { intros s Hs.
    assert (E : (ss_last_ms <$> lg_servers l6 !! sr_server_root server_body) = Some 22%N)
      by (vm_compute; reflexivity).
    rewrite Hs in E. injection E as ->. vm_compute. reflexivity. }
  exact (revoked_owner_relists (server 50) 100 l6 server_body 0 c
           Hh eq_refl Hd eq_refl Hi Hc Hrev Hv Hp Hm).
Defined.
End witnesses.
