(* ===== verification/X3dh.v ===== *)
(** * Prekeys and the X3DH handshake ([crates/dante-dm/src/x3dh.rs])

    A published bundle carries a signed prekey and one-time prekeys, each with
    its own signature; both sides of the handshake derive the same secret.
    Random secrets are arguments of the definitions that draw them. *)

From S2P Require Import Prelude Utf8 Enc Crypto.

(** ** Errors ([error.rs]) *)
Inductive DmError : Type :=
  | DE_Crypto (e : CryptoError)
  | DE_Wire (e : WireError)
  | DE_BadPrekeySignature
  | DE_UnknownOneTimePrekey
  | DE_TooManySkipped
  | DE_NotReady (what : string)
  | DE_Decrypt
  | DE_FileIntegrity.

#[global] Instance DmError_eq_dec : EqDecision DmError.
Proof. solve_decision. Defined.

Definition SPK_SIG_DOMAIN : bytes := lit "dante/x3dh/signed-prekey/v1".
Definition OTP_SIG_DOMAIN : bytes := lit "dante/x3dh/signed-otp/v1".
Definition X3DH_INFO : bytes := lit "dante/x3dh/v1".
Definition MAX_OTPS : nat := 100.

(** ** Published bundles *)

Record PreKeyBundle := mkBundle {
  pb_identity_id : bytes;
  pb_idk_pub : bytes;
  pb_ik_pub : bytes;
  pb_spk_pub : bytes;
  pb_spk_sig : bytes;
  pb_otps : list (bytes * bytes);
}.

#[global] Instance PreKeyBundle_eq_dec : EqDecision PreKeyBundle.
Proof. solve_decision. Defined.

(** [bundle.otps = otps] *)
Definition with_otps (otps : list (bytes * bytes)) (b : PreKeyBundle) : PreKeyBundle :=
  mkBundle (pb_identity_id b) (pb_idk_pub b) (pb_ik_pub b) (pb_spk_pub b) (pb_spk_sig b) otps.

Definition w_otp (p : bytes * bytes) (w : Writer) : Writer := w |> w_fixed p.1 |> w_fixed p.2.

Definition bundle_encode (self : PreKeyBundle) : bytes :=
  w_into_vec (w_each w_otp (pb_otps self)
    (w_new |> w_fixed (pb_identity_id self) |> w_fixed (pb_idk_pub self)
       |> w_fixed (pb_ik_pub self) |> w_fixed (pb_spk_pub self) |> w_fixed (pb_spk_sig self)
       |> w_u32 (as_u32 (len (pb_otps self))))).

Definition r_bundle : Read PreKeyBundle :=
  let! identity_id := r_fixed 32 in
  let! idk_pub := r_fixed 32 in
  let! ik_pub := r_fixed 32 in
  let! spk_pub := r_fixed 32 in
  let! spk_sig := r_fixed 64 in
  let! otps := r_counted (r_pair (r_fixed 32) (r_fixed 64)) in
  let! _ := r_finish in
  r_ret (mkBundle identity_id idk_pub ik_pub spk_pub spk_sig otps).
Definition bundle_decode (bs : bytes) : result PreKeyBundle WireError := run r_bundle bs.

(** ** Secrets *)

Record PreKeySecrets := mkSecrets { pks_spk : bytes; pks_otps : list bytes }.

(** [Identity]: the signing and the agreement secret. *)
Record Identity := mkIdentity { id_idk : bytes; id_ik : bytes }.

(** [generate]: [spk] and [fresh 0, fresh 1, ..] are the drawn secrets. *)
Definition secrets_generate (spk : bytes) (fresh : nat → bytes) (n_otps : nat) : PreKeySecrets :=
  mkSecrets spk (fresh <$> seq 0 (n_otps `min` MAX_OTPS)).

(** [while otps.len() < want { push }], in at most [fuel] rounds. *)
Fixpoint replenish_loop (fuel : nat) (fresh : nat → bytes) (want minted : nat)
    (self : PreKeySecrets) : nat * PreKeySecrets :=
  match fuel with
  | O => (minted, self)
  | S f =>
    if (length (pks_otps self) <? want)%nat
    then replenish_loop f fresh want (S minted)
           (mkSecrets (pks_spk self) (pks_otps self ++ [fresh minted]))
    else (minted, self)
  end.
Definition replenish (fresh : nat → bytes) (target : nat) (self : PreKeySecrets)
    : nat * PreKeySecrets :=
  let want := (target `min` MAX_OTPS)%nat in
  replenish_loop want fresh want 0 self.

Definition otps_remaining (self : PreKeySecrets) : nat := length (pks_otps self).

(** The snapshot of [export] and [import] has the same two fields. *)
Definition secrets_encode (self : PreKeySecrets) : bytes :=
  w_into_vec (w_each w_fixed (pks_otps self)
    (w_new |> w_fixed (pks_spk self) |> w_u32 (as_u32 (len (pks_otps self))))).
Definition r_secrets : Read PreKeySecrets :=
  let! spk_secret := r_fixed 32 in
  let! otp_secrets := r_counted (r_fixed 32) in
  let! _ := r_finish in
  r_ret (mkSecrets spk_secret otp_secrets).
Definition secrets_decode (bs : bytes) : result PreKeySecrets WireError := run r_secrets bs.

Section x3dh.
Context `{CryptoPrims}.

Definition spk_sig_challenge (spk_pub : bytes) : bytes := sha256_parts [SPK_SIG_DOMAIN; spk_pub].
Definition otp_sig_challenge (spk_pub otp : bytes) : bytes :=
  sha256_parts [OTP_SIG_DOMAIN; spk_pub; otp].

Fixpoint verify_otps (idk spk_pub : bytes) (otps : list (bytes * bytes)) : result unit DmError :=
  match otps with
  | [] => Ok tt
  | (otp, sig) :: rest =>
    let? _ := map_err (λ _, DE_BadPrekeySignature)
                (sign_verify idk (otp_sig_challenge spk_pub otp) sig) in
    verify_otps idk spk_pub rest
  end.

Definition bundle_verify (self : PreKeyBundle) : result unit DmError :=
  let? idk := map_err (λ _, DE_BadPrekeySignature) (sign_public_from_bytes (pb_idk_pub self)) in
  let? _ := map_err (λ _, DE_BadPrekeySignature)
              (sign_verify idk (spk_sig_challenge (pb_spk_pub self)) (pb_spk_sig self)) in
  verify_otps idk (pb_spk_pub self) (pb_otps self).

Definition identity_sign (me : Identity) (msg : bytes) : bytes := prim_sign (id_idk me) msg.
Definition identity_sign_public (me : Identity) : bytes := prim_vk_of_sk (id_idk me).
Definition identity_agree_public (me : Identity) : bytes := agree_public (id_ik me).
Definition identity_agree (me : Identity) (their_ik : bytes) : result bytes CryptoError :=
  agree (id_ik me) their_ik.

Definition secrets_bundle (self : PreKeySecrets) (identity : Identity) : PreKeyBundle :=
  let spk_pub := agree_public (pks_spk self) in
  let otps := (λ o, let pub_key := agree_public o in
                    (pub_key, identity_sign identity (otp_sig_challenge spk_pub pub_key)))
              <$> pks_otps self in
  mkBundle (sha256 (identity_sign_public identity)) (identity_sign_public identity)
    (identity_agree_public identity) spk_pub
    (identity_sign identity (spk_sig_challenge spk_pub)) otps.

(** [position] then [Vec::remove]. *)
Definition take_otp (otp_pub : bytes) (self : PreKeySecrets) : option (bytes * PreKeySecrets) :=
  idx ← position (λ o, bool_decide (agree_public o = otp_pub)) (pks_otps self);
  o ← pks_otps self !! idx;
  Some (o, mkSecrets (pks_spk self) (delete idx (pks_otps self))).

(** ** The handshake *)

Record X3dhResult := mkX3dh { xr_sk : bytes; xr_ad : bytes }.
Record InitiatorHandshake := mkInit {
  ih_result : X3dhResult;
  ih_ephemeral_pub : bytes;
  ih_used_otp : option bytes;
}.

Definition derive_sk (dhs : list bytes) : bytes :=
  let ikm := replicate 32 xff ++ mjoin dhs in
  let prk := kdf_extract (replicate 32 x00) ikm in
  match kdf_expand prk X3DH_INFO 32 with Ok sk => sk | Err _ => [] (* expect("32") *) end.

Definition ad_of (initiator_ik responder_ik : bytes) : bytes := initiator_ik ++ responder_ik.

(** [ek] is the secret drawn for the handshake. *)
Definition initiator (me : Identity) (bundle : PreKeyBundle) (ek : bytes)
    : result InitiatorHandshake DmError :=
  let? _ := bundle_verify bundle in
  let spk := pb_spk_pub bundle in
  let? dh1 := map_err DE_Crypto (identity_agree me spk) in
  let? dh2 := map_err DE_Crypto (agree ek (pb_ik_pub bundle)) in
  let? dh3 := map_err DE_Crypto (agree ek spk) in
  let used_otp := fst <$> head (pb_otps bundle) in
  let? dh4 := match used_otp with
              | Some o => let? d := map_err DE_Crypto (agree ek o) in Ok [d]
              | None => Ok []
              end in
  let sk := derive_sk ([dh1; dh2; dh3] ++ dh4) in
  let ad := ad_of (identity_agree_public me) (pb_ik_pub bundle) in
  Ok (mkInit (mkX3dh sk ad) (agree_public ek) used_otp).

(** [take_otp(..)?] on the secrets. *)
Definition st_take_otp (o : bytes) : Step PreKeySecrets DmError bytes := λ s,
  match take_otp o s with
  | Some (otp, s') => Some (Ok otp, s')
  | None => Some (Err DE_UnknownOneTimePrekey, s)
  end.

Definition responder (me : Identity) (ek_a_pub ik_a_pub : bytes) (used_otp : option bytes)
    : Step PreKeySecrets DmError (X3dhResult * bytes) :=
  do! prekeys := st_get in
  let spk := pks_spk prekeys in
  do! dh1 := st_lift (map_err DE_Crypto (agree spk ik_a_pub)) in
  do! dh2 := st_lift (map_err DE_Crypto (identity_agree me ek_a_pub)) in
  do! dh3 := st_lift (map_err DE_Crypto (agree spk ek_a_pub)) in
  do! dh4 := match used_otp with
             | Some o =>
               do! otp := st_take_otp o in
               do! d := st_lift (map_err DE_Crypto (agree otp ek_a_pub)) in
               st_ret [d]
             | None => st_ret []
             end in
  let sk := derive_sk ([dh1; dh2; dh3] ++ dh4) in
  let ad := ad_of ik_a_pub (identity_agree_public me) in
  st_ret (mkX3dh sk ad, spk).
End x3dh.

(** ** Lemmas *)

Definition otp_ok : bytes * bytes → Prop := λ p, ok_len 32 p.1 ∧ ok_len 64 p.2.
Definition enc_otp (p : bytes * bytes) : bytes := p.1 ++ p.2.

Definition bundle_ok (b : PreKeyBundle) : Prop :=
  ok_len 32 (pb_identity_id b) ∧ ok_len 32 (pb_idk_pub b) ∧ ok_len 32 (pb_ik_pub b) ∧
  ok_len 32 (pb_spk_pub b) ∧ ok_len 64 (pb_spk_sig b) ∧ ok_list otp_ok (pb_otps b).
Definition secrets_ok (s : PreKeySecrets) : Prop :=
  ok_len 32 (pks_spk s) ∧ ok_list (ok_len 32) (pks_otps s).

Lemma w_buf_otps l w : w_buf (w_each w_otp l w) = w_buf w ++ mjoin (enc_otp <$> l).
Proof. apply w_buf_each. intros [o s] w'. unfold w_otp, enc_otp. by enc_norm. Qed.
Lemma w_buf_fixeds l w : w_buf (w_each w_fixed l w) = w_buf w ++ mjoin (id <$> l).
Proof. by apply w_buf_each. Qed.

#[export] Instance otps_parses :
  Parses (r_counted (r_pair (r_fixed 32) (r_fixed 64))) (enc_list enc_otp) (ok_list otp_ok).
Proof.
  apply (counted_parses _ enc_otp otp_ok); [|apply (pair_parses (r_fixed 32) (r_fixed 64) id id); apply _].
  intros [o s] [Ho Hs]. unfold enc_otp, ok_len in *. rewrite length_app. cbn in *. lia.
Qed.
#[export] Instance otps_canon :
  Canon (r_counted (r_pair (r_fixed 32) (r_fixed 64))) (enc_list enc_otp) (ok_list otp_ok).
Proof. apply counted_canon. apply (pair_canon (r_fixed 32) (r_fixed 64) id id); apply _. Qed.
#[export] Instance fixeds_parses : Parses (r_counted (r_fixed 32)) (enc_list id) (ok_list (ok_len 32)).
Proof. apply counted_parses; [|apply _]. unfold ok_len, id. lia. Qed.
#[export] Instance fixeds_canon : Canon (r_counted (r_fixed 32)) (enc_list id) (ok_list (ok_len 32)).
Proof. apply counted_canon. apply _. Qed.

Lemma bundle_encode_eq b :
  bundle_encode b = pb_identity_id b ++ pb_idk_pub b ++ pb_ik_pub b ++ pb_spk_pub b ++
                    pb_spk_sig b ++ enc_list enc_otp (pb_otps b).
Proof. unfold bundle_encode. rewrite w_into_vec_buf, w_buf_otps. unfold enc_list. by enc_norm. Qed.

Lemma bundle_round b : bundle_ok b → bundle_decode (bundle_encode b) = Ok b.
Proof.
  destruct b as [i k a p s o]. intros Hok. unfold bundle_ok in Hok. cbn in Hok. destruct_and! Hok.
  eapply run_parse. rewrite bundle_encode_eq, <- !app_assoc. cbn. unfold r_bundle. parses. done.
Qed.

Lemma bundle_decode_canon bs b : bundle_decode bs = Ok b → bundle_ok b ∧ bundle_encode b = bs.
Proof.
  intros [r' Hr]%run_canon. unfold r_bundle in Hr. canons Hr. injection Hr as <- _.
  split; [done|]. rewrite bundle_encode_eq. cbn. unfold id. by rewrite app_nil_r.
Qed.

Lemma secrets_round s : secrets_ok s → secrets_decode (secrets_encode s) = Ok s.
Proof.
  destruct s as [p o]. intros [Hp Ho]. cbn in Hp, Ho. eapply run_parse.
  unfold secrets_encode. rewrite w_into_vec_buf, w_buf_fixeds. enc_norm. cbn.
  rewrite (app_assoc (be 4 _)). change (be 4 (as_u32 (len o)) ++ mjoin (id <$> o)) with (enc_list id o).
  unfold r_secrets. parses. done.
Qed.

(** *** The one-time-prekey pool *)

Lemma replenish_loop_spec fuel fresh want minted s :
  (want ≤ length (pks_otps s) + fuel)%nat →
  replenish_loop fuel fresh want minted s =
  ((minted + (want - length (pks_otps s)))%nat,
   mkSecrets (pks_spk s)
     (pks_otps s ++ (fresh <$> seq minted (want - length (pks_otps s))))).
Proof.
  revert minted s. induction fuel as [|f IH]; intros minted [p o] Hf; cbn [replenish_loop pks_otps pks_spk] in *.
  - replace (want - length o)%nat with 0%nat by lia. cbn. by rewrite Nat.add_0_r, app_nil_r.
  - destruct (length o <? want)%nat eqn:E; [apply Nat.ltb_lt in E|apply Nat.ltb_ge in E].
    + rewrite IH by (cbn; rewrite length_app; cbn; lia). cbn. rewrite length_app. cbn [length].
      replace (want - length o)%nat with (S (want - (length o + 1)))%nat by lia. cbn.
      rewrite <- app_assoc. f_equal. lia.
    + replace (want - length o)%nat with 0%nat by lia. cbn. by rewrite Nat.add_0_r, app_nil_r.
Qed.

Lemma replenish_spec fresh target s :
  let want := (target `min` MAX_OTPS)%nat in
  let r := replenish fresh target s in
  pks_spk r.2 = pks_spk s ∧ pks_otps s `prefix_of` pks_otps r.2 ∧
  otps_remaining r.2 = (otps_remaining s + r.1)%nat ∧ r.1 = (want - otps_remaining s)%nat.
Proof.
  cbv zeta. unfold replenish. rewrite replenish_loop_spec by lia. cbn. unfold otps_remaining.
  split_and!; [done|by exists (fresh <$> seq 0 (target `min` 100 - length (pks_otps s)))| |done].
  cbn. rewrite length_app, length_fmap, length_seq. unfold MAX_OTPS. lia.
Qed.

(** *** Signatures *)

Section x3dh_proofs.
Context `{CryptoPrims}.

Lemma verify_otps_ok idk spk otps :
  verify_otps idk spk otps = Ok tt ↔
  Forall (λ p, prim_verify_strict idk (otp_sig_challenge spk p.1) p.2 = true) otps.
Proof using Type.
  induction otps as [|[o s] otps IH]; cbn [verify_otps]; [done|]. rewrite list.Forall_cons, <- IH.
  unfold sign_verify. cbn [fst snd]. destruct (prim_verify_strict _ _ _); cbn; naive_solver.
Qed.

Lemma bundle_verify_ok b :
  bundle_verify b = Ok tt ↔
  prim_vk_ok (pb_idk_pub b) = true ∧
  prim_verify_strict (pb_idk_pub b) (spk_sig_challenge (pb_spk_pub b)) (pb_spk_sig b) = true ∧
  Forall (λ p, prim_verify_strict (pb_idk_pub b) (otp_sig_challenge (pb_spk_pub b) p.1) p.2 = true)
    (pb_otps b).
Proof using Type.
  unfold bundle_verify, sign_public_from_bytes, sign_verify.
  destruct (prim_vk_ok _); cbn; [|naive_solver].
  destruct (prim_verify_strict _ _ _); cbn; [|naive_solver]. rewrite verify_otps_ok. naive_solver.
Qed.

(** A relay may hand out any part of the one-time prekeys. *)
Lemma bundle_verify_sub b otps :
  bundle_verify b = Ok tt → otps ⊆ pb_otps b → bundle_verify (with_otps otps b) = Ok tt.
Proof using Type.
  rewrite !bundle_verify_ok. cbn. intros (? & ? & Hf) Hs. split_and!; [done..|].
  rewrite Forall_forall in *. intros p Hp%list_elem_of_In. apply Hf, list_elem_of_In. set_solver.
Qed.

Lemma secrets_bundle_verifies `{!SignLaws} s me :
  length (id_idk me) = 32%nat → bundle_verify (secrets_bundle s me) = Ok tt.
Proof.
  intros Hl. rewrite bundle_verify_ok. cbn. unfold identity_sign, identity_sign_public.
  split_and!; [by apply vk_of_sk_ok|apply sign_verifies|].
  rewrite Forall_fmap. apply Forall_true. intros o. cbn. apply sign_verifies.
Qed.

(** *** Agreement *)

Lemma position_is_Some {A} (p : A → bool) l x :
  x ∈ l → p x = true → ∃ i y, position p l = Some i ∧ l !! i = Some y ∧ p y = true.
Proof using Type.
  induction 1 as [x l|x z l Hx IH]; intros Hp; cbn [position].
  - rewrite Hp. exists 0%nat, x. done.
  - destruct (p z) eqn:E; [by exists 0%nat, z|].
    destruct (IH Hp) as (i & y & -> & ? & ?). by exists (S i), y.
Qed.

Lemma take_otp_found s o :
  o ∈ pks_otps s →
  ∃ o' s', take_otp (agree_public o) s = Some (o', s') ∧ agree_public o' = agree_public o ∧
           pks_spk s' = pks_spk s ∧ pks_otps s ≡ₚ o' :: pks_otps s'.
Proof using Type.
  intros Hin. unfold take_otp.
  destruct (position_is_Some (λ x, bool_decide (agree_public x = agree_public o)) (pks_otps s) o)
    as (i & y & -> & Hl & Hy%bool_decide_eq_true); [done|by apply bool_decide_eq_true_2|].
  cbn. rewrite Hl. cbn. eexists _, _. split_and!; [done..|]. by apply delete_Permutation.
Qed.

Lemma agree_comm `{!AgreeLaws} a b : agree a (agree_public b) = agree b (agree_public a).
Proof. unfold agree, agree_public. by rewrite x25519_comm. Qed.

(** What the initiator derives from any part of the bundle, the responder
    derives too. *)
Lemma handshake_agrees `{!AgreeLaws} me_a me_b secrets otps ek h :
  let full := secrets_bundle secrets me_b in
  otps ⊆ pb_otps full → initiator me_a (with_otps otps full) ek = Ok h →
  ∃ secrets',
    responder me_b (ih_ephemeral_pub h) (identity_agree_public me_a) (ih_used_otp h) secrets =
      Some (Ok (ih_result h, pks_spk secrets), secrets') ∧
    match ih_used_otp h with
    | Some o => ∃ sk, agree_public sk = o ∧ pks_otps secrets ≡ₚ sk :: pks_otps secrets'
    | None => secrets' = secrets
    end.
Proof.
  cbv zeta. intros Hsub Hi. unfold initiator in Hi.
  destruct (bundle_verify _) as [[]|]; cbn [result_bind] in Hi; [|done].
  cbn [with_otps pb_spk_pub pb_ik_pub pb_otps secrets_bundle] in Hi, Hsub.
  unfold identity_agree, identity_agree_public in *.
  destruct (agree (id_ik me_a) _) as [dh1|] eqn:E1; cbn [map_err result_bind] in Hi; [|done].
  destruct (agree ek (agree_public (id_ik me_b))) as [dh2|] eqn:E2; cbn [map_err result_bind] in Hi; [|done].
  destruct (agree ek (agree_public (pks_spk secrets))) as [dh3|] eqn:E3; cbn [map_err result_bind] in Hi; [|done].
  rewrite agree_comm in E1, E2, E3. unfold responder, identity_agree, identity_agree_public.
  destruct otps as [|[o sig] otps]; cbn [head fmap option_fmap option_map fst] in Hi.
  - cbn [result_bind] in Hi. injection Hi as <-. cbn [ih_ephemeral_pub ih_used_otp ih_result].
    exists secrets. split; [|done]. unfold st_bind, st_get, st_lift, st_ret.
    rewrite E1, E2, E3. done.
  - destruct (agree ek o) as [dh4|] eqn:E4; cbn [map_err result_bind] in Hi; [|done].
    injection Hi as <-. cbn [ih_ephemeral_pub ih_used_otp ih_result].
    assert (Ho : (o, sig) ∈ ((λ o, (agree_public o, identity_sign me_b
        (otp_sig_challenge (agree_public (pks_spk secrets)) (agree_public o)))) <$> pks_otps secrets))
      by set_solver.
    apply list_elem_of_fmap in Ho as (sk & [= -> _] & Hsk).
    destruct (take_otp_found secrets sk Hsk) as (sk' & s' & Ht & Hpub & _ & Hp).
    exists s'. split; [|by exists sk'].
    rewrite <- Hpub, agree_comm in E4.
    unfold st_bind, st_get, st_lift, st_ret, st_take_otp. rewrite E1, E2, E3. cbn [map_err].
    rewrite Ht, E4. done.
Qed.
End x3dh_proofs.
