(* ===== verification/Mailbox.v ===== *)
(** * The store-and-forward mailbox ([crates/dante-net/src/mailbox.rs]) *)

From S2P Require Import Prelude Enc Envelope.

(** ** error.rs: the errors a mailbox or a peer can report *)

Inductive NetError : Type :=
  | NE_Io
  | NE_FrameTooLarge (n : N)
  | NE_Closed
  | NE_Decode (e : WireError)
  | NE_Peer (msg : bytes)
  | NE_UnexpectedResponse (what : string)
  | NE_RejectedEnvelope (why : string)
  | NE_RateLimited.

Definition MAX_TTL_MS : N := 14 * 24 * 60 * 60 * 1000.
Definition MAX_CLOCK_SKEW_MS : N := 5 * 60 * 1000.
Definition MAX_ENVELOPE_BYTES : N := 1048576 + 256.
Definition MAX_MAILBOX_BYTES : N := 64 * 1024 * 1024.
Definition MAX_HINT_DEPTH : N := 512.
Definition MAX_FETCH_BYTES : N := 7 * 1024 * 1024.

Definition env_size (e : Envelope) : N := len (env_payload e) + 28.

Record Mailbox := mkMailbox {
  mb_by_hint : gmap bytes (list Envelope);
  mb_count : N;
  mb_bytes : N;
}.

Definition mailbox_new : Mailbox := mkMailbox ∅ 0 0.
Definition mailbox_len (self : Mailbox) : N := mb_count self.
Definition mailbox_is_empty (self : Mailbox) : bool := (mb_count self =? 0)%N.

(** [entry(hint).or_default()] creates the slot even when the depth test
    refuses the envelope. *)
Definition deposit (env : Envelope) (now_ms : N) : Step Mailbox NetError unit :=
  do! _ := st_reject (MAX_TTL_MS <? env_ttl_ms env)%N
             (NE_RejectedEnvelope "ttl exceeds the relay maximum") in
  do! _ := st_reject (sat_add64 now_ms MAX_CLOCK_SKEW_MS <? env_deposited_ms env)%N
             (NE_RejectedEnvelope "deposited_ms is in the future") in
  do! _ := st_reject (is_expired env now_ms) (NE_RejectedEnvelope "already expired") in
  let size := env_size env in
  do! _ := st_reject (MAX_ENVELOPE_BYTES <? size)%N
             (NE_RejectedEnvelope "envelope exceeds the size limit") in
  do! self := st_get in
  do! _ := st_reject (MAX_MAILBOX_BYTES <? sat_add64 (mb_bytes self) size)%N
             (NE_RejectedEnvelope "mailbox is full") in
  let slot := default [] (mb_by_hint self !! env_recipient_hint env) in
  do! _ := st_modify (λ m, mkMailbox (<[env_recipient_hint env := slot]> (mb_by_hint m))
                             (mb_count m) (mb_bytes m)) in
  do! _ := st_reject (MAX_HINT_DEPTH <=? len slot)%N
             (NE_RejectedEnvelope "recipient mailbox is full") in
  st_modify (λ m, mkMailbox (<[env_recipient_hint env := slot ++ [env]]> (mb_by_hint m))
                    (mb_count m + 1) (mb_bytes m + size)).

(** The test of the inner loop of [fetch]. *)
Definition wanted (since_ms now_ms : N) (env : Envelope) : bool :=
  (since_ms <=? env_deposited_ms env)%N && negb (is_expired env now_ms).

(** The loop over one slot; [true] means [break 'hints]. *)
Fixpoint fetch_slot (since_ms now_ms : N) (slot : list Envelope) (out : list Envelope) (used : N)
    : list Envelope * N * bool :=
  match slot with
  | [] => (out, used, false)
  | env :: slot' =>
    if wanted since_ms now_ms env then
      let used := (used + env_size env)%N in
      if (MAX_FETCH_BYTES <? used)%N then (out, used, true)
      else fetch_slot since_ms now_ms slot' (out ++ [env]) used
    else fetch_slot since_ms now_ms slot' out used
  end.

Fixpoint fetch_hints (self : Mailbox) (since_ms now_ms : N) (hints : list bytes)
    (out : list Envelope) (used : N) : list Envelope :=
  match hints with
  | [] => out
  | hint :: hints' =>
    match mb_by_hint self !! hint with
    | None => fetch_hints self since_ms now_ms hints' out used
    | Some slot =>
      let '(out, used, stop) := fetch_slot since_ms now_ms slot out used in
      if stop then out else fetch_hints self since_ms now_ms hints' out used
    end
  end.

Definition fetch (self : Mailbox) (hints : list bytes) (since_ms now_ms : N) : list Envelope :=
  sort_by_key env_deposited_ms (fetch_hints self since_ms now_ms hints [] 0).

(** [list.retain(..)] inside [by_hint.retain(..)]. *)
Definition keep_live (now_ms : N) (slot : list Envelope) : option (list Envelope) :=
  let kept := base.filter (λ e, is_expired e now_ms = false) slot in
  if bool_decide (kept = []) then None else Some kept.

Definition expired_in (now_ms : N) (slot : list Envelope) : list Envelope :=
  base.filter (λ e, is_expired e now_ms = true) slot.

(** [gc] with the number of envelopes removed. *)
Definition gc (now_ms : N) (self : Mailbox) : N * Mailbox :=
  let removed := map_sum (λ l, len (expired_in now_ms l)) (mb_by_hint self) in
  let freed := map_sum (λ l, sum_by env_size (expired_in now_ms l)) (mb_by_hint self) in
  (removed,
   mkMailbox (omap (keep_live now_ms) (mb_by_hint self))
     (mb_count self - removed) (mb_bytes self - freed)).

(** ** Invariant *)

Record mailbox_wf (m : Mailbox) : Prop := {
  mw_count : mb_count m = map_sum len (mb_by_hint m);
  mw_bytes : mb_bytes m = map_sum (sum_by env_size) (mb_by_hint m);
  mw_cap : (mb_bytes m ≤ MAX_MAILBOX_BYTES)%N;
  mw_slot hint slot : mb_by_hint m !! hint = Some slot →
    (len slot ≤ MAX_HINT_DEPTH)%N ∧
    Forall (λ e, env_recipient_hint e = hint ∧ (env_ttl_ms e ≤ MAX_TTL_MS)%N ∧
                 (env_size e ≤ MAX_ENVELOPE_BYTES)%N) slot;
}.

(** When an envelope is accepted. *)
Definition depositable (m : Mailbox) (env : Envelope) (now_ms : N) : Prop :=
  (env_ttl_ms env ≤ MAX_TTL_MS)%N ∧
  (env_deposited_ms env ≤ sat_add64 now_ms MAX_CLOCK_SKEW_MS)%N ∧
  is_expired env now_ms = false ∧ (env_size env ≤ MAX_ENVELOPE_BYTES)%N ∧
  (sat_add64 (mb_bytes m) (env_size env) ≤ MAX_MAILBOX_BYTES)%N ∧
  (len (default [] (mb_by_hint m !! env_recipient_hint env)) < MAX_HINT_DEPTH)%N.

Definition deposited (m : Mailbox) (env : Envelope) : Mailbox :=
  mkMailbox
    (<[env_recipient_hint env := default [] (mb_by_hint m !! env_recipient_hint env) ++ [env]]>
       (mb_by_hint m))
    (mb_count m + 1) (mb_bytes m + env_size env).

(** ** Lemmas *)

Lemma deposit_total env now_ms m : is_Some (deposit env now_ms m).
Proof.
  unfold deposit, st_reject, st_get, st_modify, st_bind. repeat case_match; simplify_eq; eauto.
Qed.

Lemma deposit_spec env now_ms m m' :
  deposit env now_ms m = Some (Ok tt, m') ↔ depositable m env now_ms ∧ m' = deposited m env.
Proof.
  unfold depositable. split.
  - unfold deposit. cbv zeta. intros Hd. inv_step.
    repeat match goal with
    | E : (_ <? _)%N = false |- _ => apply N.ltb_ge in E
    | E : (_ <=? _)%N = false |- _ => apply N.leb_gt in E
    end.
    split; [by split_and!|].
    unfold deposited. cbn [mb_by_hint mb_count mb_bytes]. by rewrite insert_insert_eq.
  - intros [(H1 & H2 & H3 & H4 & H5 & H6) ->]. unfold deposit. cbv zeta.
    unfold st_reject, st_get, st_modify, st_bind.
    apply N.ltb_ge in H1 as ->, H2 as ->, H4 as ->, H5 as ->. apply N.leb_gt in H6 as ->.
    rewrite H3. cbn [mb_by_hint mb_count mb_bytes]. unfold deposited. by rewrite insert_insert_eq.
Qed.

Lemma deposit_refused env now_ms m e m' :
  deposit env now_ms m = Some (Err e, m') → m' = m.
Proof.
  unfold deposit, st_reject, st_get, st_modify, st_bind. repeat case_match; intros; simplify_eq; try done.
  destruct m as [h c b]. cbn in *. f_equal. apply insert_id.
  destruct (h !! env_recipient_hint env); [done|]. cbn in *. done.
Qed.

Lemma mailbox_new_wf : mailbox_wf mailbox_new.
Proof. by split; cbn; rewrite ?map_sum_empty. Qed.

Lemma sat_add64_le a b c : (c < u64_max)%N → (sat_add64 a b ≤ c)%N → (a + b ≤ c)%N.
Proof. unfold sat_add64. lia. Qed.

Lemma len_snoc {A} (l : list A) x : len (l ++ [x]) = (len l + 1)%N.
Proof. rewrite len_app. done. Qed.

Lemma deposit_wf env now_ms m r m' :
  mailbox_wf m → deposit env now_ms m = Some (r, m') → mailbox_wf m'.
Proof.
  intros Hwf Hd. destruct r as [[]|e]; [|by apply deposit_refused in Hd as ->].
  apply deposit_spec in Hd as [(H1 & H2 & H3 & H4 & H5 & H6) ->].
  apply sat_add64_le in H5; [|done].
  pose proof (map_sum_update len (mb_by_hint m) (env_recipient_hint env)
    (default [] (mb_by_hint m !! env_recipient_hint env) ++ [env])) as Hc.
  pose proof (map_sum_update (sum_by env_size) (mb_by_hint m) (env_recipient_hint env)
    (default [] (mb_by_hint m !! env_recipient_hint env) ++ [env])) as Hb.
  rewrite len_snoc in Hc. rewrite sum_by_app in Hb.
  destruct Hwf as [Wc Wb Wcap Ws]. unfold deposited. split; cbn [mb_count mb_bytes mb_by_hint].
  - rewrite Wc. revert Hc. destruct (mb_by_hint m !! _); intros Hc; cbn [from_option default id] in *; try (change (len (@nil Envelope)) with 0%N in Hc); lia.
  - rewrite Wb. revert Hb. destruct (mb_by_hint m !! _); intros Hb; cbn [from_option default id] in *; unfold sum_by in *; cbn [foldr] in *; lia.
  - done.
  - intros hint slot [[<- <-]|[_ Hs]]%lookup_insert_Some; [|by apply Ws].
    destruct (mb_by_hint m !! env_recipient_hint env) as [old|] eqn:E; cbn [default id from_option] in *.
    + destruct (Ws _ _ E) as [_ Hf]. rewrite len_snoc. split; [lia|]. apply Forall_app. auto.
    + split; [done|]. repeat constructor; done.
Qed.

(** *** [gc] *)

Lemma live_or_expired now_ms slot :
  base.filter (λ e, is_expired e now_ms = false) slot ++ expired_in now_ms slot ≡ₚ slot.
Proof.
  unfold expired_in. induction slot as [|e slot IH]; [done|].
  destruct (is_expired e now_ms) eqn:E.
  - rewrite filter_cons_False by congruence. rewrite filter_cons_True by done.
    rewrite <- Permutation_middle. by rewrite IH.
  - rewrite filter_cons_True by done. rewrite filter_cons_False by congruence. cbn. by rewrite IH.
Qed.

Lemma map_sum_add {K V} `{Countable K} (f g : V → N) (m : gmap K V) :
  map_sum (λ v, f v + g v)%N m = (map_sum f m + map_sum g m)%N.
Proof.
  induction m as [|k v m Hk IH] using map_ind; [done|]. rewrite !map_sum_insert by done. lia.
Qed.

(** A measure of the slots splits into what stays and what goes. *)
Lemma gc_split (f : list Envelope → N) (now_ms : N) (m : gmap bytes (list Envelope)) :
  f [] = 0%N → (∀ l k, f (l ++ k) = f l + f k)%N → (∀ l k, l ≡ₚ k → f l = f k) →
  map_sum f m = (map_sum f (omap (keep_live now_ms) m) + map_sum (f ∘ expired_in now_ms) m)%N.
Proof.
  intros H0 Happ Hperm.
  rewrite (map_sum_omap (λ l, f (base.filter (λ e, is_expired e now_ms = false) l)) f).
  - rewrite <- map_sum_add. apply map_sum_ext. intros k slot _. cbn.
    by rewrite <- Happ, (Hperm _ _ (live_or_expired now_ms slot)).
  - intros k slot _. unfold keep_live. case_bool_decide as E; cbn; [by rewrite E|done].
Qed.

Lemma gc_lookup now_ms m hint :
  mb_by_hint (gc now_ms m).2 !! hint = (slot ← mb_by_hint m !! hint; keep_live now_ms slot).
Proof. unfold gc. cbn. by rewrite lookup_omap. Qed.

Lemma gc_spec now_ms m :
  mailbox_wf m →
  let m' := (gc now_ms m).2 in
  mailbox_wf m' ∧
  (gc now_ms m).1 = map_sum (len ∘ expired_in now_ms) (mb_by_hint m) ∧
  (mb_count m' + (gc now_ms m).1 = mb_count m)%N ∧
  (∀ hint e, e ∈ default [] (mb_by_hint m' !! hint) ↔
             e ∈ default [] (mb_by_hint m !! hint) ∧ is_expired e now_ms = false).
Proof.
  intros Hwf. cbv zeta.
  assert (Hlp : ∀ l k : list Envelope, l ≡ₚ k → len l = len k) by (intros l k Hp; unfold len; by rewrite Hp).
  pose proof (gc_split len now_ms (mb_by_hint m) len_nil len_app Hlp) as Hc.
  pose proof (gc_split (sum_by env_size) now_ms (mb_by_hint m) eq_refl (sum_by_app _) (sum_by_perm _)) as Hb.
  destruct Hwf as [Wc Wb Wcap Ws].
  assert (Hin : ∀ hint e, e ∈ default [] (mb_by_hint (gc now_ms m).2 !! hint) ↔
             e ∈ default [] (mb_by_hint m !! hint) ∧ is_expired e now_ms = false).
  { intros hint e. rewrite gc_lookup. destruct (mb_by_hint m !! hint) as [slot|]; cbn; [|set_solver].
    pose proof (list_elem_of_filter (λ e, is_expired e now_ms = false) slot e) as Hf.
    unfold keep_live. case_bool_decide as E; cbn [from_option id]; [rewrite E in Hf|];
      destruct Hf as [Hf1 Hf2]; split; intros Hx; try apply Hf1; try apply Hf2; naive_solver. }
  split_and!; [split| | |done]; unfold gc in *; cbn [fst snd mb_count mb_bytes mb_by_hint] in *;
    unfold compose in *; try lia.
  intros hint slot. rewrite lookup_omap. destruct (mb_by_hint m !! hint) as [old|] eqn:E; [|done].
  cbn. unfold keep_live. case_bool_decide; [done|]. intros [= <-]. destruct (Ws _ _ E) as [Hl Hf].
  split.
  - etrans; [|exact Hl]. unfold len. pose proof (length_filter (λ e, is_expired e now_ms = false) old). lia.
  - rewrite Forall_forall in *. intros e [_ He]%list_elem_of_In%list_elem_of_filter. by apply Hf, list_elem_of_In.
Qed.

(** Nothing stays longer than the maximal lifetime plus the allowed skew. *)
Lemma expires_in_time env now_ms m m' later :
  deposit env now_ms m = Some (Ok tt, m') →
  (now_ms + MAX_CLOCK_SKEW_MS + MAX_TTL_MS < later)%N → is_expired env later = true.
Proof.
  intros [(H1 & H2 & _) _]%deposit_spec Hl. unfold is_expired, sat_add64 in *. apply N.ltb_lt. lia.
Qed.

(** *** [fetch] *)

(** The longest prefix that fits the budget. *)
Fixpoint within (used : N) (l : list Envelope) : list Envelope :=
  match l with
  | [] => []
  | e :: l' => if (MAX_FETCH_BYTES <? used + env_size e)%N then []
               else e :: within (used + env_size e) l'
  end.

(** The envelopes asked for, in the order the loops visit them. *)
Definition candidates (m : Mailbox) (hints : list bytes) (since_ms now_ms : N) : list Envelope :=
  base.filter (λ e, wanted since_ms now_ms e = true)
    (mjoin ((λ h, default [] (mb_by_hint m !! h)) <$> hints)).

Lemma fetch_slot_eq since_ms now_ms slot out used rest :
  let '(out', used', stop) := fetch_slot since_ms now_ms slot out used in
  out ++ within used (base.filter (λ e, wanted since_ms now_ms e = true) slot ++ rest) =
  if stop then out' else out' ++ within used' rest.
Proof.
  revert out used. induction slot as [|e slot IH]; intros out used; cbn [fetch_slot]; [done|].
  destruct (wanted since_ms now_ms e) eqn:E.
  - rewrite filter_cons_True by done. cbn [app within].
    destruct (MAX_FETCH_BYTES <? used + env_size e)%N; [by rewrite app_nil_r|].
    specialize (IH (out ++ [e]) (used + env_size e)%N).
    destruct (fetch_slot since_ms now_ms slot _ _) as [[out' used'] stop]. rewrite <- IH.
    by rewrite <- app_assoc.
  - rewrite filter_cons_False by congruence. apply IH.
Qed.

Lemma fetch_hints_eq m since_ms now_ms hints out used :
  fetch_hints m since_ms now_ms hints out used =
  out ++ within used (candidates m hints since_ms now_ms).
Proof.
  revert out used. induction hints as [|h hints IH]; intros out used; cbn [fetch_hints].
  - by rewrite app_nil_r.
  - unfold candidates. rewrite fmap_cons. cbn [mjoin list_join]. rewrite list.filter_app.
    destruct (mb_by_hint m !! h) as [slot|]; cbn [default from_option id]; [|apply IH].
    pose proof (fetch_slot_eq since_ms now_ms slot out used (candidates m hints since_ms now_ms)) as E.
    destruct (fetch_slot since_ms now_ms slot out used) as [[out' used'] stop].
    unfold candidates in *. etrans; [|symmetry; exact E]. destruct stop; [done|apply IH].
Qed.

Lemma within_prefix used l : within used l `prefix_of` l.
Proof.
  revert used. induction l as [|e l IH]; intros used; cbn [within]; [done|].
  destruct (_ <? _)%N; [apply prefix_nil|]. by apply prefix_cons.
Qed.

Lemma within_bound used l :
  (used ≤ MAX_FETCH_BYTES)%N → (used + sum_by env_size (within used l) ≤ MAX_FETCH_BYTES)%N.
Proof.
  revert used. induction l as [|e l IH]; intros used Hu; cbn [within]; [unfold sum_by; cbn; lia|].
  destruct (_ <? _)%N eqn:E; [unfold sum_by; cbn; lia|]. apply N.ltb_ge in E.
  specialize (IH _ E). unfold sum_by in *. cbn [foldr]. lia.
Qed.

Lemma within_all used l :
  (used + sum_by env_size l ≤ MAX_FETCH_BYTES)%N → within used l = l.
Proof.
  revert used. induction l as [|e l IH]; intros used Hu; cbn [within]; [done|].
  unfold sum_by in *. cbn [foldr] in Hu. destruct (_ <? _)%N eqn:E; [apply N.ltb_lt in E; lia|].
  rewrite IH; [done|]. lia.
Qed.

Lemma within_full used l k :
  (MAX_FETCH_BYTES < used + sum_by env_size l)%N → within used (l ++ k) = within used l.
Proof.
  revert used. induction l as [|e l IH]; intros used Hu; cbn [within app].
  - unfold sum_by in Hu. cbn in Hu. destruct k as [|e k]; [done|]. cbn [within].
    destruct (_ <? _)%N eqn:E; [done|]. apply N.ltb_ge in E. lia.
  - destruct (_ <? _)%N eqn:E; [done|]. f_equal. apply IH. unfold sum_by in *. cbn [foldr] in Hu. lia.
Qed.

Lemma fetch_eq m hints since_ms now_ms :
  fetch m hints since_ms now_ms =
  sort_by_key env_deposited_ms (within 0 (candidates m hints since_ms now_ms)).
Proof. unfold fetch. by rewrite fetch_hints_eq. Qed.

Lemma candidates_app m hs hs' since_ms now_ms :
  candidates m (hs ++ hs') since_ms now_ms =
  candidates m hs since_ms now_ms ++ candidates m hs' since_ms now_ms.
Proof.
  unfold candidates. by rewrite fmap_app, join_app, list.filter_app.
Qed.

Lemma fetch_spec m hints since_ms now_ms :
  let out := fetch m hints since_ms now_ms in
  StronglySorted (λ a b, env_deposited_ms a ≤ env_deposited_ms b)%N out ∧
  (sum_by env_size out ≤ MAX_FETCH_BYTES)%N ∧
  (∀ e, e ∈ out → (since_ms ≤ env_deposited_ms e)%N ∧ is_expired e now_ms = false ∧
     ∃ h, h ∈ hints ∧ e ∈ default [] (mb_by_hint m !! h)) ∧
  ((sum_by env_size (candidates m hints since_ms now_ms) ≤ MAX_FETCH_BYTES)%N →
   out ≡ₚ candidates m hints since_ms now_ms).
Proof.
  cbv zeta. rewrite fetch_eq. split_and!.
  - apply sort_by_key_sorted.
  - rewrite (sum_by_perm _ _ _ (sort_by_key_perm _ _)).
    pose proof (within_bound 0 (candidates m hints since_ms now_ms)). lia.
  - intros e He. rewrite sort_by_key_perm in He.
    destruct (within_prefix 0 (candidates m hints since_ms now_ms)) as [k Hk].
    assert (Hc : e ∈ candidates m hints since_ms now_ms) by (rewrite Hk; set_solver).
    apply list_elem_of_filter in Hc as [Hw Hin]. unfold wanted in Hw.
    apply andb_true_iff in Hw as [?%N.leb_le ?%negb_true_iff].
    apply list_elem_of_join in Hin as (l & Hl & (h & -> & ?)%list_elem_of_fmap). eauto.
  - intros Hfit. rewrite sort_by_key_perm. by rewrite within_all.
Qed.

(** Once the first hints exhaust the budget, the others are never served. *)
Lemma fetch_starved m hs hs' since_ms now_ms :
  (MAX_FETCH_BYTES < sum_by env_size (candidates m hs since_ms now_ms))%N →
  fetch m (hs ++ hs') since_ms now_ms = fetch m hs since_ms now_ms.
Proof. intros Hb. by rewrite !fetch_eq, candidates_app, within_full. Qed.
