(* ===== verification/RateLimit.v ===== *)
(** * Token-bucket rate limiting ([crates/dante-net/src/ratelimit.rs])

    The buckets hold [f64] tokens.  The arithmetic is the Standard Library's
    executable specification of IEEE 754 binary64 ([SpecFloat] at precision 53
    and exponent 1024), rounding to nearest even as the hardware does. *)

From Stdlib Require Import Floats.SpecFloat.
From S2P Require Import Prelude.

(** ** f64 *)

Definition f64 : Type := spec_float.
Definition f64_add : f64 → f64 → f64 := SFadd 53 1024.
Definition f64_sub : f64 → f64 → f64 := SFsub 53 1024.
Definition f64_mul : f64 → f64 → f64 := SFmul 53 1024.
Definition f64_div : f64 → f64 → f64 := SFdiv 53 1024.
(** [n as f64] for a [u64]. *)
Definition f64_of_N (n : N) : f64 := binary_normalize 53 1024 (Z.of_N n) 0 false.
(** [a >= b] and [f64::min] (which ignores a NaN). *)
Definition f64_ge (a b : f64) : bool := SFleb b a.
Definition f64_is_nan (a : f64) : bool := match a with S754_nan => true | _ => false end.
Definition f64_min (a b : f64) : f64 :=
  if f64_is_nan a then b else if f64_is_nan b then a else if SFleb a b then a else b.

#[global] Instance f64_eq_dec : EqDecision f64.
Proof. solve_decision. Defined.

(** ** One bucket *)

Record TokenBucket := mkBucket {
  tb_capacity : f64;
  tb_tokens : f64;
  tb_refill_per_ms : f64;
  tb_last_ms : N;
}.

Definition bucket_new (capacity per_sec : f64) (now_ms : N) : TokenBucket :=
  mkBucket capacity capacity (f64_div per_sec (f64_of_N 1000)) now_ms.

Definition try_take (now_ms : N) (n : f64) (self : TokenBucket) : bool * TokenBucket :=
  let elapsed := f64_of_N (now_ms - tb_last_ms self) in
  let tokens := f64_min (f64_add (tb_tokens self) (f64_mul elapsed (tb_refill_per_ms self)))
                  (tb_capacity self) in
  if f64_ge tokens n
  then (true, mkBucket (tb_capacity self) (f64_sub tokens n) (tb_refill_per_ms self) now_ms)
  else (false, mkBucket (tb_capacity self) tokens (tb_refill_per_ms self) now_ms).

(** ** Buckets by key *)

Section keyed.
Context {K : Type} `{Countable K}.

Record KeyedRateLimiter := mkLimiter {
  rl_buckets : gmap K TokenBucket;
  rl_capacity : f64;
  rl_per_sec : f64;
}.

Definition limiter_new (capacity per_sec : f64) : KeyedRateLimiter := mkLimiter ∅ capacity per_sec.

Definition check (key : K) (now_ms : N) (n : f64) (self : KeyedRateLimiter)
    : bool * KeyedRateLimiter :=
  let b := default (bucket_new (rl_capacity self) (rl_per_sec self) now_ms)
             (rl_buckets self !! key) in
  let '(ok, b') := try_take now_ms n b in
  (ok, mkLimiter (<[key := b']> (rl_buckets self)) (rl_capacity self) (rl_per_sec self)).

(** The test of [sweep]'s [retain]: [true] keeps the bucket. *)
Definition sweep_keeps (cap : f64) (now_ms idle_ms : N) (b : TokenBucket) : bool :=
  let b2 := (try_take now_ms (f64_of_N 0) b).2 in
  negb (f64_ge (tb_tokens b2) cap && (idle_ms <? now_ms - tb_last_ms b)%N).

Definition sweep (now_ms idle_ms : N) (self : KeyedRateLimiter) : KeyedRateLimiter :=
  mkLimiter (base.filter (λ kb, sweep_keeps (rl_capacity self) now_ms idle_ms kb.2 = true)
               (rl_buckets self))
    (rl_capacity self) (rl_per_sec self).
End keyed.
Arguments KeyedRateLimiter K {_ _}.

(** A run of checks of one key at one instant. *)
Fixpoint check_many {K} `{Countable K} (key : K) (now_ms : N) (n : f64) (times : nat)
    (self : KeyedRateLimiter K) : list bool * KeyedRateLimiter K :=
  match times with
  | O => ([], self)
  | S t =>
    let '(ok, self1) := check key now_ms n self in
    let '(oks, self2) := check_many key now_ms n t self1 in
    (ok :: oks, self2)
  end.

(** ** Lemmas *)

Lemma check_other {K} `{Countable K} (key key' : K) now_ms n rl :
  key' ≠ key → rl_buckets (check key now_ms n rl).2 !! key' = rl_buckets rl !! key'.
Proof.
  intros Hne. unfold check. destruct (try_take _ _ _) as [ok b']. cbn.
  by rewrite lookup_insert_ne.
Qed.

(** The clock going backwards refills nothing ([saturating_sub]). *)
Lemma try_take_backwards now_ms n b :
  (now_ms ≤ tb_last_ms b)%N → try_take now_ms n b =
    let tokens := f64_min (f64_add (tb_tokens b) (f64_mul (f64_of_N 0) (tb_refill_per_ms b))) (tb_capacity b) in
    if f64_ge tokens n
    then (true, mkBucket (tb_capacity b) (f64_sub tokens n) (tb_refill_per_ms b) now_ms)
    else (false, mkBucket (tb_capacity b) tokens (tb_refill_per_ms b) now_ms).
Proof. intros Hle. unfold try_take. by replace (now_ms - tb_last_ms b)%N with 0%N by lia. Qed.

Definition one : f64 := f64_of_N 1.

(** The tokens of a bucket after repeated takes at one instant. *)
Fixpoint drain (cap refill tokens : f64) (n : f64) (times : nat) : list bool :=
  match times with
  | O => []
  | S t =>
    let tokens := f64_min (f64_add tokens (f64_mul (f64_of_N 0) refill)) cap in
    if f64_ge tokens n then true :: drain cap refill (f64_sub tokens n) n t
    else false :: drain cap refill tokens n t
  end.

Lemma check_many_drain {K} `{Countable K} (key : K) now_ms n times rl b :
  rl_buckets rl !! key = Some b → tb_last_ms b = now_ms →
  (check_many key now_ms n times rl).1 =
  drain (tb_capacity b) (tb_refill_per_ms b) (tb_tokens b) n times.
Proof.
  revert rl b. induction times as [|t IH]; intros rl b Hb Hl; cbn [check_many drain]; [done|].
  destruct (check key now_ms n rl) as [ok rl1] eqn:E. unfold check in E. rewrite Hb in E.
  cbn [default from_option id] in E. rewrite try_take_backwards in E by (rewrite Hl; lia). cbv zeta in E.
  destruct (f64_ge _ n) eqn:Ege in E; injection E as <- <-; rewrite Ege;
    match goal with |- context [check_many key now_ms n t ?rl'] =>
      specialize (IH rl'); destruct (check_many key now_ms n t rl') as [oks rl2] eqn:Em end;
    cbn [fst] in *; f_equal; (etrans; [apply IH; [cbn; apply lookup_insert_eq|done]|done]).
Qed.

(** A key seen for the first time starts with a full bucket. *)
Lemma check_many_fresh {K} `{Countable K} (key : K) now_ms n times rl :
  rl_buckets rl !! key = None →
  (check_many key now_ms n times rl).1 =
  drain (rl_capacity rl) (f64_div (rl_per_sec rl) (f64_of_N 1000)) (rl_capacity rl) n times.
Proof.
  intros Hk. destruct times as [|t]; cbn [check_many drain]; [done|].
  destruct (check key now_ms n rl) as [ok rl1] eqn:E. unfold check in E. rewrite Hk in E.
  cbn [default from_option id] in E. rewrite try_take_backwards in E by (cbn; lia). cbv zeta in E.
  cbn [bucket_new tb_tokens tb_refill_per_ms tb_capacity] in E.
  destruct (f64_ge _ n) eqn:Ege in E; injection E as <- <-; rewrite Ege;
    match goal with |- context [check_many key now_ms n t ?rl'] =>
      pose proof (check_many_drain key now_ms n t rl' _ (lookup_insert_eq _ _ _) eq_refl) as IH;
      destruct (check_many key now_ms n t rl') as [oks rl2] eqn:Em end;
    cbn [fst] in *; f_equal; exact IH.
Qed.
