(* ===== verification/Wire.v ===== *)
(** * The relay request/response protocol ([crates/dante-net/src/wire.rs]) *)

From S2P Require Import Prelude Utf8 Enc Crypto IdentityRecords Server.

(** ** Messages *)

Inductive Request : Type :=
  | RqPing
  | RqSubmitRecord (rec : bytes)
  | RqGetTreeHead
  | RqGetRecords (from to : N)
  | RqDeposit (env : bytes)
  | RqFetch (hints : list bytes) (since_ms : N)
  | RqPublishPrekeys (bundle : bytes)
  | RqGetPrekeys (id : bytes)
  | RqPutBlob (blob : bytes)
  | RqGetBlob (hash : bytes)
  | RqPostToChannel (channel_id blob identity sig : bytes)
  | RqSetChannelRoster (channel_id server_root : bytes) (version : N) (members : list bytes) (sig : bytes)
  | RqFetchChannel (channel_id : bytes) (since_seq : N)
  | RqChannelHeads (channel_ids : list bytes)
  | RqPostSignal (topic blob : bytes)
  | RqFetchSignals (topic : bytes)
  | RqGetIceConfig
  | RqPublishKeyPackages (identity : bytes) (key_packages : list bytes) (sig : bytes)
  | RqGetKeyPackage (id : bytes)
  | RqAnnounceP2p (addrs : list bytes)
  | RqGetP2pPeers
  | RqSfuJoin (room offer : bytes)
  | RqSfuIce (room : bytes) (slot : N) (candidate : bytes)
  | RqSfuPull (room : bytes) (slot : N)
  | RqSfuLeave (room : bytes) (slot : N)
  | RqUnfurlLink (url : bytes).

Record IceCfg := mkIceCfg { ic_urls : list bytes; ic_username : bytes; ic_credential : bytes }.

Inductive Response : Type :=
  | RsPong
  | RsOk
  | RsError (msg : bytes)
  | RsTreeHead (size : N) (root : bytes)
  | RsRecords (blobs : list bytes)
  | RsEnvelopes (blobs : list bytes)
  | RsPrekeys (bundle : option bytes)
  | RsBlob (blob : option bytes)
  | RsChannelLog (entries : list (N * bytes))
  | RsChannelHeads (heads : list (bytes * N))
  | RsSignals (blobs : list bytes)
  | RsIceConfig (list : list IceCfg)
  | RsKeyPackage (kp : option bytes)
  | RsPosted (seq : N)
  | RsP2pPeers (addrs : list bytes)
  | RsSfuAnswer (slot : N) (answer : bytes)
  | RsSfuIce (candidates : list bytes)
  | RsUnfurlPreview (url site title description image_data_uri : bytes).

#[global] Instance Request_eq_dec : EqDecision Request.
Proof. solve_decision. Defined.

(** ** Tags *)

Definition REQ_PING : N := 0.
Definition REQ_SUBMIT : N := 1.
Definition REQ_GET_HEAD : N := 2.
Definition REQ_GET_RECORDS : N := 3.
Definition REQ_DEPOSIT : N := 4.
Definition REQ_FETCH : N := 5.
Definition REQ_PUBLISH_PREKEYS : N := 6.
Definition REQ_GET_PREKEYS : N := 7.
Definition REQ_PUT_BLOB : N := 8.
Definition REQ_GET_BLOB : N := 9.
Definition REQ_POST_CHANNEL : N := 10.
Definition REQ_FETCH_CHANNEL : N := 11.
Definition REQ_POST_SIGNAL : N := 12.
Definition REQ_FETCH_SIGNALS : N := 13.
Definition REQ_GET_ICE : N := 14.
Definition REQ_PUBLISH_KEYPKG : N := 15.
Definition REQ_GET_KEYPKG : N := 16.
Definition REQ_ANNOUNCE_P2P : N := 17.
Definition REQ_GET_P2P_PEERS : N := 18.
Definition REQ_SFU_JOIN : N := 19.
Definition REQ_SFU_ICE : N := 20.
Definition REQ_SFU_PULL : N := 21.
Definition REQ_SFU_LEAVE : N := 22.
Definition REQ_UNFURL : N := 23.
Definition REQ_SET_CHANNEL_ROSTER : N := 24.
Definition REQ_CHANNEL_HEADS : N := 25.

Definition RES_PONG : N := 0.
Definition RES_OK : N := 1.
Definition RES_ERROR : N := 2.
Definition RES_TREE_HEAD : N := 3.
Definition RES_RECORDS : N := 4.
Definition RES_ENVELOPES : N := 5.
Definition RES_PREKEYS : N := 6.
Definition RES_BLOB : N := 7.
Definition RES_CHANNEL_LOG : N := 8.
Definition RES_SIGNALS : N := 9.
Definition RES_ICE : N := 10.
Definition RES_KEYPKG : N := 11.
Definition RES_POSTED : N := 12.
Definition RES_P2P_PEERS : N := 13.
Definition RES_SFU_ANSWER : N := 14.
Definition RES_SFU_ICE : N := 15.
Definition RES_UNFURL : N := 16.
Definition RES_CHANNEL_HEADS : N := 17.

(** ** Lists *)

Definition write_blob_list (blobs : list bytes) (w : Writer) : Writer :=
  w_each w_bytes blobs (w |> w_u32 (as_u32 (len blobs))).
Definition write_str_list (items : list bytes) (w : Writer) : Writer :=
  w_each w_string items (w |> w_u32 (as_u32 (len items))).
Definition write_id_list (ids : list bytes) (w : Writer) : Writer :=
  w_each w_fixed ids (w |> w_u32 (as_u32 (len ids))).
Definition write_ice_list (list : list IceCfg) (w : Writer) : Writer :=
  w_each (λ c w, write_str_list (ic_urls c) w |> w_string (ic_username c)
                   |> w_string (ic_credential c))
    list (w |> w_u32 (as_u32 (len list))).

Definition read_str_list : Read (list bytes) := r_counted r_string.
Definition read_blob_list : Read (list bytes) := r_counted r_bytes.
Definition read_id_list : Read (list bytes) := r_counted (r_fixed 32).
Definition read_ice_list : Read (list IceCfg) :=
  r_counted (let! urls := r_counted r_string in
             let! username := r_string in
             let! credential := r_string in
             r_ret (mkIceCfg urls username credential)).

(** ** Challenges *)

Definition KEYPKG_PUBLISH_DOMAIN : bytes := lit "dante/relay-write/publish-key-packages/v1".
Definition POST_TO_CHANNEL_DOMAIN : bytes := lit "dante/relay-write/post-to-channel/v1".
Definition CHANNEL_ROSTER_DOMAIN : bytes := lit "dante/relay-write/channel-roster/v1".

(** The messages that the three challenges hash. *)
Definition keypkg_publish_msg (identity : bytes) (key_packages : list bytes) : bytes :=
  w_into_vec (w_new |> w_fixed identity |> write_blob_list key_packages).
Definition post_to_channel_msg (channel_id identity blob : bytes) : bytes :=
  w_into_vec (w_new |> w_fixed channel_id |> w_fixed identity |> w_bytes blob).
Definition channel_roster_msg (channel_id server_root : bytes) (version : N) (members : list bytes)
    : bytes :=
  w_into_vec (w_new |> w_fixed channel_id |> w_fixed server_root |> w_u64 version
              |> write_id_list members).

Section challenges.
Context `{CryptoPrims}.
Definition keypkg_publish_challenge (identity : bytes) (key_packages : list bytes) : bytes :=
  sha256_parts [KEYPKG_PUBLISH_DOMAIN; keypkg_publish_msg identity key_packages].
Definition post_to_channel_challenge (channel_id identity blob : bytes) : bytes :=
  sha256_parts [POST_TO_CHANNEL_DOMAIN; post_to_channel_msg channel_id identity blob].
Definition channel_roster_challenge (channel_id server_root : bytes) (version : N)
    (members : list bytes) : bytes :=
  sha256_parts [CHANNEL_ROSTER_DOMAIN; channel_roster_msg channel_id server_root version members].
End challenges.

(** ** Requests *)

Definition request_encode (self : Request) : bytes :=
  let w := w_new in
  w_into_vec match self with
  | RqPing => w |> w_u8 REQ_PING
  | RqSubmitRecord rec => w |> w_u8 REQ_SUBMIT |> w_bytes rec
  | RqGetTreeHead => w |> w_u8 REQ_GET_HEAD
  | RqGetRecords from to => w |> w_u8 REQ_GET_RECORDS |> w_u64 from |> w_u64 to
  | RqDeposit env => w |> w_u8 REQ_DEPOSIT |> w_bytes env
  | RqFetch hints since_ms =>
      w_each w_fixed hints (w |> w_u8 REQ_FETCH |> w_u32 (as_u32 (len hints))) |> w_u64 since_ms
  | RqPublishPrekeys bundle => w |> w_u8 REQ_PUBLISH_PREKEYS |> w_bytes bundle
  | RqGetPrekeys id => w |> w_u8 REQ_GET_PREKEYS |> w_fixed id
  | RqPutBlob blob => w |> w_u8 REQ_PUT_BLOB |> w_bytes blob
  | RqGetBlob hash => w |> w_u8 REQ_GET_BLOB |> w_fixed hash
  | RqPostToChannel channel_id blob identity sig =>
      w |> w_u8 REQ_POST_CHANNEL |> w_fixed channel_id |> w_bytes blob |> w_fixed identity
        |> w_fixed sig
  | RqSetChannelRoster channel_id server_root version members sig =>
      w |> w_u8 REQ_SET_CHANNEL_ROSTER |> w_fixed channel_id |> w_fixed server_root
        |> w_u64 version |> write_id_list members |> w_fixed sig
  | RqFetchChannel channel_id since_seq =>
      w |> w_u8 REQ_FETCH_CHANNEL |> w_fixed channel_id |> w_u64 since_seq
  | RqChannelHeads channel_ids => w |> w_u8 REQ_CHANNEL_HEADS |> write_id_list channel_ids
  | RqPostSignal topic blob => w |> w_u8 REQ_POST_SIGNAL |> w_fixed topic |> w_bytes blob
  | RqFetchSignals topic => w |> w_u8 REQ_FETCH_SIGNALS |> w_fixed topic
  | RqGetIceConfig => w |> w_u8 REQ_GET_ICE
  | RqPublishKeyPackages identity key_packages sig =>
      w |> w_u8 REQ_PUBLISH_KEYPKG |> w_fixed identity |> write_blob_list key_packages
        |> w_fixed sig
  | RqGetKeyPackage id => w |> w_u8 REQ_GET_KEYPKG |> w_fixed id
  | RqAnnounceP2p addrs => w |> w_u8 REQ_ANNOUNCE_P2P |> write_str_list addrs
  | RqGetP2pPeers => w |> w_u8 REQ_GET_P2P_PEERS
  | RqSfuJoin room offer => w |> w_u8 REQ_SFU_JOIN |> w_fixed room |> w_string offer
  | RqSfuIce room slot candidate =>
      w |> w_u8 REQ_SFU_ICE |> w_fixed room |> w_u8 slot |> w_string candidate
  | RqSfuPull room slot => w |> w_u8 REQ_SFU_PULL |> w_fixed room |> w_u8 slot
  | RqSfuLeave room slot => w |> w_u8 REQ_SFU_LEAVE |> w_fixed room |> w_u8 slot
  | RqUnfurlLink url => w |> w_u8 REQ_UNFURL |> w_string url
  end.

(** The arms of [Request::decode], by tag. *)
Definition r_request_body (tag : N) : Read Request :=
  match tag with
  | 0%N => r_ret RqPing
  | 1%N => let! rec := r_bytes in r_ret (RqSubmitRecord rec)
  | 2%N => r_ret RqGetTreeHead
  | 3%N => let! from := r_u64 in let! to := r_u64 in r_ret (RqGetRecords from to)
  | 4%N => let! env := r_bytes in r_ret (RqDeposit env)
  | 5%N => let! hints := r_counted (r_fixed 8) in let! since := r_u64 in r_ret (RqFetch hints since)
  | 6%N => let! bundle := r_bytes in r_ret (RqPublishPrekeys bundle)
  | 7%N => let! id := r_fixed 32 in r_ret (RqGetPrekeys id)
  | 8%N => let! blob := r_bytes in r_ret (RqPutBlob blob)
  | 9%N => let! hash := r_fixed 32 in r_ret (RqGetBlob hash)
  | 10%N => let! channel_id := r_fixed 32 in let! blob := r_bytes in
            let! identity := r_fixed 32 in let! sig := r_fixed 64 in
            r_ret (RqPostToChannel channel_id blob identity sig)
  | 11%N => let! channel_id := r_fixed 32 in let! since := r_u64 in
            r_ret (RqFetchChannel channel_id since)
  | 12%N => let! topic := r_fixed 32 in let! blob := r_bytes in r_ret (RqPostSignal topic blob)
  | 13%N => let! topic := r_fixed 32 in r_ret (RqFetchSignals topic)
  | 14%N => r_ret RqGetIceConfig
  | 15%N => let! identity := r_fixed 32 in let! kps := read_blob_list in let! sig := r_fixed 64 in
            r_ret (RqPublishKeyPackages identity kps sig)
  | 16%N => let! id := r_fixed 32 in r_ret (RqGetKeyPackage id)
  | 17%N => let! addrs := read_str_list in r_ret (RqAnnounceP2p addrs)
  | 18%N => r_ret RqGetP2pPeers
  | 19%N => let! room := r_fixed 32 in let! offer := r_string in r_ret (RqSfuJoin room offer)
  | 20%N => let! room := r_fixed 32 in let! slot := r_u8 in let! candidate := r_string in
            r_ret (RqSfuIce room slot candidate)
  | 21%N => let! room := r_fixed 32 in let! slot := r_u8 in r_ret (RqSfuPull room slot)
  | 22%N => let! room := r_fixed 32 in let! slot := r_u8 in r_ret (RqSfuLeave room slot)
  | 23%N => let! url := r_string in r_ret (RqUnfurlLink url)
  | 24%N => let! channel_id := r_fixed 32 in let! server_root := r_fixed 32 in
            let! version := r_u64 in let! members := read_id_list in let! sig := r_fixed 64 in
            r_ret (RqSetChannelRoster channel_id server_root version members sig)
  | 25%N => let! channel_ids := read_id_list in r_ret (RqChannelHeads channel_ids)
  | other => r_err (BadDiscriminant "Request" other)
  end.

Definition r_request : Read Request :=
  let! tag := r_u8 in
  let! out := r_request_body tag in
  let! _ := r_finish in
  r_ret out.
Definition request_decode (bs : bytes) : result Request WireError := run r_request bs.

(** ** Responses *)

Definition write_option (o : option bytes) (w : Writer) : Writer :=
  match o with Some b => w |> w_bool true |> w_bytes b | None => w |> w_bool false end.
Definition read_option : Read (option bytes) :=
  let! some := r_bool in if some : bool then let! b := r_bytes in r_ret (Some b) else r_ret None.

Definition response_encode (self : Response) : bytes :=
  let w := w_new in
  w_into_vec match self with
  | RsPong => w |> w_u8 RES_PONG
  | RsOk => w |> w_u8 RES_OK
  | RsError msg => w |> w_u8 RES_ERROR |> w_string msg
  | RsTreeHead size root => w |> w_u8 RES_TREE_HEAD |> w_u64 size |> w_fixed root
  | RsRecords blobs => w |> w_u8 RES_RECORDS |> write_blob_list blobs
  | RsEnvelopes blobs => w |> w_u8 RES_ENVELOPES |> write_blob_list blobs
  | RsPrekeys bundle => w |> w_u8 RES_PREKEYS |> write_option bundle
  | RsBlob blob => w |> w_u8 RES_BLOB |> write_option blob
  | RsChannelLog entries =>
      w_each (λ '(seq, blob) w, w |> w_u64 seq |> w_bytes blob) entries
        (w |> w_u8 RES_CHANNEL_LOG |> w_u32 (as_u32 (len entries)))
  | RsChannelHeads heads =>
      w_each (λ '(channel_id, seq) w, w |> w_fixed channel_id |> w_u64 seq) heads
        (w |> w_u8 RES_CHANNEL_HEADS |> w_u32 (as_u32 (len heads)))
  | RsSignals blobs => w |> w_u8 RES_SIGNALS |> write_blob_list blobs
  | RsIceConfig list => w |> w_u8 RES_ICE |> write_ice_list list
  | RsKeyPackage kp => w |> w_u8 RES_KEYPKG |> write_option kp
  | RsPosted seq => w |> w_u8 RES_POSTED |> w_u64 seq
  | RsP2pPeers addrs => w |> w_u8 RES_P2P_PEERS |> write_str_list addrs
  | RsSfuAnswer slot answer => w |> w_u8 RES_SFU_ANSWER |> w_u8 slot |> w_string answer
  | RsSfuIce candidates => w |> w_u8 RES_SFU_ICE |> write_str_list candidates
  | RsUnfurlPreview url site title description image_data_uri =>
      w |> w_u8 RES_UNFURL |> w_string url |> w_string site |> w_string title
        |> w_string description |> w_string image_data_uri
  end.

(** The arms of [Response::decode], by tag. *)
Definition r_response_body (tag : N) : Read Response :=
  match tag with
  | 0%N => r_ret RsPong
  | 1%N => r_ret RsOk
  | 2%N => let! msg := r_string in r_ret (RsError msg)
  | 3%N => let! size := r_u64 in let! root := r_fixed 32 in r_ret (RsTreeHead size root)
  | 4%N => let! blobs := read_blob_list in r_ret (RsRecords blobs)
  | 5%N => let! blobs := read_blob_list in r_ret (RsEnvelopes blobs)
  | 6%N => let! bundle := read_option in r_ret (RsPrekeys bundle)
  | 7%N => let! blob := read_option in r_ret (RsBlob blob)
  | 8%N => let! entries := r_counted (r_pair r_u64 r_bytes) in r_ret (RsChannelLog entries)
  | 9%N => let! blobs := read_blob_list in r_ret (RsSignals blobs)
  | 10%N => let! list := read_ice_list in r_ret (RsIceConfig list)
  | 11%N => let! kp := read_option in r_ret (RsKeyPackage kp)
  | 12%N => let! seq := r_u64 in r_ret (RsPosted seq)
  | 13%N => let! addrs := read_str_list in r_ret (RsP2pPeers addrs)
  | 14%N => let! slot := r_u8 in let! answer := r_string in r_ret (RsSfuAnswer slot answer)
  | 15%N => let! candidates := read_str_list in r_ret (RsSfuIce candidates)
  | 16%N => let! url := r_string in let! site := r_string in let! title := r_string in
            let! description := r_string in let! image := r_string in
            r_ret (RsUnfurlPreview url site title description image)
  | 17%N => let! heads := r_counted (r_pair (r_fixed 32) r_u64) in r_ret (RsChannelHeads heads)
  | other => r_err (BadDiscriminant "Response" other)
  end.

Definition r_response : Read Response :=
  let! tag := r_u8 in
  let! out := r_response_body tag in
  let! _ := r_finish in
  r_ret out.
Definition response_decode (bs : bytes) : result Response WireError := run r_response bs.

(** ** The Rust types of the fields *)

Definition ok_ids (n : nat) : list bytes → Prop := ok_list (ok_len n).
Definition ok_strs : list bytes → Prop := ok_list ok_str.
Definition ok_blobs : list bytes → Prop := ok_list fits_u32.

Definition request_ok (r : Request) : Prop :=
  match r with
  | RqPing | RqGetTreeHead | RqGetIceConfig | RqGetP2pPeers => True
  | RqSubmitRecord b | RqDeposit b | RqPublishPrekeys b | RqPutBlob b => fits_u32 b
  | RqGetRecords from to => ok_u64 from ∧ ok_u64 to
  | RqFetch hints since => ok_ids 8 hints ∧ ok_u64 since
  | RqGetPrekeys id | RqGetBlob id | RqFetchSignals id | RqGetKeyPackage id => ok_len 32 id
  | RqPostToChannel c b i s => ok_len 32 c ∧ fits_u32 b ∧ ok_len 32 i ∧ ok_len 64 s
  | RqSetChannelRoster c r v m s =>
      ok_len 32 c ∧ ok_len 32 r ∧ ok_u64 v ∧ ok_ids 32 m ∧ ok_len 64 s
  | RqFetchChannel c s => ok_len 32 c ∧ ok_u64 s
  | RqChannelHeads ids => ok_ids 32 ids
  | RqPostSignal t b => ok_len 32 t ∧ fits_u32 b
  | RqPublishKeyPackages i k s => ok_len 32 i ∧ ok_blobs k ∧ ok_len 64 s
  | RqAnnounceP2p a => ok_strs a
  | RqSfuJoin r o => ok_len 32 r ∧ ok_str o
  | RqSfuIce r s c => ok_len 32 r ∧ ok_u8 s ∧ ok_str c
  | RqSfuPull r s | RqSfuLeave r s => ok_len 32 r ∧ ok_u8 s
  | RqUnfurlLink u => ok_str u
  end.

Definition ice_ok (c : IceCfg) : Prop :=
  ok_strs (ic_urls c) ∧ ok_str (ic_username c) ∧ ok_str (ic_credential c).
Definition ok_option (o : option bytes) : Prop := match o with Some b => fits_u32 b | None => True end.

Definition response_ok (r : Response) : Prop :=
  match r with
  | RsPong | RsOk => True
  | RsError m => ok_str m
  | RsTreeHead n r => ok_u64 n ∧ ok_len 32 r
  | RsRecords b | RsEnvelopes b | RsSignals b => ok_blobs b
  | RsPrekeys o | RsBlob o | RsKeyPackage o => ok_option o
  | RsChannelLog es => ok_list (λ p, ok_u64 p.1 ∧ fits_u32 p.2) es
  | RsChannelHeads hs => ok_list (λ p, ok_len 32 p.1 ∧ ok_u64 p.2) hs
  | RsIceConfig l => ok_list ice_ok l
  | RsPosted s => ok_u64 s
  | RsP2pPeers a | RsSfuIce a => ok_strs a
  | RsSfuAnswer s a => ok_u8 s ∧ ok_str a
  | RsUnfurlPreview a b c d e => ok_str a ∧ ok_str b ∧ ok_str c ∧ ok_str d ∧ ok_str e
  end.
