(* ===== verification/WireProofs.v ===== *)
(** * The wire protocol's codecs are canonical *)

From S2P Require Import Prelude Utf8 Enc Crypto ProtoRecord IdentityRecords Server Wire.

(** ** Lists *)

Lemma fixed_nonempty n bs : ok_len (S n) bs → (1 ≤ length (id bs))%nat.
Proof. unfold ok_len, id. lia. Qed.

#[export] Instance ids_parses n : Parses (r_counted (r_fixed (S n))) (enc_list id) (ok_list (ok_len (S n))).
Proof. apply counted_parses; [apply fixed_nonempty|apply _]. Qed.
#[export] Instance ids_canon n : Canon (r_counted (r_fixed (S n))) (enc_list id) (ok_list (ok_len (S n))).
Proof. apply counted_canon, _. Qed.
#[export] Instance id_list_parses : Parses read_id_list (enc_list id) (ok_ids 32).
Proof. apply ids_parses. Qed.
#[export] Instance id_list_canon : Canon read_id_list (enc_list id) (ok_ids 32).
Proof. apply ids_canon. Qed.
#[export] Instance str_list_parses : Parses read_str_list (enc_list lenp) ok_strs.
Proof. apply string_list_parses. Qed.
#[export] Instance str_list_canon : Canon read_str_list (enc_list lenp) ok_strs.
Proof. apply string_list_canon. Qed.
#[export] Instance strs_parses : Parses (r_counted r_string) (enc_list lenp) (ok_list ok_str).
Proof. apply string_list_parses. Qed.
#[export] Instance strs_canon : Canon (r_counted r_string) (enc_list lenp) (ok_list ok_str).
Proof. apply string_list_canon. Qed.
#[export] Instance blob_list_parses : Parses read_blob_list (enc_list lenp) ok_blobs.
Proof. apply counted_parses; [intros; apply lenp_nonempty|apply _]. Qed.
#[export] Instance blob_list_canon : Canon read_blob_list (enc_list lenp) ok_blobs.
Proof. apply counted_canon, _. Qed.

Definition enc_ice (c : IceCfg) : bytes :=
  enc_list lenp (ic_urls c) ++ lenp (ic_username c) ++ lenp (ic_credential c).

#[export] Instance ice_list_parses : Parses read_ice_list (enc_list enc_ice) (ok_list ice_ok).
Proof.
  apply counted_parses.
  - intros c _. unfold enc_ice. rewrite !length_app. pose proof (lenp_nonempty (ic_username c)). lia.
  - intros [u n c] pre post (Hu & Hn & Hc). unfold enc_ice. cbn in *. rewrite <- !app_assoc.
    parses. unfold r_ret. by rewrite <- !app_assoc.
Qed.
#[export] Instance ice_list_canon : Canon read_ice_list (enc_list enc_ice) (ok_list ice_ok).
Proof.
  apply counted_canon. intros pre xs c r H. canons H. injection H as <- <-.
  split; [done|]. eexists. unfold enc_ice. cbn. by rewrite <- !app_assoc.
Qed.

Definition enc_option (o : option bytes) : bytes :=
  match o with Some b => enc_bool true ++ lenp b | None => enc_bool false end.
#[export] Instance option_parses : Parses read_option enc_option ok_option.
Proof.
  intros [b|] pre post Ho; unfold read_option, enc_option; rewrite <- ?app_assoc.
  - rewrite (r_bind_rd _ _ _ _ _ _ _ bool_parses I). cbn [ok_option] in Ho. parses.
    unfold r_ret. by rewrite <- !app_assoc.
  - by rewrite (r_bind_rd _ _ _ _ _ _ _ bool_parses I).
Qed.
#[export] Instance option_canon : Canon read_option enc_option ok_option.
Proof.
  intros pre xs o r H. unfold read_option in H. canon1 H. destruct a.
  - canons H. injection H as <- <-. split; [done|]. eexists. cbn. by rewrite <- !app_assoc.
  - injection H as <- <-. split; [done|]. by eexists.
Qed.

Definition enc_entry (p : N * bytes) : bytes := be 8 p.1 ++ lenp p.2.
Definition enc_head (p : bytes * N) : bytes := id p.1 ++ be 8 p.2.
#[export] Instance entries_parses :
  Parses (r_counted (r_pair r_u64 r_bytes)) (enc_list enc_entry) (ok_list (λ p, ok_u64 p.1 ∧ fits_u32 p.2)).
Proof.
  apply counted_parses; [|apply (pair_parses _ _ _ _ _ _ u64_parses bytes_parses)].
  intros p _. unfold enc_entry. rewrite length_app, length_be. lia.
Qed.
#[export] Instance entries_canon :
  Canon (r_counted (r_pair r_u64 r_bytes)) (enc_list enc_entry) (ok_list (λ p, ok_u64 p.1 ∧ fits_u32 p.2)).
Proof. apply counted_canon, (pair_canon _ _ _ _ _ _ u64_canon bytes_canon). Qed.
#[export] Instance heads_parses :
  Parses (r_counted (r_pair (r_fixed 32) r_u64)) (enc_list enc_head) (ok_list (λ p, ok_len 32 p.1 ∧ ok_u64 p.2)).
Proof.
  apply counted_parses; [|apply (pair_parses _ _ _ _ _ _ (fixed_parses 32) u64_parses)].
  intros p _. unfold enc_head. rewrite length_app, length_be. lia.
Qed.
#[export] Instance heads_canon :
  Canon (r_counted (r_pair (r_fixed 32) r_u64)) (enc_list enc_head) (ok_list (λ p, ok_len 32 p.1 ∧ ok_u64 p.2)).
Proof. apply counted_canon, (pair_canon _ _ _ _ _ _ (fixed_canon 32) u64_canon). Qed.

(** ** What the list writers append *)

Lemma w_buf_ids xs w : w_buf (w_each w_fixed xs w) = w_buf w ++ mjoin (id <$> xs).
Proof. by apply w_buf_each. Qed.
Lemma w_buf_blobs xs w : w_buf (w_each w_bytes xs w) = w_buf w ++ mjoin (lenp <$> xs).
Proof. apply w_buf_each. intros. apply w_buf_bytes. Qed.
Lemma w_buf_id_list xs w : w_buf (write_id_list xs w) = w_buf w ++ enc_list id xs.
Proof. unfold write_id_list, enc_list. rewrite w_buf_ids. by enc_norm. Qed.
Lemma w_buf_blob_list xs w : w_buf (write_blob_list xs w) = w_buf w ++ enc_list lenp xs.
Proof. unfold write_blob_list, enc_list. rewrite w_buf_blobs. by enc_norm. Qed.
Lemma w_buf_str_list xs w : w_buf (write_str_list xs w) = w_buf w ++ enc_list lenp xs.
Proof. unfold write_str_list, enc_list. rewrite w_buf_strings. by enc_norm. Qed.
#[export] Hint Rewrite w_buf_id_list w_buf_blob_list w_buf_str_list : writer.
Lemma w_buf_ice_list xs w : w_buf (write_ice_list xs w) = w_buf w ++ enc_list enc_ice xs.
Proof.
  unfold write_ice_list, enc_list. rewrite (w_buf_each _ enc_ice); [by enc_norm|].
  intros c w'. unfold enc_ice. by enc_norm.
Qed.
Lemma w_buf_option o w : w_buf (write_option o w) = w_buf w ++ enc_option o.
Proof. destruct o; unfold write_option, enc_option; by enc_norm. Qed.
Lemma w_buf_entries xs w :
  w_buf (w_each (λ '(seq, blob) w, w |> w_u64 seq |> w_bytes blob) xs w) =
  w_buf w ++ mjoin (enc_entry <$> xs).
Proof. apply w_buf_each. intros [s b] w'. unfold enc_entry. by enc_norm. Qed.
Lemma w_buf_heads xs w :
  w_buf (w_each (λ '(channel_id, seq) w, w |> w_fixed channel_id |> w_u64 seq) xs w) =
  w_buf w ++ mjoin (enc_head <$> xs).
Proof. apply w_buf_each. intros [s b] w'. unfold enc_head, id. by enc_norm. Qed.
#[export] Hint Rewrite w_buf_ice_list w_buf_option w_buf_entries w_buf_heads w_buf_ids : writer.

(** ** The codecs *)

(** A message is a tag and a body; the body's parser inverts its encoder. *)
Definition request_tag (r : Request) : N :=
  match r with
  | RqPing => REQ_PING | RqSubmitRecord _ => REQ_SUBMIT | RqGetTreeHead => REQ_GET_HEAD
  | RqGetRecords _ _ => REQ_GET_RECORDS | RqDeposit _ => REQ_DEPOSIT | RqFetch _ _ => REQ_FETCH
  | RqPublishPrekeys _ => REQ_PUBLISH_PREKEYS | RqGetPrekeys _ => REQ_GET_PREKEYS
  | RqPutBlob _ => REQ_PUT_BLOB | RqGetBlob _ => REQ_GET_BLOB
  | RqPostToChannel _ _ _ _ => REQ_POST_CHANNEL
  | RqSetChannelRoster _ _ _ _ _ => REQ_SET_CHANNEL_ROSTER
  | RqFetchChannel _ _ => REQ_FETCH_CHANNEL | RqChannelHeads _ => REQ_CHANNEL_HEADS
  | RqPostSignal _ _ => REQ_POST_SIGNAL | RqFetchSignals _ => REQ_FETCH_SIGNALS
  | RqGetIceConfig => REQ_GET_ICE | RqPublishKeyPackages _ _ _ => REQ_PUBLISH_KEYPKG
  | RqGetKeyPackage _ => REQ_GET_KEYPKG | RqAnnounceP2p _ => REQ_ANNOUNCE_P2P
  | RqGetP2pPeers => REQ_GET_P2P_PEERS | RqSfuJoin _ _ => REQ_SFU_JOIN
  | RqSfuIce _ _ _ => REQ_SFU_ICE | RqSfuPull _ _ => REQ_SFU_PULL
  | RqSfuLeave _ _ => REQ_SFU_LEAVE | RqUnfurlLink _ => REQ_UNFURL
  end.

Definition request_body (r : Request) : bytes :=
  match r with
  | RqPing | RqGetTreeHead | RqGetIceConfig | RqGetP2pPeers => []
  | RqSubmitRecord b | RqDeposit b | RqPublishPrekeys b | RqPutBlob b => lenp b
  | RqGetRecords from to => be 8 from ++ be 8 to
  | RqFetch hints since => enc_list id hints ++ be 8 since
  | RqGetPrekeys id | RqGetBlob id | RqFetchSignals id | RqGetKeyPackage id => id
  | RqPostToChannel c b i s => c ++ lenp b ++ i ++ s
  | RqSetChannelRoster c r v m s => c ++ r ++ be 8 v ++ enc_list id m ++ s
  | RqFetchChannel c s => c ++ be 8 s
  | RqChannelHeads ids => enc_list id ids
  | RqPostSignal t b => t ++ lenp b
  | RqPublishKeyPackages i k s => i ++ enc_list lenp k ++ s
  | RqAnnounceP2p a => enc_list lenp a
  | RqSfuJoin r o => r ++ lenp o
  | RqSfuIce r s c => r ++ enc_u8 s ++ lenp c
  | RqSfuPull r s | RqSfuLeave r s => r ++ enc_u8 s
  | RqUnfurlLink u => lenp u
  end.

Lemma request_encode_eq r : request_encode r = enc_u8 (request_tag r) ++ request_body r.
Proof.
  destruct r; unfold request_encode, request_tag, request_body, enc_list; enc_norm;
    rewrite ?app_nil_r; done.
Qed.

Lemma request_body_parses r pre post :
  request_ok r →
  r_request_body (request_tag r) (rd pre (request_body r ++ post)) = Ok (r, rd (pre ++ request_body r) post).
Proof.
  destruct r; cbn [request_ok]; intros Hok; destruct_and?;
    unfold request_tag, request_body;
    match goal with |- r_request_body ?t _ = _ => let t' := eval cbv in t in change t with t' end;
    cbn [r_request_body]; rewrite <- ?app_assoc; parses; unfold r_ret, Datatypes.id;
    rewrite <- ?app_assoc, ?app_nil_r; done.
Qed.

(** What a successful body parse says of its input. *)
Lemma request_body_canon tag pre xs r rd' :
  r_request_body tag (rd pre xs) = Ok (r, rd') →
  request_ok r ∧ request_tag r = tag ∧
  ∃ post, xs = request_body r ++ post ∧ rd' = rd (pre ++ request_body r) post.
Proof.
  unfold r_request_body.
  repeat (case_match; try discriminate); intros Hp; canons Hp; injection Hp as <- <-;
    (split; [cbn [request_ok]; unfold ok_ids; auto|]); (split; [done|]);
    eexists; cbn [request_body]; unfold Datatypes.id;
    (split; [rewrite <- ?app_assoc; reflexivity|rewrite ?app_nil_r, <- ?app_assoc; done]).
Qed.

(** A tag, a body and the end of input. *)
Lemma message_round {A} (m : N → Read A) (tag : N) (body : bytes) (a : A) :
  ok_u8 tag → (∀ pre post, m tag (rd pre (body ++ post)) = Ok (a, rd (pre ++ body) post)) →
  run (let! t := r_u8 in let! out := m t in let! _ := r_finish in r_ret out) (enc_u8 tag ++ body) = Ok a.
Proof.
  intros Ht Hm. eapply run_parse. rewrite <- app_assoc. parse1. unfold r_bind at 1.
  rewrite Hm. cbv beta. rewrite r_bind_finish. done.
Qed.

Lemma message_canon {A} (m : N → Read A) bs a :
  run (let! t := r_u8 in let! out := m t in let! _ := r_finish in r_ret out) bs = Ok a →
  ∃ tag post r, ok_u8 tag ∧ bs = enc_u8 tag ++ post ∧
    m tag (rd ([] ++ enc_u8 tag) post) = Ok (a, r) ∧ r_remaining r = 0%nat.
Proof.
  intros [r' Hr]%run_canon. canon1 Hr. apply r_bind_inv in Hr as (x & r1 & Hm & Hr).
  unfold r_bind, r_finish, r_ret in Hr. destruct (r_remaining r1 =? 0)%nat eqn:E; [|done].
  injection Hr as <- _. apply Nat.eqb_eq in E. eauto 10.
Qed.

Lemma request_round r : request_ok r → request_decode (request_encode r) = Ok r.
Proof.
  intros Hok. rewrite request_encode_eq. apply message_round; [by destruct r|].
  intros pre post. by apply request_body_parses.
Qed.

Lemma request_decode_canon bs r :
  request_decode bs = Ok r → request_ok r ∧ request_encode r = bs.
Proof.
  intros (tag & post & r' & _ & -> & Hm & H0)%message_canon.
  apply request_body_canon in Hm as (Hok & <- & p & -> & ->). split; [done|].
  rewrite r_remaining_rd in H0. apply nil_length_inv in H0 as ->.
  by rewrite request_encode_eq, app_nil_r.
Qed.

Definition response_tag (r : Response) : N :=
  match r with
  | RsPong => RES_PONG | RsOk => RES_OK | RsError _ => RES_ERROR | RsTreeHead _ _ => RES_TREE_HEAD
  | RsRecords _ => RES_RECORDS | RsEnvelopes _ => RES_ENVELOPES | RsPrekeys _ => RES_PREKEYS
  | RsBlob _ => RES_BLOB | RsChannelLog _ => RES_CHANNEL_LOG | RsChannelHeads _ => RES_CHANNEL_HEADS
  | RsSignals _ => RES_SIGNALS | RsIceConfig _ => RES_ICE | RsKeyPackage _ => RES_KEYPKG
  | RsPosted _ => RES_POSTED | RsP2pPeers _ => RES_P2P_PEERS | RsSfuAnswer _ _ => RES_SFU_ANSWER
  | RsSfuIce _ => RES_SFU_ICE | RsUnfurlPreview _ _ _ _ _ => RES_UNFURL
  end.

Definition response_body (r : Response) : bytes :=
  match r with
  | RsPong | RsOk => []
  | RsError m => lenp m
  | RsTreeHead n r => be 8 n ++ r
  | RsRecords b | RsEnvelopes b | RsSignals b => enc_list lenp b
  | RsPrekeys o | RsBlob o | RsKeyPackage o => enc_option o
  | RsChannelLog es => enc_list enc_entry es
  | RsChannelHeads hs => enc_list enc_head hs
  | RsIceConfig l => enc_list enc_ice l
  | RsPosted s => be 8 s
  | RsP2pPeers a | RsSfuIce a => enc_list lenp a
  | RsSfuAnswer s a => enc_u8 s ++ lenp a
  | RsUnfurlPreview a b c d e => lenp a ++ lenp b ++ lenp c ++ lenp d ++ lenp e
  end.

Lemma response_encode_eq r : response_encode r = enc_u8 (response_tag r) ++ response_body r.
Proof.
  destruct r; unfold response_encode, response_tag, response_body; enc_norm;
    try (unfold enc_list; enc_norm); rewrite ?app_nil_r; done.
Qed.

Lemma response_body_parses r pre post :
  response_ok r →
  r_response_body (response_tag r) (rd pre (response_body r ++ post)) =
  Ok (r, rd (pre ++ response_body r) post).
Proof.
  destruct r; cbn [response_ok]; intros Hok; destruct_and?;
    unfold response_tag, response_body;
    match goal with |- r_response_body ?t _ = _ => let t' := eval cbv in t in change t with t' end;
    cbn [r_response_body]; rewrite <- ?app_assoc; parses; unfold r_ret, Datatypes.id;
    rewrite <- ?app_assoc, ?app_nil_r; done.
Qed.

Lemma response_body_canon tag pre xs r rd' :
  r_response_body tag (rd pre xs) = Ok (r, rd') →
  response_ok r ∧ response_tag r = tag ∧
  ∃ post, xs = response_body r ++ post ∧ rd' = rd (pre ++ response_body r) post.
Proof.
  unfold r_response_body.
  repeat (case_match; try discriminate); intros Hp; canons Hp; injection Hp as <- <-;
    (split; [cbn [response_ok]; auto|]); (split; [done|]);
    eexists; cbn [response_body]; unfold Datatypes.id;
    (split; [rewrite <- ?app_assoc; reflexivity|rewrite ?app_nil_r, <- ?app_assoc; done]).
Qed.

Lemma response_round r : response_ok r → response_decode (response_encode r) = Ok r.
Proof.
  intros Hok. rewrite response_encode_eq. apply message_round; [by destruct r|].
  intros pre post. by apply response_body_parses.
Qed.

Lemma response_decode_canon bs r :
  response_decode bs = Ok r → response_ok r ∧ response_encode r = bs.
Proof.
  intros (tag & post & r' & _ & -> & Hm & H0)%message_canon.
  apply response_body_canon in Hm as (Hok & <- & p & -> & ->). split; [done|].
  rewrite r_remaining_rd in H0. apply nil_length_inv in H0 as ->.
  by rewrite response_encode_eq, app_nil_r.
Qed.

(** ** The signed messages are unambiguous *)

Lemma lenp_inj a b x y : fits_u32 a → fits_u32 b → lenp a ++ x = lenp b ++ y → a = b ∧ x = y.
Proof.
  intros Ha Hb E. pose proof (bytes_parses a [] x Ha) as Pa. pose proof (bytes_parses b [] y Hb) as Pb.
  rewrite E, Pb in Pa. injection Pa as -> Hr. split; [done|].
  by apply app_inv_head in E.
Qed.

Lemma post_to_channel_msg_inj c i b c' i' b' :
  ok_len 32 c → ok_len 32 c' → ok_len 32 i → ok_len 32 i' → fits_u32 b → fits_u32 b' →
  post_to_channel_msg c i b = post_to_channel_msg c' i' b' → c = c' ∧ i = i' ∧ b = b'.
Proof.
  unfold ok_len, post_to_channel_msg. intros Hc Hc' Hi Hi' Hb Hb' E. revert E. enc_norm. intros E.
  apply app_inj_length_l in E as [-> E]; [|congruence].
  apply app_inj_length_l in E as [-> E]; [|congruence].
  rewrite <- (app_nil_r (lenp b)), <- (app_nil_r (lenp b')) in E.
  by apply lenp_inj in E as [-> _].
Qed.

Lemma channel_roster_msg_inj c s v m c' s' v' m' :
  ok_len 32 c → ok_len 32 c' → ok_len 32 s → ok_len 32 s' → ok_u64 v → ok_u64 v' →
  ok_ids 32 m → ok_ids 32 m' →
  channel_roster_msg c s v m = channel_roster_msg c' s' v' m' → c = c' ∧ s = s' ∧ v = v' ∧ m = m'.
Proof.
  unfold ok_len, channel_roster_msg. intros Hc Hc' Hs Hs' Hv Hv' Hm Hm' E. revert E. enc_norm. intros E.
  apply app_inj_length_l in E as [-> E]; [|congruence].
  apply app_inj_length_l in E as [-> E]; [|congruence].
  apply app_inj_length_l in E as [Ev E]; [|by rewrite !length_be].
  apply be_inj in Ev as ->; [|done..].
  pose proof (ids_parses 31 m [] [] Hm) as Pm. pose proof (ids_parses 31 m' [] [] Hm') as Pm'.
  rewrite !app_nil_r in *. rewrite E, Pm' in Pm. by injection Pm as ->.
Qed.
