(* ===== verification/ServiceTheorems.v ===== *)
(** * What the smaller services promise

    The mailbox, the rate limiter, the wire protocol and the X3DH handshake,
    each with its theorems and their witnesses. *)

From S2P Require Import Prelude Utf8 Enc Crypto Envelope Server X3dh Mailbox RateLimit Wire WireProofs.

(** ** X3DH *)

Section x3dh.
Context `{CryptoPrims}.

(** both sides of an X3DH handshake derive the same secret. If the
    initiator succeeds against the responder's bundle, cut down to any part of
    its one-time prekeys as a relay hands it out, then the responder succeeds
    with what the initiator sends, obtains the same shared secret and
    associated data, and uses up exactly the one-time prekey that was named. *)
Theorem x3dh_agreement `{!AgreeLaws} me_a me_b secrets otps ek h :
  let full := secrets_bundle secrets me_b in
  otps ⊆ pb_otps full → initiator me_a (with_otps otps full) ek = Ok h →
  ∃ secrets',
    responder me_b (ih_ephemeral_pub h) (identity_agree_public me_a) (ih_used_otp h) secrets =
      Some (Ok (ih_result h, pks_spk secrets), secrets') ∧
    match ih_used_otp h with
    | Some o => ∃ sk, agree_public sk = o ∧ pks_otps secrets ≡ₚ sk :: pks_otps secrets'
    | None => secrets' = secrets
    end.
Proof.
  apply handshake_agrees.
Qed.
End x3dh.

(** ** The mailbox *)

(** Deposits (accepted or refused) and sweeps, in any order. *)
Inductive mail_step (m : Mailbox) : Mailbox → Prop :=
  | ms_deposit env now_ms r m' : deposit env now_ms m = Some (r, m') → mail_step m m'
  | ms_gc now_ms : mail_step m (gc now_ms m).2.

Lemma mail_run_wf m : rtc mail_step mailbox_new m → mailbox_wf m.
Proof.
  assert (Hrun : ∀ m0, rtc mail_step m0 m → mailbox_wf m0 → mailbox_wf m).
  { induction 1 as [|m1 m2 m3 Hst _ IH]; [done|]. intros Hwf. apply IH.
    destruct Hst as [env now_ms r m2 Hd|now_ms]; [by eapply deposit_wf|]. apply (gc_spec now_ms m1 Hwf). }
  intros Hr. by apply (Hrun _ Hr), mailbox_new_wf.
Qed.

(** the mailbox accepts exactly what fits and its counters are exact.
    After any deposits and sweeps, the two counters are the number and the
    bytes of the stored envelopes, within 64 MiB and 512 per hint; an envelope
    is accepted exactly when its lifetime, time, size and both quotas allow,
    and it then goes to the end of its hint's queue; otherwise nothing changes. *)
Theorem mailbox_accounting m env now_ms :
  rtc mail_step mailbox_new m →
  (mb_count m = map_sum len (mb_by_hint m) ∧ mb_bytes m = map_sum (sum_by env_size) (mb_by_hint m) ∧
   mb_bytes m ≤ MAX_MAILBOX_BYTES)%N ∧
  (∀ hint slot, mb_by_hint m !! hint = Some slot → (len slot ≤ MAX_HINT_DEPTH)%N) ∧
  ∃ r m', deposit env now_ms m = Some (r, m') ∧
    (r = Ok tt ↔ depositable m env now_ms) ∧
    (r = Ok tt → m' = deposited m env) ∧ (is_ok r = false → m' = m).
Proof.
  intros Hwf%mail_run_wf. split; [split_and!; apply Hwf|].
  split; [intros h slot Hs; by apply (mw_slot m Hwf) in Hs as []|].
  destruct (deposit_total env now_ms m) as [[r m'] Hd]. exists r, m'. split; [done|]. split_and!.
  - split; [intros ->; by apply deposit_spec in Hd as []|]. intros Hok.
    assert (Hd' : deposit env now_ms m = Some (Ok tt, deposited m env)) by by apply deposit_spec.
    rewrite Hd in Hd'. by injection Hd' as ->.
  - intros ->. by apply deposit_spec in Hd as [].
  - destruct r as [|e]; [done|]. intros _. by eapply deposit_refused.
Qed.

(** Mail is dropped when it expires, not before and not much later. A
    sweep removes exactly the expired envelopes and returns their number; and
    no envelope that was accepted survives a sweep more than 14 days and 5
    minutes after it was accepted. *)
Theorem mail_retention m now_ms :
  rtc mail_step mailbox_new m →
  (∀ hint e, e ∈ default [] (mb_by_hint (gc now_ms m).2 !! hint) ↔
             e ∈ default [] (mb_by_hint m !! hint) ∧ is_expired e now_ms = false) ∧
  (gc now_ms m).1 = map_sum (λ l, len (base.filter (λ e, is_expired e now_ms = true) l)) (mb_by_hint m) ∧
  (∀ env m0 m1 hint t, deposit env t m0 = Some (Ok tt, m1) →
     (t + MAX_CLOCK_SKEW_MS + MAX_TTL_MS < now_ms)%N →
     env ∉ default [] (mb_by_hint (gc now_ms m).2 !! hint)).
Proof.
  intros Hwf%mail_run_wf. destruct (gc_spec now_ms m Hwf) as (_ & Hn & _ & Hin).
  split_and!; [exact Hin|exact Hn|]. intros env m0 m1 hint t Hd Ht He.
  apply Hin in He as [_ He]. pose proof (expires_in_time env t m0 m1 now_ms Hd Ht). congruence.
Qed.

(** what a fetch returns. The reply is sorted by deposit time, carries at
    most 7 MiB, and holds only unexpired envelopes stored under a requested
    hint and not older than asked for; when all of these fit in 7 MiB it holds
    every one of them. *)
Theorem mail_fetch_exact m hints since_ms now_ms :
  let out := fetch m hints since_ms now_ms in
  let asked := base.filter (λ e, (since_ms <=? env_deposited_ms e)%N && negb (is_expired e now_ms) = true)
                 (mjoin ((λ h, default [] (mb_by_hint m !! h)) <$> hints)) in
  StronglySorted (λ a b, env_deposited_ms a ≤ env_deposited_ms b)%N out ∧
  (sum_by env_size out ≤ MAX_FETCH_BYTES)%N ∧
  (∀ e, e ∈ out → e ∈ asked) ∧
  ((sum_by env_size asked ≤ MAX_FETCH_BYTES)%N → out ≡ₚ asked).
Proof.
  cbv zeta. destruct (fetch_spec m hints since_ms now_ms) as (H1 & H2 & _ & H4).
  split_and!; [exact H1|exact H2| |exact H4].
  intros e He. rewrite fetch_eq, sort_by_key_perm in He.
  destruct (within_prefix 0 (candidates m hints since_ms now_ms)) as [k Hk].
  change (e ∈ candidates m hints since_ms now_ms). rewrite Hk. set_solver.
Qed.

(** A full hint starves the later ones. Once the envelopes wanted under
    the first hints of a request exceed 7 MiB, the reply is the same whatever
    hints follow: their mail is not served, however often the same request is
    repeated. *)
Theorem mail_fetch_starves m hints later since_ms now_ms :
  (MAX_FETCH_BYTES < sum_by env_size
     (base.filter (λ e, (since_ms <=? env_deposited_ms e)%N && negb (is_expired e now_ms) = true)
        (mjoin ((λ h, default [] (mb_by_hint m !! h)) <$> hints))))%N →
  fetch m (hints ++ later) since_ms now_ms = fetch m hints since_ms now_ms.
Proof. apply fetch_starved. Qed.

(** ** Rate limits *)

(** A drained bucket stays empty while the clock stands still. *)
Lemma drain_empty cap refill t n times :
  f64_min (f64_add t (f64_mul (f64_of_N 0) refill)) cap = t → f64_ge t n = false →
  drain cap refill t n times = replicate times false.
Proof.
  intros Ht Hge. induction times as [|k IH]; [done|]. cbn [drain replicate]. by rewrite Ht, Hge, IH.
Qed.

(** The tokens left after taking [k] times. *)
Fixpoint drained (cap refill t n : f64) (k : nat) : f64 :=
  match k with
  | O => t
  | S k' =>
    let t := f64_min (f64_add t (f64_mul (f64_of_N 0) refill)) cap in
    drained cap refill (if f64_ge t n then f64_sub t n else t) n k'
  end.

Lemma drain_app cap refill t n k k' :
  drain cap refill t n (k + k') = drain cap refill t n k ++ drain cap refill (drained cap refill t n k) n k'.
Proof.
  revert t. induction k as [|k IH]; intros t; [done|]. cbn [Nat.add drain drained].
  destruct (f64_ge _ _); cbn [app]; by rewrite IH.
Qed.

Lemma drain_burst cap refill burst times :
  drain cap refill cap one burst = replicate burst true →
  (let t := drained cap refill cap one burst in
   f64_min (f64_add t (f64_mul (f64_of_N 0) refill)) cap = t ∧ f64_ge t one = false) →
  drain cap refill cap one times = take times (replicate burst true ++ replicate times false).
Proof.
  intros Hb [Ht Hge]. destruct (decide (times ≤ burst)%nat) as [Hle|Hgt].
  - rewrite take_app_le by by rewrite length_replicate.
    rewrite <- Hb. replace burst with (times + (burst - times))%nat by lia. rewrite drain_app.
    assert (Hl : ∀ k t, length (drain cap refill t one k) = k).
    { induction k as [|k IHk]; intros t; cbn [drain]; [done|]. case_match; cbn [length]; by rewrite IHk. }
    symmetry. apply take_app_all. by rewrite Hl.
  - replace times with (burst + (times - burst))%nat at 1 by lia.
    rewrite drain_app, Hb, drain_empty by done.
    rewrite take_app_ge by (rewrite length_replicate; lia).
    rewrite length_replicate, take_replicate. do 2 f_equal. lia.
Qed.

(** A burst is exactly the capacity. For each of the relay's default
    limits (announcements 5, records 30, deposits 120, reads 240), an address
    seen for the first time is granted that many requests at one instant and
    then refused, in the [f64] arithmetic the code uses. *)
Theorem rate_limit_burst {K} `{Countable K} (key : K) now_ms times burst per_sec rl :
  (burst, per_sec) ∈ [(5%nat, f64_div (f64_of_N 10) (f64_of_N 3600)); (30%nat, f64_div one (f64_of_N 2));
                      (120%nat, one); (240%nat, f64_of_N 60)] →
  rl_capacity rl = f64_of_N (N.of_nat burst) → rl_per_sec rl = per_sec →
  rl_buckets rl !! key = None →
  (check_many key now_ms one times rl).1 = take times (replicate burst true ++ replicate times false).
Proof.
  intros Hin Hcap Hper Hk. rewrite check_many_fresh by done. rewrite Hcap, Hper.
  repeat (apply elem_of_cons in Hin as [[= -> ->]|Hin];
    [apply drain_burst; [vm_compute; reflexivity|vm_compute; split; reflexivity]|]).
  by apply not_elem_of_nil in Hin.
Qed.

(** ** The wire protocol *)

(** C40: requests and responses have one encoding each. Decoding the encoding
    of a message whose fields have their Rust types gives the message back,
    and every byte string that decodes is the encoding of what it decodes to. *)
Theorem wire_codec_canonical :
  (∀ q, request_ok q → request_decode (request_encode q) = Ok q) ∧
  (∀ bs q, request_decode bs = Ok q → request_ok q ∧ request_encode q = bs) ∧
  (∀ r, response_ok r → response_decode (response_encode r) = Ok r) ∧
  (∀ bs r, response_decode bs = Ok r → response_ok r ∧ response_encode r = bs).
Proof.
  split_and!; [apply request_round|apply request_decode_canon|apply response_round|apply response_decode_canon].
Qed.

Section challenges.
Context `{CryptoPrims}.

(** What is hashed for a post and for a roster. *)
Definition post_preimage (channel_id identity blob : bytes) : bytes :=
  POST_TO_CHANNEL_DOMAIN ++ post_to_channel_msg channel_id identity blob.
Definition roster_preimage (channel_id server_root : bytes) (version : N) (members : list bytes) : bytes :=
  CHANNEL_ROSTER_DOMAIN ++ channel_roster_msg channel_id server_root version members.

Lemma parts_inj d m d' m' :
  collision_free [d ++ m; d' ++ m'] → sha256_parts [d; m] = sha256_parts [d'; m'] → d ++ m = d' ++ m'.
Proof.
  unfold sha256_parts. cbn [mjoin list_join]. rewrite !app_nil_r. intros Hc E.
  apply Hc; [by left|by right; left|exact E].
Qed.

(** a signature on one write is good for no other. Unless SHA-256
    collides on the very messages that are hashed, equal challenges of two
    channel posts, or of two rosters, come from the same write, and a post
    never has the challenge of a roster. *)
Theorem write_challenges_bind c i blob c' i' blob' root v ms root' v' ms' :
  ok_len 32 c → ok_len 32 c' → ok_len 32 i → ok_len 32 i' → fits_u32 blob → fits_u32 blob' →
  ok_len 32 root → ok_len 32 root' → ok_u64 v → ok_u64 v' → ok_ids 32 ms → ok_ids 32 ms' →
  collision_free [post_preimage c i blob; post_preimage c' i' blob';
                  roster_preimage c root v ms; roster_preimage c' root' v' ms'] →
  (post_to_channel_challenge c i blob = post_to_channel_challenge c' i' blob' →
     (c, i, blob) = (c', i', blob')) ∧
  post_to_channel_challenge c i blob ≠ channel_roster_challenge c' root' v' ms' ∧
  (channel_roster_challenge c root v ms = channel_roster_challenge c' root' v' ms' →
     (c, root, v, ms) = (c', root', v', ms')).
Proof.
  intros ???????????? Hc. split_and!; intros E; apply parts_inj in E;
    try (eapply collision_free_sub; [|exact Hc]; unfold post_preimage, roster_preimage; set_solver).
  - apply app_inv_head in E. apply post_to_channel_msg_inj in E as (-> & -> & ->); done.
  - apply (f_equal (take 19)) in E. rewrite !take_app_le in E by (vm_compute; lia). by vm_compute in E.
  - apply app_inv_head in E. apply channel_roster_msg_inj in E as (-> & -> & -> & ->); done.
Qed.
End challenges.

(** ** Witnesses *)

Module ServiceDemo.
#[local] Existing Instance Toy.prims.
Definition sk (n : N) : bytes := replicate 32 (n2b n).
Definition ada : Identity := mkIdentity (sk 1) (sk 2).
Definition bob : Identity := mkIdentity (sk 3) (sk 4).
Definition bobs : PreKeySecrets := mkSecrets (sk 5) [sk 6; sk 7].
(** What a relay hands out second: only Bob's second one-time prekey. *)
Definition second : list (bytes * bytes) := drop 1 (pb_otps (secrets_bundle bobs bob)).

Definition hint1 : bytes := replicate 8 x01.
Definition hint2 : bytes := replicate 8 x02.
Definition letter (hint : bytes) (t : N) : Envelope := mkEnvelope 1 hint (lit "sealed") 0 t 1000.
Definition box : Mailbox := default mailbox_new (snd <$> deposit (letter hint1 100) 100 mailbox_new).
(** Eight envelopes of just under 1 MiB under one hint. *)
Definition big : Envelope := mkEnvelope 1 hint1 (replicate (N.to_nat 1048000) x00) 6 100 1000.
Definition full_box : Mailbox :=
  mkMailbox {[hint1 := replicate 8 big; hint2 := [letter hint2 100]]} 9 8384258.
End ServiceDemo.

Section witnesses.
Import Toy ServiceDemo.

Lemma x3dh_agreement_witness :
  ∃ h secrets',
    initiator ada (with_otps second (secrets_bundle bobs bob)) (sk 8) = Ok h ∧
    responder bob (ih_ephemeral_pub h) (identity_agree_public ada) (ih_used_otp h) bobs =
      Some (Ok (ih_result h, sk 5), secrets').
Proof.
  destruct (initiator ada (with_otps second (secrets_bundle bobs bob)) (sk 8)) as [h|e] eqn:E.
  - destruct (x3dh_agreement ada bob bobs second (sk 8) h) as (s' & Hs & _).
    + intros p Hp. unfold second in Hp. rewrite <- (take_drop 1 (pb_otps _)).
      apply elem_of_app. right. exact Hp.
    + exact E.
    + exists h, s'. split; [reflexivity|exact Hs].
  - exfalso. vm_compute in E. discriminate E.
Defined.

Lemma box_run : rtc mail_step mailbox_new box.
Proof. apply rtc_once. eapply (ms_deposit _ (letter hint1 100) 100). vm_compute. reflexivity. Qed.

Lemma mailbox_accounting_witness :
  ∃ r m', deposit (letter hint1 200) 300 box = Some (r, m') ∧
    (r = Ok tt ↔ depositable box (letter hint1 200) 300) ∧
    (r = Ok tt → m' = deposited box (letter hint1 200)) ∧ (is_ok r = false → m' = box).
Proof. exact (proj2 (proj2 (mailbox_accounting box (letter hint1 200) 300 box_run))). Defined.

Lemma mail_retention_witness :
  (∀ hint e, e ∈ default [] (mb_by_hint (gc 1200 box).2 !! hint) ↔
             e ∈ default [] (mb_by_hint box !! hint) ∧ is_expired e 1200 = false) ∧
  (gc 1200 box).1 = 1%N.
Proof.
  split; [exact (proj1 (mail_retention box 1200 box_run))|vm_compute; reflexivity].
Defined.

Lemma big_size : env_size big = 1048028%N.
Proof. unfold env_size, big, len. cbn [env_payload]. rewrite length_replicate, N2Nat.id. reflexivity. Qed.

Lemma mail_fetch_starves_witness :
  fetch full_box ([hint1] ++ [hint2]) 0 100 = fetch full_box [hint1] 0 100.
Proof.
  refine (mail_fetch_starves full_box [hint1] [hint2] 0 100 _).
  enough (base.filter (λ e, (0 <=? env_deposited_ms e)%N && negb (is_expired e 100) = true)
            (mjoin ((λ h, default [] (mb_by_hint full_box !! h)) <$> [hint1])) = replicate 8 big) as ->.
  - unfold sum_by. cbn [replicate foldr]. rewrite !big_size. reflexivity.
  - reflexivity.
Defined.

Lemma rate_limit_burst_witness :
  (check_many ada.(id_ik) 1000 one 7
     (limiter_new (f64_of_N 5) (f64_div (f64_of_N 10) (f64_of_N 3600)))).1 =
  [true; true; true; true; true; false; false].
Proof.
  refine (rate_limit_burst ada.(id_ik) 1000 7 5 _ (limiter_new (f64_of_N 5) _) _ eq_refl eq_refl _).
  - apply elem_of_cons. left. reflexivity.
  - reflexivity.
Defined.

Lemma write_challenges_bind_witness :
  post_to_channel_challenge (sk 1) (sk 2) (lit "a") ≠ channel_roster_challenge (sk 3) (sk 2) 1 [sk 2].
Proof.
  refine (proj1 (proj2 (write_challenges_bind (sk 1) (sk 2) (lit "a") (sk 3) (sk 2) (lit "b")
    (sk 4) 1 [sk 2] (sk 2) 1 [sk 2] _ _ _ _ _ _ _ _ _ _ _ _ _)));
    try first [reflexivity|split; [reflexivity|repeat constructor]].
  apply collision_free_decide. vm_compute. reflexivity.
Defined.
End witnesses.
