(* ===== verification/RelayParts.v ===== *)
(** * The relay's key directories, blob store, signals and peer list
      ([crates/dante-relay/src/state.rs])

    [RelayState] is one Rust struct; its fields are grouped here into one
    record per concern, so that each handler is a stateful operation on the
    record it touches.  [Relay.v] puts the records together. *)

From S2P Require Import Prelude Utf8 Enc Crypto ProtoRecord Envelope IdentityRecords Server.
From S2P Require Import Ledger X3dh Mailbox Wire.

(** ** Refusals

    [Response::Error(text)]: a fixed text, or ["rejected: {e}"] with the
    [Display] text of a ledger or mailbox error. *)
Inductive RelayError : Type :=
  | RE_Text (msg : string)
  | RE_Ledger (e : LedgerError)
  | RE_Net (e : NetError).

(** [IpAddr] of the Standard Library: four or sixteen octets. *)
Inductive IpAddr : Type := V4 (octets : bytes) | V6 (octets : bytes).
#[global] Instance IpAddr_eq_dec : EqDecision IpAddr.
Proof. solve_decision. Defined.
#[global] Program Instance IpAddr_countable : Countable IpAddr :=
  inj_countable (λ ip, match ip with V4 o => inl o | V6 o => inr o end)
    (λ s, Some (match s with inl o => V4 o | inr o => V6 o end)) _.
Next Obligation. by intros []. Qed.

(** [a - b] and [a + b] on [usize] in a release build: they wrap. *)
Definition wsub64 (a b : N) : N := wrap64 (a + 18446744073709551616 - b).
Definition wadd64 (a b : N) : N := wrap64 (a + b).

(** [HashMap::len]. *)
Definition msize {V} (m : gmap bytes V) : N := N.of_nat (size m).
(** [!map.contains_key(&id) && map.len() >= cap]: a directory that is full
    still refreshes the keys it has. *)
Definition no_room {V} (m : gmap bytes V) (id : bytes) (cap : N) : bool :=
  negb (bool_decide (is_Some (m !! id))) && (cap <=? msize m)%N.

(** ** Limits *)
Definition LEDGER_OUTBOX_CAP : nat := 1024.
Definition MAX_P2P_REPORTED : nat := 64.
Definition P2P_REPORTED_TTL_MS : N := 60 * 60 * 1000.
Definition MAX_P2P_ADDR_LEN : N := 256.
Definition MAX_P2P_PEERS_REPLY : nat := 16.
Definition BLOB_STORE_CAP : N := 128 * 1024 * 1024.
Definition BLOB_TTL_MS : N := 7 * 24 * 60 * 60 * 1000.
Definition SIGNAL_TTL_MS : N := 12000.
Definition MAX_SIGNALS_PER_TOPIC : nat := 64.
Definition MAX_SIGNAL_BYTES : N := 4 * 1024.
Definition MAX_KEYPKGS_PER_IDENTITY : nat := 32.
Definition MAX_KEYPKG_BYTES : N := 16 * 1024.
Definition MAX_PREKEY_BYTES : N := 16 * 1024.
Definition MAX_PREKEY_IDENTITIES : N := 100000.
Definition MAX_KEYPKG_IDENTITIES : N := 100000.

(** ** Whom a relay believes

    A relay checks a write's signature against the key a directory gives for
    the claimed identity.  The ledger is that directory; the theorems about
    the relay's stores hold for any. *)
Class KeyDirectory (D : Type) := current_key : D → bytes → option bytes.

#[export] Instance ledger_directory {S} : KeyDirectory (Ledger S) := idk_for_id.

Section verify.
Context `{CryptoPrims, KeyDirectory D}.

Definition verify_write_sig (dir : D) (identity challenge sig : bytes) : result unit RelayError :=
  match current_key dir identity with
  | None => Err (RE_Text "unknown identity")
  | Some idk_pub =>
    match (let? k := sign_public_from_bytes idk_pub in sign_verify k challenge sig) with
    | Ok _ => Ok tt
    | Err _ => Err (RE_Text "bad signature")
    end
  end.

Definition verify_keypkg_publish_sig (dir : D) (identity : bytes) (key_packages : list bytes)
    (sig : bytes) : result unit RelayError :=
  verify_write_sig dir identity (keypkg_publish_challenge identity key_packages) sig.

Definition verify_channel_post_sig (dir : D) (channel_id identity blob sig : bytes)
    : result unit RelayError :=
  verify_write_sig dir identity (post_to_channel_challenge channel_id identity blob) sig.
End verify.

(** ** Prekey bundles *)

Record PrekeyDir := mkPrekeyDir { pd_prekeys : gmap bytes bytes; pd_outbox : list bytes }.

(** [blob.get(..32)] *)
Definition leading_id (blob : bytes) : option bytes :=
  if (32 <=? len blob)%N then Some (take 32 blob) else None.

Definition handle_publish_prekeys (blob : bytes) : Step PrekeyDir RelayError Response :=
  do! _ := st_reject (MAX_PREKEY_BYTES <? len blob)%N (RE_Text "prekey bundle too large") in
  do! id := st_lift (ok_or (leading_id blob) (RE_Text "malformed prekey bundle")) in
  do! self := st_get in
  do! _ := st_reject (no_room (pd_prekeys self) id MAX_PREKEY_IDENTITIES)
             (RE_Text "prekey directory full") in
  do! _ := st_modify (λ s, mkPrekeyDir (<[id := blob]> (pd_prekeys s))
                             (push_capped LEDGER_OUTBOX_CAP blob (pd_outbox s))) in
  st_ret RsOk.

Definition get_prekeys (id : bytes) : Step PrekeyDir RelayError Response :=
  do! self := st_get in
  match pd_prekeys self !! id with
  | None => st_ret (RsPrekeys None)
  | Some stored =>
    match bundle_decode stored with
    | Ok bundle =>
      match pb_otps bundle with
      | handed :: rest =>
        let remaining := bundle_encode (with_otps rest bundle) in
        let out := bundle_encode (with_otps [handed] bundle) in
        do! _ := st_modify (λ s, mkPrekeyDir (<[id := remaining]> (pd_prekeys s)) (pd_outbox s)) in
        st_ret (RsPrekeys (Some out))
      | [] => st_ret (RsPrekeys (Some stored))
      end
    | Err _ => st_ret (RsPrekeys (Some stored))
    end
  end.

Definition ingest_gossiped_prekey (blob : bytes) (self : PrekeyDir) : bool * PrekeyDir :=
  if (MAX_PREKEY_BYTES <? len blob)%N then (false, self) else
  match leading_id blob with
  | None => (false, self)
  | Some id =>
    if no_room (pd_prekeys self) id MAX_PREKEY_IDENTITIES then (false, self) else
    match bundle_decode blob with
    | Ok bundle =>
      let stored := match pb_otps bundle with
                    | _ :: _ => bundle_encode (with_otps [] bundle)
                    | [] => blob
                    end in
      (true, mkPrekeyDir (<[id := stored]> (pd_prekeys self)) (pd_outbox self))
    | Err _ => (false, self)
    end
  end.

Definition take_prekey_outbox (self : PrekeyDir) : list bytes * PrekeyDir :=
  (pd_outbox self, mkPrekeyDir (pd_prekeys self) []).

(** ** Key packages *)

Record KeyPackageDir := mkKeyPackageDir {
  kd_key_packages : gmap bytes (list bytes);
  kd_outbox : list bytes;
}.

Section keypkg.
Context `{CryptoPrims, KeyDirectory D}.

Definition publish_key_packages (dir : D) (identity : bytes) (key_packages : list bytes)
    (sig : bytes) : Step KeyPackageDir RelayError Response :=
  do! _ := st_reject (existsb (λ kp, (len kp =? 0)%N || (MAX_KEYPKG_BYTES <? len kp)%N) key_packages)
             (RE_Text "bad key package") in
  do! _ := st_lift (verify_keypkg_publish_sig dir identity key_packages sig) in
  do! self := st_get in
  do! _ := st_reject (no_room (kd_key_packages self) identity MAX_KEYPKG_IDENTITIES)
             (RE_Text "key package directory full") in
  let gossip_blob := request_encode (RqPublishKeyPackages identity key_packages sig) in
  let q := default [] (kd_key_packages self !! identity) ++ key_packages in
  let q := drop (length q - MAX_KEYPKGS_PER_IDENTITY) q in
  do! _ := st_modify (λ s, mkKeyPackageDir (<[identity := q]> (kd_key_packages s))
                             (push_capped LEDGER_OUTBOX_CAP gossip_blob (kd_outbox s))) in
  st_ret RsOk.

Definition get_key_package (id : bytes) : Step KeyPackageDir RelayError Response :=
  do! self := st_get in
  match kd_key_packages self !! id with
  | Some (kp :: kp' :: q) =>
    do! _ := st_modify (λ s, mkKeyPackageDir (<[id := kp' :: q]> (kd_key_packages s)) (kd_outbox s)) in
    st_ret (RsKeyPackage (Some kp))
  | Some q => st_ret (RsKeyPackage (head q))
  | None => st_ret (RsKeyPackage None)
  end.

Definition ingest_gossiped_keypackage (dir : D) (msg : bytes) (self : KeyPackageDir)
    : bool * KeyPackageDir :=
  match request_decode msg with
  | Ok (RqPublishKeyPackages identity key_packages sig) =>
    if (len key_packages =? 0)%N || existsb (λ kp, (MAX_KEYPKG_BYTES <? len kp)%N) key_packages
    then (false, self)
    else if negb (is_ok (verify_keypkg_publish_sig dir identity key_packages sig)) then (false, self)
    else if no_room (kd_key_packages self) identity MAX_KEYPKG_IDENTITIES then (false, self)
    else match list.last key_packages with
         | None => (false, self)
         | Some lst =>
           match default [] (kd_key_packages self !! identity) with
           | [] => (true, mkKeyPackageDir (<[identity := [lst]]> (kd_key_packages self)) (kd_outbox self))
           | q => (false, mkKeyPackageDir (<[identity := q]> (kd_key_packages self)) (kd_outbox self))
           end
         end
  | _ => (false, self)
  end.
End keypkg.

Definition take_keypkg_outbox (self : KeyPackageDir) : list bytes * KeyPackageDir :=
  (kd_outbox self, mkKeyPackageDir (kd_key_packages self) []).

(** ** Blobs *)

Record BlobStore := mkBlobStore { bs_blobs : gmap bytes (bytes * N); bs_blob_bytes : N }.

Section blobs.
Context `{CryptoPrims}.

Definition put_blob (bs : bytes) (now : N) : Step BlobStore RelayError Response :=
  let hash := sha256 bs in
  do! self := st_get in
  if bool_decide (is_Some (bs_blobs self !! hash)) then st_ret RsOk else
  do! _ := st_reject (BLOB_STORE_CAP <? wadd64 (bs_blob_bytes self) (len bs))%N
             (RE_Text "blob store full") in
  do! _ := st_modify (λ s, mkBlobStore (<[hash := (bs, now)]> (bs_blobs s))
                             (wadd64 (bs_blob_bytes s) (len bs))) in
  st_ret RsOk.
End blobs.

Definition get_blob (hash : bytes) (self : BlobStore) : Response :=
  RsBlob (fst <$> bs_blobs self !! hash).

(** The test of [retain]: [true] keeps the blob. *)
Definition fresh_until (ttl now at_ms : N) : bool := (now - at_ms <=? ttl)%N.

Definition maintain_blobs (now : N) (self : BlobStore) : BlobStore :=
  let freed := map_sum (λ '(bs, at_ms), if fresh_until BLOB_TTL_MS now at_ms then 0%N else len bs)
                 (bs_blobs self) in
  mkBlobStore (base.filter (λ kv, fresh_until BLOB_TTL_MS now kv.2.2 = true) (bs_blobs self))
    (wsub64 (bs_blob_bytes self) freed).

(** ** Ephemeral signals *)

Definition Signals : Type := gmap bytes (list (bytes * N)).

Definition live_signals (now : N) (sigs : list (bytes * N)) : list (bytes * N) :=
  base.filter (λ s, fresh_until SIGNAL_TTL_MS now s.2 = true) sigs.

Definition post_signal (topic blob : bytes) (now : N) : Step Signals RelayError Response :=
  do! _ := st_reject (MAX_SIGNAL_BYTES <? len blob)%N (RE_Text "signal too large") in
  do! self := st_get in
  let sigs := live_signals now (default [] (self !! topic)) ++ [(blob, now)] in
  let sigs := drop (length sigs - MAX_SIGNALS_PER_TOPIC) sigs in
  do! _ := st_modify <[topic := sigs]> in
  st_ret RsOk.

Definition fetch_signals (topic : bytes) (now : N) (self : Signals) : Response :=
  RsSignals (fst <$> live_signals now (default [] (self !! topic))).

Definition maintain_signals (now : N) (self : Signals) : Signals :=
  omap (λ sigs, match live_signals now sigs with [] => None | l => Some l end) self.

(** ** Peer addresses *)

Record P2p := mkP2p { pp_seed : list bytes; pp_reported : list (bytes * N) }.

Definition set_p2p_bootstrap (addrs : list bytes) (self : P2p) : P2p :=
  mkP2p (base.filter (λ a, negb (len a =? 0)%N && (len a <=? MAX_P2P_ADDR_LEN)%N = true) addrs)
    (pp_reported self).

(** [known_p2p_peers]: the seeds, then the reported ones from the newest. *)
Fixpoint reported_peers (now : N) (reported : list (bytes * N)) (out : list bytes) : list bytes :=
  match reported with
  | [] => out
  | (addr, ts) :: rest =>
    if (MAX_P2P_PEERS_REPLY <=? length out)%nat then out
    else if fresh_until P2P_REPORTED_TTL_MS now ts && negb (bool_decide (addr ∈ out))
         then reported_peers now rest (out ++ [addr])
         else reported_peers now rest out
  end.
Definition known_p2p_peers (now : N) (self : P2p) : list bytes :=
  reported_peers now (rev (pp_reported self)) (pp_seed self).

(** The address is skipped when it is empty, too long or not absolute. *)
Definition p2p_addr_ok (addr : bytes) : bool :=
  negb (len addr =? 0)%N && (len addr <=? MAX_P2P_ADDR_LEN)%N
  && bool_decide (head addr = Some x2f).

Definition announce_one (now : N) (reported : list (bytes * N)) (addr : bytes) : list (bytes * N) :=
  if negb (p2p_addr_ok addr) then reported else
  match position (λ e, bool_decide (e.1 = addr)) reported with
  | Some i => <[i := (addr, now)]> reported
  | None => push_capped MAX_P2P_REPORTED (addr, now) reported
  end.
Definition announce_p2p (addrs : list bytes) (now : N) (self : P2p) : P2p :=
  mkP2p (pp_seed self) (foldl (announce_one now) (pp_reported self) addrs).

Definition maintain_p2p (now : N) (self : P2p) : P2p :=
  mkP2p (pp_seed self)
    (base.filter (λ e, fresh_until P2P_REPORTED_TTL_MS now e.2 = true) (pp_reported self)).

(** ** ICE servers

    The TURN credential is minted by the [turn] crate from the shared secret
    and a validity in seconds. *)
Record IcePolicy := mkIce {
  ice_stun : list bytes;
  ice_turn : list bytes;
  ice_turn_secret : option bytes;
  ice_turn_ttl_secs : N;
}.
Definition ice_default : IcePolicy := mkIce [] [] None 0.

Class TurnAuth := turn_credentials : bytes → N → option (bytes * bytes).

Definition to_ice_configs `{TurnAuth} (self : IcePolicy) : list IceCfg :=
  (match ice_stun self with [] => [] | urls => [mkIceCfg urls [] []] end) ++
  match ice_turn_secret self, ice_turn self with
  | Some secret, _ :: _ =>
    match turn_credentials secret (N.max (ice_turn_ttl_secs self) 60) with
    | Some (username, credential) => [mkIceCfg (ice_turn self) username credential]
    | None => []
    end
  | _, _ => []
  end.
