(* ===== verification/RelayChannels.v ===== *)
(** * Channel logs and rosters of a relay ([crates/dante-relay/src/state.rs])

    The append-only log each channel has, who may write to it, and how a
    relay folds the logs and rosters of its siblings into its own. *)

From S2P Require Import Prelude Utf8 Enc Crypto Wire Ledger RelayParts.

Definition MAX_CHANNEL_ENTRIES : nat := 5000.
Definition MAX_CHANNELS : N := 100000.
Definition MAX_CHANNEL_HEADS_PER_REQUEST : N := 2000.
Definition MAX_CHANNEL_ROSTERS : N := 100000.
Definition MAX_CHANNEL_ROSTER_MEMBERS : N := 50000.
Definition MAX_CHANNEL_BLOB_BYTES : N := 1024 * 1024.
Definition MAX_CHANNEL_FETCH_BYTES : N := 7 * 1024 * 1024.
Definition CHANNEL_FED_QUEUE_CAP : nat := 4096.

(** ** State *)

(** [(seq, blob, ts_ms)] *)
Record Entry := mkEntry { ce_seq : N; ce_blob : bytes; ce_ts : N }.
(** [(next_seq, local_writer, entries)] *)
Record ChannelLog := mkLog { cl_next_seq : N; cl_local : bool; cl_entries : list Entry }.
(** [(server_root, version, current members)] *)
Record ChannelRoster := mkRoster { ro_server_root : bytes; ro_version : N; ro_members : gset bytes }.

Record ChannelOutboxEntry := mkOut {
  co_channel_id : bytes; co_seq : N; co_blob : bytes; co_identity : bytes; co_sig : bytes;
}.
Record ChannelRosterOutboxEntry := mkRosterOut {
  cr_channel_id : bytes; cr_server_root : bytes; cr_version : N; cr_members : list bytes;
  cr_sig : bytes;
}.

Record Channels := mkChannels {
  cs_channels : gmap bytes ChannelLog;
  cs_rosters : gmap bytes ChannelRoster;
  cs_bytes : N;
  cs_store_cap : N;
  cs_outbox : list ChannelOutboxEntry;
  cs_roster_outbox : list ChannelRosterOutboxEntry;
  cs_backfill : list bytes;
  cs_backfill_set : gset bytes;
}.

#[global] Instance Entry_eq_dec : EqDecision Entry.
Proof. solve_decision. Defined.

Definition channels_new (cap : N) : Channels := mkChannels ∅ ∅ 0 cap [] [] [] ∅.

(** A log and the byte counter change together. *)
Definition set_log (channel_id : bytes) (log : ChannelLog) (total : N) (s : Channels) : Channels :=
  mkChannels (<[channel_id := log]> (cs_channels s)) (cs_rosters s) total (cs_store_cap s)
    (cs_outbox s) (cs_roster_outbox s) (cs_backfill s) (cs_backfill_set s).
Definition set_roster (channel_id : bytes) (r : ChannelRoster) (s : Channels) : Channels :=
  mkChannels (cs_channels s) (<[channel_id := r]> (cs_rosters s)) (cs_bytes s) (cs_store_cap s)
    (cs_outbox s) (cs_roster_outbox s) (cs_backfill s) (cs_backfill_set s).
Definition set_outbox (o : list ChannelOutboxEntry) (s : Channels) : Channels :=
  mkChannels (cs_channels s) (cs_rosters s) (cs_bytes s) (cs_store_cap s)
    o (cs_roster_outbox s) (cs_backfill s) (cs_backfill_set s).
Definition set_roster_outbox (o : list ChannelRosterOutboxEntry) (s : Channels) : Channels :=
  mkChannels (cs_channels s) (cs_rosters s) (cs_bytes s) (cs_store_cap s)
    (cs_outbox s) o (cs_backfill s) (cs_backfill_set s).
Definition set_backfill (q : list bytes) (set : gset bytes) (s : Channels) : Channels :=
  mkChannels (cs_channels s) (cs_rosters s) (cs_bytes s) (cs_store_cap s)
    (cs_outbox s) (cs_roster_outbox s) q set.
Definition set_channel_store_cap (cap : N) (s : Channels) : Channels :=
  mkChannels (cs_channels s) (cs_rosters s) (cs_bytes s) cap
    (cs_outbox s) (cs_roster_outbox s) (cs_backfill s) (cs_backfill_set s).

(** [entry(id).or_insert((1, false, Vec::new()))] *)
Definition log_of (s : Channels) (channel_id : bytes) : ChannelLog :=
  default (mkLog 1 false []) (cs_channels s !! channel_id).

(** ** Log entries *)

Definition entry_size (e : Entry) : N := len (ce_blob e).

(** [partition_point]: how many entries from the front satisfy the test (the
    entries are sorted by it). *)
Fixpoint partition_point {A} (p : A → bool) (l : list A) : nat :=
  match l with [] => 0 | x :: l' => if p x then S (partition_point p l') else 0 end.

(** [Vec::insert] at the place of a sequence number. *)
Definition insert_entry (e : Entry) (l : list Entry) : list Entry :=
  let pos := partition_point (λ x, ce_seq x <? ce_seq e)%N l in
  take pos l ++ e :: drop pos l.

Definition has_seq (l : list Entry) (seq : N) : bool := existsb (λ x, ce_seq x =? seq)%N l.

(** [drain(..excess)] past the retention: what is removed and what is left. *)
Definition trim_count (l : list Entry) : N * list Entry :=
  let excess := (length l - MAX_CHANNEL_ENTRIES)%nat in
  (sum_by entry_size (take excess l), drop excess l).

(** [while channel_bytes - removed > cap && !entries.is_empty() { remove(0) }] *)
Fixpoint trim_bytes (total cap removed : N) (l : list Entry) : N * list Entry :=
  match l with
  | [] => (removed, [])
  | e :: l' =>
    if (cap <? total - removed)%N then trim_bytes total cap (removed + entry_size e) l'
    else (removed, l)
  end.

(** [dedup_by_key]: the first of each run of equal keys stays. *)
Fixpoint dedup_seq (l : list Entry) : list Entry :=
  match l with
  | [] => []
  | x :: l' =>
    match dedup_seq l' with
    | y :: r => if (ce_seq x =? ce_seq y)%N then x :: r else x :: y :: r
    | [] => [x]
    end
  end.

(** [take_while] with the running size: the prefix within the budget. *)
Fixpoint take_budget (used : N) (l : list Entry) : list Entry :=
  match l with
  | [] => []
  | e :: l' =>
    let used := (used + entry_size e)%N in
    if (used <=? MAX_CHANNEL_FETCH_BYTES)%N then e :: take_budget used l' else []
  end.

(** ** Requests *)

Section channels.
Context `{CryptoPrims, KeyDirectory D}.

Definition post_to_channel (dir : D) (channel_id blob identity sig : bytes) (now : N)
    : Step Channels RelayError Response :=
  do! _ := st_reject (MAX_CHANNEL_BLOB_BYTES <? len blob)%N (RE_Text "channel frame too large") in
  do! _ := st_lift (verify_channel_post_sig dir channel_id identity blob sig) in
  do! self := st_get in
  do! roster := st_lift (ok_or (cs_rosters self !! channel_id)
                  (RE_Text "channel has no registered membership")) in
  do! _ := st_reject (negb (bool_decide (identity ∈ ro_members roster)))
             (RE_Text "not a member of this channel") in
  do! _ := st_reject (no_room (cs_channels self) channel_id MAX_CHANNELS)
             (RE_Text "channel directory full") in
  do! _ := st_reject (cs_store_cap self <? sat_add64 (cs_bytes self) (len blob))%N
             (RE_Text "channel store full") in
  let log := log_of self channel_id in
  let seq := cl_next_seq log in
  let '(removed, entries) := trim_count (cl_entries log ++ [mkEntry seq blob now]) in
  do! _ := st_modify (set_log channel_id (mkLog (wrap64 (seq + 1)) true entries)
                        (wsub64 (sat_add64 (cs_bytes self) (len blob)) removed)) in
  do! _ := st_modify (λ s, set_outbox (push_capped CHANNEL_FED_QUEUE_CAP
                        (mkOut channel_id seq blob identity sig) (cs_outbox s)) s) in
  st_ret (RsPosted seq).

(** [Ok true]: applied; [Ok false]: stale; [Err]: refused. *)
Definition apply_channel_roster (channel_id server_root : bytes) (version : N)
    (members : list bytes) (sig : bytes) : Step Channels RelayError bool :=
  do! _ := st_reject (MAX_CHANNEL_ROSTER_MEMBERS <? len members)%N (RE_Text "roster too large") in
  do! self := st_get in
  do! stale := match cs_rosters self !! channel_id with
    | Some bound =>
      do! _ := st_reject (bool_decide (ro_server_root bound ≠ server_root))
                 (RE_Text "channel bound to a different server") in
      st_ret (version <=? ro_version bound)%N
    | None =>
      do! _ := st_reject (MAX_CHANNEL_ROSTERS <=? msize (cs_rosters self))%N
                 (RE_Text "too many channel rosters") in
      st_ret false
    end in
  if stale : bool then st_ret false else
  let challenge := channel_roster_challenge channel_id server_root version members in
  match (let? k := sign_public_from_bytes server_root in sign_verify k challenge sig) with
  | Err _ => st_lift (Err (RE_Text "bad signature"))
  | Ok _ =>
    do! _ := st_modify (set_roster channel_id (mkRoster server_root version (list_to_set members))) in
    st_ret true
  end.

Definition set_channel_roster (channel_id server_root : bytes) (version : N)
    (members : list bytes) (sig : bytes) : Step Channels RelayError Response :=
  do! applied := apply_channel_roster channel_id server_root version members sig in
  if applied : bool then
    do! _ := st_modify (λ s, set_roster_outbox (push_capped CHANNEL_FED_QUEUE_CAP
                          (mkRosterOut channel_id server_root version members sig)
                          (cs_roster_outbox s)) s) in
    st_ret RsOk
  else st_lift (Err (RE_Text "stale roster version")).

(** [len() < cap && set.insert(id)] then [push_back]. *)
Definition queue_backfill (channel_id : bytes) (s : Channels) : Channels :=
  if (length (cs_backfill s) <? CHANNEL_FED_QUEUE_CAP)%nat
     && negb (bool_decide (channel_id ∈ cs_backfill_set s))
  then set_backfill (cs_backfill s ++ [channel_id]) ({[channel_id]} ∪ cs_backfill_set s) s
  else s.

Definition fetch_channel (channel_id : bytes) (since_seq : N) (self : Channels)
    : Response * Channels :=
  match cs_channels self !! channel_id with
  | Some log =>
    let self := if (cl_next_seq log <=? since_seq)%N then queue_backfill channel_id self else self in
    let out := take_budget 0 (base.filter (λ e, (since_seq <? ce_seq e)%N = true) (cl_entries log)) in
    (RsChannelLog ((λ e, (ce_seq e, ce_blob e)) <$> out), self)
  | None => (RsChannelLog [], queue_backfill channel_id self)
  end.

Definition channel_heads (channel_ids : list bytes) : Step Channels RelayError Response :=
  do! _ := st_reject (MAX_CHANNEL_HEADS_PER_REQUEST <? len channel_ids)%N
             (RE_Text "too many channel ids in one request") in
  do! self := st_get in
  st_ret (RsChannelHeads ((λ id,
    (id, from_option (λ log, cl_next_seq log - 1)%N 0%N (cs_channels self !! id))) <$> channel_ids)).

(** ** Federation *)

Definition ingest_gossiped_channel_frame (dir : D) (channel_id : bytes) (seq : N)
    (blob identity sig : bytes) (now : N) (self : Channels) : bool * Channels :=
  if (MAX_CHANNEL_BLOB_BYTES <? len blob)%N then (false, self) else
  if negb (is_ok (verify_channel_post_sig dir channel_id identity blob sig)) then (false, self) else
  if match cs_rosters self !! channel_id with
     | Some roster => negb (bool_decide (identity ∈ ro_members roster))
     | None => false
     end then (false, self) else
  if no_room (cs_channels self) channel_id MAX_CHANNELS then (false, self) else
  if (cs_store_cap self <? sat_add64 (cs_bytes self) (len blob))%N then (false, self) else
  let log := log_of self channel_id in
  if cl_local log && (seq <? cl_next_seq log)%N then (false, self) else
  if has_seq (cl_entries log) seq
  then (false, set_log channel_id (mkLog (cl_next_seq log) false (cl_entries log)) (cs_bytes self) self)
  else
    let '(removed, entries) := trim_count (insert_entry (mkEntry seq blob now) (cl_entries log)) in
    (true, set_log channel_id
             (mkLog (N.max (cl_next_seq log) (wrap64 (seq + 1))) false entries)
             (wsub64 (sat_add64 (cs_bytes self) (len blob)) removed) self).

Definition ingest_gossiped_channel_roster (channel_id server_root : bytes) (version : N)
    (members : list bytes) (sig : bytes) (self : Channels) : bool * Channels :=
  match apply_channel_roster channel_id server_root version members sig self with
  | Some (Ok true, self') => (true, self')
  | Some (_, self') => (false, self')
  | None => (false, self)
  end.
End channels.

(** The loop of [adopt_channel_log] over the sorted incoming entries. *)
Fixpoint adopt_loop (have : gset N) (incoming : list Entry) (added : N) (l : list Entry)
    : N * list Entry :=
  match incoming with
  | [] => (added, l)
  | e :: rest =>
    if bool_decide (ce_seq e ∈ have) then adopt_loop have rest added l
    else adopt_loop have rest (added + entry_size e)%N (insert_entry e l)
  end.

Definition adoptable (entries : list (N * bytes)) (now : N) : list Entry :=
  dedup_seq (sort_by_key ce_seq
    ((λ '(s, b), mkEntry s b now) <$>
     base.filter (λ sb, (len sb.2 <=? MAX_CHANNEL_BLOB_BYTES)%N = true) entries)).

Definition adopt_channel_log (channel_id : bytes) (entries : list (N * bytes)) (now : N)
    (self : Channels) : Channels :=
  if no_room (cs_channels self) channel_id MAX_CHANNELS then self else
  let incoming := adoptable entries now in
  match list.last incoming with
  | None => self
  | Some lst =>
    let log := log_of self channel_id in
    let have := list_to_set (ce_seq <$> cl_entries log) in
    let '(added, l) := adopt_loop have incoming 0 (cl_entries log) in
    let next := N.max (cl_next_seq log) (wrap64 (ce_seq lst + 1)) in
    let total := sat_add64 (cs_bytes self) added in
    let '(removed1, l1) := trim_count l in
    let '(removed, l2) := trim_bytes total (cs_store_cap self) removed1 l1 in
    set_log channel_id (mkLog next (cl_local log) l2) (total - removed) self
  end.

Definition take_channel_outbox (self : Channels) : list ChannelOutboxEntry * Channels :=
  (cs_outbox self, set_outbox [] self).
Definition take_channel_roster_outbox (self : Channels) : list ChannelRosterOutboxEntry * Channels :=
  (cs_roster_outbox self, set_roster_outbox [] self).
Definition take_channel_backfill (self : Channels) : list bytes * Channels :=
  (cs_backfill self, set_backfill [] ∅ self).

(** ** Housekeeping *)

Definition live_entries (now : N) (log : ChannelLog) : option ChannelLog :=
  let es := base.filter (λ e, fresh_until BLOB_TTL_MS now (ce_ts e) = true) (cl_entries log) in
  match es with
  | [] => None
  | _ => Some (mkLog (cl_next_seq log) (cl_local log) es)
  end.

(** The bytes of all logs, counted again. *)
Definition stored_bytes (chs : gmap bytes ChannelLog) : N :=
  map_sum (λ log, sum_by entry_size (cl_entries log)) chs.

Definition maintain_channels (now : N) (self : Channels) : Channels :=
  let chs := omap (live_entries now) (cs_channels self) in
  mkChannels chs (cs_rosters self) (stored_bytes chs) (cs_store_cap self)
    (cs_outbox self) (cs_roster_outbox self) (cs_backfill self) (cs_backfill_set self).
