(* ===== verification/ChannelProofs.v ===== *)
(** * Proofs about the channel logs of a relay

    The invariant of the logs, and what each operation does to them. *)

From S2P Require Import Prelude Utf8 Enc Crypto ProtoRecord IdentityRecords Server.
From S2P Require Import Ledger X3dh Mailbox Wire RelayParts RelayChannels.

(** ** Machine arithmetic *)

Lemma wrap64_small n : (n < 18446744073709551616)%N → wrap64 n = n.
Proof. intros. by apply N.mod_small. Qed.

Lemma wsub64_exact a b : (b ≤ a)%N → (a < 18446744073709551616)%N → wsub64 a b = (a - b)%N.
Proof.
  intros Hb Ha. unfold wsub64, wrap64.
  replace (a + 18446744073709551616 - b)%N with ((a - b) + 1 * 18446744073709551616)%N by lia.
  rewrite N.Div0.mod_add. apply N.mod_small. lia.
Qed.

Lemma sat_add_exact a b cap :
  (cap < u64_max)%N → (sat_add64 a b ≤ cap)%N → sat_add64 a b = (a + b)%N ∧ (a + b ≤ cap)%N.
Proof. unfold sat_add64. intros. split; lia. Qed.

Lemma no_room_false {V} (m : gmap bytes V) id cap :
  no_room m id cap = false ↔ is_Some (m !! id) ∨ (msize m < cap)%N.
Proof.
  unfold no_room. rewrite andb_false_iff, negb_false_iff, bool_decide_eq_true, N.leb_gt. done.
Qed.

Lemma msize_insert {V} (m : gmap bytes V) id v cap :
  no_room m id cap = false → (msize m ≤ cap)%N → (msize (<[id := v]> m) ≤ cap)%N.
Proof.
  rewrite no_room_false. unfold msize. intros [[w Hw]|Hlt] Hle.
  - by rewrite (map_size_insert_Some id v m) by eauto.
  - pose proof (map_size_insert id v m) as E. destruct (m !! id); cbn in E; lia.
Qed.

(** ** Sorted logs *)

Definition by_seq (a b : Entry) : Prop := (ce_seq a < ce_seq b)%N.

Lemma sorted_app_r {A} (R : A → A → Prop) l k : StronglySorted R (l ++ k) → StronglySorted R k.
Proof. induction l as [|x l IH]; [done|]. cbn. inversion 1; subst. by apply IH. Qed.

Lemma sorted_suffix {A} (R : A → A → Prop) l k :
  l `suffix_of` k → StronglySorted R k → StronglySorted R l.
Proof. intros [k' ->]. apply sorted_app_r. Qed.

Lemma forall_suffix {A} (P : A → Prop) l k : l `suffix_of` k → Forall P k → Forall P l.
Proof. intros [k' ->] [_ ?]%Forall_app. done. Qed.

Lemma sorted_snoc {A} (R : A → A → Prop) l x :
  StronglySorted R l → Forall (λ y, R y x) l → StronglySorted R (l ++ [x]).
Proof.
  induction 1 as [|y l Hl IH Hy]; intros Hf; cbn; [by repeat constructor|].
  apply list.Forall_cons in Hf as [Hyx Hf]. constructor; [by apply IH|].
  apply Forall_app. split; [done|]. by repeat constructor.
Qed.

Lemma insert_entry_cons e x l :
  insert_entry e (x :: l) =
  if (ce_seq x <? ce_seq e)%N then x :: insert_entry e l else e :: x :: l.
Proof. unfold insert_entry. cbn [partition_point]. by destruct (_ <? _)%N. Qed.

Lemma insert_entry_perm e l : insert_entry e l ≡ₚ e :: l.
Proof.
  unfold insert_entry. generalize (partition_point (λ x, ce_seq x <? ce_seq e)%N l). intros pos.
  rewrite <- Permutation_middle. by rewrite take_drop.
Qed.

Lemma has_seq_false l seq : has_seq l seq = false ↔ Forall (λ e, ce_seq e ≠ seq) l.
Proof.
  unfold has_seq. induction l as [|x l IH]; cbn; [done|].
  rewrite orb_false_iff, IH, N.eqb_neq, list.Forall_cons. done.
Qed.

Lemma insert_entry_sorted e l :
  StronglySorted by_seq l → Forall (λ x, ce_seq x ≠ ce_seq e) l → StronglySorted by_seq (insert_entry e l).
Proof.
  induction 1 as [|x l Hl IH Hx]; intros Hf; [by repeat constructor|]. rewrite insert_entry_cons.
  apply list.Forall_cons in Hf as [Hxe Hf].
  destruct (_ <? _)%N eqn:E; [apply N.ltb_lt in E|apply N.ltb_ge in E].
  - constructor; [by apply IH|]. rewrite insert_entry_perm. by constructor.
  - assert (ce_seq e < ce_seq x)%N by lia. constructor; [by constructor|]. constructor; [done|].
    eapply List.Forall_impl; [|exact Hx]. unfold by_seq. cbn. lia.
Qed.

(** ** Trimming *)

Lemma trim_count_spec l :
  let '(removed, l') := trim_count l in
  l' `suffix_of` l ∧ (length l' ≤ MAX_CHANNEL_ENTRIES)%nat ∧
  (sum_by entry_size l = removed + sum_by entry_size l')%N ∧
  ((length l ≤ MAX_CHANNEL_ENTRIES)%nat → l' = l ∧ removed = 0%N).
Proof.
  unfold trim_count. split_and!.
  - eexists. symmetry. apply take_drop.
  - rewrite length_drop. lia.
  - by rewrite <- sum_by_app, take_drop.
  - intros Hl. by replace (length l - MAX_CHANNEL_ENTRIES)%nat with 0%nat by lia.
Qed.

Lemma trim_bytes_spec total cap removed l :
  let '(removed', l') := trim_bytes total cap removed l in
  l' `suffix_of` l ∧ (removed + sum_by entry_size l = removed' + sum_by entry_size l')%N ∧
  (l' = [] ∨ (total - removed' ≤ cap)%N).
Proof.
  revert removed. induction l as [|e l IH]; intros removed; cbn [trim_bytes].
  - split_and!; [done|done|by left].
  - destruct (cap <? total - removed)%N eqn:E; [apply N.ltb_lt in E|apply N.ltb_ge in E].
    + specialize (IH (removed + entry_size e)%N).
      destruct (trim_bytes _ _ _ l) as [removed' l']. destruct IH as (Hs & Hsum & Hc).
      split_and!; [by apply suffix_cons_r| |done]. unfold sum_by in *. cbn [foldr]. lia.
    + split_and!; [done|done|by right].
Qed.

(** ** Incoming logs *)

Lemma dedup_seq_head x l : ∃ l', dedup_seq (x :: l) = x :: l'.
Proof. cbn. destruct (dedup_seq l); [eauto|]. case_match; eauto. Qed.

Lemma dedup_seq_sub l e : e ∈ dedup_seq l → e ∈ l.
Proof.
  induction l as [|x l IH]; [done|]. cbn. destruct (dedup_seq l) as [|y r]; [set_solver|].
  destruct (_ =? _)%N; set_solver.
Qed.

Lemma dedup_seq_sorted l :
  StronglySorted (λ a b, ce_seq a ≤ ce_seq b)%N l → StronglySorted by_seq (dedup_seq l).
Proof.
  induction 1 as [|x l Hl IH Hx]; [constructor|]. cbn.
  assert (Hd : Forall (λ b, ce_seq x ≤ ce_seq b)%N (dedup_seq l)).
  { apply Forall_forall. intros e He%list_elem_of_In%dedup_seq_sub%list_elem_of_In.
    by apply (proj1 (List.Forall_forall _ _) Hx). }
  destruct (dedup_seq l) as [|y r]; [by repeat constructor|].
  apply StronglySorted_inv in IH as [Hr Hy]. apply list.Forall_cons in Hd as [Hxy Hxr].
  destruct (ce_seq x =? ce_seq y)%N eqn:E; [apply N.eqb_eq in E|apply N.eqb_neq in E].
  - constructor; [done|]. unfold by_seq in *. by rewrite E.
  - assert (ce_seq x < ce_seq y)%N by lia. constructor; [by constructor|]. constructor; [done|].
    eapply List.Forall_impl; [|exact Hy]. unfold by_seq. cbn. lia.
Qed.

(** ** The invariant of the channel store *)

Record log_wf (log : ChannelLog) : Prop := {
  lw_sorted : StronglySorted by_seq (cl_entries log);
  lw_next : Forall (λ e, ce_seq e < cl_next_seq log)%N (cl_entries log);
  lw_count : (length (cl_entries log) ≤ MAX_CHANNEL_ENTRIES)%nat;
  lw_blobs : Forall (λ e, entry_size e ≤ MAX_CHANNEL_BLOB_BYTES)%N (cl_entries log);
  lw_range : (1 ≤ cl_next_seq log ≤ u64_max)%N;
}.

Definition log_size (log : ChannelLog) : N := sum_by entry_size (cl_entries log).

Record channels_wf (s : Channels) : Prop := {
  cw_logs c log : cs_channels s !! c = Some log → log_wf log;
  cw_bytes : cs_bytes s = stored_bytes (cs_channels s);
  cw_small : (cs_bytes s ≤ u64_max)%N;
  cw_cap : (cs_store_cap s < u64_max)%N;
  cw_count : (msize (cs_channels s) ≤ MAX_CHANNELS)%N;
  cw_rosters : (msize (cs_rosters s) ≤ MAX_CHANNEL_ROSTERS)%N;
  cw_queues : (length (cs_outbox s) ≤ CHANNEL_FED_QUEUE_CAP)%nat ∧
              (length (cs_roster_outbox s) ≤ CHANNEL_FED_QUEUE_CAP)%nat ∧
              (length (cs_backfill s) ≤ CHANNEL_FED_QUEUE_CAP)%nat;
  cw_backfill : cs_backfill_set s = list_to_set (cs_backfill s) ∧ NoDup (cs_backfill s);
}.

Lemma channels_new_wf cap : (cap < u64_max)%N → channels_wf (channels_new cap).
Proof.
  intros Hcap. constructor; cbn; try done; try (unfold CHANNEL_FED_QUEUE_CAP; lia); split; [done|constructor].
Qed.

Lemma empty_log_wf : log_wf (mkLog 1 false []).
Proof.
  constructor; cbn; try constructor; unfold MAX_CHANNEL_ENTRIES, u64_max; try lia.
Qed.

Lemma log_of_wf s c : channels_wf s → log_wf (log_of s c).
Proof.
  intros Hwf. unfold log_of. destruct (cs_channels s !! c) eqn:E; cbn; [by apply Hwf in E|apply empty_log_wf].
Qed.

Lemma stored_bytes_set chs c log :
  (stored_bytes (<[c := log]> chs) + log_size (default (mkLog 1 false []) (chs !! c))
   = log_size log + stored_bytes chs)%N.
Proof.
  change stored_bytes with (map_sum (K:=bytes) log_size).
  rewrite <- (map_sum_update log_size chs c log). by destruct (chs !! c).
Qed.

Lemma log_size_stored s c : channels_wf s → (log_size (log_of s c) ≤ cs_bytes s)%N.
Proof.
  intros Hwf. rewrite (cw_bytes s Hwf). unfold log_of.
  destruct (cs_channels s !! c) as [log|] eqn:E; cbn; [|unfold log_size; cbn; lia].
  by apply (map_sum_elem log_size _ _ _ E).
Qed.

(** Replacing a log by a well-formed one with its size accounted for. *)
Lemma set_log_wf s c log total :
  channels_wf s → log_wf log → no_room (cs_channels s) c MAX_CHANNELS = false →
  (total + log_size (log_of s c) = log_size log + cs_bytes s)%N → (total ≤ u64_max)%N →
  channels_wf (set_log c log total s).
Proof.
  intros Hwf Hlog Hroom Hsum Hmax. pose proof (stored_bytes_set (cs_channels s) c log) as Hst.
  rewrite <- (cw_bytes s Hwf) in Hst. fold (log_of s c) in Hst.
  constructor; cbn; try apply Hwf; [| |done|].
  - intros c' log' Hl. apply lookup_insert_Some in Hl as [[_ <-]|[_ Hl]]; [done|]. by apply Hwf in Hl.
  - lia.
  - apply msize_insert; [done|]. apply Hwf.
Qed.

Lemma set_outbox_wf s x q :
  channels_wf s → channels_wf (set_outbox (push_capped CHANNEL_FED_QUEUE_CAP x q) s).
Proof.
  intros Hwf. constructor; cbn; try apply Hwf. split; [|apply Hwf]. apply push_capped_bound.
Qed.

Lemma set_roster_outbox_wf s x q :
  channels_wf s → channels_wf (set_roster_outbox (push_capped CHANNEL_FED_QUEUE_CAP x q) s).
Proof.
  intros Hwf. constructor; cbn; try apply Hwf. destruct (cw_queues s Hwf) as (? & ? & ?).
  split_and!; [done| |done]. apply push_capped_bound.
Qed.

Lemma queue_backfill_wf s c : channels_wf s → channels_wf (queue_backfill c s).
Proof.
  intros Hwf. unfold queue_backfill. destruct (_ && _) eqn:E; [|done].
  apply andb_true_iff in E as [Hlen%Nat.ltb_lt Hin%negb_true_iff%bool_decide_eq_false].
  destruct (cw_queues s Hwf) as (? & ? & ?), (cw_backfill s Hwf) as [Hset Hnd].
  constructor; cbn; try apply Hwf.
  - split_and!; [done..|]. rewrite length_app. cbn. lia.
  - rewrite Hset in *. split; [set_solver|]. apply list.NoDup_app. split_and!; [done| |apply NoDup_singleton].
    intros x Hx. set_solver.
Qed.

Lemma queue_backfill_logs s c : cs_channels (queue_backfill c s) = cs_channels s ∧
  cs_rosters (queue_backfill c s) = cs_rosters s.
Proof. unfold queue_backfill. by destruct (_ && _). Qed.

(** ** Writes to a log *)

(** A log with one more entry, trimmed to the retention. *)
Lemma add_entry_wf s c entries removed' l' e next local :
  channels_wf s → no_room (cs_channels s) c MAX_CHANNELS = false →
  entries ≡ₚ e :: cl_entries (log_of s c) → StronglySorted by_seq entries →
  trim_count entries = (removed', l') →
  (sat_add64 (cs_bytes s) (entry_size e) ≤ cs_store_cap s)%N →
  (entry_size e ≤ MAX_CHANNEL_BLOB_BYTES)%N →
  (cl_next_seq (log_of s c) ≤ next)%N → (ce_seq e < next)%N → (next ≤ u64_max)%N →
  channels_wf (set_log c (mkLog next local l')
                 (wsub64 (sat_add64 (cs_bytes s) (entry_size e)) removed') s) ∧
  wsub64 (sat_add64 (cs_bytes s) (entry_size e)) removed' = (cs_bytes s + entry_size e - removed')%N ∧
  (cs_bytes s + entry_size e ≤ cs_store_cap s)%N.
Proof.
  intros Hwf Hroom Hperm Hsort Htrim Hcap Hblob Hnext Hseq Hmax.
  pose proof (trim_count_spec entries) as Ht. rewrite Htrim in Ht. destruct Ht as (Hsuf & Hcnt & Hsum & _).
  pose proof (log_of_wf s c Hwf) as Hl. pose proof (log_size_stored s c Hwf) as Hst.
  destruct (sat_add_exact _ _ _ (cw_cap s Hwf) Hcap) as [-> Hle].
  assert (Hs : sum_by entry_size entries = (entry_size e + log_size (log_of s c))%N)
    by (rewrite (sum_by_perm _ _ _ Hperm); done).
  pose proof (cw_cap s Hwf) as Hc. unfold u64_max in Hc.
  rewrite wsub64_exact by lia. split_and!; [|done|done].
  apply set_log_wf; [done| |done| |].
  - constructor; cbn [cl_entries cl_next_seq].
    + by apply (sorted_suffix _ _ _ Hsuf).
    + apply (forall_suffix _ _ _ Hsuf). rewrite Hperm. constructor; [done|].
      eapply List.Forall_impl; [|apply (lw_next _ Hl)]. cbn. lia.
    + done.
    + apply (forall_suffix _ _ _ Hsuf). rewrite Hperm. constructor; [done|]. apply Hl.
    + pose proof (lw_range _ Hl). lia.
  - unfold log_size in *. cbn [cl_entries]. lia.
  - unfold u64_max. lia.
Qed.

Section ops.
Context `{CryptoPrims, KeyDirectory D}.

(** A write is authorised by the key the directory gives for its author. *)
Definition signed_by (dir : D) (identity challenge sig : bytes) : Prop :=
  ∃ key, current_key dir identity = Some key ∧ prim_vk_ok key = true ∧
         prim_verify_strict key challenge sig = true.

Lemma verify_write_sig_ok dir i ch sig r :
  verify_write_sig dir i ch sig = Ok r ↔ r = tt ∧ signed_by dir i ch sig.
Proof using Type.
  unfold verify_write_sig, signed_by, sign_public_from_bytes, sign_verify.
  destruct r. split.
  - destruct (current_key dir i) as [key|]; [|done]. destruct (prim_vk_ok key) eqn:E1; cbn; [|done].
    destruct (prim_verify_strict key ch sig) eqn:E2; cbn; [|done]. intros _. split; [done|by exists key].
  - intros [_ (key & -> & -> & Hv)]. cbn. by rewrite Hv.
Qed.

(** What a post that is accepted has shown. *)
Definition may_post (dir : D) (c blob i sig : bytes) (s : Channels) : Prop :=
  (len blob ≤ MAX_CHANNEL_BLOB_BYTES)%N ∧
  signed_by dir i (post_to_channel_challenge c i blob) sig ∧
  (∃ roster, cs_rosters s !! c = Some roster ∧ i ∈ ro_members roster) ∧
  no_room (cs_channels s) c MAX_CHANNELS = false ∧
  (sat_add64 (cs_bytes s) (len blob) ≤ cs_store_cap s)%N.

Definition posted (c blob i sig : bytes) (now : N) (s : Channels) : Channels :=
  let log := log_of s c in
  let t := trim_count (cl_entries log ++ [mkEntry (cl_next_seq log) blob now]) in
  let s1 := set_log c (mkLog (wrap64 (cl_next_seq log + 1)) true t.2)
              (wsub64 (sat_add64 (cs_bytes s) (len blob)) t.1) s in
  set_outbox (push_capped CHANNEL_FED_QUEUE_CAP (mkOut c (cl_next_seq log) blob i sig) (cs_outbox s)) s1.

Lemma post_cases dir c blob i sig now s r s' :
  post_to_channel dir c blob i sig now s = Some (r, s') →
  (∃ e, r = Err e ∧ s' = s ∧ ¬ may_post dir c blob i sig s) ∨
  (r = Ok (RsPosted (cl_next_seq (log_of s c))) ∧ may_post dir c blob i sig s ∧
   s' = posted c blob i sig now s).
Proof using Type.
  unfold may_post, posted, post_to_channel. intros Hr.
  unfold st_bind, st_reject, st_lift, st_get, st_modify, st_ret in Hr.
  destruct (_ <? len blob)%N eqn:E1 in Hr.
  { injection Hr as <- <-. left. eexists. split_and!; [done..|]. apply N.ltb_lt in E1. lia. }
  apply N.ltb_ge in E1. destruct (verify_channel_post_sig _ _ _ _ _) as [[]|e] eqn:E2 in Hr.
  2: { injection Hr as <- <-. left. eexists. split_and!; [done..|]. intros (_ & Hs & _).
       unfold verify_channel_post_sig in E2.
       assert (Ho : verify_write_sig dir i (post_to_channel_challenge c i blob) sig = Ok tt)
         by by apply verify_write_sig_ok. congruence. }
  apply verify_write_sig_ok in E2 as [_ E2].
  destruct (cs_rosters s !! c) as [roster|] eqn:E3; cbn [ok_or] in Hr.
  2: { injection Hr as <- <-. left. eexists. split_and!; [done..|]. naive_solver. }
  destruct (bool_decide (i ∈ ro_members roster)) eqn:E4 in Hr; cbn [negb] in Hr.
  2: { injection Hr as <- <-. left. eexists. split_and!; [done..|].
       apply bool_decide_eq_false in E4. naive_solver. }
  apply bool_decide_eq_true in E4. destruct (no_room _ _ _) eqn:E5 in Hr.
  { injection Hr as <- <-. left. eexists. split_and!; [done..|]. rewrite E5. naive_solver. }
  destruct (_ <? _)%N eqn:E6 in Hr.
  { injection Hr as <- <-. left. eexists. split_and!; [done..|]. apply N.ltb_lt in E6.
    intros (_ & _ & _ & _ & ?). lia. }
  apply N.ltb_ge in E6. destruct (trim_count _) as [removed l'] eqn:E7 in Hr.
  injection Hr as <- <-. right. rewrite E7. cbn [fst snd]. split_and!; [done|done|done|eauto|done|done|done].
Qed.

Lemma post_total dir c blob i sig now s : is_Some (post_to_channel dir c blob i sig now s).
Proof using Type.
  unfold post_to_channel, st_bind, st_reject, st_lift, st_get, st_modify, st_ret.
  repeat (case_match; try done).
Qed.

Lemma posted_wf dir c blob i sig now s :
  channels_wf s → (cl_next_seq (log_of s c) < u64_max)%N → may_post dir c blob i sig s →
  channels_wf (posted c blob i sig now s) ∧
  (cs_bytes (posted c blob i sig now s) ≤ cs_store_cap s)%N.
Proof.
  intros Hwf Hn (Hb & _ & _ & Hroom & Hcap). unfold posted. cbv zeta.
  pose proof (log_of_wf s c Hwf) as Hl.
  destruct (trim_count _) as [removed l'] eqn:Ht. cbn [fst snd].
  set (e := mkEntry (cl_next_seq (log_of s c)) blob now) in *.
  assert (Hw : wrap64 (cl_next_seq (log_of s c) + 1) = (cl_next_seq (log_of s c) + 1)%N).
  { apply wrap64_small. unfold u64_max in Hn. lia. }
  destruct (add_entry_wf s c (cl_entries (log_of s c) ++ [e]) removed l' e
              (wrap64 (cl_next_seq (log_of s c) + 1)) true) as (H1 & H2 & H3);
    try done; try (rewrite Hw; cbn; lia).
  - by rewrite Permutation_app_comm.
  - apply sorted_snoc; [apply Hl|]. eapply List.Forall_impl; [|apply (lw_next _ Hl)].
    unfold by_seq. cbn. lia.
  - change (entry_size e) with (len blob) in *. split.
    + by apply set_outbox_wf.
    + cbn [cs_bytes set_outbox set_log]. rewrite H2. lia.
Qed.

(** *** Rosters *)

(** The two ways a roster request is good: it binds a new channel or moves a
    bound one to a later version. *)
Definition may_set_roster (c root : bytes) (version : N) (members : list bytes) (sig : bytes)
    (s : Channels) : Prop :=
  (len members ≤ MAX_CHANNEL_ROSTER_MEMBERS)%N ∧
  match cs_rosters s !! c with
  | Some old => ro_server_root old = root ∧ (ro_version old < version)%N
  | None => (msize (cs_rosters s) < MAX_CHANNEL_ROSTERS)%N
  end ∧
  prim_vk_ok root = true ∧
  prim_verify_strict root (channel_roster_challenge c root version members) sig = true.

Lemma apply_roster_cases c root version members sig s r s' :
  apply_channel_roster c root version members sig s = Some (r, s') →
  (r ≠ Ok true ∧ s' = s ∧ ¬ may_set_roster c root version members sig s) ∨
  (r = Ok true ∧ may_set_roster c root version members sig s ∧
   s' = set_roster c (mkRoster root version (list_to_set members)) s).
Proof using Type.
  unfold apply_channel_roster, may_set_roster. intros Hr.
  unfold st_bind, st_reject, st_lift, st_get, st_modify, st_ret in Hr.
  unfold sign_public_from_bytes, sign_verify in Hr.
  destruct (_ <? len members)%N eqn:E1 in Hr.
  { injection Hr as <- <-. left. apply N.ltb_lt in E1. split_and!; [done..|lia]. }
  apply N.ltb_ge in E1. destruct (cs_rosters s !! c) as [old|] eqn:E2.
  - destruct (bool_decide (ro_server_root old ≠ root)) eqn:E3 in Hr.
    { injection Hr as <- <-. left. apply bool_decide_eq_true in E3. split_and!; [done..|naive_solver]. }
    apply bool_decide_eq_false, dec_stable in E3. destruct (_ <=? _)%N eqn:E4 in Hr.
    { injection Hr as <- <-. left. apply N.leb_le in E4. split_and!; [done..|lia]. }
    apply N.leb_gt in E4. destruct (prim_vk_ok root) eqn:E5; cbn [result_bind] in Hr;
      [destruct (prim_verify_strict _ _ _) eqn:E6 in Hr|]; cbn [result_bind] in Hr; injection Hr as <- <-.
    + right. rewrite E6. done.
    + left. split_and!; [done..|]. rewrite E6. naive_solver.
    + left. split_and!; [done..|]. naive_solver.
  - destruct (_ <=? _)%N eqn:E4 in Hr.
    { injection Hr as <- <-. left. apply N.leb_le in E4. split_and!; [done..|lia]. }
    apply N.leb_gt in E4. destruct (prim_vk_ok root) eqn:E5; cbn [result_bind] in Hr;
      [destruct (prim_verify_strict _ _ _) eqn:E6 in Hr|]; cbn [result_bind] in Hr; injection Hr as <- <-.
    + right. rewrite E6. done.
    + left. split_and!; [done..|]. rewrite E6. naive_solver.
    + left. split_and!; [done..|]. naive_solver.
Qed.

Lemma apply_roster_total c root version members sig s :
  is_Some (apply_channel_roster c root version members sig s).
Proof using Type.
  unfold apply_channel_roster, st_bind, st_reject, st_lift, st_get, st_modify, st_ret.
  repeat (case_match; try done).
Qed.

Lemma set_roster_wf c root version members sig s :
  channels_wf s → may_set_roster c root version members sig s →
  channels_wf (set_roster c (mkRoster root version (list_to_set members)) s).
Proof using Type.
  intros Hwf (_ & Hold & _). constructor; cbn; try apply Hwf.
  pose proof (cw_rosters s Hwf). apply msize_insert; [|done]. apply no_room_false.
  destruct (cs_rosters s !! c) as [old|]; [left; by eexists|by right].
Qed.

(** *** Gossiped frames *)

Definition may_fold (dir : D) (c blob i sig : bytes) (s : Channels) : Prop :=
  (len blob ≤ MAX_CHANNEL_BLOB_BYTES)%N ∧
  signed_by dir i (post_to_channel_challenge c i blob) sig ∧
  (∀ roster, cs_rosters s !! c = Some roster → i ∈ ro_members roster) ∧
  no_room (cs_channels s) c MAX_CHANNELS = false ∧
  (sat_add64 (cs_bytes s) (len blob) ≤ cs_store_cap s)%N.

Lemma frame_cases dir c seq blob i sig now s b s' :
  ingest_gossiped_channel_frame dir c seq blob i sig now s = (b, s') →
  let log := log_of s c in
  (b = false ∧ s' = s) ∨
  (b = false ∧ may_fold dir c blob i sig s ∧ has_seq (cl_entries log) seq = true ∧
   s' = set_log c (mkLog (cl_next_seq log) false (cl_entries log)) (cs_bytes s) s) ∨
  (b = true ∧ may_fold dir c blob i sig s ∧ has_seq (cl_entries log) seq = false ∧
   (cl_local log = true → (cl_next_seq log ≤ seq)%N) ∧
   let t := trim_count (insert_entry (mkEntry seq blob now) (cl_entries log)) in
   s' = set_log c (mkLog (N.max (cl_next_seq log) (wrap64 (seq + 1))) false t.2)
          (wsub64 (sat_add64 (cs_bytes s) (len blob)) t.1) s).
Proof using Type.
  unfold may_fold, ingest_gossiped_channel_frame. intros Hr. cbv zeta.
  destruct (_ <? len blob)%N eqn:E1 in Hr; [injection Hr as <- <-; by left|]. apply N.ltb_ge in E1.
  destruct (verify_channel_post_sig _ _ _ _ _) as [[]|] eqn:E2 in Hr; cbn [is_ok negb] in Hr;
    [|injection Hr as <- <-; by left]. apply verify_write_sig_ok in E2 as [_ E2].
  destruct (match cs_rosters s !! c with
            | Some roster => negb (bool_decide (i ∈ ro_members roster)) | None => false end) eqn:E3 in Hr;
    [injection Hr as <- <-; by left|].
  assert (Hm : ∀ roster, cs_rosters s !! c = Some roster → i ∈ ro_members roster).
  { intros roster Hro. rewrite Hro in E3. by apply negb_false_iff, bool_decide_eq_true in E3. }
  clear E3. destruct (no_room _ _ _) eqn:E4 in Hr; [injection Hr as <- <-; by left|].
  destruct (_ <? sat_add64 _ _)%N eqn:E5 in Hr; [injection Hr as <- <-; by left|]. apply N.ltb_ge in E5.
  destruct (cl_local _ && _) eqn:E6 in Hr; [injection Hr as <- <-; by left|]. right.
  destruct (has_seq _ _) eqn:E7 in Hr.
  - injection Hr as <- <-. by left.
  - right. destruct (trim_count _) as [removed l'] eqn:E8 in Hr. injection Hr as <- <-. rewrite E8.
    split_and!; try done. intros Hlo. rewrite Hlo in E6. by apply N.ltb_ge in E6.
Qed.

Lemma frame_wf dir c seq blob i sig now s b s' :
  channels_wf s → (seq < u64_max)%N →
  ingest_gossiped_channel_frame dir c seq blob i sig now s = (b, s') → channels_wf s'.
Proof.
  intros Hwf Hseq Hr. pose proof (log_of_wf s c Hwf) as Hl.
  apply frame_cases in Hr as [(_ & ->)|[(_ & Hm & _ & ->)|(_ & Hm & Hno & _ & ->)]]; [done| |].
  - apply set_log_wf; [done| |apply Hm|apply N.add_comm|apply Hwf]. constructor; cbn; apply Hl.
  - destruct Hm as (Hb & _ & _ & Hroom & Hcap). cbv zeta.
    set (e := mkEntry seq blob now). destruct (trim_count _) as [removed l'] eqn:Ht. cbn [fst snd].
    assert (Hw : wrap64 (seq + 1) = (seq + 1)%N) by (apply wrap64_small; unfold u64_max in *; lia).
    pose proof (lw_range _ Hl).
    eapply (add_entry_wf s c (insert_entry e (cl_entries (log_of s c))) removed l' e);
      try done; try (rewrite Hw; cbn; lia).
    + apply insert_entry_perm.
    + apply insert_entry_sorted; [apply Hl|]. by apply has_seq_false in Hno.
Qed.
End ops.

(** *** Adopting a sibling's log *)

Definition fresh_for (have : gset N) (incoming : list Entry) : list Entry :=
  base.filter (λ e, ce_seq e ∉ have) incoming.

Lemma adopt_loop_spec have incoming added l :
  StronglySorted by_seq l → StronglySorted by_seq incoming →
  Forall (λ x, ce_seq x ∈ have ∨ Forall (by_seq x) incoming) l →
  let '(added', l') := adopt_loop have incoming added l in
  StronglySorted by_seq l' ∧ l' ≡ₚ fresh_for have incoming ++ l ∧
  added' = (added + sum_by entry_size (fresh_for have incoming))%N.
Proof.
  revert added l. induction incoming as [|e rest IH]; intros added l Hl Hin Hf; cbn [adopt_loop].
  { split_and!; [done|done|]. cbn. lia. }
  apply StronglySorted_inv in Hin as [Hrest He]. unfold fresh_for in *.
  assert (Hf' : Forall (λ x, ce_seq x ∈ have ∨ Forall (by_seq x) rest) l).
  { eapply List.Forall_impl; [|exact Hf]. cbn. intros x [?|[_ ?]%list.Forall_cons]; auto. }
  destruct (bool_decide (ce_seq e ∈ have)) eqn:E.
  - apply bool_decide_eq_true in E. rewrite filter_cons_False by auto. by apply IH.
  - apply bool_decide_eq_false in E. rewrite filter_cons_True by done.
    assert (Hne : Forall (λ x, ce_seq x ≠ ce_seq e) l).
    { eapply List.Forall_impl; [|exact Hf]. cbn. unfold by_seq.
      intros x [Hx|[Hx _]%list.Forall_cons]; [intros Heq; by rewrite Heq in Hx|lia]. }
    pose proof (IH (added + entry_size e)%N (insert_entry e l)) as Hi.
    destruct (adopt_loop _ _ _ _) as [added' l']. destruct Hi as (H1 & H2 & H3).
    + by apply insert_entry_sorted.
    + done.
    + rewrite insert_entry_perm. constructor; [by right|done].
    + split_and!; [done| |].
      * rewrite H2, insert_entry_perm. by rewrite <- Permutation_middle.
      * unfold sum_by in *. cbn [foldr]. lia.
Qed.

Lemma adoptable_spec entries now :
  StronglySorted by_seq (adoptable entries now) ∧
  (∀ e, e ∈ adoptable entries now →
     (ce_seq e, ce_blob e) ∈ entries ∧ ce_ts e = now ∧ (entry_size e ≤ MAX_CHANNEL_BLOB_BYTES)%N).
Proof.
  unfold adoptable. split; [apply dedup_seq_sorted, sort_by_key_sorted|].
  intros e He%dedup_seq_sub. rewrite sort_by_key_perm in He.
  apply list_elem_of_fmap in He as ([s b] & -> & [Hb%N.leb_le Hin]%list_elem_of_filter). done.
Qed.

Lemma adoptable_size entries now :
  (sum_by entry_size (adoptable entries now) ≤ sum_by (λ sb, len sb.2) entries)%N.
Proof.
  assert (Hd : ∀ l, (sum_by entry_size (dedup_seq l) ≤ sum_by entry_size l)%N).
  { induction l as [|x l IH]; [done|]. cbn [dedup_seq].
    destruct (dedup_seq l) as [|y r]; [|destruct (_ =? _)%N]; unfold sum_by in *; cbn [foldr] in *; lia. }
  unfold adoptable. etrans; [apply Hd|]. rewrite (sum_by_perm _ _ _ (sort_by_key_perm _ _)).
  clear Hd. induction entries as [|[q b] l IH]; [done|]. rewrite filter_cons.
  case_decide; [rewrite fmap_cons|]; unfold sum_by in *; cbn [foldr snd]; [|lia].
  change (entry_size (mkEntry q b now)) with (len b). lia.
Qed.

Lemma adoptable_complete entries now s b :
  (s, b) ∈ entries → (len b ≤ MAX_CHANNEL_BLOB_BYTES)%N →
  ∃ e, e ∈ adoptable entries now ∧ ce_seq e = s.
Proof.
  intros Hin Hb. unfold adoptable.
  assert (Hd : ∀ l e, e ∈ l → ∃ e', e' ∈ dedup_seq l ∧ ce_seq e' = ce_seq e).
  { induction l as [|x l IH]; intros e He; [by apply not_elem_of_nil in He|]. cbn.
    apply elem_of_cons in He as [->|He].
    - destruct (dedup_seq l) as [|y r]; [|destruct (_ =? _)%N]; exists x; set_solver.
    - destruct (IH e He) as (e' & He' & Heq). destruct (dedup_seq l) as [|y r]; [set_solver|].
      destruct (ce_seq x =? ce_seq y)%N eqn:E; [apply N.eqb_eq in E|set_solver].
      apply elem_of_cons in He' as [->|He']; [exists x; split; [set_solver|congruence]|set_solver]. }
  destruct (Hd (sort_by_key ce_seq ((λ '(s, b), mkEntry s b now) <$>
     base.filter (λ sb, (len sb.2 <=? MAX_CHANNEL_BLOB_BYTES)%N = true) entries)) (mkEntry s b now))
    as (e & He & Heq); [|by exists e].
  rewrite sort_by_key_perm. apply list_elem_of_fmap. exists (s, b). split; [done|].
  apply list_elem_of_filter. split; [by apply N.leb_le|done].
Qed.

(** What adopting does to a log: it only adds entries with new sequence
    numbers, and only drops entries from the old end. *)
Lemma adopt_cases c entries now s :
  let s' := adopt_channel_log c entries now s in
  let log := log_of s c in
  let new := fresh_for (list_to_set (ce_seq <$> cl_entries log)) (adoptable entries now) in
  StronglySorted by_seq (cl_entries log) →
  (s' = s ∧ (no_room (cs_channels s) c MAX_CHANNELS = true ∨ adoptable entries now = [])) ∨
  (no_room (cs_channels s) c MAX_CHANNELS = false ∧
   ∃ lst merged l' removed,
     list.last (adoptable entries now) = Some lst ∧
     StronglySorted by_seq merged ∧ merged ≡ₚ new ++ cl_entries log ∧ l' `suffix_of` merged ∧
     (length l' ≤ MAX_CHANNEL_ENTRIES)%nat ∧
     (sum_by entry_size merged = removed + sum_by entry_size l')%N ∧
     let total := sat_add64 (cs_bytes s) (sum_by entry_size new) in
     (l' = [] ∨ (total - removed ≤ cs_store_cap s)%N) ∧
     ((length merged ≤ MAX_CHANNEL_ENTRIES)%nat → (total ≤ cs_store_cap s)%N → l' = merged) ∧
     s' = set_log c (mkLog (N.max (cl_next_seq log) (wrap64 (ce_seq lst + 1))) (cl_local log) l')
            (total - removed) s).
Proof.
  cbv zeta. intros Hsort. unfold adopt_channel_log. destruct (no_room _ _ _) eqn:E1; [by left; auto|].
  destruct (list.last (adoptable entries now)) as [lst|] eqn:E2.
  2: { left. split; [done|]. right. by apply last_None in E2. }
  right. split; [done|]. destruct (adoptable_spec entries now) as [Hinc _].
  pose proof (adopt_loop_spec (list_to_set (ce_seq <$> cl_entries (log_of s c)))
    (adoptable entries now) 0 (cl_entries (log_of s c)) Hsort Hinc) as Ha.
  destruct (adopt_loop _ _ _ _) as [added merged]. destruct Ha as (Hs & Hp & Ha).
  { apply List.Forall_forall. intros x Hx%list_elem_of_In. left. set_solver. }
  pose proof (trim_count_spec merged) as Ht. destruct (trim_count merged) as [removed1 l1].
  destruct Ht as (Hsuf1 & Hcnt & Hsum1 & Hid1). set (total := sat_add64 (cs_bytes s) added) in *.
  pose proof (trim_bytes_spec total (cs_store_cap s) removed1 l1) as Hb.
  destruct (trim_bytes _ _ _ l1) as [removed l2] eqn:Eb. destruct Hb as (Hsuf2 & Hsum2 & Hcap).
  rewrite N.add_0_l in Ha. subst added.
  exists lst, merged, l2, removed. split_and!; try done.
  - by transitivity l1.
  - destruct Hsuf2 as [k ->]. rewrite length_app in Hcnt. lia.
  - lia.
  - intros Hm Ht. destruct (Hid1 Hm) as [-> ->].
    destruct merged as [|m ms]; cbn in Eb; [by injection Eb as <- <-|].
    rewrite (proj2 (N.ltb_ge _ _)) in Eb by (subst total; lia). by injection Eb as <- <-.
Qed.

Lemma adopt_wf c entries now s :
  channels_wf s → (∀ sb, sb ∈ entries → (sb.1 < u64_max)%N) →
  (cs_bytes s + sum_by (λ sb, len sb.2) entries ≤ u64_max)%N →
  channels_wf (adopt_channel_log c entries now s).
Proof.
  intros Hwf Hseq Hsmall. pose proof (adoptable_size entries now) as Hadd. pose proof (log_of_wf s c Hwf) as Hl.
  pose proof (log_size_stored s c Hwf) as Hst.
  destruct (adopt_cases c entries now s (lw_sorted _ Hl))
    as [[-> _]|(Hroom & lst & merged & l' & removed & Hlast & Hms & Hp & Hsuf & Hcnt & Hsum & _ & _ & ->)];
    [done|].
  set (new := fresh_for _ _) in *. destruct (adoptable_spec entries now) as [Hsort Hin].
  assert (Hnew : (sum_by entry_size new ≤ sum_by entry_size (adoptable entries now))%N).
  { subst new. unfold fresh_for. clear. induction (adoptable entries now) as [|e l IH]; [done|].
    rewrite filter_cons. case_decide; unfold sum_by in *; cbn [foldr]; lia. }
  assert (Hlst : (ce_seq lst < u64_max)%N).
  { apply last_Some_elem_of in Hlast. destruct (Hin _ Hlast) as (He & _). by apply Hseq in He. }
  assert (Hw : wrap64 (ce_seq lst + 1) = (ce_seq lst + 1)%N) by (apply wrap64_small; unfold u64_max in *; lia).
  assert (Hm : sum_by entry_size merged = (sum_by entry_size new + log_size (log_of s c))%N).
  { rewrite (sum_by_perm _ _ _ Hp). apply sum_by_app. }
  assert (Htot : sat_add64 (cs_bytes s) (sum_by entry_size new) = (cs_bytes s + sum_by entry_size new)%N).
  { unfold sat_add64. lia. }
  rewrite Htot. pose proof (lw_range _ Hl). apply set_log_wf; [done| |done| |lia].
  - assert (Hnx : ∀ e, e ∈ new → (ce_seq e ≤ ce_seq lst)%N).
    { intros e He. apply list_elem_of_filter in He as [_ He].
      apply last_Some in Hlast as [l0 Hl0]. rewrite Hl0 in He, Hsort.
      apply elem_of_app in He as [He|He]; [|apply list_elem_of_singleton in He as ->; lia].
      clear -He Hsort. induction l0 as [|x l0 IH]; [by apply not_elem_of_nil in He|].
      cbn in Hsort. apply StronglySorted_inv in Hsort as [Hs Hx].
      apply elem_of_cons in He as [->|He]; [|by apply IH].
      apply Forall_app in Hx as [_ Hx]. apply list.Forall_cons in Hx as [Hx _]. unfold by_seq in Hx. lia. }
    constructor; cbn [cl_entries cl_next_seq].
    + by apply (sorted_suffix _ _ _ Hsuf).
    + apply (forall_suffix _ _ _ Hsuf). rewrite Hp. apply Forall_app. split.
      * apply List.Forall_forall. intros e He%list_elem_of_In. apply Hnx in He. rewrite Hw. lia.
      * eapply List.Forall_impl; [|apply (lw_next _ Hl)]. cbn. lia.
    + done.
    + apply (forall_suffix _ _ _ Hsuf). rewrite Hp. apply Forall_app. split; [|apply (lw_blobs _ Hl)].
      apply List.Forall_forall. intros e He%list_elem_of_In.
      apply list_elem_of_filter in He as [_ He]. by destruct (Hin _ He) as (_ & _ & ?).
    + rewrite Hw. unfold u64_max in *. lia.
  - unfold log_size in *. cbn [cl_entries]. lia.
Qed.

(** *** Reading *)

Definition after (seq : N) (l : list Entry) : list Entry :=
  base.filter (λ e, (seq <? ce_seq e)%N = true) l.

Definition log_slice (c : bytes) (since : N) (s : Channels) : list Entry :=
  take_budget 0 (after since (cl_entries (log_of s c))).

Lemma fetch_channel_eq c since s :
  (fetch_channel c since s).1 = RsChannelLog ((λ e, (ce_seq e, ce_blob e)) <$> log_slice c since s) ∧
  cs_channels (fetch_channel c since s).2 = cs_channels s ∧
  cs_rosters (fetch_channel c since s).2 = cs_rosters s.
Proof.
  unfold fetch_channel, log_slice, log_of. destruct (cs_channels s !! c) as [log|]; cbn.
  - destruct (_ <=? _)%N; [|done]. destruct (queue_backfill_logs s c). done.
  - destruct (queue_backfill_logs s c). done.
Qed.

Lemma fetch_channel_wf c since s : channels_wf s → channels_wf (fetch_channel c since s).2.
Proof.
  intros Hwf. unfold fetch_channel.
  destruct (cs_channels s !! c); [destruct (_ <=? _)%N|]; cbn; [|done|]; by apply queue_backfill_wf.
Qed.

Lemma take_budget_spec used l :
  (used ≤ MAX_CHANNEL_FETCH_BYTES)%N →
  ∃ rest, l = take_budget used l ++ rest ∧
    (used + sum_by entry_size (take_budget used l) ≤ MAX_CHANNEL_FETCH_BYTES)%N ∧
    (∀ e rest', rest = e :: rest' →
       (MAX_CHANNEL_FETCH_BYTES < used + sum_by entry_size (take_budget used l) + entry_size e)%N).
Proof.
  revert used. induction l as [|e l IH]; intros used Hu; cbn [take_budget].
  - exists []. unfold sum_by. cbn. split_and!; [done|lia|done].
  - destruct (_ <=? _)%N eqn:E; [apply N.leb_le in E|apply N.leb_gt in E].
    + destruct (IH _ E) as (rest & Hl & Hs & Hr). exists rest. unfold sum_by in *. cbn [foldr app].
      split_and!; [by f_equal|lia|]. intros e' r' ->. specialize (Hr e' r' eq_refl). lia.
    + exists (e :: l). unfold sum_by. cbn. split_and!; [done|lia|]. intros e' r' [= <- <-]. lia.
Qed.

Lemma take_budget_progress l :
  Forall (λ e, entry_size e ≤ MAX_CHANNEL_BLOB_BYTES)%N l → take_budget 0 l = [] → l = [].
Proof.
  intros Hf Hn. destruct l as [|e l]; [done|]. apply list.Forall_cons in Hf as [He _].
  cbn [take_budget] in Hn. rewrite (proj2 (N.leb_le _ _)) in Hn; [done|].
  unfold MAX_CHANNEL_FETCH_BYTES, MAX_CHANNEL_BLOB_BYTES in *. lia.
Qed.

Lemma after_sorted seq l : StronglySorted by_seq l → StronglySorted by_seq (after seq l).
Proof.
  unfold after. induction 1 as [|x l Hl IH Hx]; [constructor|]. rewrite filter_cons.
  case_decide; [|done]. constructor; [done|]. apply List.Forall_forall.
  intros y [_ Hy]%list_elem_of_In%list_elem_of_filter. apply list_elem_of_In in Hy.
  by apply (proj1 (List.Forall_forall _ _) Hx).
Qed.

(** Asking again from the last entry received gives the rest. *)
Lemma after_last since l out rest m :
  StronglySorted by_seq l → after since l = out ++ rest → list.last out = Some m →
  after (ce_seq m) l = rest.
Proof.
  intros Hs Ha Hm. pose proof (after_sorted since l Hs) as Hsa. rewrite Ha in Hsa.
  apply last_Some in Hm as [o Ho]. subst out.
  assert (Hm : (since < ce_seq m)%N).
  { assert (Hin : m ∈ after since l) by (rewrite Ha; set_solver).
    apply list_elem_of_filter in Hin as [?%N.ltb_lt _]. done. }
  assert (Hff : after (ce_seq m) l = after (ce_seq m) (after since l)).
  { unfold after. rewrite list_filter_filter. apply list_filter_iff. intros x.
    rewrite !N.ltb_lt. lia. }
  rewrite Hff, Ha. unfold after. rewrite !list.filter_app.
  rewrite <- app_assoc in Hsa. cbn in Hsa. clear -Hsa.
  assert (Hr : base.filter (λ e, (ce_seq m <? ce_seq e)%N = true) rest = rest).
  { apply sorted_app_r, StronglySorted_inv in Hsa as [_ Hf].
    induction Hf as [|x r Hx _ IH]; [done|]. unfold by_seq in Hx.
    rewrite filter_cons_True by by apply N.ltb_lt. by rewrite IH. }
  rewrite Hr. rewrite filter_cons_False by (rewrite N.ltb_irrefl; done).
  cbn. replace (base.filter _ o) with (@nil Entry); [done|]. symmetry.
  induction o as [|x o IH]; [done|]. cbn in Hsa. apply StronglySorted_inv in Hsa as [Hs Hx].
  apply Forall_app in Hx as [_ Hx]. apply list.Forall_cons in Hx as [Hx _]. unfold by_seq in Hx.
  rewrite filter_cons_False; [by apply IH|]. intros ?%N.ltb_lt. lia.
Qed.

(** *** Housekeeping *)

Lemma filter_sorted {A} (R : A → A → Prop) (P : A → Prop) `{∀ x, Decision (P x)} l :
  StronglySorted R l → StronglySorted R (base.filter P l).
Proof.
  induction 1 as [|x l Hl IH Hx]; [constructor|]. rewrite filter_cons. case_decide; [|done].
  constructor; [done|]. apply List.Forall_forall. intros y [_ Hy]%list_elem_of_In%list_elem_of_filter.
  apply list_elem_of_In in Hy. by apply (proj1 (List.Forall_forall _ _) Hx).
Qed.

Lemma filter_forall {A} (Q P : A → Prop) `{∀ x, Decision (P x)} l :
  Forall Q l → Forall Q (base.filter P l).
Proof.
  intros Hf. apply List.Forall_forall. intros y [_ Hy]%list_elem_of_In%list_elem_of_filter.
  apply list_elem_of_In in Hy. by apply (proj1 (List.Forall_forall _ _) Hf).
Qed.

Definition fresh_entries (now : N) (l : list Entry) : list Entry :=
  base.filter (λ e, fresh_until BLOB_TTL_MS now (ce_ts e) = true) l.

Lemma live_entries_Some now log log' :
  live_entries now log = Some log' →
  log' = mkLog (cl_next_seq log) (cl_local log) (fresh_entries now (cl_entries log)) ∧
  fresh_entries now (cl_entries log) ≠ [].
Proof.
  unfold live_entries, fresh_entries. destruct (base.filter _ _) as [|e l]; [done|].
  by intros [= <-].
Qed.

Lemma maintain_log now s c :
  cs_channels (maintain_channels now s) !! c =
  match cs_channels s !! c with
  | Some log => live_entries now log
  | None => None
  end.
Proof. unfold maintain_channels. cbn. rewrite lookup_omap. by destruct (cs_channels s !! c). Qed.

Lemma filter_sum {A} (f : A → N) (P : A → Prop) `{∀ x, Decision (P x)} l :
  (sum_by f (base.filter P l) ≤ sum_by f l)%N.
Proof.
  induction l as [|x l IH]; [done|]. rewrite filter_cons.
  case_decide; unfold sum_by in *; cbn [foldr]; lia.
Qed.

Lemma stored_bytes_live now chs : (stored_bytes (omap (live_entries now) chs) ≤ stored_bytes chs)%N.
Proof.
  unfold stored_bytes.
  rewrite (map_sum_omap (λ log, sum_by entry_size (fresh_entries now (cl_entries log))) _ _ chs).
  - induction chs as [|c log chs Hc IH] using map_ind; [by rewrite !map_sum_empty|].
    rewrite !map_sum_insert by done. pose proof (filter_sum entry_size
      (λ e, fresh_until BLOB_TTL_MS now (ce_ts e) = true) (cl_entries log)). unfold fresh_entries in *. lia.
  - intros c log _. unfold live_entries, fresh_entries. by destruct (base.filter _ _).
Qed.

Lemma omap_size {K V} `{Countable K} (f : V → option V) (m : gmap K V) : (size (omap f m) ≤ size m)%nat.
Proof.
  rewrite <- (size_dom (omap f m)), <- (size_dom m). apply subseteq_size.
  intros k. rewrite !elem_of_dom, lookup_omap. by destruct (m !! k).
Qed.

Lemma maintain_channels_wf now s : channels_wf s → channels_wf (maintain_channels now s).
Proof.
  intros Hwf. pose proof (stored_bytes_live now (cs_channels s)) as Hst.
  pose proof (cw_bytes s Hwf). pose proof (cw_small s Hwf).
  constructor; try apply Hwf.
  - intros c log. rewrite maintain_log. destruct (cs_channels s !! c) as [old|] eqn:E; [|done].
    intros [-> _]%live_entries_Some. destruct (cw_logs s Hwf _ _ E).
    unfold fresh_entries. constructor; cbn [cl_entries cl_next_seq].
    + by apply filter_sorted.
    + by apply filter_forall.
    + etrans; [apply length_filter|done].
    + by apply filter_forall.
    + done.
  - done.
  - cbn. unfold u64_max in *. lia.
  - cbn. pose proof (cw_count s Hwf). unfold msize in *.
    pose proof (omap_size (live_entries now) (cs_channels s)). lia.
Qed.

(** ** Any operation on the store *)

Section step.
Context `{CryptoPrims, KeyDirectory D}.

Definition seq_room (s : Channels) : Prop :=
  ∀ c log, cs_channels s !! c = Some log → (cl_next_seq log < u64_max)%N.

Inductive chan_step (dir : D) (s : Channels) : Channels → Prop :=
  | ch_post c blob i sig now r s' :
      seq_room s → post_to_channel dir c blob i sig now s = Some (r, s') → chan_step dir s s'
  | ch_roster c root version members sig r s' :
      set_channel_roster c root version members sig s = Some (r, s') → chan_step dir s s'
  | ch_fetch c since : chan_step dir s (fetch_channel c since s).2
  | ch_frame c seq blob i sig now b s' :
      (seq < u64_max)%N →
      ingest_gossiped_channel_frame dir c seq blob i sig now s = (b, s') → chan_step dir s s'
  | ch_gossip_roster c root version members sig b s' :
      ingest_gossiped_channel_roster c root version members sig s = (b, s') → chan_step dir s s'
  | ch_adopt c entries now :
      (∀ sb, sb ∈ entries → (sb.1 < u64_max)%N) →
      (cs_bytes s + sum_by (λ sb, len sb.2) entries ≤ u64_max)%N →
      chan_step dir s (adopt_channel_log c entries now s)
  | ch_maintain now : chan_step dir s (maintain_channels now s)
  | ch_drain_outbox : chan_step dir s (take_channel_outbox s).2
  | ch_drain_rosters : chan_step dir s (take_channel_roster_outbox s).2
  | ch_drain_backfill : chan_step dir s (take_channel_backfill s).2
  | ch_set_cap cap : (cap < u64_max)%N → chan_step dir s (set_channel_store_cap cap s).

Lemma log_of_room s c : seq_room s → (cl_next_seq (log_of s c) < u64_max)%N.
Proof using Type.
  intros Hr. unfold log_of. destruct (cs_channels s !! c) as [log|] eqn:E; cbn; [by apply Hr in E|done].
Qed.

Lemma set_channel_roster_cases c root version members sig s r s' :
  set_channel_roster c root version members sig s = Some (r, s') →
  (is_ok r = false ∧ s' = s) ∨
  (r = Ok RsOk ∧ may_set_roster c root version members sig s ∧
   s' = set_roster_outbox (push_capped CHANNEL_FED_QUEUE_CAP
          (mkRosterOut c root version members sig) (cs_roster_outbox s))
          (set_roster c (mkRoster root version (list_to_set members)) s)).
Proof using Type.
  unfold set_channel_roster, st_bind. intros Hr.
  destruct (apply_channel_roster c root version members sig s) as [[r1 s1]|] eqn:E; [|done].
  apply apply_roster_cases in E as [(Hne & -> & _)|(-> & Hm & ->)].
  - destruct r1 as [[]|e]; [done| |]; unfold st_lift in Hr; injection Hr as <- <-; by left.
  - unfold st_modify, st_ret in Hr. injection Hr as <- <-. by right.
Qed.

Lemma gossip_roster_cases c root version members sig s b s' :
  ingest_gossiped_channel_roster c root version members sig s = (b, s') →
  (b = false ∧ s' = s) ∨
  (b = true ∧ may_set_roster c root version members sig s ∧
   s' = set_roster c (mkRoster root version (list_to_set members)) s).
Proof using Type.
  unfold ingest_gossiped_channel_roster. intros Hr.
  destruct (apply_channel_roster c root version members sig s) as [[r1 s1]|] eqn:E;
    [|injection Hr as <- <-; by left].
  apply apply_roster_cases in E as [(Hne & -> & _)|(-> & Hm & ->)].
  - left. by destruct r1 as [[]|e]; injection Hr as <- <-.
  - injection Hr as <- <-. by right.
Qed.

Lemma chan_step_wf dir s s' : channels_wf s → chan_step dir s s' → channels_wf s'.
Proof using Type.
  intros Hwf [c blob i sig now r s1 Hroom Hr|c root v ms sig r s1 Hr|c since|
    c seq blob i sig now b s1 Hseq Hr|c root v ms sig b s1 Hr|c es now Hseq Hsz|now| | | |cap Hcap].
  - apply post_cases in Hr as [(_ & _ & -> & _)|(_ & Hm & ->)]; [done|].
    by apply (posted_wf dir); [|apply log_of_room|].
  - apply set_channel_roster_cases in Hr as [[_ ->]|(_ & Hm & ->)]; [done|].
    apply set_roster_outbox_wf. by eapply set_roster_wf.
  - by apply fetch_channel_wf.
  - by eapply frame_wf.
  - apply gossip_roster_cases in Hr as [[_ ->]|(_ & Hm & ->)]; [done|]. by eapply set_roster_wf.
  - by apply adopt_wf.
  - by apply maintain_channels_wf.
  - constructor; cbn; try apply Hwf. split; [apply le_0_n|apply Hwf].
  - constructor; cbn; try apply Hwf. split_and!; [apply Hwf|apply le_0_n|apply Hwf].
  - constructor; cbn; try apply Hwf; [split_and!; [apply Hwf|apply Hwf|apply le_0_n]|].
    split; [done|constructor].
  - constructor; cbn; try apply Hwf. done.
Qed.

(** *** Rosters never change hands and never go back *)

Definition roster_signed (c : bytes) (r : ChannelRoster) : Prop :=
  ∃ members sig, ro_members r = list_to_set members ∧ prim_vk_ok (ro_server_root r) = true ∧
    prim_verify_strict (ro_server_root r)
      (channel_roster_challenge c (ro_server_root r) (ro_version r) members) sig = true.

Definition roster_le (c : bytes) (r r' : ChannelRoster) : Prop :=
  r' = r ∨ (ro_server_root r' = ro_server_root r ∧ (ro_version r < ro_version r')%N ∧
            roster_signed c r').

Lemma roster_le_trans c r1 r2 r3 : roster_le c r1 r2 → roster_le c r2 r3 → roster_le c r1 r3.
Proof using Type.
  intros [->|(H1 & H2 & H3)] [->|(H4 & H5 & H6)]; [by left|by right..|]. right.
  split_and!; [congruence|lia|done].
Qed.

(** The rosters an operation leaves behind. *)
Lemma chan_step_rosters dir s s' :
  chan_step dir s s' →
  cs_rosters s' = cs_rosters s ∨
  ∃ c root version members sig, may_set_roster c root version members sig s ∧
    cs_rosters s' = <[c := mkRoster root version (list_to_set members)]> (cs_rosters s).
Proof using Type.
  intros [c blob i sig now r s1 Hroom Hr|c root v ms sig r s1 Hr|c since|
    c seq blob i sig now b s1 Hseq Hr|c root v ms sig b s1 Hr|c es now Hseq Hsz|now| | | |cap Hcap];
    try by left.
  - apply post_cases in Hr as [(_ & _ & -> & _)|(_ & _ & ->)]; by left.
  - apply set_channel_roster_cases in Hr as [[_ ->]|(_ & Hm & ->)]; [by left|right].
    by exists c, root, v, ms, sig.
  - left. apply fetch_channel_eq.
  - apply frame_cases in Hr as [(_ & ->)|[(_ & _ & _ & ->)|(_ & _ & _ & _ & ->)]]; by left.
  - apply gossip_roster_cases in Hr as [[_ ->]|(_ & Hm & ->)]; [by left|right].
    by exists c, root, v, ms, sig.
  - left. unfold adopt_channel_log. repeat (case_match; try done).
Qed.

Lemma chan_step_roster_le dir s s' c r :
  chan_step dir s s' → cs_rosters s !! c = Some r →
  ∃ r', cs_rosters s' !! c = Some r' ∧ roster_le c r r'.
Proof using Type.
  intros [->|(c' & root & v & ms & sig & (Hlen & Hold & Hk & Hv) & ->)]%chan_step_rosters Hr.
  - exists r. split; [done|by left].
  - destruct (decide (c' = c)) as [->|Hne].
    + rewrite Hr in Hold. destruct Hold as [Hroot Hver]. rewrite lookup_insert_eq.
      eexists. split; [done|]. right. cbn. split_and!; [done|done|]. by exists ms, sig.
    + rewrite lookup_insert_ne by done. exists r. split; [done|by left].
Qed.

Lemma chan_step_roster_signed dir s s' :
  chan_step dir s s' → (∀ c r, cs_rosters s !! c = Some r → roster_signed c r) →
  (∀ c r, cs_rosters s' !! c = Some r → roster_signed c r).
Proof using Type.
  intros [->|(c' & root & v & ms & sig & (Hlen & Hold & Hk & Hv) & ->)]%chan_step_rosters Hs c r Hr;
    [by apply Hs|].
  apply lookup_insert_Some in Hr as [[<- <-]|[_ Hr]]; [|by apply Hs]. by exists ms, sig.
Qed.

(** *** Who writes a log *)

Definition entries_of (s : Channels) (c : bytes) : list Entry := cl_entries (log_of s c).

(** How an entry comes into a log: signed by the directory's key for someone
    who is in the channel's roster, if there is one, or in a sibling's copy. *)
Inductive written (dir : D) (c : bytes) (e : Entry) (s s' : Channels) : Prop :=
  | written_signed i sig :
      signed_by dir i (post_to_channel_challenge c i (ce_blob e)) sig →
      (∀ roster, cs_rosters s !! c = Some roster → i ∈ ro_members roster) → written dir c e s s'
  | written_copied entries now :
      s' = adopt_channel_log c entries now s → (ce_seq e, ce_blob e) ∈ entries → written dir c e s s'.

Lemma entries_set_log s c c' log total :
  entries_of (set_log c log total s) c' = if decide (c' = c) then cl_entries log else entries_of s c'.
Proof using Type.
  unfold entries_of, log_of, set_log. cbn [cs_channels]. destruct (decide (c' = c)) as [->|].
  - by rewrite lookup_insert_eq.
  - by rewrite lookup_insert_ne.
Qed.

Lemma trim_count_sub l e : e ∈ (trim_count l).2 → e ∈ l.
Proof using Type. intros He. eapply list.elem_of_sublist; [exact He|]. apply list.sublist_drop. Qed.

Lemma chan_step_entries dir s s' c e :
  channels_wf s → chan_step dir s s' → e ∈ entries_of s' c → e ∈ entries_of s c ∨ written dir c e s s'.
Proof using Type.
  intros Hwf [c' blob i sig now r s1 Hroom Hr|c' root v ms sig r s1 Hr|c' since|
    c' seq blob i sig now b s1 Hseq Hr|c' root v ms sig b s1 Hr|c' es now Hseq Hsz|now| | | |cap Hcap] He;
    try by left.
  - apply post_cases in Hr as [(_ & _ & -> & _)|(_ & (_ & Hs & (ro & Hro & Hi) & _) & ->)]; [by left|].
    unfold posted in He. change (e ∈ entries_of (set_log c' (mkLog (wrap64 (cl_next_seq (log_of s c') + 1)) true
      (trim_count (cl_entries (log_of s c') ++ [mkEntry (cl_next_seq (log_of s c')) blob now])).2)
      (wsub64 (sat_add64 (cs_bytes s) (len blob)) (trim_count (cl_entries (log_of s c') ++
        [mkEntry (cl_next_seq (log_of s c')) blob now])).1) s) c) in He.
    rewrite entries_set_log in He. destruct (decide (c = c')) as [->|]; [|by left]. cbn [cl_entries] in He.
    apply trim_count_sub, elem_of_app in He as [He|He%list_elem_of_singleton]; [by left|right]. subst e.
    eapply written_signed; [exact Hs|]. intros roster Hroster. congruence.
  - apply set_channel_roster_cases in Hr as [[_ ->]|(_ & _ & ->)]; by left.
  - left. unfold entries_of, log_of in *. by rewrite (proj1 (proj2 (fetch_channel_eq c' since s))) in He.
  - apply frame_cases in Hr as [(_ & ->)|[(_ & _ & _ & ->)|(_ & (_ & Hs & Hro & _) & _ & _ & ->)]]; [by left|..];
      rewrite entries_set_log in He; (destruct (decide (c = c')) as [->|]; [|by left]); cbn [cl_entries] in He; [by left|].
    apply trim_count_sub in He. rewrite insert_entry_perm, elem_of_cons in He. destruct He as [->|He]; [right|by left].
    by eapply written_signed.
  - apply gossip_roster_cases in Hr as [[_ ->]|(_ & _ & ->)]; by left.
  - destruct (adopt_cases c' es now s (lw_sorted _ (log_of_wf s c' Hwf)))
      as [[E _]|(_ & lst & merged & l' & removed & _ & _ & Hp & Hsuf & _ & _ & _ & _ & E)].
    { left. by rewrite E in He. }
    rewrite E, entries_set_log in He. destruct (decide (c = c')) as [->|]; [|by left]. cbn [cl_entries] in He.
    assert (He' : e ∈ merged) by (destruct Hsuf as [pre ->]; apply elem_of_app; by right).
    rewrite Hp, elem_of_app in He'. destruct He' as [He'|]; [right|by left].
    apply list_elem_of_filter in He' as [_ He']. apply (written_copied _ _ _ _ _ es now); [done|].
    by apply (proj2 (adoptable_spec es now)) in He' as (? & _).
  - left. unfold entries_of, log_of in *. rewrite maintain_log in He.
    destruct (cs_channels s !! c) as [log|]; [|done]. cbn [default] in *.
    destruct (live_entries now log) as [log'|] eqn:El; [|by apply not_elem_of_nil in He].
    apply live_entries_Some in El as [-> _]. cbn in He. by apply list_elem_of_filter in He as [_ ?].
Qed.
End step.
