(* ===== verification/Relay.v ===== *)
(** * The relay's request handler and housekeeping ([crates/dante-relay/src/state.rs]) *)

From S2P Require Import Prelude Utf8 Enc Crypto Merkle ProtoRecord Envelope IdentityRecords Server.
From S2P Require Import Ledger Mailbox RateLimit Wire RelayParts RelayChannels.

(** ** Limits *)

Record Limits := mkLimits {
  li_announce : f64 * f64;
  li_record : f64 * f64;
  li_deposit : f64 * f64;
  li_read : f64 * f64;
  li_channel_store_cap_bytes : N;
}.

Definition limits_default : Limits :=
  mkLimits (f64_of_N 5, f64_div (f64_of_N 10) (f64_of_N 3600))
    (f64_of_N 30, f64_div one (f64_of_N 2))
    (f64_of_N 120, one)
    (f64_of_N 240, f64_of_N 60)
    (128 * 1024 * 1024).

(** ** State *)

Record RateLimits := mkRateLimits {
  rl_announce : KeyedRateLimiter IpAddr;
  rl_record : KeyedRateLimiter IpAddr;
  rl_deposit : KeyedRateLimiter IpAddr;
  rl_read : KeyedRateLimiter IpAddr;
}.

Record LedgerPart := mkLedgerPart { lp_ledger : Ledger MemoryStore; lp_outbox : list bytes }.
Record MailPart := mkMailPart {
  mp_mailbox : Mailbox;
  mp_outbox : list bytes;
  mp_seen : gset bytes;
}.

Record RelayState := mkRelay {
  st_ledger : LedgerPart;
  st_mail : MailPart;
  st_prekeys : PrekeyDir;
  st_keypkgs : KeyPackageDir;
  st_blobs : BlobStore;
  st_channels : Channels;
  st_signals : Signals;
  st_limits : RateLimits;
  st_max_get_records : N;
  st_ice : IcePolicy;
  st_unfurl_enabled : bool;
  st_p2p : P2p;
}.

Definition relay_new (params : LedgerParams) (limits : Limits) : option RelayState :=
  ledger ← ledger_new (mkMemoryStore []) params;
  let limiter l := limiter_new l.1 l.2 in
  Some (mkRelay (mkLedgerPart ledger []) (mkMailPart mailbox_new [] ∅) (mkPrekeyDir ∅ [])
    (mkKeyPackageDir ∅ []) (mkBlobStore ∅ 0) (channels_new (li_channel_store_cap_bytes limits)) ∅
    (mkRateLimits (limiter (li_announce limits)) (limiter (li_record limits))
       (limiter (li_deposit limits)) (limiter (li_read limits)))
    512 ice_default false (mkP2p [] [])).

(** Each operation works on one field of the state: a lens per field. *)
Record Lens (S A : Type) := mkLens { lens_get : S → A; lens_set : A → S → S }.
Arguments mkLens {S A}. Arguments lens_get {S A}. Arguments lens_set {S A}.

Definition zoom {S A E X} (l : Lens S A) (m : Step A E X) : Step S E X := λ s,
  match m (lens_get l s) with
  | None => None
  | Some (r, a) => Some (r, lens_set l a s)
  end.
(** An operation that always answers. *)
Definition total {S E X} (f : S → X * S) : Step S E X := λ s, let '(x, s') := f s in Some (Ok x, s').

Definition of_ledger : Lens RelayState LedgerPart := mkLens st_ledger (λ x s,
  mkRelay x (st_mail s) (st_prekeys s) (st_keypkgs s) (st_blobs s) (st_channels s) (st_signals s)
    (st_limits s) (st_max_get_records s) (st_ice s) (st_unfurl_enabled s) (st_p2p s)).
Definition of_mail : Lens RelayState MailPart := mkLens st_mail (λ x s,
  mkRelay (st_ledger s) x (st_prekeys s) (st_keypkgs s) (st_blobs s) (st_channels s) (st_signals s)
    (st_limits s) (st_max_get_records s) (st_ice s) (st_unfurl_enabled s) (st_p2p s)).
Definition of_prekeys : Lens RelayState PrekeyDir := mkLens st_prekeys (λ x s,
  mkRelay (st_ledger s) (st_mail s) x (st_keypkgs s) (st_blobs s) (st_channels s) (st_signals s)
    (st_limits s) (st_max_get_records s) (st_ice s) (st_unfurl_enabled s) (st_p2p s)).
Definition of_keypkgs : Lens RelayState KeyPackageDir := mkLens st_keypkgs (λ x s,
  mkRelay (st_ledger s) (st_mail s) (st_prekeys s) x (st_blobs s) (st_channels s) (st_signals s)
    (st_limits s) (st_max_get_records s) (st_ice s) (st_unfurl_enabled s) (st_p2p s)).
Definition of_blobs : Lens RelayState BlobStore := mkLens st_blobs (λ x s,
  mkRelay (st_ledger s) (st_mail s) (st_prekeys s) (st_keypkgs s) x (st_channels s) (st_signals s)
    (st_limits s) (st_max_get_records s) (st_ice s) (st_unfurl_enabled s) (st_p2p s)).
Definition of_channels : Lens RelayState Channels := mkLens st_channels (λ x s,
  mkRelay (st_ledger s) (st_mail s) (st_prekeys s) (st_keypkgs s) (st_blobs s) x (st_signals s)
    (st_limits s) (st_max_get_records s) (st_ice s) (st_unfurl_enabled s) (st_p2p s)).
Definition of_signals : Lens RelayState Signals := mkLens st_signals (λ x s,
  mkRelay (st_ledger s) (st_mail s) (st_prekeys s) (st_keypkgs s) (st_blobs s) (st_channels s) x
    (st_limits s) (st_max_get_records s) (st_ice s) (st_unfurl_enabled s) (st_p2p s)).
Definition of_limits : Lens RelayState RateLimits := mkLens st_limits (λ x s,
  mkRelay (st_ledger s) (st_mail s) (st_prekeys s) (st_keypkgs s) (st_blobs s) (st_channels s)
    (st_signals s) x (st_max_get_records s) (st_ice s) (st_unfurl_enabled s) (st_p2p s)).
Definition of_ice : Lens RelayState IcePolicy := mkLens st_ice (λ x s,
  mkRelay (st_ledger s) (st_mail s) (st_prekeys s) (st_keypkgs s) (st_blobs s) (st_channels s)
    (st_signals s) (st_limits s) (st_max_get_records s) x (st_unfurl_enabled s) (st_p2p s)).
Definition of_p2p : Lens RelayState P2p := mkLens st_p2p (λ x s,
  mkRelay (st_ledger s) (st_mail s) (st_prekeys s) (st_keypkgs s) (st_blobs s) (st_channels s)
    (st_signals s) (st_limits s) (st_max_get_records s) (st_ice s) (st_unfurl_enabled s) x).

Definition of_announce_rl : Lens RateLimits (KeyedRateLimiter IpAddr) := mkLens rl_announce
  (λ x l, mkRateLimits x (rl_record l) (rl_deposit l) (rl_read l)).
Definition of_record_rl : Lens RateLimits (KeyedRateLimiter IpAddr) := mkLens rl_record
  (λ x l, mkRateLimits (rl_announce l) x (rl_deposit l) (rl_read l)).
Definition of_deposit_rl : Lens RateLimits (KeyedRateLimiter IpAddr) := mkLens rl_deposit
  (λ x l, mkRateLimits (rl_announce l) (rl_record l) x (rl_read l)).
Definition of_read_rl : Lens RateLimits (KeyedRateLimiter IpAddr) := mkLens rl_read
  (λ x l, mkRateLimits (rl_announce l) (rl_record l) (rl_deposit l) x).

Definition Handler (A : Type) : Type := Step RelayState RelayError A.

(** [if !self.x_rl.check(&ip, now, 1.0) { return Error("rate limited") }] *)
Definition charge (rl : Lens RateLimits (KeyedRateLimiter IpAddr)) (ip : IpAddr) (now : N)
    : Handler unit :=
  do! ok := zoom of_limits (zoom rl (total (check ip now one))) in
  st_reject (negb ok) (RE_Text "rate limited").

(** Adapt the error type of a component. *)
Definition st_map_err {S E F A} (f : E → F) (m : Step S E A) : Step S F A := λ s,
  match m s with
  | None => None
  | Some (r, s') => Some (map_err f r, s')
  end.

Section relay.
Context `{CryptoPrims} `{TurnAuth}.

(** ** Ledger requests *)

Definition of_the_ledger : Lens LedgerPart (Ledger MemoryStore) :=
  mkLens lp_ledger (λ x p, mkLedgerPart x (lp_outbox p)).

Definition queue_rebroadcast (blob : bytes) (p : LedgerPart) : LedgerPart :=
  mkLedgerPart (lp_ledger p) (push_capped LEDGER_OUTBOX_CAP blob (lp_outbox p)).

Definition append_and_queue (rec : record) (blob : bytes) (now : N) : Step LedgerPart LedgerError unit :=
  do! _ := zoom of_the_ledger (append rec now) in
  st_modify (queue_rebroadcast blob).

Definition submit_record (blob : bytes) (ip : IpAddr) (now : N) : Handler Response :=
  do! rec := st_lift (map_err (λ _, RE_Text "undecodable record") (record_decode blob)) in
  do! _ := charge (if bool_decide (rec_kind rec = IdentityAnnounce) then of_announce_rl
                   else of_record_rl) ip now in
  do! _ := zoom of_ledger (st_map_err RE_Ledger (append_and_queue rec blob now)) in
  st_ret RsOk.

Definition get_records (from to : N) (s : RelayState) : Response :=
  let ledger := lp_ledger (st_ledger s) in
  let n := N.of_nat (ledger_len ledger) in
  let from := N.min from n in
  let to := N.min (N.min to n) (from + st_max_get_records s) in
  RsRecords (omap (λ i, record_encode <$> ledger_record ledger i)
               (seq (N.to_nat from) (N.to_nat (to - from)))).

Definition ingest_gossiped_record (blob : bytes) (now : N) (p : LedgerPart)
    : option (bool * LedgerPart) :=
  match record_decode blob with
  | Err _ => Some (false, p)
  | Ok rec =>
    match append_and_queue rec blob now p with
    | Some (Ok _, p') => Some (true, p')
    | Some (Err _, p') => Some (false, p')
    | None => None
    end
  end.

Definition take_ledger_outbox (p : LedgerPart) : list bytes * LedgerPart :=
  (lp_outbox p, mkLedgerPart (lp_ledger p) []).

(** ** Mail *)

Definition of_mailbox : Lens MailPart Mailbox :=
  mkLens mp_mailbox (λ x p, mkMailPart x (mp_outbox p) (mp_seen p)).

(** The digests of known envelopes; the set is emptied when it grows large. *)
Definition note_envelope (blob : bytes) (p : MailPart) : MailPart :=
  let seen := if (16384 <? N.of_nat (size (mp_seen p)))%N then ∅ else mp_seen p in
  mkMailPart (mp_mailbox p) (mp_outbox p) ({[sha256 blob]} ∪ seen).

Definition deposit_request (blob : bytes) (ip : IpAddr) (now : N) : Handler Response :=
  do! env := st_lift (map_err (λ _, RE_Text "undecodable envelope") (envelope_decode blob)) in
  do! _ := charge of_deposit_rl ip now in
  do! _ := zoom of_mail (st_map_err RE_Net (zoom of_mailbox (deposit env now))) in
  do! _ := zoom of_mail (st_modify (note_envelope blob)) in
  do! _ := zoom of_mail (st_modify (λ p, mkMailPart (mp_mailbox p)
              (push_capped LEDGER_OUTBOX_CAP blob (mp_outbox p)) (mp_seen p))) in
  st_ret RsOk.

Definition fetch_request (hints : list bytes) (since_ms now : N) (p : MailPart) : Response :=
  RsEnvelopes (envelope_encode <$> fetch (mp_mailbox p) (take 32 hints) since_ms now).

Definition ingest_gossiped_envelope (blob : bytes) (now : N) (p : MailPart)
    : option (bool * MailPart) :=
  if bool_decide (sha256 blob ∈ mp_seen p) then Some (false, p) else
  match envelope_decode blob with
  | Err _ => Some (false, p)
  | Ok env =>
    match zoom of_mailbox (deposit env now) p with
    | Some (Ok _, p') => Some (true, note_envelope blob p')
    | Some (Err _, p') => Some (false, p')
    | None => None
    end
  end.

Definition take_mbox_outbox (p : MailPart) : list bytes * MailPart :=
  (mp_outbox p, mkMailPart (mp_mailbox p) [] (mp_seen p)).

(** ** [handle] *)

(** A read: charged, answered from the state. *)
Definition read_request (ip : IpAddr) (now : N) (f : RelayState → Response) : Handler Response :=
  do! _ := charge of_read_rl ip now in
  do! s := st_get in
  st_ret (f s).

Definition handle (req : Request) (ip : IpAddr) (now : N) : Handler Response :=
  match req with
  | RqPing => st_ret RsPong
  | RqGetTreeHead => read_request ip now (λ s,
      let h := ledger_head (lp_ledger (st_ledger s)) in RsTreeHead (th_size h) (th_root h))
  | RqGetRecords from to => read_request ip now (get_records from to)
  | RqSubmitRecord blob => submit_record blob ip now
  | RqDeposit blob => deposit_request blob ip now
  | RqFetch hints since_ms => read_request ip now (λ s, fetch_request hints since_ms now (st_mail s))
  | RqPublishPrekeys blob =>
      do! _ := charge of_record_rl ip now in zoom of_prekeys (handle_publish_prekeys blob)
  | RqGetPrekeys id =>
      do! _ := charge of_read_rl ip now in zoom of_prekeys (get_prekeys id)
  | RqPublishKeyPackages identity key_packages sig =>
      do! _ := charge of_record_rl ip now in
      do! s := st_get in
      zoom of_keypkgs (publish_key_packages (lp_ledger (st_ledger s)) identity key_packages sig)
  | RqGetKeyPackage id =>
      do! _ := charge of_read_rl ip now in zoom of_keypkgs (get_key_package id)
  | RqPutBlob bs =>
      do! _ := charge of_deposit_rl ip now in zoom of_blobs (put_blob bs now)
  | RqGetBlob hash => read_request ip now (λ s, get_blob hash (st_blobs s))
  | RqPostToChannel channel_id blob identity sig =>
      do! _ := charge of_deposit_rl ip now in
      do! s := st_get in
      zoom of_channels (post_to_channel (lp_ledger (st_ledger s)) channel_id blob identity sig now)
  | RqSetChannelRoster channel_id server_root version members sig =>
      do! _ := charge of_record_rl ip now in
      zoom of_channels (set_channel_roster channel_id server_root version members sig)
  | RqFetchChannel channel_id since_seq =>
      do! _ := charge of_read_rl ip now in
      zoom of_channels (total (fetch_channel channel_id since_seq))
  | RqChannelHeads channel_ids =>
      do! _ := charge of_read_rl ip now in zoom of_channels (channel_heads channel_ids)
  | RqPostSignal topic blob =>
      do! _ := charge of_deposit_rl ip now in zoom of_signals (post_signal topic blob now)
  | RqFetchSignals topic => read_request ip now (λ s, fetch_signals topic now (st_signals s))
  | RqGetIceConfig => do! s := st_get in st_ret (RsIceConfig (to_ice_configs (st_ice s)))
  | RqAnnounceP2p addrs =>
      do! _ := charge of_deposit_rl ip now in
      do! _ := zoom of_p2p (st_modify (announce_p2p addrs now)) in st_ret RsOk
  | RqGetP2pPeers => do! s := st_get in st_ret (RsP2pPeers (known_p2p_peers now (st_p2p s)))
  | RqSfuJoin _ _ | RqSfuIce _ _ _ | RqSfuPull _ _ | RqSfuLeave _ _ =>
      st_lift (Err (RE_Text "sfu not supported"))
  | RqUnfurlLink _ => st_lift (Err (RE_Text "unfurl not supported"))
  end.

(** What goes on the wire: a refusal is [Response::Error] with its text; the
    [Display] texts of ledger and mailbox errors are derived by a macro. *)
Definition to_response (show_ledger : LedgerError → string) (show_net : NetError → string)
    (r : result Response RelayError) : Response :=
  match r with
  | Ok resp => resp
  | Err (RE_Text msg) => RsError (lit msg)
  | Err (RE_Ledger e) => RsError (lit "rejected: " ++ lit (show_ledger e))
  | Err (RE_Net e) => RsError (lit "rejected: " ++ lit (show_net e))
  end.

(** ** Statistics and housekeeping *)

Record RelayStats := mkStats {
  sa_identities : N; sa_channels : N; sa_mailbox_entries : N; sa_blob_bytes : N; sa_channel_bytes : N;
}.
Definition stats (s : RelayState) : RelayStats :=
  mkStats (N.of_nat (ledger_len (lp_ledger (st_ledger s)))) (msize (cs_channels (st_channels s)))
    (mailbox_len (mp_mailbox (st_mail s))) (bs_blob_bytes (st_blobs s)) (cs_bytes (st_channels s)).

Definition sweep_all (now : N) (l : RateLimits) : RateLimits :=
  mkRateLimits (sweep now 3600000 (rl_announce l)) (sweep now 3600000 (rl_record l))
    (sweep now 3600000 (rl_deposit l)) (sweep now 3600000 (rl_read l)).

Definition maintain (now : N) : Step RelayState LedgerError (N * N) :=
  do! dropped := zoom of_mail (zoom of_mailbox (total (gc now))) in
  do! evaporated := zoom of_ledger (zoom of_the_ledger (evaporate now)) in
  do! _ := zoom of_limits (st_modify (sweep_all now)) in
  do! _ := zoom of_blobs (st_modify (maintain_blobs now)) in
  do! _ := zoom of_channels (st_modify (maintain_channels now)) in
  do! _ := zoom of_p2p (st_modify (maintain_p2p now)) in
  do! _ := zoom of_signals (st_modify (maintain_signals now)) in
  st_ret (dropped, len evaporated).
End relay.
