(* ===== verification/RelayProofs.v ===== *)
(** * Proofs about the relay

    The invariant of each store, [handle] and the other entry points preserve
    all of them and never panic, and what a run of the relay does to its
    channels. *)

From S2P Require Import Prelude Utf8 Enc Crypto Merkle ProtoRecord Envelope IdentityRecords Server.
From S2P Require Import Ledger LedgerProofs X3dh Mailbox RateLimit Wire WireProofs.
From S2P Require Import RelayParts RelayChannels ChannelProofs Relay.

(** ** Prekey bundles *)

Record prekeys_wf (s : PrekeyDir) : Prop := {
  pw_count : (msize (pd_prekeys s) ≤ MAX_PREKEY_IDENTITIES)%N;
  pw_bundle id blob : pd_prekeys s !! id = Some blob →
    leading_id blob = Some id ∧ (len blob ≤ MAX_PREKEY_BYTES)%N;
  pw_outbox : (length (pd_outbox s) ≤ LEDGER_OUTBOX_CAP)%nat;
}.

Lemma len_fixed n bs : ok_len n bs → len bs = N.of_nat n.
Proof. unfold ok_len, len. by intros ->. Qed.

Lemma enc_list_otps_len l : ok_list otp_ok l → len (enc_list enc_otp l) = (4 + 96 * len l)%N.
Proof.
  intros [_ Hl]. unfold enc_list. rewrite len_app, len_be. f_equal.
  induction Hl as [|p l [Ho Hs] _ IH]; [done|]. rewrite join_cons, len_app, IH, len_cons.
  unfold enc_otp. rewrite len_app, (len_fixed _ _ Ho), (len_fixed _ _ Hs). lia.
Qed.

Lemma bundle_len b : bundle_ok b → len (bundle_encode b) = (196 + 96 * len (pb_otps b))%N.
Proof.
  intros (H1 & H2 & H3 & H4 & H5 & H6). rewrite bundle_encode_eq, !len_app, (enc_list_otps_len _ H6).
  rewrite (len_fixed _ _ H1), (len_fixed _ _ H2), (len_fixed _ _ H3), (len_fixed _ _ H4),
    (len_fixed _ _ H5). lia.
Qed.

Lemma bundle_leading b : bundle_ok b → leading_id (bundle_encode b) = Some (pb_identity_id b).
Proof.
  intros Hb. unfold leading_id. rewrite (bundle_len b Hb), (proj2 (N.leb_le _ _)) by lia.
  rewrite bundle_encode_eq, take_app_all; [done|]. by destruct Hb as [-> _].
Qed.

Lemma with_otps_ok b otps :
  bundle_ok b → otps `suffix_of` pb_otps b ∨ otps `prefix_of` pb_otps b →
  bundle_ok (with_otps otps b).
Proof.
  intros (H1 & H2 & H3 & H4 & H5 & [Hf Hl]) Hs.
  assert (Ho : ok_list otp_ok otps).
  { destruct Hs as [[k Hk]|[k Hk]]; rewrite Hk in Hf, Hl; unfold fits_u32 in Hf; rewrite len_app in Hf;
      apply Forall_app in Hl as [??]; (split; [unfold fits_u32; lia|done]). }
  done.
Qed.

Lemma insert_bundle_wf s id blob q :
  prekeys_wf s → no_room (pd_prekeys s) id MAX_PREKEY_IDENTITIES = false →
  leading_id blob = Some id → (len blob ≤ MAX_PREKEY_BYTES)%N → (length q ≤ LEDGER_OUTBOX_CAP)%nat →
  prekeys_wf (mkPrekeyDir (<[id := blob]> (pd_prekeys s)) q).
Proof.
  intros Hwf Hroom Hid Hlen Hq. constructor; cbn; [|intros id' b'|done].
  - apply msize_insert; [done|apply Hwf].
  - intros [[<- <-]|[_ Hl]]%lookup_insert_Some; [done|]. by apply Hwf.
Qed.

Lemma publish_prekeys_wf blob s :
  prekeys_wf s → ∃ r s', handle_publish_prekeys blob s = Some (r, s') ∧ prekeys_wf s'.
Proof.
  intros Hwf. unfold handle_publish_prekeys, st_bind, st_reject, st_lift, st_get, st_modify, st_ret.
  destruct (_ <? _)%N eqn:E1; [by eauto|]. apply N.ltb_ge in E1.
  destruct (leading_id blob) as [id|] eqn:E2; cbn [ok_or]; [|by eauto].
  destruct (no_room _ _ _) eqn:E3; [by eauto|]. eexists _, _. split; [done|].
  apply insert_bundle_wf; try done. apply push_capped_bound.
Qed.

(** A fetch answers from the stored bytes and removes at most one one-time
    prekey from them. *)
Lemma get_prekeys_eq id s :
  get_prekeys id s =
  Some (match pd_prekeys s !! id with
        | None => (Ok (RsPrekeys None), s)
        | Some stored =>
          match bundle_decode stored with
          | Ok b =>
            match pb_otps b with
            | handed :: rest =>
              (Ok (RsPrekeys (Some (bundle_encode (with_otps [handed] b)))),
               mkPrekeyDir (<[id := bundle_encode (with_otps rest b)]> (pd_prekeys s)) (pd_outbox s))
            | [] => (Ok (RsPrekeys (Some stored)), s)
            end
          | Err _ => (Ok (RsPrekeys (Some stored)), s)
          end
        end).
Proof.
  unfold get_prekeys, st_bind, st_get, st_modify, st_ret. destruct (pd_prekeys s !! id); [|done].
  destruct (bundle_decode _); [|done]. by destruct (pb_otps _).
Qed.

Lemma get_prekeys_wf id s :
  prekeys_wf s → ∃ r s', get_prekeys id s = Some (r, s') ∧ prekeys_wf s'.
Proof.
  intros Hwf. rewrite get_prekeys_eq. destruct (pd_prekeys s !! id) as [stored|] eqn:E1; [|by eauto].
  destruct (bundle_decode stored) as [b|] eqn:E2; [|by eauto].
  destruct (pb_otps b) as [|handed rest] eqn:E3; [by eauto|]. eexists _, _. split; [done|].
  destruct (pw_bundle s Hwf _ _ E1) as [Hid Hlen]. apply bundle_decode_canon in E2 as [Hok <-].
  assert (Hok' : bundle_ok (with_otps rest b)).
  { apply with_otps_ok; [done|]. left. rewrite E3. by exists [handed]. }
  apply insert_bundle_wf; [done| | | |apply Hwf].
  - apply no_room_false. left. by eexists.
  - rewrite bundle_leading by done. by rewrite bundle_leading in Hid.
  - rewrite bundle_len in * by done. cbn [pb_otps with_otps]. rewrite E3, len_cons in Hlen. lia.
Qed.

Lemma ingest_prekey_wf blob s : prekeys_wf s → prekeys_wf (ingest_gossiped_prekey blob s).2.
Proof.
  intros Hwf. unfold ingest_gossiped_prekey. destruct (_ <? _)%N eqn:E1; [done|]. apply N.ltb_ge in E1.
  destruct (leading_id blob) as [id|] eqn:E2; [|done]. destruct (no_room _ _ _) eqn:E3; [done|].
  destruct (bundle_decode blob) as [b|] eqn:E4; [|done]. cbn [snd].
  apply bundle_decode_canon in E4 as [Hok <-].
  destruct (pb_otps b) as [|o l] eqn:E5; apply insert_bundle_wf; try done; try apply (pw_outbox _ Hwf).
  - rewrite bundle_leading; [by rewrite bundle_leading in E2|]. apply with_otps_ok; [done|].
    right. apply prefix_nil.
  - rewrite bundle_len in *; [cbn [pb_otps with_otps]; unfold len at 1; cbn; lia|done|].
    apply with_otps_ok; [done|]. right. apply prefix_nil.
Qed.

(** *** One-time prekeys are handed out once *)

(** The bundle given to the [i]-th caller. *)
Definition handed (b : PreKeyBundle) (i : nat) : Response :=
  RsPrekeys (Some (bundle_encode (with_otps (option_list (pb_otps b !! i)) b))).

(** A run of [GetPrekeys] requests, each with its answer. *)
Fixpoint serve (ids : list bytes) (s : PrekeyDir) : list (bytes * option Response) * PrekeyDir :=
  match ids with
  | [] => ([], s)
  | id :: rest =>
    match get_prekeys id s with
    | Some (Ok r, s') => let '(out, s'') := serve rest s' in ((id, Some r) :: out, s'')
    | _ => let '(out, s'') := serve rest s in ((id, None) :: out, s'')
    end
  end.

Definition answers (id : bytes) (out : list (bytes * option Response)) : list (option Response) :=
  snd <$> base.filter (λ p, p.1 = id) out.

Lemma get_prekeys_other id id' s r s' :
  get_prekeys id' s = Some (r, s') → id' ≠ id → pd_prekeys s' !! id = pd_prekeys s !! id.
Proof.
  rewrite get_prekeys_eq. intros Hg Hne. injection Hg as Hg.
  repeat case_match; injection Hg as <- <-; try done. cbn. by rewrite lookup_insert_ne.
Qed.

Lemma get_prekeys_stored id b s :
  pd_prekeys s !! id = Some (bundle_encode b) → bundle_ok b →
  ∃ s', get_prekeys id s = Some (Ok (handed b 0), s') ∧
    pd_prekeys s' !! id = Some (bundle_encode (with_otps (drop 1 (pb_otps b)) b)).
Proof.
  intros Hs Hok. rewrite get_prekeys_eq, Hs, (bundle_round b Hok). unfold handed.
  destruct (pb_otps b) as [|o l] eqn:E; cbn.
  - eexists. rewrite <- E. destruct b. cbn in *. by subst.
  - eexists. split; [done|]. cbn. by rewrite lookup_insert_eq.
Qed.

Lemma serve_handed ids id b s :
  pd_prekeys s !! id = Some (bundle_encode b) → bundle_ok b →
  answers id (serve ids s).1 = (λ i, Some (handed b i)) <$> seq 0 (length (base.filter (λ x, x = id) ids)).
Proof.
  revert b s. induction ids as [|id' ids IH]; intros b s Hs Hok; [done|]. cbn [serve].
  destruct (decide (id' = id)) as [->|Hne].
  - destruct (get_prekeys_stored id b s Hs Hok) as (s1 & -> & Hs1).
    assert (Hok1 : bundle_ok (with_otps (drop 1 (pb_otps b)) b)).
    { apply with_otps_ok; [done|]. left. eexists. symmetry. apply (take_drop 1). }
    specialize (IH _ _ Hs1 Hok1). destruct (serve ids s1) as [out s2]. cbn [fst] in *.
    unfold answers in *. rewrite !filter_cons_True by done. cbn [length seq].
    rewrite !fmap_cons, IH. cbn [snd]. f_equal. rewrite <- fmap_S_seq, <- list_fmap_compose.
    apply list_fmap_ext. intros i x _. unfold handed, compose. cbn [pb_otps with_otps].
    rewrite lookup_drop. done.
  - destruct (get_prekeys id' s) as [[[r|e] s1]|] eqn:Eg.
    + assert (Hs1 : pd_prekeys s1 !! id = Some (bundle_encode b))
        by by rewrite (get_prekeys_other _ _ _ _ _ Eg).
      specialize (IH _ _ Hs1 Hok). destruct (serve ids s1) as [out s2]. cbn [fst] in *.
      unfold answers in *. rewrite !filter_cons_False by done. exact IH.
    + specialize (IH _ _ Hs Hok). destruct (serve ids s) as [out s2]. cbn [fst] in *.
      unfold answers in *. rewrite !filter_cons_False by done. exact IH.
    + specialize (IH _ _ Hs Hok). destruct (serve ids s) as [out s2]. cbn [fst] in *.
      unfold answers in *. rewrite !filter_cons_False by done. exact IH.
Qed.

(** ** Key packages *)

Record keypkgs_wf (s : KeyPackageDir) : Prop := {
  kw_count : (msize (kd_key_packages s) ≤ MAX_KEYPKG_IDENTITIES)%N;
  kw_queue id q : kd_key_packages s !! id = Some q →
    (length q ≤ MAX_KEYPKGS_PER_IDENTITY)%nat ∧ Forall (λ kp, len kp ≤ MAX_KEYPKG_BYTES)%N q;
  kw_outbox : (length (kd_outbox s) ≤ LEDGER_OUTBOX_CAP)%nat;
}.

Lemma insert_queue_wf s id q o :
  keypkgs_wf s → no_room (kd_key_packages s) id MAX_KEYPKG_IDENTITIES = false →
  (length q ≤ MAX_KEYPKGS_PER_IDENTITY)%nat → Forall (λ kp, len kp ≤ MAX_KEYPKG_BYTES)%N q →
  (length o ≤ LEDGER_OUTBOX_CAP)%nat →
  keypkgs_wf (mkKeyPackageDir (<[id := q]> (kd_key_packages s)) o).
Proof.
  intros Hwf Hroom Hq Hf Ho. constructor; cbn; [|intros id' q'|done].
  - apply msize_insert; [done|apply Hwf].
  - intros [[<- <-]|[_ Hl]]%lookup_insert_Some; [done|]. by apply (kw_queue s Hwf id').
Qed.

Lemma existsb_Forall {A} (p : A → bool) l : existsb p l = false ↔ Forall (λ x, p x = false) l.
Proof.
  induction l as [|x l IH]; cbn; [done|]. by rewrite orb_false_iff, IH, list.Forall_cons.
Qed.

Lemma Forall_drop_weak {A} (P : A → Prop) n l : Forall P l → Forall P (drop n l).
Proof. apply Forall_drop. Qed.

Lemma queue_default_wf s id :
  keypkgs_wf s → Forall (λ kp, len kp ≤ MAX_KEYPKG_BYTES)%N (default [] (kd_key_packages s !! id)).
Proof.
  intros Hwf. destruct (kd_key_packages s !! id) as [q|] eqn:E; cbn; [|done]. by apply (kw_queue s Hwf id).
Qed.

Section keypkg.
Context `{CryptoPrims, KeyDirectory D}.

Lemma publish_key_packages_wf dir id kps sig s :
  keypkgs_wf s → ∃ r s', publish_key_packages dir id kps sig s = Some (r, s') ∧ keypkgs_wf s'.
Proof using Type.
  intros Hwf. unfold publish_key_packages, st_bind, st_reject, st_lift, st_get, st_modify, st_ret.
  destruct (existsb _ _) eqn:E1; [by eauto|]. destruct (verify_keypkg_publish_sig _ _ _ _); [|by eauto].
  destruct (no_room _ _ _) eqn:E2; [by eauto|]. eexists _, _. split; [done|].
  apply insert_queue_wf; try done.
  - rewrite length_drop. lia.
  - apply Forall_drop_weak, Forall_app. split; [by apply queue_default_wf|].
    apply existsb_Forall in E1. eapply List.Forall_impl; [|exact E1]. cbn.
    intros kp [_ ?%N.ltb_ge]%orb_false_iff. done.
  - apply push_capped_bound.
Qed.

Lemma get_key_package_wf id s :
  keypkgs_wf s → ∃ r s', get_key_package id s = Some (r, s') ∧ keypkgs_wf s'.
Proof using Type.
  intros Hwf. unfold get_key_package, st_bind, st_get, st_modify, st_ret.
  destruct (kd_key_packages s !! id) as [[|kp [|kp' q]]|] eqn:E; try by eauto.
  eexists _, _. split; [done|]. destruct (kw_queue s Hwf _ _ E) as [Hl Hf].
  apply insert_queue_wf; [done| | | |apply Hwf].
  - apply no_room_false. left. by eexists.
  - cbn in *. lia.
  - by apply list.Forall_cons in Hf as [_ Hf].
Qed.

Lemma ingest_keypackage_wf dir msg s : keypkgs_wf s → keypkgs_wf (ingest_gossiped_keypackage dir msg s).2.
Proof using Type.
  intros Hwf. unfold ingest_gossiped_keypackage.
  destruct (request_decode msg) as [[]|]; try done.
  destruct (_ || _) eqn:E1; [done|]. apply orb_false_iff in E1 as [_ E1].
  destruct (negb _); [done|]. destruct (no_room _ _ _) eqn:E2; [done|].
  destruct (list.last key_packages) as [lst|] eqn:E3; [|done].
  pose proof (queue_default_wf s identity Hwf) as Hq.
  destruct (default [] (kd_key_packages s !! identity)) as [|k q] eqn:E4; cbn [snd];
    apply insert_queue_wf; try done; try apply (kw_outbox s Hwf).
  - cbn. unfold MAX_KEYPKGS_PER_IDENTITY. lia.
  - constructor; [|done]. apply existsb_Forall in E1. apply last_Some_elem_of, list_elem_of_In in E3.
    apply (proj1 (List.Forall_forall _ _) E1), N.ltb_ge in E3. done.
  - destruct (kd_key_packages s !! identity) as [q0|] eqn:E5; cbn in E4; [|done]. subst q0.
    by apply (kw_queue s Hwf _ _ E5).
Qed.
End keypkg.

(** ** Blobs *)

Section blobs.
Context `{CryptoPrims}.

Definition blob_len (v : bytes * N) : N := len v.1.

Record blobs_wf (s : BlobStore) : Prop := {
  bw_key h bs at_ms : bs_blobs s !! h = Some (bs, at_ms) → h = sha256 bs;
  bw_bytes : bs_blob_bytes s = map_sum blob_len (bs_blobs s);
  bw_cap : (bs_blob_bytes s ≤ BLOB_STORE_CAP)%N;
}.

Lemma put_blob_wf bs now s :
  blobs_wf s → fits_u32 bs →
  ∃ r s', put_blob bs now s = Some (r, s') ∧ blobs_wf s' ∧
    ((r = Err (RE_Text "blob store full") ∧ s' = s ∧ bs_blobs s !! sha256 bs = None ∧
      (BLOB_STORE_CAP < bs_blob_bytes s + len bs)%N) ∨
     (r = Ok RsOk ∧
      s' = match bs_blobs s !! sha256 bs with
           | Some _ => s
           | None => mkBlobStore (<[sha256 bs := (bs, now)]> (bs_blobs s)) (bs_blob_bytes s + len bs)
           end)).
Proof using Type.
  intros Hwf Hfit. unfold put_blob, st_bind, st_reject, st_get, st_modify, st_ret.
  destruct (bs_blobs s !! sha256 bs) as [v|] eqn:E.
  { rewrite bool_decide_eq_true_2 by by eexists. eexists _, _. split; [done|]. split; [done|by right]. }
  rewrite bool_decide_eq_false_2 by by intros [].
  pose proof (bw_cap s Hwf) as Hcap. unfold fits_u32 in Hfit.
  assert (Hw : wadd64 (bs_blob_bytes s) (len bs) = (bs_blob_bytes s + len bs)%N).
  { apply N.mod_small. unfold BLOB_STORE_CAP in Hcap. lia. }
  rewrite Hw. destruct (_ <? _)%N eqn:E2; [apply N.ltb_lt in E2|apply N.ltb_ge in E2].
  { eexists _, _. split; [done|]. split; [done|by left]. }
  eexists _, _. rewrite ?Hw. split; [done|]. split; [|by right]. constructor; cbn.
  - intros h b t [[<- [= <- <-]]|[_ Hl]]%lookup_insert_Some; [done|]. by eapply bw_key.
  - rewrite map_sum_insert by done. rewrite (bw_bytes s Hwf). unfold blob_len. cbn [fst]. lia.
  - done.
Qed.

Lemma maintain_blobs_spec now s :
  blobs_wf s →
  blobs_wf (maintain_blobs now s) ∧
  bs_blobs (maintain_blobs now s) =
    base.filter (λ kv, fresh_until BLOB_TTL_MS now kv.2.2 = true) (bs_blobs s).
Proof using Type.
  intros Hwf. split; [|done]. unfold maintain_blobs.
  set (keep := λ kv : bytes * (bytes * N), fresh_until BLOB_TTL_MS now kv.2.2 = true).
  set (freed := map_sum _ _).
  assert (Hsum : map_sum blob_len (bs_blobs s) = (freed + map_sum blob_len (base.filter keep (bs_blobs s)))%N).
  { subst freed. induction (bs_blobs s) as [|k [b t] m Hk IH] using map_ind; [done|].
    rewrite !map_sum_insert by done. unfold keep. cbn [snd]. destruct (fresh_until _ _ t) eqn:E.
    - rewrite map_filter_insert_True by done. rewrite map_sum_insert by (apply map_lookup_filter_None; by left).
      fold keep. unfold blob_len in *. cbn [fst]. lia.
    - rewrite map_filter_insert_False by (cbn; congruence). rewrite delete_id by done.
      fold keep. unfold blob_len in *. cbn [fst]. lia. }
  pose proof (bw_cap s Hwf). pose proof (bw_bytes s Hwf). unfold BLOB_STORE_CAP in *.
  constructor; cbn [bs_blobs bs_blob_bytes].
  - intros h b t [Hl _]%map_lookup_filter_Some. by eapply bw_key.
  - rewrite wsub64_exact; lia.
  - rewrite wsub64_exact; unfold BLOB_STORE_CAP; lia.
Qed.
End blobs.

(** ** Signals and peers *)

Definition signals_wf (s : Signals) : Prop :=
  ∀ topic sigs, s !! topic = Some sigs →
    (length sigs ≤ MAX_SIGNALS_PER_TOPIC)%nat ∧ Forall (λ x, len x.1 ≤ MAX_SIGNAL_BYTES)%N sigs.

Lemma live_signals_wf now sigs :
  Forall (λ x, len x.1 ≤ MAX_SIGNAL_BYTES)%N sigs →
  Forall (λ x, len x.1 ≤ MAX_SIGNAL_BYTES)%N (live_signals now sigs).
Proof. apply filter_forall. Qed.

Lemma post_signal_wf topic blob now s :
  signals_wf s → ∃ r s', post_signal topic blob now s = Some (r, s') ∧ signals_wf s'.
Proof.
  intros Hwf. unfold post_signal, st_bind, st_reject, st_get, st_modify, st_ret.
  destruct (_ <? _)%N eqn:E; [by eauto|]. apply N.ltb_ge in E. eexists _, _. split; [done|].
  intros t sigs [[<- <-]|[_ Hl]]%lookup_insert_Some; [|by eapply Hwf]. split.
  - rewrite length_drop. lia.
  - apply Forall_drop_weak, Forall_app. split; [|by repeat constructor]. apply live_signals_wf.
    destruct (s !! topic) as [l|] eqn:E1; cbn; [by apply (Hwf topic)|done].
Qed.

Lemma maintain_signals_wf now s : signals_wf s → signals_wf (maintain_signals now s).
Proof.
  unfold signals_wf, maintain_signals, Signals in *. intros Hwf t sigs Hl. revert Hl.
  rewrite lookup_omap. destruct (s !! t) as [l|] eqn:E; cbn; [|done]. intros Hl. destruct (Hwf _ _ E) as [Hn Hf].
  assert (sigs = live_signals now l) as ->.
  { by destruct (live_signals now l); [|injection Hl as <-]. }
  split; [|by apply live_signals_wf]. etrans; [apply length_filter|done].
Qed.

Definition p2p_wf (s : P2p) : Prop := (length (pp_reported s) ≤ MAX_P2P_REPORTED)%nat.

Lemma announce_p2p_wf addrs now s : p2p_wf s → p2p_wf (announce_p2p addrs now s).
Proof.
  unfold p2p_wf, announce_p2p. cbn [pp_reported]. generalize (pp_reported s). clear s.
  induction addrs as [|a addrs IH]; intros l Hl; cbn [foldl]; [done|]. apply IH.
  unfold announce_one. destruct (negb _); [done|]. destruct (position _ _); [by rewrite length_insert|].
  apply push_capped_bound.
Qed.

Lemma maintain_p2p_wf now s : p2p_wf s → p2p_wf (maintain_p2p now s).
Proof. unfold p2p_wf, maintain_p2p. cbn. intros Hl. etrans; [apply length_filter|done]. Qed.

(** ** Operations that never panic and keep an invariant

    [safe I J m]: from a state in [I], [m] returns, in a state in [J]. *)
Definition safe {S E X} (I J : S → Prop) (m : Step S E X) : Prop :=
  ∀ s, I s → ∃ r s', m s = Some (r, s') ∧ J s'.

Lemma safe_bind {S E X Y} (I J : S → Prop) (m : Step S E X) (k : X → Step S E Y) :
  (∀ s, I s → J s) → safe I I m → (∀ x, safe I J (k x)) → safe I J (st_bind m k).
Proof.
  intros HIJ Hm Hk s Hs. destruct (Hm s Hs) as ([x|e] & s1 & Hms & Hs1); unfold st_bind; rewrite Hms.
  - by apply Hk.
  - eexists _, _. split; [done|]. by apply HIJ.
Qed.
Lemma safe_ret {S E X} (I J : S → Prop) (x : X) : (∀ s, I s → J s) → safe (E:=E) I J (st_ret x).
Proof. intros HIJ s Hs. eexists _, _. split; [done|by apply HIJ]. Qed.
Lemma safe_lift {S E X} (I J : S → Prop) (r : result X E) : (∀ s, I s → J s) → safe I J (st_lift r).
Proof. intros HIJ s Hs. eexists _, _. split; [done|by apply HIJ]. Qed.
Lemma safe_get {S E} (I J : S → Prop) : (∀ s, I s → J s) → safe (E:=E) I J st_get.
Proof. intros HIJ s Hs. eexists _, _. split; [done|by apply HIJ]. Qed.
Lemma safe_reject {S E} (I J : S → Prop) c (e : E) : (∀ s, I s → J s) → safe I J (st_reject c e).
Proof. intros HIJ s Hs. eexists _, _. split; [done|by apply HIJ]. Qed.
Lemma safe_modify {S E} (I J : S → Prop) f : (∀ s, I s → J (f s)) → safe (E:=E) I J (st_modify f).
Proof. intros HIJ s Hs. eexists _, _. split; [done|by apply HIJ]. Qed.
Lemma safe_total {S E X} (I J : S → Prop) (f : S → X * S) :
  (∀ s, I s → J (f s).2) → safe (E:=E) I J (total f).
Proof.
  intros HIJ s Hs. unfold total. specialize (HIJ s Hs). destruct (f s) as [x s']. by eexists _, _.
Qed.
Lemma safe_map_err {S E F X} (I J : S → Prop) (f : E → F) (m : Step S E X) :
  safe I J m → safe I J (st_map_err f m).
Proof.
  intros Hm s Hs. destruct (Hm s Hs) as (r & s' & Hr & Hs'). unfold st_map_err. rewrite Hr. by eexists _, _.
Qed.
Lemma safe_zoom {S A E X} (l : Lens S A) (I J : S → Prop) (I' J' : A → Prop) (m : Step A E X) :
  (∀ s, I s → I' (lens_get l s)) → (∀ s a, I s → J' a → J (lens_set l a s)) →
  safe I' J' m → safe I J (zoom l m).
Proof.
  intros Hg Hset Hm s Hs. destruct (Hm _ (Hg s Hs)) as (r & a & Hr & Ha). unfold zoom. rewrite Hr.
  eexists _, _. split; [done|]. by apply Hset.
Qed.
Lemma safe_weaken {S E X} (I I' J : S → Prop) (m : Step S E X) :
  (∀ s, I' s → I s) → safe I J m → safe I' J m.
Proof. intros HI Hm s Hs. by apply Hm, HI. Qed.

(** ** The relay's invariant *)

Section relay.
Context `{CryptoPrims, TurnAuth}.

Definition ledger_part_wf (p : LedgerPart) : Prop :=
  ledger_wf (lp_ledger p) ∧ (length (lp_outbox p) ≤ LEDGER_OUTBOX_CAP)%nat.

Definition mail_wf (p : MailPart) : Prop :=
  mailbox_wf (mp_mailbox p) ∧ (length (mp_outbox p) ≤ LEDGER_OUTBOX_CAP)%nat ∧
  (N.of_nat (size (mp_seen p)) ≤ 16385)%N.

Record relay_wf (s : RelayState) : Prop := {
  rw_ledger : ledger_part_wf (st_ledger s);
  rw_mail : mail_wf (st_mail s);
  rw_prekeys : prekeys_wf (st_prekeys s);
  rw_keypkgs : keypkgs_wf (st_keypkgs s);
  rw_blobs : blobs_wf (st_blobs s);
  rw_channels : channels_wf (st_channels s);
  rw_signals : signals_wf (st_signals s);
  rw_p2p : p2p_wf (st_p2p s);
}.

Lemma relay_new_wf params limits s :
  relay_new params limits = Some s → (li_channel_store_cap_bytes limits < u64_max)%N → relay_wf s.
Proof using Type.
  unfold relay_new. intros Hs Hcap. destruct (ledger_new _ _) as [l|] eqn:El; [|done]. cbn in Hs.
  injection Hs as <-. constructor; cbn.
  - split; [by eapply new_wf|cbn; lia].
  - split_and!; [apply mailbox_new_wf|cbn; lia|cbn; rewrite size_empty; lia].
  - constructor; cbn; try done. lia.
  - constructor; cbn; try done. lia.
  - constructor; cbn; try done.
  - by apply channels_new_wf.
  - done.
  - unfold p2p_wf. cbn. lia.
Qed.

Lemma append_safe_part rec now : safe ledger_wf ledger_wf (append rec now : Op bytes (S:=MemoryStore)).
Proof using Type.
  intros l Hl. destruct (append_total rec now l Hl) as [[r l'] Hr]. exists r, l'. split; [done|].
  by eapply step_ok in Hl as [? _]; [|by eapply ls_append].
Qed.

Lemma evaporate_safe_part now : safe ledger_wf ledger_wf (evaporate now : Op _ (S:=MemoryStore)).
Proof using Type.
  intros l Hl. destruct (evaporate_spec now l Hl) as (l' & He & Hl' & _).
  eexists _, l'. split; [exact He|done].
Qed.

Lemma append_and_queue_safe rec blob now :
  safe ledger_part_wf ledger_part_wf (append_and_queue rec blob now).
Proof using Type.
  apply safe_bind; [done| |intros _].
  - eapply safe_zoom; [by intros s []| |apply append_safe_part]. by intros s a [_ Ho] Ha.
  - apply safe_modify. intros s [Hl _]. split; [done|]. apply push_capped_bound.
Qed.

Lemma note_envelope_wf blob p : mail_wf p → mail_wf (note_envelope blob p).
Proof using Type.
  intros (Hm & Ho & Hs). split_and!; [done|done|]. unfold note_envelope. cbn [mp_seen].
  destruct (_ <? _)%N eqn:E.
  - rewrite union_empty_r_L, size_singleton. lia.
  - apply N.ltb_ge in E. rewrite size_union_alt, size_singleton.
    pose proof (subseteq_size (mp_seen p ∖ {[sha256 blob]}) (mp_seen p) ltac:(set_solver)). lia.
Qed.

Lemma deposit_safe_part env now : safe mailbox_wf mailbox_wf (deposit env now).
Proof using Type.
  intros m Hm. destruct (deposit_total env now m) as [[r m'] Hr]. exists r, m'. split; [done|].
  by eapply deposit_wf.
Qed.

Lemma charge_safe rl ip now (J : RelayState → Prop) :
  (∀ s l, J s → J (lens_set of_limits l s)) → safe J J (charge rl ip now).
Proof using Type.
  intros HJ. apply safe_bind; [done| |intros ok; by apply safe_reject].
  eapply (safe_zoom _ _ _ (λ _, True) (λ _, True)); [done|by intros; apply HJ|].
  eapply (safe_zoom _ _ _ (λ _, True) (λ _, True)); [done|done|]. by apply safe_total.
Qed.

Lemma wf_set_limits s l : relay_wf s → relay_wf (lens_set of_limits l s).
Proof using Type. by intros []. Qed.

(** A handler of one store. *)
Lemma safe_charged rl ip now (m : Handler Response) :
  safe relay_wf relay_wf m → safe relay_wf relay_wf (do! _ := charge rl ip now in m).
Proof using Type.
  intros Hm. apply safe_bind; [done| |done]. apply charge_safe, wf_set_limits.
Qed.

Lemma read_request_safe ip now f : safe relay_wf relay_wf (read_request ip now f).
Proof using Type.
  apply safe_charged, safe_bind; [done|by apply safe_get|]. intros s. by apply safe_ret.
Qed.

Lemma submit_record_safe blob ip now : safe relay_wf relay_wf (submit_record blob ip now).
Proof using Type.
  apply safe_bind; [done|by apply safe_lift|]. intros rec. apply safe_charged.
  apply safe_bind; [done| |intros; by apply safe_ret].
  eapply safe_zoom; [apply rw_ledger| |apply safe_map_err, append_and_queue_safe]. by intros s a [] Ha.
Qed.

Lemma wf_set_mail s a : relay_wf s → mail_wf a → relay_wf (lens_set of_mail a s).
Proof using Type. by intros [] Ha. Qed.

Lemma deposit_request_safe blob ip now : safe relay_wf relay_wf (deposit_request blob ip now).
Proof using Type.
  apply safe_bind; [done|by apply safe_lift|]. intros env. apply safe_charged.
  apply safe_bind; [done| |intros _; apply safe_bind; [done| |intros _; apply safe_bind; [done| |]]].
  - eapply safe_zoom; [apply rw_mail|apply wf_set_mail|]. apply safe_map_err.
    eapply safe_zoom; [by intros s []| |apply deposit_safe_part]. by intros s a (_ & Ho & Hs) Ha.
  - eapply safe_zoom; [apply rw_mail|apply wf_set_mail|]. apply safe_modify. apply note_envelope_wf.
  - eapply safe_zoom; [apply rw_mail|apply wf_set_mail|]. apply safe_modify.
    intros p (Hm & _ & Hs). split_and!; [done| |done]. apply push_capped_bound.
  - intros _. by apply safe_ret.
Qed.

Lemma channels_safe {X} (m : Step Channels RelayError X) (I : Channels → Prop) :
  safe (λ c, channels_wf c ∧ I c) channels_wf m →
  safe (λ s, relay_wf s ∧ I (st_channels s)) relay_wf (zoom of_channels m).
Proof using Type.
  intros Hm. eapply safe_zoom; [| |exact Hm]; [intros s [[] HI]; done|]. by intros s a [[] _] Ha.
Qed.

Lemma channels_safe' {X} (m : Step Channels RelayError X) :
  safe channels_wf channels_wf m → safe relay_wf relay_wf (zoom of_channels m).
Proof using Type.
  intros Hm. eapply safe_zoom; [apply rw_channels| |exact Hm]. by intros s a [] Ha.
Qed.

Lemma set_channel_roster_safe c root v ms sig :
  safe channels_wf channels_wf (set_channel_roster c root v ms sig).
Proof using Type.
  intros s Hs. destruct (apply_roster_total c root v ms sig s) as [[r1 s1] Hr1].
  assert (is_Some (set_channel_roster c root v ms sig s)) as [[r s'] Hr].
  { unfold set_channel_roster, st_bind. rewrite Hr1. by destruct r1 as [[]|]. }
  exists r, s'. split; [done|].
  by apply (chan_step_wf (D:=Ledger MemoryStore) (mkLedger (mkMemoryStore []) default_params [] ∅ ∅ ∅ [] ∅) s);
    [|eapply ch_roster].
Qed.

Lemma post_safe (dir : Ledger MemoryStore) c blob i sig now :
  safe (λ s, channels_wf s ∧ seq_room s) channels_wf (post_to_channel dir c blob i sig now).
Proof using Type.
  intros s [Hs Hroom]. destruct (post_total dir c blob i sig now s) as [[r s'] Hr].
  exists r, s'. split; [done|]. by apply (chan_step_wf dir s); [|eapply ch_post].
Qed.

Lemma channel_heads_safe ids : safe channels_wf channels_wf (channel_heads ids).
Proof using Type.
  apply safe_bind; [done|by apply safe_reject|intros _]. apply safe_bind; [done|by apply safe_get|].
  intros s. by apply safe_ret.
Qed.

Ltac to_wf := apply (safe_weaken relay_wf); [by intros s []|].

(** Every request is answered, and leaves the relay well-formed. *)
Lemma handle_safe req ip now :
  request_ok req →
  safe (λ s, relay_wf s ∧ seq_room (st_channels s)) relay_wf (handle req ip now).
Proof using Type.
  intros Hreq.
  destruct req; cbn [handle];
    try (apply (safe_weaken relay_wf); [by intros s []|];
         first [by apply safe_ret|by apply safe_lift|apply read_request_safe]).
  - to_wf. apply submit_record_safe.
  - to_wf. apply deposit_request_safe.
  - to_wf. apply safe_charged. eapply safe_zoom; [apply rw_prekeys| |intros s; apply publish_prekeys_wf].
    by intros s a [] Ha.
  - to_wf. apply safe_charged. eapply safe_zoom; [apply rw_prekeys| |intros s; apply get_prekeys_wf].
    by intros s a [] Ha.
  - to_wf. apply safe_charged. eapply safe_zoom; [apply rw_blobs| |].
    + by intros s a [] Ha.
    + intros s Hs. destruct (put_blob_wf blob now s Hs Hreq) as (r & s' & ? & ? & _). by exists r, s'.
  - apply safe_bind; [by intros s []| |intros _].
    { apply charge_safe. intros s l [Hs Hr]. split; [by apply wf_set_limits|done]. }
    apply safe_bind; [by intros s []|by apply safe_get|intros s0]. apply channels_safe, post_safe.
  - to_wf. apply safe_charged, channels_safe', set_channel_roster_safe.
  - to_wf. apply safe_charged, channels_safe', safe_total. apply fetch_channel_wf.
  - to_wf. apply safe_charged, channels_safe', channel_heads_safe.
  - to_wf. apply safe_charged. eapply safe_zoom; [apply rw_signals| |intros s; apply post_signal_wf].
    by intros s a [] Ha.
  - to_wf. apply safe_bind; [done|by apply safe_get|]. intros s. by apply safe_ret.
  - to_wf. apply safe_charged. apply safe_bind; [done|by apply safe_get|]. intros s0.
    eapply safe_zoom; [apply rw_keypkgs| |intros s; apply publish_key_packages_wf]. by intros s a [] Ha.
  - to_wf. apply safe_charged. eapply safe_zoom; [apply rw_keypkgs| |intros s; apply get_key_package_wf].
    by intros s a [] Ha.
  - to_wf. apply safe_charged. apply safe_bind; [done| |intros; by apply safe_ret].
    eapply safe_zoom; [apply rw_p2p| |apply safe_modify, announce_p2p_wf]. by intros s a [] Ha.
  - to_wf. apply safe_bind; [done|by apply safe_get|]. intros s. by apply safe_ret.
Qed.

(** Housekeeping always runs to its end. *)
Lemma maintain_safe now : safe relay_wf relay_wf (maintain now).
Proof using Type.
  apply safe_bind; [done| |intros dropped].
  { eapply safe_zoom; [apply rw_mail|apply wf_set_mail|].
    eapply safe_zoom; [by intros s []| |apply safe_total; intros m Hm; apply (gc_spec now m Hm)].
    by intros s a (_ & Ho & Hs) Ha. }
  apply safe_bind; [done| |intros ids].
  { apply (safe_zoom _ _ _ ledger_part_wf ledger_part_wf); [apply rw_ledger| |].
    2: { eapply safe_zoom; [by intros s []| |apply evaporate_safe_part]. by intros s a [_ Ho] Ha. }
    by intros s a [] Ha. }
  apply safe_bind; [done| |intros _].
  { eapply (safe_zoom _ _ _ (λ _, True) (λ _, True)); [done|by intros s a [] _|by apply safe_modify]. }
  apply safe_bind; [done| |intros _].
  { eapply safe_zoom; [apply rw_blobs| |apply safe_modify; intros s Hs; apply (maintain_blobs_spec now s Hs)].
    by intros s a [] Ha. }
  apply safe_bind; [done| |intros _].
  { eapply safe_zoom; [apply rw_channels| |apply safe_modify, maintain_channels_wf]. by intros s a [] Ha. }
  apply safe_bind; [done| |intros _].
  { eapply safe_zoom; [apply rw_p2p| |apply safe_modify, maintain_p2p_wf]. by intros s a [] Ha. }
  apply safe_bind; [done| |intros _; by apply safe_ret].
  eapply safe_zoom; [apply rw_signals| |apply safe_modify, maintain_signals_wf]. by intros s a [] Ha.
Qed.

(** ** What a request leaves alone *)

Definition keeps {X Y} (p : RelayState → Y) (m : Handler X) : Prop :=
  ∀ s r s', m s = Some (r, s') → p s' = p s.

Lemma keeps_bind {X Y Z} (p : RelayState → Z) (m : Handler X) (k : X → Handler Y) :
  keeps p m → (∀ x, keeps p (k x)) → keeps p (st_bind m k).
Proof using Type.
  intros Hm Hk s r s' Hb. unfold st_bind in Hb. destruct (m s) as [[[x|e] s1]|] eqn:E; [| |done].
  - etrans; [by eapply Hk|by eapply Hm].
  - injection Hb as <- <-. by eapply Hm.
Qed.
Lemma keeps_zoom {A X Z} (p : RelayState → Z) (l : Lens RelayState A) (m : Step A RelayError X) :
  (∀ a s, p (lens_set l a s) = p s) → keeps p (zoom l m).
Proof using Type.
  intros Hl s r s' Hz. unfold zoom in Hz. destruct (m _) as [[r1 a]|]; [|done]. by injection Hz as <- <-.
Qed.
Lemma keeps_ret {X Z} (p : RelayState → Z) (x : X) : keeps p (st_ret x).
Proof using Type. by intros s r s' [= <- <-]. Qed.
Lemma keeps_lift {X Z} (p : RelayState → Z) (x : result X RelayError) : keeps p (st_lift x).
Proof using Type. by intros s r s' [= <- <-]. Qed.
Lemma keeps_get {Z} (p : RelayState → Z) : keeps p st_get.
Proof using Type. by intros s r s' [= <- <-]. Qed.
Lemma keeps_reject {Z} (p : RelayState → Z) c e : keeps p (st_reject c e).
Proof using Type. by intros s r s' [= <- <-]. Qed.

Create HintDb keeps.
Hint Resolve keeps_bind keeps_zoom keeps_ret keeps_lift keeps_get keeps_reject : keeps.

Hint Extern 1 (_ = _) => reflexivity : keeps.
Hint Opaque keeps : keeps.

Lemma charge_keeps {Z} (p : RelayState → Z) rl ip now :
  (∀ a s, p (lens_set of_limits a s) = p s) → keeps p (charge rl ip now).
Proof using Type. intros Hp. unfold charge. auto with keeps. Qed.
Hint Resolve charge_keeps : keeps.

Lemma charge_Some rl ip now s r s' :
  charge rl ip now s = Some (r, s') → st_ledger s' = st_ledger s ∧ st_channels s' = st_channels s.
Proof using Type.
  intros Hc. split; by eapply (charge_keeps _ rl ip now); [|exact Hc].
Qed.

Ltac kept Hr :=
  left; match type of Hr with handle ?q ?ip ?now ?s = Some (?r, ?s') =>
    refine ((λ K : keeps st_channels (handle q ip now), K s r s' Hr) _)
  end;
  cbn [handle]; unfold submit_record, deposit_request, read_request; solve [auto 20 with keeps].

(** A charged operation on the channels. *)
Lemma charged_channels {X} rl ip now (m : RelayState → Step Channels RelayError X) s r s' :
  (do! _ := charge rl ip now in do! s1 := st_get in zoom of_channels (m s1)) s = Some (r, s') →
  st_channels s' = st_channels s ∨
  ∃ s1 r1, st_ledger s1 = st_ledger s ∧ m s1 (st_channels s) = Some (r1, st_channels s').
Proof using Type.
  intros Hr. unfold st_bind at 1 in Hr.
  destruct (charge rl ip now s) as [[[u|e] s1]|] eqn:Ec; [| |done]; apply charge_Some in Ec as [Hl Hc].
  - right. unfold st_bind, st_get, zoom in Hr. cbn [lens_get of_channels] in Hr. rewrite Hc in Hr.
    destruct (m s1 (st_channels s)) as [[r1 c1]|] eqn:Em; [|done]. injection Hr as <- <-.
    exists s1, r1. split; [done|]. by rewrite Em.
  - injection Hr as <- <-. by left.
Qed.

Lemma charged_channels' {X} rl ip now (m : Step Channels RelayError X) s r s' :
  (do! _ := charge rl ip now in zoom of_channels m) s = Some (r, s') →
  st_channels s' = st_channels s ∨ ∃ r1, m (st_channels s) = Some (r1, st_channels s').
Proof using Type.
  intros Hr. assert (Hr' : (do! _ := charge rl ip now in do! s1 := st_get in
                            zoom of_channels ((λ _, m) s1)) s = Some (r, s')) by exact Hr.
  apply charged_channels in Hr' as [?|(s1 & r1 & _ & ?)]; [by left|right; by exists r1].
Qed.

Lemma handle_channels req ip now s r s' :
  seq_room (st_channels s) → handle req ip now s = Some (r, s') →
  st_channels s' = st_channels s ∨
  chan_step (lp_ledger (st_ledger s)) (st_channels s) (st_channels s').
Proof using Type.
  intros Hroom Hr. destruct req; try (kept Hr; fail); cbn [handle] in Hr.
  - apply charged_channels in Hr as [?|(s1 & r1 & Hl & Hp)]; [by left|right].
    rewrite <- Hl. by eapply ch_post.
  - apply charged_channels' in Hr as [?|(r1 & Hp)]; [by left|right]. by eapply ch_roster.
  - apply charged_channels' in Hr as [?|(r1 & Hp)]; [by left|right]. unfold total in Hp.
    destruct (fetch_channel channel_id since_seq (st_channels s)) as [x c] eqn:E.
    injection Hp as _ <-. change c with (x, c).2. rewrite <- E. apply ch_fetch.
  - left. apply charged_channels' in Hr as [?|(r1 & Hp)]; [done|]. unfold channel_heads in Hp.
    unfold st_bind, st_reject, st_get, st_ret in Hp. by destruct (_ <? _)%N; injection Hp as _ <-.
Qed.

(** Only a post touches a log. *)
Lemma handle_logs_kept req ip now s r s' :
  (∀ c blob i sig, req ≠ RqPostToChannel c blob i sig) → handle req ip now s = Some (r, s') →
  cs_channels (st_channels s') = cs_channels (st_channels s).
Proof.
  intros Hne Hr.
  assert (Hk : st_channels s' = st_channels s ∨ ∃ c root v ms sig r1 since,
    set_channel_roster c root v ms sig (st_channels s) = Some (r1, st_channels s') ∨
    (fetch_channel c since (st_channels s)).2 = st_channels s').
  { destruct req; try (kept Hr; fail); cbn [handle] in Hr.
    - by destruct (Hne channel_id blob identity sig).
    - apply charged_channels' in Hr as [?|(r1 & Hp)]; [by left|right].
      exists channel_id, server_root, version, members, sig, r1, 0%N. by left.
    - apply charged_channels' in Hr as [?|(r1 & Hp)]; [by left|right]. unfold total in Hp.
      exists channel_id, [], 0%N, [], [], r1, since_seq. right.
      destruct (fetch_channel _ _ _) as [x c]. by injection Hp.
    - left. apply charged_channels' in Hr as [?|(r1 & Hp)]; [done|]. unfold channel_heads in Hp.
      unfold st_bind, st_reject, st_get, st_ret in Hp. by destruct (_ <? _)%N; injection Hp as _ <-. }
  destruct Hk as [->|(c & root & v & ms & sig & r1 & since & [Hp|<-])]; [done| |apply fetch_channel_eq].
  by apply set_channel_roster_cases in Hp as [[_ ->]|(_ & _ & ->)].
Qed.

(** ** Runs of a relay

    Every entry point: client requests, what siblings gossip, the periodic
    housekeeping, the draining of the outboxes and the operator's settings. *)

Lemma ingest_record_safe blob now p :
  ledger_part_wf p → ∃ b p', ingest_gossiped_record blob now p = Some (b, p') ∧ ledger_part_wf p'.
Proof using Type.
  intros Hp. unfold ingest_gossiped_record. destruct (record_decode blob) as [rec|]; [|by eauto].
  destruct (append_and_queue_safe rec blob now p Hp) as ([u|e] & p' & -> & Hp'); by eauto.
Qed.

Lemma ingest_envelope_safe blob now p :
  mail_wf p → ∃ b p', ingest_gossiped_envelope blob now p = Some (b, p') ∧ mail_wf p'.
Proof using Type.
  intros Hp. unfold ingest_gossiped_envelope. destruct (bool_decide _); [by eauto|].
  destruct (envelope_decode blob) as [env|]; [|by eauto].
  assert (Hz : safe mail_wf mail_wf (zoom of_mailbox (deposit env now))).
  { eapply safe_zoom; [by intros s []| |apply deposit_safe_part]. by intros s a (_ & Ho & Hs) Ha. }
  destruct (Hz p Hp) as ([u|e] & p' & -> & Hp'); [|by eauto]. eexists _, _. split; [done|].
  by apply note_envelope_wf.
Qed.

Inductive relay_step (s : RelayState) : RelayState → Prop :=
  | rs_request req ip now r s' :
      request_ok req → seq_room (st_channels s) → handle req ip now s = Some (r, s') → relay_step s s'
  | rs_gossip_record blob now b p :
      ingest_gossiped_record blob now (st_ledger s) = Some (b, p) →
      relay_step s (lens_set of_ledger p s)
  | rs_gossip_envelope blob now b p :
      ingest_gossiped_envelope blob now (st_mail s) = Some (b, p) →
      relay_step s (lens_set of_mail p s)
  | rs_gossip_prekey blob :
      relay_step s (lens_set of_prekeys (ingest_gossiped_prekey blob (st_prekeys s)).2 s)
  | rs_gossip_keypackage msg :
      relay_step s (lens_set of_keypkgs
        (ingest_gossiped_keypackage (lp_ledger (st_ledger s)) msg (st_keypkgs s)).2 s)
  | rs_channels c :
      chan_step (lp_ledger (st_ledger s)) (st_channels s) c → relay_step s (lens_set of_channels c s)
  | rs_maintain now r s' : maintain now s = Some (r, s') → relay_step s s'
  | rs_drain_ledger : relay_step s (lens_set of_ledger (take_ledger_outbox (st_ledger s)).2 s)
  | rs_drain_mail : relay_step s (lens_set of_mail (take_mbox_outbox (st_mail s)).2 s)
  | rs_drain_prekeys : relay_step s (lens_set of_prekeys (take_prekey_outbox (st_prekeys s)).2 s)
  | rs_drain_keypkgs : relay_step s (lens_set of_keypkgs (take_keypkg_outbox (st_keypkgs s)).2 s)
  | rs_set_ice ice : relay_step s (lens_set of_ice ice s)
  | rs_set_bootstrap addrs : relay_step s (lens_set of_p2p (set_p2p_bootstrap addrs (st_p2p s)) s).

Definition relay_run : relation RelayState := rtc relay_step.

Lemma relay_step_wf s s' : relay_wf s → relay_step s s' → relay_wf s'.
Proof using Type.
  intros Hwf Hst. pose proof Hwf as [Hl Hm Hp Hk Hb Hc Hg Hpp].
  destruct Hst as [req ip now r s' Hq Hroom Hr|blob now b p Hi|blob now b p Hi|blob|msg|c Hcs|now r s' Hr| | | | | |].
  - destruct (handle_safe req ip now Hq s (conj Hwf Hroom)) as (r1 & s1 & Hr1 & Hs1).
    rewrite Hr in Hr1. by injection Hr1 as <- <-.
  - destruct (ingest_record_safe blob now _ Hl) as (b1 & p1 & Hi1 & Hp1). rewrite Hi in Hi1.
    injection Hi1 as <- <-. by constructor.
  - destruct (ingest_envelope_safe blob now _ Hm) as (b1 & p1 & Hi1 & Hp1). rewrite Hi in Hi1.
    injection Hi1 as <- <-. by constructor.
  - constructor; try done. by apply ingest_prekey_wf.
  - constructor; try done. by apply ingest_keypackage_wf.
  - constructor; try done. by eapply chan_step_wf.
  - destruct (maintain_safe now s Hwf) as (r1 & s1 & Hr1 & Hs1). rewrite Hr in Hr1.
    by injection Hr1 as <- <-.
  - constructor; try done. split; [apply Hl|apply le_0_n].
  - constructor; try done. split_and!; [apply Hm|apply le_0_n|apply Hm].
  - constructor; try done. constructor; [apply Hp|apply Hp|apply le_0_n].
  - constructor; try done. constructor; [apply Hk|apply Hk|apply le_0_n].
  - by constructor.
  - by constructor.
Qed.

Lemma relay_run_wf s s' : relay_wf s → relay_run s s' → relay_wf s'.
Proof using Type. induction 2 as [|s1 s2 s3 Hst _ IH]; [done|]. apply IH. by eapply relay_step_wf. Qed.

Lemma maintain_channels_of now s r s' :
  maintain now s = Some (r, s') →
  st_channels s' = maintain_channels now (st_channels s) ∨ st_channels s' = st_channels s.
Proof using Type.
  unfold maintain, zoom, total, st_bind, st_modify, st_ret. cbn [lens_get of_mail of_mailbox]. intros Hm.
  destruct (gc now _) as [dropped mb]. cbn [lens_get lens_set of_ledger of_the_ledger of_mail of_mailbox] in Hm.
  destruct (evaporate now _) as [[[ids|e] l]|]; [| |done]; injection Hm as <- <-; [by left|by right].
Qed.

(** The channels of a relay only change by the operations on the store. *)
Lemma relay_step_channels s s' :
  relay_step s s' →
  st_channels s' = st_channels s ∨
  chan_step (lp_ledger (st_ledger s)) (st_channels s) (st_channels s').
Proof using Type.
  intros [req ip now r s1 Hq Hroom Hr|blob now b p Hi|blob now b p Hi|blob|msg|c Hcs|now r s1 Hr| | | | | |];
    try by left.
  - by eapply handle_channels.
  - by right.
  - apply maintain_channels_of in Hr as [->|?]; [right; apply ch_maintain|by left].
Qed.

Lemma relay_run_roster s s' c r :
  relay_run s s' → cs_rosters (st_channels s) !! c = Some r →
  ∃ r', cs_rosters (st_channels s') !! c = Some r' ∧ roster_le c r r'.
Proof using Type.
  intros Hrun. revert r. induction Hrun as [s|s1 s2 s3 Hst _ IH]; intros r Hr; [exists r; split; [done|by left]|].
  assert (∃ r2, cs_rosters (st_channels s2) !! c = Some r2 ∧ roster_le c r r2) as (r2 & Hr2 & Hle).
  { apply relay_step_channels in Hst as [->|Hst]; [exists r; split; [done|by left]|].
    by eapply chan_step_roster_le. }
  destruct (IH r2 Hr2) as (r3 & Hr3 & Hle3). exists r3. split; [done|]. by eapply roster_le_trans.
Qed.

Lemma relay_run_signed s s' :
  relay_run s s' → (∀ c r, cs_rosters (st_channels s) !! c = Some r → roster_signed c r) →
  (∀ c r, cs_rosters (st_channels s') !! c = Some r → roster_signed c r).
Proof using Type.
  induction 1 as [|s1 s2 s3 Hst _ IH]; intros Hs; [done|]. apply IH.
  apply relay_step_channels in Hst as [->|Hst]; [done|]. by eapply chan_step_roster_signed.
Qed.

(** Where the entries of a log come from. *)
Lemma relay_run_entries s s' c e :
  relay_wf s → relay_run s s' → e ∈ entries_of (st_channels s') c →
  e ∈ entries_of (st_channels s) c ∨
  ∃ t t', relay_run s t ∧ relay_step t t' ∧ relay_run t' s' ∧
    written (lp_ledger (st_ledger t)) c e (st_channels t) (st_channels t').
Proof using Type.
  intros Hwf Hrun. induction Hrun as [s|s1 s2 s3 Hst Hrun IH]; intros He; [by left|].
  destruct (IH (relay_step_wf _ _ Hwf Hst) He) as [He2|(t & t' & H1 & H2 & H3 & Hw)].
  2: { right. exists t, t'. split_and!; [by eapply rtc_l|done..]. }
  destruct (relay_step_channels _ _ Hst) as [E|Hc]; [left; by rewrite <- E|].
  destruct (chan_step_entries _ _ _ _ _ (rw_channels _ Hwf) Hc He2) as [|Hw]; [by left|].
  right. exists s1, s2. by split_and!.
Qed.
End relay.
