(* ===== verification/RelayTheorems.v ===== *)
(** * What the relay promises

    The properties of a relay over every run of it: client requests, gossip
    from siblings, copies of their logs and housekeeping in any order. *)

From S2P Require Import Prelude Utf8 Enc Crypto Merkle ProtoRecord Envelope IdentityRecords Server.
From S2P Require Import Ledger LedgerProofs LedgerTheorems X3dh Mailbox RateLimit Wire WireProofs.
From S2P Require Import RelayParts RelayChannels ChannelProofs Relay RelayProofs.

(** A client that polls a channel: it asks for what follows the last entry it
    has, until a reply is empty ([engine.rs], [poll_channels]). *)
Fixpoint poll (fuel : nat) (c : bytes) (since : N) (s : Channels) : list (N * bytes) :=
  match fuel with
  | O => []
  | S f =>
    match fetch_channel c since s with
    | (RsChannelLog out, s') =>
      match list.last out with
      | None => []
      | Some (seq, _) => out ++ poll f c seq s'
      end
    | _ => []
    end
  end.

Section theorems.
Context `{CryptoPrims, TurnAuth}.

(** The states of a relay that was started with some parameters. *)
Definition relay_reachable (s : RelayState) : Prop :=
  ∃ params limits s0, relay_new params limits = Some s0 ∧
    (li_channel_store_cap_bytes limits < u64_max)%N ∧ relay_run s0 s.

Lemma relay_reachable_wf s : relay_reachable s → relay_wf s.
Proof.
  intros (params & limits & s0 & Hn & Hcap & Hrun). eapply relay_run_wf; [|done]. by eapply relay_new_wf.
Qed.

(** C30: the relay always answers. Whatever bytes decode as a request, in any
    reachable state, from any address and at any time, the handler returns a
    response and a state that satisfies the invariant of every store; so does
    housekeeping. (A channel whose next sequence number is already [2^64 - 1]
    is excluded: see [channel_store_accounting].) *)
Theorem relay_never_panics s bs req ip now :
  relay_reachable s → seq_room (st_channels s) → request_decode bs = Ok req →
  (∃ r s', handle req ip now s = Some (r, s') ∧ relay_wf s') ∧
  (∃ r s', maintain now s = Some (r, s') ∧ relay_wf s').
Proof.
  intros Hs%relay_reachable_wf Hroom [Hreq _]%request_decode_canon. split.
  - by apply (handle_safe req ip now).
  - by apply maintain_safe.
Qed.

(** The channel store's books are right. In every reachable state each
    log is strictly sorted by sequence number, ends below the number it will
    assign next, keeps at most 5000 entries of at most 1 MiB, and the running
    byte counter (kept by wrapping and saturating arithmetic) is exactly the
    number of bytes stored. *)
Theorem channel_store_accounting s :
  relay_reachable s →
  (cs_bytes (st_channels s) = stored_bytes (cs_channels (st_channels s)) ∧
   cs_bytes (st_channels s) ≤ u64_max)%N ∧
  ∀ c log, cs_channels (st_channels s) !! c = Some log →
    StronglySorted (λ a b, ce_seq a < ce_seq b)%N (cl_entries log) ∧
    Forall (λ e, ce_seq e < cl_next_seq log ∧ len (ce_blob e) ≤ MAX_CHANNEL_BLOB_BYTES)%N (cl_entries log) ∧
    (length (cl_entries log) ≤ MAX_CHANNEL_ENTRIES)%nat.
Proof.
  intros Hs%relay_reachable_wf. pose proof (rw_channels s Hs) as Hc.
  split; [split; apply Hc|]. intros c log Hl. destruct (cw_logs _ Hc _ _ Hl) as [H1 H2 H3 H4 _].
  split_and!; [exact H1| |done]. apply List.Forall_forall. intros e He. split.
  - by apply (proj1 (List.Forall_forall _ _) H2).
  - by apply (proj1 (List.Forall_forall _ _) H4).
Qed.

Lemma last_trimmed l e : list.last (trim_count (l ++ [e])).2 = Some e.
Proof using Type.
  unfold trim_count. cbn [snd]. rewrite length_app. cbn [length].
  rewrite drop_app_le by (unfold MAX_CHANNEL_ENTRIES; lia). apply last_snoc.
Qed.

(** The log of a channel, and a client's request that changes it. *)
Lemma request_writes req ip now s r s' c :
  handle req ip now s = Some (r, s') →
  cs_channels (st_channels s') !! c ≠ cs_channels (st_channels s) !! c →
  ∃ blob i sig key roster,
    req = RqPostToChannel c blob i sig ∧
    idk_for_id (lp_ledger (st_ledger s)) i = Some key ∧ prim_vk_ok key = true ∧
    prim_verify_strict key (post_to_channel_challenge c i blob) sig = true ∧
    cs_rosters (st_channels s) !! c = Some roster ∧ i ∈ ro_members roster ∧
    let seq := cl_next_seq (log_of (st_channels s) c) in
    r = Ok (RsPosted seq) ∧
    list.last (cl_entries (log_of (st_channels s') c)) = Some (mkEntry seq blob now).
Proof.
  intros Hr Hch. destruct req; try (exfalso; apply Hch; f_equal; eapply handle_logs_kept; [|exact Hr]; done).
  cbn [handle] in Hr. unfold st_bind at 1 in Hr.
  destruct (charge of_deposit_rl ip now s) as [[[u|e] s1]|] eqn:Ec; [| |done]; apply charge_Some in Ec as [Hl Hc].
  2: { injection Hr as <- <-. by rewrite Hc in Hch. }
  unfold st_bind, st_get, zoom in Hr. cbn [lens_get of_channels] in Hr. rewrite Hl, Hc in Hr.
  destruct (post_to_channel _ _ _ _ _ _ _) as [[r1 c1]|] eqn:Ep; [|done]. injection Hr as <- <-.
  cbn [lens_set of_channels st_channels] in *.
  apply post_cases in Ep as [(_ & _ & -> & _)|(-> & (_ & (key & Hk & Hok & Hv) & (ro & Hro & Hi) & _) & ->)];
    [done|].
  assert (channel_id = c) as ->.
  { apply dec_stable. intros Hne. apply Hch. unfold posted. cbn. by rewrite lookup_insert_ne. }
  exists blob, identity, sig, key, ro. split_and!; try done.
  unfold posted, log_of at 1. cbn [set_outbox set_log cs_channels]. rewrite lookup_insert_eq. cbn.
  apply last_trimmed.
Qed.

(** C9: Who writes a channel's log.  A client request changes the log of a
    channel only if it is a post to that channel, signed with the key the
    ledger holds for a usable identity, and that identity is in the channel's
    registered roster; the post then ends the log, under the next sequence
    number, and its author is told that number.  Over every run of the relay,
    with what siblings send and what is copied from them, an entry that is in
    the log and was not came in a step where it was signed by the ledger's key
    for some identity, a member of the roster if the relay had one; or it was
    in a sibling's copy of the log, which the relay adopts without signatures
    ([written]). *)
Theorem channel_write_authorised s c :
  (∀ req ip now r s', handle req ip now s = Some (r, s') →
     cs_channels (st_channels s') !! c ≠ cs_channels (st_channels s) !! c →
     ∃ blob i sig key roster,
       req = RqPostToChannel c blob i sig ∧
       idk_for_id (lp_ledger (st_ledger s)) i = Some key ∧ prim_vk_ok key = true ∧
       prim_verify_strict key (post_to_channel_challenge c i blob) sig = true ∧
       cs_rosters (st_channels s) !! c = Some roster ∧ i ∈ ro_members roster ∧
       let seq := cl_next_seq (log_of (st_channels s) c) in
       r = Ok (RsPosted seq) ∧
       list.last (cl_entries (log_of (st_channels s') c)) = Some (mkEntry seq blob now)) ∧
  (relay_wf s → ∀ s' e, relay_run s s' → e ∈ entries_of (st_channels s') c →
     e ∈ entries_of (st_channels s) c ∨
     ∃ t t', relay_run s t ∧ relay_step t t' ∧ relay_run t' s' ∧
       written (lp_ledger (st_ledger t)) c e (st_channels t) (st_channels t')).
Proof.
  split; [intros req ip now r s'; apply request_writes|]. intros Hwf s' e. by apply relay_run_entries.
Qed.

(** C10: a roster cannot be hijacked or replayed. Once a channel has a roster,
    over any run of the relay it keeps one, under the same server root, and it
    changes only to a strictly later version that the root signed. *)
Theorem roster_binding_permanent s s' c r :
  relay_run s s' → cs_rosters (st_channels s) !! c = Some r →
  ∃ r', cs_rosters (st_channels s') !! c = Some r' ∧
    ro_server_root r' = ro_server_root r ∧ (ro_version r ≤ ro_version r')%N ∧
    (ro_version r' = ro_version r → r' = r) ∧
    (r' ≠ r → ∃ members sig, ro_members r' = list_to_set members ∧
       prim_verify_strict (ro_server_root r)
         (channel_roster_challenge c (ro_server_root r) (ro_version r') members) sig = true).
Proof.
  intros Hrun Hr. destruct (relay_run_roster s s' c r Hrun Hr) as (r' & Hr' & Hle).
  exists r'. split; [done|]. destruct Hle as [->|(Hroot & Hver & ms & sig & Hms & _ & Hv)].
  - split_and!; [done|lia|done|done].
  - split_and!; [done|lia|lia|]. intros _. exists ms, sig. by rewrite <- Hroot.
Qed.

(** the blob store is content-addressed and its quota is exact. In every
    reachable state a blob is served only under its own digest, the byte
    counter is the number of bytes stored and within the quota; and storing
    fails only when the quota would be exceeded, else the blob is served. *)
Theorem blob_store_content_addressed s :
  relay_reachable s →
  let b := st_blobs s in
  (∀ h bs, get_blob h b = RsBlob (Some bs) → h = sha256 bs) ∧
  (bs_blob_bytes b = map_sum (λ v, len v.1) (bs_blobs b) ∧ bs_blob_bytes b ≤ BLOB_STORE_CAP)%N ∧
  (∀ bs now, fits_u32 bs → ∃ r b', put_blob bs now b = Some (r, b') ∧
     (r = Ok RsOk ∧ (∃ bs', get_blob (sha256 bs) b' = RsBlob (Some bs') ∧ sha256 bs' = sha256 bs) ∨
      r = Err (RE_Text "blob store full") ∧ b' = b ∧ (BLOB_STORE_CAP < bs_blob_bytes b + len bs)%N)).
Proof.
  intros Hs%relay_reachable_wf. cbv zeta. pose proof (rw_blobs s Hs) as Hb.
  assert (Hget : ∀ (b : BlobStore) h bs, blobs_wf b → get_blob h b = RsBlob (Some bs) → h = sha256 bs).
  { intros b h bs Hwf. unfold get_blob. destruct (bs_blobs b !! h) as [[bs' t]|] eqn:E; [|done].
    cbn. intros [= <-]. by apply (bw_key b Hwf h bs' t). }
  split_and!; [intros h bs; by apply Hget|apply Hb|apply Hb|]. intros bs now Hfit.
  destruct (put_blob_wf bs now _ Hb Hfit) as (r & b' & Hp & Hwf' & [(-> & -> & _ & Hlt)|[-> Hb']]);
    exists r, b' || eexists _, _; (split; [exact Hp|]); [by right|]. left. split; [done|].
  assert (∃ bs', get_blob (sha256 bs) b' = RsBlob (Some bs')) as [bs' Hg].
  { subst b'. unfold get_blob. destruct (bs_blobs (st_blobs s) !! sha256 bs) as [[x t]|] eqn:E.
    - rewrite E. by exists x.
    - cbn [bs_blobs]. rewrite lookup_insert_eq. by exists bs. }
  exists bs'. split; [done|]. symmetry. by apply (Hget b').
Qed.

(** A one-time prekey is handed out once. Among any sequence of
    [GetPrekeys] requests for any identities, those for one identity are
    answered, in turn, with the stored bundle carrying exactly its first,
    second, ... one-time prekey, and with none after the last: no two callers
    get the same one. *)
Theorem otp_handed_out_once ids id b s :
  pd_prekeys s !! id = Some (bundle_encode b) → bundle_ok b →
  answers id (serve ids s).1 =
    (λ i, Some (RsPrekeys (Some (bundle_encode (with_otps (option_list (pb_otps b !! i)) b)))))
    <$> seq 0 (length (base.filter (λ x, x = id) ids)).
Proof. apply serve_handed. Qed.

(** C35: polling gives everything. A client that asks a well-formed log for
    what follows the last entry it has, until a reply is empty, receives every
    later entry exactly once and in order, although one reply carries at most
    7 MiB; asking once per stored entry (and once more) is enough. *)
Theorem fetch_channel_drains s c since :
  channels_wf s →
  poll (S (length (cl_entries (log_of s c)))) c since s =
  (λ e, (ce_seq e, ce_blob e)) <$>
    base.filter (λ e, (since <? ce_seq e)%N = true) (cl_entries (log_of s c)).
Proof.
  intros Hwf. pose proof (log_of_wf s c Hwf) as Hl.
  assert (Hpoll : ∀ fuel since s, channels_wf s → (length (after since (cl_entries (log_of s c))) < fuel)%nat →
    poll fuel c since s = (λ e, (ce_seq e, ce_blob e)) <$> after since (cl_entries (log_of s c))).
  { clear. induction fuel as [|f IH]; intros since s Hwf Hf; [lia|]. cbn [poll].
    pose proof (fetch_channel_wf c since s Hwf) as Hwf'.
    destruct (fetch_channel_eq c since s) as (Ho & Hch & _).
    destruct (fetch_channel c since s) as [resp s']. cbn [fst snd] in *. subst resp.
    pose proof (log_of_wf s c Hwf) as Hl. unfold log_slice.
    set (es := cl_entries (log_of s c)) in *.
    destruct (take_budget_spec 0 (after since es)) as (rest & Hsplit & _);
      [unfold MAX_CHANNEL_FETCH_BYTES; lia|].
    rewrite fmap_last. destruct (list.last (take_budget 0 (after since es))) as [m|] eqn:Em.
    - cbn [fmap option_fmap option_map]. assert (Hlog : log_of s' c = log_of s c) by (unfold log_of; by rewrite Hch).
      assert (Hrest : after (ce_seq m) es = rest).
      { eapply (after_last since); [apply Hl|exact Hsplit|exact Em]. }
      rewrite (IH (ce_seq m) s'); [|done|].
      + rewrite Hlog. fold es. rewrite Hrest. rewrite Hsplit at 2. by rewrite fmap_app.
      + rewrite Hlog. fold es. rewrite Hrest. rewrite Hsplit, length_app in Hf.
        destruct (take_budget 0 (after since es)); [done|]. cbn in Hf. lia.
    - apply last_None in Em. cbn. apply take_budget_progress in Em; [by rewrite Em|].
      apply filter_forall, Hl. }
  apply Hpoll; [done|]. apply Nat.lt_succ_r. apply length_filter.
Qed.

(** Adopting a sibling's log never overwrites. The new log is what is
    left, after dropping the oldest entries past the retention and the quota,
    of a sorted merge that holds every old entry unchanged and, for each
    sequence number the log did not have, an entry of the sibling; if the
    merge is within both limits nothing is dropped, so no sequence number of
    the sibling (with a blob of at most 1 MiB) is missing. *)
Theorem adopt_never_overwrites s c entries now :
  channels_wf s → no_room (cs_channels s) c MAX_CHANNELS = false →
  let old := cl_entries (log_of s c) in
  let s' := adopt_channel_log c entries now s in
  ∃ merged, StronglySorted (λ a b, ce_seq a < ce_seq b)%N merged ∧ old ⊆ merged ∧
    cl_entries (log_of s' c) `suffix_of` merged ∧
    (∀ e, e ∈ merged → e ∈ old ∨
       (ce_seq e, ce_blob e) ∈ entries ∧ ∀ x, x ∈ old → ce_seq x ≠ ce_seq e) ∧
    ((length merged ≤ MAX_CHANNEL_ENTRIES)%nat →
     (sat_add64 (cs_bytes s) (sum_by (λ sb, len sb.2) entries) ≤ cs_store_cap s)%N →
     cl_entries (log_of s' c) = merged ∧
     ∀ q b, (q, b) ∈ entries → (len b ≤ MAX_CHANNEL_BLOB_BYTES)%N →
       ∃ e, e ∈ cl_entries (log_of s' c) ∧ ce_seq e = q).
Proof.
  intros Hwf Hroom. cbv zeta. pose proof (lw_sorted _ (log_of_wf s c Hwf)) as Hsort.
  set (old := cl_entries (log_of s c)) in *.
  destruct (adoptable_spec entries now) as [_ Hin].
  destruct (adopt_cases c entries now s Hsort)
    as [[-> Hno]|(_ & lst & merged & l' & removed & _ & Hms & Hp & Hsuf & _ & _ & _ & Hfit & ->)].
  - exists old. split_and!; [done|done|done|by left|]. intros _ _. split; [done|]. intros q b Hqb Hb.
    destruct Hno as [Hno|Hno]; [congruence|].
    destruct (adoptable_complete entries now q b Hqb Hb) as (e & He & _). rewrite Hno in He.
    by apply not_elem_of_nil in He.
  - fold old in Hp. set (new := fresh_for (list_to_set (ce_seq <$> old)) (adoptable entries now)) in *.
    assert (Hlog : ∀ next total, cl_entries (log_of (set_log c (mkLog next (cl_local (log_of s c)) l') total s) c) = l').
    { intros. unfold log_of. cbn. by rewrite lookup_insert_eq. }
    rewrite Hlog. exists merged. split_and!; [done| |done| |].
    + intros e He. rewrite Hp. set_solver.
    + intros e He. rewrite Hp in He. apply elem_of_app in He as [He|He]; [|by left]. right.
      apply list_elem_of_filter in He as [Hn He]. split; [by apply Hin|]. intros x Hx Heq. set_solver.
    + intros Hlen Hcap. pose proof (adoptable_size entries now) as Hsz.
      assert (Hfs : (sum_by entry_size new ≤ sum_by entry_size (adoptable entries now))%N)
        by apply filter_sum.
      assert (l' = merged) as ->.
      { apply Hfit; [done|]. etrans; [|exact Hcap]. unfold sat_add64.
        apply N.min_le_compat_r, N.add_le_mono_l. by etrans. }
      split; [done|]. intros q b Hqb Hb.
      destruct (adoptable_complete entries now q b Hqb Hb) as (e & He & Heq).
      destruct (decide (ce_seq e ∈ (list_to_set (ce_seq <$> old) : gset N))) as [Ho|Hn].
      * apply elem_of_list_to_set, list_elem_of_fmap in Ho as (x & Hx & Hxo). exists x.
        split; [|congruence]. rewrite Hp. set_solver.
      * exists e. split; [|done]. rewrite Hp. apply elem_of_app. left. by apply list_elem_of_filter.
Qed.

(** A channel that goes quiet loses messages. Once every entry of a log
    has expired, housekeeping forgets the log with its counter; the next post
    gets sequence number 1 again, and a client that had already read any entry
    of the channel asks for what follows a number at least that large, so the
    relay does not give it the new message. *)
Theorem quiet_channel_restarts (dir : Ledger MemoryStore) s c log now blob i sig r s' since :
  cs_channels s !! c = Some log →
  Forall (λ e, fresh_until BLOB_TTL_MS now (ce_ts e) = false) (cl_entries log) →
  post_to_channel dir c blob i sig now (maintain_channels now s) = Some (Ok r, s') →
  (1 ≤ since)%N →
  r = RsPosted 1 ∧ (fetch_channel c since s').1 = RsChannelLog [].
Proof.
  intros Hlog Hexp Hpost Hsince.
  assert (Hnone : cs_channels (maintain_channels now s) !! c = None).
  { rewrite maintain_log, Hlog. unfold live_entries.
    replace (base.filter _ _) with (@nil Entry); [done|]. symmetry.
    induction Hexp as [|e l He _ IH]; [done|]. rewrite filter_cons_False; [exact IH|congruence]. }
  assert (Hof : log_of (maintain_channels now s) c = mkLog 1 false []) by (unfold log_of; by rewrite Hnone).
  apply post_cases in Hpost as [(e & ? & _)|(Hr & _ & ->)]; [done|]. rewrite Hof in Hr.
  injection Hr as ->. split; [done|]. rewrite (proj1 (fetch_channel_eq _ _ _)). do 2 f_equal.
  unfold log_slice, posted, log_of at 1. rewrite Hof. cbn [set_outbox set_log cs_channels].
  rewrite lookup_insert_eq. cbn [default from_option cl_entries]. unfold after.
  cbn. rewrite decide_False; [done|]. intros ?%N.ltb_lt. lia.
Qed.
End theorems.

(** ** A small run of a relay over the toy primitives

    Ada announces her identity, a server root registers the channel with Ada
    as its only member, and Ada posts two messages. *)
Module RelayDemo.
Import LedgerDemo.
#[local] Existing Instance Toy.prims.
#[export] Instance no_turn : TurnAuth := λ _ _, None.

Definition ip : IpAddr := V4 [x0a; x00; x00; x01].
Definition limits : Limits :=
  mkLimits (f64_of_N 5, one) (f64_of_N 5, one) (f64_of_N 5, one) (f64_of_N 5, one) 1000.
Definition ada : bytes := sha256 (key 1).
Definition cid : bytes := replicate 32 x07.
Definition hello : bytes := lit "hello".
Definition roster_request (version : N) (members : list bytes) : Request :=
  RqSetChannelRoster cid (key 9) version members
    (prim_sign (sk 9) (channel_roster_challenge cid (key 9) version members)).
Definition post_request (blob : bytes) : Request :=
  RqPostToChannel cid blob ada (prim_sign (sk 1) (post_to_channel_challenge cid ada blob)).
Definition bundle : PreKeyBundle :=
  secrets_bundle (mkSecrets (sk 21) [sk 22; sk 23]) (mkIdentity (sk 1) (sk 1)).

Definition start : RelayState :=
  match relay_new params limits with
  | Some s => s
  | None => mkRelay (mkLedgerPart empty []) (mkMailPart mailbox_new [] ∅) (mkPrekeyDir ∅ [])
              (mkKeyPackageDir ∅ []) (mkBlobStore ∅ 0) (channels_new 0) ∅
              (mkRateLimits (limiter_new one one) (limiter_new one one) (limiter_new one one)
                 (limiter_new one one)) 0 ice_default false (mkP2p [] [])
  end.
Definition act (req : Request) (now : N) (s : RelayState) : RelayState :=
  match handle req ip now s with Some (_, s') => s' | None => s end.
Definition r1 := act (RqSubmitRecord (record_encode ada_announce)) 100 start.
Definition r2 := act (roster_request 1 [ada]) 200 r1.
Definition r3 := act (post_request hello) 300 r2.
Definition r4 := act (post_request (lit "again")) 400 r3.
Definition r5 := act (RqPutBlob hello) 500 r4.
Definition r6 := act (roster_request 2 []) 600 r4.
Definition prekeys : PrekeyDir := mkPrekeyDir {[ada := bundle_encode bundle]} [].
Definition late : N := BLOB_TTL_MS + 1000.

(** What a request needs to be a step of a run. *)
Definition step_ok (req : Request) (s : RelayState) : bool :=
  bool_decide (request_decode (request_encode req) = Ok req) &&
  forallb (λ p, cl_next_seq p.2 <? u64_max)%N (map_to_list (cs_channels (st_channels s))).
End RelayDemo.

Section witnesses.
Import Toy LedgerDemo RelayDemo.

Lemma step_ok_spec req s : step_ok req s = true → request_ok req ∧ seq_room (st_channels s).
Proof.
  intros [Hd%bool_decide_eq_true Hf]%andb_true_iff. split; [by apply request_decode_canon in Hd as []|].
  intros c log Hl. rewrite forallb_forall in Hf.
  specialize (Hf (c, log)). cbn in Hf. apply N.ltb_lt, Hf, list_elem_of_In, elem_of_map_to_list, Hl.
Qed.

Lemma demo_act req now s : relay_wf s → step_ok req s = true → relay_run s (act req now s).
Proof.
  intros Hwf [Hq Hr]%step_ok_spec.
  destruct (handle_safe req ip now Hq s (conj Hwf Hr)) as (r & s' & Hh & _).
  unfold act. rewrite Hh. apply rtc_once. by eapply rs_request.
Qed.

Lemma demo_start : relay_reachable start.
Proof. exists params, limits, start. split_and!; [reflexivity|reflexivity|apply rtc_refl]. Qed.

Lemma demo_next req now s : relay_reachable s → step_ok req s = true → relay_reachable (act req now s).
Proof.
  intros Hs Hok. pose proof (relay_reachable_wf s Hs) as Hwf.
  destruct Hs as (p & l & s0 & Hn & Hc & Hr). exists p, l, s0. split_and!; [done|done|].
  etrans; [exact Hr|]. by apply demo_act.
Qed.

Lemma step1 : step_ok (RqSubmitRecord (record_encode ada_announce)) start = true.
Proof. vm_compute. reflexivity. Qed.
Lemma step2 : step_ok (roster_request 1 [ada]) r1 = true. Proof. vm_compute. reflexivity. Qed.
Lemma step3 : step_ok (post_request hello) r2 = true. Proof. vm_compute. reflexivity. Qed.
Lemma step4 : step_ok (post_request (lit "again")) r3 = true. Proof. vm_compute. reflexivity. Qed.
Lemma step5 : step_ok (RqPutBlob hello) r4 = true. Proof. vm_compute. reflexivity. Qed.
Lemma reach_r1 : relay_reachable r1. Proof. exact (demo_next _ 100 start demo_start step1). Qed.
Lemma reach_r2 : relay_reachable r2. Proof. exact (demo_next _ 200 r1 reach_r1 step2). Qed.
Lemma reach_r3 : relay_reachable r3. Proof. exact (demo_next _ 300 r2 reach_r2 step3). Qed.
Lemma reach_r4 : relay_reachable r4. Proof. exact (demo_next _ 400 r3 reach_r3 step4). Qed.
Lemma reach_r5 : relay_reachable r5. Proof. exact (demo_next _ 500 r4 reach_r4 step5). Qed.
Lemma run_r2_r3 : relay_run r2 r3.
Proof. exact (demo_act _ 300 r2 (relay_reachable_wf r2 reach_r2) step3). Qed.
Lemma step6 : step_ok (roster_request 2 []) r4 = true. Proof. vm_compute. reflexivity. Qed.
Lemma run_r3_r4 : relay_run r3 r4.
Proof. exact (demo_act _ 400 r3 (relay_reachable_wf r3 reach_r3) step4). Qed.
Lemma run_r4_r6 : relay_run r4 r6.
Proof. exact (demo_act _ 600 r4 (relay_reachable_wf r4 reach_r4) step6). Qed.
Lemma run_r2_r6 : relay_run r2 r6.
Proof. transitivity r3; [exact run_r2_r3|]. transitivity r4; [exact run_r3_r4|exact run_r4_r6]. Qed.
Lemma wf_r3 : channels_wf (st_channels r3). Proof. exact (rw_channels r3 (relay_reachable_wf r3 reach_r3)). Qed.
Lemma wf_r4 : channels_wf (st_channels r4). Proof. exact (rw_channels r4 (relay_reachable_wf r4 reach_r4)). Qed.

(** The answer of a run, without its state. *)
Lemma answered {S E X} (m : option (result X E * S)) x : fst <$> m = Some x → ∃ s', m = Some (x, s').
Proof. destruct m as [[y s']|]; [|done]. intros [= ->]. by exists s'. Qed.
Lemma answered_act req now s x :
  fst <$> handle req ip now s = Some x → handle req ip now s = Some (x, act req now s).
Proof. intros Hf. unfold act. by destruct (answered _ _ Hf) as [s' ->]. Qed.

Lemma bundle_is_ok : bundle_ok bundle.
Proof. assert (Hd : bundle_decode (bundle_encode bundle) = Ok bundle) by (vm_compute; reflexivity).
  by apply bundle_decode_canon in Hd as [? _]. Qed.

#[local] Opaque start r1 r2 r3 r4 r5 r6.

Lemma relay_never_panics_witness :
  (∃ r s', handle (roster_request 2 []) ip 600 r4 = Some (r, s') ∧ relay_wf s') ∧
  (∃ r s', maintain 600 r4 = Some (r, s') ∧ relay_wf s').
Proof.
  refine (relay_never_panics r4 (request_encode (roster_request 2 [])) (roster_request 2 []) ip 600
    reach_r4 (proj2 (step_ok_spec _ _ step6)) _). vm_compute. reflexivity.
Defined.

Lemma channel_store_accounting_witness :
  cs_bytes (st_channels r4) = stored_bytes (cs_channels (st_channels r4)) ∧
  cs_bytes (st_channels r4) = 10%N.
Proof.
  split; [exact (proj1 (proj1 (channel_store_accounting r4 reach_r4)))|vm_compute; reflexivity].
Defined.

Lemma channel_write_authorised_witness :
  (∃ blob i sig key roster,
    post_request hello = RqPostToChannel cid blob i sig ∧
    idk_for_id (lp_ledger (st_ledger r2)) i = Some key ∧ prim_vk_ok key = true ∧
    prim_verify_strict key (post_to_channel_challenge cid i blob) sig = true ∧
    cs_rosters (st_channels r2) !! cid = Some roster ∧ i ∈ ro_members roster ∧
    let seq := cl_next_seq (log_of (st_channels r2) cid) in
    Ok (E:=RelayError) (RsPosted 1) = Ok (RsPosted seq) ∧
    list.last (cl_entries (log_of (st_channels r3) cid)) = Some (mkEntry seq blob 300)) ∧
  ∃ t t', relay_run r2 t ∧ relay_step t t' ∧ relay_run t' r4 ∧
    written (lp_ledger (st_ledger t)) cid (mkEntry 1 hello 300) (st_channels t) (st_channels t').
Proof.
  split.
  - refine (proj1 (channel_write_authorised r2 cid) (post_request hello) ip 300%N _ r3 _ _).
    + refine (answered_act (post_request hello) 300 r2 _ _). vm_compute. reflexivity.
    + vm_compute. discriminate.
  - assert (Hin : bool_decide (mkEntry 1 hello 300 ∈ entries_of (st_channels r4) cid) = true) by (vm_compute; reflexivity).
    assert (Hno : bool_decide (mkEntry 1 hello 300 ∈ entries_of (st_channels r2) cid) = false) by (vm_compute; reflexivity).
    apply bool_decide_eq_true in Hin. apply bool_decide_eq_false in Hno.
    destruct (proj2 (channel_write_authorised r2 cid) (relay_reachable_wf r2 reach_r2) r4 (mkEntry 1 hello 300)
      (transitivity run_r2_r3 run_r3_r4) Hin) as [Hold|Hw]; [destruct (Hno Hold)|exact Hw].
Defined.

Lemma roster_binding_permanent_witness :
  ∃ r', cs_rosters (st_channels r6) !! cid = Some r' ∧
    ro_server_root r' = key 9 ∧ (1 ≤ ro_version r')%N ∧
    (ro_version r' = 1%N → r' = mkRoster (key 9) 1 (list_to_set [ada])) ∧
    (r' ≠ mkRoster (key 9) 1 (list_to_set [ada]) →
     ∃ members sig, ro_members r' = list_to_set members ∧
       prim_verify_strict (key 9)
         (channel_roster_challenge cid (key 9) (ro_version r') members) sig = true).
Proof.
  refine (roster_binding_permanent r2 r6 cid (mkRoster (key 9) 1 (list_to_set [ada])) run_r2_r6 _).
  vm_compute. reflexivity.
Defined.

Lemma blob_store_content_addressed_witness :
  (∀ h bs, get_blob h (st_blobs r5) = RsBlob (Some bs) → h = sha256 bs) ∧
  get_blob (sha256 hello) (st_blobs r5) = RsBlob (Some hello).
Proof.
  split; [exact (proj1 (blob_store_content_addressed r5 reach_r5))|vm_compute; reflexivity].
Defined.

Lemma otp_handed_out_once_witness :
  answers ada (serve [ada; cid; ada; ada] prekeys).1 =
  (λ i, Some (RsPrekeys (Some (bundle_encode (with_otps (option_list (pb_otps bundle !! i)) bundle)))))
  <$> seq 0 3.
Proof.
  refine (otp_handed_out_once [ada; cid; ada; ada] ada bundle prekeys _ bundle_is_ok).
  vm_compute. reflexivity.
Defined.

Lemma fetch_channel_drains_witness :
  poll (S (length (cl_entries (log_of (st_channels r4) cid)))) cid 0 (st_channels r4) =
  [(1%N, hello); (2%N, lit "again")].
Proof.
  refine (eq_trans (fetch_channel_drains (st_channels r4) cid 0 wf_r4) _). vm_compute. reflexivity.
Defined.

Lemma adopt_never_overwrites_witness :
  let entries := [(2%N, lit "two"); (1%N, lit "junk")] in
  let s' := adopt_channel_log cid entries 500 (st_channels r3) in
  (∃ merged, StronglySorted (λ a b, ce_seq a < ce_seq b)%N merged ∧
     cl_entries (log_of (st_channels r3) cid) ⊆ merged ∧
     cl_entries (log_of s' cid) `suffix_of` merged) ∧
  cl_entries (log_of s' cid) = [mkEntry 1 hello 300; mkEntry 2 (lit "two") 500].
Proof.
  cbv zeta. split.
  - destruct (adopt_never_overwrites (st_channels r3) cid [(2%N, lit "two"); (1%N, lit "junk")] 500 wf_r3)
      as (merged & H1 & H2 & H3 & _); [vm_compute; reflexivity|].
    exists merged. exact (conj H1 (conj H2 H3)).
  - vm_compute. reflexivity.
Defined.

Lemma quiet_channel_restarts_witness :
  ∃ r s', post_to_channel (lp_ledger (st_ledger r4)) cid hello ada
            (prim_sign (sk 1) (post_to_channel_challenge cid ada hello)) late
            (maintain_channels late (st_channels r4)) = Some (Ok r, s') ∧
    cl_next_seq (log_of (st_channels r4) cid) = 3%N ∧
    r = RsPosted 1 ∧ (fetch_channel cid 2 s').1 = RsChannelLog [].
Proof.
  assert (Ha : ∃ s', post_to_channel (lp_ledger (st_ledger r4)) cid hello ada
            (prim_sign (sk 1) (post_to_channel_challenge cid ada hello)) late
            (maintain_channels late (st_channels r4)) = Some (Ok (RsPosted 1), s')).
  { refine (answered _ _ _). vm_compute. reflexivity. }
  destruct Ha as [s' Hp]. exists (RsPosted 1), s'. split; [exact Hp|]. split; [vm_compute; reflexivity|].
  refine (quiet_channel_restarts (lp_ledger (st_ledger r4)) (st_channels r4) cid
    (log_of (st_channels r4) cid) late hello ada _ (RsPosted 1) s' 2 _ _ Hp _).
  - vm_compute. reflexivity.
  - refine (bool_decide_unpack _ _). vm_compute. exact I.
  - vm_compute. discriminate.
Defined.
End witnesses.
