(* ===== verification/Ratchet.v ===== *)
(** * The double ratchet ([kdf.rs], [ratchet.rs] of [crates/dante-dm/src])

    The ratchet of one peer is a record threaded through [Step]: a decryption
    that fails keeps what it had already changed, as the [&mut self] method
    does.  The secret that [AgreeSecret::generate] draws is an argument, and
    the map of skipped message keys is a finite map. *)

From S2P Require Import Prelude Utf8 Enc Crypto X3dh.

Definition ROOT_INFO : bytes := lit "DaNTe/DR/root/v1".
Definition MSG_INFO : bytes := lit "DaNTe/DR/msg/v1".
Definition MAX_SKIP : N := 1000.

(** ** Headers *)

Record Header := mkHeader { hd_dh : bytes; hd_pn : N; hd_n : N }.

#[global] Instance Header_eq_dec : EqDecision Header.
Proof. solve_decision. Defined.

Definition header_encode (self : Header) : bytes :=
  w_into_vec (w_with_capacity 40 |> w_fixed (hd_dh self) |> w_u32 (hd_pn self) |> w_u32 (hd_n self)).
Definition r_header : Read Header :=
  let! dh := r_fixed 32 in
  let! pn := r_u32 in
  let! n := r_u32 in
  let! _ := r_finish in
  r_ret (mkHeader dh pn n).
Definition header_decode (bs : bytes) : result Header WireError := run r_header bs.

(** ** State *)

Record Ratchet := mkRatchet {
  rt_dhs : bytes;
  rt_dhr : option bytes;
  rt_rk : bytes;
  rt_cks : option bytes;
  rt_ckr : option bytes;
  rt_ns : N;
  rt_nr : N;
  rt_pn : N;
  rt_skipped : gmap (bytes * N) bytes;
}.

(** Assignments to the fields that change together. *)
Definition set_sending (cks : option bytes) (ns : N) (r : Ratchet) : Ratchet :=
  mkRatchet (rt_dhs r) (rt_dhr r) (rt_rk r) cks (rt_ckr r) ns (rt_nr r) (rt_pn r) (rt_skipped r).
Definition set_receiving (ckr : option bytes) (nr : N) (r : Ratchet) : Ratchet :=
  mkRatchet (rt_dhs r) (rt_dhr r) (rt_rk r) (rt_cks r) ckr (rt_ns r) nr (rt_pn r) (rt_skipped r).
Definition set_skipped (sk : gmap (bytes * N) bytes) (r : Ratchet) : Ratchet :=
  mkRatchet (rt_dhs r) (rt_dhr r) (rt_rk r) (rt_cks r) (rt_ckr r) (rt_ns r) (rt_nr r) (rt_pn r) sk.

Section ratchet.
Context `{CryptoPrims}.

(** ** Key derivation ([kdf.rs]); the [expect]s are on lengths HKDF allows *)

Definition kdf_rk (rk dh_out : bytes) : bytes * bytes :=
  let prk := kdf_extract rk dh_out in
  let out := match kdf_expand prk ROOT_INFO 64 with Ok o => o | Err _ => [] end in
  (take 32 out, drop 32 out).

Definition kdf_ck (ck : bytes) : bytes * bytes :=
  let mk := hmac_sha256 ck [x01] in
  let next_ck := hmac_sha256 ck [x02] in
  (next_ck, mk).

Definition message_keys (mk : bytes) : bytes * bytes :=
  let prk := kdf_extract (replicate 32 x00) mk in
  let out := match kdf_expand prk MSG_INFO 56 with Ok o => o | Err _ => [] end in
  (take 32 out, drop 32 out).

(** ** Operations ([impl Ratchet]) *)

(** [fresh] is the ratchet secret drawn. *)
Definition init_alice (fresh sk their_ratchet_pub : bytes) : result Ratchet DmError :=
  let? dh_out := map_err DE_Crypto (agree fresh their_ratchet_pub) in
  let '(rk, cks) := kdf_rk sk dh_out in
  Ok (mkRatchet fresh (Some their_ratchet_pub) rk (Some cks) None 0 0 0 ∅).

Definition init_bob (sk ratchet_secret : bytes) : Ratchet :=
  mkRatchet ratchet_secret None sk None None 0 0 0 ∅.

Definition aad_with_header (ad : bytes) (header : Header) : bytes := ad ++ header_encode header.

Definition encrypt (plaintext ad : bytes) : Step Ratchet DmError (Header * bytes) :=
  do! self := st_get in
  do! cks := st_lift (ok_or (rt_cks self) (DE_NotReady "send")) in
  let '(next_ck, mk) := kdf_ck cks in
  let header := mkHeader (agree_public (rt_dhs self)) (rt_pn self) (rt_ns self) in
  do! _ := st_modify (set_sending (Some next_ck) (wrap32 (rt_ns self + 1))) in
  let '(key, nonce) := message_keys mk in
  let ct := xchacha_seal key nonce plaintext (aad_with_header ad header) in
  st_ret (header, ct).

Definition open (mk : bytes) (header : Header) (ct ad : bytes) : result bytes DmError :=
  let '(key, nonce) := message_keys mk in
  map_err (λ _, DE_Decrypt) (xchacha_open key nonce ct (aad_with_header ad header)).

(** [while self.nr < until { .. }], in at most [fuel] rounds. *)
Fixpoint skip_loop (fuel : nat) (until : N) (dhr ck : bytes) (self : Ratchet) : bytes * Ratchet :=
  match fuel with
  | O => (ck, self)
  | S f =>
    if (rt_nr self <? until)%N then
      let '(next_ck, mk) := kdf_ck ck in
      let self := set_skipped (<[(dhr, rt_nr self) := mk]> (rt_skipped self)) self in
      let self := set_receiving (rt_ckr self) (wrap32 (rt_nr self + 1)) self in
      skip_loop f until dhr next_ck self
    else (ck, self)
  end.

Definition skip_message_keys (until : N) : Step Ratchet DmError unit :=
  do! self := st_get in
  match rt_ckr self with
  | None => st_ret tt
  | Some ck =>
    do! _ := st_reject (wrap32 (rt_nr self + MAX_SKIP) <? until)%N DE_TooManySkipped in
    do! dhr := st_index (rt_dhr self) in
    let '(ck, self) := skip_loop (N.to_nat (until - rt_nr self)) until dhr ck self in
    st_modify (λ _, set_receiving (Some ck) (rt_nr self) self)
  end.

Definition dh_ratchet (fresh : bytes) (header : Header) : Step Ratchet DmError unit :=
  do! _ := st_modify (λ self, mkRatchet (rt_dhs self) (Some (hd_dh header)) (rt_rk self) (rt_cks self)
             (rt_ckr self) 0 0 (rt_ns self) (rt_skipped self)) in
  do! self := st_get in
  do! dh1 := st_lift (map_err DE_Crypto (agree (rt_dhs self) (hd_dh header))) in
  let '(rk, ckr) := kdf_rk (rt_rk self) dh1 in
  do! _ := st_modify (λ self, mkRatchet fresh (rt_dhr self) rk (rt_cks self) (Some ckr)
             (rt_ns self) (rt_nr self) (rt_pn self) (rt_skipped self)) in
  do! dh2 := st_lift (map_err DE_Crypto (agree fresh (hd_dh header))) in
  let '(rk, cks) := kdf_rk rk dh2 in
  st_modify (λ self, mkRatchet (rt_dhs self) (rt_dhr self) rk (Some cks) (rt_ckr self)
             (rt_ns self) (rt_nr self) (rt_pn self) (rt_skipped self)).

(** [fresh] is the secret drawn if the message starts a new chain. *)
Definition decrypt (fresh : bytes) (header : Header) (ct ad : bytes) : Step Ratchet DmError bytes :=
  do! self := st_get in
  match rt_skipped self !! (hd_dh header, hd_n header) with
  | Some mk =>
    do! _ := st_modify (set_skipped (delete (hd_dh header, hd_n header) (rt_skipped self))) in
    st_lift (open mk header ct ad)
  | None =>
    do! _ := (if bool_decide (rt_dhr self ≠ Some (hd_dh header)) then
                do! _ := skip_message_keys (hd_pn header) in dh_ratchet fresh header
              else st_ret tt) in
    do! _ := skip_message_keys (hd_n header) in
    do! self := st_get in
    do! ckr := st_lift (ok_or (rt_ckr self) (DE_NotReady "receive")) in
    let '(next_ck, mk) := kdf_ck ckr in
    do! _ := st_modify (set_receiving (Some next_ck) (wrap32 (rt_nr self + 1))) in
    st_lift (open mk header ct ad)
  end.
End ratchet.

(** ** Snapshots *)

Record RatchetState := mkRatchetState {
  rs_dhs_secret : bytes;
  rs_dhr : option bytes;
  rs_rk : bytes;
  rs_cks : option bytes;
  rs_ckr : option bytes;
  rs_ns : N;
  rs_nr : N;
  rs_pn : N;
  rs_skipped : list (bytes * N * bytes);
}.

#[global] Instance RatchetState_eq_dec : EqDecision RatchetState.
Proof. solve_decision. Defined.

Definition ratchet_export (self : Ratchet) : RatchetState :=
  mkRatchetState (rt_dhs self) (rt_dhr self) (rt_rk self) (rt_cks self) (rt_ckr self)
    (rt_ns self) (rt_nr self) (rt_pn self) (map_to_list (rt_skipped self)).

(** [collect] into a [HashMap]: a later entry replaces an earlier one. *)
Definition ratchet_import (s : RatchetState) : Ratchet :=
  mkRatchet (rs_dhs_secret s) (rs_dhr s) (rs_rk s) (rs_cks s) (rs_ckr s)
    (rs_ns s) (rs_nr s) (rs_pn s)
    (foldl (λ m '(k, mk), <[k := mk]> m) ∅ (rs_skipped s)).

Definition write_opt32 (v : option bytes) (w : Writer) : Writer :=
  match v with
  | Some b => w |> w_bool true |> w_fixed b
  | None => w |> w_bool false
  end.
Definition read_opt32 : Read (option bytes) :=
  let! b := r_bool in
  if b then let! x := r_fixed 32 in r_ret (Some x) else r_ret None.

Definition w_skipped (p : bytes * N * bytes) (w : Writer) : Writer :=
  let '(dh, n, mk) := p in w |> w_fixed dh |> w_u32 n |> w_fixed mk.
Definition r_skipped : Read (bytes * N * bytes) := r_pair (r_pair (r_fixed 32) r_u32) (r_fixed 32).

Definition ratchet_state_encode (self : RatchetState) : bytes :=
  w_into_vec (w_each w_skipped (rs_skipped self)
    (w_new |> w_fixed (rs_dhs_secret self) |> write_opt32 (rs_dhr self) |> w_fixed (rs_rk self)
       |> write_opt32 (rs_cks self) |> write_opt32 (rs_ckr self)
       |> w_u32 (rs_ns self) |> w_u32 (rs_nr self) |> w_u32 (rs_pn self)
       |> w_u32 (as_u32 (len (rs_skipped self))))).

Definition r_ratchet_state : Read RatchetState :=
  let! dhs_secret := r_fixed 32 in
  let! dhr := read_opt32 in
  let! rk := r_fixed 32 in
  let! cks := read_opt32 in
  let! ckr := read_opt32 in
  let! ns := r_u32 in
  let! nr := r_u32 in
  let! pn := r_u32 in
  let! skipped := r_counted r_skipped in
  let! _ := r_finish in
  r_ret (mkRatchetState dhs_secret dhr rk cks ckr ns nr pn skipped).
Definition ratchet_state_decode (bs : bytes) : result RatchetState WireError := run r_ratchet_state bs.
