(* ===== verification/RatchetProofs.v ===== *)
(** * The double ratchet: codecs, and two peers over a network *)

From S2P Require Import Prelude Utf8 Enc Crypto X3dh Ratchet.

(** ** Codecs *)

Definition header_ok (h : Header) : Prop :=
  ok_len 32 (hd_dh h) ∧ ok_u32 (hd_pn h) ∧ ok_u32 (hd_n h).
Definition opt32_ok (o : option bytes) : Prop := from_option (ok_len 32) True o.
Definition enc_opt32 (o : option bytes) : bytes :=
  match o with Some b => enc_bool true ++ b | None => enc_bool false end.
Definition skipped_ok (p : bytes * N * bytes) : Prop :=
  (ok_len 32 p.1.1 ∧ ok_u32 p.1.2) ∧ ok_len 32 p.2.
Definition enc_skipped (p : bytes * N * bytes) : bytes := (p.1.1 ++ be 4 p.1.2) ++ p.2.

Lemma header_encode_eq h : header_encode h = hd_dh h ++ be 4 (hd_pn h) ++ be 4 (hd_n h).
Proof. unfold header_encode. by enc_norm. Qed.

Lemma header_encode_length h : ok_len 32 (hd_dh h) → length (header_encode h) = 40%nat.
Proof. intros Hl. rewrite header_encode_eq, !length_app, !length_be. unfold ok_len in Hl. lia. Qed.

Lemma header_round h : header_ok h → header_decode (header_encode h) = Ok h.
Proof.
  destruct h as [d p n]. intros (Hd & Hp & Hn). eapply run_parse.
  rewrite header_encode_eq, <- !app_assoc. cbn in *. unfold r_header. parses. done.
Qed.

Lemma header_canon bs h : header_decode bs = Ok h → header_ok h ∧ header_encode h = bs.
Proof.
  intros [r' Hr]%run_canon. unfold r_header in Hr. canons Hr. injection Hr as <- _.
  split; [done|]. rewrite header_encode_eq. cbn. unfold id. by rewrite app_nil_r.
Qed.

#[export] Instance opt32_parses : Parses read_opt32 enc_opt32 opt32_ok.
Proof.
  intros [b|] pre post Ho; unfold read_opt32, enc_opt32; rewrite <- ?app_assoc.
  - rewrite (r_bind_rd _ _ _ _ true _ _ bool_parses I).
    rewrite (r_bind_rd _ _ _ _ b _ _ (fixed_parses 32) Ho). unfold r_ret, id. by rewrite <- app_assoc.
  - by rewrite (r_bind_rd _ _ _ _ false _ _ bool_parses I).
Qed.
#[export] Instance opt32_canon : Canon read_opt32 enc_opt32 opt32_ok.
Proof.
  intros pre xs o r H. unfold read_opt32 in H. canon1 H. destruct a.
  - canon1 H. injection H as <- <-. split; [done|]. exists post0.
    unfold enc_opt32, id. by rewrite <- !app_assoc.
  - injection H as <- <-. split; [done|]. by exists post.
Qed.

Lemma w_buf_opt32 o w : w_buf (write_opt32 o w) = w_buf w ++ enc_opt32 o.
Proof. destruct o; unfold write_opt32, enc_opt32; enc_norm; done. Qed.
Lemma w_buf_skipped l w : w_buf (w_each w_skipped l w) = w_buf w ++ mjoin (enc_skipped <$> l).
Proof.
  apply w_buf_each. intros [[d n] k] w'. unfold w_skipped, enc_skipped. cbn. enc_norm. by rewrite <- ?app_assoc.
Qed.

#[export] Instance skipped_parses :
  Parses (r_counted r_skipped) (enc_list enc_skipped) (ok_list skipped_ok).
Proof.
  apply counted_parses; [|apply (pair_parses _ (r_fixed 32) (λ p : bytes * N, p.1 ++ be 4 p.2) id
    (λ p, ok_len 32 p.1 ∧ ok_u32 p.2) (ok_len 32)); [apply (pair_parses (r_fixed 32) r_u32 id)|]; apply _].
  intros [[d n] k] [[Hd Hn] Hk]. unfold enc_skipped, ok_len in *. rewrite !length_app. cbn in *. lia.
Qed.
#[export] Instance skipped_canon :
  Canon (r_counted r_skipped) (enc_list enc_skipped) (ok_list skipped_ok).
Proof.
  apply counted_canon. apply (pair_canon _ (r_fixed 32) (λ p : bytes * N, p.1 ++ be 4 p.2) id
    (λ p, ok_len 32 p.1 ∧ ok_u32 p.2) (ok_len 32)); [apply (pair_canon (r_fixed 32) r_u32 id)|]; apply _.
Qed.

Definition ratchet_state_ok (s : RatchetState) : Prop :=
  ok_len 32 (rs_dhs_secret s) ∧ opt32_ok (rs_dhr s) ∧ ok_len 32 (rs_rk s) ∧
  opt32_ok (rs_cks s) ∧ opt32_ok (rs_ckr s) ∧ ok_u32 (rs_ns s) ∧ ok_u32 (rs_nr s) ∧
  ok_u32 (rs_pn s) ∧ ok_list skipped_ok (rs_skipped s).

Lemma ratchet_state_encode_eq s :
  ratchet_state_encode s =
    rs_dhs_secret s ++ enc_opt32 (rs_dhr s) ++ rs_rk s ++ enc_opt32 (rs_cks s) ++ enc_opt32 (rs_ckr s) ++
    be 4 (rs_ns s) ++ be 4 (rs_nr s) ++ be 4 (rs_pn s) ++ enc_list enc_skipped (rs_skipped s).
Proof.
  unfold ratchet_state_encode, enc_list. rewrite w_into_vec_buf, w_buf_skipped. enc_norm.
  rewrite w_buf_opt32. enc_norm. rewrite !w_buf_opt32. enc_norm. rewrite w_buf_opt32. by enc_norm.
Qed.

Lemma ratchet_state_round s : ratchet_state_ok s → ratchet_state_decode (ratchet_state_encode s) = Ok s.
Proof.
  destruct s. intros Hok. unfold ratchet_state_ok in Hok. cbn in Hok. destruct_and! Hok.
  eapply run_parse. rewrite ratchet_state_encode_eq, <- !app_assoc. cbn. unfold r_ratchet_state. parses. done.
Qed.

Lemma ratchet_state_canon bs s :
  ratchet_state_decode bs = Ok s → ratchet_state_ok s ∧ ratchet_state_encode s = bs.
Proof.
  intros [r' Hr]%run_canon. unfold r_ratchet_state in Hr. canons Hr. injection Hr as <- _.
  split; [done|]. rewrite ratchet_state_encode_eq. cbn. unfold id. by rewrite app_nil_r.
Qed.

Lemma foldl_insert_list_to_map {K V} `{Countable K} (l : list (K * V)) (m : gmap K V) :
  NoDup l.*1 → (∀ k, k ∈ l.*1 → m !! k = None) →
  foldl (λ m '(k, v), <[k := v]> m) m l = list_to_map l ∪ m.
Proof.
  revert m. induction l as [|[k v] l IH]; intros m Hnd Hm; cbn [foldl].
  - symmetry. apply (left_id_L ∅ (∪)).
  - cbn in Hnd. apply list.NoDup_cons in Hnd as [Hk Hnd]. rewrite IH; [|done|].
    + cbn. rewrite <- insert_union_l, insert_union_r; [done|]. by apply not_elem_of_list_to_map_1.
    + intros k' Hk'. rewrite lookup_insert_ne by (intros ->; contradiction). apply Hm. cbn. by right.
Qed.

(** A restored snapshot is the ratchet it was taken of. *)
Lemma ratchet_import_export r : ratchet_import (ratchet_export r) = r.
Proof.
  destruct r. unfold ratchet_import, ratchet_export. cbn. f_equal.
  rewrite (foldl_insert_list_to_map (map_to_list rt_skipped) ∅).
  - rewrite list_to_map_to_list. apply (right_id_L ∅ (∪)).
  - apply NoDup_fst_map_to_list.
  - intros k _. apply lookup_empty.
Qed.

(** ** Well-typed ratchets

    The sizes the Rust types carry: keys of 32 bytes, [u32] counters; and the
    [expect] of [skip_message_keys]. *)
Record ratchet_ok (r : Ratchet) : Prop := mkRatchetOk {
  ro_dhs : ok_len 32 (rt_dhs r);
  ro_dhr : opt32_ok (rt_dhr r);
  ro_rk : ok_len 32 (rt_rk r);
  ro_cks : opt32_ok (rt_cks r);
  ro_ckr : opt32_ok (rt_ckr r);
  ro_ns : ok_u32 (rt_ns r);
  ro_nr : ok_u32 (rt_nr r);
  ro_pn : ok_u32 (rt_pn r);
  ro_expect : is_Some (rt_ckr r) → is_Some (rt_dhr r);
  ro_skipped : map_Forall (λ k mk, ok_len 32 k.1 ∧ ok_u32 k.2 ∧ ok_len 32 mk) (rt_skipped r);
}.

Lemma wrap32_ok n : ok_u32 (wrap32 n).
Proof. unfold ok_u32, wrap32. by apply N.mod_lt. Qed.

Lemma ratchet_export_ok r :
  ratchet_ok r → fits_u32 (map_to_list (rt_skipped r)) → ratchet_state_ok (ratchet_export r).
Proof.
  intros [? ? ? ? ? ? ? ? ? Hs] Hf. unfold ratchet_state_ok. cbn. split_and!; try done.
  split; [done|]. apply Forall_forall. intros [[d n] mk] Hin%list_elem_of_In%elem_of_map_to_list.
  destruct (Hs _ _ Hin) as (? & ? & ?). done.
Qed.

Section typed.
Context `{CryptoPrims, !KdfLaws}.

Lemma kdf_rk_length rk d : ok_len 32 (kdf_rk rk d).1 ∧ ok_len 32 (kdf_rk rk d).2.
Proof.
  unfold kdf_rk, kdf_expand. destruct (hkdf_expand_some (kdf_extract rk d) ROOT_INFO 64) as (o & -> & Hl); [lia|].
  cbn [ok_or fst snd]. unfold ok_len. rewrite length_take, length_drop. lia.
Qed.
Lemma kdf_ck_length ck : ok_len 32 (kdf_ck ck).1 ∧ ok_len 32 (kdf_ck ck).2.
Proof. unfold kdf_ck, hmac_sha256, ok_len. cbn [fst snd]. by rewrite !hmac_length. Qed.

Lemma init_bob_ok sk spk : ok_len 32 sk → ok_len 32 spk → ratchet_ok (init_bob sk spk).
Proof using Type. intros. constructor; cbn; try done. Qed.

Lemma init_alice_ok f sk pub r :
  init_alice f sk pub = Ok r → ok_len 32 f → ok_len 32 pub → ratchet_ok r.
Proof.
  unfold init_alice. destruct (agree f pub) as [d|]; [|done]. cbn [map_err result_bind].
  destruct (kdf_rk sk d) as [rk ck] eqn:E. intros [= <-] Hf Hp.
  pose proof (kdf_rk_length sk d) as [Hr Hc]. rewrite E in Hr, Hc. constructor; cbn; try done.
Qed.

Lemma encrypt_ok text ad r res r' :
  ratchet_ok r → encrypt text ad r = Some (res, r') → ratchet_ok r'.
Proof.
  intros Hok E. unfold encrypt, st_bind, st_get, st_lift in E. destruct (rt_cks r) as [ck|]; cbn [ok_or] in E.
  - destruct (kdf_ck ck) as [nck mk] eqn:Ek. unfold st_modify in E. destruct (message_keys mk) as [k n].
    injection E as _ <-. pose proof (kdf_ck_length ck) as [Hn _]. rewrite Ek in Hn.
    destruct Hok. constructor; cbn; try done. apply wrap32_ok.
  - by injection E as _ <-.
Qed.

(** The loop runs at most [until - nr] times and adds one key each time. *)
Lemma skip_loop_ok fuel until d ck r :
  ratchet_ok r → ok_len 32 ck → ok_len 32 d →
  let x := skip_loop fuel until d ck r in
  ratchet_ok x.2 ∧ ok_len 32 x.1 ∧ rt_dhr x.2 = rt_dhr r ∧
  (size (rt_skipped x.2) ≤ size (rt_skipped r) + fuel)%nat.
Proof.
  intros Hok Hc Hd. revert ck r Hok Hc. induction fuel as [|fuel IH]; intros ck r Hok Hc; cbn [skip_loop].
  - cbn. split_and!; try done. lia.
  - destruct (rt_nr r <? until)%N; [|cbn; split_and!; try done; lia].
    destruct (kdf_ck ck) as [nck mk] eqn:Ek. pose proof (kdf_ck_length ck) as [Hn Hm]. rewrite Ek in Hn, Hm.
    match goal with |- context [skip_loop fuel until d nck ?x] => set (r1 := x) end.
    assert (size (rt_skipped r1) ≤ S (size (rt_skipped r)))%nat as Hsz.
    { cbn. rewrite map_size_insert. destruct (rt_skipped r !! _); unfold Datatypes.id; lia. }
    destruct (IH nck r1) as (H1 & H2 & H3 & H4); [|done|split_and!; try done; lia].
    destruct Hok as [? ? ? ? ? ? ? ? He Hs]. constructor; cbn; try done; [apply wrap32_ok|].
    by apply map_Forall_insert_2.
Qed.

Lemma skip_message_keys_ok until r :
  ratchet_ok r → ok_u32 until →
  ∃ res r', skip_message_keys until r = Some (res, r') ∧ ratchet_ok r' ∧ rt_dhr r' = rt_dhr r ∧
    (size (rt_skipped r') ≤ size (rt_skipped r) + N.to_nat MAX_SKIP)%nat.
Proof.
  intros Hok Hu. unfold skip_message_keys, st_bind, st_get. destruct (rt_ckr r) as [ck|] eqn:Ec.
  2: { eexists _, r. split; [reflexivity|]. split_and!; try done. lia. }
  unfold st_reject. destruct (wrap32 _ <? until)%N eqn:Ew.
  { eexists _, r. split; [reflexivity|]. split_and!; try done. lia. }
  apply N.ltb_ge in Ew. destruct (ro_expect _ Hok) as [d Ed]; [by rewrite Ec|]. unfold st_index. rewrite Ed.
  pose proof (ro_ckr _ Hok) as Hc. pose proof (ro_dhr _ Hok) as Hd. rewrite Ec in Hc. rewrite Ed in Hd. cbn in Hc, Hd.
  destruct (skip_loop_ok (N.to_nat (until - rt_nr r)) until d ck r Hok Hc Hd) as (H1 & H2 & H3 & H4).
  destruct (skip_loop _ _ _ _ _) as [ck' r1]. cbn [fst snd] in *. eexists _, _. split; [reflexivity|].
  split_and!; [|exact (eq_trans H3 Ed)|].
  - destruct H1 as [? ? ? ? ? ? ? ? He Hs]. constructor; cbn; try done. intros _. rewrite H3, Ed. done.
  - cbn. etrans; [exact H4|]. enough (until - rt_nr r ≤ MAX_SKIP)%N by lia.
    pose proof (ro_nr _ Hok) as Hn. unfold ok_u32, wrap32, MAX_SKIP in *.
    destruct (decide (rt_nr r + 1000 < 4294967296)%N); [rewrite N.mod_small in Ew by done; lia|].
    assert ((rt_nr r + 1000) mod 4294967296 = rt_nr r + 1000 - 4294967296)%N as Em; [|lia].
    symmetry. apply (N.mod_unique _ _ 1); lia.
Qed.

Lemma dh_ratchet_ok f h r :
  ratchet_ok r → ok_len 32 f → header_ok h →
  ∃ res r', dh_ratchet f h r = Some (res, r') ∧ ratchet_ok r' ∧ rt_skipped r' = rt_skipped r.
Proof.
  intros [] Hf (Hd & _). unfold dh_ratchet, st_bind, st_modify, st_get, st_lift. cbn [rt_dhs rt_rk].
  destruct (agree (rt_dhs r) (hd_dh h)) as [d1|]; cbn [map_err].
  2: { eexists _, _. split; [reflexivity|]. split; [by constructor|done]. }
  destruct (kdf_rk (rt_rk r) d1) as [rk ck] eqn:Ek. cbn [rt_dhs].
  pose proof (kdf_rk_length (rt_rk r) d1) as [Hr Hc]. rewrite Ek in Hr, Hc.
  destruct (agree f (hd_dh h)) as [d2|]; cbn [map_err].
  2: { eexists _, _. split; [reflexivity|]. split; [by constructor|done]. }
  destruct (kdf_rk rk d2) as [rk2 ck2] eqn:Ek2.
  pose proof (kdf_rk_length rk d2) as [Hr2 Hc2]. rewrite Ek2 in Hr2, Hc2.
  eexists _, _. split; [reflexivity|]. split; [by constructor|done].
Qed.

(** A decryption never panics, keeps the ratchet well-typed, and retains at
    most two gaps of skipped keys more. *)
Lemma decrypt_ok f h ct ad r :
  ratchet_ok r → ok_len 32 f → header_ok h →
  ∃ res r', decrypt f h ct ad r = Some (res, r') ∧ ratchet_ok r' ∧
    (size (rt_skipped r') ≤ size (rt_skipped r) + 2 * N.to_nat MAX_SKIP)%nat.
Proof.
  intros Hok Hf Hh. unfold decrypt. unfold st_bind at 1, st_get at 1.
  destruct (rt_skipped r !! (hd_dh h, hd_n h)) as [mk|] eqn:El.
  { eexists _, _. split; [reflexivity|]. destruct Hok as [? ? ? ? ? ? ? ? ? Hs]. split.
    - constructor; cbn; try done. by apply map_Forall_delete.
    - cbn. rewrite map_size_delete, El. lia. }
  destruct Hh as (Hd & Hp & Hn). unfold st_bind at 1.
  match goal with |- context [match (if ?c then ?m else ?m') r with _ => _ end] =>
    assert (∃ res r', (if c then m else m') r = Some (res, r') ∧ ratchet_ok r' ∧
      (size (rt_skipped r') ≤ size (rt_skipped r) + N.to_nat MAX_SKIP)%nat) as (res1 & r1 & E1 & Hok1 & Hs1) end.
  { case_bool_decide; [|eexists _, r; split; [reflexivity|split; [done|lia]]].
    destruct (skip_message_keys_ok (hd_pn h) r Hok Hp) as (res & r1 & E & Hok1 & _ & Hs).
    unfold st_bind. rewrite E. destruct res; [|eauto].
    destruct (dh_ratchet_ok f h r1 Hok1 Hf) as (res & r2 & E2 & Hok2 & Hs2); [done|].
    rewrite E2. eexists _, _. split; [reflexivity|]. by rewrite Hs2. }
  rewrite E1. destruct res1 as [[]|]; [|eexists _, _; split; [reflexivity|split; [done|lia]]].
  destruct (skip_message_keys_ok (hd_n h) r1 Hok1 Hn) as (res2 & r2 & E2 & Hok2 & _ & Hs2).
  unfold st_bind. rewrite E2. destruct res2 as [[]|]; [|eexists _, _; split; [reflexivity|split; [done|lia]]].
  unfold st_get, st_lift, st_modify. destruct (rt_ckr r2) as [ck|] eqn:Ec; cbn [ok_or];
    [|eexists _, _; split; [reflexivity|split; [done|lia]]].
  destruct (kdf_ck ck) as [nck mk] eqn:Ek. pose proof (kdf_ck_length ck) as [Hc _]. rewrite Ek in Hc.
  eexists _, _. split; [reflexivity|]. split; [|cbn; lia].
  destruct Hok2 as [? ? ? ? ? ? ? ? He ?]. constructor; cbn; try done; [apply wrap32_ok|].
  intros _. apply He. by rewrite Ec.
Qed.
End typed.
