(* ===== verification/Conversation.v ===== *)
(** * Two ratchets and a network that reorders

    The conversation of two peers as a step relation on their ratchets and the
    messages in flight, and the invariant that ties both ratchets to one
    schedule of keys.  Chain [i] is sent under the [i]-th ratchet secret; odd
    chains are the initiator's, even chains the responder's. *)

From S2P Require Import Prelude Utf8 Enc Crypto X3dh Ratchet RatchetProofs.

(** ** The system *)

(** A message in flight, with the text its sender encrypted. *)
Record Flight := mkFlight { fl_from : bool; fl_header : Header; fl_ct : bytes; fl_text : bytes }.

(** The ratchets of initiator ([true]) and responder ([false]), the messages
    sent and not yet delivered, and the ratchet keys in use so far. *)
Record Conv := mkConv { cv_peer : bool → Ratchet; cv_wire : list Flight; cv_keys : list bytes }.

Definition upd_peer (p : bool) (r : Ratchet) (f : bool → Ratchet) : bool → Ratchet :=
  λ q, if bool_decide (p = q) then r else f q.

(** A delivery that the limit on skipped keys allows. *)
Definition in_gap (r : Ratchet) (h : Header) : Prop :=
  is_Some (rt_skipped r !! (hd_dh h, hd_n h)) ∨
  ((rt_nr r + MAX_SKIP ≤ u32_max)%N ∧
   if bool_decide (rt_dhr r = Some (hd_dh h)) then (hd_n h ≤ rt_nr r + MAX_SKIP)%N
   else (hd_pn h ≤ rt_nr r + MAX_SKIP ∧ hd_n h ≤ MAX_SKIP)%N).

Section conversation.
Context `{CryptoPrims}.

(** A drawn secret is new, and agrees with every key in play. *)
Definition fresh_key (w : Conv) (f : bytes) : Prop :=
  agree_public f ∉ cv_keys w ∧ ∀ k, k ∈ cv_keys w → is_ok (agree f k) = true.

Variable ad : bytes.

Inductive conv_start (sk a0 spk : bytes) : Conv → Prop :=
  | conv_begin A :
      init_alice a0 sk (agree_public spk) = Ok A → agree_public a0 ≠ agree_public spk →
      conv_start sk a0 spk
        (mkConv (λ p, if p then A else init_bob sk spk) [] [agree_public a0; agree_public spk]).

Inductive conv_step : Conv → Conv → Prop :=
  | cs_send w p text h ct r' :
      encrypt text ad (cv_peer w p) = Some (Ok (h, ct), r') →
      (rt_ns (cv_peer w p) < u32_max)%N →
      conv_step w (mkConv (upd_peer p r' (cv_peer w)) (cv_wire w ++ [mkFlight p h ct text]) (cv_keys w))
  | cs_deliver w l1 m l2 f res r' :
      cv_wire w = l1 ++ m :: l2 →
      in_gap (cv_peer w (negb (fl_from m))) (fl_header m) →
      fresh_key w f →
      decrypt f (fl_header m) (fl_ct m) ad (cv_peer w (negb (fl_from m))) = Some (res, r') →
      conv_step w (mkConv (upd_peer (negb (fl_from m)) r' (cv_peer w)) (l1 ++ l2)
                     (agree_public f :: cv_keys w)).

(** ** Chains of keys *)

Definition next_ck (ck : bytes) : bytes := (kdf_ck ck).1.
Definition ck_at (ck : bytes) (n : N) : bytes := Nat.iter (N.to_nat n) next_ck ck.
Definition mk_at (ck : bytes) (n : N) : bytes := (kdf_ck (ck_at ck n)).2.

Lemma ck_at_0 ck : ck_at ck 0 = ck. Proof. done. Qed.
Lemma ck_at_succ ck n : ck_at ck (n + 1) = next_ck (ck_at ck n).
Proof using Type. unfold ck_at. by replace (N.to_nat (n + 1)) with (S (N.to_nat n)) by lia. Qed.
Lemma ck_at_add ck n k : ck_at (ck_at ck n) k = ck_at ck (n + k).
Proof using Type.
  unfold ck_at. rewrite N2Nat.inj_add, Nat.add_comm. by rewrite Nat.iter_add.
Qed.
Lemma mk_at_add ck n k : mk_at (ck_at ck n) k = mk_at ck (n + k).
Proof using Type. unfold mk_at. by rewrite ck_at_add. Qed.

(** What [skip_message_keys] adds: the keys of the indices it passes. *)
Definition skip_adds (d ck : bytes) (nr until : N) (old new : gmap (bytes * N) bytes) : Prop :=
  ∀ k v, new !! k = Some v ↔
    (∃ m, (nr ≤ m < until)%N ∧ k = (d, m) ∧ v = mk_at ck (m - nr)) ∨
    (old !! k = Some v ∧ ¬ ∃ m, (nr ≤ m < until)%N ∧ k = (d, m)).

Lemma skip_loop_spec fuel until d ck r :
  (until ≤ u32_max)%N → fuel = N.to_nat (until - rt_nr r) →
  ∃ sk', skip_loop fuel until d ck r =
           (ck_at ck (until - rt_nr r),
            set_skipped sk' (set_receiving (rt_ckr r) (N.max (rt_nr r) until) r)) ∧
         skip_adds d ck (rt_nr r) until (rt_skipped r) sk'.
Proof using Type.
  intros Hu. revert ck r. induction fuel as [|fuel IH]; intros ck r Hf; cbn [skip_loop].
  - exists (rt_skipped r). replace (until - rt_nr r)%N with 0%N by lia.
    replace (N.max (rt_nr r) until) with (rt_nr r) by lia. split; [f_equal; destruct r; reflexivity|].
    intros k v. split; [intros Hk; right; split; [done|]; intros (m & ? & _); lia|].
    intros [(m & ? & _)|[? _]]; [lia|done].
  - assert (rt_nr r < until)%N as Hlt by lia. apply N.ltb_lt in Hlt as Hb. rewrite Hb.
    unfold kdf_ck at 1. cbv beta iota.
    assert (Hw : wrap32 (rt_nr r + 1) = (rt_nr r + 1)%N) by (apply N.mod_small; unfold u32_max in Hu; lia).
    match goal with |- context [skip_loop fuel until d ?c ?x] => destruct (IH c x) as (sk' & E & Hs) end.
    { cbn. rewrite Hw. lia. }
    exists sk'. rewrite E. cbn [set_receiving set_skipped rt_nr rt_ckr rt_skipped rt_dhs rt_dhr rt_rk rt_cks rt_ns rt_pn] in *.
    rewrite Hw in *. split.
    + f_equal.
      * replace (until - rt_nr r)%N with (1 + (until - (rt_nr r + 1)))%N by lia.
        by rewrite <- ck_at_add.
      * unfold set_skipped, set_receiving. cbn. f_equal. lia.
    + intros k v. rewrite (Hs k v). split.
      * intros [(m & Hm & -> & ->)|[Hl Hn]].
        -- left. exists m. split; [lia|split; [done|]].
           replace (m - rt_nr r)%N with (1 + (m - (rt_nr r + 1)))%N by lia. by rewrite <- mk_at_add.
        -- destruct (decide (k = (d, rt_nr r))) as [->|Hne].
           ++ rewrite lookup_insert_eq in Hl. injection Hl as <-. left. exists (rt_nr r).
              split; [lia|split; [done|]]. by rewrite N.sub_diag.
           ++ rewrite lookup_insert_ne in Hl by done. right. split; [done|]. intros (m & Hm & ->).
              apply Hn. exists m. split; [|done].
              assert (m ≠ rt_nr r) by congruence. lia.
      * intros [(m & Hm & -> & ->)|[Hl Hn]].
        -- destruct (decide (m = rt_nr r)) as [->|Hne].
           ++ right. rewrite lookup_insert_eq, N.sub_diag. split; [done|]. intros (m & ? & [= ?]). lia.
           ++ left. exists m. split; [lia|split; [done|]].
              replace (m - rt_nr r)%N with (1 + (m - (rt_nr r + 1)))%N by lia. by rewrite <- mk_at_add.
        -- right. rewrite lookup_insert_ne.
           ++ split; [done|]. intros (m & Hm & ->). apply Hn. exists m. split; [lia|done].
           ++ intros <-. apply Hn. exists (rt_nr r). split; [lia|done].
Qed.

Lemma skip_spec until d ck r :
  rt_ckr r = Some ck → rt_dhr r = Some d →
  (until ≤ rt_nr r + MAX_SKIP)%N → (rt_nr r + MAX_SKIP ≤ u32_max)%N →
  ∃ sk', skip_message_keys until r =
           Some (Ok tt, set_skipped sk'
             (set_receiving (Some (ck_at ck (until - rt_nr r))) (N.max (rt_nr r) until) r)) ∧
         skip_adds d ck (rt_nr r) until (rt_skipped r) sk'.
Proof using Type.
  intros Hc Hd Hu Hm. unfold skip_message_keys, st_bind, st_get, st_reject. rewrite Hc.
  assert (wrap32 (rt_nr r + MAX_SKIP) = rt_nr r + MAX_SKIP)%N as ->.
  { apply N.mod_small. unfold u32_max in Hm. lia. }
  destruct (_ <? until)%N eqn:E; [apply N.ltb_lt in E; lia|]. unfold st_index. rewrite Hd.
  destruct (skip_loop_spec (N.to_nat (until - rt_nr r)) until d ck r) as (sk' & -> & Hs); [lia|done|].
  exists sk'. split; [|done]. unfold st_modify. do 3 f_equal.
Qed.
End conversation.

(** ** The schedule both ratchets follow *)

Section schedule.
Context `{CryptoPrims}.

(** [s i] is the [i]-th ratchet secret, [sk] the secret of the handshake. *)
Definition pub (s : nat → bytes) (i : nat) : bytes := agree_public (s i).
Definition dh (s : nat → bytes) (i : nat) : bytes :=
  match agree (s (S i)) (pub s i) with Ok d => d | Err _ => [] end.
Fixpoint root_key (s : nat → bytes) (sk : bytes) (i : nat) : bytes :=
  match i with O => sk | S j => (kdf_rk (root_key s sk j) (dh s j)).1 end.
Definition chain (s : nat → bytes) (sk : bytes) (i : nat) : bytes :=
  match i with O => [] | S j => (kdf_rk (root_key s sk j) (dh s j)).2 end.

(** The length of the sender's chain before chain [i]. *)
Definition plen (L : nat → N) (i : nat) : N := match i with S (S j) => L j | _ => 0%N end.
Definition hdr (s : nat → bytes) (L : nat → N) (i : nat) (n : N) : Header :=
  mkHeader (pub s i) (plen L i) n.
Definition sealed_at (ad : bytes) (s : nat → bytes) (sk : bytes) (L : nat → N) (i : nat) (n : N)
    (text : bytes) : bytes :=
  let '(key, nonce) := message_keys (mk_at (chain s sk i) n) in
  xchacha_seal key nonce text (aad_with_header ad (hdr s L i n)).

(** Message [n] of chain [i] lies behind a receiver of epoch [e]. *)
Definition behind (L : nat → N) (e : nat) (nr : N) (i : nat) (n : N) : Prop :=
  (1 ≤ i < e)%nat ∧ Nat.even (e + i) = false ∧ (n < if decide (S i = e) then nr else L i)%N.

(** A ratchet that has drawn its own secret for chain [e] and received the
    messages [D]. *)
Record party (s : nat → bytes) (sk : bytes) (L : nat → N) (e : nat) (D : gset (nat * N))
    (r : Ratchet) : Prop := mkParty {
  pa_dhs : rt_dhs r = s e;
  pa_rk : rt_rk r = root_key s sk e;
  pa_dhr : rt_dhr r = match e with O => None | S j => Some (pub s j) end;
  pa_cks : rt_cks r = match e with O => None | S _ => Some (ck_at (chain s sk e) (L e)) end;
  pa_ckr : rt_ckr r = match e with S (S j) => Some (ck_at (chain s sk (S j)) (rt_nr r)) | _ => None end;
  pa_ns : rt_ns r = L e;
  pa_nr : (rt_nr r ≤ match e with S (S j) => L (S j) | _ => 0 end)%N;
  pa_pn : rt_pn r = plen L e;
  pa_skipped : ∀ k v, rt_skipped r !! k = Some v ↔
    ∃ i n, behind L e (rt_nr r) i n ∧ (i, n) ∉ D ∧ k = (pub s i, n) ∧ v = mk_at (chain s sk i) n;
  pa_got : ∀ i n, (i, n) ∈ D → behind L e (rt_nr r) i n;
}.

Lemma root_key_ext s s' sk i : (∀ j, (j ≤ i)%nat → s' j = s j) → root_key s' sk i = root_key s sk i.
Proof using Type.
  induction i as [|i IH]; intros Hs; [done|]. cbn [root_key]. unfold dh, pub.
  by rewrite IH, !Hs by (try intros; try apply Hs; lia).
Qed.
Lemma chain_ext s s' sk i : (∀ j, (j ≤ i)%nat → s' j = s j) → chain s' sk i = chain s sk i.
Proof using Type.
  destruct i as [|i]; intros Hs; [done|]. cbn [chain]. unfold dh, pub.
  by rewrite (root_key_ext s s'), !Hs by (try intros; try apply Hs; lia).
Qed.

Lemma behind_ext L L' e nr i n :
  (∀ j, (S (S j) ≤ e)%nat → L' j = L j) → behind L' e nr i n ↔ behind L e nr i n.
Proof using Type.
  intros HL. unfold behind. split; intros (Hi & He & Hn); (split; [done|split; [done|]]);
    (destruct (decide (S i = e)) as [<-|Hne]; [done|]); assert (S (S i) ≠ S e) by congruence;
    [rewrite <- HL|rewrite HL]; try lia.
Qed.

(** What a party relies on of the schedule and of the chain lengths. *)
Lemma party_ext s s' sk L L' e D r :
  (∀ j, (j ≤ e)%nat → s' j = s j) → L' e = L e →
  (∀ j, (S (S j) ≤ e)%nat → L' j = L j) → (∀ j, (S j = e)%nat → (L j ≤ L' j)%N) →
  party s sk L e D r → party s' sk L' e D r.
Proof using Type.
  intros Hs HLe HL HLp [? ? Hdhr Hcks Hckr ? Hnr Hpn Hsk Hgot].
  pose proof (λ i n, behind_ext L L' e (rt_nr r) i n HL) as Hb.
  constructor.
  - by rewrite Hs.
  - by rewrite (root_key_ext s).
  - destruct e; [done|]. unfold pub. by rewrite Hs by lia.
  - destruct e; [done|]. by rewrite (chain_ext s), HLe.
  - destruct e as [|[|e]]; [done..|]. rewrite (chain_ext s); [done|]. intros. apply Hs. lia.
  - congruence.
  - destruct e as [|[|e]]; [done..|]. pose proof (HLp (S e) eq_refl). lia.
  - destruct e as [|[|e]]; [done..|]. cbn [plen] in *. by rewrite HL by lia.
  - assert (He : ∀ i n, behind L e (rt_nr r) i n → pub s' i = pub s i ∧ chain s' sk i = chain s sk i).
    { intros i n [? _]. unfold pub. rewrite (chain_ext s), Hs by (intros; try apply Hs; lia). done. }
    intros k v. rewrite Hsk. split; intros (i & n & Hi & HD & -> & ->); exists i, n;
      [|apply Hb in Hi]; destruct (He i n Hi) as [-> ->]; split_and!; try done. by apply Hb.
  - intros i n HD. by apply Hb, Hgot.
Qed.
End schedule.

(** ** One party *)

Section party_steps.
Context `{CryptoPrims, !AgreeLaws, !AeadLaws}.
Variables (sk ad : bytes) (L : nat → N).

Lemma open_sealed s i n text :
  open (mk_at (chain s sk i) n) (hdr s L i n) (sealed_at ad s sk L i n text) ad = Ok text.
Proof.
  unfold open, sealed_at. destruct (message_keys _) as [key nonce].
  unfold xchacha_open, xchacha_seal. by rewrite xchacha_open_seal.
Qed.

Lemma lookup_behind s e D r i n :
  party s sk L e D r → behind L e (rt_nr r) i n → (i, n) ∉ D →
  rt_skipped r !! (pub s i, n) = Some (mk_at (chain s sk i) n).
Proof using Type. intros Hp Hb HD. apply (pa_skipped _ _ _ _ _ _ Hp). eauto 6. Qed.

(** The ratchet keys up to chain [M] are pairwise distinct. *)
Definition distinct (s : nat → bytes) (M : nat) : Prop :=
  ∀ i j, (i ≤ M)%nat → (j ≤ M)%nat → pub s i = pub s j → i = j.

Lemma lookup_ahead s e D r i n M :
  party s sk L e D r → distinct s M →
  (e ≤ M)%nat → (i ≤ M)%nat → ¬ behind L e (rt_nr r) i n → rt_skipped r !! (pub s i, n) = None.
Proof using Type.
  intros Hp Hinj He Hi Hb. destruct (_ !! _) eqn:El; [|done]. exfalso.
  apply (pa_skipped _ _ _ _ _ _ Hp) in El as (i' & n' & Hb' & _ & [= Hpub ->] & _).
  apply Hinj in Hpub as ->; [done|done|]. destruct Hb' as [? _]. lia.
Qed.

Lemma behind_extend j nr u i n :
  (nr ≤ u)%N →
  behind L (S (S j)) u i n ↔ behind L (S (S j)) nr i n ∨ (i = S j ∧ nr ≤ n < u)%N.
Proof using Type.
  intros Hu. unfold behind. destruct (decide (S i = S (S j))) as [[= ->]|Hne].
  - replace (Nat.even (S (S j) + S j)) with false; [|].
    2: { replace (S (S j) + S j)%nat with (S (2 * (S j)))%nat by lia.
         by rewrite Nat.even_succ, Nat.odd_mul. }
    split; [intros (? & _ & Hn)|intros [(? & _ & Hn)|[_ Hn]]].
    + destruct (decide (n < nr)%N); [left|right]; (split; [lia|]); [done|lia].
    + split; [lia|split; [done|lia]].
    + split; [lia|split; [done|lia]].
  - split; [intros; left; done|intros [?|[-> _]]; done].
Qed.

Lemma skip_party s j D r until M :
  party s sk L (S (S j)) D r → distinct s M → (S j ≤ M)%nat → (until ≤ L (S j))%N → (until ≤ rt_nr r + MAX_SKIP)%N →
  (rt_nr r + MAX_SKIP ≤ u32_max)%N →
  ∃ r', skip_message_keys until r = Some (Ok tt, r') ∧ party s sk L (S (S j)) D r' ∧
        rt_nr r' = N.max (rt_nr r) until.
Proof using Type.
  intros Hp Hinj HM Hu Hg Hm. destruct Hp as [? ? Hdhr ? Hckr ? Hnr ? Hsk Hgot].
  destruct (skip_spec until (pub s (S j)) _ r Hckr Hdhr Hg Hm) as (sk' & -> & Hadd).
  eexists. split; [done|]. split; [|done].
  pose proof (λ i n, behind_extend j (rt_nr r) (N.max (rt_nr r) until) i n ltac:(lia)) as Hb.
  constructor; cbn [rt_dhs rt_rk rt_dhr rt_cks rt_ckr rt_ns rt_nr rt_pn rt_skipped set_skipped set_receiving]; try done.
  - rewrite ck_at_add. do 2 f_equal. lia.
  - lia.
  - intros k v. rewrite (Hadd k v). split.
    + intros [(m & Hrange & -> & ->)|[Hl _]].
      * exists (S j), m. rewrite Hb, mk_at_add. split; [right; split; [done|lia]|split; [|split; [done|do 2 f_equal; lia]]].
        intros HD. apply Hgot in HD as (_ & _ & Hn). rewrite decide_True in Hn by done. lia.
      * apply Hsk in Hl as (i & n & Hi & HD & -> & ->). exists i, n. rewrite Hb. auto.
    + intros (i & n & Hi & HD & -> & ->). rewrite Hb in Hi. destruct Hi as [Hi|[-> Hi]].
      * right. split; [apply Hsk; eauto 6|]. intros (m & Hr & [= Ep ->]).
        destruct Hi as (Hi & _ & Hn). apply Hinj in Ep as ->; [|lia..]. rewrite decide_True in Hn by done. lia.
      * left. exists n. split; [lia|split; [done|]]. rewrite mk_at_add. do 2 f_equal. lia.
  - intros i n HD. apply Hb. left. by apply Hgot.
Qed.

(** The next key of the current chain. *)
Lemma take_next s j D r :
  party s sk L (S (S j)) D r → (rt_nr r < L (S j))%N →
  party s sk L (S (S j)) ({[(S j, rt_nr r)]} ∪ D)
    (set_receiving (Some (next_ck (ck_at (chain s sk (S j)) (rt_nr r)))) (rt_nr r + 1) r).
Proof using Type.
  intros [? ? Hdhr ? Hckr ? Hnr ? Hsk Hgot] Hlt.
  pose proof (λ i n, behind_extend j (rt_nr r) (rt_nr r + 1) i n ltac:(lia)) as Hb.
  constructor; cbn [rt_dhs rt_rk rt_dhr rt_cks rt_ckr rt_ns rt_nr rt_pn rt_skipped set_receiving]; try done.
  - by rewrite ck_at_succ.
  - lia.
  - intros k v. rewrite Hsk. split; intros (i & n & Hi & HD & -> & ->); exists i, n.
    + rewrite Hb. split; [by left|split; [|done]]. intros [[= -> ->]%elem_of_singleton|?]%elem_of_union; [|done].
      destruct Hi as (_ & _ & Hn). rewrite decide_True in Hn by done. lia.
    + rewrite Hb in Hi. apply not_elem_of_union in HD as [HD1%not_elem_of_singleton HD].
      destruct Hi as [Hi|[-> Hi]]; [done|]. destruct HD1. f_equal. lia.
  - intros i n [[= -> ->]%elem_of_singleton|HD]%elem_of_union; apply Hb; [right; split; [done|lia]|].
    left. by apply Hgot.
Qed.

(** A key that was put aside. *)
Lemma take_skipped s e D r i n M :
  party s sk L e D r → distinct s M → (e ≤ M)%nat → behind L e (rt_nr r) i n → (i, n) ∉ D →
  party s sk L e ({[(i, n)]} ∪ D) (set_skipped (delete (pub s i, n) (rt_skipped r)) r).
Proof using Type.
  intros [? ? Hdhr ? Hckr ? Hnr ? Hsk Hgot] Hinj He Hi HD.
  constructor; cbn [rt_dhs rt_rk rt_dhr rt_cks rt_ckr rt_ns rt_nr rt_pn rt_skipped set_skipped]; try done.
  - intros k v. rewrite lookup_delete_Some, Hsk. split.
    + intros (Hk & i' & n' & Hi' & HD' & -> & ->). exists i', n'. split; [done|split; [|done]].
      intros [[= -> ->]%elem_of_singleton|?]%elem_of_union; done.
    + intros (i' & n' & Hi' & HD' & -> & ->). apply not_elem_of_union in HD' as [HD1%not_elem_of_singleton HD'].
      split; [|eauto 6]. intros [= Ep ->]. destruct HD1. destruct Hi as [? _], Hi' as [? _].
      apply Hinj in Ep as ->; [done|lia..].
  - intros i' n' [[= -> ->]%elem_of_singleton|HD']%elem_of_union; [done|by apply Hgot].
Qed.

(** The secret of the next own chain. *)
Definition upd_secret (s : nat → bytes) (i : nat) (f : bytes) : nat → bytes :=
  λ j, if decide (j = i) then f else s j.

Lemma behind_ratchet e nr i m :
  nr = match e with S (S j) => L (S j) | _ => 0%N end →
  behind L (S (S e)) 0 i m ↔ behind L e nr i m.
Proof using Type.
  intros ->. unfold behind. replace (S (S e) + i)%nat with (2 + (e + i))%nat by lia.
  change (Nat.even (2 + (e + i))) with (Nat.even (e + i)).
  destruct (decide (i < e)%nat) as [Hi|Hi].
  - rewrite (decide_False (P := S i = S (S e))) by lia. destruct (decide (S i = e)) as [<-|].
    + destruct i as [|i]; split; intros (?&?&?); (split; [lia|split; [done|]]); lia || done.
    + split; intros (?&?&?); (split; [lia|done]).
  - split; [|lia]. intros (? & He & Hm). exfalso. destruct (decide (S i = S (S e))); [lia|].
    replace i with e in He by lia. replace (e + e)%nat with (2 * e)%nat in He by lia.
    by rewrite Nat.even_mul in He.
Qed.

Lemma dh_party s e D r f n :
  party s sk L e D r →
  rt_nr r = match e with S (S j) => L (S j) | _ => 0%N end → L 0%nat = 0%N →
  (∀ i, (i ≤ e)%nat → is_ok (agree (s (S i)) (pub s i)) = true) →
  is_ok (agree f (pub s (S e))) = true → L (S (S e)) = 0%N →
  let s' := upd_secret s (S (S e)) f in
  ∃ r', dh_ratchet f (hdr s L (S e) n) r = Some (Ok tt, r') ∧
        party s' sk L (S (S e)) D r' ∧ rt_nr r' = 0%N.
Proof.
  intros [Hdhs Hrk Hdhr Hcks Hckr Hns Hnr Hpn Hsk Hgot] Hlast HL0 Hok Hf HL s'.
  assert (Hs : ∀ j, (j ≤ S e)%nat → s' j = s j).
  { intros j Hj. unfold s', upd_secret. by rewrite decide_False by lia. }
  assert (Hs' : s' (S (S e)) = f) by (unfold s', upd_secret; by rewrite decide_True by done).
  assert (Hd1 : agree (s e) (pub s (S e)) = Ok (dh s' e)).
  { unfold pub. rewrite agree_comm. unfold dh, pub. rewrite !Hs by lia.
    specialize (Hok e (le_n e)). unfold pub in Hok. destruct (agree _ _); done. }
  assert (Hd2 : agree f (pub s (S e)) = Ok (dh s' (S e))).
  { unfold dh, pub. rewrite Hs', Hs by lia. unfold pub in Hf. destruct (agree _ _); done. }
  pose proof (λ i m, behind_ratchet e (rt_nr r) i m Hlast) as He.
  unfold dh_ratchet, st_bind, st_modify, st_get, st_lift.
  cbn [rt_dhs rt_rk rt_dhr rt_cks rt_ckr rt_ns rt_nr rt_pn rt_skipped hd_dh hdr].
  rewrite Hdhs, Hd1. cbn [map_err].
  rewrite (surjective_pairing (kdf_rk (rt_rk r) (dh s' e))). cbv beta iota.
  cbn [rt_dhs rt_rk rt_dhr rt_cks rt_ckr rt_ns rt_nr rt_pn rt_skipped hd_dh hdr].
  rewrite Hd2. cbn [map_err].
  rewrite (surjective_pairing (kdf_rk (kdf_rk (rt_rk r) (dh s' e)).1 (dh s' (S e)))). cbv beta iota.
  cbn [rt_dhs rt_rk rt_dhr rt_cks rt_ckr rt_ns rt_nr rt_pn rt_skipped].
  assert (Hr : rt_rk r = root_key s' sk e) by (rewrite Hrk; symmetry; apply root_key_ext; intros; apply Hs; lia).
  rewrite Hr. eexists. split; [reflexivity|]. split; [|reflexivity].
  constructor; cbn [rt_dhs rt_rk rt_dhr rt_cks rt_ckr rt_ns rt_nr rt_pn rt_skipped]; try done.
  - unfold pub. by rewrite Hs by lia.
  - by rewrite HL.
  - apply N.le_0_l.
  - assert (Hsame : ∀ i m, behind L e (rt_nr r) i m → pub s' i = pub s i ∧ chain s' sk i = chain s sk i).
    { intros i m [? _]. unfold pub. rewrite (chain_ext s), Hs by (intros; try apply Hs; lia). done. }
    intros k v. rewrite Hsk. split; intros (i & m & Hi & HD & -> & ->); exists i, m;
      [|apply He in Hi]; destruct (Hsame i m Hi) as [-> ->]; split_and!; try done. by apply He.
  - intros i m HD. by apply He, Hgot.
Qed.

(** ** A delivery *)

(** The ratchet keys of the peers agree pairwise along the schedule. *)
Definition agreeing (s : nat → bytes) (M : nat) : Prop :=
  ∀ i, (i < M)%nat → is_ok (agree (s (S i)) (pub s i)) = true.

Lemma decrypt_now f h ct r :
  rt_skipped r !! (hd_dh h, hd_n h) = None →
  decrypt f h ct ad r =
  st_bind (if bool_decide (rt_dhr r ≠ Some (hd_dh h)) then
             st_bind (skip_message_keys (hd_pn h)) (λ _, dh_ratchet f h) else st_ret tt)
    (λ _, st_bind (skip_message_keys (hd_n h)) (λ _ r,
       match rt_ckr r with
       | Some ck => Some (open (mk_at ck 0) h ct ad,
                          set_receiving (Some (next_ck ck)) (wrap32 (rt_nr r + 1)) r)
       | None => Some (Err (DE_NotReady "receive"), r)
       end)) r.
Proof using Type.
  intros Hn. unfold decrypt. unfold st_bind at 1, st_get at 1. rewrite Hn. unfold st_bind.
  match goal with |- match ?m r with _ => _ end = _ => destruct (m r) as [[[u|?] r1]|]; [|done..] end.
  destruct (skip_message_keys _ r1) as [[[u'|?] r2]|]; [|done..]. unfold st_get, st_lift, st_modify. destruct (rt_ckr r2); done.
Qed.

(** A message of the current chain, or of the first one, at or past [nr]. *)
Lemma receive_current s j D r n text M :
  party s sk L (S (S j)) D r → distinct s M → (S (S j) ≤ M)%nat →
  (rt_nr r ≤ n)%N → (n < L (S j))%N → (L (S j) ≤ u32_max)%N →
  (n ≤ rt_nr r + MAX_SKIP)%N → (rt_nr r + MAX_SKIP ≤ u32_max)%N →
  ∃ r', st_bind (skip_message_keys n) (λ _ r,
          match rt_ckr r with
          | Some ck => Some (open (mk_at ck 0) (hdr s L (S j) n) (sealed_at ad s sk L (S j) n text) ad,
                             set_receiving (Some (next_ck ck)) (wrap32 (rt_nr r + 1)) r)
          | None => Some (Err (DE_NotReady "receive"), r)
          end) r = Some (Ok text, r') ∧
        party s sk L (S (S j)) ({[(S j, n)]} ∪ D) r'.
Proof using Type*.
  intros Hp Hd HM Hnr Hn HL Hg Hm.
  destruct (skip_party s j D r n M Hp Hd) as (r1 & E1 & Hp1 & Hn1); [lia..|].
  unfold st_bind. rewrite E1. assert (rt_nr r1 = n) as Hrn by lia.
  rewrite (pa_ckr _ _ _ _ _ _ Hp1), mk_at_add, N.add_0_r, Hrn, open_sealed.
  eexists. split; [reflexivity|]. rewrite <- Hrn.
  assert (wrap32 (rt_nr r1 + 1) = rt_nr r1 + 1)%N as -> by (apply N.mod_small; unfold u32_max in *; lia).
  apply take_next; [done|]. lia.
Qed.

(** Before a new chain, the rest of the previous one is put aside. *)
Lemma skip_previous s e D r M :
  party s sk L e D r → distinct s M → (e ≤ M)%nat →
  (plen L (S e) ≤ rt_nr r + MAX_SKIP)%N → (rt_nr r + MAX_SKIP ≤ u32_max)%N →
  ∃ r', skip_message_keys (plen L (S e)) r = Some (Ok tt, r') ∧ party s sk L e D r' ∧
        rt_nr r' = match e with S (S j) => L (S j) | _ => 0%N end.
Proof using Type.
  intros Hp Hd He Hg Hm. pose proof (pa_nr _ _ _ _ _ _ Hp) as Hnr.
  destruct e as [|[|j]].
  3: { destruct (skip_party s j D r (L (S j)) M Hp Hd) as (r1 & E1 & Hp1 & Hn1); [lia|lia|done|done|].
       exists r1. split; [done|]. split; [done|]. lia. }
  all: exists r; unfold skip_message_keys, st_bind, st_get; rewrite (pa_ckr _ _ _ _ _ _ Hp);
    split; [done|split; [done|lia]].
Qed.

Lemma sealed_ext s s' i n text :
  (∀ j, (j ≤ i)%nat → s' j = s j) →
  hdr s' L i n = hdr s L i n ∧ sealed_at ad s' sk L i n text = sealed_at ad s sk L i n text.
Proof using Type.
  intros Hs. unfold sealed_at, hdr, pub. by rewrite (chain_ext s s'), Hs by (intros; try apply Hs; lia).
Qed.

Lemma distinct_upd s M f :
  distinct s M → (∀ j, (j ≤ M)%nat → pub s j ≠ agree_public f) → distinct (upd_secret s (S M) f) (S M).
Proof using Type.
  intros Hd Hf i j Hi Hj. unfold pub, upd_secret.
  destruct (decide (i = S M)), (decide (j = S M)); subst; [done| | |].
  - intros E. symmetry in E. destruct (Hf j ltac:(lia) E).
  - intros E. destruct (Hf i ltac:(lia) E).
  - apply Hd; lia.
Qed.

Lemma party_receives s e D r i n text M f :
  party s sk L e D r → distinct s M → (e ≤ M)%nat → (i ≤ M)%nat → agreeing s M → L 0%nat = 0%N →
  (∀ j, (M < j)%nat → L j = 0%N) → (∀ j, (L j ≤ u32_max)%N) →
  (1 ≤ i ≤ S e)%nat → Nat.even (e + i) = false → (n < L i)%N → (i, n) ∉ D →
  in_gap r (hdr s L i n) →
  (i = S e → M = S e ∧ is_ok (agree f (pub s (S e))) = true ∧
             ∀ j, (j ≤ M)%nat → pub s j ≠ agree_public f) →
  ∃ s' e' r', decrypt f (hdr s L i n) (sealed_at ad s sk L i n text) ad r = Some (Ok text, r') ∧
    party s' sk L e' ({[(i, n)]} ∪ D) r' ∧
    ((s' = s ∧ e' = e) ∨ (i = S e ∧ e' = S (S e) ∧ s' = upd_secret s (S (S e)) f)).
Proof.
  intros Hp Hd He Hi Ha HL0 HLM HLu Hie Hpar Hn HD Hgap Hnew.
  destruct (decide (behind L e (rt_nr r) i n)) as [Hb|Hb].
  { (* a key that was put aside *)
    pose proof (lookup_behind _ _ _ _ _ _ Hp Hb HD) as Hl. exists s, e. eexists.
    split; [|split; [by eapply take_skipped|by left]].
    unfold decrypt, st_bind, st_get. cbn [hd_dh hd_n hdr]. rewrite Hl.
    unfold st_modify, st_lift. by rewrite <- (open_sealed s i n text). }
  pose proof (lookup_ahead _ _ _ _ _ _ _ Hp Hd He Hi Hb) as Hl.
  rewrite decrypt_now by done. destruct Hgap as [[? Hg]|[Hroom Hg]]; [cbn in Hg; congruence|].
  pose proof (pa_dhr _ _ _ _ _ _ Hp) as Hdhr. cbn [hd_dh hd_n hd_pn hdr] in *.
  destruct (decide (i = S e)) as [->|Hne].
  - (* the first message of a new chain *)
    destruct (Hnew eq_refl) as (HM & Hf & Hfresh). rewrite HM in *.
    assert (Hdiff : rt_dhr r ≠ Some (pub s (S e))).
    { rewrite Hdhr. destruct e as [|e]; [done|]. intros [= Ep]. apply Hd in Ep; lia. }
    rewrite bool_decide_eq_true_2 by done. rewrite bool_decide_eq_false_2 in Hg by done.
    destruct Hg as [Hg1 Hg2].
    destruct (skip_previous s e D r (S e) Hp Hd He Hg1 Hroom) as (r1 & E1 & Hp1 & Hn1).
    destruct (dh_party s e D r1 f n Hp1 Hn1 HL0) as (r2 & E2 & Hp2 & Hn2); [|done|apply HLM; lia|].
    { intros j Hj. apply Ha. lia. }
    set (s' := upd_secret s (S (S e)) f) in *.
    assert (Hs : ∀ j, (j ≤ S e)%nat → s' j = s j).
    { intros j Hj. unfold s', upd_secret. by rewrite decide_False by lia. }
    destruct (sealed_ext s s' (S e) n text Hs) as [Eh Ec].
    destruct (receive_current s' e D r2 n text (S (S e)) Hp2) as (r' & E3 & Hp3);
      [by apply distinct_upd|lia|rewrite Hn2; lia|done|apply HLu|rewrite Hn2; lia|
       rewrite Hn2; unfold MAX_SKIP, u32_max; lia|].
    exists s', (S (S e)), r'. split; [|split; [done|by right]].
    unfold st_bind at 1. unfold st_bind at 1. rewrite E1, E2. by rewrite <- Eh, <- Ec.
  - (* the current chain *)
    destruct e as [|[|j]]; [lia| |].
    { replace i with 1%nat in * by lia. done. }
    assert (i = S j ∧ rt_nr r ≤ n)%N as [-> Hrn].
    { unfold behind in Hb. destruct (decide (i = S j)) as [->|Hij].
      - split; [done|]. destruct (decide (rt_nr r ≤ n)%N); [done|]. destruct Hb. split; [lia|split; [done|]].
        rewrite decide_True by done. lia.
      - destruct Hb. assert (i ≠ S (S j)). { intros ->. rewrite Nat.even_add in Hpar. by destruct (Nat.even _). }
        split; [lia|split; [done|]]. by rewrite decide_False by lia. }
    rewrite bool_decide_eq_false_2 by (intros Hx; apply Hx; done). rewrite bool_decide_eq_true_2 in Hg by done.
    destruct (receive_current s j D r n text M Hp Hd He) as (r' & E & Hp'); [done..|].
    exists s, (S (S j)), r'. split; [exact E|split; [done|by left]].
Qed.
End party_steps.

(** ** The system's invariant *)

Section invariant.
Context `{CryptoPrims, !AgreeLaws, !AeadLaws}.
Variable ad : bytes.

Definition count_one (L : nat → N) (e : nat) : nat → N :=
  λ j, if decide (j = e) then (L e + 1)%N else L j.

Lemma encrypt_party sk s L e D r text h ct r' :
  party s sk L e D r → encrypt text ad r = Some (Ok (h, ct), r') → (rt_ns r < u32_max)%N →
  (1 ≤ e)%nat ∧ h = hdr s L e (L e) ∧ ct = sealed_at ad s sk L e (L e) text ∧
  party s sk (count_one L e) e D r'.
Proof using Type.
  intros [Hdhs Hrk Hdhr Hcks Hckr Hns Hnr Hpn Hsk Hgot] E Hlt.
  unfold encrypt in E. apply st_bind_Ok in E as (r0 & r1 & Hg & E). injection Hg as <- <-.
  apply st_bind_Ok in E as (ck & r1 & Hl & E). unfold st_lift in Hl. injection Hl as Hl <-.
  rewrite Hcks in Hl. destruct e as [|e]; [done|].
  assert (ck = ck_at (chain s sk (S e)) (L (S e))) as -> by (cbn [ok_or] in Hl; congruence). clear Hl. cbv beta iota delta [kdf_ck] in E.
  apply st_bind_Ok in E as ([] & r1 & Hm & E). unfold st_modify in Hm. injection Hm as <-.
  change (hmac_sha256 (ck_at (chain s sk (S e)) (L (S e))) [x01]) with (mk_at (chain s sk (S e)) (L (S e))) in E.
  rewrite Hns, Hpn, Hdhs in E. destruct (message_keys _) as [key nonce] eqn:Ek.
  unfold st_ret in E. injection E as <- <- <-.
  split; [lia|]. split; [done|]. split; [unfold sealed_at; by rewrite Ek|].
  assert (HL : ∀ j, j ≠ S e → count_one L (S e) j = L j).
  { intros j Hj. unfold count_one. by rewrite decide_False. }
  assert (HLe : count_one L (S e) (S e) = (L (S e) + 1)%N) by (unfold count_one; by rewrite decide_True).
  pose proof (λ i n, behind_ext L (count_one L (S e)) (S e) (rt_nr r) i n) as Hb.
  specialize (λ i n, Hb i n ltac:(intros; apply HL; lia)).
  constructor; cbn [rt_dhs rt_rk rt_dhr rt_cks rt_ckr rt_ns rt_nr rt_pn rt_skipped set_sending]; try done.
  - by rewrite HLe, ck_at_succ.
  - rewrite HLe. apply N.mod_small. unfold u32_max in Hlt. lia.
  - destruct e as [|j]; [done|]. by rewrite HL by lia.
  - rewrite Hpn. destruct e as [|j]; [done|]. cbn. by rewrite HL by lia.
  - intros k v. rewrite Hsk. split; intros (i & n & Hi & Hrest); exists i, n; (split; [by apply Hb|done]).
  - intros i n HD. by apply Hb, Hgot.
Qed.

(** A message in flight is sealed under the schedule, and not delivered yet. *)
Definition on_wire (s : nat → bytes) (sk : bytes) (L : nat → N) (e : bool → nat)
    (D : bool → gset (nat * N)) (m : Flight) (i : nat) (n : N) : Prop :=
  (1 ≤ i ≤ e (fl_from m))%nat ∧ Nat.even (e (fl_from m) + i) = true ∧ (n < L i)%N ∧
  (i, n) ∉ D (negb (fl_from m)) ∧ fl_header m = hdr s L i n ∧
  fl_ct m = sealed_at ad s sk L i n (fl_text m).

Record conv_inv_at (s : nat → bytes) (sk : bytes) (L : nat → N) (e : bool → nat)
    (D : bool → gset (nat * N)) (w : Conv) : Prop := mkInv {
  ci_par : Nat.even (e true + e false) = false;
  ci_near p : (e p ≤ S (e (negb p)))%nat;
  ci_party p : party s sk L (e p) (D p) (cv_peer w p);
  ci_distinct p : distinct s (e p);
  ci_agree p : agreeing s (e p);
  ci_keys p i : (i ≤ e p)%nat → pub s i ∈ cv_keys w;
  ci_L0 : L 0%nat = 0%N;
  ci_LM j : (∀ p, e p < j)%nat → L j = 0%N;
  ci_Lu j : (L j ≤ u32_max)%N;
  ci_wire m : m ∈ cv_wire w → ∃ i n, on_wire s sk L e D m i n;
  ci_nodup : NoDup ((λ m, (fl_from m, fl_header m)) <$> cv_wire w);
}.
Definition conv_inv (w : Conv) : Prop := ∃ s sk L e D, conv_inv_at s sk L e D w.

Lemma start_inv sk a0 spk w : conv_start sk a0 spk w → conv_inv w.
Proof.
  intros [A HA Hne].
  set (s := λ i : nat, match i with O => spk | _ => a0 end).
  exists s, sk, (λ _ : nat, 0%N), (λ p : bool, if p then 1%nat else 0%nat), (λ _ : bool, ∅).
  unfold init_alice in HA. destruct (agree a0 (agree_public spk)) as [d|] eqn:Ea; [|done].
  cbn [map_err result_bind] in HA.
  rewrite (surjective_pairing (kdf_rk sk d)) in HA. injection HA as <-.
  assert (Hd : dh s 0 = d) by (unfold dh, pub; cbn [s]; by rewrite Ea).
  assert (Hno : ∀ e i n, (e ≤ 1)%nat → ¬ behind (λ _, 0%N) e 0 i n).
  { intros e i n He (Hi & _). lia. }
  constructor; cbn [cv_peer cv_wire cv_keys]; try done.
  - intros [|]; cbn; lia.
  - intros [|]; constructor; cbn [rt_dhs rt_rk rt_dhr rt_cks rt_ckr rt_ns rt_nr rt_pn rt_skipped init_bob];
      try done; try (intros k v; rewrite lookup_empty; split; [done|];
        intros (i & n & Hb & _); by apply Hno in Hb; [|lia]).
    + cbn [root_key]. by rewrite Hd.
    + cbn [chain]. by rewrite Hd.
  - intros p i j Hi Hj. destruct p, i as [|[|i]], j as [|[|j]]; try lia; unfold pub; cbn [s]; congruence.
  - intros [|] i Hi; [|lia]. replace i with 0%nat by lia. unfold pub. cbn [s]. by rewrite Ea.
  - intros p i Hi. unfold pub. destruct p, i as [|[|i]]; try lia; cbn [s]; set_solver.
  - intros m Hm. by apply elem_of_nil in Hm.
  - constructor.
Qed.

Lemma other_party (p q : bool) : p ≠ q → q = negb p.
Proof using Type. destruct p, q; intros Hn; try reflexivity; by destruct Hn. Qed.

(** Chain lengths only matter for a message through its previous chain. *)
Lemma on_wire_ext s sk L L' e D m i n :
  on_wire s sk L e D m i n → (L i ≤ L' i)%N → plen L' i = plen L i → on_wire s sk L' e D m i n.
Proof using Type.
  intros (? & ? & ? & ? & Hh & Hc) Hi Hp. unfold on_wire, sealed_at, hdr in *. rewrite Hp.
  split_and!; try done; lia.
Qed.

Lemma inv_par s sk L e D w p : conv_inv_at s sk L e D w → Nat.even (e p + e (negb p)) = false.
Proof using Type. intros Hi. pose proof (ci_par _ _ _ _ _ _ Hi). destruct p; [done|]. by rewrite Nat.add_comm. Qed.

Lemma send_inv w p text h ct r' :
  conv_inv w → encrypt text ad (cv_peer w p) = Some (Ok (h, ct), r') →
  (rt_ns (cv_peer w p) < u32_max)%N →
  conv_inv (mkConv (upd_peer p r' (cv_peer w)) (cv_wire w ++ [mkFlight p h ct text]) (cv_keys w)).
Proof using Type*.
  intros (s & sk & L & e & D & Hinv) E Hlt. pose proof (inv_par _ _ _ _ _ _ p Hinv) as Hpar'.
  destruct Hinv as [Hpar Hnear Hparty Hdist Hag Hkeys HL0 HLM HLu Hwire Hnd].
  destruct (encrypt_party _ _ _ _ _ _ _ _ _ _ (Hparty p) E Hlt) as (He & -> & -> & Hp').
  pose proof (pa_ns _ _ _ _ _ _ (Hparty p)) as Hns. rewrite Hns in Hlt.
  set (L' := count_one L (e p)) in *.
  assert (HL : ∀ j, j ≠ e p → L' j = L j).
  { intros j Hj. unfold L', count_one. by rewrite decide_False. }
  assert (HLe : L' (e p) = (L (e p) + 1)%N) by (unfold L', count_one; by rewrite decide_True).
  assert (Hle : ∀ j, (L j ≤ L' j)%N).
  { intros j. destruct (decide (j = e p)) as [->|]; [lia|]. by rewrite HL. }
  assert (Hq : e (negb p) ≠ e p).
  { intros Hq. rewrite Hq, Nat.even_add, eqb_reflx in Hpar'. done. }
  exists s, sk, L', e, D. constructor; cbn [cv_peer cv_wire cv_keys]; try done.
  - intros q. unfold upd_peer. destruct (decide (p = q)) as [<-|Hne];
      [by rewrite bool_decide_eq_true_2|rewrite bool_decide_eq_false_2 by done].
    apply other_party in Hne as ->. specialize (Hnear (negb p)). rewrite negb_involutive in Hnear.
    apply (party_ext s s sk L L'); [done|by apply HL| |intros j _; apply Hle|done].
    intros j Hj. apply HL. lia.
  - rewrite HL; [done|lia].
  - intros j Hj. rewrite HL; [by apply HLM|]. specialize (Hj p). lia.
  - intros j. destruct (decide (j = e p)) as [->|]; [|rewrite HL by done; apply HLu].
    rewrite HLe. unfold u32_max in *. lia.
  - intros m [Hm|Hm%list_elem_of_singleton]%elem_of_app.
    + destruct (Hwire m Hm) as (i & n & Hw). exists i, n. apply (on_wire_ext s sk L); [done|apply Hle|].
      destruct i as [|[|i]]; [done..|]. cbn. apply HL. intros Hi. destruct Hw as (Hie & Hpi & _).
      destruct (decide (fl_from m = p)) as [Hf|Hf]; [rewrite Hf in Hie; lia|].
      apply not_eq_sym, other_party in Hf as Hf'.
      rewrite Hf' in Hpi. rewrite Hi in Hpi. replace (e (negb p) + S (S (e p)))%nat with (2 + (e p + e (negb p)))%nat in Hpi by lia.
      change (Nat.even (e p + e (negb p)) = true) in Hpi. congruence.
    + subst m. exists (e p), (L (e p)). unfold on_wire. cbn [fl_from fl_header fl_ct fl_text].
      assert (hdr s L' (e p) (L (e p)) = hdr s L (e p) (L (e p))) as Hh.
      { unfold hdr. f_equal. destruct (e p) as [|[|j]] eqn:Ee; [done..|]. cbn. rewrite HL by lia. done. }
      unfold sealed_at. rewrite Hh. split_and!; try lia; try done.
      * replace (e p + e p)%nat with (2 * e p)%nat by lia. by rewrite Nat.even_mul.
      * intros HD. apply (pa_got _ _ _ _ _ _ (Hparty (negb p))) in HD as (Hi & _ & Hn).
        pose proof (pa_nr _ _ _ _ _ _ (Hparty (negb p))) as Hnr. destruct (decide (S (e p) = e (negb p))) as [Hs|]; [|lia].
        rewrite <- Hs in Hnr. destruct (e p); lia.
  - rewrite fmap_app. apply list.NoDup_app. split; [done|split; [|apply NoDup_singleton]].
    intros x Hx Hn%list_elem_of_singleton. subst x. apply list_elem_of_fmap in Hx as (m & [= Hf Hh] & Hm).
    destruct (Hwire m Hm) as (i & n & Hie & _ & Hn & _ & Hhm & _). rewrite Hhm in Hh. injection Hh as Ep _ En.
    rewrite <- Hf in Hie. apply (Hdist p) in Ep; [|lia|lia]. rewrite <- Ep in Hn. lia.
Qed.
Lemma NoDup_middle {A} (l1 l2 : list A) x : NoDup (l1 ++ x :: l2) → x ∉ l1 ++ l2 ∧ NoDup (l1 ++ l2).
Proof using Type. rewrite <- Permutation_middle. by intros [??]%list.NoDup_cons. Qed.

(** The schedule after a delivery: the same, or with one more secret. *)
Lemma advance_schedule s s' f ep eq e' i (keys : list bytes) :
  distinct s (ep `max` eq) → agreeing s (ep `max` eq) → (∀ k, (k ≤ ep `max` eq)%nat → pub s k ∈ keys) →
  (ep ≤ S eq)%nat → (eq ≤ S ep)%nat → Nat.even (ep + eq) = false →
  (s' = s ∧ e' = ep ∨
   i = S ep ∧ e' = S (S ep) ∧ s' = upd_secret s (S (S ep)) f ∧ eq = S ep ∧
   is_ok (agree f (pub s (S ep))) = true ∧ ∀ j, (j ≤ S ep)%nat → pub s j ≠ agree_public f) →
  (∀ j, (j ≤ ep `max` eq)%nat → s' j = s j) ∧ (ep ≤ e' ≤ S eq)%nat ∧ (eq ≤ S e')%nat ∧
  Nat.even (e' + eq) = false ∧ distinct s' (e' `max` eq) ∧ agreeing s' (e' `max` eq) ∧
  (∀ k, (k ≤ e' `max` eq)%nat → pub s' k ∈ agree_public f :: keys).
Proof using Type.
  intros Hd Ha Hk Hp Hq Hpar [[-> ->]|(-> & -> & -> & -> & Hf & Hfresh)].
  { split_and!; try done; try lia. intros k Hkk. apply elem_of_cons. right. by apply Hk. }
  replace (ep `max` S ep)%nat with (S ep) in * by lia.
  replace (S (S ep) `max` S ep)%nat with (S (S ep)) by lia.
  assert (Hs : ∀ j, (j ≤ S ep)%nat → upd_secret s (S (S ep)) f j = s j).
  { intros j Hj. unfold upd_secret. by rewrite decide_False by lia. }
  assert (Hs' : upd_secret s (S (S ep)) f (S (S ep)) = f) by (unfold upd_secret; by rewrite decide_True).
  split_and!; try done; try lia.
  - by apply distinct_upd.
  - intros j Hj. unfold pub. rewrite (Hs j) by lia.
    destruct (decide (j = S ep)) as [->|Hne]; [by rewrite Hs'|]. rewrite Hs by lia. apply Ha. lia.
  - intros k Hkk. apply elem_of_cons. unfold pub. destruct (decide (k = S (S ep))) as [->|Hne].
    + left. by rewrite Hs'.
    + right. rewrite Hs by lia. apply Hk. lia.
Qed.

Lemma deliver_inv w l1 m l2 f :
  conv_inv w → cv_wire w = l1 ++ m :: l2 →
  in_gap (cv_peer w (negb (fl_from m))) (fl_header m) → fresh_key w f →
  ∃ r', decrypt f (fl_header m) (fl_ct m) ad (cv_peer w (negb (fl_from m))) = Some (Ok (fl_text m), r') ∧
        conv_inv (mkConv (upd_peer (negb (fl_from m)) r' (cv_peer w)) (l1 ++ l2)
                    (agree_public f :: cv_keys w)).
Proof.
  intros (s & sk & L & e & D & Hinv) Ew Hgap [Hf1 Hf2].
  pose proof (λ p, inv_par _ _ _ _ _ _ p Hinv) as Hpar'.
  destruct Hinv as [Hpar Hnear Hparty Hdist Hag Hkeys HL0 HLM HLu Hwire Hnd].
  assert (Hm : m ∈ cv_wire w) by (rewrite Ew; set_solver).
  destruct (Hwire m Hm) as (i & n & Hw). pose proof Hw as (Hie & Hpi & Hn & HD & Eh & Ec).
  set (q := fl_from m) in *. set (p := negb q) in *.
  assert (Hqp : negb p = q) by apply negb_involutive.
  pose proof (Hnear p) as Hnp. pose proof (Hnear q) as Hnq. fold p in Hnq. rewrite Hqp in Hnp.
  set (M := Nat.max (e p) (e q)).
  assert (HM : ∀ k, (k ≤ M)%nat → (k ≤ e p)%nat ∨ (k ≤ e q)%nat) by (intros; lia).
  assert (HdM : distinct s M).
  { unfold M. destruct (Nat.max_spec (e p) (e q)) as [[_ ->]|[_ ->]]; apply Hdist. }
  assert (HaM : agreeing s M).
  { unfold M. destruct (Nat.max_spec (e p) (e q)) as [[_ ->]|[_ ->]]; apply Hag. }
  assert (HkM : ∀ k, (k ≤ M)%nat → pub s k ∈ cv_keys w).
  { intros k [Hk|Hk]%HM; by eapply Hkeys. }
  assert (Hall : ∀ r, r = p ∨ r = q).
  { intros r. unfold p. destruct (decide (q = r)) as [->|Hne]; [by right|left]. by apply other_party. }
  rewrite Eh in Hgap. 
  destruct (party_receives sk ad L s (e p) (D p) (cv_peer w p) i n (fl_text m) M f)
    as (s' & e' & r' & Edec & Hp' & Hnew); try done.
  1-2: lia.
  { intros j Hj. apply HLM. intros r. destruct (Hall r) as [->| ->]; lia. }
  1: lia.
  { specialize (Hpar' p). rewrite Hqp, Nat.even_add in Hpar'. rewrite Nat.even_add in *.
    by destruct (Nat.even (e p)), (Nat.even (e q)), (Nat.even i). }
  { intros Hi. assert (e q = S (e p)) by lia. split; [lia|split; [apply Hf2, HkM; lia|]].
    intros j Hj Ej. apply Hf1. rewrite <- Ej. by apply HkM. }
  exists r'. split; [by rewrite Eh, Ec|].
  destruct (advance_schedule s s' f (e p) (e q) e' i (cv_keys w)) as (Hs & Hep & Heq & Hpar2 & Hd2 & Ha2 & Hk2);
    [done..|specialize (Hpar' p); by rewrite Hqp in Hpar'| |].
  { destruct Hnew as [[-> ->]|(-> & -> & ->)]; [by left|right]. assert (e q = S (e p)) by lia.
    split_and!; try done; [apply Hf2, HkM; lia|]. intros j Hj Ej. apply Hf1. rewrite <- Ej. apply HkM. lia. }
  assert (Hpq : p ≠ q) by (unfold p; by destruct q).
  set (e2 := λ r, if decide (r = p) then e' else e r).
  set (D2 := λ r, if decide (r = p) then {[(i, n)]} ∪ D p else D r).
  assert (e2 p = e' ∧ D2 p = {[(i, n)]} ∪ D p ∧ upd_peer p r' (cv_peer w) p = r') as (Eep & EDp & Erp).
  { unfold e2, D2, upd_peer. by rewrite !decide_True, bool_decide_eq_true_2. }
  assert (e2 q = e q ∧ D2 q = D q ∧ upd_peer p r' (cv_peer w) q = cv_peer w q) as (Eeq & EDq & Erq).
  { unfold e2, D2, upd_peer. by rewrite !decide_False, bool_decide_eq_false_2. }
  assert (Hmax : ∀ r k, (k ≤ e2 r)%nat → (k ≤ e' `max` e q)%nat).
  { intros r k Hk. destruct (Hall r) as [->| ->]; rewrite ?Eep, ?Eeq in Hk; lia. }
  exists s', sk, L, e2, D2. constructor; cbn [cv_peer cv_wire cv_keys]; try done.
  - enough (Nat.even (e2 p + e2 q) = false) as Hx.
    { unfold p in Hx. destruct q; [by rewrite Nat.add_comm|done]. }
    by rewrite Eep, Eeq.
  - intros r. destruct (Hall r) as [->| ->]; rewrite ?Hqp; fold p; rewrite ?Eep, ?Eeq; lia.
  - intros r. destruct (Hall r) as [->| ->]; rewrite ?Eep, ?Eeq, ?EDp, ?EDq, ?Erp, ?Erq; [done|].
    apply (party_ext s s' sk L L); try done. intros j Hj. apply Hs. lia.
  - intros r j k Hj Hk. apply Hd2; by eapply Hmax.
  - intros r j Hj. apply Ha2. specialize (Hmax r (S j)). lia.
  - intros r k Hk. apply Hk2. by eapply Hmax.
  - intros j Hj. apply HLM. intros r. pose proof (Hj p). pose proof (Hj q).
    destruct (Hall r) as [->| ->]; lia.
  - rewrite Ew, fmap_app in Hnd. cbn in Hnd. apply NoDup_middle in Hnd as [Hnotin Hnd].
    rewrite <- fmap_app in Hnotin, Hnd.
    intros m' Hm'. destruct (Hwire m') as (i' & n' & Hie' & Hpi' & Hn' & HD' & Eh' & Ec'); [rewrite Ew; apply elem_of_app in Hm' as [?|?]; apply elem_of_app; [by left|by right; right]|].
    exists i', n'. unfold on_wire.
    destruct (sealed_ext sk ad L s s' i' n' (fl_text m')) as [-> ->].
    { intros j Hj. apply Hs. destruct (Hall (fl_from m')) as [Er|Er]; rewrite Er in Hie'; lia. }
    destruct (Hall (fl_from m')) as [Er|Er]; rewrite Er in Hie', Hpi', HD' |- *; rewrite ?Hqp; fold p; rewrite ?Eep, ?Eeq, ?EDp, ?EDq.
    + split_and!; try done; try lia; [|by rewrite Hqp in HD'].
      rewrite Nat.even_add in *. specialize (Hpar' p). rewrite Hqp, Nat.even_add in Hpar'.
      by destruct (Nat.even (e p)), (Nat.even (e q)), (Nat.even e'), (Nat.even i').
    + split_and!; try done; try lia. fold p in HD'. intros [[= -> ->]%elem_of_singleton|?]%elem_of_union; [|done].
      apply Hnotin. apply list_elem_of_fmap. exists m'. split; [by rewrite Er, Eh', Eh|done].
  - rewrite Ew, fmap_app in Hnd. cbn in Hnd. apply NoDup_middle in Hnd as [_ Hnd]. by rewrite fmap_app.
Qed.

Lemma step_inv w w' : conv_inv w → conv_step ad w w' → conv_inv w'.
Proof.
  intros Hinv Hst. destruct Hst as [w p text h ct r' E Hlt|w l1 m l2 f res r' Ew Hgap Hf E].
  { by apply send_inv. }
  destruct (deliver_inv _ _ _ _ f Hinv Ew Hgap Hf) as (r'' & E' & Hinv'). congruence.
Qed.

Lemma run_inv sk a0 spk w0 w : conv_start sk a0 spk w0 → rtc (conv_step ad) w0 w → conv_inv w.
Proof.
  intros Hs Hr. apply start_inv in Hs. revert Hs. induction Hr as [|? ? ? Hst _ IH]; [done|].
  intros Hi. apply IH. by eapply step_inv.
Qed.
End invariant.
