(* ===== verification/Session.v ===== *)
(** * Sessions and their messages ([crates/dante-dm/src/session.rs])

    A session is a ratchet with its associated data.  A handshake that opens
    one draws two secrets on the initiator's side (the ephemeral key and the
    first ratchet key) and one on the responder's (its first own ratchet
    key). *)

From S2P Require Import Prelude Utf8 Enc Crypto ProtoRecord X3dh Ratchet RatchetProofs.

(** ** Wire types *)

Record DmMessage := mkDm { dm_header : Header; dm_ciphertext : bytes }.

Definition dm_encode (self : DmMessage) : bytes :=
  w_into_vec (w_with_capacity (44 + len (dm_ciphertext self))
    |> w_fixed (header_encode (dm_header self)) |> w_bytes (dm_ciphertext self)).
Definition r_dm : Read DmMessage :=
  let! raw := r_fixed 40 in
  let! header := r_lift (header_decode raw) in
  let! ciphertext := r_bytes in
  let! _ := r_finish in
  r_ret (mkDm header ciphertext).
Definition dm_decode (bs : bytes) : result DmMessage WireError := run r_dm bs.

Record InitMessage := mkInitMessage {
  im_ik_a_pub : bytes;
  im_ek_a_pub : bytes;
  im_used_otp : option bytes;
  im_first : DmMessage;
}.

Definition init_encode (self : InitMessage) : bytes :=
  let w := w_new |> w_fixed (im_ik_a_pub self) |> w_fixed (im_ek_a_pub self) in
  let w := match im_used_otp self with
           | Some o => w |> w_bool true |> w_fixed o
           | None => w |> w_bool false
           end in
  w_into_vec (w |> w_bytes (dm_encode (im_first self))).
Definition r_init : Read InitMessage :=
  let! ik_a_pub := r_fixed 32 in
  let! ek_a_pub := r_fixed 32 in
  let! used_otp := (let! b := r_bool in
                    if b then let! x := r_fixed 32 in r_ret (Some x) else r_ret None) in
  let! raw := r_bytes in
  let! first := r_lift (dm_decode raw) in
  let! _ := r_finish in
  r_ret (mkInitMessage ik_a_pub ek_a_pub used_otp first).
Definition init_decode (bs : bytes) : result InitMessage WireError := run r_init bs.

Inductive Packet : Type :=
  | PInit (m : InitMessage)
  | PMessage (m : DmMessage).

#[global] Instance DmMessage_eq_dec : EqDecision DmMessage.
Proof. solve_decision. Defined.
#[global] Instance InitMessage_eq_dec : EqDecision InitMessage.
Proof. solve_decision. Defined.
#[global] Instance Packet_eq_dec : EqDecision Packet.
Proof. solve_decision. Defined.

Definition packet_encode (self : Packet) : bytes :=
  match self with
  | PInit m => w_into_vec (w_new |> w_u8 1 |> w_bytes (init_encode m))
  | PMessage m => w_into_vec (w_new |> w_u8 2 |> w_bytes (dm_encode m))
  end.
Definition r_packet : Read Packet :=
  let! tag := r_u8 in
  let! out := (if (tag =? 1)%N then
                 let! raw := r_bytes in let! m := r_lift (init_decode raw) in r_ret (PInit m)
               else if (tag =? 2)%N then
                 let! raw := r_bytes in let! m := r_lift (dm_decode raw) in r_ret (PMessage m)
               else r_err (BadDiscriminant "dm::Packet" tag)) in
  let! _ := r_finish in
  r_ret out.
Definition packet_decode (bs : bytes) : result Packet WireError := run r_packet bs.

(** ** Sessions *)

Record Session := mkSession { ss_ratchet : Ratchet; ss_ad : bytes }.

Section session.
Context `{CryptoPrims}.

(** [ek] is the ephemeral secret of the handshake, [fresh] the ratchet's. *)
Definition initiate (me : Identity) (bundle : PreKeyBundle) (first_plaintext ek fresh : bytes)
    : option (result (Session * InitMessage) DmError) :=
  match initiator me bundle ek with
  | Err e => Some (Err e)
  | Ok hs =>
    match init_alice fresh (xr_sk (ih_result hs)) (pb_spk_pub bundle) with
    | Err e => Some (Err e)
    | Ok ratchet =>
      match encrypt first_plaintext (xr_ad (ih_result hs)) ratchet with
      | None => None
      | Some (Err e, _) => Some (Err e)
      | Some (Ok (header, ciphertext), ratchet) =>
        Some (Ok (mkSession ratchet (xr_ad (ih_result hs)),
                  mkInitMessage (identity_agree_public me) (ih_ephemeral_pub hs) (ih_used_otp hs)
                    (mkDm header ciphertext)))
      end
    end
  end.

(** The prekeys are changed even when the decryption then fails. *)
Definition accept (me : Identity) (init : InitMessage) (fresh : bytes)
    : Step PreKeySecrets DmError (Session * bytes) :=
  do! res_spk := responder me (im_ek_a_pub init) (im_ik_a_pub init) (im_used_otp init) in
  let '(res, spk_secret) := res_spk in
  let ratchet := init_bob (xr_sk res) spk_secret in
  λ prekeys,
    match decrypt fresh (dm_header (im_first init)) (dm_ciphertext (im_first init)) (xr_ad res) ratchet with
    | None => None
    | Some (Err e, _) => Some (Err e, prekeys)
    | Some (Ok plaintext, ratchet) => Some (Ok (mkSession ratchet (xr_ad res), plaintext), prekeys)
    end.

(** [self.ratchet.op(.., &self.ad)] *)
Definition on_ratchet {A} (op : bytes → Step Ratchet DmError A) : Step Session DmError A := λ self,
  match op (ss_ad self) (ss_ratchet self) with
  | None => None
  | Some (r, ratchet) => Some (r, mkSession ratchet (ss_ad self))
  end.

Definition session_encrypt (plaintext : bytes) : Step Session DmError DmMessage :=
  do! hc := on_ratchet (encrypt plaintext) in
  let '(header, ciphertext) := hc in
  st_ret (mkDm header ciphertext).

Definition session_decrypt (fresh : bytes) (msg : DmMessage) : Step Session DmError bytes :=
  on_ratchet (decrypt fresh (dm_header msg) (dm_ciphertext msg)).
End session.

(** ** Snapshots *)

Record SessionState := mkSessionState { st_ratchet : RatchetState; st_ad : bytes }.

Definition session_export (self : Session) : SessionState :=
  mkSessionState (ratchet_export (ss_ratchet self)) (ss_ad self).
Definition session_import (state : SessionState) : Session :=
  mkSession (ratchet_import (st_ratchet state)) (st_ad state).

Definition session_state_encode (self : SessionState) : bytes :=
  w_into_vec (w_new |> w_bytes (ratchet_state_encode (st_ratchet self)) |> w_bytes (st_ad self)).
Definition r_session_state : Read SessionState :=
  let! raw := r_bytes in
  let! ratchet := r_lift (ratchet_state_decode raw) in
  let! ad := r_bytes in
  let! _ := r_finish in
  r_ret (mkSessionState ratchet ad).
Definition session_state_decode (bs : bytes) : result SessionState WireError := run r_session_state bs.

(** ** Codec lemmas *)

Definition dm_ok (m : DmMessage) : Prop := header_ok (dm_header m) ∧ fits_u32 (dm_ciphertext m).
Definition init_ok (m : InitMessage) : Prop :=
  ok_len 32 (im_ik_a_pub m) ∧ ok_len 32 (im_ek_a_pub m) ∧ opt32_ok (im_used_otp m) ∧
  dm_ok (im_first m) ∧ fits_u32 (dm_encode (im_first m)).
Definition packet_ok (p : Packet) : Prop :=
  match p with
  | PInit m => init_ok m ∧ fits_u32 (init_encode m)
  | PMessage m => dm_ok m ∧ fits_u32 (dm_encode m)
  end.
Definition session_state_ok (s : SessionState) : Prop :=
  ratchet_state_ok (st_ratchet s) ∧ fits_u32 (ratchet_state_encode (st_ratchet s)) ∧ fits_u32 (st_ad s).

Lemma dm_encode_eq m : dm_encode m = header_encode (dm_header m) ++ lenp (dm_ciphertext m).
Proof. unfold dm_encode. by enc_norm. Qed.

Lemma dm_round m : dm_ok m → dm_decode (dm_encode m) = Ok m.
Proof.
  destruct m as [h c]. intros [Hh Hc]. cbn in Hh, Hc. eapply run_parse.
  rewrite dm_encode_eq, <- !app_assoc. cbn [dm_header dm_ciphertext]. unfold r_dm.
  assert (ok_len 40 (header_encode h)) as Hl by (apply header_encode_length, Hh).
  rewrite (r_bind_rd _ _ _ _ (header_encode h) _ _ (fixed_parses 40) Hl).
  rewrite (r_lift_ok _ _ h) by by apply header_round. parses. done.
Qed.

Lemma dm_canon bs m : dm_decode bs = Ok m → dm_ok m ∧ dm_encode m = bs.
Proof.
  intros [r' Hr]%run_canon. unfold r_dm in Hr. canons Hr.
  apply r_lift_canon in Hr as (h & [Hh Eh]%header_canon & Hr). canons Hr. injection Hr as <- _.
  split; [done|]. rewrite dm_encode_eq. cbn [dm_header dm_ciphertext]. rewrite Eh. unfold id. by rewrite app_nil_r.
Qed.

Lemma init_encode_eq m :
  init_encode m = im_ik_a_pub m ++ im_ek_a_pub m ++ enc_opt32 (im_used_otp m) ++ lenp (dm_encode (im_first m)).
Proof. unfold init_encode, enc_opt32. destruct (im_used_otp m); by enc_norm. Qed.

Lemma init_round m : init_ok m → init_decode (init_encode m) = Ok m.
Proof.
  destruct m as [a e o d]. intros (Ha & He & Ho & Hd & Hl). cbn in Ha, He, Ho, Hd, Hl. eapply run_parse.
  rewrite init_encode_eq, <- !app_assoc. cbn [im_ik_a_pub im_ek_a_pub im_used_otp im_first].
  unfold r_init. fold read_opt32. parses.
  rewrite (r_lift_ok _ _ d) by by apply dm_round. parses. done.
Qed.

Lemma init_canon bs m : init_decode bs = Ok m → init_ok m ∧ init_encode m = bs.
Proof.
  intros [r' Hr]%run_canon. unfold r_init in Hr. fold read_opt32 in Hr. canons Hr.
  apply r_lift_canon in Hr as (d & [Hd Ed]%dm_canon & Hr). canons Hr. injection Hr as <- _.
  split; [split_and!; cbn [im_ik_a_pub im_ek_a_pub im_used_otp im_first]; try done; by rewrite Ed|].
  rewrite init_encode_eq.
  cbn [im_ik_a_pub im_ek_a_pub im_used_otp im_first]. rewrite Ed. unfold id. by rewrite app_nil_r.
Qed.

Lemma packet_round p : packet_ok p → packet_decode (packet_encode p) = Ok p.
Proof.
  destruct p as [m|m]; intros [Hm Hl]; eapply run_parse; unfold packet_encode, r_packet; enc_norm;
    [refine (eq_trans (r_bind_rd _ _ _ _ 1%N _ _ u8_parses _) _)|
     refine (eq_trans (r_bind_rd _ _ _ _ 2%N _ _ u8_parses _) _)]; try done; cbn [N.eqb Pos.eqb];
    rewrite r_bind_assoc; parse1; rewrite r_bind_assoc.
  - rewrite (r_lift_ok _ _ m) by by apply init_round. unfold r_bind at 1, r_ret at 1. parses. done.
  - rewrite (r_lift_ok _ _ m) by by apply dm_round. unfold r_bind at 1, r_ret at 1. parses. done.
Qed.

Lemma packet_canon bs p : packet_decode bs = Ok p → packet_ok p ∧ packet_encode p = bs.
Proof.
  intros [r' Hr]%run_canon. unfold r_packet in Hr. canon1 Hr. unfold packet_ok, packet_encode.
  destruct (a =? 1)%N eqn:E1; [apply N.eqb_eq in E1 as ->|destruct (a =? 2)%N eqn:E2; [apply N.eqb_eq in E2 as ->|done]];
    rewrite r_bind_assoc in Hr; canon1 Hr; rewrite r_bind_assoc in Hr;
    [apply r_lift_canon in Hr as (m & [Hm Em]%init_canon & Hr)|apply r_lift_canon in Hr as (m & [Hm Em]%dm_canon & Hr)];
    unfold r_bind at 1, r_ret at 1 in Hr; canons Hr; injection Hr as <- _; rewrite Em;
    (split; [done|]); enc_norm; by rewrite app_nil_r.
Qed.

Lemma session_state_encode_eq s :
  session_state_encode s = lenp (ratchet_state_encode (st_ratchet s)) ++ lenp (st_ad s).
Proof. unfold session_state_encode. by enc_norm. Qed.

Lemma session_state_round s : session_state_ok s → session_state_decode (session_state_encode s) = Ok s.
Proof.
  destruct s as [r ad]. intros (Hr & Hl & Ha). cbn [st_ratchet st_ad] in *. eapply run_parse.
  rewrite session_state_encode_eq, <- !app_assoc. cbn [st_ratchet st_ad]. unfold r_session_state. parse1.
  rewrite (r_lift_ok _ _ r) by by apply ratchet_state_round. parses. done.
Qed.

Lemma session_state_canon bs s :
  session_state_decode bs = Ok s → session_state_ok s ∧ session_state_encode s = bs.
Proof.
  intros [r' Hr]%run_canon. unfold r_session_state in Hr. canon1 Hr.
  apply r_lift_canon in Hr as (x & [Hx Ex]%ratchet_state_canon & Hr). canons Hr. injection Hr as <- _.
  split; [split_and!; cbn [st_ratchet st_ad]; try done; by rewrite Ex|].
  rewrite session_state_encode_eq. cbn [st_ratchet st_ad]. rewrite Ex. by rewrite app_nil_r.
Qed.
