(* ===== verification/FileTransfer.v ===== *)
(** * Chunked encrypted files ([crates/dante-dm/src/file.rs])

    A file is cut into chunks, each sealed under the file key; the manifest
    carries the key, the digests of the sealed chunks and a signature. *)

From S2P Require Import Prelude Utf8 Enc Crypto X3dh.

Definition CHUNK_SIZE : N := 65536.
Definition MANIFEST_SIG_DOMAIN : bytes := lit "dante/file-manifest/v1".
Definition CHUNK_NONCE_DOMAIN : bytes := lit "dante-file-chunk".

Record FileManifest := mkManifest {
  fm_file_key : bytes;
  fm_filename : bytes;
  fm_total_size : N;
  fm_chunk_size : N;
  fm_chunk_hashes : list bytes;
  fm_sender_idk : bytes;
  fm_sig : bytes;
}.

#[global] Instance FileManifest_eq_dec : EqDecision FileManifest.
Proof. solve_decision. Defined.

(** [slice::chunks]: pieces of [n] elements, the last one shorter. *)
Fixpoint chunks_fuel (fuel n : nat) (l : bytes) : list bytes :=
  match fuel, l with
  | O, _ | _, [] => []
  | S f, _ => take n l :: chunks_fuel f n (drop n l)
  end.
Definition chunks (n : nat) (l : bytes) : list bytes := chunks_fuel (length l) n l.

(** Domain, four zero bytes, index. *)
Definition chunk_nonce (index : N) : bytes := CHUNK_NONCE_DOMAIN ++ replicate 4 x00 ++ be 4 index.

(** The bytes under the signature's digest. *)
Definition manifest_msg (file_key filename : bytes) (total_size chunk_size : N)
    (chunk_hashes : list bytes) : bytes :=
  w_into_vec (w_each w_fixed chunk_hashes
    (w_new |> w_fixed MANIFEST_SIG_DOMAIN |> w_fixed file_key |> w_string filename
       |> w_u64 total_size |> w_u32 chunk_size |> w_u32 (as_u32 (len chunk_hashes)))).

Section files.
Context `{CryptoPrims}.

Definition manifest_sig_challenge (file_key filename : bytes) (total_size chunk_size : N)
    (chunk_hashes : list bytes) : bytes :=
  sha256 (manifest_msg file_key filename total_size chunk_size chunk_hashes).

(** One chunk, sealed. *)
Definition seal_chunk (file_key : bytes) (i : nat) (part : bytes) : bytes :=
  xchacha_seal file_key (chunk_nonce (as_u32 (N.of_nat i))) part [].

(** [file_key] is the key drawn. *)
Definition build (sender : Identity) (filename plaintext file_key : bytes) : FileManifest * list bytes :=
  let cts := imap (seal_chunk file_key) (chunks (N.to_nat CHUNK_SIZE) plaintext) in
  let chunk_hashes := sha256 <$> cts in
  let total_size := len plaintext in
  let chunk_size := as_u32 CHUNK_SIZE in
  let sender_idk := identity_sign_public sender in
  let sig := identity_sign sender
               (manifest_sig_challenge file_key filename total_size chunk_size chunk_hashes) in
  (mkManifest file_key filename total_size chunk_size chunk_hashes sender_idk sig, cts).

Definition manifest_verify (self : FileManifest) : result unit DmError :=
  let? key := map_err (λ _, DE_FileIntegrity) (sign_public_from_bytes (fm_sender_idk self)) in
  map_err (λ _, DE_FileIntegrity)
    (sign_verify key
       (manifest_sig_challenge (fm_file_key self) (fm_filename self) (fm_total_size self)
          (fm_chunk_size self) (fm_chunk_hashes self))
       (fm_sig self)).

(** [for (i, ct) in chunks.iter().enumerate()]; [None] is an index out of
    bounds. *)
Fixpoint reassemble_loop (self : FileManifest) (i : nat) (cts : list bytes) (out : bytes)
    : option (result bytes DmError) :=
  match cts with
  | [] => Some (Ok out)
  | ct :: rest =>
    match fm_chunk_hashes self !! i with
    | None => None
    | Some h =>
      if bool_decide (sha256 ct ≠ h) then Some (Err DE_FileIntegrity)
      else match xchacha_open (fm_file_key self) (chunk_nonce (as_u32 (N.of_nat i))) ct [] with
           | Err _ => Some (Err DE_FileIntegrity)
           | Ok pt => reassemble_loop self (S i) rest (out ++ pt)
           end
    end
  end.

Definition reassemble (self : FileManifest) (ciphertext_chunks : list bytes)
    : option (result bytes DmError) :=
  match manifest_verify self with
  | Err e => Some (Err e)
  | Ok _ =>
    if negb (length ciphertext_chunks =? length (fm_chunk_hashes self))%nat
    then Some (Err DE_FileIntegrity)
    else if (sum_by len ciphertext_chunks <? fm_total_size self)%N
    then Some (Err DE_FileIntegrity)
    else match reassemble_loop self 0 ciphertext_chunks [] with
         | Some (Ok out) =>
           if negb (len out =? fm_total_size self)%N then Some (Err DE_FileIntegrity)
           else Some (Ok out)
         | r => r
         end
  end.

Definition blob_id (ciphertext_chunk : bytes) : bytes := sha256_parts [ciphertext_chunk].
End files.

(** ** Codec *)

Definition manifest_encode (self : FileManifest) : bytes :=
  w_into_vec (w_each w_fixed (fm_chunk_hashes self)
    (w_new |> w_fixed (fm_file_key self) |> w_string (fm_filename self)
       |> w_u64 (fm_total_size self) |> w_u32 (fm_chunk_size self)
       |> w_u32 (as_u32 (len (fm_chunk_hashes self))))
    |> w_fixed (fm_sender_idk self) |> w_fixed (fm_sig self)).

Definition r_manifest : Read FileManifest :=
  let! file_key := r_fixed 32 in
  let! filename := r_string in
  let! total_size := r_u64 in
  let! chunk_size := r_u32 in
  let! chunk_hashes := r_counted (r_fixed 32) in
  let! sender_idk := r_fixed 32 in
  let! sig := r_fixed 64 in
  let! _ := r_finish in
  r_ret (mkManifest file_key filename total_size chunk_size chunk_hashes sender_idk sig).
Definition manifest_decode (bs : bytes) : result FileManifest WireError := run r_manifest bs.

(** ** Lemmas *)

Definition hashes_ok (hs : list bytes) : Prop := ok_list (ok_len 32) hs.
Definition manifest_ok (m : FileManifest) : Prop :=
  ok_len 32 (fm_file_key m) ∧ ok_str (fm_filename m) ∧ ok_u64 (fm_total_size m) ∧
  ok_u32 (fm_chunk_size m) ∧ ok_list (ok_len 32) (fm_chunk_hashes m) ∧
  ok_len 32 (fm_sender_idk m) ∧ ok_len 64 (fm_sig m).

Lemma manifest_encode_eq m :
  manifest_encode m = fm_file_key m ++ lenp (fm_filename m) ++ be 8 (fm_total_size m) ++
    be 4 (fm_chunk_size m) ++ enc_list id (fm_chunk_hashes m) ++ fm_sender_idk m ++ fm_sig m.
Proof. unfold manifest_encode, enc_list. enc_norm. rewrite w_buf_fixeds. by enc_norm. Qed.

Lemma manifest_round m : manifest_ok m → manifest_decode (manifest_encode m) = Ok m.
Proof.
  destruct m. intros Hok. unfold manifest_ok in Hok. cbn in Hok. destruct_and! Hok.
  eapply run_parse. rewrite manifest_encode_eq, <- !app_assoc. cbn. unfold r_manifest. parses. done.
Qed.

Lemma manifest_canon bs m : manifest_decode bs = Ok m → manifest_ok m ∧ manifest_encode m = bs.
Proof.
  intros [r' Hr]%run_canon. unfold r_manifest in Hr. canons Hr. injection Hr as <- _.
  split; [done|]. rewrite manifest_encode_eq. cbn. unfold id. by rewrite app_nil_r.
Qed.

Lemma chunks_fuel_spec fuel n l :
  (0 < n)%nat → (length l ≤ fuel)%nat →
  mjoin (chunks_fuel fuel n l) = l ∧ Forall (λ c, (0 < length c ≤ n)%nat) (chunks_fuel fuel n l).
Proof.
  intros Hn. revert l. induction fuel as [|f IH]; intros [|x l] Hl; cbn in Hl; try (by split; constructor); [lia|].
  cbn [chunks_fuel]. destruct (IH (drop n (x :: l))) as [E F].
  { rewrite length_drop. cbn. lia. }
  split.
  - change (mjoin (take n (x :: l) :: chunks_fuel f n (drop n (x :: l)))) with
      (take n (x :: l) ++ mjoin (chunks_fuel f n (drop n (x :: l)))). by rewrite E, take_drop.
  - constructor; [|done]. rewrite length_take. cbn. lia.
Qed.

(** The chunks of a file put together are the file; none is empty or larger
    than the chunk size. *)
Lemma chunks_spec n l :
  (0 < n)%nat → mjoin (chunks n l) = l ∧ Forall (λ c, (0 < length c ≤ n)%nat) (chunks n l).
Proof. intros Hn. by apply chunks_fuel_spec. Qed.

Lemma chunk_nonce_inj i j :
  (i < 4294967296)%N → (j < 4294967296)%N → chunk_nonce i = chunk_nonce j → i = j.
Proof.
  intros Hi Hj E. unfold chunk_nonce in E. apply app_inv_head in E. apply app_inv_head in E.
  by apply be_inj in E.
Qed.

Lemma manifest_msg_eq k f t c hs :
  manifest_msg k f t c hs = MANIFEST_SIG_DOMAIN ++ k ++ lenp f ++ be 8 t ++ be 4 c ++ enc_list id hs.
Proof. unfold manifest_msg, enc_list. rewrite w_into_vec_buf, w_buf_fixeds. by enc_norm. Qed.

Section file_lemmas.
Context `{CryptoPrims}.

Lemma reassemble_loop_sound m i cts out res :
  reassemble_loop m i cts out = Some (Ok res) →
  (∀ j ct, cts !! j = Some ct → ∃ pt, fm_chunk_hashes m !! (i + j)%nat = Some (sha256 ct) ∧
     xchacha_open (fm_file_key m) (chunk_nonce (as_u32 (N.of_nat (i + j)))) ct [] = Ok pt).
Proof using Type.
  revert i out. induction cts as [|ct cts IH]; intros i out E j c Hj; [done|].
  cbn [reassemble_loop] in E. destruct (fm_chunk_hashes m !! i) as [h|] eqn:Eh; [|done].
  destruct (bool_decide _) eqn:Ed; [done|]. apply bool_decide_eq_false, dec_stable in Ed as <-.
  destruct (xchacha_open _ _ _ _) as [pt|] eqn:Eo; [|done].
  destruct j as [|j]; [injection Hj as <-; rewrite Nat.add_0_r; eauto|].
  replace (i + S j)%nat with (S i + j)%nat by lia. eapply IH; done.
Qed.

Lemma reassemble_loop_total m i cts out :
  (i + length cts ≤ length (fm_chunk_hashes m))%nat → reassemble_loop m i cts out ≠ None.
Proof using Type.
  revert i out. induction cts as [|ct cts IH]; intros i out Hl; [done|]. cbn [reassemble_loop length] in *.
  destruct (lookup_lt_is_Some_2 (fm_chunk_hashes m) i) as [h ->]; [lia|].
  case_bool_decide; [done|]. destruct (xchacha_open _ _ _ _); [|done]. apply IH. lia.
Qed.

Lemma reassemble_loop_built `{!AeadLaws} m i parts out hs :
  fm_chunk_hashes m = hs → (∀ j p, parts !! j = Some p →
    hs !! (i + j)%nat = Some (sha256 (seal_chunk (fm_file_key m) (i + j) p))) →
  reassemble_loop m i (imap (λ j, seal_chunk (fm_file_key m) (i + j)) parts) out =
  Some (Ok (out ++ mjoin parts)).
Proof.
  intros <-. revert i out. induction parts as [|p parts IH]; intros i out Hh.
  - cbn. by rewrite app_nil_r.
  - cbn [imap reassemble_loop]. pose proof (Hh 0%nat p eq_refl) as Hh0. rewrite Nat.add_0_r in *. rewrite Hh0.
    rewrite bool_decide_eq_false_2 by (intros Hx; by apply Hx).
    unfold xchacha_open, seal_chunk at 1, xchacha_seal. rewrite xchacha_open_seal. cbn [ok_or].
    rewrite (imap_ext _ (λ j, seal_chunk (fm_file_key m) (S i + j))).
    + rewrite IH; [by rewrite <- app_assoc|]. intros j q Hq.
      replace (S i + j)%nat with (i + S j)%nat by lia. by apply Hh.
    + intros j q _. unfold compose. f_equal. lia.
Qed.

Lemma imap_sum_len k (parts : list bytes) (f : nat → bytes → bytes) :
  (∀ i p, len (f i p) = (len p + k)%N) →
  (len (mjoin parts) ≤ sum_by len (imap f parts))%N.
Proof using Type.
  revert f. induction parts as [|p parts IH]; intros f Hf; [done|].
  change (mjoin (p :: parts)) with (p ++ mjoin parts). rewrite len_app. cbn [imap].
  change (sum_by len (f 0%nat p :: imap (f ∘ S) parts)) with (len (f 0%nat p) + sum_by len (imap (f ∘ S) parts))%N.
  specialize (IH (f ∘ S)). rewrite Hf. unfold compose in *. specialize (IH ltac:(intros; apply Hf)). lia.
Qed.
End file_lemmas.
