(* ===== verification/Content.v ===== *)
(** * Message contents ([crates/dante-dm/src/content.rs])

    The typed plaintext carried inside a session: 23 variants behind a tag. *)

From S2P Require Import Prelude Utf8 Enc Crypto ProtoRecord IdentityRecords Server Wire WireProofs X3dh FileTransfer.

Inductive Content : Type :=
  | CText (s : bytes)
  | CFile (m : FileManifest)
  | CChannel (b : bytes)
  | CTyping
  | CReaction (target_seq : N) (emoji : bytes) (remove : bool)
  | CCallOffer (s : bytes)
  | CCallAnswer (s : bytes)
  | CCallIce (s : bytes)
  | CCallEnd
  | CGroupCallWelcome (channel_id blob : bytes)
  | CGroupCallCommit (channel_id blob : bytes)
  | CGroupCallLeave (channel_id : bytes)
  | CGroupCallJoinRequest (channel_id : bytes)
  | CEdit (target_seq : N) (text : bytes)
  | CDelete (target_seq : N)
  | CReply (target_seq : N) (text : bytes)
  | CPin (target_seq : N) (unpin : bool)
  | CTextId (text id : bytes)
  | CDmEdit (target text : bytes)
  | CDmDelete (target : bytes)
  | CVoiceSignal (channel_id : bytes) (kind : N) (data : bytes)
  | CCallSignal (kind : N) (data : bytes)
  | CForward (origin text : bytes).

#[global] Instance Content_eq_dec : EqDecision Content.
Proof. solve_decision. Defined.

Definition content_encode (self : Content) : bytes :=
  let w := w_new in
  w_into_vec match self with
  | CText s => w |> w_u8 1 |> w_string s
  | CFile m => w |> w_u8 2 |> w_bytes (manifest_encode m)
  | CChannel b => w |> w_u8 3 |> w_bytes b
  | CTyping => w |> w_u8 4
  | CReaction target_seq emoji remove => w |> w_u8 5 |> w_u64 target_seq |> w_string emoji |> w_bool remove
  | CCallOffer s => w |> w_u8 6 |> w_string s
  | CCallAnswer s => w |> w_u8 7 |> w_string s
  | CCallIce s => w |> w_u8 8 |> w_string s
  | CCallEnd => w |> w_u8 9
  | CGroupCallWelcome channel_id blob => w |> w_u8 10 |> w_fixed channel_id |> w_bytes blob
  | CGroupCallCommit channel_id blob => w |> w_u8 11 |> w_fixed channel_id |> w_bytes blob
  | CGroupCallLeave channel_id => w |> w_u8 12 |> w_fixed channel_id
  | CEdit target_seq text => w |> w_u8 13 |> w_u64 target_seq |> w_string text
  | CDelete target_seq => w |> w_u8 14 |> w_u64 target_seq
  | CReply target_seq text => w |> w_u8 15 |> w_u64 target_seq |> w_string text
  | CPin target_seq unpin => w |> w_u8 16 |> w_u64 target_seq |> w_bool unpin
  | CTextId text id => w |> w_u8 17 |> w_string text |> w_fixed id
  | CDmEdit target text => w |> w_u8 18 |> w_fixed target |> w_string text
  | CDmDelete target => w |> w_u8 19 |> w_fixed target
  | CForward origin text => w |> w_u8 20 |> w_string origin |> w_string text
  | CGroupCallJoinRequest channel_id => w |> w_u8 21 |> w_fixed channel_id
  | CVoiceSignal channel_id kind data => w |> w_u8 22 |> w_fixed channel_id |> w_u8 kind |> w_string data
  | CCallSignal kind data => w |> w_u8 23 |> w_u8 kind |> w_string data
  end.

(** The arms of [Content::decode], by tag. *)
Definition r_content_body (tag : N) : Read Content :=
  match tag with
  | 1%N => let! s := r_string in r_ret (CText s)
  | 2%N => let! raw := r_bytes in let! m := r_lift (manifest_decode raw) in r_ret (CFile m)
  | 3%N => let! b := r_bytes in r_ret (CChannel b)
  | 4%N => r_ret CTyping
  | 5%N => let! target_seq := r_u64 in let! emoji := r_string in let! remove := r_bool in
           r_ret (CReaction target_seq emoji remove)
  | 6%N => let! s := r_string in r_ret (CCallOffer s)
  | 7%N => let! s := r_string in r_ret (CCallAnswer s)
  | 8%N => let! s := r_string in r_ret (CCallIce s)
  | 9%N => r_ret CCallEnd
  | 10%N => let! channel_id := r_fixed 32 in let! blob := r_bytes in r_ret (CGroupCallWelcome channel_id blob)
  | 11%N => let! channel_id := r_fixed 32 in let! blob := r_bytes in r_ret (CGroupCallCommit channel_id blob)
  | 12%N => let! channel_id := r_fixed 32 in r_ret (CGroupCallLeave channel_id)
  | 13%N => let! target_seq := r_u64 in let! text := r_string in r_ret (CEdit target_seq text)
  | 14%N => let! target_seq := r_u64 in r_ret (CDelete target_seq)
  | 15%N => let! target_seq := r_u64 in let! text := r_string in r_ret (CReply target_seq text)
  | 16%N => let! target_seq := r_u64 in let! unpin := r_bool in r_ret (CPin target_seq unpin)
  | 17%N => let! text := r_string in let! id := r_fixed 16 in r_ret (CTextId text id)
  | 18%N => let! target := r_fixed 16 in let! text := r_string in r_ret (CDmEdit target text)
  | 19%N => let! target := r_fixed 16 in r_ret (CDmDelete target)
  | 20%N => let! origin := r_string in let! text := r_string in r_ret (CForward origin text)
  | 21%N => let! channel_id := r_fixed 32 in r_ret (CGroupCallJoinRequest channel_id)
  | 22%N => let! channel_id := r_fixed 32 in let! kind := r_u8 in let! data := r_string in
            r_ret (CVoiceSignal channel_id kind data)
  | 23%N => let! kind := r_u8 in let! data := r_string in r_ret (CCallSignal kind data)
  | other => r_err (BadDiscriminant "dm::Content" other)
  end.

Definition r_content : Read Content :=
  let! tag := r_u8 in
  let! out := r_content_body tag in
  let! _ := r_finish in
  r_ret out.
Definition content_decode (bs : bytes) : result Content WireError := run r_content bs.

(** ** The codec *)

(** Fields of the Rust types, small enough for their length prefixes. *)
Definition content_ok (c : Content) : Prop :=
  match c with
  | CText s | CCallOffer s | CCallAnswer s | CCallIce s => ok_str s
  | CFile m => manifest_ok m ∧ fits_u32 (manifest_encode m)
  | CChannel b => fits_u32 b
  | CTyping | CCallEnd => True
  | CReaction t e _ => ok_u64 t ∧ ok_str e
  | CGroupCallWelcome c b | CGroupCallCommit c b => ok_len 32 c ∧ fits_u32 b
  | CGroupCallLeave c | CGroupCallJoinRequest c => ok_len 32 c
  | CEdit t s | CReply t s => ok_u64 t ∧ ok_str s
  | CDelete t | CPin t _ => ok_u64 t
  | CTextId s i => ok_str s ∧ ok_len 16 i
  | CDmEdit i s => ok_len 16 i ∧ ok_str s
  | CDmDelete i => ok_len 16 i
  | CVoiceSignal c k d => ok_len 32 c ∧ ok_u8 k ∧ ok_str d
  | CCallSignal k d => ok_u8 k ∧ ok_str d
  | CForward a b => ok_str a ∧ ok_str b
  end.

Definition content_tag (c : Content) : N :=
  match c with
  | CText _ => 1 | CFile _ => 2 | CChannel _ => 3 | CTyping => 4 | CReaction _ _ _ => 5
  | CCallOffer _ => 6 | CCallAnswer _ => 7 | CCallIce _ => 8 | CCallEnd => 9
  | CGroupCallWelcome _ _ => 10 | CGroupCallCommit _ _ => 11 | CGroupCallLeave _ => 12
  | CEdit _ _ => 13 | CDelete _ => 14 | CReply _ _ => 15 | CPin _ _ => 16 | CTextId _ _ => 17
  | CDmEdit _ _ => 18 | CDmDelete _ => 19 | CForward _ _ => 20 | CGroupCallJoinRequest _ => 21
  | CVoiceSignal _ _ _ => 22 | CCallSignal _ _ => 23
  end.

Definition content_body (c : Content) : bytes :=
  match c with
  | CText s | CCallOffer s | CCallAnswer s | CCallIce s => lenp s
  | CFile m => lenp (manifest_encode m)
  | CChannel b => lenp b
  | CTyping | CCallEnd => []
  | CReaction t e r => be 8 t ++ lenp e ++ enc_bool r
  | CGroupCallWelcome c b | CGroupCallCommit c b => c ++ lenp b
  | CGroupCallLeave c | CGroupCallJoinRequest c => c
  | CEdit t s | CReply t s => be 8 t ++ lenp s
  | CDelete t => be 8 t
  | CPin t u => be 8 t ++ enc_bool u
  | CTextId s i => lenp s ++ i
  | CDmEdit i s => i ++ lenp s
  | CDmDelete i => i
  | CVoiceSignal c k d => c ++ enc_u8 k ++ lenp d
  | CCallSignal k d => enc_u8 k ++ lenp d
  | CForward a b => lenp a ++ lenp b
  end.

Lemma content_encode_eq c : content_encode c = enc_u8 (content_tag c) ++ content_body c.
Proof. destruct c; unfold content_encode, content_tag, content_body; enc_norm; rewrite ?app_nil_r; done. Qed.

(** A manifest inside a length prefix. *)
#[export] Instance manifest_parses :
  Parses (let! raw := r_bytes in let! m := r_lift (manifest_decode raw) in r_ret m)
    (λ m, lenp (manifest_encode m)) (λ m, manifest_ok m ∧ fits_u32 (manifest_encode m)).
Proof.
  intros m pre post [Hm Hl]. parse1. unfold r_bind, r_lift. by rewrite manifest_round.
Qed.

Lemma content_body_parses c pre post :
  content_ok c →
  r_content_body (content_tag c) (rd pre (content_body c ++ post)) = Ok (c, rd (pre ++ content_body c) post).
Proof.
  destruct c; cbn [content_ok]; intros Hok; destruct_and?; unfold content_tag, content_body; cbn [r_content_body];
    rewrite <- ?app_assoc; parses;
    try (unfold r_bind at 1, r_lift at 1; rewrite manifest_round by done);
    unfold r_ret, Datatypes.id; rewrite <- ?app_assoc, ?app_nil_r; done.
Qed.

Lemma content_body_canon tag pre xs c rd' :
  r_content_body tag (rd pre xs) = Ok (c, rd') →
  content_ok c ∧ content_tag c = tag ∧
  ∃ post, xs = content_body c ++ post ∧ rd' = rd (pre ++ content_body c) post.
Proof.
  unfold r_content_body.
  repeat (case_match; try discriminate); intros Hp; canons Hp;
    try (apply r_lift_canon in Hp as (m & [Hm Em]%manifest_canon & Hp); rewrite <- Em in *);
    injection Hp as <- <-;
    (split; [cbn [content_ok]; auto|]); (split; [done|]);
    eexists; cbn [content_body]; unfold Datatypes.id;
    (split; [rewrite <- ?app_assoc; reflexivity|rewrite ?app_nil_r, <- ?app_assoc; done]).
Qed.

Lemma content_round c : content_ok c → content_decode (content_encode c) = Ok c.
Proof.
  intros Hok. rewrite content_encode_eq. apply message_round; [by destruct c|].
  intros pre post. by apply content_body_parses.
Qed.

Lemma content_canon bs c : content_decode bs = Ok c → content_ok c ∧ content_encode c = bs.
Proof.
  intros (tag & post & r' & _ & -> & Hm & H0)%message_canon.
  apply content_body_canon in Hm as (Hok & <- & p & -> & ->). split; [done|].
  rewrite r_remaining_rd in H0. apply nil_length_inv in H0 as ->.
  by rewrite content_encode_eq, app_nil_r.
Qed.
