(* ===== verification/IdentityIds.v ===== *)
(** * The text of identity ids
    ([crates/dante-identity/src/id.rs])

    An id is 32 bytes.  Its Crockford base32 form, read leniently, and the
    safety number of a pair of ids.  The form in words is the bip39 crate's
    and is left out.  SHA-512 is a parameter. *)

From S2P Require Import Prelude Utf8 Enc Crypto IdentityRecords FileTransfer.

(** [[u8; 32]] values are compared byte by byte, which on equal lengths is the
    order of the numbers they spell. *)
Definition bytes_le (a b : bytes) : bool := (of_be a <=? of_be b)%N.

(** [str::chars] *)
Definition chars (s : bytes) : list N := default [] (utf8_decode s).

(** [char::is_whitespace]: the property White_Space. *)
Definition is_whitespace (c : N) : bool :=
  ((9 <=? c) && (c <=? 13) || (c =? 32) || (c =? 133) || (c =? 160) || (c =? 5760)
   || ((8192 <=? c) && (c <=? 8202)) || (c =? 8232) || (c =? 8233) || (c =? 8239) || (c =? 8287) || (c =? 12288))%N.

Definition to_ascii_uppercase (c : N) : N := if ((97 <=? c) && (c <=? 122))%N then (c - 32)%N else c.

(** ** Crockford base32 *)
Definition CROCKFORD : bytes := lit "0123456789ABCDEFGHJKMNPQRSTVWXYZ".

Definition crockford_char (idx : N) : byte := nth (N.to_nat idx) CROCKFORD x00.

Definition push_symbol (symbols : nat) (idx : N) (out : bytes) : bytes :=
  (if (0 <? symbols)%nat && (symbols mod 4 =? 0)%nat then out ++ [x2d] else out) ++ [crockford_char idx].

(** A shift of a [u16] to the left drops the bits above. *)
Definition shl16 (a k : N) : N := (N.shiftl a k mod 65536)%N.

(** [while bits >= 5]: at most two rounds, as [bits] is below 13. *)
Fixpoint emit_symbols (fuel : nat) (acc bits : N) (symbols : nat) (out : bytes) : N * nat * bytes :=
  match fuel with
  | O => (bits, symbols, out)
  | S fuel =>
    if (5 <=? bits)%N then
      let bits := (bits - 5)%N in
      let idx := N.land (N.shiftr acc bits) 31 in
      emit_symbols fuel acc bits (S symbols) (push_symbol symbols idx out)
    else (bits, symbols, out)
  end.

Fixpoint encode_bytes (data : bytes) (acc bits : N) (symbols : nat) (out : bytes) : N * N * nat * bytes :=
  match data with
  | [] => (acc, bits, symbols, out)
  | byte :: data =>
    let acc := N.lor (shl16 acc 8) (b2n byte) in
    let '(bits, symbols, out) := emit_symbols 3 acc (bits + 8) symbols out in
    encode_bytes data acc bits symbols out
  end.

Definition crockford_encode_grouped (data : bytes) : bytes :=
  let '(acc, bits, symbols, out) := encode_bytes data 0 0 0 [] in
  if (0 <? bits)%N then push_symbol symbols (N.land (shl16 acc (5 - bits)) 31) out else out.

Definition crockford_symbol (c : N) : option N :=
  let up := to_ascii_uppercase c in
  let norm := if (up =? 79)%N then 48%N else if (up =? 73)%N || (up =? 76)%N then 49%N else up in
  N.of_nat <$> position (λ x, (b2n x =? norm)%N) CROCKFORD.

Definition is_separator (c : N) : bool := (c =? 45)%N || is_whitespace c.

Fixpoint decode_chars (cs : list N) (acc bits : N) (symbols : nat) (out : bytes) : option (N * N * nat * bytes) :=
  match cs with
  | [] => Some (acc, bits, symbols, out)
  | c :: cs =>
    if is_separator c then decode_chars cs acc bits symbols out
    else
      match crockford_symbol c with
      | None => None
      | Some val =>
        let acc := N.lor (shl16 acc 5) val in
        let bits := (bits + 5)%N in
        let symbols := S symbols in
        if (8 <=? bits)%N then
          let bits := (bits - 8)%N in decode_chars cs acc bits symbols (out ++ [n2b (N.shiftr acc bits)])
        else decode_chars cs acc bits symbols out
      end
  end.

Definition crockford_decode (s : bytes) : option bytes :=
  match decode_chars (chars s) 0 0 0 [] with
  | None => None
  | Some (acc, bits, symbols, out) =>
    if negb (symbols =? 52)%nat || negb (length out =? 32)%nat then None
    else if negb (bits =? 4)%N || negb (N.land acc 15 =? 0)%N then None
    else Some out
  end.

Definition to_base32 (id : bytes) : bytes := crockford_encode_grouped id.
Definition from_base32 (s : bytes) : result bytes IdentityError :=
  match crockford_decode s with
  | None => Err IE_BadFingerprint
  | Some bs => if (length bs =? 32)%nat then Ok bs else Err IE_BadFingerprint
  end.

(** ** Safety numbers *)
Class Sha512 : Type := { prim_sha512 : bytes → bytes; sha512_length m : length (prim_sha512 m) = 64%nat }.

(** [format!("{:05}", v % 100_000)] of five bytes, read big-endian *)
Definition five_digits (chunk : bytes) : bytes :=
  let v := (of_be chunk mod 100000)%N in
  (λ k, n2b (48 + v / k mod 10)%N) <$> [10000; 1000; 100; 10; 1]%N.

(** [join(" ")] *)
Fixpoint join_spaces (l : list bytes) : bytes :=
  match l with
  | [] => []
  | [s] => s
  | s :: l => s ++ x20 :: join_spaces l
  end.

Section safety.
Context `{Sha512}.

Definition SAFETY_DOMAIN : bytes := lit "DaNTe-safety-number-v1".
Definition ITERS : N := 5200.

Definition party_digits (lo hi me : bytes) : bytes :=
  let h := N.iter ITERS (λ h, prim_sha512 (h ++ me)) (prim_sha512 (SAFETY_DOMAIN ++ lo ++ hi ++ me)) in
  mjoin (five_digits <$> chunks 5 (take 30 h)).

Definition safety_number (a b : bytes) : bytes :=
  let '(lo, hi) := if bytes_le a b then (a, b) else (b, a) in
  join_spaces (chunks 5 (party_digits lo hi lo ++ party_digits lo hi hi)).
End safety.

Example base32_zero : to_base32 (replicate 32 x00) =
  lit "0000-0000-0000-0000-0000-0000-0000-0000-0000-0000-0000-0000-0000".
Proof. vm_compute. reflexivity. Qed.
