(* ===== verification/DmTheorems.v ===== *)
(** * Properties of direct messages: the ratchet, sessions, contents, files *)

From S2P Require Import Prelude Utf8 Enc Crypto X3dh Ratchet RatchetProofs Conversation Session FileTransfer Content.

Section ratchet.
Context `{CryptoPrims}.

(** C8: whatever two peers encrypt, they can decrypt. In every state the two
    ratchets can reach by sending any messages in both directions and
    delivering them in any order, each message that is still in flight
    decrypts to the text its sender encrypted, across any number of key
    changes, as long as its delivery stays within [MAX_SKIP] and the secret
    drawn for it is new. *)
Theorem ratchet_delivers `{!AgreeLaws, !AeadLaws} sk a0 spk ad w0 w m f :
  conv_start sk a0 spk w0 → rtc (conv_step ad) w0 w → m ∈ cv_wire w →
  in_gap (cv_peer w (negb (fl_from m))) (fl_header m) → fresh_key w f →
  ∃ r', decrypt f (fl_header m) (fl_ct m) ad (cv_peer w (negb (fl_from m))) = Some (Ok (fl_text m), r').
Proof.
  intros Hs Hr (l1 & l2 & Ew)%list_elem_of_split Hg Hf.
  pose proof (run_inv _ _ _ _ _ _ Hs Hr) as Hinv.
  destruct (deliver_inv ad w l1 m l2 f Hinv Ew Hg Hf) as (r' & E & _). eauto.
Qed.

(** C37: the ratchet keeps its types and its bounds. From a well-typed state,
    decrypting any message whatever never panics, leaves a well-typed state,
    whether it succeeds or fails, and retains at most [2 * MAX_SKIP] message
    keys more; the loop that skips keys always ends. Encrypting keeps the
    state well-typed, and both ways to start give such a state. *)
Theorem ratchet_well_typed `{!KdfLaws} r f h ct ad :
  ratchet_ok r → ok_len 32 f → header_ok h →
  (∃ res r', decrypt f h ct ad r = Some (res, r') ∧ ratchet_ok r' ∧
     (size (rt_skipped r') ≤ size (rt_skipped r) + 2 * N.to_nat MAX_SKIP)%nat) ∧
  (∀ text res r', encrypt text ad r = Some (res, r') → ratchet_ok r') ∧
  (∀ sk, ok_len 32 sk → ratchet_ok (init_bob sk f)) ∧
  (∀ sk r', init_alice f sk (hd_dh h) = Ok r' → ratchet_ok r').
Proof.
  intros Hr Hf Hh. split_and!; [by apply decrypt_ok|intros; by eapply encrypt_ok|intros; by apply init_bob_ok|].
  intros sk r' E. eapply init_alice_ok; [exact E|done|apply Hh].
Qed.

(** A message of the current chain at an index that was passed, and whose key
    is not kept, is opened under the next key. *)
Lemma decrypt_passed r h ct ad ck f :
  rt_ckr r = Some ck → rt_dhr r = Some (hd_dh h) → (rt_nr r + MAX_SKIP ≤ u32_max)%N →
  (hd_n h ≤ rt_nr r)%N → rt_skipped r !! (hd_dh h, hd_n h) = None →
  decrypt f h ct ad r =
    Some (open (mk_at ck 0) h ct ad, set_receiving (Some (next_ck ck)) (rt_nr r + 1) r).
Proof.
  intros Hc Hd Hroom Hn Hs. rewrite decrypt_now by done.
  rewrite bool_decide_eq_false_2 by (intros Hx; by apply Hx).
  assert (skip_message_keys (hd_n h) r = Some (Ok tt, r)) as Hskip.
  { unfold skip_message_keys, st_bind, st_get, st_reject, st_index. rewrite Hc, Hd.
    assert (wrap32 (rt_nr r + MAX_SKIP) = rt_nr r + MAX_SKIP)%N as ->.
    { apply N.mod_small. unfold u32_max in Hroom. lia. }
    destruct (_ <? hd_n h)%N eqn:E; [apply N.ltb_lt in E; unfold MAX_SKIP in E; lia|].
    replace (N.to_nat (hd_n h - rt_nr r)) with 0%nat by lia. cbn [skip_loop]. unfold st_modify.
    do 2 f_equal. destruct r; cbn in *. by rewrite Hc. }
  unfold st_bind, st_ret. rewrite Hskip, Hc. do 3 f_equal. apply N.mod_small.
  unfold MAX_SKIP, u32_max in Hroom. lia.
Qed.

(** a message that does not decrypt costs the key of one that would. The
    ratchet is changed before the ciphertext is authenticated: a replayed or
    forged message that names an old index of the current chain is opened
    under the next key, which is then gone, so that the genuine next message
    is opened under the key after its own. *)
Theorem replay_burns_key r h ct ad ck f h' ct' f' :
  rt_ckr r = Some ck → rt_dhr r = Some (hd_dh h) → (rt_nr r + 1 + MAX_SKIP ≤ u32_max)%N →
  (hd_n h < rt_nr r)%N → rt_skipped r !! (hd_dh h, hd_n h) = None →
  hd_dh h' = hd_dh h → hd_n h' = rt_nr r → rt_skipped r !! (hd_dh h, rt_nr r) = None →
  ∃ r', decrypt f h ct ad r = Some (open (mk_at ck 0) h ct ad, r') ∧
    fst <$> decrypt f' h' ct' ad r' = Some (open (mk_at ck 1) h' ct' ad).
Proof.
  intros Hc Hd Hroom Hn Hs Hd' Hn' Hs'. eexists. split; [apply decrypt_passed; try done; lia|].
  rewrite (decrypt_passed _ h' ct' ad (next_ck ck)); cbn [rt_ckr rt_dhr rt_nr rt_skipped set_receiving];
    rewrite ?Hd', ?Hn'; try done; try lia.
Qed.
End ratchet.

(** ** Sessions *)

Section session.
Context `{CryptoPrims}.

Lemma init_alice_counters f sk pub r : init_alice f sk pub = Ok r → rt_ns r = 0%N ∧ rt_pn r = 0%N.
Proof.
  unfold init_alice. destruct (agree f pub); [|done]. cbn [map_err result_bind].
  destruct (kdf_rk _ _). by intros [= <-].
Qed.

Lemma encrypt_header text ad r h ct r' :
  encrypt text ad r = Some (Ok (h, ct), r') → h = mkHeader (agree_public (rt_dhs r)) (rt_pn r) (rt_ns r).
Proof.
  unfold encrypt, st_bind, st_get, st_lift, st_modify, st_ret. destruct (rt_cks r) as [ck|]; [|done].
  cbn [ok_or]. destruct (kdf_ck ck), (message_keys _). by intros [= <- _ _].
Qed.

Lemma opening_accepted `{!AgreeLaws, !AeadLaws} me_a me_b secrets otps text ek a0 f sess init :
  let full := secrets_bundle secrets me_b in
  let spk_pub := agree_public (pks_spk secrets) in
  otps ⊆ pb_otps full →
  initiate me_a (with_otps otps full) text ek a0 = Some (Ok (sess, init)) →
  agree_public a0 ≠ spk_pub →
  agree_public f ∉ [agree_public a0; spk_pub] →
  is_ok (agree f (agree_public a0)) = true → is_ok (agree f spk_pub) = true →
  ∃ sess' secrets' sk w0 w,
    accept me_b init f secrets = Some (Ok (sess', text), secrets') ∧
    ss_ad sess' = ss_ad sess ∧
    conv_start sk a0 (pks_spk secrets) w0 ∧ rtc (conv_step (ss_ad sess)) w0 w ∧
    cv_peer w true = ss_ratchet sess ∧ cv_peer w false = ss_ratchet sess' ∧ cv_wire w = [].
Proof.
  cbv zeta. intros Hsub Hi Hne Hf Hf1 Hf2. unfold initiate in Hi.
  destruct (initiator me_a _ ek) as [hs|] eqn:Eh; [|done].
  destruct (handshake_agrees me_a me_b secrets otps ek hs Hsub Eh) as (secrets' & Er & _).
  change (pb_spk_pub (with_otps otps (secrets_bundle secrets me_b))) with (agree_public (pks_spk secrets)) in Hi.
  destruct (init_alice a0 _ _) as [A|] eqn:EA; [|done].
  destruct (encrypt text (xr_ad (ih_result hs)) A) as [[[[h ct]|] A']|] eqn:Ee; [|done..].
  injection Hi as <- <-. cbn [ss_ad ss_ratchet].
  set (ad := xr_ad (ih_result hs)) in *. set (sk := xr_sk (ih_result hs)) in *.
  pose proof (conv_begin sk a0 (pks_spk secrets) A EA Hne) as Hstart.
  set (w0 := mkConv _ _ _) in Hstart.
  destruct (init_alice_counters _ _ _ _ EA) as [Hns Hpn].
  pose proof (encrypt_header _ _ _ _ _ _ Ee) as Hh. rewrite Hns, Hpn in Hh.
  assert (Hs1 : conv_step ad w0 (mkConv (upd_peer true A' (cv_peer w0)) ([] ++ [mkFlight true h ct text]) (cv_keys w0))).
  { apply (cs_send ad w0 true text h ct A'); [exact Ee|]. cbn. by rewrite Hns. }
  set (w1 := mkConv _ ([] ++ _) _) in Hs1. pose proof (run_inv _ _ _ _ _ _ Hstart (rtc_once _ _ Hs1)) as Hinv.
  assert (Hfresh : fresh_key w1 f).
  { split; [exact Hf|]. intros k. cbn. intros [->|[->|[]%elem_of_nil]%elem_of_cons]%elem_of_cons; done. }
  assert (Hgap : in_gap (cv_peer w1 false) h).
  { right. rewrite Hh. split; [by vm_compute|]. rewrite bool_decide_eq_false_2 by done. by split; vm_compute. }
  destruct (deliver_inv ad w1 [] (mkFlight true h ct text) [] f Hinv eq_refl Hgap Hfresh) as (B & EB & _).
  exists (mkSession B ad), secrets', sk, w0. eexists. split_and!; [| |exact Hstart| | | |].
  - unfold accept, st_bind. cbn [im_ek_a_pub im_ik_a_pub im_used_otp im_first dm_header dm_ciphertext].
    rewrite Er. cbv beta iota zeta. fold sk ad. cbn [fl_from negb fl_header fl_ct fl_text] in EB.
    change (cv_peer w1 false) with (init_bob sk (pks_spk secrets)) in EB. by rewrite EB.
  - done.
  - eapply rtc_l; [exact Hs1|]. apply rtc_once. by eapply (cs_deliver ad w1 [] _ [] f).
  - done.
  - done.
  - done.
Qed.

(** A handshake opens a conversation. If a client opens a session against
    the responder's bundle, cut down to any part of its one-time prekeys,
    then the responder accepts the opening message, reads the text in it, and
    both sessions are in a state of the conversation that [ratchet_delivers]
    is about, with the same associated data. *)
Theorem session_opens `{!AgreeLaws, !AeadLaws} me_a me_b secrets otps text ek a0 f sess init :
  let full := secrets_bundle secrets me_b in
  let spk_pub := agree_public (pks_spk secrets) in
  otps ⊆ pb_otps full →
  initiate me_a (with_otps otps full) text ek a0 = Some (Ok (sess, init)) →
  agree_public a0 ≠ spk_pub →
  agree_public f ∉ [agree_public a0; spk_pub] →
  is_ok (agree f (agree_public a0)) = true → is_ok (agree f spk_pub) = true →
  ∃ sess' secrets' sk w0 w,
    accept me_b init f secrets = Some (Ok (sess', text), secrets') ∧
    ss_ad sess' = ss_ad sess ∧
    conv_start sk a0 (pks_spk secrets) w0 ∧ rtc (conv_step (ss_ad sess)) w0 w ∧
    cv_peer w true = ss_ratchet sess ∧ cv_peer w false = ss_ratchet sess' ∧ cv_wire w = [].
Proof. apply opening_accepted. Qed.
End session.

(** A session survives the local store. Restoring the snapshot of a
    well-typed session from its encoding gives the same session, so that a
    client that restarts goes on with the conversation where it was. *)
Theorem session_snapshot_roundtrip (s : Session) :
  ratchet_ok (ss_ratchet s) → fits_u32 (map_to_list (rt_skipped (ss_ratchet s))) →
  fits_u32 (ss_ad s) → fits_u32 (ratchet_state_encode (st_ratchet (session_export s))) →
  session_state_decode (session_state_encode (session_export s)) = Ok (session_export s) ∧
  session_import (session_export s) = s.
Proof.
  intros Hr Hl Ha He. split.
  - apply session_state_round. split; [by apply ratchet_export_ok|done].
  - destruct s as [r ad]. unfold session_import, session_export. cbn. by rewrite ratchet_import_export.
Qed.

(** Each structure of the direct-message protocol has one encoding:
    headers, packets (the opening handshake or a message), contents of all 23
    kinds, file manifests and session snapshots decode from their encoding,
    and what decodes is the encoding of the result. *)
Theorem dm_codecs_canonical :
  (∀ h, header_ok h → header_decode (header_encode h) = Ok h) ∧
  (∀ bs h, header_decode bs = Ok h → header_ok h ∧ header_encode h = bs) ∧
  (∀ p, packet_ok p → packet_decode (packet_encode p) = Ok p) ∧
  (∀ bs p, packet_decode bs = Ok p → packet_ok p ∧ packet_encode p = bs) ∧
  (∀ c, content_ok c → content_decode (content_encode c) = Ok c) ∧
  (∀ bs c, content_decode bs = Ok c → content_ok c ∧ content_encode c = bs) ∧
  (∀ m, manifest_ok m → manifest_decode (manifest_encode m) = Ok m) ∧
  (∀ bs m, manifest_decode bs = Ok m → manifest_ok m ∧ manifest_encode m = bs) ∧
  (∀ s, session_state_ok s → session_state_decode (session_state_encode s) = Ok s) ∧
  (∀ bs s, session_state_decode bs = Ok s → session_state_ok s ∧ session_state_encode s = bs).
Proof.
  split_and!; [apply header_round|apply header_canon|apply packet_round|apply packet_canon|
    apply content_round|apply content_canon|apply manifest_round|apply manifest_canon|
    apply session_state_round|apply session_state_canon].
Qed.

(** ** Files *)

Section files.
Context `{CryptoPrims}.

Lemma built_verifies `{!SignLaws} sender filename plaintext key :
  ok_len 32 (id_idk sender) → manifest_verify (build sender filename plaintext key).1 = Ok tt.
Proof.
  intros Hl. unfold manifest_verify, build. cbn. unfold sign_public_from_bytes, sign_verify.
  unfold identity_sign_public, identity_sign. rewrite vk_of_sk_ok by done. cbn. by rewrite sign_verifies.
Qed.

(** a file arrives as it was sent. Whatever the contents and the name,
    the chunks that [build] seals reassemble under its manifest to the
    original, and no chunk holds more than [CHUNK_SIZE] bytes of it. *)
Theorem file_roundtrip `{!SignLaws, !AeadLaws} sender filename plaintext key :
  ok_len 32 (id_idk sender) →
  let '(manifest, cts) := build sender filename plaintext key in
  reassemble manifest cts = Some (Ok plaintext) ∧
  Forall (λ ct, (len ct ≤ CHUNK_SIZE + 16)%N) cts.
Proof.
  intros Hl. pose proof (built_verifies sender filename plaintext key Hl) as Hv.
  destruct (build sender filename plaintext key) as [m cts] eqn:Eb. cbn [fst] in Hv.
  unfold build in Eb. injection Eb as Em Ec. set (parts := chunks _ plaintext) in *.
  destruct (chunks_spec (N.to_nat CHUNK_SIZE) plaintext) as [Hj Hp]; [unfold CHUNK_SIZE; lia|]. fold parts in Hj, Hp.
  assert (Hf : ∀ i p, len (seal_chunk key i p) = (len p + 16)%N).
  { intros i p. unfold len, seal_chunk, xchacha_seal. rewrite xchacha_seal_length. lia. }
  split.
  - unfold reassemble. rewrite Hv.
    assert (length cts = length (fm_chunk_hashes m)) as -> by (by rewrite <- Em; cbn; rewrite <- Ec, length_fmap).
    rewrite Nat.eqb_refl. cbn [negb].
    assert (fm_total_size m = len (mjoin parts)) as Ht by (by rewrite <- Em, Hj).
    pose proof (imap_sum_len 16 parts _ Hf) as Hsum. rewrite Ec in Hsum.
    destruct (_ <? _)%N eqn:E; [apply N.ltb_lt in E; lia|].
    rewrite <- Ec. change (seal_chunk key) with (λ j, seal_chunk key (0 + j)).
    replace key with (fm_file_key m) by (by rewrite <- Em).
    rewrite (reassemble_loop_built m 0 parts [] _ eq_refl).
    + rewrite app_nil_l, Ht, N.eqb_refl. cbn [negb]. by rewrite Hj.
    + intros j p Hj'. rewrite <- Em. cbn. rewrite list_lookup_fmap, list_lookup_imap, Hj'. done.
  - apply Forall_forall. intros ct Hin%list_elem_of_In. rewrite <- Ec in Hin.
    apply elem_of_lookup_imap in Hin as (i & p & -> & Hp'). rewrite Hf.
    apply list_elem_of_lookup_2 in Hp'. rewrite Forall_forall in Hp.
    apply list_elem_of_In, Hp in Hp'. unfold len in *. lia.
Qed.

(** a manifest fixes its file. Reassembling never panics; what it accepts
    is signed, has the announced size and has a ciphertext for each digest;
    and unless SHA-256 collides on two chunks, all accepted lists of chunks
    are the same list, so no store can serve another file. *)
Theorem manifest_fixes_file m cts cts' out out' :
  (∀ l, reassemble m l ≠ None) ∧
  (reassemble m cts = Some (Ok out) →
     manifest_verify m = Ok tt ∧ len out = fm_total_size m ∧ sha256 <$> cts = fm_chunk_hashes m) ∧
  (reassemble m cts = Some (Ok out) → reassemble m cts' = Some (Ok out') →
     collision_free (cts ++ cts') → cts = cts' ∧ out = out').
Proof.
  assert (Hok : ∀ cts out, reassemble m cts = Some (Ok out) →
    manifest_verify m = Ok tt ∧ len out = fm_total_size m ∧ sha256 <$> cts = fm_chunk_hashes m).
  { intros l o Hr. unfold reassemble in Hr. destruct (manifest_verify m) as [[]|]; [|done].
    destruct (length l =? length (fm_chunk_hashes m))%nat eqn:El; cbn [negb] in Hr; [|done]. apply Nat.eqb_eq in El.
    destruct (_ <? _)%N in Hr; [done|]. destruct (reassemble_loop m 0 l []) as [[o'|]|] eqn:Er; [|done..].
    destruct (len o' =? fm_total_size m)%N eqn:Eo; cbn [negb] in Hr; [|done]. apply N.eqb_eq in Eo.
    injection Hr as <-. split_and!; [done..|]. apply list_eq_same_length with (length l); [done|by rewrite length_fmap|].
    intros i x y Hi Hx Hy. apply list_lookup_fmap_Some in Hx as (ct & -> & Hct).
    destruct (reassemble_loop_sound _ _ _ _ _ Er i ct Hct) as (pt & Hh & _). cbn in Hh. congruence. }
  split_and!; [|apply Hok|].
  - intros l. unfold reassemble. destruct (manifest_verify m); [|done].
    destruct (length l =? length (fm_chunk_hashes m))%nat eqn:El; cbn [negb]; [|done]. apply Nat.eqb_eq in El.
    destruct (_ <? _)%N; [done|]. pose proof (reassemble_loop_total m 0 l []) as Ht.
    destruct (reassemble_loop m 0 l []) as [[o'|]|]; [by destruct (_ =? _)%N|done|]. by destruct Ht; [lia|].
  - intros H1 H2 Hcf. assert (cts = cts') as <-; [|split; [done|congruence]].
    apply Hok in H1 as (_ & _ & H1), H2 as (_ & _ & H2). rewrite <- H2 in H1. clear H2 Hok.
    revert cts' H1 Hcf. induction cts as [|c cts IH]; intros [|c' cts'] E Hcf; [done..|].
    injection E as Ec E. f_equal.
    + apply Hcf; [by left| |done]. apply elem_of_app. right. by left.
    + apply IH; [done|]. eapply collision_free_sub; [|exact Hcf].
      intros x [Hx|Hx]%elem_of_app; apply elem_of_app; [left|right]; by right.
Qed.
End files.

(** ** Witnesses *)

Module DmDemo.
#[local] Existing Instance Toy.prims.
Definition key (n : N) : bytes := replicate 32 (n2b n).
Definition ada : Identity := mkIdentity (key 1) (key 2).
Definition bob : Identity := mkIdentity (key 3) (key 4).
Definition bobs : PreKeySecrets := mkSecrets (key 5) [key 6; key 7].
Definition ad : bytes := lit "ada and bob".
Definition alice0 : Ratchet :=
  match init_alice (key 10) (key 9) (agree_public (key 5)) with Ok a => a | Err _ => init_bob [] [] end.
Definition w0 : Conv :=
  mkConv (λ p, if p then alice0 else init_bob (key 9) (key 5)) [] [agree_public (key 10); agree_public (key 5)].

Definition send (p : bool) (text : bytes) (w : Conv) : Conv :=
  match encrypt text ad (cv_peer w p) with
  | Some (Ok (h, ct), r') =>
      mkConv (upd_peer p r' (cv_peer w)) (cv_wire w ++ [mkFlight p h ct text]) (cv_keys w)
  | _ => w
  end.
Definition deliver (i : nat) (f : bytes) (w : Conv) : Conv :=
  match cv_wire w !! i with
  | Some m =>
    match decrypt f (fl_header m) (fl_ct m) ad (cv_peer w (negb (fl_from m))) with
    | Some (_, r') => mkConv (upd_peer (negb (fl_from m)) r' (cv_peer w))
                        (take i (cv_wire w) ++ drop (S i) (cv_wire w)) (agree_public f :: cv_keys w)
    | None => w
    end
  | None => w
  end.

Definition sends (w : Conv) (p : bool) (text : bytes) : bool :=
  match encrypt text ad (cv_peer w p) with Some (Ok _, _) => true | _ => false end
  && (rt_ns (cv_peer w p) <? u32_max)%N.
Definition fresh_keyb (w : Conv) (f : bytes) : bool :=
  negb (bool_decide (agree_public f ∈ cv_keys w)) && forallb (λ k, is_ok (agree f k)) (cv_keys w).
Definition in_gapb (r : Ratchet) (h : Header) : bool :=
  bool_decide (is_Some (rt_skipped r !! (hd_dh h, hd_n h))) ||
  ((rt_nr r + MAX_SKIP <=? u32_max)%N &&
   if bool_decide (rt_dhr r = Some (hd_dh h)) then (hd_n h <=? rt_nr r + MAX_SKIP)%N
   else ((hd_pn h <=? rt_nr r + MAX_SKIP)%N && (hd_n h <=? MAX_SKIP)%N)).
Definition delivers (w : Conv) (i : nat) (f : bytes) : bool :=
  match cv_wire w !! i with
  | Some m => in_gapb (cv_peer w (negb (fl_from m))) (fl_header m) && fresh_keyb w f &&
      match decrypt f (fl_header m) (fl_ct m) ad (cv_peer w (negb (fl_from m))) with Some _ => true | None => false end
  | None => false
  end.

(** Two messages from Ada, the second delivered first; Bob answers. *)
Definition w1 : Conv := send true (lit "one") (send true (lit "zero") w0).
Definition w2 : Conv := send false (lit "reply") (deliver 1 (key 20) w1).
Definition late : Flight := default (mkFlight true (mkHeader [] 0 0) [] []) (cv_wire w2 !! 0%nat).

(** Bob's state after the first message, and that message again. *)
Definition w3 : Conv := deliver 0 (key 20) w1.
Definition first : Flight := default (mkFlight true (mkHeader [] 0 0) [] []) (cv_wire w1 !! 0%nat).
Definition next : Flight := default (mkFlight true (mkHeader [] 0 0) [] []) (cv_wire w3 !! 0%nat).

Definition photo : bytes := lit "eleven bits of light".
End DmDemo.

Section witnesses.
Import Toy DmDemo.

Lemma fresh_keyb_ok w f : fresh_keyb w f = true → fresh_key w f.
Proof.
  unfold fresh_keyb, fresh_key. intros [Ha Hb]%andb_true_iff. apply negb_true_iff, bool_decide_eq_false in Ha.
  split; [done|]. rewrite List.forallb_forall in Hb. intros k Hk%list_elem_of_In. by apply Hb.
Qed.

Lemma in_gapb_ok r h : in_gapb r h = true → in_gap r h.
Proof.
  unfold in_gapb, in_gap. intros [Ha%bool_decide_eq_true|[Ha Hb]%andb_true_iff]%orb_true_iff; [by left|right].
  apply N.leb_le in Ha. split; [done|]. destruct (bool_decide _); [by apply N.leb_le|].
  apply andb_true_iff in Hb as [Hb Hc]. by apply N.leb_le in Hb, Hc.
Qed.

Lemma send_step p text w : sends w p text = true → conv_step ad w (send p text w).
Proof.
  unfold sends, send. intros [Ha Hb%N.ltb_lt]%andb_true_iff.
  destruct (encrypt text ad (cv_peer w p)) as [[[[h ct]|] r']|] eqn:E; try done. by eapply cs_send.
Qed.

Lemma deliver_step i f w : delivers w i f = true → conv_step ad w (deliver i f w).
Proof.
  unfold delivers, deliver. destruct (cv_wire w !! i) as [m|] eqn:El; [|done].
  intros [[Ha%in_gapb_ok Hb%fresh_keyb_ok]%andb_true_iff Hc]%andb_true_iff.
  destruct (decrypt _ _ _ _ _) as [[res r']|] eqn:E; [|done].
  eapply cs_deliver; [by rewrite take_drop_middle|done..|exact E].
Qed.

Lemma conv_demo_start : conv_start (key 9) (key 10) (key 5) w0.
Proof. apply (conv_begin (key 9) (key 10) (key 5) alice0); [vm_compute; reflexivity|vm_compute; discriminate]. Qed.

Lemma demo_w1 : rtc (conv_step ad) w0 w1.
Proof.
  eapply rtc_l; [apply (send_step true (lit "zero") w0); vm_compute; reflexivity|].
  apply rtc_once. apply send_step. vm_compute. reflexivity.
Qed.
Lemma demo_w2 : rtc (conv_step ad) w0 w2.
Proof.
  etrans; [apply demo_w1|].
  eapply rtc_l; [apply (deliver_step 1 (key 20) w1); vm_compute; reflexivity|].
  apply rtc_once. apply send_step. vm_compute. reflexivity.
Qed.

Lemma late_on_wire : late ∈ cv_wire w2.
Proof. apply (list_elem_of_lookup_2 _ 0). vm_compute. reflexivity. Qed.

Lemma ratchet_delivers_witness :
  fl_text late = lit "zero" ∧
  ∃ r', decrypt (key 30) (fl_header late) (fl_ct late) ad (cv_peer w2 (negb (fl_from late))) =
        Some (Ok (fl_text late), r').
Proof.
  assert (in_gapb (cv_peer w2 (negb (fl_from late))) (fl_header late) = true) as Hg by (vm_compute; reflexivity).
  assert (fresh_keyb w2 (key 30) = true) as Hf by (vm_compute; reflexivity).
  split; [vm_compute; reflexivity|].
  exact (ratchet_delivers (key 9) (key 10) (key 5) ad w0 w2 late (key 30) conv_demo_start demo_w2 late_on_wire
    (in_gapb_ok _ _ Hg) (fresh_keyb_ok _ _ Hf)).
Defined.

Lemma alice0_ok : ratchet_ok alice0.
Proof.
  apply (init_alice_ok (key 10) (key 9) (agree_public (key 5))); [vm_compute; reflexivity|vm_compute; reflexivity|].
  vm_compute. reflexivity.
Qed.

Lemma ratchet_well_typed_witness :
  ∃ res r', decrypt (key 20) (fl_header first) (lit "forged") ad alice0 = Some (res, r') ∧ ratchet_ok r' ∧
    (size (rt_skipped r') ≤ size (rt_skipped alice0) + 2 * N.to_nat MAX_SKIP)%nat.
Proof.
  refine (proj1 (ratchet_well_typed alice0 (key 20) (fl_header first) (lit "forged") ad alice0_ok eq_refl _)).
  split; [vm_compute; reflexivity|split; vm_compute; reflexivity].
Defined.

(** Ada's first message is replayed: her second is lost. *)
Definition bob3 : Ratchet := cv_peer w3 false.
Definition ck3 : bytes := default [] (rt_ckr bob3).

Lemma replay_burns_key_witness :
  ∃ r', decrypt (key 40) (fl_header first) (fl_ct first) ad bob3 = Some (Err DE_Decrypt, r') ∧
    fst <$> decrypt (key 41) (fl_header next) (fl_ct next) ad r' = Some (Err DE_Decrypt) ∧
    fst <$> decrypt (key 41) (fl_header next) (fl_ct next) ad bob3 = Some (Ok (lit "one")).
Proof.
  assert (open (mk_at ck3 0) (fl_header first) (fl_ct first) ad = Err DE_Decrypt) as E1 by (vm_compute; reflexivity).
  assert (open (mk_at ck3 1) (fl_header next) (fl_ct next) ad = Err DE_Decrypt) as E2 by (vm_compute; reflexivity).
  assert (fst <$> decrypt (key 41) (fl_header next) (fl_ct next) ad bob3 = Some (Ok (lit "one"))) as E3
    by (vm_compute; reflexivity).
  assert (rt_ckr bob3 = Some ck3) as H1 by (vm_compute; reflexivity).
  assert (rt_dhr bob3 = Some (hd_dh (fl_header first))) as H2 by (vm_compute; reflexivity).
  assert (rt_nr bob3 + 1 + MAX_SKIP ≤ u32_max)%N as H3 by (vm_compute; discriminate).
  assert (hd_n (fl_header first) < rt_nr bob3)%N as H4 by (vm_compute; reflexivity).
  assert (rt_skipped bob3 !! (hd_dh (fl_header first), hd_n (fl_header first)) = None) as H5 by (vm_compute; reflexivity).
  assert (hd_dh (fl_header next) = hd_dh (fl_header first)) as H6 by (vm_compute; reflexivity).
  assert (hd_n (fl_header next) = rt_nr bob3) as H7 by (vm_compute; reflexivity).
  assert (rt_skipped bob3 !! (hd_dh (fl_header first), rt_nr bob3) = None) as H8 by (vm_compute; reflexivity).
  destruct (replay_burns_key bob3 (fl_header first) (fl_ct first) ad ck3 (key 40) (fl_header next) (fl_ct next)
    (key 41) H1 H2 H3 H4 H5 H6 H7 H8) as (r' & D1 & D2).
  rewrite E1 in D1. rewrite E2 in D2. exact (ex_intro _ r' (conj D1 (conj D2 E3))).
Defined.

(** What a relay hands out second: only Bob's second one-time prekey. *)
Definition second : list (bytes * bytes) := drop 1 (pb_otps (secrets_bundle bobs bob)).
Definition opened : option (result (Session * InitMessage) DmError) :=
  initiate ada (with_otps second (secrets_bundle bobs bob)) (lit "hi bob") (key 8) (key 10).
Definition opened_session : Session :=
  match opened with Some (Ok (s, _)) => s | _ => mkSession (init_bob [] []) [] end.
Definition opened_init : InitMessage :=
  match opened with Some (Ok (_, i)) => i | _ => mkInitMessage [] [] None (mkDm (mkHeader [] 0 0) []) end.

Lemma session_opens_witness :
  ∃ sess' secrets', accept bob opened_init (key 20) bobs = Some (Ok (sess', lit "hi bob"), secrets') ∧
    ss_ad sess' = ss_ad opened_session.
Proof.
  assert (second ⊆ pb_otps (secrets_bundle bobs bob)) as H1.
  { intros p Hp. unfold second in Hp. rewrite <- (take_drop 1 (pb_otps _)). apply elem_of_app. by right. }
  assert (initiate ada (with_otps second (secrets_bundle bobs bob)) (lit "hi bob") (key 8) (key 10) =
          Some (Ok (opened_session, opened_init))) as H2 by (vm_compute; reflexivity).
  assert (agree_public (key 10) ≠ agree_public (pks_spk bobs)) as H3 by (vm_compute; discriminate).
  assert (agree_public (key 20) ∉ [agree_public (key 10); agree_public (pks_spk bobs)]) as H4.
  { apply (bool_decide_eq_false_1 (_ ∈ _)). vm_compute. reflexivity. }
  assert (is_ok (agree (key 20) (agree_public (key 10))) = true) as H5 by (vm_compute; reflexivity).
  assert (is_ok (agree (key 20) (agree_public (pks_spk bobs))) = true) as H6 by (vm_compute; reflexivity).
  destruct (session_opens ada bob bobs second (lit "hi bob") (key 8) (key 10) (key 20) opened_session opened_init
    H1 H2 H3 H4 H5 H6) as (s' & p' & _ & _ & _ & E & Ea & _).
  exact (ex_intro _ s' (ex_intro _ p' (conj E Ea))).
Defined.

Lemma session_snapshot_roundtrip_witness :
  session_state_decode (session_state_encode (session_export (mkSession alice0 ad))) =
    Ok (session_export (mkSession alice0 ad)) ∧
  session_import (session_export (mkSession alice0 ad)) = mkSession alice0 ad.
Proof.
  assert (fits_u32 (map_to_list (rt_skipped alice0))) as H1 by (vm_compute; reflexivity).
  assert (fits_u32 ad) as H2 by (vm_compute; reflexivity).
  assert (fits_u32 (ratchet_state_encode (st_ratchet (session_export (mkSession alice0 ad))))) as H3
    by (vm_compute; reflexivity).
  exact (session_snapshot_roundtrip (mkSession alice0 ad) alice0_ok H1 H2 H3).
Defined.

Lemma file_roundtrip_witness :
  length (build ada (lit "photo.jpg") photo (key 9)).2 = 1%nat ∧
  reassemble (build ada (lit "photo.jpg") photo (key 9)).1 (build ada (lit "photo.jpg") photo (key 9)).2 =
    Some (Ok photo).
Proof.
  split; [vm_compute; reflexivity|].
  pose proof (file_roundtrip ada (lit "photo.jpg") photo (key 9) eq_refl) as Hr.
  destruct (build ada (lit "photo.jpg") photo (key 9)) as [m cts]. exact (proj1 Hr).
Defined.
End witnesses.
