(* ===== verification/Roles.v ===== *)
(** * Server roles and permissions ([crates/dante-core/src/roles.rs])

    A server's whole role configuration is one signed policy.  Its body has
    optional tail sections, each written when it or a later one is non-empty,
    and a flag in the role count that says whether entries carry icons. *)

From S2P Require Import Prelude Utf8 Enc Crypto ProtoRecord IdentityRecords X3dh Mailbox.

(** ** Errors of the crate ([error.rs], [store.rs]) *)

(** An I/O error is kept as its text. *)
Inductive StoreError : Type :=
  | StIo (what : string)
  | StMalformed
  | StDecrypt
  | StPayload (e : WireError).
Inductive CoreError : Type :=
  | CoNet (e : NetError)
  | CoDm (e : DmError)
  | CoIdentity (e : IdentityError)
  | CoCrypto (e : CryptoError)
  | CoWire (e : WireError)
  | CoUnknownPeer
  | CoNoPrekeys
  | CoBadPeerPrekeys
  | CoNoSession
  | CoUnknownChannel
  | CoNotServerHost
  | CoMissingBlob
  | CoStore (e : StoreError)
  | CoInvite (what : string)
  | CoChannel (what : string)
  | CoMessage (what : string)
  | CoBlocked
  | CoVoice (what : string)
  | CoP2p (what : string)
  | CoPow (what : string).

#[global] Instance StoreError_eq_dec : EqDecision StoreError.
Proof. solve_decision. Defined.


(** ** Permissions *)

Definition PERM_SEND : N := N.shiftl 1 0.
Definition PERM_KICK : N := N.shiftl 1 1.
Definition PERM_MANAGE_CHANNELS : N := N.shiftl 1 2.
Definition PERM_MANAGE_ROLES : N := N.shiftl 1 3.
Definition PERM_INVITE : N := N.shiftl 1 4.
Definition PERM_BAN : N := N.shiftl 1 5.
Definition PERM_ALL : N := u32_max.
Definition PERM_DEFAULT : N := PERM_SEND.

Definition POLICY_SIG_DOMAIN : bytes := lit "dante/server-policy/v1".
Definition EMOJI_NAME_MAX : N := 32.
Definition NICKNAME_MAX : N := 32.
Definition ROLE_ICON_FLAG : N := N.shiftl 1 31.

Definition valid_nickname (name : bytes) : bool :=
  negb (bool_decide (name = [])) && (len name <=? NICKNAME_MAX)%N && no_control_chars name.

(** [a-z0-9_] *)
Definition emoji_byte (b : byte) : bool :=
  let v := b2n b in
  ((97 <=? v) && (v <=? 122) || ((48 <=? v) && (v <=? 57)) || (v =? 95))%N.
Definition valid_emoji_name (name : bytes) : bool :=
  negb (bool_decide (name = [])) && (len name <=? EMOJI_NAME_MAX)%N && forallb emoji_byte name.

(** ** Data *)

Record Role := mkRole {
  rl_id : N;
  rl_name : bytes;
  rl_allow : N;
  rl_deny : N;
  rl_rank : N;
  rl_icon : option bytes;
}.

Record ServerPolicy := mkPolicy {
  sp_server_root : bytes;
  sp_owner_id : bytes;
  sp_version : N;
  sp_roles : list Role;
  sp_assignments : list (bytes * list N);
  sp_emojis : list (bytes * bytes);
  sp_stickers : list (bytes * bytes);
  sp_sounds : list (bytes * bytes);
  sp_nicknames : list (bytes * bytes);
  sp_issued_ms : N;
  sp_sig : bytes;
}.

#[global] Instance Role_eq_dec : EqDecision Role.
Proof. solve_decision. Defined.
#[global] Instance ServerPolicy_eq_dec : EqDecision ServerPolicy.
Proof. solve_decision. Defined.

(** ** Queries *)

(** [iter().find(|(n, _)| n == name).map(|(_, h)| h)] *)
Definition find_named (name : bytes) (l : list (bytes * bytes)) : option bytes :=
  snd <$> find (λ p, bool_decide (p.1 = name)) l.

Definition emoji_hash (self : ServerPolicy) (name : bytes) : option bytes := find_named name (sp_emojis self).
Definition sound_hash (self : ServerPolicy) (name : bytes) : option bytes := find_named name (sp_sounds self).
Definition sticker_hash (self : ServerPolicy) (name : bytes) : option bytes := find_named name (sp_stickers self).
Definition nickname_of (self : ServerPolicy) (member : bytes) : option bytes :=
  find_named member (sp_nicknames self).

(** The role ids assigned to a member: those of the first entry. *)
Definition assigned (self : ServerPolicy) (member : bytes) : option (list N) :=
  snd <$> find (λ p, bool_decide (p.1 = member)) (sp_assignments self).

Definition effective_perms (self : ServerPolicy) (member : bytes) : N :=
  if bool_decide (member = sp_owner_id self) then PERM_ALL
  else
    let '(allow, deny) :=
      match assigned self member with
      | Some ids =>
        foldl (λ '(allow, deny) i,
          match find (λ r, (rl_id r =? i)%N) (sp_roles self) with
          | Some role => (N.lor allow (rl_allow role), N.lor deny (rl_deny role))
          | None => (allow, deny)
          end) (0%N, 0%N) ids
      | None => (0%N, 0%N)
      end in
    N.ldiff (N.lor PERM_DEFAULT allow) deny.

(** [Iterator::max_by_key]: of several maxima, the last one. *)
Definition max_by_key {A} (key : A → N) (l : list A) : option A :=
  foldl (λ best x, match best with
                   | Some b => if (key b <=? key x)%N then Some x else Some b
                   | None => Some x
                   end) None l.

Definition top_role_name (self : ServerPolicy) (member : bytes) : option bytes :=
  if bool_decide (member = sp_owner_id self) then Some (lit "Owner")
  else
    ids ← assigned self member;
    rl_name <$> max_by_key rl_rank (List.filter (λ r, bool_decide (rl_id r ∈ ids)) (sp_roles self)).

(** ** Encoding *)

Definition role_write (with_icons : bool) (self : Role) (w : Writer) : Writer :=
  let w := w |> w_u16 (rl_id self) |> w_string (rl_name self) |> w_u32 (rl_allow self)
             |> w_u32 (rl_deny self) |> w_u16 (rl_rank self) in
  if with_icons then
    match rl_icon self with
    | Some icon => w |> w_bool true |> w_string icon
    | None => w |> w_bool false
    end
  else w.

Definition w_assignment (p : bytes * list N) (w : Writer) : Writer :=
  w_each w_u16 p.2 (w |> w_fixed p.1 |> w_u32 (as_u32 (len p.2))).
Definition w_named (p : bytes * bytes) (w : Writer) : Writer := w |> w_string p.1 |> w_fixed p.2.
Definition w_nickname (p : bytes * bytes) (w : Writer) : Writer := w |> w_fixed p.1 |> w_string p.2.

Definition nonempty {A} (l : list A) : bool := negb (length l =? 0)%nat.
Definition has_icons (roles : list Role) : bool :=
  existsb (λ r, match rl_icon r with Some _ => true | None => false end) roles.

(** [w.u32(list.len()); for x in list { .. }] *)
Definition w_section {A} (f : A → Writer → Writer) (l : list A) (w : Writer) : Writer :=
  w_each f l (w |> w_u32 (as_u32 (len l))).

Definition policy_body (self : ServerPolicy) : bytes :=
  let w := w_new |> w_fixed (sp_server_root self) |> w_fixed (sp_owner_id self)
             |> w_u64 (sp_version self) |> w_u64 (sp_issued_ms self) in
  let with_icons := has_icons (sp_roles self) in
  let count := as_u32 (len (sp_roles self)) in
  let w := w_u32 (if with_icons then N.lor count ROLE_ICON_FLAG else count) w in
  let w := w_each (role_write with_icons) (sp_roles self) w in
  let w := w_section w_assignment (sp_assignments self) w in
  let w := if nonempty (sp_emojis self) || nonempty (sp_stickers self) || nonempty (sp_sounds self)
              || nonempty (sp_nicknames self)
           then w_section w_named (sp_emojis self) w else w in
  let w := if nonempty (sp_stickers self) || nonempty (sp_sounds self) || nonempty (sp_nicknames self)
           then w_section w_named (sp_stickers self) w else w in
  let w := if nonempty (sp_sounds self) || nonempty (sp_nicknames self)
           then w_section w_named (sp_sounds self) w else w in
  let w := if nonempty (sp_nicknames self) then w_section w_nickname (sp_nicknames self) w else w in
  w_into_vec w.

Definition policy_encode (self : ServerPolicy) : bytes :=
  w_into_vec (w_new |> w_bytes (policy_body self) |> w_fixed (sp_sig self)).

(** ** Decoding *)

(** [bounded(r, min)] and the loop that follows it. *)
Definition r_bounded {A} (min_elem_bytes : nat) (m : Read A) : Read (list A) :=
  let! n := r_u32 in λ r,
  if (N.of_nat (r_remaining r / Nat.max min_elem_bytes 1) <? n)%N then Err (LengthTooLarge n)
  else r_repeat (N.to_nat n) m r.

Definition role_read (with_icons : bool) : Read Role :=
  let! id := r_u16 in
  let! name := r_string in
  let! allow := r_u32 in
  let! deny := r_u32 in
  let! rank := r_u16 in
  let! has := (if with_icons then r_bool else r_ret false) in
  let! icon := (if has : bool then let! s := r_string in r_ret (Some s) else r_ret None) in
  r_ret (mkRole id name allow deny rank icon).

(** [MIN_ROLE_BYTES], [MIN_ASSIGNMENT_BYTES], [MIN_NAMED_ENTRY_BYTES]. *)
Definition MIN_ROLE_BYTES : nat := 16.
Definition MIN_ASSIGNMENT_BYTES : nat := 32 + 4.
Definition MIN_NAMED_ENTRY_BYTES : nat := 4 + 32.

Definition r_roles : Read (list Role) :=
  let! raw := r_u32 in
  let with_icons := negb (N.land raw ROLE_ICON_FLAG =? 0)%N in
  let nr := N.ldiff raw ROLE_ICON_FLAG in
  λ r, if (N.of_nat (r_remaining r / MIN_ROLE_BYTES) <? nr)%N then Err (LengthTooLarge nr)
       else r_repeat (N.to_nat nr) (role_read with_icons) r.

Definition r_assignment : Read (bytes * list N) := r_pair (r_fixed 32) (r_bounded 2 r_u16).

(** A name that must be a shortcode, with a hash. *)
Definition r_named (what : string) : Read (bytes * bytes) :=
  let! name := r_string in
  if negb (valid_emoji_name name) then r_err (Invalid what)
  else let! hash := r_fixed 32 in r_ret (name, hash).
Definition r_nickname : Read (bytes * bytes) :=
  let! member := r_fixed 32 in
  let! nick := r_string in
  if negb (valid_nickname nick) then r_err (Invalid "nickname") else r_ret (member, nick).

(** A tail section is read while bytes remain. *)
Definition r_section {A} (m : Read A) : Read (list A) :=
  let! more := r_more in
  if more : bool then r_bounded MIN_NAMED_ENTRY_BYTES m else r_ret [].

Definition icon_ok (emojis : list (bytes * bytes)) (role : Role) : bool :=
  match rl_icon role with
  | Some icon => valid_emoji_name icon && existsb (λ p, bool_decide (p.1 = icon)) emojis
  | None => true
  end.

Definition r_policy_body (sig : bytes) : Read ServerPolicy :=
  let! server_root := r_fixed 32 in
  let! owner_id := r_fixed 32 in
  let! version := r_u64 in
  let! issued_ms := r_u64 in
  let! roles := r_roles in
  let! assignments := r_bounded MIN_ASSIGNMENT_BYTES r_assignment in
  let! emojis := r_section (r_named "emoji shortcode") in
  if negb (forallb (icon_ok emojis) roles) then r_err (Invalid "role icon") else
  let! stickers := r_section (r_named "sticker name") in
  let! sounds := r_section (r_named "sound name") in
  let! nicknames := r_section r_nickname in
  let! _ := r_finish in
  r_ret (mkPolicy server_root owner_id version roles assignments emojis stickers sounds nicknames
           issued_ms sig).

Definition r_policy : Read ServerPolicy :=
  let! body := r_bytes in
  let! sig := r_fixed SIG_LEN in
  let! _ := r_finish in
  r_lift (run (r_policy_body sig) body).
Definition policy_decode (bs : bytes) : result ServerPolicy WireError := run r_policy bs.

(** ** Signing *)

Section policy.
Context `{CryptoPrims}.

Definition policy_challenge (body : bytes) : bytes := sha256 (POLICY_SIG_DOMAIN ++ body).

Definition with_sig (sig : bytes) (p : ServerPolicy) : ServerPolicy :=
  mkPolicy (sp_server_root p) (sp_owner_id p) (sp_version p) (sp_roles p) (sp_assignments p)
    (sp_emojis p) (sp_stickers p) (sp_sounds p) (sp_nicknames p) (sp_issued_ms p) sig.

(** [root] is the server's signing secret. *)
Definition policy_signed (root owner_id : bytes) (version : N) (roles : list Role)
    (assignments : list (bytes * list N)) (emojis stickers sounds nicknames : list (bytes * bytes))
    (now_ms : N) : ServerPolicy :=
  let p := mkPolicy (prim_vk_of_sk root) owner_id version roles assignments emojis stickers sounds
             nicknames now_ms (replicate SIG_LEN x00) in
  with_sig (prim_sign root (policy_challenge (policy_body p))) p.

Definition policy_genesis (root owner_id : bytes) (now_ms : N) : ServerPolicy :=
  policy_signed root owner_id 1 [] [] [] [] [] [] now_ms.

Definition policy_verify (self : ServerPolicy) : result unit CoreError :=
  let? pk := map_err (λ _, CoChannel "bad server key in policy")
               (sign_public_from_bytes (sp_server_root self)) in
  map_err (λ _, CoChannel "bad policy signature")
    (sign_verify pk (policy_challenge (policy_body self)) (sp_sig self)).
End policy.
