(* ===== verification/RolesProofs.v ===== *)
(** * The roles policy: what its codec accepts *)

From S2P Require Import Prelude Utf8 Enc Crypto ProtoRecord IdentityRecords Server X3dh Mailbox Roles.

(** ** Lists bounded by the size of their elements *)

Section bounded.
Context {A : Type} (k : nat) (m : Read A) (enc : A → bytes) (ok : A → Prop).

Lemma bounded_parses `{!Parses m enc ok} :
  (∀ a, ok a → (Nat.max k 1 ≤ length (enc a))%nat) → Parses (r_bounded k m) (enc_list enc) (ok_list ok).
Proof.
  intros Hk l pre post [Hf Hl]. unfold r_bounded, enc_list. rewrite <- app_assoc.
  rewrite (r_bind_rd _ _ _ _ _ _ _ u32_parses) by apply as_u32_ok.
  rewrite r_remaining_rd, (as_u32_fits l Hf), length_app.
  assert (Hle : (Nat.max k 1 * length l ≤ length (mjoin (enc <$> l)))%nat).
  { clear Hf. induction Hl as [|a l Ha _ IH]; [cbn; lia|]. rewrite join_cons, length_app. cbn [length].
    specialize (Hk a Ha). lia. }
  destruct (_ <? _)%N eqn:E.
  - apply N.ltb_lt in E. exfalso. unfold len in E.
    assert (length l ≤ (length (mjoin (enc <$> l)) + length post) / Nat.max k 1)%nat; [|lia].
    apply Nat.div_le_lower_bound; lia.
  - unfold len at 1. rewrite Nat2N.id. rewrite (repeat_parses m enc ok l) by done. by rewrite <- app_assoc.
Qed.

Lemma bounded_canon `{!Canon m enc ok} : Canon (r_bounded k m) (enc_list enc) (ok_list ok).
Proof.
  intros pre xs l r H. apply (r_bind_canon _ (be 4) ok_u32) in H; [|apply _].
  destruct H as (n & post & Hn & -> & H). rewrite r_remaining_rd in H.
  destruct (_ <? _)%N eqn:E in H; [done|].
  destruct (repeat_canon m enc ok _ _ _ _ _ H) as (Hln & Hl & post' & -> & ->).
  assert (Hlen : len l = n) by (unfold len; rewrite Hln; lia).
  assert (Hf : fits_u32 l) by (unfold fits_u32; by rewrite Hlen).
  split; [done|]. exists post'. unfold enc_list. rewrite (as_u32_fits l Hf), Hlen. by rewrite <- !app_assoc.
Qed.
End bounded.

(** ** Elements *)

Definition role_ok (r : Role) : Prop :=
  ok_u16 (rl_id r) ∧ ok_str (rl_name r) ∧ ok_u32 (rl_allow r) ∧ ok_u32 (rl_deny r) ∧
  ok_u16 (rl_rank r) ∧ match rl_icon r with Some i => ok_str i | None => True end.
Definition assignment_ok (p : bytes * list N) : Prop := ok_len 32 p.1 ∧ ok_list ok_u16 p.2.
Definition named_ok (p : bytes * bytes) : Prop :=
  ok_str p.1 ∧ valid_emoji_name p.1 = true ∧ ok_len 32 p.2.
Definition nickname_ok (p : bytes * bytes) : Prop :=
  ok_len 32 p.1 ∧ ok_str p.2 ∧ valid_nickname p.2 = true.

Definition enc_role (with_icons : bool) (r : Role) : bytes :=
  be 2 (rl_id r) ++ lenp (rl_name r) ++ be 4 (rl_allow r) ++ be 4 (rl_deny r) ++ be 2 (rl_rank r) ++
  (if with_icons then match rl_icon r with Some i => enc_bool true ++ lenp i | None => enc_bool false end
   else []).
Definition enc_assignment (p : bytes * list N) : bytes := p.1 ++ enc_list (be 2) p.2.
Definition enc_named (p : bytes * bytes) : bytes := lenp p.1 ++ p.2.
Definition enc_nickname (p : bytes * bytes) : bytes := p.1 ++ lenp p.2.

#[export] Instance role_parses b :
  Parses (role_read b) (enc_role b) (λ r, role_ok r ∧ (b = false → rl_icon r = None)).
Proof.
  intros [i n a d k ic] pre post [(Hi & Hn & Ha & Hd & Hk & Hic) Hb]. cbn in *.
  unfold role_read, enc_role. cbn [rl_id rl_name rl_allow rl_deny rl_rank rl_icon].
  rewrite <- !app_assoc. parses. destruct b.
  - destruct ic as [s|]; rewrite <- ?app_assoc;
      [rewrite (r_bind_rd _ _ _ _ true _ _ bool_parses I)|rewrite (r_bind_rd _ _ _ _ false _ _ bool_parses I)].
    + rewrite r_bind_assoc. parses. unfold r_bind, r_ret. by rewrite <- !app_assoc.
    + unfold r_bind, r_ret. by rewrite <- !app_assoc.
  - rewrite Hb by done. unfold r_bind, r_ret. by rewrite <- !app_assoc, app_nil_r.
Qed.
#[export] Instance role_canon b :
  Canon (role_read b) (enc_role b) (λ r, role_ok r ∧ (b = false → rl_icon r = None)).
Proof.
  intros pre xs r rd' H. unfold role_read in H. do 5 canon1 H. destruct b.
  - canon1 H. destruct a4.
    + rewrite r_bind_assoc in H. canon1 H. unfold r_bind, r_ret in H. injection H as <- <-.
      split; [split; [unfold role_ok; cbn [rl_id rl_name rl_allow rl_deny rl_rank rl_icon]; tauto|done]|]. eexists. unfold enc_role. cbn.
      rewrite <- ?app_assoc. split; [reflexivity|by rewrite <- ?app_assoc].
    + unfold r_bind, r_ret in H. injection H as <- <-.
      split; [split; [unfold role_ok; cbn [rl_id rl_name rl_allow rl_deny rl_rank rl_icon]; tauto|done]|]. eexists. unfold enc_role. cbn.
      rewrite <- ?app_assoc. split; [reflexivity|by rewrite <- ?app_assoc].
  - unfold r_bind, r_ret in H. injection H as <- <-.
    split; [split; [unfold role_ok; cbn [rl_id rl_name rl_allow rl_deny rl_rank rl_icon]; tauto|done]|]. eexists. unfold enc_role. cbn.
    rewrite <- ?app_assoc. split; [reflexivity|by rewrite <- ?app_assoc].
Qed.

Lemma be2_long (v : N) : ok_u16 v → (Nat.max 2 1 ≤ length (be 2 v))%nat.
Proof. intros _. rewrite length_be. lia. Qed.
#[export] Instance assignment_parses : Parses r_assignment enc_assignment assignment_ok.
Proof.
  apply (pair_parses (r_fixed 32) (r_bounded 2 r_u16) id (enc_list (be 2)) (ok_len 32) (ok_list ok_u16)); [apply _|].
  apply bounded_parses; [apply _|apply be2_long].
Qed.
#[export] Instance assignment_canon : Canon r_assignment enc_assignment assignment_ok.
Proof.
  apply (pair_canon (r_fixed 32) (r_bounded 2 r_u16) id (enc_list (be 2)) (ok_len 32) (ok_list ok_u16)); [apply _|].
  apply bounded_canon, _.
Qed.
#[export] Instance named_parses what : Parses (r_named what) enc_named named_ok.
Proof.
  intros [n h] pre post (Hn & Hv & Hh). cbn [fst snd] in *. unfold r_named, enc_named. cbn [fst snd]. rewrite <- app_assoc. parse1.
  rewrite Hv. cbn [negb]. parses. unfold r_ret, id. by rewrite <- app_assoc.
Qed.
#[export] Instance named_canon what : Canon (r_named what) enc_named named_ok.
Proof.
  intros pre xs p r H. unfold r_named in H. canon1 H. destruct (valid_emoji_name a) eqn:E; [|done].
  cbn [negb] in H. canon1 H. injection H as <- <-. split; [done|]. eexists. unfold enc_named, id. cbn.
  rewrite <- !app_assoc. split; [reflexivity|done].
Qed.
#[export] Instance nickname_parses : Parses r_nickname enc_nickname nickname_ok.
Proof.
  intros [m n] pre post (Hm & Hn & Hv). cbn [fst snd] in *. unfold r_nickname, enc_nickname. cbn [fst snd]. rewrite <- app_assoc.
  rewrite (r_bind_rd _ _ _ _ m _ _ (fixed_parses 32) Hm). parse1. rewrite Hv. cbn [negb].
  unfold r_ret, id. by rewrite <- app_assoc.
Qed.
#[export] Instance nickname_canon : Canon r_nickname enc_nickname nickname_ok.
Proof.
  intros pre xs p r H. unfold r_nickname in H. canon1 H. canon1 H. destruct (valid_nickname a0) eqn:E; [|done].
  cbn [negb] in H. injection H as <- <-. split; [done|]. eexists. unfold enc_nickname, id. cbn.
  rewrite <- !app_assoc. split; [reflexivity|done].
Qed.

(** ** Tail sections *)

Lemma enc_list_nonempty {A} (enc : A → bytes) l post : (0 < length (enc_list enc l ++ post))%nat.
Proof. unfold enc_list. rewrite !length_app, length_be. lia. Qed.

(** A section that is written when [c] holds, before the sections [rest]. *)
Lemma section_parse {A B} (m : Read A) enc ok (k : list A → Read B) (c : bool) l pre rest :
  Parses m enc ok → (∀ a, ok a → (36 ≤ length (enc a))%nat) → ok_list ok l →
  (c = false → l = [] ∧ rest = []) →
  r_bind (r_section m) k (rd pre (if c then enc_list enc l ++ rest else [])) =
  k l (rd (pre ++ if c then enc_list enc l else []) rest).
Proof.
  intros Hm Hl Hok Hc. unfold r_section. destruct c.
  - rewrite r_bind_assoc, r_bind_more.
    pose proof (enc_list_nonempty enc l rest) as Hne. apply Nat.ltb_lt in Hne. rewrite Hne.
    apply (r_bind_rd _ (enc_list enc) (ok_list ok)); [|done].
    apply bounded_parses; [done|]. intros a Ha. specialize (Hl a Ha). unfold MIN_NAMED_ENTRY_BYTES. lia.
  - destruct (Hc eq_refl) as [-> ->]. rewrite r_bind_assoc, r_bind_more. cbn. by rewrite app_nil_r.
Qed.

Lemma section_canon {A B} (m : Read A) enc ok (k : list A → Read B) pre xs b r :
  Canon m enc ok → r_bind (r_section m) k (rd pre xs) = Ok (b, r) →
  ∃ l pre' post, ok_list ok l ∧ k l (rd pre' post) = Ok (b, r).
Proof.
  intros Hm H. unfold r_section in H. rewrite r_bind_assoc, r_bind_more in H. destruct (_ <? _)%nat.
  - apply (r_bind_canon _ (enc_list enc) (ok_list ok)) in H as (l & post & Hl & _ & H); [eauto|].
    by apply bounded_canon.
  - exists [], pre, xs. split; [split; [done|constructor]|done].
Qed.

(** ** The role count and its flag *)

Lemma flag_bits n : N.testbit ROLE_ICON_FLAG n = (31 =? n)%N.
Proof. unfold ROLE_ICON_FLAG. rewrite N.shiftl_1_l. apply N.pow2_bits_eqb. Qed.

Lemma low_bit31 c : (c < 2147483648)%N → N.testbit c 31 = false.
Proof.
  intros Hc. destruct (decide (c = 0)%N) as [->|Hne]; [done|]. apply N.bits_above_log2.
  apply (N.log2_lt_pow2 c 31); [lia|exact Hc].
Qed.

Lemma count_flagged c :
  (c < 2147483648)%N →
  N.ldiff (N.lor c ROLE_ICON_FLAG) ROLE_ICON_FLAG = c ∧ N.land (N.lor c ROLE_ICON_FLAG) ROLE_ICON_FLAG ≠ 0%N ∧
  N.ldiff c ROLE_ICON_FLAG = c ∧ N.land c ROLE_ICON_FLAG = 0%N ∧ (N.lor c ROLE_ICON_FLAG < 4294967296)%N.
Proof.
  intros Hc. pose proof (low_bit31 c Hc) as Hb.
  assert (Hn : ∀ n, (31 =? n)%N = true → N.testbit c n = false) by (intros n <-%N.eqb_eq; done).
  split_and!.
  - apply N.bits_inj. intros n. rewrite N.ldiff_spec, N.lor_spec, flag_bits.
    destruct (31 =? n)%N eqn:E; [by rewrite Hn, andb_false_r|by rewrite orb_false_r, andb_true_r].
  - intros Hz. apply (f_equal (λ x, N.testbit x 31)) in Hz.
    rewrite N.land_spec, N.lor_spec, flag_bits, N.bits_0 in Hz. by rewrite orb_true_r in Hz.
  - apply N.bits_inj. intros n. rewrite N.ldiff_spec, flag_bits.
    destruct (31 =? n)%N eqn:E; [by rewrite Hn|by rewrite andb_true_r].
  - apply N.bits_inj. intros n. rewrite N.land_spec, flag_bits, N.bits_0.
    destruct (31 =? n)%N eqn:E; [by rewrite Hn|by rewrite andb_false_r].
  - change 4294967296%N with (2 ^ 32)%N. destruct (decide (N.lor c ROLE_ICON_FLAG = 0)%N) as [->|Hne]; [done|].
    apply N.log2_lt_pow2; [lia|]. rewrite N.log2_lor. apply N.max_lub_lt; [|done].
    destruct (decide (c = 0)%N) as [->|?]; [done|]. apply N.log2_lt_pow2; lia.
Qed.

Lemma ldiff_flag_lt raw : (raw < 4294967296)%N → (N.ldiff raw ROLE_ICON_FLAG < 2147483648)%N.
Proof.
  intros Hr. destruct (decide (N.ldiff raw ROLE_ICON_FLAG < 2147483648)%N) as [|Hge]; [done|exfalso].
  assert (N.ldiff raw ROLE_ICON_FLAG ≤ raw)%N as Hle.
  { apply N.ldiff_le, N.bits_inj. intros n. rewrite !N.ldiff_spec, N.bits_0.
    by destruct (N.testbit raw n), (N.testbit ROLE_ICON_FLAG n). }
  assert (N.log2 (N.ldiff raw ROLE_ICON_FLAG) = 31)%N as Hl.
  { apply N.log2_unique; [lia|]. change (2 ^ 31)%N with 2147483648%N. change (2 ^ N.succ 31)%N with 4294967296%N. lia. }
  pose proof (N.bit_log2 (N.ldiff raw ROLE_ICON_FLAG)) as Hb. rewrite Hl, N.ldiff_spec, flag_bits in Hb.
  rewrite andb_false_r in Hb. discriminate Hb. lia.
Qed.

(** ** The role list *)

Definition roles_ok (l : list Role) : Prop := (len l < 2147483648)%N ∧ Forall role_ok l.
Definition enc_roles (l : list Role) : bytes :=
  be 4 (if has_icons l then N.lor (len l) ROLE_ICON_FLAG else len l) ++ mjoin (enc_role (has_icons l) <$> l).

Lemma enc_role_length b r : role_ok r → (16 ≤ length (enc_role b r))%nat.
Proof.
  intros _. unfold enc_role. rewrite !length_app, !length_be. pose proof (len_lenp (rl_name r)). unfold len in *. lia.
Qed.

Lemma no_icons l : has_icons l = false → Forall (λ r, rl_icon r = None) l.
Proof.
  unfold has_icons. induction l as [|r l IH]; [constructor|]. cbn [existsb]. intros [Hr Hl]%orb_false_iff.
  constructor; [by destruct (rl_icon r)|by apply IH].
Qed.

#[export] Instance roles_parses : Parses r_roles enc_roles roles_ok.
Proof.
  intros l pre post [Hl Hf]. destruct (count_flagged (len l) Hl) as (H1 & H2 & H3 & H4 & H5).
  unfold r_roles, enc_roles. rewrite <- app_assoc.
  rewrite (r_bind_rd _ _ _ _ _ _ _ u32_parses) by (unfold ok_u32; destruct (has_icons l); lia).
  assert (N.ldiff (if has_icons l then N.lor (len l) ROLE_ICON_FLAG else len l) ROLE_ICON_FLAG = len l) as ->
    by (by destruct (has_icons l)).
  assert (negb (N.land (if has_icons l then N.lor (len l) ROLE_ICON_FLAG else len l) ROLE_ICON_FLAG =? 0)%N = has_icons l)
    as -> by (destruct (has_icons l); [apply N.eqb_neq in H2; by rewrite H2|by rewrite H4]).
  rewrite r_remaining_rd, length_app.
  assert (Hle : (16 * length l ≤ length (mjoin (enc_role (has_icons l) <$> l)))%nat).
  { generalize (has_icons l). clear -Hf. intros b. induction Hf as [|r l Hr _ IH]; [cbn; lia|].
    rewrite join_cons, length_app. pose proof (enc_role_length b r Hr). cbn [length]. lia. }
  destruct (_ <? _)%N eqn:E.
  - apply N.ltb_lt in E. exfalso. unfold len, MIN_ROLE_BYTES in E.
    assert (length l ≤ (length (mjoin (enc_role (has_icons l) <$> l)) + length post) / 16)%nat; [|lia].
    apply Nat.div_le_lower_bound; lia.
  - unfold len at 1. rewrite Nat2N.id.
    rewrite (repeat_parses (role_read (has_icons l)) (enc_role (has_icons l))
      (λ r, role_ok r ∧ (has_icons l = false → rl_icon r = None)) l).
    + by rewrite <- app_assoc.
    + apply list.Forall_and. split; [done|]. destruct (has_icons l) eqn:Eh; [by apply Forall_true|].
      eapply List.Forall_impl; [|by apply no_icons]. auto.
Qed.

Lemma roles_read {B} (k : list Role → Read B) pre xs b r :
  r_bind r_roles k (rd pre xs) = Ok (b, r) →
  ∃ l pre' post, roles_ok l ∧ k l (rd pre' post) = Ok (b, r).
Proof.
  intros H. unfold r_roles in H. rewrite r_bind_assoc in H.
  apply (r_bind_canon _ (be 4) ok_u32) in H as (raw & post & Hraw & -> & H); [|apply _].
  unfold r_bind in H. rewrite r_remaining_rd in H. destruct (_ <? _)%N eqn:E in H; [done|].
  destruct (r_repeat _ _ _) as [[l r']|] eqn:Er in H; [|done].
  destruct (repeat_canon _ _ _ _ _ _ _ _ Er) as (Hln & Hl & post' & _ & ->).
  exists l. eexists _, post'. split; [|exact H]. split.
  - unfold len. rewrite Hln, N2Nat.id. by apply ldiff_flag_lt.
  - eapply List.Forall_impl; [|exact Hl]. intros x Hx. apply Hx.
Qed.

(** ** The policy *)

Definition policy_ok (p : ServerPolicy) : Prop :=
  ok_len 32 (sp_server_root p) ∧ ok_len 32 (sp_owner_id p) ∧ ok_u64 (sp_version p) ∧
  ok_u64 (sp_issued_ms p) ∧ roles_ok (sp_roles p) ∧ ok_list assignment_ok (sp_assignments p) ∧
  ok_list named_ok (sp_emojis p) ∧ forallb (icon_ok (sp_emojis p)) (sp_roles p) = true ∧
  ok_list named_ok (sp_stickers p) ∧ ok_list named_ok (sp_sounds p) ∧
  ok_list nickname_ok (sp_nicknames p) ∧ ok_len 64 (sp_sig p).

Definition tail_nicknames (p : ServerPolicy) : bytes :=
  if nonempty (sp_nicknames p) then enc_list enc_nickname (sp_nicknames p) ++ [] else [].
Definition tail_sounds (p : ServerPolicy) : bytes :=
  if nonempty (sp_sounds p) || nonempty (sp_nicknames p)
  then enc_list enc_named (sp_sounds p) ++ tail_nicknames p else [].
Definition tail_stickers (p : ServerPolicy) : bytes :=
  if nonempty (sp_stickers p) || nonempty (sp_sounds p) || nonempty (sp_nicknames p)
  then enc_list enc_named (sp_stickers p) ++ tail_sounds p else [].
Definition tail_emojis (p : ServerPolicy) : bytes :=
  if nonempty (sp_emojis p) || nonempty (sp_stickers p) || nonempty (sp_sounds p) || nonempty (sp_nicknames p)
  then enc_list enc_named (sp_emojis p) ++ tail_stickers p else [].

Lemma w_buf_section {A} (f : A → Writer → Writer) enc l w :
  (∀ x w, w_buf (f x w) = w_buf w ++ enc x) → w_buf (w_section f l w) = w_buf w ++ enc_list enc l.
Proof. intros Hf. unfold w_section, enc_list. rewrite (w_buf_each _ enc) by done. by enc_norm. Qed.

Lemma w_buf_role b r w : w_buf (role_write b r w) = w_buf w ++ enc_role b r.
Proof.
  unfold role_write, enc_role. destruct b; [destruct (rl_icon r)|]; enc_norm; rewrite ?app_nil_r; done.
Qed.
Lemma w_buf_assignment p w : w_buf (w_assignment p w) = w_buf w ++ enc_assignment p.
Proof.
  unfold w_assignment, enc_assignment, enc_list. rewrite (w_buf_each _ (be 2)) by done. by enc_norm.
Qed.
Lemma w_buf_named p w : w_buf (w_named p w) = w_buf w ++ enc_named p.
Proof. unfold w_named, enc_named. by enc_norm. Qed.
Lemma w_buf_nickname p w : w_buf (w_nickname p w) = w_buf w ++ enc_nickname p.
Proof. unfold w_nickname, enc_nickname. by enc_norm. Qed.

Lemma policy_body_eq p :
  (len (sp_roles p) < 2147483648)%N →
  policy_body p = sp_server_root p ++ sp_owner_id p ++ be 8 (sp_version p) ++ be 8 (sp_issued_ms p) ++
    enc_roles (sp_roles p) ++ enc_list enc_assignment (sp_assignments p) ++ tail_emojis p.
Proof.
  intros Hl. unfold policy_body, enc_roles, tail_emojis, tail_stickers, tail_sounds, tail_nicknames.
  assert (as_u32 (len (sp_roles p)) = len (sp_roles p)) as -> by (apply as_u32_fits; unfold fits_u32; lia).
  rewrite w_into_vec_buf.
  set (wa := w_section w_assignment _ _).
  assert (Ha : w_buf wa = sp_server_root p ++ sp_owner_id p ++ be 8 (sp_version p) ++ be 8 (sp_issued_ms p) ++
    (be 4 (if has_icons (sp_roles p) then N.lor (len (sp_roles p)) ROLE_ICON_FLAG else len (sp_roles p)) ++
     mjoin (enc_role (has_icons (sp_roles p)) <$> sp_roles p)) ++ enc_list enc_assignment (sp_assignments p)).
  { unfold wa. rewrite (w_buf_section _ enc_assignment) by apply w_buf_assignment.
    rewrite (w_buf_each _ (enc_role (has_icons (sp_roles p)))) by (intros; apply w_buf_role). by enc_norm. }
  destruct (nonempty (sp_emojis p)), (nonempty (sp_stickers p)), (nonempty (sp_sounds p)), (nonempty (sp_nicknames p));
    cbn [orb];
    rewrite ?(w_buf_section w_nickname enc_nickname) by apply w_buf_nickname;
    rewrite ?(w_buf_section w_named enc_named) by apply w_buf_named;
    rewrite Ha, <- ?app_assoc, ?app_nil_r; done.
Qed.

Lemma named_long p : named_ok p → (36 ≤ length (enc_named p))%nat.
Proof.
  intros (_ & _ & Hh). unfold enc_named, ok_len in *. rewrite length_app.
  pose proof (len_lenp p.1). unfold len in *. lia.
Qed.
Lemma nickname_long p : nickname_ok p → (36 ≤ length (enc_nickname p))%nat.
Proof.
  intros (Hm & _). unfold enc_nickname, ok_len in *. rewrite length_app.
  pose proof (len_lenp p.2). unfold len in *. lia.
Qed.
#[export] Instance assignments_parses :
  Parses (r_bounded MIN_ASSIGNMENT_BYTES r_assignment) (enc_list enc_assignment) (ok_list assignment_ok).
Proof.
  apply bounded_parses; [apply _|]. intros [m l] [Hm _]. unfold enc_assignment, enc_list, ok_len in *.
  cbn [fst snd] in *. rewrite !length_app, length_be. unfold MIN_ASSIGNMENT_BYTES. lia.
Qed.
#[export] Instance assignments_canon :
  Canon (r_bounded MIN_ASSIGNMENT_BYTES r_assignment) (enc_list enc_assignment) (ok_list assignment_ok).
Proof. apply bounded_canon, _. Qed.

Lemma nonempty_false {A} (l : list A) : nonempty l = false → l = [].
Proof. by destruct l. Qed.

(** A section that is not written is empty, and so are those after it. *)
Ltac tail_side :=
  repeat match goal with
  | |- _ = false → _ => let H := fresh "Hc" in intros H
  | H : _ || _ = false |- _ => apply orb_false_iff in H as [? H]
  end;
  split; [by apply nonempty_false|];
  unfold tail_stickers, tail_sounds, tail_nicknames;
  repeat match goal with H : nonempty _ = false |- _ => rewrite H; clear H end; done.

Lemma policy_body_run p : policy_ok p → run (r_policy_body (sp_sig p)) (policy_body p) = Ok p.
Proof.
  intros Hok. rewrite policy_body_eq by (apply Hok). unfold policy_ok in Hok. destruct_and! Hok.
  eapply run_parse. rewrite app_nil_r. unfold r_policy_body.
  refine (eq_trans (r_bind_rd _ _ _ _ (sp_server_root p) _ _ (fixed_parses 32) _) _); [done|].
  refine (eq_trans (r_bind_rd _ _ _ _ (sp_owner_id p) _ _ (fixed_parses 32) _) _); [done|].
  do 4 parse1. unfold tail_emojis.
  rewrite (section_parse _ enc_named named_ok) by first [apply _|apply named_long|assumption|tail_side].
  match goal with H : forallb _ _ = true |- _ => rewrite H end. cbn [negb]. unfold tail_stickers.
  rewrite (section_parse _ enc_named named_ok) by first [apply _|apply named_long|assumption|tail_side].
  unfold tail_sounds.
  rewrite (section_parse _ enc_named named_ok) by first [apply _|apply named_long|assumption|tail_side].
  unfold tail_nicknames.
  rewrite (section_parse _ enc_nickname nickname_ok) by first [apply _|apply nickname_long|assumption|tail_side].
  rewrite r_bind_finish. unfold r_ret. by destruct p.
Qed.

Lemma policy_round p : policy_ok p → fits_u32 (policy_body p) → policy_decode (policy_encode p) = Ok p.
Proof.
  intros Hok Hf. assert (Hs : ok_len SIG_LEN (sp_sig p)) by apply Hok.
  eapply run_parse. unfold policy_encode. enc_norm. rewrite <- ?app_assoc. unfold r_policy. parse1.
  refine (eq_trans (r_bind_rd _ _ _ _ (sp_sig p) _ _ (fixed_parses SIG_LEN) Hs) _). rewrite r_bind_finish.
  unfold r_lift. rewrite policy_body_run by done. reflexivity.
Qed.

(** What the root signs verifies. *)
Lemma policy_signed_verifies `{CryptoPrims, !SignLaws} root owner ver roles asg em st so ni now :
  length root = 32 → policy_verify (policy_signed root owner ver roles asg em st so ni now) = Ok tt.
Proof.
  intros Hr. set (p := policy_signed root owner ver roles asg em st so ni now).
  unfold policy_verify, sign_public_from_bytes. change (sp_server_root p) with (prim_vk_of_sk root).
  rewrite vk_of_sk_ok by done. cbn [map_err result_bind]. unfold sign_verify.
  change (sp_sig p) with (prim_sign root (policy_challenge (policy_body p))).
  by rewrite sign_verifies.
Qed.

(** Whatever decodes is a policy within its limits: sizes, names, icons. *)
Lemma policy_decode_ok bs p : policy_decode bs = Ok p → policy_ok p.
Proof.
  intros [r' Hr]%run_canon. unfold r_policy in Hr. canons Hr. unfold r_lift in Hr.
  destruct (run (r_policy_body a0) a) as [q|] eqn:E; [|done]. injection Hr as -> _.
  apply run_canon in E as [r E]. unfold r_policy_body in E. do 4 canon1 E.
  apply roles_read in E as (roles & pre1 & post1 & Hroles & E). canon1 E.
  apply (section_canon _ enc_named named_ok) in E as (em & pre2 & post2 & Hem & E); [|apply _].
  destruct (forallb (icon_ok em) roles) eqn:Ei; [|done]. cbn [negb] in E.
  apply (section_canon _ enc_named named_ok) in E as (st & pre3 & post3 & Hst & E); [|apply _].
  apply (section_canon _ enc_named named_ok) in E as (so & pre4 & post4 & Hso & E); [|apply _].
  apply (section_canon _ enc_nickname nickname_ok) in E as (ni & pre5 & post5 & Hni & E); [|apply _].
  apply r_bind_finish_canon in E as [_ E]. injection E as <- _. unfold policy_ok.
  cbn [sp_server_root sp_owner_id sp_version sp_issued_ms sp_roles sp_assignments sp_emojis sp_stickers sp_sounds sp_nicknames sp_sig].
  tauto.
Qed.
