(* ===== verification/Invite.v ===== *)
(** * Invite links ([crates/dante-core/src/invite.rs])

    A token signed by the server's root key, and its rendering as
    [dante-invite:<hex>]. *)

From S2P Require Import Prelude Utf8 Enc Crypto ProtoRecord IdentityRecords X3dh Mailbox Roles.

Definition TOKEN_VERSION : N := 1.
Definition INVITE_SIG_DOMAIN : bytes := lit "dante/invite-token/v1".
Definition LINK_PREFIX : bytes := lit "dante-invite:".

Record InviteToken := mkToken {
  tk_server_root : bytes;
  tk_host_id : bytes;
  tk_channel_id : bytes;
  tk_relay_hint : bytes;
  tk_expires_ms : N;
  tk_max_uses : N;
  tk_nonce : bytes;
  tk_sig : bytes;
}.

#[global] Instance InviteToken_eq_dec : EqDecision InviteToken.
Proof. solve_decision. Defined.

(** ** Codec *)

Definition token_body (self : InviteToken) : bytes :=
  w_into_vec (w_new |> w_u8 TOKEN_VERSION |> w_fixed (tk_server_root self) |> w_fixed (tk_host_id self)
    |> w_fixed (tk_channel_id self) |> w_string (tk_relay_hint self) |> w_u64 (tk_expires_ms self)
    |> w_u32 (tk_max_uses self) |> w_fixed (tk_nonce self)).

Definition token_encode (self : InviteToken) : bytes :=
  w_into_vec (w_new |> w_bytes (token_body self) |> w_fixed (tk_sig self)).

Definition r_token_body (sig : bytes) : Read InviteToken :=
  let! version := r_u8 in
  if negb (version =? TOKEN_VERSION)%N then r_err (Invalid "invite token version") else
  let! server_root := r_fixed 32 in
  let! host_id := r_fixed 32 in
  let! channel_id := r_fixed 32 in
  let! relay_hint := r_string in
  let! expires_ms := r_u64 in
  let! max_uses := r_u32 in
  let! nonce := r_fixed 8 in
  let! _ := r_finish in
  r_ret (mkToken server_root host_id channel_id relay_hint expires_ms max_uses nonce sig).

Definition r_token : Read InviteToken :=
  let! body := r_bytes in
  let! sig := r_fixed SIG_LEN in
  let! _ := r_finish in
  r_lift (run (r_token_body sig) body).
Definition token_decode (bs : bytes) : result InviteToken WireError := run r_token bs.

(** ** Signing *)

Section token.
Context `{CryptoPrims}.

Definition token_challenge (body : bytes) : bytes := sha256 (INVITE_SIG_DOMAIN ++ body).

Definition token_mint (root host_id channel_id relay_hint : bytes) (expires_ms max_uses : N) (nonce : bytes)
    : InviteToken :=
  let t := mkToken (prim_vk_of_sk root) host_id channel_id relay_hint expires_ms max_uses nonce
             (replicate SIG_LEN x00) in
  mkToken (tk_server_root t) host_id channel_id relay_hint expires_ms max_uses nonce
    (prim_sign root (token_challenge (token_body t))).

Definition token_verify (self : InviteToken) : result unit CoreError :=
  let? pk := map_err (λ _, CoInvite "bad server key") (sign_public_from_bytes (tk_server_root self)) in
  map_err (λ _, CoInvite "bad signature")
    (sign_verify pk (token_challenge (token_body self)) (tk_sig self)).
End token.

Definition token_is_expired (self : InviteToken) (now_ms : N) : bool := (tk_expires_ms self <=? now_ms)%N.

(** ** Links *)

Definition nibble (n : N) : byte := if (n <=? 9)%N then n2b (48 + n) else n2b (97 + (n - 10)).
Definition unnibble (c : byte) : option N :=
  let v := b2n c in
  if ((48 <=? v) && (v <=? 57))%N then Some (v - 48)%N
  else if ((97 <=? v) && (v <=? 102))%N then Some (v - 97 + 10)%N
  else if ((65 <=? v) && (v <=? 70))%N then Some (v - 65 + 10)%N
  else None.

Definition hex_of (bs : bytes) : bytes :=
  mbind (λ b, [nibble (N.shiftr (b2n b) 4); nibble (N.land (b2n b) 15)]) bs.

Definition to_link (self : InviteToken) : bytes := LINK_PREFIX ++ hex_of (token_encode self).

(** [str::trim]: the encodings of the characters with the White_Space
    property are removed from both ends. *)
Definition WHITE_SPACE : list bytes :=
  [[x09]; [x0a]; [x0b]; [x0c]; [x0d]; [x20]; [xc2; x85]; [xc2; xa0]; [xe1; x9a; x80];
   [xe2; x80; x80]; [xe2; x80; x81]; [xe2; x80; x82]; [xe2; x80; x83]; [xe2; x80; x84]; [xe2; x80; x85];
   [xe2; x80; x86]; [xe2; x80; x87]; [xe2; x80; x88]; [xe2; x80; x89]; [xe2; x80; x8a];
   [xe2; x80; xa8]; [xe2; x80; xa9]; [xe2; x80; xaf]; [xe2; x81; x9f]; [xe3; x80; x80]].

Definition strip_prefix (p s : bytes) : option bytes :=
  if bool_decide (take (length p) s = p) then Some (drop (length p) s) else None.

(** The rest after a white-space character, if the string starts with one. *)
Definition after_space (ws : list bytes) (s : bytes) : option bytes :=
  foldr (λ w acc, match strip_prefix w s with Some r => Some r | None => acc end) None ws.
Fixpoint trim_fuel (fuel : nat) (ws : list bytes) (s : bytes) : bytes :=
  match fuel with
  | O => s
  | S f => match after_space ws s with Some r => trim_fuel f ws r | None => s end
  end.
Definition trim_start (s : bytes) : bytes := trim_fuel (length s) WHITE_SPACE s.
(** The end is trimmed on the reversed string. *)
Definition trim_end (s : bytes) : bytes := rev (trim_fuel (length s) (@rev byte <$> WHITE_SPACE) (rev s)).
Definition trim (s : bytes) : bytes := trim_end (trim_start s).

(** [for pair in raw.chunks(2)]; the length is even. *)
Fixpoint unhex (s : bytes) : option bytes :=
  match s with
  | [] => Some []
  | a :: b :: rest =>
    hi ← unnibble a; lo ← unnibble b; tl ← unhex rest; Some (n2b (N.lor (N.shiftl hi 4) lo) :: tl)
  | _ => None
  end.

Definition from_link (s : bytes) : result InviteToken CoreError :=
  let hex := default (trim s) (strip_prefix LINK_PREFIX (trim s)) in
  let hex := trim hex in
  if negb (Nat.even (length hex)) || bool_decide (hex = []) then Err (CoInvite "not a link")
  else
    let? bs := ok_or (unhex hex) (CoInvite "not hex") in
    map_err (λ _, CoInvite "malformed token") (token_decode bs).

(** ** Lemmas *)

Definition token_ok (t : InviteToken) : Prop :=
  ok_len 32 (tk_server_root t) ∧ ok_len 32 (tk_host_id t) ∧ ok_len 32 (tk_channel_id t) ∧
  ok_str (tk_relay_hint t) ∧ ok_u64 (tk_expires_ms t) ∧ ok_u32 (tk_max_uses t) ∧
  ok_len 8 (tk_nonce t) ∧ ok_len 64 (tk_sig t) ∧ fits_u32 (token_body t).

Lemma token_body_eq t :
  token_body t = enc_u8 TOKEN_VERSION ++ tk_server_root t ++ tk_host_id t ++ tk_channel_id t ++
    lenp (tk_relay_hint t) ++ be 8 (tk_expires_ms t) ++ be 4 (tk_max_uses t) ++ tk_nonce t.
Proof. unfold token_body. by enc_norm. Qed.

Lemma token_body_run t : token_ok t → run (r_token_body (tk_sig t)) (token_body t) = Ok t.
Proof.
  destruct t as [a b c d e f g h]. intros (Ha & Hb & Hc & Hd & He & Hf & Hg & Hh & _). cbn in Ha, Hb, Hc, Hd, He, Hf, Hg, Hh.
  eapply run_parse. rewrite token_body_eq, <- !app_assoc.
  cbn [tk_server_root tk_host_id tk_channel_id tk_relay_hint tk_expires_ms tk_max_uses tk_nonce tk_sig].
  unfold r_token_body. rewrite (r_bind_rd _ _ _ _ TOKEN_VERSION _ _ u8_parses) by done.
  cbn [N.eqb TOKEN_VERSION Pos.eqb negb]. parses. done.
Qed.

Lemma token_round t : token_ok t → token_decode (token_encode t) = Ok t.
Proof.
  intros Hok. assert (Hf : fits_u32 (token_body t)) by apply Hok.
  assert (Hs : ok_len SIG_LEN (tk_sig t)) by apply Hok.
  eapply run_parse. unfold token_encode. enc_norm. rewrite <- ?app_assoc. unfold r_token. parse1.
  refine (eq_trans (r_bind_rd _ _ _ _ (tk_sig t) _ _ (fixed_parses SIG_LEN) Hs) _). rewrite r_bind_finish.
  unfold r_lift. rewrite token_body_run by done. reflexivity.
Qed.

Lemma token_canon bs t : token_decode bs = Ok t → token_ok t ∧ token_encode t = bs.
Proof.
  intros [r' Hr]%run_canon. unfold r_token in Hr. canons Hr. unfold r_lift in Hr.
  destruct (run (r_token_body a0) a) as [q|] eqn:E; [|done]. injection Hr as -> _.
  apply run_canon in E as [r E]. unfold r_token_body in E. canon1 E.
  destruct (a1 =? TOKEN_VERSION)%N eqn:Ev; [|done]. apply N.eqb_eq in Ev as ->. cbn [negb] in E. canons E.
  injection E as <- _.
  assert (Hb : token_body (mkToken a a1 a2 a3 a4 a5 a6 a0) =
    enc_u8 TOKEN_VERSION ++ a ++ a1 ++ a2 ++ lenp a3 ++ be 8 a4 ++ be 4 a5 ++ a6) by apply token_body_eq.
  unfold id in *. rewrite app_nil_r in Hok.
  split.
  - unfold token_ok. rewrite Hb. cbn [tk_server_root tk_host_id tk_channel_id tk_relay_hint tk_expires_ms tk_max_uses tk_nonce tk_sig].
    tauto.
  - unfold token_encode. rewrite Hb. enc_norm. by rewrite !app_nil_r.
Qed.

(** *** White space *)

(** A character [trim] leaves alone at either end. *)
Definition solid (c : byte) : bool := ((33 <=? b2n c) && (b2n c <? 128))%N.

Lemma strip_prefix_app p s : strip_prefix p (p ++ s) = Some s.
Proof. unfold strip_prefix. by rewrite take_app_length, bool_decide_true, drop_app_length. Qed.

Lemma strip_prefix_Some p s r : strip_prefix p s = Some r → s = p ++ r.
Proof.
  unfold strip_prefix. case_bool_decide as E; [|done]. injection 1 as <-. rewrite <- E at 1.
  by rewrite take_drop.
Qed.

(** No white space starts with a solid character. *)
Definition spaces (ws : list bytes) : Prop :=
  Forall (λ w, match w with [] => False | x :: _ => solid x = false end) ws.

Lemma after_space_solid ws c s : spaces ws → solid c = true → after_space ws (c :: s) = None.
Proof.
  intros H Hc. induction H as [|w ws Hw _ IH]; [done|]. cbn [after_space foldr].
  destruct (strip_prefix w (c :: s)) as [r|] eqn:E; [|done].
  apply strip_prefix_Some in E. destruct w as [|x w]; [done|]. injection E as -> _. congruence.
Qed.

Lemma trim_fuel_solid n ws c s : spaces ws → solid c = true → trim_fuel n ws (c :: s) = c :: s.
Proof. intros H Hc. destruct n; [done|]. cbn. by rewrite after_space_solid. Qed.

(** A set of white spaces none of which is a proper prefix of another. *)
Definition prefix_free (ws : list bytes) : Prop :=
  ∀ w w', w ∈ ws → w' ∈ ws → take (length w) w' = w → w = w'.

Lemma prefix_free_decide ws :
  forallb (λ w, forallb (λ w', bool_decide (w = w') || negb (bool_decide (take (length w) w' = w))) ws) ws = true →
  prefix_free ws.
Proof.
  intros Hb w w' Hw%list_elem_of_In Hw'%list_elem_of_In E. rewrite List.forallb_forall in Hb.
  specialize (Hb w Hw). rewrite List.forallb_forall in Hb. specialize (Hb w' Hw').
  apply orb_true_iff in Hb as [Hb|Hb]; [by apply bool_decide_eq_true in Hb|].
  by rewrite bool_decide_true in Hb.
Qed.

Lemma white_spaces : spaces WHITE_SPACE ∧ spaces (@rev byte <$> WHITE_SPACE).
Proof. split; repeat constructor. Qed.

Lemma white_prefix_free : prefix_free WHITE_SPACE ∧ prefix_free (@rev byte <$> WHITE_SPACE).
Proof. split; apply prefix_free_decide; vm_compute; reflexivity. Qed.

Lemma after_space_app ws w s : prefix_free ws → w ∈ ws → after_space ws (w ++ s) = Some s.
Proof.
  intros Hp Hw. assert (Hsub : ∀ l, l ⊆ ws → w ∈ l → after_space l (w ++ s) = Some s).
  { induction l as [|w' l IH]; intros Hl Hin; [by apply elem_of_nil in Hin|].
    cbn [after_space foldr]. destruct (strip_prefix w' (w ++ s)) as [r|] eqn:E.
    - apply strip_prefix_Some in E. f_equal.
      assert (w' = w) as ->; [|by apply app_inv_head in E].
      assert (w' ∈ ws) by (apply Hl; set_solver).
      destruct (le_lt_dec (length w') (length w)) as [L|L].
      + apply Hp; [done..|]. rewrite <- (take_app_le _ s) by done. by rewrite E, take_app_length.
      + symmetry. apply Hp; [done..|]. rewrite <- (take_app_le _ r) by lia. by rewrite <- E, take_app_length.
    - apply IH; [set_solver|]. apply elem_of_cons in Hin as [->|]; [|done].
      by rewrite strip_prefix_app in E. }
  by apply Hsub.
Qed.

Lemma trim_fuel_pad ws l c s n :
  spaces ws → prefix_free ws → Forall (.∈ ws) l → solid c = true → length l ≤ n →
  trim_fuel n ws (concat l ++ c :: s) = c :: s.
Proof.
  intros Hs Hp Hl Hc. revert n. induction Hl as [|w l Hw _ IH]; intros n Hn.
  - by apply trim_fuel_solid.
  - destruct n as [|n]; [cbn in Hn; lia|]. cbn [concat trim_fuel]. rewrite <- app_assoc.
    rewrite after_space_app by done. apply IH. cbn in Hn. lia.
Qed.

Lemma spaces_length ws l : spaces ws → Forall (.∈ ws) l → length l ≤ length (concat l).
Proof.
  intros Hs Hl. induction Hl as [|w l Hw _ IH]; [done|]. cbn. rewrite length_app.
  unfold spaces in Hs. rewrite list.Forall_forall in Hs. specialize (Hs w Hw). destruct w; [done|]. cbn. lia.
Qed.

Lemma rev_concat (l : list bytes) : rev (concat l) = concat (@rev byte <$> rev l).
Proof.
  induction l as [|w l IH]; [done|]. cbn [concat rev]. rewrite rev_app_distr, IH, fmap_app, concat_app.
  cbn. by rewrite app_nil_r.
Qed.

(** A string whose first and last characters are solid. *)
Definition solid_ends (s : bytes) : Prop :=
  ∃ c s1 s2 d, s = c :: s1 ∧ s = s2 ++ [d] ∧ solid c = true ∧ solid d = true.

(** White space around such a string, any amount of it, is exactly what
    [trim] removes. *)
Lemma trim_pad l1 l2 s :
  Forall (.∈ WHITE_SPACE) l1 → Forall (.∈ WHITE_SPACE) l2 → solid_ends s →
  trim (concat l1 ++ s ++ concat l2) = s.
Proof.
  intros H1 H2 (c & s1 & s2 & d & E1 & E2 & Hc & Hd). unfold trim, trim_start, trim_end.
  assert (E : trim_fuel (length (concat l1 ++ s ++ concat l2)) WHITE_SPACE (concat l1 ++ s ++ concat l2) = s ++ concat l2).
  { rewrite E1 at 2 3. cbn [app]. apply trim_fuel_pad; [apply white_spaces|apply white_prefix_free|done..|].
    pose proof (spaces_length _ _ (proj1 white_spaces) H1). rewrite length_app. lia. }
  assert (H2' : Forall (.∈ @rev byte <$> WHITE_SPACE) (@rev byte <$> rev l2)).
  { rewrite Forall_fmap. apply Forall_rev. eapply list.Forall_impl; [exact H2|].
    intros w Hw. apply (proj2 (list_elem_of_fmap (@rev byte) WHITE_SPACE (rev w))). eauto. }
  pose proof (spaces_length _ _ (proj2 white_spaces) H2') as L. rewrite <- rev_concat in L.
  assert (Es : rev s = d :: rev s2) by by rewrite E2, rev_app_distr.
  rewrite E. assert (Ln : length (@rev byte <$> rev l2) ≤ length (s ++ concat l2)).
  { rewrite length_rev in *. rewrite length_app. lia. }
  revert Ln. generalize (length (s ++ concat l2)). intros n Ln.
  rewrite rev_app_distr, rev_concat, Es.
  rewrite trim_fuel_pad; [|apply (proj2 white_spaces)|apply (proj2 white_prefix_free)|exact H2'|exact Hd|exact Ln].
  rewrite <- Es. apply rev_involutive.
Qed.

Lemma trim_solid s : solid_ends s → trim s = s.
Proof.
  intros H. rewrite <- (trim_pad [] [] s) at 2 by done. cbn. by rewrite app_nil_r.
Qed.

(** *** Hexadecimal *)

Lemma nibbles (b : byte) :
  unnibble (nibble (N.shiftr (b2n b) 4)) = Some (N.shiftr (b2n b) 4) ∧
  unnibble (nibble (N.land (b2n b) 15)) = Some (N.land (b2n b) 15) ∧
  n2b (N.lor (N.shiftl (N.shiftr (b2n b) 4) 4) (N.land (b2n b) 15)) = b ∧
  solid (nibble (N.shiftr (b2n b) 4)) = true ∧ solid (nibble (N.land (b2n b) 15)) = true.
Proof. destruct b; vm_compute; repeat split. Qed.

Lemma hex_of_cons b bs :
  hex_of (b :: bs) = nibble (N.shiftr (b2n b) 4) :: nibble (N.land (b2n b) 15) :: hex_of bs.
Proof. done. Qed.

Lemma unhex_hex_of bs : unhex (hex_of bs) = Some bs.
Proof.
  induction bs as [|b bs IH]; [done|]. rewrite hex_of_cons. cbn [unhex].
  destruct (nibbles b) as (-> & -> & E & _). cbn. rewrite IH. cbn. by rewrite E.
Qed.

Lemma hex_of_length bs : length (hex_of bs) = 2 * length bs.
Proof. induction bs as [|b bs IH]; [done|]. rewrite hex_of_cons. cbn. lia. Qed.

Lemma hex_of_digits bs : Forall (λ c, unnibble c ≠ None ∧ solid c = true) (hex_of bs).
Proof.
  induction bs as [|b bs IH]; [by constructor|]. rewrite hex_of_cons.
  destruct (nibbles b) as (E1 & E2 & _ & S1 & S2). repeat constructor; [congruence..|done].
Qed.

Lemma hex_of_ends bs : bs ≠ [] → solid_ends (hex_of bs).
Proof.
  intros Hne. pose proof (hex_of_digits bs) as Hd. destruct (hex_of bs) as [|c s] eqn:E.
  - pose proof (hex_of_length bs) as L. rewrite E in L. destruct bs; cbn in L; [done|lia].
  - destruct (exists_last (l := c :: s)) as (s2 & d & E2); [done|]. exists c, s, s2, d.
    split_and!; [done..| |].
    + by inversion Hd as [|?? [_ ?]].
    + rewrite E2 in Hd. apply Forall_app in Hd as [_ Hd]. by inversion Hd as [|?? [_ ?]].
Qed.

Lemma solid_ends_app p s : p ≠ [] → solid_ends s → solid (default x00 (head p)) = true → solid_ends (p ++ s).
Proof.
  intros Hp (c & s1 & s2 & d & _ & -> & _ & Hd) H. destruct p as [|x p]; [done|].
  exists x, (p ++ s2 ++ [d]), (x :: p ++ s2), d. split_and!; [done|cbn; by rewrite app_assoc|done..].
Qed.

Lemma hex_no_prefix bs : strip_prefix LINK_PREFIX (hex_of bs) = None.
Proof.
  destruct (strip_prefix LINK_PREFIX (hex_of bs)) as [r|] eqn:E; [|done]. apply strip_prefix_Some in E.
  pose proof (hex_of_digits bs) as H. rewrite E in H. apply Forall_app in H as [H _].
  rewrite list.Forall_forall in H. destruct (H x2d) as [H' _]; [|by destruct H'].
  apply list_elem_of_In. vm_compute. tauto.
Qed.

Lemma token_encode_nonempty t : token_encode t ≠ [].
Proof.
  intros E. apply (f_equal len) in E. revert E. unfold token_encode. enc_norm.
  rewrite len_app, len_lenp. change (len []) with 0%N. lia.
Qed.

(** The hexadecimal part of a link, however it was found, is the token. *)
Lemma from_hex t :
  token_ok t →
  (if negb (Nat.even (length (hex_of (token_encode t)))) || bool_decide (hex_of (token_encode t) = [])
   then Err (CoInvite "not a link")
   else let? bs := ok_or (unhex (hex_of (token_encode t))) (CoInvite "not hex") in
        map_err (λ _, CoInvite "malformed token") (token_decode bs)) = Ok t.
Proof.
  intros Ht. rewrite hex_of_length, Nat.even_mul. cbn [Nat.even orb negb].
  rewrite unhex_hex_of, bool_decide_false.
  - change (map_err (λ _, CoInvite "malformed token") (token_decode (token_encode t)) = Ok t).
    by rewrite token_round.
  - intros E. apply (f_equal length) in E. rewrite hex_of_length in E.
    pose proof (token_encode_nonempty t). destruct (token_encode t); cbn in E; [done|lia].
Qed.

Lemma link_ends t : solid_ends (to_link t).
Proof. apply solid_ends_app; [done|apply hex_of_ends, token_encode_nonempty|reflexivity]. Qed.

Lemma from_link_padded t l1 l2 :
  token_ok t → Forall (.∈ WHITE_SPACE) l1 → Forall (.∈ WHITE_SPACE) l2 →
  from_link (concat l1 ++ to_link t ++ concat l2) = Ok t ∧
  from_link (concat l1 ++ hex_of (token_encode t) ++ concat l2) = Ok t.
Proof.
  intros Ht H1 H2. pose proof (hex_of_ends _ (token_encode_nonempty t)) as He. unfold from_link. split.
  - rewrite trim_pad by (done || apply link_ends).
    change (strip_prefix LINK_PREFIX (to_link t)) with (strip_prefix LINK_PREFIX (LINK_PREFIX ++ hex_of (token_encode t))).
    rewrite strip_prefix_app. cbn [default]. rewrite trim_solid by done. by apply from_hex.
  - rewrite trim_pad by done. rewrite hex_no_prefix. cbn [default]. rewrite trim_solid by done. by apply from_hex.
Qed.

(** What a link is read as decoded, so it is within its field sizes. *)
Lemma from_link_ok s t : from_link s = Ok t → token_ok t.
Proof.
  unfold from_link. destruct (_ || _); [done|]. destruct (unhex _) as [bs|]; cbn [ok_or]; [|done].
  change (map_err (λ _, CoInvite "malformed token") (token_decode bs) = Ok t → token_ok t).
  destruct (token_decode bs) as [t'|] eqn:E; [|done]. cbn. injection 1 as <-. by apply token_canon in E as [? _].
Qed.
