(* ===== verification/Channel.v ===== *)
(** * Channels on the client ([crates/dante-core/src/channel.rs])

    The description of a channel, the control messages its members exchange
    over direct messages, and the frames of the channel log with the outer
    layer a password puts around them. *)

From S2P Require Import Prelude Utf8 Enc Crypto ProtoRecord IdentityRecords Server Wire WireProofs.

(** ** Password hashing ([crates/dante-crypto/src/pwhash.rs]) *)

Record Argon2idParams := mkArgon { ar_m_cost_kib : N; ar_t_cost : N; ar_p_cost : N }.
Definition KEYSTORE : Argon2idParams := mkArgon 262144 3 1.

(** The two failures of the library (parameters, hashing) are one here. *)
Definition pwhash_argon2id `{CryptoPrims} (password salt : bytes) (params : Argon2idParams) (out_len : nat)
    : result bytes CryptoError :=
  ok_or (prim_argon2id password salt (ar_m_cost_kib params) (ar_t_cost params) (ar_p_cost params) out_len)
        (CE_Argon2 "hash failed").

(** ** Channel descriptions *)

Record ChannelInfo := mkInfo {
  ci_server_root : bytes;
  ci_server_name : bytes;
  ci_channel_id : bytes;
  ci_channel_name : bytes;
  ci_private : bool;
  ci_host_id : bytes;
  ci_voice : bool;
}.

Definition info_write (self : ChannelInfo) (w : Writer) : Writer :=
  w |> w_fixed (ci_server_root self) |> w_string (ci_server_name self) |> w_fixed (ci_channel_id self)
    |> w_string (ci_channel_name self) |> w_bool (ci_private self) |> w_fixed (ci_host_id self)
    |> w_bool (ci_voice self).

(** The last field is read if any byte is left. *)
Definition info_read : Read ChannelInfo :=
  let! server_root := r_fixed 32 in
  let! server_name := r_string in
  let! channel_id := r_fixed 32 in
  let! channel_name := r_string in
  let! private := r_bool in
  let! host_id := r_fixed 32 in
  let! more := r_more in
  let! voice := (if more : bool then r_bool else r_ret false) in
  r_ret (mkInfo server_root server_name channel_id channel_name private host_id voice).

Definition info_encode (self : ChannelInfo) : bytes := w_into_vec (info_write self w_new).
Definition r_info : Read ChannelInfo := let! v := info_read in let! _ := r_finish in r_ret v.
Definition info_decode (bs : bytes) : result ChannelInfo WireError := run r_info bs.

(** ** Control messages *)

Record BacklogEntry := mkBacklog { be_sender : bytes; be_at_ms : N; be_text : bytes; be_seq : N }.

Inductive ChannelControl : Type :=
  | MlsWelcome (info : ChannelInfo) (welcome : bytes) (since_seq : N) (log_key : bytes)
  | Redeem (token pw : bytes)
  | Policy (policy : bytes)
  | KickRequest (channel_id member : bytes) (ban : bool)
  | NicknameRequest (channel_id nickname : bytes)
  | Leave (channel_id : bytes)
  | Closed (channel_id : bytes)
  | Renamed (channel_id name : bytes)
  | History (channel_id : bytes) (entries : list BacklogEntry)
  | Invite (channel_id channel_name server_name : bytes)
  | InviteAccept (channel_id : bytes)
  | InviteDecline (channel_id : bytes).

#[global] Instance ChannelInfo_eq_dec : EqDecision ChannelInfo.
Proof. solve_decision. Defined.
#[global] Instance BacklogEntry_eq_dec : EqDecision BacklogEntry.
Proof. solve_decision. Defined.
#[global] Instance ChannelControl_eq_dec : EqDecision ChannelControl.
Proof. solve_decision. Defined.

Definition w_backlog (e : BacklogEntry) (w : Writer) : Writer :=
  w |> w_fixed (be_sender e) |> w_u64 (be_at_ms e) |> w_string (be_text e) |> w_u64 (be_seq e).

Definition control_encode (self : ChannelControl) : bytes :=
  let w := w_new in
  w_into_vec match self with
  | MlsWelcome info welcome since_seq log_key =>
    info_write info (w |> w_u8 1) |> w_bytes welcome |> w_u64 since_seq |> w_fixed log_key
  | Redeem token pw => w |> w_u8 3 |> w_bytes token |> w_string pw
  | Policy policy => w |> w_u8 5 |> w_bytes policy
  | KickRequest channel_id member ban => w |> w_u8 6 |> w_fixed channel_id |> w_fixed member |> w_bool ban
  | NicknameRequest channel_id nickname => w |> w_u8 15 |> w_fixed channel_id |> w_string nickname
  | Leave channel_id => w |> w_u8 7 |> w_fixed channel_id
  | Closed channel_id => w |> w_u8 8 |> w_fixed channel_id
  | Renamed channel_id name => w |> w_u8 9 |> w_fixed channel_id |> w_string name
  | History channel_id entries =>
    w_each w_backlog entries (w |> w_u8 14 |> w_fixed channel_id |> w_u32 (as_u32 (len entries)))
  | Invite channel_id channel_name server_name =>
    w |> w_u8 11 |> w_fixed channel_id |> w_string channel_name |> w_string server_name
  | InviteAccept channel_id => w |> w_u8 12 |> w_fixed channel_id
  | InviteDecline channel_id => w |> w_u8 13 |> w_fixed channel_id
  end.

(** A backlog line of today, and of a host that did not send sequence numbers. *)
Definition r_backlog : Read BacklogEntry :=
  let! sender := r_fixed 32 in
  let! at_ms := r_u64 in
  let! text := r_string in
  let! seq := r_u64 in
  r_ret (mkBacklog sender at_ms text seq).
Definition r_old_backlog : Read BacklogEntry :=
  let! sender := r_fixed 32 in
  let! at_ms := r_u64 in
  let! text := r_string in
  r_ret (mkBacklog sender at_ms text 0).

(** [let n = r.u32()?; for _ in 0..n { .. }]: the count itself is not checked,
    each missing element is an error of its own. *)
Definition r_loop {A} (m : Read A) : Read (list A) :=
  let! n := r_u32 in r_repeat (N.to_nat n) m.

Definition r_control_body (tag : N) : Read ChannelControl :=
  match tag with
  | 1%N => let! info := info_read in let! welcome := r_bytes in let! since_seq := r_u64 in
           let! log_key := r_fixed 32 in r_ret (MlsWelcome info welcome since_seq log_key)
  | 3%N => let! token := r_bytes in let! pw := r_string in r_ret (Redeem token pw)
  | 5%N => let! policy := r_bytes in r_ret (Policy policy)
  | 6%N => let! channel_id := r_fixed 32 in let! member := r_fixed 32 in let! ban := r_bool in
           r_ret (KickRequest channel_id member ban)
  | 15%N => let! channel_id := r_fixed 32 in let! nickname := r_string in r_ret (NicknameRequest channel_id nickname)
  | 7%N => let! channel_id := r_fixed 32 in r_ret (Leave channel_id)
  | 8%N => let! channel_id := r_fixed 32 in r_ret (Closed channel_id)
  | 9%N => let! channel_id := r_fixed 32 in let! name := r_string in r_ret (Renamed channel_id name)
  | 10%N => let! channel_id := r_fixed 32 in let! entries := r_loop r_old_backlog in r_ret (History channel_id entries)
  | 11%N => let! channel_id := r_fixed 32 in let! channel_name := r_string in let! server_name := r_string in
            r_ret (Invite channel_id channel_name server_name)
  | 12%N => let! channel_id := r_fixed 32 in r_ret (InviteAccept channel_id)
  | 13%N => let! channel_id := r_fixed 32 in r_ret (InviteDecline channel_id)
  | 14%N => let! channel_id := r_fixed 32 in let! entries := r_loop r_backlog in r_ret (History channel_id entries)
  | other => r_err (BadDiscriminant "ChannelControl" other)
  end.

Definition r_control : Read ChannelControl :=
  let! tag := r_u8 in
  let! out := r_control_body tag in
  let! _ := r_finish in
  r_ret out.
Definition control_decode (bs : bytes) : result ChannelControl WireError := run r_control bs.

(** ** Log frames *)

Definition FRAME_APP : byte := x01.
Definition FRAME_COMMIT : byte := x02.
Definition frame (tag : byte) (payload : bytes) : bytes := tag :: payload.
Definition unframe (blob : bytes) : option (byte * bytes) :=
  match blob with [] => None | t :: rest => Some (t, rest) end.

Definition LOG_KEY_DOMAIN : bytes := lit "dante/channel-content/v1".

Section frames.
Context `{CryptoPrims}.

(** [None]: the [expect] panics. *)
Definition derive_log_key (server_root channel_id password : bytes) : option bytes :=
  let salt := LOG_KEY_DOMAIN ++ server_root ++ channel_id in
  match pwhash_argon2id password salt KEYSTORE 32 with Ok key => Some key | Err _ => None end.

(** [nonce] is what [random_array::<24>()] draws. *)
Definition wrap (log_key channel_id frame nonce : bytes) : bytes :=
  let ct := xchacha_seal log_key nonce frame channel_id in
  nonce ++ ct.

Definition unwrap (log_key channel_id blob : bytes) : option bytes :=
  if (length blob <? 24)%nat then None
  else match xchacha_open log_key (take 24 blob) (drop 24 blob) channel_id with
       | Ok frame => Some frame
       | Err _ => None
       end.
End frames.

(** ** Lemmas *)

Definition info_ok (i : ChannelInfo) : Prop :=
  ok_len 32 (ci_server_root i) ∧ ok_str (ci_server_name i) ∧ ok_len 32 (ci_channel_id i) ∧
  ok_str (ci_channel_name i) ∧ ok_len 32 (ci_host_id i).
Definition backlog_ok (e : BacklogEntry) : Prop :=
  ok_len 32 (be_sender e) ∧ ok_u64 (be_at_ms e) ∧ ok_str (be_text e) ∧ ok_u64 (be_seq e).

(** What versions without voice channels wrote. *)
Definition enc_info_old (i : ChannelInfo) : bytes :=
  ci_server_root i ++ lenp (ci_server_name i) ++ ci_channel_id i ++ lenp (ci_channel_name i) ++
  enc_bool (ci_private i) ++ ci_host_id i.
Definition enc_info (i : ChannelInfo) : bytes := enc_info_old i ++ enc_bool (ci_voice i).
Definition enc_backlog_old (e : BacklogEntry) : bytes := be_sender e ++ be 8 (be_at_ms e) ++ lenp (be_text e).
Definition enc_backlog (e : BacklogEntry) : bytes := enc_backlog_old e ++ be 8 (be_seq e).

Lemma w_buf_info i w : w_buf (info_write i w) = w_buf w ++ enc_info i.
Proof. unfold info_write, enc_info, enc_info_old. by enc_norm. Qed.
Lemma w_buf_backlog e w : w_buf (w_backlog e w) = w_buf w ++ enc_backlog e.
Proof. unfold w_backlog, enc_backlog, enc_backlog_old. by enc_norm. Qed.

#[export] Instance info_parses : Parses info_read enc_info info_ok.
Proof.
  intros [a b c d e f v] pre post (Ha & Hb & Hc & Hd & Hf). cbn in Ha, Hb, Hc, Hd, Hf.
  unfold info_read, enc_info, enc_info_old.
  cbn [ci_server_root ci_server_name ci_channel_id ci_channel_name ci_private ci_host_id ci_voice].
  rewrite <- !app_assoc. parses. rewrite r_bind_more.
  assert ((0 <? length (enc_bool v ++ post))%nat = true) as -> by (by destruct v).
  parses. unfold r_ret, id. by rewrite <- !app_assoc.
Qed.

(** At the very end of the input the voice byte may be missing. *)
Lemma info_canon pre xs i r :
  info_read (rd pre xs) = Ok (i, r) →
  info_ok i ∧ ((∃ post, xs = enc_info i ++ post ∧ r = rd (pre ++ enc_info i) post) ∨
               (xs = enc_info_old i ∧ ci_voice i = false ∧ r = rd (pre ++ xs) [])).
Proof.
  unfold info_read. intros H. canons H. rewrite r_bind_more in H. destruct (_ <? _)%nat eqn:E.
  - canons H. injection H as <- <-. split; [done|]. left. eexists. unfold enc_info, enc_info_old, id.
    cbn [ci_server_root ci_server_name ci_channel_id ci_channel_name ci_private ci_host_id ci_voice].
    rewrite <- !app_assoc. split; reflexivity.
  - apply Nat.ltb_ge in E. unfold r_bind, r_ret in H. injection H as <- <-. split; [done|]. right.
    unfold enc_info_old, id.
    cbn [ci_server_root ci_server_name ci_channel_id ci_channel_name ci_private ci_host_id ci_voice].
    match type of E with (length ?p ≤ _)%nat => destruct p; [|cbn in E; lia] end. rewrite ?app_nil_r, <- !app_assoc. done.
Qed.

Lemma info_encode_eq i : info_encode i = enc_info i.
Proof. unfold info_encode. by rewrite w_into_vec_buf, w_buf_info. Qed.

Lemma info_round i : info_ok i → info_decode (info_encode i) = Ok i.
Proof.
  intros Hi. eapply run_parse. rewrite info_encode_eq. unfold r_info. parses. done.
Qed.

Lemma r_bind_ret {A B} (a : A) (k : A → Read B) r : r_bind (r_ret a) k r = k a r.
Proof. done. Qed.

(** A stored description of the version before. *)
Lemma info_old_round i : info_ok i → ci_voice i = false → info_decode (enc_info_old i) = Ok i.
Proof.
  destruct i as [a b c d e f v]. intros (Ha & Hb & Hc & Hd & Hf) Hv. cbn in Ha, Hb, Hc, Hd, Hf, Hv. subst v.
  eapply run_parse. unfold r_info, info_read, enc_info_old.
  cbn [ci_server_root ci_server_name ci_channel_id ci_channel_name ci_private ci_host_id].
  rewrite <- !app_assoc. rewrite r_bind_assoc. parse1. do 5 (rewrite r_bind_assoc; parse1).
  rewrite r_bind_assoc, r_bind_more. change (0 <? length (@nil byte))%nat with false.
  rewrite r_bind_assoc, !r_bind_ret, r_bind_finish. done.
Qed.

Lemma info_decode_canon bs i :
  info_decode bs = Ok i → info_ok i ∧ (bs = info_encode i ∨ (bs = enc_info_old i ∧ ci_voice i = false)).
Proof.
  intros [r' Hr]%run_canon. unfold r_info in Hr. apply r_bind_inv in Hr as (x & r1 & Hi & Hr).
  rewrite info_encode_eq. apply info_canon in Hi as [Hok [(post & -> & ->)|(-> & Hv & ->)]];
    apply r_bind_finish_canon in Hr as [Hp Hr]; injection Hr as <- _; (split; [done|]).
  - left. by rewrite Hp, app_nil_r.
  - by right.
Qed.

#[export] Instance backlog_parses : Parses r_backlog enc_backlog backlog_ok.
Proof.
  intros [a b c d] pre post (Ha & Hb & Hc & Hd). cbn in Ha, Hb, Hc, Hd.
  unfold r_backlog, enc_backlog, enc_backlog_old. cbn [be_sender be_at_ms be_text be_seq].
  rewrite <- !app_assoc. parses. unfold r_ret, id. by rewrite <- !app_assoc.
Qed.
#[export] Instance backlog_canon : Canon r_backlog enc_backlog backlog_ok.
Proof.
  intros pre xs e r H. unfold r_backlog in H. canons H. injection H as <- <-. split; [done|].
  eexists. unfold enc_backlog, enc_backlog_old, id. cbn [be_sender be_at_ms be_text be_seq].
  rewrite <- !app_assoc. split; reflexivity.
Qed.

(** Lines without sequence numbers. *)
Definition old_backlog_ok (e : BacklogEntry) : Prop := backlog_ok e ∧ be_seq e = 0%N.
#[export] Instance old_backlog_parses : Parses r_old_backlog enc_backlog_old old_backlog_ok.
Proof.
  intros [a b c d] pre post [(Ha & Hb & Hc & Hd) He]. cbn in Ha, Hb, Hc, Hd, He. subst d.
  unfold r_old_backlog, enc_backlog_old. cbn [be_sender be_at_ms be_text be_seq].
  rewrite <- !app_assoc. parses. unfold r_ret, id. by rewrite <- !app_assoc.
Qed.
#[export] Instance old_backlog_canon : Canon r_old_backlog enc_backlog_old old_backlog_ok.
Proof.
  intros pre xs e r H. unfold r_old_backlog in H. canons H. injection H as <- <-. split; [done|].
  eexists. unfold enc_backlog_old, id. cbn [be_sender be_at_ms be_text be_seq].
  rewrite <- !app_assoc. split; reflexivity.
Qed.

#[export] Instance loop_parses {A} (m : Read A) enc ok :
  Parses m enc ok → Parses (r_loop m) (enc_list enc) (ok_list ok).
Proof.
  intros Hm l pre post [Hf Hl]. unfold r_loop, enc_list. rewrite <- app_assoc.
  rewrite (r_bind_rd _ _ _ _ _ _ _ u32_parses) by apply as_u32_ok. rewrite (as_u32_fits l Hf).
  unfold len at 1. rewrite Nat2N.id, (repeat_parses m enc ok l) by done. by rewrite <- app_assoc.
Qed.
#[export] Instance loop_canon {A} (m : Read A) enc ok :
  Canon m enc ok → Canon (r_loop m) (enc_list enc) (ok_list ok).
Proof.
  intros Hm pre xs l r H. apply (r_bind_canon _ (be 4) ok_u32) in H; [|apply _].
  destruct H as (n & post & Hn & -> & H).
  destruct (repeat_canon m enc ok _ _ _ _ _ H) as (Hln & Hl & post' & -> & ->).
  assert (Hlen : len l = n) by (unfold len; rewrite Hln; lia).
  assert (Hf : fits_u32 l) by (unfold fits_u32; by rewrite Hlen).
  split; [done|]. exists post'. unfold enc_list. rewrite (as_u32_fits l Hf), Hlen. by rewrite <- !app_assoc.
Qed.

(** *** Control messages *)

Definition control_ok (c : ChannelControl) : Prop :=
  match c with
  | MlsWelcome i w s k => info_ok i ∧ fits_u32 w ∧ ok_u64 s ∧ ok_len 32 k
  | Redeem t p => fits_u32 t ∧ ok_str p
  | Policy p => fits_u32 p
  | KickRequest c m _ => ok_len 32 c ∧ ok_len 32 m
  | NicknameRequest c n | Renamed c n => ok_len 32 c ∧ ok_str n
  | Leave c | Closed c | InviteAccept c | InviteDecline c => ok_len 32 c
  | History c l => ok_len 32 c ∧ ok_list backlog_ok l
  | Invite c n s => ok_len 32 c ∧ ok_str n ∧ ok_str s
  end.

Definition control_tag (c : ChannelControl) : N :=
  match c with
  | MlsWelcome _ _ _ _ => 1 | Redeem _ _ => 3 | Policy _ => 5 | KickRequest _ _ _ => 6
  | NicknameRequest _ _ => 15 | Leave _ => 7 | Closed _ => 8 | Renamed _ _ => 9 | History _ _ => 14
  | Invite _ _ _ => 11 | InviteAccept _ => 12 | InviteDecline _ => 13
  end.

Definition control_body (c : ChannelControl) : bytes :=
  match c with
  | MlsWelcome i w s k => enc_info i ++ lenp w ++ be 8 s ++ k
  | Redeem t p => lenp t ++ lenp p
  | Policy p => lenp p
  | KickRequest c m b => c ++ m ++ enc_bool b
  | NicknameRequest c n | Renamed c n => c ++ lenp n
  | Leave c | Closed c | InviteAccept c | InviteDecline c => c
  | History c l => c ++ enc_list enc_backlog l
  | Invite c n s => c ++ lenp n ++ lenp s
  end.

Lemma control_encode_eq c : control_encode c = enc_u8 (control_tag c) ++ control_body c.
Proof.
  destruct c; unfold control_encode, control_tag, control_body.
  1: rewrite w_into_vec_buf; enc_norm; rewrite w_buf_info; by enc_norm.
  8: rewrite w_into_vec_buf, (w_buf_each _ enc_backlog) by apply w_buf_backlog; unfold enc_list; by enc_norm.
  all: by enc_norm.
Qed.

Lemma control_body_parses c pre post :
  control_ok c →
  r_control_body (control_tag c) (rd pre (control_body c ++ post)) = Ok (c, rd (pre ++ control_body c) post).
Proof.
  destruct c; cbn [control_ok]; intros Hok; destruct_and?; unfold control_tag, control_body; cbn [r_control_body];
    rewrite <- ?app_assoc; parses; unfold r_ret, Datatypes.id; rewrite <- ?app_assoc, ?app_nil_r; done.
Qed.

Lemma control_round c : control_ok c → control_decode (control_encode c) = Ok c.
Proof.
  intros Hok. rewrite control_encode_eq. apply message_round; [by destruct c|].
  intros pre post. by apply control_body_parses.
Qed.

(** The backlog of a host of the first version. *)
Definition old_history (channel_id : bytes) (entries : list BacklogEntry) : bytes :=
  enc_u8 10 ++ channel_id ++ enc_list enc_backlog_old entries.

Lemma old_history_decode c l :
  ok_len 32 c → ok_list old_backlog_ok l → control_decode (old_history c l) = Ok (History c l).
Proof.
  intros Hc Hl. unfold old_history.
  apply (message_round r_control_body 10 (c ++ enc_list enc_backlog_old l) (History c l)); [done|].
  intros pre post. cbn [r_control_body]. rewrite <- ?app_assoc. parses.
  unfold r_ret, Datatypes.id. by rewrite <- ?app_assoc.
Qed.

(** What follows a nested description is never empty, so its voice byte is
    always read. *)
Lemma nested_info {B} (k : ChannelInfo → bytes → Read B) pre xs b r :
  r_bind info_read (λ i, r_bind r_bytes (k i)) (rd pre xs) = Ok (b, r) →
  ∃ i post, info_ok i ∧ xs = enc_info i ++ post ∧ r_bind r_bytes (k i) (rd (pre ++ enc_info i) post) = Ok (b, r).
Proof.
  intros H. apply r_bind_inv in H as (i & r1 & Hi & H).
  apply info_canon in Hi as [Hok [(post & -> & ->)|(-> & _ & ->)]]; [by exists i, post|].
  exfalso. apply (r_bind_canon _ lenp fits_u32) in H as (w & post & _ & E & _); [|apply _].
  apply (f_equal length) in E. rewrite length_app in E. pose proof (lenp_nonempty w). cbn in E. lia.
Qed.

Lemma control_body_canon tag pre xs c rd' :
  r_control_body tag (rd pre xs) = Ok (c, rd') →
  control_ok c ∧ ∃ post,
    (control_tag c = tag ∧ xs = control_body c ++ post ∧ rd' = rd (pre ++ control_body c) post) ∨
    (tag = 10%N ∧ ∃ ch l, c = History ch l ∧ ok_list old_backlog_ok l ∧
       xs = ch ++ enc_list enc_backlog_old l ++ post ∧ rd' = rd (pre ++ ch ++ enc_list enc_backlog_old l) post).
Proof.
  assert (Hold : ∀ l, ok_list old_backlog_ok l → ok_list backlog_ok l).
  { intros l [Hf Hl]. split; [done|]. eapply list.Forall_impl; [exact Hl|]. by intros x [? _]. }
  unfold r_control_body.
  repeat (case_match; try discriminate); intros Hp;
    try (apply nested_info in Hp as (? & ? & ? & -> & Hp));
    cbv beta in Hp; repeat (canon1 Hp; cbv beta in Hp); injection Hp as <- <-;
    (split; [cbn [control_ok]; auto 10|]); eexists;
    first [left; split; [reflexivity|]; cbn [control_body]
          |right; split; [reflexivity|]; do 2 eexists; split; [reflexivity|]; split; [eassumption|]];
    unfold Datatypes.id; (split; [rewrite <- ?app_assoc; reflexivity|rewrite ?app_nil_r, <- ?app_assoc; reflexivity]).
Qed.

(** Whatever decodes is well formed, and is the encoding of what it decodes
    to, or a backlog without sequence numbers. *)
Lemma control_canon bs c :
  control_decode bs = Ok c →
  control_ok c ∧ (control_encode c = bs ∨
    ∃ ch l, c = History ch l ∧ ok_list old_backlog_ok l ∧ bs = old_history ch l).
Proof.
  intros (tag & post & r' & _ & -> & Hm & H0)%message_canon.
  apply control_body_canon in Hm as (Hok & p & [(<- & -> & ->)|(-> & ch & l & -> & Hl & -> & ->)]);
    (split; [done|]); rewrite r_remaining_rd in H0; apply nil_length_inv in H0 as ->; rewrite ?app_nil_r.
  - left. apply control_encode_eq.
  - right. by exists ch, l.
Qed.

(** *** Log frames *)

Lemma unwrap_wrap `{CryptoPrims, !AeadLaws} key ch f nonce :
  length nonce = 24 → unwrap key ch (wrap key ch f nonce) = Some f.
Proof.
  intros Hn. unfold unwrap, wrap. rewrite length_app, Hn.
  replace (24 + _ <? 24)%nat with false by (symmetry; apply Nat.ltb_ge; lia).
  rewrite take_app_all, drop_app_all by done. unfold xchacha_open, xchacha_seal. by rewrite xchacha_open_seal.
Qed.

Lemma unframe_frame tag payload : unframe (frame tag payload) = Some (tag, payload).
Proof. done. Qed.
