(* ===== verification/Keystore.v ===== *)
(** * Sealed containers of an identity
    ([crates/dante-identity/src/keystore.rs], [backup.rs], [identity.rs])

    The keystore on disk and the recovery backup: one container, in two
    contexts.  CBOR is the ciborium crate's: a parameter that reads back what
    it wrote.  Salt and nonce are drawn by the code and are arguments. *)

From S2P Require Import Prelude Enc Crypto IdentityRecords X3dh Channel.

Definition KEYSTORE_VERSION : N := 1.
Definition CONTEXT_KEYSTORE : bytes := lit "dante-keystore-v1".
Definition CONTEXT_BACKUP : bytes := lit "dante-key-backup-v1".
Definition KEYSTORE_SALT_LEN : nat := 16.
Definition MAX_KEYSTORE_M_COST_KIB : N := 2 * 1024 * 1024.
Definition MAX_KEYSTORE_T_COST : N := 16.

Record KdfDesc := mkKdf { kd_alg : bytes; kd_m_cost_kib : N; kd_t_cost : N; kd_p : N; kd_salt : bytes }.
Record KeystoreFile := mkFile { kf_version : N; kf_kdf : KdfDesc; kf_nonce : bytes; kf_ciphertext : bytes }.
Record KeystoreInner := mkInner {
  ki_idk_secret : bytes; ki_ik_secret : bytes; ki_ratchet_db_key : bytes; ki_created_ms : N }.

#[global] Instance KdfDesc_eq_dec : EqDecision KdfDesc.
Proof. solve_decision. Defined.
#[global] Instance KeystoreFile_eq_dec : EqDecision KeystoreFile.
Proof. solve_decision. Defined.
#[global] Instance KeystoreInner_eq_dec : EqDecision KeystoreInner.
Proof. solve_decision. Defined.

(** The values the Rust types hold. *)
Definition kdf_typed (k : KdfDesc) : Prop :=
  ok_u32 (kd_m_cost_kib k) ∧ ok_u32 (kd_t_cost k) ∧ ok_u32 (kd_p k) ∧ ok_len KEYSTORE_SALT_LEN (kd_salt k).
Definition file_typed (f : KeystoreFile) : Prop :=
  ok_u16 (kf_version f) ∧ kdf_typed (kf_kdf f) ∧ ok_len 24 (kf_nonce f).
Definition inner_typed (i : KeystoreInner) : Prop :=
  ok_len 32 (ki_idk_secret i) ∧ ok_len 32 (ki_ik_secret i) ∧ ok_len 32 (ki_ratchet_db_key i) ∧ ok_u64 (ki_created_ms i).

(** [ciborium::into_writer] and [from_reader] at a type; [None] is their
    error. *)
Class Cbor (A : Type) (typed : A → Prop) : Type := {
  cbor_write : A → option bytes;
  cbor_read : bytes → option A;
  cbor_round a bs : typed a → cbor_write a = Some bs → cbor_read bs = Some a;
}.

(** [Identity], with the two fields the handshakes do not use. *)
Record StoredIdentity := mkStored { si_identity : Identity; si_ratchet_db_key : bytes; si_created_ms : N }.

Definition from_parts (idk_secret ik_secret ratchet_db_key : bytes) (created_ms : N) : StoredIdentity :=
  mkStored (mkIdentity idk_secret ik_secret) ratchet_db_key created_ms.

Section keystore.
Context `{CryptoPrims, !Cbor KeystoreFile file_typed, !Cbor KeystoreInner inner_typed}.

(** [IdentityId::of] *)
Definition identity_id_of (idk_pub : bytes) : bytes := sha256 idk_pub.
Definition id_of_identity (me : Identity) : bytes := identity_id_of (identity_sign_public me).

Definition p2p_node_seed (me : Identity) : bytes := sha256_parts [lit "dante/p2p-node-seed/v1"; id_idk me].

Definition keystore_aad (context : bytes) (version : N) (kdf : KdfDesc) : bytes :=
  context ++ be 2 version ++ kd_alg kdf ++ be 4 (kd_m_cost_kib kdf) ++ be 4 (kd_t_cost kdf) ++ be 4 (kd_p kdf)
  ++ kd_salt kdf.

Definition cbor_to_vec {A typed} `{!Cbor A typed} (value : A) : result bytes IdentityError :=
  ok_or (cbor_write value) IE_Encoding.
Definition cbor_from_slice {A typed} `{!Cbor A typed} (bs : bytes) : result A IdentityError :=
  ok_or (cbor_read bs) IE_Encoding.

Definition seal_with_context (identity : StoredIdentity) (passphrase : bytes) (params : Argon2idParams)
    (context salt nonce : bytes) : result bytes IdentityError :=
  let kdf := mkKdf (lit "argon2id") (ar_m_cost_kib params) (ar_t_cost params) (ar_p_cost params) salt in
  let? wrapping_key := map_err IE_Crypto (pwhash_argon2id passphrase (kd_salt kdf) params 32) in
  let inner := mkInner (id_idk (si_identity identity)) (id_ik (si_identity identity)) (si_ratchet_db_key identity)
                 (si_created_ms identity) in
  let? plaintext := cbor_to_vec inner in
  let ciphertext := xchacha_seal wrapping_key nonce plaintext (keystore_aad context KEYSTORE_VERSION kdf) in
  cbor_to_vec (mkFile KEYSTORE_VERSION kdf nonce ciphertext).

Definition open_with_context (bs passphrase context : bytes) : result StoredIdentity IdentityError :=
  let? file := cbor_from_slice (A:=KeystoreFile) bs in
  if negb (kf_version file =? KEYSTORE_VERSION)%N then Err (IE_KeystoreVersion (kf_version file))
  else if negb (bool_decide (kd_alg (kf_kdf file) = lit "argon2id")) then Err IE_KeystoreOpen
  else if (MAX_KEYSTORE_M_COST_KIB <? kd_m_cost_kib (kf_kdf file))%N || (MAX_KEYSTORE_T_COST <? kd_t_cost (kf_kdf file))%N
  then Err IE_KeystoreOpen
  else
    let params := mkArgon (kd_m_cost_kib (kf_kdf file)) (kd_t_cost (kf_kdf file)) (kd_p (kf_kdf file)) in
    let? wrapping_key := map_err IE_Crypto (pwhash_argon2id passphrase (kd_salt (kf_kdf file)) params 32) in
    let? plaintext := map_err (λ _, IE_KeystoreOpen)
      (xchacha_open wrapping_key (kf_nonce file) (kf_ciphertext file)
         (keystore_aad context (kf_version file) (kf_kdf file))) in
    let? inner := cbor_from_slice (A:=KeystoreInner) plaintext in
    Ok (from_parts (ki_idk_secret inner) (ki_ik_secret inner) (ki_ratchet_db_key inner) (ki_created_ms inner)).

Definition keystore_seal (identity : StoredIdentity) (passphrase salt nonce : bytes) :=
  seal_with_context identity passphrase KEYSTORE CONTEXT_KEYSTORE salt nonce.
Definition keystore_seal_with_params (identity : StoredIdentity) (passphrase : bytes) (params : Argon2idParams)
    (salt nonce : bytes) := seal_with_context identity passphrase params CONTEXT_KEYSTORE salt nonce.
Definition keystore_open (bs passphrase : bytes) := open_with_context bs passphrase CONTEXT_KEYSTORE.

(** [backup.rs] *)
Definition backup_export (identity : StoredIdentity) (recovery_passphrase salt nonce : bytes) :=
  seal_with_context identity recovery_passphrase KEYSTORE CONTEXT_BACKUP salt nonce.
Definition backup_export_with_params (identity : StoredIdentity) (recovery_passphrase : bytes)
    (params : Argon2idParams) (salt nonce : bytes) :=
  seal_with_context identity recovery_passphrase params CONTEXT_BACKUP salt nonce.
Definition backup_import (bs recovery_passphrase : bytes) := open_with_context bs recovery_passphrase CONTEXT_BACKUP.
End keystore.
