(* ===== verification/IdentityTheorems.v ===== *)
(** * What holds of identity ids, keystores and backups *)

From S2P Require Import Prelude Utf8 Enc Crypto IdentityRecords FileTransfer X3dh Channel IdentityIds Keystore.

(** ** Bits shifted into a 16-bit accumulator *)

Lemma mod_pow_mod a m n : (m ≤ n)%N → ((a mod 2 ^ n) mod 2 ^ m = a mod 2 ^ m)%N.
Proof.
  intros Hm. replace n with (m + (n - m))%N by lia. rewrite N.pow_add_r, N.Div0.mod_mul_r, N.mul_comm.
  rewrite N.Div0.mod_add. apply N.Div0.mod_mod.
Qed.

Lemma lor_add a b w : (a mod 2 ^ w = 0)%N → (b < 2 ^ w)%N → N.lor a b = (a + b)%N.
Proof.
  intros Ha Hb. assert (N.land a b = 0)%N as Hl; [|by rewrite <- N.lxor_lor, N.add_nocarry_lxor].
  apply N.bits_inj. intros i. rewrite N.land_spec, N.bits_0.
  destruct (N.ltb_spec i w) as [Hi|Hi].
  - rewrite <- (N.mod_pow2_bits_low a w i Hi), Ha, N.bits_0. done.
  - destruct (decide (b = 0%N)) as [->|Hb0]; [by rewrite N.bits_0, andb_false_r|].
    rewrite (N.bits_above_log2 b i); [apply andb_false_r|].
    apply N.log2_lt_pow2 in Hb; lia.
Qed.

(** Shifting [w] bits in. *)
Lemma shift_in acc k bits w :
  (k < 2 ^ w)%N → (bits + w ≤ 16)%N →
  (N.lor (shl16 acc w) k mod 2 ^ (bits + w) = acc mod 2 ^ bits * 2 ^ w + k)%N.
Proof.
  intros Hk Hw. assert (Hz : (shl16 acc w mod 2 ^ w = 0)%N).
  { unfold shl16. change 65536%N with (2 ^ 16)%N. rewrite mod_pow_mod by lia. rewrite N.shiftl_mul_pow2.
    apply N.Div0.mod_mul. }
  rewrite (lor_add _ _ w) by done.
  assert (Hm : (shl16 acc w mod 2 ^ (bits + w) = acc mod 2 ^ bits * 2 ^ w)%N).
  { unfold shl16. change 65536%N with (2 ^ 16)%N. rewrite mod_pow_mod by lia. rewrite N.shiftl_mul_pow2.
    rewrite N.pow_add_r. rewrite N.Div0.mul_mod_distr_r. done. }
  rewrite N.Div0.add_mod, Hm.
  pose proof (N.mod_lt acc (2 ^ bits) ltac:(by apply N.pow_nonzero)) as Hlt.
  assert (0 < 2 ^ w)%N by (apply N.neq_0_lt_0; by apply N.pow_nonzero).
  rewrite (N.mod_small k), N.mod_small; [done| |].
  - rewrite N.pow_add_r. nia.
  - rewrite N.pow_add_r. assert (1 ≤ 2 ^ bits)%N by (pose proof (N.pow_nonzero 2 bits); lia). nia.
Qed.

(** Taking the [w] highest of [bits + w] bits out. *)
Lemma take_out acc bits w :
  (acc mod 2 ^ (bits + w) = N.land (N.shiftr acc bits) (N.ones w) * 2 ^ bits + acc mod 2 ^ bits)%N.
Proof. rewrite N.pow_add_r, N.Div0.mod_mul_r, N.land_ones, N.shiftr_div_pow2. lia. Qed.

(** ** Numbers in base 32 *)
Definition val32 (ds : list N) : N := foldl (λ a d, a * 32 + d)%N 0%N ds.

Lemma val32_app ds d : val32 (ds ++ [d]) = (val32 ds * 32 + d)%N.
Proof. unfold val32. by rewrite foldl_app. Qed.

Lemma val32_inj ds ds' :
  length ds = length ds' → Forall (λ d, (d < 32)%N) ds → Forall (λ d, (d < 32)%N) ds' →
  val32 ds = val32 ds' → ds = ds'.
Proof.
  revert ds'. induction ds as [|d ds IH] using rev_ind; intros ds'.
  - by destruct ds'.
  - destruct ds' as [|d' ds' _] using rev_ind; [rewrite length_app; simpl; lia|].
    rewrite !length_app, !val32_app, !list.Forall_app, !list.Forall_singleton. cbn [length].
    intros Hl [Hd Hd1] [Hd' Hd1'] Hv. f_equal; [apply IH; [lia|done..|lia]|f_equal; lia].
Qed.

Lemma of_be_snoc bs b : of_be (bs ++ [b]) = (of_be bs * 256 + b2n b)%N.
Proof. apply of_be_app. Qed.

(** ** The encoder *)
Definition piece (i : nat) (d : N) : bytes :=
  (if (0 <? i)%nat && (i mod 4 =? 0)%nat then [x2d] else []) ++ [crockford_char d].
Definition render (ds : list N) : bytes := mjoin (imap piece ds).

Lemma render_snoc ds d : render (ds ++ [d]) = push_symbol (length ds) d (render ds).
Proof.
  unfold render, push_symbol, piece. rewrite imap_app, join_app. cbn [imap mjoin list_join]. rewrite app_nil_r.
  unfold compose. rewrite Nat.add_0_r. by destruct (_ && _); rewrite ?app_assoc, ?app_nil_r.
Qed.

Record packed (consumed : bytes) (acc bits : N) (ds : list N) : Prop := {
  pk_value : (val32 ds * 2 ^ bits + acc mod 2 ^ bits = of_be consumed)%N;
  pk_bits : (5 * len ds + bits = 8 * len consumed)%N;
  pk_digits : Forall (λ d, (d < 32)%N) ds;
}.

Lemma digit_lt a : (N.land a 31 < 32)%N.
Proof. change 31%N with (N.ones 5). rewrite N.land_ones. by apply N.mod_lt. Qed.

Lemma emit_packed fuel acc bits ds consumed :
  (bits < 5 * N.of_nat fuel)%N → packed consumed acc bits ds →
  ∃ bits' ds', emit_symbols fuel acc bits (length ds) (render ds) = (bits', length ds', render ds') ∧
    packed consumed acc bits' ds' ∧ (bits' < 5)%N.
Proof.
  revert bits ds. induction fuel as [|fuel IH]; intros bits ds Hf Hp; [lia|]. cbn [emit_symbols].
  destruct (N.leb_spec 5 bits) as [Hb|Hb]; [|by exists bits, ds].
  set (d := N.land (N.shiftr acc (bits - 5)) 31).
  destruct (IH (bits - 5)%N (ds ++ [d])) as (bits' & ds' & He & Hp' & Hb'); [lia| |].
  - destruct Hp as [Hv Hl Hd]. constructor.
    + rewrite val32_app, <- Hv. replace bits with (bits - 5 + 5)%N at 4 by lia.
      rewrite (take_out acc (bits - 5) 5). change (N.ones 5) with 31%N. fold d.
      replace (2 ^ bits)%N with (2 ^ (bits - 5) * 2 ^ 5)%N by (rewrite <- N.pow_add_r; f_equal; lia). change (2^5)%N with 32%N. lia.
    + rewrite len_app. unfold len in *. cbn [length]. lia.
    + apply list.Forall_app. split; [done|]. constructor; [apply digit_lt|constructor].
  - exists bits', ds'. split; [|done]. rewrite <- He, render_snoc, length_app. cbn [length]. by rewrite Nat.add_1_r.
Qed.

Lemma encode_packed data acc bits ds consumed :
  (bits < 5)%N → packed consumed acc bits ds →
  ∃ acc' bits' ds', encode_bytes data acc bits (length ds) (render ds) = (acc', bits', length ds', render ds') ∧
    packed (consumed ++ data) acc' bits' ds' ∧ (bits' < 5)%N.
Proof.
  revert acc bits ds consumed. induction data as [|b data IH]; intros acc bits ds consumed Hb Hp; cbn [encode_bytes].
  { exists acc, bits, ds. by rewrite app_nil_r. }
  destruct (emit_packed 3 (N.lor (shl16 acc 8) (b2n b)) (bits + 8) ds (consumed ++ [b])) as (bits1 & ds1 & -> & Hp1 & Hb1).
  - lia.
  - destruct Hp as [Hv Hl Hd]. constructor; [|rewrite len_app; unfold len in *; cbn [length]; lia|done].
    rewrite (shift_in acc (b2n b) bits 8) by (apply b2n_lt || lia).
    rewrite of_be_snoc, <- Hv, N.pow_add_r. change (2 ^ 8)%N with 256%N. lia.
  - destruct (IH _ bits1 ds1 (consumed ++ [b]) Hb1 Hp1) as (acc' & bits' & ds' & He & Hp' & Hb').
    exists acc', bits', ds'. rewrite <- app_assoc in Hp'. split; [exact He|by split].
Qed.

(** The form of an id is its number, shifted to 52 digits. *)
Lemma to_base32_digits id :
  length id = 32%nat →
  ∃ ds, to_base32 id = render ds ∧ length ds = 52%nat ∧ Forall (λ d, (d < 32)%N) ds ∧ (val32 ds = of_be id * 16)%N.
Proof.
  intros Hid. unfold to_base32, crockford_encode_grouped.
  destruct (encode_packed id 0 0 [] []) as (acc & bits & ds & He & [Hv Hl Hd] & Hb); [lia|by constructor|].
  change (encode_bytes id 0 0 0 [] = (acc, bits, length ds, render ds)) in He. rewrite He.
  cbn [app] in *. unfold len in *. rewrite Hid in Hl.
  assert (bits = 1%N) as -> by lia. assert (length ds = 51%nat) as Hds by lia. cbn [N.ltb N.compare].
  exists (ds ++ [N.land (shl16 acc (5 - 1)) 31]). rewrite render_snoc, length_app, Hds. split_and!; [done|done| |].
  - apply list.Forall_app. split; [done|]. constructor; [apply digit_lt|constructor].
  - rewrite val32_app, <- Hv. change 31%N with (N.ones 5). rewrite N.land_ones.
    pose proof (shift_in acc 0 1 4 ltac:(done) ltac:(done)) as Hs. rewrite N.lor_0_r in Hs.
    change (5 - 1)%N with 4%N. change (1 + 4)%N with 5%N in Hs. rewrite Hs. change (2 ^ 1)%N with 2%N.
    change (2 ^ 4)%N with 16%N. lia.
Qed.

(** ** The decoder *)

(** The symbols of a text, separators left out. *)
Definition symbols_of (cs : list N) : option (list N) :=
  mapM crockford_symbol (List.filter (λ c, negb (is_separator c)) cs).

Lemma position_lt {A} (p : A → bool) l i : position p l = Some i → (i < length l)%nat.
Proof.
  revert i. induction l as [|x l IH]; intros i; simpl; [done|]. destruct (p x); [intros [= <-]; lia|].
  destruct (position p l) as [j|]; [|done]. intros [= <-]. specialize (IH j eq_refl). lia.
Qed.

Lemma crockford_symbol_lt c v : crockford_symbol c = Some v → (v < 32)%N.
Proof.
  unfold crockford_symbol. destruct (position _ _) as [i|] eqn:E; [|done]. intros [= <-].
  apply position_lt in E. change (length CROCKFORD) with 32%nat in E. lia.
Qed.

Record unpacked (ds : list N) (acc bits : N) (out : bytes) : Prop := {
  up_value : (of_be out * 2 ^ bits + acc mod 2 ^ bits = val32 ds)%N;
  up_bits : (8 * len out + bits = 5 * len ds)%N;
  up_few : (bits < 8)%N;
}.

Lemma decode_unpacked cs acc bits ds out :
  unpacked ds acc bits out →
  match symbols_of cs with
  | None => decode_chars cs acc bits (length ds) out = None
  | Some vs => ∃ acc' bits' out', decode_chars cs acc bits (length ds) out =
      Some (acc', bits', length (ds ++ vs), out') ∧ unpacked (ds ++ vs) acc' bits' out'
  end.
Proof.
  revert acc bits ds out. unfold symbols_of.
  induction cs as [|c cs IH]; intros acc bits ds out Hu; cbn [decode_chars List.filter].
  { cbn [mapM]. exists acc, bits, out. by rewrite app_nil_r. }
  destruct (is_separator c); cbn [negb]; [by apply IH|]. cbn [mapM].
  destruct (crockford_symbol c) as [v|] eqn:Ev; cbn [mbind option_bind]; [|done].
  apply crockford_symbol_lt in Ev. destruct Hu as [Hv Hb Hf]. set (acc' := N.lor (shl16 acc 5) v).
  pose proof (shift_in acc v bits 5 Ev ltac:(lia)) as Hin. fold acc' in Hin.
  assert (Hval : (of_be out * 2 ^ (bits + 5) + acc' mod 2 ^ (bits + 5) = val32 (ds ++ [v]))%N).
  { rewrite val32_app, <- Hv, Hin, N.pow_add_r. change (2 ^ 5)%N with 32%N. lia. }
  assert (Hgo : ∀ bits1 out1, unpacked (ds ++ [v]) acc' bits1 out1 →
    match vs ← mapM crockford_symbol (List.filter (λ c, negb (is_separator c)) cs); mret (v :: vs) with
    | None => decode_chars cs acc' bits1 (S (length ds)) out1 = None
    | Some vs => ∃ acc'' bits' out', decode_chars cs acc' bits1 (S (length ds)) out1 =
        Some (acc'', bits', length (ds ++ vs), out') ∧ unpacked (ds ++ vs) acc'' bits' out'
    end).
  { intros bits1 out1 Hu1. specialize (IH acc' bits1 (ds ++ [v]) out1 Hu1).
    rewrite length_app in IH. cbn [length] in IH. rewrite Nat.add_1_r in IH.
    destruct (mapM _ _) as [vs|]; cbn [mbind option_bind mret option_ret]; [|done].
    destruct IH as (a & b & o & He & Hu'). rewrite <- app_assoc in He, Hu'. by exists a, b, o. }
  destruct (N.leb_spec 8 (bits + 5)) as [H8|H8]; apply Hgo.
  - constructor; [|rewrite !len_app; unfold len in *; cbn [length]; lia|lia].
    rewrite <- Hval, of_be_snoc, b2n_n2b. assert (∃ k, bits + 5 = k + 8)%N as [k Hk] by (exists (bits - 3)%N; lia).
    rewrite Hk. replace (k + 8 - 8)%N with k by lia.
    rewrite (take_out acc' k 8), N.land_ones, N.pow_add_r. change (2 ^ 8)%N with 256%N. lia.
  - constructor; [done|rewrite len_app; unfold len in *; cbn [length]; lia|lia].
Qed.

(** What [from_base32] reads: 52 symbols whose number is the id's, shifted. *)
Lemma from_base32_spec s id :
  from_base32 s = Ok id ↔
  ∃ ds, symbols_of (chars s) = Some ds ∧ length ds = 52%nat ∧ length id = 32%nat ∧ (val32 ds = of_be id * 16)%N.
Proof.
  unfold from_base32, crockford_decode.
  pose proof (decode_unpacked (chars s) 0 0 [] []) as Hd.
  destruct (symbols_of (chars s)) as [ds|]; cycle 1.
  { change (decode_chars (chars s) 0 0 0 []) with (decode_chars (chars s) 0 0 (length (@nil N)) []).
    rewrite Hd by by constructor. split; [done|by intros (? & ? & _)]. }
  destruct Hd as (acc & bits & out & He & [Hv Hb Hf]); [by constructor|]. cbn [length app] in *. rewrite He.
  assert (Hacc : (N.land acc 15 = acc mod 2 ^ 4)%N) by (change 15%N with (N.ones 4); apply N.land_ones).
  split.
  - destruct (Nat.eqb_spec (length ds) 52) as [Hl|]; [|done]. destruct (Nat.eqb_spec (length out) 32) as [Ho|]; [|done].
    cbn [negb orb]. destruct (N.eqb_spec bits 4) as [->|]; [|done]. destruct (N.eqb_spec (N.land acc 15) 0) as [Hz|]; [|done].
    cbn [negb orb]. rewrite Ho. intros [= <-]. exists ds. split_and!; [done..|]. rewrite <- Hv, <- Hacc, Hz. lia.
  - intros (ds' & [= <-] & Hl & Hid & Hval). unfold len in Hb. rewrite Hl in *.
    assert (bits = 4%N) as -> by lia. assert (length out = 32%nat) as Ho by lia. rewrite Ho. cbn [Nat.eqb negb orb N.eqb Pos.eqb].
    rewrite Hval in Hv. pose proof (N.mod_lt acc (2 ^ 4) ltac:(done)) as Hlt. change (2 ^ 4)%N with 16%N in *.
    assert (acc mod 16 = 0)%N as Hz by lia. rewrite Hacc, Hz. cbn [N.eqb negb]. rewrite Ho. cbn [Nat.eqb].
    f_equal. apply of_be_inj; [lia|]. lia.
Qed.

(** ** ASCII *)
Lemma chars_ascii s : Forall (λ b, (b2n b < 128)%N) s → chars s = b2n <$> s.
Proof.
  intros Hs. unfold chars. assert (utf8_decode s = Some (b2n <$> s)) as ->; [|done].
  induction Hs as [|b s Hb Hs IH]; [done|]. cbn [utf8_decode]. apply N.ltb_lt in Hb as ->. by rewrite IH.
Qed.

Definition symbol_good (d : N) : bool :=
  (b2n (crockford_char d) <? 128)%N && negb (is_separator (b2n (crockford_char d)))
  && bool_decide (crockford_symbol (b2n (crockford_char d)) = Some d).

Lemma crockford_char_good d : (d < 32)%N → symbol_good d = true.
Proof.
  intros Hd. assert (Hall : forallb (λ n, symbol_good (N.of_nat n)) (seq 0 32) = true) by (vm_compute; reflexivity).
  rewrite forallb_forall in Hall. rewrite <- (N2Nat.id d). apply Hall. apply in_seq. lia.
Qed.

Lemma render_ascii ds : Forall (λ d, (d < 32)%N) ds → Forall (λ b, (b2n b < 128)%N) (render ds).
Proof.
  intros Hd. induction ds as [|d ds IH] using rev_ind; [constructor|]. rewrite render_snoc. unfold push_symbol.
  apply list.Forall_app in Hd as [Hds Hd]. apply list.Forall_cons_1 in Hd as [Hd _].
  apply crockford_char_good in Hd. unfold symbol_good in Hd. apply andb_true_iff in Hd as [Hd _].
  apply andb_true_iff in Hd as [Hd _]. apply N.ltb_lt in Hd.
  apply list.Forall_app. split; [|by constructor; [|constructor]].
  destruct (_ && _); [|by apply IH]. apply list.Forall_app. split; [by apply IH|]. by repeat constructor.
Qed.

Lemma symbols_of_app cs cs' :
  symbols_of (cs ++ cs') = (a ← symbols_of cs; b ← symbols_of cs'; Some (a ++ b)).
Proof.
  unfold symbols_of. rewrite List.filter_app. generalize (List.filter (λ c, negb (is_separator c)) cs) as l.
  induction l as [|c l IH]; cbn [app mapM].
  - by destruct (mapM _ _).
  - destruct (crockford_symbol c) as [v|]; cbn [mbind option_bind]; [|done]. rewrite IH.
    destruct (mapM crockford_symbol l) as [a|]; cbn [mbind option_bind mret option_ret]; [|done].
    by destruct (mapM crockford_symbol (List.filter _ cs')).
Qed.

Lemma symbols_of_render ds : Forall (λ d, (d < 32)%N) ds → symbols_of (b2n <$> render ds) = Some ds.
Proof.
  intros Hd. induction ds as [|d ds IH] using rev_ind; [done|]. rewrite render_snoc. unfold push_symbol.
  apply list.Forall_app in Hd as [Hds Hd]. apply list.Forall_cons_1 in Hd as [Hd _]. specialize (IH Hds).
  assert (Hsym : symbols_of [b2n (crockford_char d)] = Some [d]).
  { apply crockford_char_good in Hd. unfold symbol_good in Hd. apply andb_true_iff in Hd as [Hd Hs].
    apply andb_true_iff in Hd as [_ Hd]. apply bool_decide_eq_true in Hs. unfold symbols_of. cbn [List.filter].
    rewrite Hd. cbn [mapM]. by rewrite Hs. }
  rewrite list.fmap_app, symbols_of_app. cbn [fmap list_fmap]. rewrite Hsym.
  assert (symbols_of (b2n <$> (if (0 <? length ds)%nat && (length ds mod 4 =? 0)%nat then render ds ++ [x2d] else render ds))
    = Some ds) as ->; [|done].
  destruct (_ && _); [|done]. rewrite list.fmap_app, symbols_of_app, IH. cbn. by rewrite app_nil_r.
Qed.

(** ** Ids *)

(** The text form of an id names it and nothing else.  The form of every
    32-byte id reads back as the id; and a text reads as an id exactly when
    its symbols, with separators left out and letters brought to their
    canonical digit, are the 52 symbols of the id's own form: every other
    text, with a character that is no symbol, another number of symbols or
    bits beyond the id, is refused. *)
Theorem base32_canonical id s :
  length id = 32%nat →
  from_base32 (to_base32 id) = Ok id ∧ length (to_base32 id) = 64%nat ∧
  (from_base32 s = Ok id ↔ symbols_of (chars s) = symbols_of (chars (to_base32 id))).
Proof.
  intros Hid. destruct (to_base32_digits id Hid) as (ds & -> & Hl & Hd & Hv).
  rewrite (chars_ascii (render ds)) by by apply render_ascii. rewrite symbols_of_render by done. split_and!.
  - apply from_base32_spec. exists ds. rewrite chars_ascii by by apply render_ascii. by rewrite symbols_of_render.
  - do 53 (destruct ds as [|? ds]; [try discriminate Hl|]); done.
  - rewrite from_base32_spec. split.
    + intros (ds' & Hs & Hl' & _ & Hv'). rewrite Hs. f_equal. apply val32_inj; [lia| |done|lia].
      revert Hs. unfold symbols_of. intros Hs. apply mapM_Some in Hs.
      clear -Hs. induction Hs as [|c v l k Hc Hs IH]; constructor; [by eapply crockford_symbol_lt|done].
    + intros Hs. by exists ds.
Qed.

(** ** Safety numbers of ids *)
Section safety.
Context `{Sha512}.

Lemma bytes_le_total a b : length a = length b → bytes_le a b = false → bytes_le b a = true.
Proof. unfold bytes_le. intros _ Hf. apply N.leb_gt in Hf. apply N.leb_le. lia. Qed.

Lemma bytes_le_antisym a b : length a = length b → bytes_le a b = true → bytes_le b a = true → a = b.
Proof. unfold bytes_le. intros Hl H1%N.leb_le H2%N.leb_le. apply of_be_inj; [done|lia]. Qed.

(** The smaller and the greater of two keys do not depend on their order. *)
Lemma ordered_sym {A} (f : bytes → bytes → A) a b :
  length a = length b →
  (let '(lo, hi) := if bytes_le a b then (a, b) else (b, a) in f lo hi) =
  (let '(lo, hi) := if bytes_le b a then (b, a) else (a, b) in f lo hi).
Proof.
  intros Hl. destruct (bytes_le a b) eqn:E1, (bytes_le b a) eqn:E2; try done.
  - by rewrite (bytes_le_antisym a b).
  - apply bytes_le_total in E1; [congruence|done].
Qed.

(** Both parties are shown one number. *)
Lemma safety_number_sym a b : length a = length b → safety_number a b = safety_number b a.
Proof. intros Hl. unfold safety_number. by apply (ordered_sym (λ lo hi, join_spaces (chunks 5 _))). Qed.
End safety.

(** ** Keystores *)
Section keystore.
Context `{CryptoPrims, !AeadLaws, CF : !Cbor KeystoreFile file_typed, CI : !Cbor KeystoreInner inner_typed}.

Definition params_within (p : Argon2idParams) : Prop :=
  (ar_m_cost_kib p ≤ MAX_KEYSTORE_M_COST_KIB)%N ∧ (ar_t_cost p ≤ MAX_KEYSTORE_T_COST)%N ∧ ok_u32 (ar_p_cost p).

Definition stored_typed (i : StoredIdentity) : Prop :=
  ok_len 32 (id_idk (si_identity i)) ∧ ok_len 32 (id_ik (si_identity i)) ∧ ok_len 32 (si_ratchet_db_key i) ∧
  ok_u64 (si_created_ms i).

(** What a file that was sealed holds. *)
Lemma seal_inv identity passphrase params context salt nonce bs :
  seal_with_context identity passphrase params context salt nonce = Ok bs →
  ∃ key plaintext,
    let kdf := mkKdf (lit "argon2id") (ar_m_cost_kib params) (ar_t_cost params) (ar_p_cost params) salt in
    pwhash_argon2id passphrase salt params 32 = Ok key ∧
    cbor_write (mkInner (id_idk (si_identity identity)) (id_ik (si_identity identity)) (si_ratchet_db_key identity)
      (si_created_ms identity)) = Some plaintext ∧
    cbor_write (mkFile KEYSTORE_VERSION kdf nonce
      (xchacha_seal key nonce plaintext (keystore_aad context KEYSTORE_VERSION kdf))) = Some bs.
Proof.
  unfold seal_with_context, cbor_to_vec. cbn [kd_salt].
  destruct (pwhash_argon2id _ _ _ _) as [key|e]; [|done]. cbn [map_err result_bind].
  destruct (cbor_write (mkInner _ _ _ _)) as [pt|] eqn:Ep; [|done]. cbn [ok_or result_bind].
  destruct (cbor_write (mkFile _ _ _ _)) as [f|] eqn:Ef; [|done]. intros [= <-]. exists key, pt. by split_and!.
Qed.

Lemma sealed_file_typed params salt nonce ct :
  params_within params → ok_len KEYSTORE_SALT_LEN salt → ok_len 24 nonce →
  file_typed (mkFile KEYSTORE_VERSION (mkKdf (lit "argon2id") (ar_m_cost_kib params) (ar_t_cost params)
    (ar_p_cost params) salt) nonce ct).
Proof.
  intros (Hm & Ht & Hp) Hs Hn. unfold MAX_KEYSTORE_M_COST_KIB, MAX_KEYSTORE_T_COST in *.
  unfold file_typed, kdf_typed. cbn [kf_kdf kf_version kf_nonce kd_m_cost_kib kd_t_cost kd_p kd_salt].
  split_and!; [done| | |done..]; unfold ok_u32; lia.
Qed.

(** Opening a file that was sealed, in any context. *)
Lemma open_sealed_file identity passphrase params context context' salt nonce bs :
  params_within params → ok_len KEYSTORE_SALT_LEN salt → ok_len 24 nonce →
  seal_with_context identity passphrase params context salt nonce = Ok bs →
  ∃ key plaintext,
    let kdf := mkKdf (lit "argon2id") (ar_m_cost_kib params) (ar_t_cost params) (ar_p_cost params) salt in
    cbor_write (mkInner (id_idk (si_identity identity)) (id_ik (si_identity identity)) (si_ratchet_db_key identity)
      (si_created_ms identity)) = Some plaintext ∧
    open_with_context bs passphrase context' =
      (let? pt := map_err (λ _, IE_KeystoreOpen)
         (xchacha_open key nonce (xchacha_seal key nonce plaintext (keystore_aad context KEYSTORE_VERSION kdf))
            (keystore_aad context' KEYSTORE_VERSION kdf)) in
       let? inner := cbor_from_slice (A:=KeystoreInner) pt in
       Ok (from_parts (ki_idk_secret inner) (ki_ik_secret inner) (ki_ratchet_db_key inner) (ki_created_ms inner))).
Proof.
  intros Hp Hs Hn Hseal. apply seal_inv in Hseal as (key & pt & Hk & Hpt & Hf). cbv zeta.
  exists key, pt. split; [done|]. unfold open_with_context, cbor_from_slice at 1.
  rewrite (cbor_round _ _ (sealed_file_typed params salt nonce _ Hp Hs Hn) Hf). cbn [ok_or result_bind].
  cbn [kf_version kf_kdf kd_alg kd_m_cost_kib kd_t_cost kd_p kd_salt kf_nonce kf_ciphertext].
  rewrite N.eqb_refl, bool_decide_eq_true_2 by done. cbn [negb].
  destruct Hp as (Hm & Ht & _). apply N.ltb_ge in Hm, Ht. rewrite Hm, Ht. cbn [orb].
  destruct params as [m t p]. cbn [ar_m_cost_kib ar_t_cost ar_p_cost] in *. by rewrite Hk.
Qed.

(** The two contexts never meet in the associated data. *)
Lemma contexts_differ version version' kdf kdf' :
  keystore_aad CONTEXT_KEYSTORE version kdf ≠ keystore_aad CONTEXT_BACKUP version' kdf'.
Proof.
  intros E. apply (f_equal (take 10)) in E. unfold keystore_aad in E.
  rewrite !take_app_le in E by (vm_compute; lia). vm_compute in E. discriminate E.
Qed.

(** An identity comes back from its keystore and from its backup.  What
    [seal] (with any cost within the ceilings, as the default is) and [export]
    write, [open] and [import] read back, under the same passphrase, as the
    same four values. *)
Theorem keystore_recovers identity passphrase params salt nonce bs :
  stored_typed identity → params_within params → ok_len KEYSTORE_SALT_LEN salt → ok_len 24 nonce →
  (keystore_seal_with_params identity passphrase params salt nonce = Ok bs → keystore_open bs passphrase = Ok identity) ∧
  (backup_export_with_params identity passphrase params salt nonce = Ok bs → backup_import bs passphrase = Ok identity) ∧
  params_within KEYSTORE.
Proof.
  intros Hi Hp Hs Hn.
  assert (Hround : ∀ context, seal_with_context identity passphrase params context salt nonce = Ok bs →
    open_with_context bs passphrase context = Ok identity).
  { intros context Hseal.
    destruct (open_sealed_file _ _ _ _ context _ _ _ Hp Hs Hn Hseal) as (key & pt & Hpt & ->).
    unfold xchacha_open, xchacha_seal. rewrite xchacha_open_seal. cbn [ok_or map_err result_bind].
    unfold cbor_from_slice. rewrite (cbor_round (A:=KeystoreInner) _ _ Hi Hpt). cbn [ok_or result_bind].
    by destruct identity as [[? ?] ? ?]. }
  split_and!; [by apply Hround..|]. by split_and!.
Qed.

(** C28: Containers are taken for what they are.  Whatever the bytes, a file
    that opens states version 1, Argon2id and costs within the ceilings, so
    that no header makes the reader hash at a higher cost; a file sealed in one context opens in the other only through a
    ciphertext that the cipher accepts under associated data it was not sealed
    with. *)
Theorem keystore_guarded bs passphrase context :
  (∀ identity, open_with_context bs passphrase context = Ok identity →
     ∃ file, cbor_read bs = Some file ∧ kf_version file = KEYSTORE_VERSION ∧ kd_alg (kf_kdf file) = lit "argon2id" ∧
       (kd_m_cost_kib (kf_kdf file) ≤ MAX_KEYSTORE_M_COST_KIB)%N ∧ (kd_t_cost (kf_kdf file) ≤ MAX_KEYSTORE_T_COST)%N) ∧
  (∀ identity params salt nonce, params_within params → ok_len KEYSTORE_SALT_LEN salt → ok_len 24 nonce →
     keystore_seal_with_params identity passphrase params salt nonce = Ok bs →
     backup_import bs passphrase = Err IE_KeystoreOpen ∨
     ∃ key plaintext plaintext' aad aad', aad ≠ aad' ∧
       prim_xchacha_open key nonce (prim_xchacha_seal key nonce plaintext aad) aad' = Some plaintext') ∧
  (∀ identity params salt nonce, params_within params → ok_len KEYSTORE_SALT_LEN salt → ok_len 24 nonce →
     backup_export_with_params identity passphrase params salt nonce = Ok bs →
     keystore_open bs passphrase = Err IE_KeystoreOpen ∨
     ∃ key plaintext plaintext' aad aad', aad ≠ aad' ∧
       prim_xchacha_open key nonce (prim_xchacha_seal key nonce plaintext aad) aad' = Some plaintext').
Proof.
  split; [|split].
  - intros identity. unfold open_with_context, cbor_from_slice at 1.
    destruct (cbor_read bs) as [file|]; [|done]. cbn [ok_or result_bind].
    destruct (N.eqb_spec (kf_version file) KEYSTORE_VERSION); [|done]. cbn [negb].
    case_bool_decide; [|done]. cbn [negb].
    destruct (N.ltb_spec MAX_KEYSTORE_M_COST_KIB (kd_m_cost_kib (kf_kdf file))); [done|].
    destruct (N.ltb_spec MAX_KEYSTORE_T_COST (kd_t_cost (kf_kdf file))); [done|]. intros _. by exists file.
  - intros identity params salt nonce Hp Hs Hn Hseal.
    destruct (open_sealed_file _ _ _ _ CONTEXT_BACKUP _ _ _ Hp Hs Hn Hseal) as (key & pt & _ & Ho).
    unfold backup_import. rewrite Ho.
    unfold xchacha_open, xchacha_seal. destruct (prim_xchacha_open _ _ _ _) as [pt'|] eqn:Eo; [|by left]. right.
    eexists key, pt, pt', _, _. split; [|exact Eo]. apply contexts_differ.
  - intros identity params salt nonce Hp Hs Hn Hseal.
    destruct (open_sealed_file _ _ _ _ CONTEXT_KEYSTORE _ _ _ Hp Hs Hn Hseal) as (key & pt & _ & Ho).
    unfold keystore_open. rewrite Ho.
    unfold xchacha_open, xchacha_seal. destruct (prim_xchacha_open _ _ _ _) as [pt'|] eqn:Eo; [|by left]. right.
    eexists key, pt, pt', _, _. split; [|exact Eo]. intros E. symmetry in E. by apply contexts_differ in E.
Qed.
End keystore.

(** ** Witnesses

    The codec of the wire stands for CBOR. *)
Module KeystoreDemo.
#[local] Existing Instance Toy.prims.

Definition enc_file (f : KeystoreFile) : bytes :=
  let k := kf_kdf f in
  be 2 (kf_version f) ++ lenp (kd_alg k) ++ be 4 (kd_m_cost_kib k) ++ be 4 (kd_t_cost k) ++ be 4 (kd_p k)
  ++ kd_salt k ++ kf_nonce f ++ lenp (kf_ciphertext f).
Definition r_file : Read KeystoreFile :=
  let! v := r_u16 in let! alg := r_bytes in let! m := r_u32 in let! t := r_u32 in let! p := r_u32 in
  let! salt := r_fixed KEYSTORE_SALT_LEN in let! nonce := r_fixed 24 in let! ct := r_bytes in
  let! _ := r_finish in r_ret (mkFile v (mkKdf alg m t p salt) nonce ct).
Definition to_option {A E} (r : result A E) : option A := match r with Ok a => Some a | Err _ => None end.

Lemma file_round f bs : file_typed f →
  (if (len (kd_alg (kf_kdf f)) <? 4294967296)%N && (len (kf_ciphertext f) <? 4294967296)%N then Some (enc_file f) else None) = Some bs →
  to_option (run r_file bs) = Some f.
Proof.
  destruct f as [v [alg m t p salt] nonce ct]. intros (Hv & (Hm & Ht & Hp & Hs) & Hn). cbn [kf_kdf kd_alg kf_ciphertext].
  destruct (N.ltb_spec (len alg) 4294967296) as [Ha|]; [|done].
  destruct (N.ltb_spec (len ct) 4294967296) as [Hc|]; [|done]. intros [= <-].
  change (fits_u32 alg) in Ha. change (fits_u32 ct) in Hc.
  unfold enc_file. cbn in *.
  assert (run r_file (be 2 v ++ lenp alg ++ be 4 m ++ be 4 t ++ be 4 p ++ salt ++ nonce ++ lenp ct) =
    Ok (mkFile v (mkKdf alg m t p salt) nonce ct)) as ->; [|done].
  eapply run_parse. rewrite <- !app_assoc. unfold r_file. parses. done.
Qed.

Definition enc_inner (i : KeystoreInner) : bytes :=
  ki_idk_secret i ++ ki_ik_secret i ++ ki_ratchet_db_key i ++ be 8 (ki_created_ms i).
Definition r_inner : Read KeystoreInner :=
  let! a := r_fixed 32 in let! b := r_fixed 32 in let! c := r_fixed 32 in let! t := r_u64 in
  let! _ := r_finish in r_ret (mkInner a b c t).
Lemma inner_round i bs : inner_typed i → Some (enc_inner i) = Some bs → to_option (run r_inner bs) = Some i.
Proof.
  destruct i as [a b c t]. intros (Ha & Hb & Hc & Ht) [= <-]. unfold enc_inner. cbn in *.
  assert (run r_inner (a ++ b ++ c ++ be 8 t) = Ok (mkInner a b c t)) as ->; [|done].
  eapply run_parse. rewrite <- !app_assoc. unfold r_inner. parses. done.
Qed.

#[export] Instance file_cbor : Cbor KeystoreFile file_typed :=
  {| cbor_write f := if (len (kd_alg (kf_kdf f)) <? 4294967296)%N && (len (kf_ciphertext f) <? 4294967296)%N
                     then Some (enc_file f) else None;
     cbor_read bs := to_option (run r_file bs); cbor_round := file_round |}.
#[export] Instance inner_cbor : Cbor KeystoreInner inner_typed :=
  {| cbor_write i := Some (enc_inner i); cbor_read bs := to_option (run r_inner bs); cbor_round := inner_round |}.

Definition ada : StoredIdentity :=
  from_parts (replicate 32 x01) (replicate 32 x02) (replicate 32 x03) 1700000000123.
Definition fast : Argon2idParams := mkArgon 64 1 1.
Definition salt : bytes := replicate 16 x05.
Definition nonce : bytes := replicate 24 x06.
Definition sealed : bytes :=
  match keystore_seal_with_params ada (lit "pw") fast salt nonce with Ok bs => bs | Err _ => [] end.
End KeystoreDemo.

Section witnesses.
Import KeystoreDemo.
#[local] Existing Instance Toy.prims.
#[local] Existing Instance Toy.aead_laws.

Lemma base32_canonical_witness :
  from_base32 (to_base32 (replicate 32 xc7)) = Ok (replicate 32 xc7) ∧
  from_base32 (lit "rz3rz3RZ3rz3 rz3r-z3rz3rz3rz3rz3rz3rz3rz3rz3rz3rz3rz3RW") = Err IE_BadFingerprint ∧
  (from_base32 (lit "rz3") = Ok (replicate 32 xc7) ↔
   symbols_of (chars (lit "rz3")) = symbols_of (chars (to_base32 (replicate 32 xc7)))).
Proof.
  destruct (base32_canonical (replicate 32 xc7) (lit "rz3") (length_replicate _ _)) as (H1 & _ & H2).
  split; [exact H1|]. split; [vm_compute; reflexivity|exact H2].
Defined.

Lemma keystore_recovers_witness :
  keystore_seal_with_params ada (lit "pw") fast salt nonce = Ok sealed ∧ keystore_open sealed (lit "pw") = Ok ada.
Proof.
  assert (Hs : keystore_seal_with_params ada (lit "pw") fast salt nonce = Ok sealed) by (vm_compute; reflexivity).
  assert (Hi : stored_typed ada) by (split_and!; reflexivity).
  assert (Hp : params_within fast) by (split_and!; vm_compute; [discriminate|discriminate|reflexivity]).
  split; [exact Hs|].
  exact (proj1 (keystore_recovers ada (lit "pw") fast salt nonce sealed Hi Hp eq_refl eq_refl) Hs).
Defined.

Lemma keystore_guarded_witness :
  (∃ file : KeystoreFile, cbor_read sealed = Some file ∧ kf_version file = KEYSTORE_VERSION ∧
     kd_alg (kf_kdf file) = lit "argon2id" ∧
     (kd_m_cost_kib (kf_kdf file) ≤ MAX_KEYSTORE_M_COST_KIB)%N ∧ (kd_t_cost (kf_kdf file) ≤ MAX_KEYSTORE_T_COST)%N) ∧
  backup_import sealed (lit "pw") = Err IE_KeystoreOpen.
Proof.
  assert (Ho : open_with_context sealed (lit "pw") CONTEXT_KEYSTORE = Ok ada) by (vm_compute; reflexivity).
  split; [|vm_compute; reflexivity].
  exact (proj1 (keystore_guarded sealed (lit "pw") CONTEXT_KEYSTORE) ada Ho).
Defined.

(** A header with the memory cost at the 32-bit limit is refused. *)
Example hostile_header :
  keystore_open (enc_file (mkFile 1 (mkKdf (lit "argon2id") u32_max 1 1 salt) nonce [])) (lit "pw") = Err IE_KeystoreOpen.
Proof. vm_compute. reflexivity. Qed.
End witnesses.
