(* ===== verification/LocalStore.v ===== *)
(** * The encrypted local store ([crates/dante-core/src/store.rs])

    Everything a client needs to resume, in one file: a fixed part, then
    eighteen sections, each of which an older version may not have written. *)

From S2P Require Import Prelude Utf8 Enc Crypto ProtoRecord IdentityRecords Server Wire WireProofs X3dh Ratchet RatchetProofs Session Roles Channel.

(** ** Data *)

Inductive HistoryKind : Type :=
  | HkText (text : bytes)
  | HkFile (filename : bytes) (size : N).
Record HistoryEntry := mkHistory {
  he_peer_idk : bytes; he_outgoing : bool; he_ts_ms : N; he_kind : HistoryKind; he_msg_id : bytes;
}.
Record ChannelHistoryEntry := mkChanHistory {
  ch_channel_id : bytes; ch_sender : bytes; ch_outgoing : bool; ch_ts_ms : N; ch_text : bytes;
  ch_seq : N; ch_reply_to : option N; ch_forwarded_from : option bytes;
}.
Record StoredEdit := mkStoredEdit {
  sd_channel_id : bytes; sd_seq : N; sd_author : bytes; sd_text : bytes; sd_deleted : bool;
}.
Record StoredDmEdit := mkStoredDmEdit {
  dd_peer_idk : bytes; dd_msg_id : bytes; dd_text : bytes; dd_deleted : bool;
}.
Record StoredPin := mkStoredPin { pn_channel_id : bytes; pn_seq : N; pn_by : bytes; pn_at_ms : N }.
Record StoredChannel := mkStoredChannel {
  sc_info : ChannelInfo; sc_mls : bytes; sc_roster : list bytes; sc_last_seq : N; sc_log_key : option bytes;
}.
Record StoredServerPow := mkStoredPow {
  so_root : bytes; so_m_cost_kib : N; so_t_cost : N; so_difficulty : N; so_nonce : bytes;
}.
Record StoredHostedServer := mkStoredHosted {
  sh_root_pub : bytes; sh_name : bytes; sh_root_secret : bytes; sh_channels : list bytes;
}.

(** [group_calls] holds a channel id and the member state of its call. *)
Record PersistedState := mkPersisted {
  ps_prekeys : PreKeySecrets;
  ps_sessions : list (bytes * SessionState);
  ps_channels : list StoredChannel;
  ps_hosted : list StoredHostedServer;
  ps_history : list HistoryEntry;
  ps_channel_history : list ChannelHistoryEntry;
  ps_invite_uses : list (bytes * N);
  ps_channel_removed : list (bytes * bytes * N);
  ps_server_autokick : list (bytes * N);
  ps_server_join_pw : list (bytes * bytes);
  ps_server_policies : list bytes;
  ps_channel_reactions : list (bytes * N * bytes * bytes);
  ps_verified_peers : list (bytes * bytes);
  ps_contacts : list (bytes * bytes * N);
  ps_blocked : list bytes;
  ps_channel_edits : list StoredEdit;
  ps_channel_pins : list StoredPin;
  ps_dm_msg_ids : list bytes;
  ps_dm_edits : list StoredDmEdit;
  ps_seen_envelopes : list bytes;
  ps_last_announce_ms : N;
  ps_last_fetch_since_ms : N;
  ps_server_bans : list (bytes * list bytes);
  ps_server_register_pow : list StoredServerPow;
  ps_group_calls : list (bytes * bytes);
}.

(** ** Encoding *)

Definition w_session (p : bytes * SessionState) (w : Writer) : Writer :=
  w |> w_fixed p.1 |> w_bytes (session_state_encode p.2).
Definition w_channel (c : StoredChannel) (w : Writer) : Writer :=
  let w := w_each w_fixed (sc_roster c)
    (w |> w_bytes (info_encode (sc_info c)) |> w_bytes (sc_mls c) |> w_u64 (sc_last_seq c)
       |> w_u32 (as_u32 (len (sc_roster c)))) in
  match sc_log_key c with
  | Some k => w |> w_bool true |> w_fixed k
  | None => w |> w_bool false
  end.
Definition w_hosted (h : StoredHostedServer) (w : Writer) : Writer :=
  w_each w_fixed (sh_channels h)
    (w |> w_fixed (sh_root_pub h) |> w_string (sh_name h) |> w_fixed (sh_root_secret h)
       |> w_u32 (as_u32 (len (sh_channels h)))).
Definition w_history (h : HistoryEntry) (w : Writer) : Writer :=
  let w := w |> w_fixed (he_peer_idk h) |> w_bool (he_outgoing h) |> w_u64 (he_ts_ms h) in
  match he_kind h with
  | HkText t => w |> w_u8 1 |> w_string t
  | HkFile filename size => w |> w_u8 2 |> w_string filename |> w_u64 size
  end.

Definition w_chan_history (e : ChannelHistoryEntry) (w : Writer) : Writer :=
  w |> w_fixed (ch_channel_id e) |> w_fixed (ch_sender e) |> w_bool (ch_outgoing e)
    |> w_u64 (ch_ts_ms e) |> w_string (ch_text e).
Definition w_invite_use (p : bytes * N) (w : Writer) : Writer := w |> w_fixed p.1 |> w_u32 p.2.
Definition w_removed (p : bytes * bytes * N) (w : Writer) : Writer :=
  w |> w_fixed p.1.1 |> w_fixed p.1.2 |> w_u64 p.2.
Definition w_autokick (p : bytes * N) (w : Writer) : Writer := w |> w_fixed p.1 |> w_u64 p.2.
Definition w_two (p : bytes * bytes) (w : Writer) : Writer := w |> w_fixed p.1 |> w_fixed p.2.
Definition w_reaction (p : bytes * N * bytes * bytes) (w : Writer) : Writer :=
  let '(chan, seq, emoji, member) := p in
  w |> w_fixed chan |> w_u64 seq |> w_string emoji |> w_fixed member.
Definition w_contact (p : bytes * bytes * N) (w : Writer) : Writer :=
  w |> w_fixed p.1.1 |> w_string p.1.2 |> w_u64 p.2.
Definition w_edit (e : StoredEdit) (w : Writer) : Writer :=
  w |> w_fixed (sd_channel_id e) |> w_u64 (sd_seq e) |> w_fixed (sd_author e) |> w_string (sd_text e)
    |> w_bool (sd_deleted e).
Definition w_pin (p : StoredPin) (w : Writer) : Writer :=
  w |> w_fixed (pn_channel_id p) |> w_u64 (pn_seq p) |> w_fixed (pn_by p) |> w_u64 (pn_at_ms p).
Definition w_dm_edit (e : StoredDmEdit) (w : Writer) : Writer :=
  w |> w_fixed (dd_peer_idk e) |> w_fixed (dd_msg_id e) |> w_string (dd_text e) |> w_bool (dd_deleted e).
Definition w_ban (p : bytes * list bytes) (w : Writer) : Writer :=
  w_each w_fixed p.2 (w |> w_fixed p.1 |> w_u32 (as_u32 (len p.2))).
Definition w_stored_pow (p : StoredServerPow) (w : Writer) : Writer :=
  w |> w_fixed (so_root p) |> w_u32 (so_m_cost_kib p) |> w_u32 (so_t_cost p) |> w_u8 (so_difficulty p)
    |> w_fixed (so_nonce p).
Definition w_group_call (p : bytes * bytes) (w : Writer) : Writer := w |> w_fixed p.1 |> w_bytes p.2.

(** The metadata of a channel message, in a section of its own. *)
Definition w_meta (e : ChannelHistoryEntry) (w : Writer) : Writer :=
  let w := w |> w_u64 (ch_seq e) |> w_bool (match ch_reply_to e with Some _ => true | None => false end) in
  let w := w |> w_u64 (default 0%N (ch_reply_to e)) in
  match ch_forwarded_from e with
  | Some f => w |> w_bool true |> w_string f
  | None => w |> w_bool false
  end.

Definition encode_state (s : PersistedState) : bytes :=
  let w := w_new |> w_u64 (ps_last_announce_ms s) |> w_u64 (ps_last_fetch_since_ms s) in
  let w := w |> w_bytes (secrets_encode (ps_prekeys s)) in
  let w := w_section w_session (ps_sessions s) w in
  let w := w_section w_channel (ps_channels s) w in
  let w := w_section w_hosted (ps_hosted s) w in
  let w := w_section w_history (ps_history s) w in
  let w := w_section w_fixed (ps_seen_envelopes s) w in
  let w := w_section w_chan_history (ps_channel_history s) w in
  let w := w_section w_invite_use (ps_invite_uses s) w in
  let w := w_section w_removed (ps_channel_removed s) w in
  let w := w_section w_autokick (ps_server_autokick s) w in
  let w := w_section w_bytes (ps_server_policies s) w in
  let w := w_section w_two (ps_server_join_pw s) w in
  let w := w_section w_reaction (ps_channel_reactions s) w in
  let w := w_section w_two (ps_verified_peers s) w in
  let w := w_section w_contact (ps_contacts s) w in
  let w := w_section w_fixed (ps_blocked s) w in
  let w := w_section w_edit (ps_channel_edits s) w in
  let w := w_section w_pin (ps_channel_pins s) w in
  let w := w_section w_fixed (ps_dm_msg_ids s) w in
  let w := w_section w_dm_edit (ps_dm_edits s) w in
  let w := w_section w_ban (ps_server_bans s) w in
  let w := w_section w_stored_pow (ps_server_register_pow s) w in
  let w := w_section w_group_call (ps_group_calls s) w in
  let w := w_section w_meta (ps_channel_history s) w in
  w_into_vec w.

(** ** Decoding *)

(** Every count is a [bounded_count]: [r_counted]. *)
Definition r_session : Read (bytes * SessionState) :=
  let! idk := r_fixed 32 in
  let! raw := r_bytes in
  let! sess := r_lift (session_state_decode raw) in
  r_ret (idk, sess).
Definition r_log_key : Read (option bytes) :=
  let! present := r_bool in
  if present : bool then let! k := r_fixed 32 in r_ret (Some k) else r_ret None.
Definition r_channel : Read StoredChannel :=
  let! raw := r_bytes in
  let! info := r_lift (info_decode raw) in
  let! mls := r_bytes in
  let! last_seq := r_u64 in
  let! roster := r_counted (r_fixed 32) in
  let! log_key := r_log_key in
  r_ret (mkStoredChannel info mls roster last_seq log_key).
Definition r_hosted : Read StoredHostedServer :=
  let! root_pub := r_fixed 32 in
  let! name := r_string in
  let! root_secret := r_fixed 32 in
  let! chans := r_counted (r_fixed 32) in
  r_ret (mkStoredHosted root_pub name root_secret chans).
Definition r_kind : Read HistoryKind :=
  let! tag := r_u8 in
  if (tag =? 1)%N then let! t := r_string in r_ret (HkText t)
  else if (tag =? 2)%N then let! filename := r_string in let! size := r_u64 in r_ret (HkFile filename size)
  else r_err (BadDiscriminant "HistoryKind" tag).
Definition r_history : Read HistoryEntry :=
  let! peer_idk := r_fixed 32 in
  let! outgoing := r_bool in
  let! ts_ms := r_u64 in
  let! kind := r_kind in
  r_ret (mkHistory peer_idk outgoing ts_ms kind (replicate 16 x00)).

Definition r_chan_history : Read ChannelHistoryEntry :=
  let! channel_id := r_fixed 32 in
  let! sender := r_fixed 32 in
  let! outgoing := r_bool in
  let! ts_ms := r_u64 in
  let! text := r_string in
  r_ret (mkChanHistory channel_id sender outgoing ts_ms text 0 None None).
Definition r_removed : Read (bytes * bytes * N) :=
  let! chan := r_fixed 32 in let! member := r_fixed 32 in let! at_ms := r_u64 in r_ret (chan, member, at_ms).
Definition r_reaction : Read (bytes * N * bytes * bytes) :=
  let! chan := r_fixed 32 in let! seq := r_u64 in let! emoji := r_string in let! member := r_fixed 32 in
  r_ret (chan, seq, emoji, member).
Definition r_contact : Read (bytes * bytes * N) :=
  let! id := r_fixed 32 in let! petname := r_string in let! added_ms := r_u64 in r_ret (id, petname, added_ms).
Definition r_edit : Read StoredEdit :=
  let! channel_id := r_fixed 32 in let! seq := r_u64 in let! author := r_fixed 32 in
  let! text := r_string in let! deleted := r_bool in r_ret (mkStoredEdit channel_id seq author text deleted).
Definition r_pin : Read StoredPin :=
  let! channel_id := r_fixed 32 in let! seq := r_u64 in let! by_ := r_fixed 32 in let! at_ms := r_u64 in
  r_ret (mkStoredPin channel_id seq by_ at_ms).
Definition r_dm_edit : Read StoredDmEdit :=
  let! peer_idk := r_fixed 32 in let! msg_id := r_fixed 16 in let! text := r_string in
  let! deleted := r_bool in r_ret (mkStoredDmEdit peer_idk msg_id text deleted).
Definition r_stored_pow : Read StoredServerPow :=
  let! root := r_fixed 32 in let! m_cost_kib := r_u32 in let! t_cost := r_u32 in
  let! difficulty := r_u8 in let! nonce := r_fixed 16 in
  r_ret (mkStoredPow root m_cost_kib t_cost difficulty nonce).

Definition Meta : Type := N * option N * option bytes.
Definition r_meta : Read Meta :=
  let! seq := r_u64 in
  let! present := r_bool in
  let! v := r_u64 in
  let! fwd := r_bool in
  let! forwarded_from := (if fwd : bool then let! f := r_string in r_ret (Some f) else r_ret None) in
  r_ret (seq, if present : bool then Some v else None, forwarded_from).

(** A section is read only while bytes remain. *)
Definition r_tail {A} (m : Read A) : Read (list A) :=
  let! more := r_more in
  if more : bool then r_counted m else r_ret [].

(** The metadata is applied by position; what exceeds the history is read and
    dropped, and entries beyond it keep their defaults. *)
Fixpoint apply_meta (entries : list ChannelHistoryEntry) (metas : list Meta) : list ChannelHistoryEntry :=
  match entries, metas with
  | e :: entries', (seq, reply_to, forwarded_from) :: metas' =>
    mkChanHistory (ch_channel_id e) (ch_sender e) (ch_outgoing e) (ch_ts_ms e) (ch_text e)
      seq reply_to forwarded_from :: apply_meta entries' metas'
  | _, _ => entries
  end.

(** [for (e, id) in history.iter_mut().zip(ids)] *)
Fixpoint apply_ids (history : list HistoryEntry) (ids : list bytes) : list HistoryEntry :=
  match history, ids with
  | e :: history', id :: ids' =>
    mkHistory (he_peer_idk e) (he_outgoing e) (he_ts_ms e) (he_kind e) id :: apply_ids history' ids'
  | _, _ => history
  end.

Definition r_state : Read PersistedState :=
  let! last_announce_ms := r_u64 in
  let! last_fetch_since_ms := r_u64 in
  let! raw := r_bytes in
  let! prekeys := r_lift (secrets_decode raw) in
  let! sessions := r_counted r_session in
  let! channels := r_counted r_channel in
  let! hosted := r_counted r_hosted in
  let! history := r_counted r_history in
  let! seen_envelopes := r_counted (r_fixed 32) in
  let! channel_history := r_tail r_chan_history in
  let! invite_uses := r_tail (r_pair (r_fixed 8) r_u32) in
  let! channel_removed := r_tail r_removed in
  let! server_autokick := r_tail (r_pair (r_fixed 32) r_u64) in
  let! server_policies := r_tail r_bytes in
  let! server_join_pw := r_tail (r_pair (r_fixed 32) (r_fixed 32)) in
  let! channel_reactions := r_tail r_reaction in
  let! verified_peers := r_tail (r_pair (r_fixed 32) (r_fixed 32)) in
  let! contacts := r_tail r_contact in
  let! blocked := r_tail (r_fixed 32) in
  let! channel_edits := r_tail r_edit in
  let! channel_pins := r_tail r_pin in
  let! dm_msg_ids := r_tail (r_fixed 16) in
  let! dm_edits := r_tail r_dm_edit in
  let! server_bans := r_tail (r_pair (r_fixed 32) (r_counted (r_fixed 32))) in
  let! server_register_pow := r_tail r_stored_pow in
  let! group_calls := r_tail (r_pair (r_fixed 32) r_bytes) in
  let! metas := r_tail r_meta in
  let channel_history := apply_meta channel_history metas in
  let history := apply_ids history dm_msg_ids in
  let! _ := r_finish in
  r_ret (mkPersisted prekeys sessions channels hosted history channel_history invite_uses channel_removed
    server_autokick server_join_pw server_policies channel_reactions verified_peers contacts blocked
    channel_edits channel_pins dm_msg_ids dm_edits seen_envelopes last_announce_ms last_fetch_since_ms
    server_bans server_register_pow group_calls).

Definition decode_state (bs : bytes) : result PersistedState StoreError := map_err StPayload (run r_state bs).

(** ** The file *)

Definition MAGIC : bytes := lit "DANTE-STATE-1".
Definition STORE_KDF_INFO : bytes := lit "dante/local-store/v1".
Definition SALT_LEN : nat := 16.
Definition STORE_NONCE_LEN : nat := 24.
Definition HEADER_LEN : nat := 13 + SALT_LEN + STORE_NONCE_LEN.

(** A path with a file name: directory and name. [with_extension] replaces
    what follows the last dot of the name; a dot that starts the name is not
    one that ends a stem. *)
Notation Path := (bytes * bytes)%type.
Fixpoint before_dot (s : bytes) : bytes :=
  match s with
  | [] => []
  | c :: s' => if bool_decide (c = x2e) then [] else c :: before_dot s'
  end.
Definition file_stem (name : bytes) : bytes :=
  let after := before_dot (rev name) in
  if (length after =? length name)%nat then name
  else
    let before := take (length name - length after - 1) name in
    if bool_decide (before = []) then name else before.
Definition with_extension (p : Path) (ext : bytes) : Path := (p.1, file_stem p.2 ++ x2e :: ext).

(** The files of a directory tree, and the two operations [save] performs on
    it.  A rename is atomic; a write that is interrupted, by a crash or by an
    error, leaves some prefix of what was to be written. *)
Notation Fs := (gmap Path bytes).
Inductive FsOp : Type :=
  | FsWrite (p : Path) (content : bytes)
  | FsRename (from to : Path).
Definition fs_apply (op : FsOp) (fs : Fs) : Fs :=
  match op with
  | FsWrite p content => <[p := content]> fs
  | FsRename from to => match fs !! from with Some c => <[to := c]> (delete from fs) | None => fs end
  end.
Inductive interrupted : list FsOp → Fs → Fs → Prop :=
  | int_before ops fs : interrupted ops fs fs
  | int_write p content n ops fs : interrupted (FsWrite p content :: ops) fs (<[p := take n content]> fs)
  | int_after op ops fs fs' : interrupted ops (fs_apply op fs) fs' → interrupted (op :: ops) fs fs'.

Inductive IoError : Type := NotFound | OtherIo (what : string).
Definition fs_read (fs : Fs) (p : Path) : result bytes IoError := ok_or (fs !! p) NotFound.

Section store.
Context `{CryptoPrims}.

(** The key of a store is derived from the identity's [ratchet_db_key]. [None]:
    the [expect] panics. *)
Definition derive_key (ratchet_db_key salt : bytes) : option bytes :=
  let prk := kdf_extract salt ratchet_db_key in
  match kdf_expand prk STORE_KDF_INFO 32 with Ok key => Some key | Err _ => None end.

(** [salt] and [nonce] are drawn by [random_array]. *)
Definition save (path : Path) (ratchet_db_key : bytes) (state : PersistedState) (salt nonce : bytes)
    : option (list FsOp) :=
  key ← derive_key ratchet_db_key salt;
  let aad := MAGIC ++ salt in
  let ciphertext := xchacha_seal key nonce (encode_state state) aad in
  let file := MAGIC ++ salt ++ nonce ++ ciphertext in
  let tmp := with_extension path (lit "tmp") in
  Some [FsWrite tmp file; FsRename tmp path].

Definition load (read : result bytes IoError) (ratchet_db_key : bytes)
    : option (result (option PersistedState) StoreError) :=
  match read with
  | Err NotFound => Some (Ok None)
  | Err (OtherIo e) => Some (Err (StIo e))
  | Ok file =>
    if (length file <? HEADER_LEN)%nat || negb (bool_decide (take 13 file = MAGIC)) then Some (Err StMalformed)
    else
      let salt := take SALT_LEN (drop 13 file) in
      let nonce := take STORE_NONCE_LEN (drop (13 + SALT_LEN) file) in
      key ← derive_key ratchet_db_key salt;
      let aad := MAGIC ++ salt in
      Some (let? plaintext := map_err (λ _, StDecrypt) (xchacha_open key nonce (drop HEADER_LEN file) aad) in
            let? s := decode_state plaintext in
            Ok (Some s))
  end.
End store.
