(* ===== verification/LocalStoreProofs.v ===== *)
(** * The local store: every version of the file loads *)

From S2P Require Import Prelude Utf8 Enc Crypto ProtoRecord IdentityRecords Server Wire WireProofs X3dh Ratchet RatchetProofs Session Roles RolesProofs Channel LocalStore.

(** ** Elements *)

Definition enc_session (p : bytes * SessionState) : bytes := p.1 ++ lenp (session_state_encode p.2).
Definition session_ok (p : bytes * SessionState) : Prop :=
  ok_len 32 p.1 ∧ session_state_ok p.2 ∧ fits_u32 (session_state_encode p.2).

#[export] Instance session_parses : Parses r_session enc_session session_ok.
Proof.
  intros [i s] pre post (Hi & Hs & Hl). cbn [fst snd] in *. unfold r_session, enc_session. cbn [fst snd].
  rewrite <- !app_assoc. parses. rewrite (r_lift_ok _ _ s) by by apply session_state_round.
  unfold r_ret, id. by rewrite <- !app_assoc.
Qed.

Definition ok_ids32 : list bytes → Prop := ok_list (ok_len 32).

Definition enc_key (o : option bytes) : bytes :=
  match o with Some k => enc_bool true ++ k | None => enc_bool false end.
Definition key_ok (o : option bytes) : Prop := match o with Some k => ok_len 32 k | None => True end.
#[export] Instance log_key_parses : Parses r_log_key enc_key key_ok.
Proof.
  intros [k|] pre post Hk; unfold r_log_key, enc_key; cbn in Hk; rewrite <- ?app_assoc; parses;
    unfold r_ret, id; by rewrite <- ?app_assoc, ?app_nil_r.
Qed.

Definition enc_channel (c : StoredChannel) : bytes :=
  lenp (info_encode (sc_info c)) ++ lenp (sc_mls c) ++ be 8 (sc_last_seq c) ++ enc_list id (sc_roster c) ++
  enc_key (sc_log_key c).
Definition channel_ok (c : StoredChannel) : Prop :=
  info_ok (sc_info c) ∧ fits_u32 (info_encode (sc_info c)) ∧ fits_u32 (sc_mls c) ∧ ok_u64 (sc_last_seq c) ∧
  ok_ids32 (sc_roster c) ∧ key_ok (sc_log_key c).
#[export] Instance channel_parses : Parses r_channel enc_channel channel_ok.
Proof.
  intros [i m l s k] pre post (Hi & Hl & Hm & Hs & Hr & Hk). cbn in Hi, Hl, Hm, Hs, Hr, Hk.
  unfold r_channel, enc_channel. cbn [sc_info sc_mls sc_roster sc_last_seq sc_log_key].
  rewrite <- !app_assoc. parses. rewrite (r_lift_ok _ _ i) by by apply info_round. parses.
  unfold r_ret, id. by rewrite <- !app_assoc.
Qed.

Definition enc_hosted (h : StoredHostedServer) : bytes :=
  sh_root_pub h ++ lenp (sh_name h) ++ sh_root_secret h ++ enc_list id (sh_channels h).
Definition hosted_ok (h : StoredHostedServer) : Prop :=
  ok_len 32 (sh_root_pub h) ∧ ok_str (sh_name h) ∧ ok_len 32 (sh_root_secret h) ∧ ok_ids32 (sh_channels h).
#[export] Instance hosted_parses : Parses r_hosted enc_hosted hosted_ok.
Proof.
  intros [a b c d] pre post (Ha & Hb & Hc & Hd). cbn in Ha, Hb, Hc, Hd.
  unfold r_hosted, enc_hosted. cbn [sh_root_pub sh_name sh_root_secret sh_channels].
  rewrite <- !app_assoc. parses. unfold r_ret, id. by rewrite <- !app_assoc.
Qed.

Definition enc_kind (k : HistoryKind) : bytes :=
  match k with HkText t => enc_u8 1 ++ lenp t | HkFile f s => enc_u8 2 ++ lenp f ++ be 8 s end.
Definition kind_ok (k : HistoryKind) : Prop :=
  match k with HkText t => ok_str t | HkFile f s => ok_str f ∧ ok_u64 s end.
#[export] Instance history_kind_parses : Parses r_kind enc_kind kind_ok.
Proof.
  intros [t|f s] pre post Hk; cbn in Hk; destruct_and?; unfold r_kind, enc_kind; rewrite <- !app_assoc.
  - rewrite (r_bind_rd _ _ _ _ 1%N _ _ u8_parses) by done. cbn [N.eqb Pos.eqb]. parses.
    unfold r_ret. by rewrite <- !app_assoc.
  - rewrite (r_bind_rd _ _ _ _ 2%N _ _ u8_parses) by done. cbn [N.eqb Pos.eqb]. parses.
    unfold r_ret. by rewrite <- !app_assoc.
Qed.

(** An entry as read: its id is restored later. *)
Definition blank (h : HistoryEntry) : HistoryEntry :=
  mkHistory (he_peer_idk h) (he_outgoing h) (he_ts_ms h) (he_kind h) (replicate 16 x00).
Definition enc_history (h : HistoryEntry) : bytes :=
  he_peer_idk h ++ enc_bool (he_outgoing h) ++ be 8 (he_ts_ms h) ++ enc_kind (he_kind h).
Definition history_ok (h : HistoryEntry) : Prop :=
  ok_len 32 (he_peer_idk h) ∧ ok_u64 (he_ts_ms h) ∧ kind_ok (he_kind h).
#[export] Instance history_parses : Parses r_history enc_history (λ h, history_ok h ∧ he_msg_id h = replicate 16 x00).
Proof.
  intros [a b c d e] pre post [(Ha & Hc & Hd) He]. cbn in Ha, Hc, Hd, He. subst e.
  unfold r_history, enc_history. cbn [he_peer_idk he_outgoing he_ts_ms he_kind].
  rewrite <- !app_assoc. parses. unfold r_ret, id. by rewrite <- !app_assoc.
Qed.

Definition plain (e : ChannelHistoryEntry) : ChannelHistoryEntry :=
  mkChanHistory (ch_channel_id e) (ch_sender e) (ch_outgoing e) (ch_ts_ms e) (ch_text e) 0 None None.
Definition enc_chan_history (e : ChannelHistoryEntry) : bytes :=
  ch_channel_id e ++ ch_sender e ++ enc_bool (ch_outgoing e) ++ be 8 (ch_ts_ms e) ++ lenp (ch_text e).
Definition chan_history_ok (e : ChannelHistoryEntry) : Prop :=
  ok_len 32 (ch_channel_id e) ∧ ok_len 32 (ch_sender e) ∧ ok_u64 (ch_ts_ms e) ∧ ok_str (ch_text e).
#[export] Instance chan_history_parses :
  Parses r_chan_history enc_chan_history (λ e, chan_history_ok e ∧ plain e = e).
Proof.
  intros [a b c d e f g h] pre post [(Ha & Hb & Hd & He) Hp]. cbn in Ha, Hb, Hd, He. injection Hp as <- <- <-.
  unfold r_chan_history, enc_chan_history. cbn [ch_channel_id ch_sender ch_outgoing ch_ts_ms ch_text].
  rewrite <- !app_assoc. parses. unfold r_ret, id. by rewrite <- !app_assoc.
Qed.

Definition enc_removed (p : bytes * bytes * N) : bytes := p.1.1 ++ p.1.2 ++ be 8 p.2.
Definition removed_ok (p : bytes * bytes * N) : Prop := ok_len 32 p.1.1 ∧ ok_len 32 p.1.2 ∧ ok_u64 p.2.
#[export] Instance removed_parses : Parses r_removed enc_removed removed_ok.
Proof.
  intros [[a b] c] pre post (Ha & Hb & Hc). cbn in Ha, Hb, Hc. unfold r_removed, enc_removed. cbn [fst snd].
  rewrite <- !app_assoc. parses. unfold r_ret, id. by rewrite <- !app_assoc.
Qed.

Definition enc_reaction (p : bytes * N * bytes * bytes) : bytes :=
  let '(chan, seq, emoji, member) := p in chan ++ be 8 seq ++ lenp emoji ++ member.
Definition reaction_ok (p : bytes * N * bytes * bytes) : Prop :=
  let '(chan, seq, emoji, member) := p in ok_len 32 chan ∧ ok_u64 seq ∧ ok_str emoji ∧ ok_len 32 member.
#[export] Instance reaction_parses : Parses r_reaction enc_reaction reaction_ok.
Proof.
  intros [[[a b] c] d] pre post (Ha & Hb & Hc & Hd). unfold r_reaction, enc_reaction.
  rewrite <- !app_assoc. parses. unfold r_ret, id. by rewrite <- !app_assoc.
Qed.

Definition enc_contact (p : bytes * bytes * N) : bytes := p.1.1 ++ lenp p.1.2 ++ be 8 p.2.
Definition contact_ok (p : bytes * bytes * N) : Prop := ok_len 32 p.1.1 ∧ ok_str p.1.2 ∧ ok_u64 p.2.
#[export] Instance contact_parses : Parses r_contact enc_contact contact_ok.
Proof.
  intros [[a b] c] pre post (Ha & Hb & Hc). cbn in Ha, Hb, Hc. unfold r_contact, enc_contact. cbn [fst snd].
  rewrite <- !app_assoc. parses. unfold r_ret, id. by rewrite <- !app_assoc.
Qed.

Definition enc_edit (e : StoredEdit) : bytes :=
  sd_channel_id e ++ be 8 (sd_seq e) ++ sd_author e ++ lenp (sd_text e) ++ enc_bool (sd_deleted e).
Definition edit_ok (e : StoredEdit) : Prop :=
  ok_len 32 (sd_channel_id e) ∧ ok_u64 (sd_seq e) ∧ ok_len 32 (sd_author e) ∧ ok_str (sd_text e).
#[export] Instance edit_parses : Parses r_edit enc_edit edit_ok.
Proof.
  intros [a b c d e] pre post (Ha & Hb & Hc & Hd). cbn in Ha, Hb, Hc, Hd. unfold r_edit, enc_edit.
  cbn [sd_channel_id sd_seq sd_author sd_text sd_deleted].
  rewrite <- !app_assoc. parses. unfold r_ret, id. by rewrite <- !app_assoc.
Qed.

Definition enc_pin (p : StoredPin) : bytes := pn_channel_id p ++ be 8 (pn_seq p) ++ pn_by p ++ be 8 (pn_at_ms p).
Definition pin_ok (p : StoredPin) : Prop :=
  ok_len 32 (pn_channel_id p) ∧ ok_u64 (pn_seq p) ∧ ok_len 32 (pn_by p) ∧ ok_u64 (pn_at_ms p).
#[export] Instance pin_parses : Parses r_pin enc_pin pin_ok.
Proof.
  intros [a b c d] pre post (Ha & Hb & Hc & Hd). cbn in Ha, Hb, Hc, Hd. unfold r_pin, enc_pin.
  cbn [pn_channel_id pn_seq pn_by pn_at_ms].
  rewrite <- !app_assoc. parses. unfold r_ret, id. by rewrite <- !app_assoc.
Qed.

Definition enc_dm_edit (e : StoredDmEdit) : bytes :=
  dd_peer_idk e ++ dd_msg_id e ++ lenp (dd_text e) ++ enc_bool (dd_deleted e).
Definition dm_edit_ok (e : StoredDmEdit) : Prop :=
  ok_len 32 (dd_peer_idk e) ∧ ok_len 16 (dd_msg_id e) ∧ ok_str (dd_text e).
#[export] Instance dm_edit_parses : Parses r_dm_edit enc_dm_edit dm_edit_ok.
Proof.
  intros [a b c d] pre post (Ha & Hb & Hc). cbn in Ha, Hb, Hc. unfold r_dm_edit, enc_dm_edit.
  cbn [dd_peer_idk dd_msg_id dd_text dd_deleted].
  rewrite <- !app_assoc. parses. unfold r_ret, id. by rewrite <- !app_assoc.
Qed.

Definition enc_stored_pow (p : StoredServerPow) : bytes :=
  so_root p ++ be 4 (so_m_cost_kib p) ++ be 4 (so_t_cost p) ++ enc_u8 (so_difficulty p) ++ so_nonce p.
Definition stored_pow_ok (p : StoredServerPow) : Prop :=
  ok_len 32 (so_root p) ∧ ok_u32 (so_m_cost_kib p) ∧ ok_u32 (so_t_cost p) ∧ ok_u8 (so_difficulty p) ∧
  ok_len 16 (so_nonce p).
#[export] Instance stored_pow_parses : Parses r_stored_pow enc_stored_pow stored_pow_ok.
Proof.
  intros [a b c d e] pre post (Ha & Hb & Hc & Hd & He). cbn in Ha, Hb, Hc, Hd, He. unfold r_stored_pow, enc_stored_pow.
  cbn [so_root so_m_cost_kib so_t_cost so_difficulty so_nonce].
  rewrite <- !app_assoc. parses. unfold r_ret, id. by rewrite <- !app_assoc.
Qed.

(** Metadata, from the entry it belongs to. *)
Definition meta_of (e : ChannelHistoryEntry) : Meta := (ch_seq e, ch_reply_to e, ch_forwarded_from e).
Definition enc_opt_str (o : option bytes) : bytes :=
  match o with Some f => enc_bool true ++ lenp f | None => enc_bool false end.
Definition enc_meta (m : Meta) : bytes :=
  let '(seq, reply_to, fwd) := m in
  be 8 seq ++ enc_bool (match reply_to with Some _ => true | None => false end) ++
  be 8 (default 0%N reply_to) ++ enc_opt_str fwd.
Definition meta_ok (m : Meta) : Prop :=
  let '(seq, reply_to, fwd) := m in
  ok_u64 seq ∧ ok_u64 (default 0%N reply_to) ∧ match fwd with Some f => ok_str f | None => True end.
#[export] Instance meta_parses : Parses r_meta enc_meta meta_ok.
Proof.
  intros [[s r] f] pre post (Hs & Hr & Hf). unfold r_meta, enc_meta. rewrite <- !app_assoc. parses.
  destruct f as [f|]; unfold enc_opt_str; rewrite <- ?app_assoc; parses; unfold r_bind, r_ret;
    [rewrite (string_parses f _ post Hf)|]; destruct r; rewrite <- ?app_assoc; done.
Qed.

(** ** Lists of elements *)

(** The first component of every element has a fixed, positive size, or is
    preceded by a length. *)
Ltac long := intros; repeat match goal with H : _ ∧ _ |- _ => destruct H as [? H] end; unfold ok_len in *;
  rewrite ?length_app, ?length_be; lia.

Lemma session_long p : session_ok p → (1 ≤ length (enc_session p))%nat.
Proof. unfold session_ok, enc_session. long. Qed.
Lemma channel_long c : channel_ok c → (1 ≤ length (enc_channel c))%nat.
Proof. intros _. unfold enc_channel. pose proof (lenp_nonempty (info_encode (sc_info c))). rewrite length_app. lia. Qed.
Lemma hosted_long h : hosted_ok h → (1 ≤ length (enc_hosted h))%nat.
Proof. unfold hosted_ok, enc_hosted. long. Qed.
Lemma history_long h : history_ok h ∧ he_msg_id h = replicate 16 x00 → (1 ≤ length (enc_history h))%nat.
Proof. intros [H _]. unfold history_ok, enc_history in *. revert H. long. Qed.
Lemma chan_history_long e : chan_history_ok e ∧ plain e = e → (1 ≤ length (enc_chan_history e))%nat.
Proof. intros [H _]. unfold chan_history_ok, enc_chan_history in *. revert H. long. Qed.
Lemma removed_long p : removed_ok p → (1 ≤ length (enc_removed p))%nat.
Proof. unfold removed_ok, enc_removed. long. Qed.
Lemma reaction_long p : reaction_ok p → (1 ≤ length (enc_reaction p))%nat.
Proof. destruct p as [[[a b] c] d]. unfold reaction_ok, enc_reaction. long. Qed.
Lemma contact_long p : contact_ok p → (1 ≤ length (enc_contact p))%nat.
Proof. unfold contact_ok, enc_contact. long. Qed.
Lemma edit_long e : edit_ok e → (1 ≤ length (enc_edit e))%nat.
Proof. unfold edit_ok, enc_edit. long. Qed.
Lemma pin_long p : pin_ok p → (1 ≤ length (enc_pin p))%nat.
Proof. unfold pin_ok, enc_pin. long. Qed.
Lemma dm_edit_long e : dm_edit_ok e → (1 ≤ length (enc_dm_edit e))%nat.
Proof. unfold dm_edit_ok, enc_dm_edit. long. Qed.
Lemma stored_pow_long p : stored_pow_ok p → (1 ≤ length (enc_stored_pow p))%nat.
Proof. unfold stored_pow_ok, enc_stored_pow. long. Qed.
Lemma meta_long m : meta_ok m → (1 ≤ length (enc_meta m))%nat.
Proof. intros _. destruct m as [[s r] f]. unfold enc_meta. rewrite length_app, length_be. lia. Qed.
Lemma fixed_long n b : ok_len (S n) b → (1 ≤ length (id b))%nat.
Proof. unfold ok_len, id. lia. Qed.

(** *** Pairs *)

Definition pair_ok {B} (n : nat) (ok : B → Prop) (p : bytes * B) : Prop := ok_len n p.1 ∧ ok p.2.
Definition enc_pair {B} (enc : B → bytes) (p : bytes * B) : bytes := p.1 ++ enc p.2.
#[export] Instance keyed_parses {B} n (m : Read B) enc ok :
  Parses m enc ok → Parses (r_pair (r_fixed n) m) (enc_pair enc) (pair_ok n ok).
Proof. intros Hm. apply (pair_parses (r_fixed n) m id enc (ok_len n) ok); [apply _|done]. Qed.
Lemma pair_long {B} n (enc : B → bytes) ok p : pair_ok (S n) ok p → (1 ≤ length (enc_pair enc p))%nat.
Proof. unfold pair_ok, enc_pair. long. Qed.

(** ** The fixed part and the sections *)

Definition sections (s : PersistedState) : list bytes := [
  enc_list enc_chan_history (ps_channel_history s);
  enc_list (enc_pair (be 4)) (ps_invite_uses s);
  enc_list enc_removed (ps_channel_removed s);
  enc_list (enc_pair (be 8)) (ps_server_autokick s);
  enc_list lenp (ps_server_policies s);
  enc_list (enc_pair id) (ps_server_join_pw s);
  enc_list enc_reaction (ps_channel_reactions s);
  enc_list (enc_pair id) (ps_verified_peers s);
  enc_list enc_contact (ps_contacts s);
  enc_list id (ps_blocked s);
  enc_list enc_edit (ps_channel_edits s);
  enc_list enc_pin (ps_channel_pins s);
  enc_list id (ps_dm_msg_ids s);
  enc_list enc_dm_edit (ps_dm_edits s);
  enc_list (enc_pair (enc_list id)) (ps_server_bans s);
  enc_list enc_stored_pow (ps_server_register_pow s);
  enc_list (enc_pair lenp) (ps_group_calls s);
  enc_list enc_meta (meta_of <$> ps_channel_history s)].

Definition fixed_part (s : PersistedState) : bytes :=
  be 8 (ps_last_announce_ms s) ++ be 8 (ps_last_fetch_since_ms s) ++ lenp (secrets_encode (ps_prekeys s)) ++
  enc_list enc_session (ps_sessions s) ++ enc_list enc_channel (ps_channels s) ++
  enc_list enc_hosted (ps_hosted s) ++ enc_list enc_history (ps_history s) ++ enc_list id (ps_seen_envelopes s).

(** What the version that knew the first [n] sections wrote. *)
Definition encode_as_of (n : nat) (s : PersistedState) : bytes := fixed_part s ++ mjoin (take n (sections s)).

Lemma enc_list_fmap {A B} (f : A → B) enc l : enc_list enc (f <$> l) = enc_list (enc ∘ f) l.
Proof. unfold enc_list, len. rewrite length_fmap. f_equal. induction l as [|x l IH]; [done|]. cbn. by f_equal. Qed.

Lemma w_buf_channel c w : w_buf (w_channel c w) = w_buf w ++ enc_channel c.
Proof.
  unfold w_channel, enc_channel, enc_list, enc_key. cbv zeta. destruct (sc_log_key c); by enc_norm.
Qed.
Lemma w_buf_hosted h w : w_buf (w_hosted h w) = w_buf w ++ enc_hosted h.
Proof. unfold w_hosted, enc_hosted, enc_list. by enc_norm. Qed.
Lemma w_buf_history h w : w_buf (w_history h w) = w_buf w ++ enc_history h.
Proof. unfold w_history, enc_history, enc_kind. cbv zeta. destruct (he_kind h); by enc_norm. Qed.
Lemma w_buf_ban p w : w_buf (w_ban p w) = w_buf w ++ enc_pair (enc_list id) p.
Proof. unfold w_ban, enc_pair, enc_list. by enc_norm. Qed.
Lemma w_buf_meta e w : w_buf (w_meta e w) = w_buf w ++ (enc_meta ∘ meta_of) e.
Proof.
  unfold w_meta, enc_meta, meta_of, enc_opt_str. cbn. destruct (ch_forwarded_from e); by enc_norm.
Qed.

Ltac buf_simple := intros [] ?; unfold w_session, enc_session, w_chan_history, enc_chan_history, w_invite_use,
  enc_pair, w_removed, enc_removed, w_autokick, w_two, w_reaction, enc_reaction, w_contact, enc_contact, w_edit,
  enc_edit, w_pin, enc_pin, w_dm_edit, enc_dm_edit, w_stored_pow, enc_stored_pow, w_group_call; repeat case_match; by enc_norm.
Lemma w_buf_fixed_id b w : w_buf (w_fixed b w) = w_buf w ++ id b.
Proof. by enc_norm. Qed.

Lemma encode_state_eq s : encode_state s = encode_as_of 18 s.
Proof.
  unfold encode_state, encode_as_of, fixed_part, sections. rewrite enc_list_fmap.
  rewrite w_into_vec_buf, (w_buf_section w_meta (enc_meta ∘ meta_of)) by apply w_buf_meta.
  rewrite (w_buf_section w_group_call (enc_pair lenp)) by buf_simple.
  rewrite (w_buf_section w_stored_pow enc_stored_pow) by buf_simple.
  rewrite (w_buf_section w_ban (enc_pair (enc_list id))) by apply w_buf_ban.
  rewrite (w_buf_section w_dm_edit enc_dm_edit) by buf_simple.
  rewrite (w_buf_section w_fixed id (ps_dm_msg_ids s)) by apply w_buf_fixed_id.
  rewrite (w_buf_section w_pin enc_pin), (w_buf_section w_edit enc_edit) by buf_simple.
  rewrite (w_buf_section w_fixed id (ps_blocked s)) by apply w_buf_fixed_id.
  rewrite (w_buf_section w_contact enc_contact), (w_buf_section w_two (enc_pair id) (ps_verified_peers s)) by buf_simple.
  rewrite (w_buf_section w_reaction enc_reaction), (w_buf_section w_two (enc_pair id) (ps_server_join_pw s)) by buf_simple.
  rewrite (w_buf_section w_bytes lenp) by (intros; by enc_norm).
  rewrite (w_buf_section w_autokick (enc_pair (be 8))), (w_buf_section w_removed enc_removed) by buf_simple.
  rewrite (w_buf_section w_invite_use (enc_pair (be 4))) by buf_simple.
  rewrite (w_buf_section w_chan_history enc_chan_history) by buf_simple.
  rewrite (w_buf_section w_fixed id (ps_seen_envelopes s)) by apply w_buf_fixed_id.
  rewrite (w_buf_section w_history enc_history) by apply w_buf_history.
  rewrite (w_buf_section w_hosted enc_hosted) by apply w_buf_hosted.
  rewrite (w_buf_section w_channel enc_channel) by apply w_buf_channel.
  rewrite (w_buf_section w_session enc_session) by buf_simple.
  enc_norm. cbn [take mjoin list_join]. by rewrite ?app_nil_r, <- ?app_assoc.
Qed.

(** ** Reading what an older version wrote *)

(** The value of section [k] for a reader of a file with [n] sections. *)
Definition since {A} (k n : nat) (l : list A) : list A := if (k <? n)%nat then l else [].

Lemma tail_parse {A B} (m : Read A) enc ok (K : list A → Read B) k n l secs pre :
  Parses m enc ok → (∀ a, ok a → (1 ≤ length (enc a))%nat) → ok_list ok l →
  r_bind (r_tail m) K (rd pre (mjoin (take (n - k) (enc_list enc l :: secs)))) =
  K (since k n l) (rd (pre ++ if (k <? n)%nat then enc_list enc l else []) (mjoin (take (n - S k) secs))).
Proof.
  intros Hm Hlong Hl. unfold r_tail, since. rewrite r_bind_assoc, r_bind_more.
  destruct (Nat.ltb_spec k n) as [Hn|Hn].
  - replace (n - k)%nat with (S (n - S k)) by lia. cbn [take].
    change (mjoin (enc_list enc l :: take (n - S k) secs)) with (enc_list enc l ++ mjoin (take (n - S k) secs)).
    pose proof (enc_list_nonempty enc l (mjoin (take (n - S k) secs))) as Hne. apply Nat.ltb_lt in Hne.
    rewrite Hne. refine (r_bind_rd _ (enc_list enc) (ok_list ok) _ _ _ _ (counted_parses _ _ _ Hlong) Hl).
  - replace (n - k)%nat with 0%nat by lia. replace (n - S k)%nat with 0%nat by lia. by rewrite app_nil_r.
Qed.

Lemma counted_parse {A} (m : Read A) enc ok :
  Parses m enc ok → (∀ a, ok a → (1 ≤ length (enc a))%nat) → Parses (r_counted m) (enc_list enc) (ok_list ok).
Proof. intros ? ?. by apply counted_parses. Qed.

#[export] Instance counted_sessions : Parses (r_counted r_session) (enc_list enc_session) (ok_list session_ok).
Proof. apply counted_parse; [apply _|apply session_long]. Qed.
#[export] Instance counted_channels : Parses (r_counted r_channel) (enc_list enc_channel) (ok_list channel_ok).
Proof. apply counted_parse; [apply _|apply channel_long]. Qed.
#[export] Instance counted_hosted : Parses (r_counted r_hosted) (enc_list enc_hosted) (ok_list hosted_ok).
Proof. apply counted_parse; [apply _|apply hosted_long]. Qed.
#[export] Instance counted_history : Parses (r_counted r_history) (enc_list enc_history)
  (ok_list (λ h, history_ok h ∧ he_msg_id h = replicate 16 x00)).
Proof. apply counted_parse; [apply _|apply history_long]. Qed.

(** The state a client of the version with [n] sections saved. *)
Definition as_of (n : nat) (s : PersistedState) : PersistedState :=
  mkPersisted (ps_prekeys s) (ps_sessions s) (ps_channels s) (ps_hosted s)
    (if (12 <? n)%nat then ps_history s else blank <$> ps_history s)
    (since 0 n (if (17 <? n)%nat then ps_channel_history s else plain <$> ps_channel_history s))
    (since 1 n (ps_invite_uses s)) (since 2 n (ps_channel_removed s)) (since 3 n (ps_server_autokick s))
    (since 5 n (ps_server_join_pw s)) (since 4 n (ps_server_policies s)) (since 6 n (ps_channel_reactions s))
    (since 7 n (ps_verified_peers s)) (since 8 n (ps_contacts s)) (since 9 n (ps_blocked s))
    (since 10 n (ps_channel_edits s)) (since 11 n (ps_channel_pins s)) (since 12 n (ps_dm_msg_ids s))
    (since 13 n (ps_dm_edits s)) (ps_seen_envelopes s) (ps_last_announce_ms s) (ps_last_fetch_since_ms s)
    (since 14 n (ps_server_bans s)) (since 15 n (ps_server_register_pow s)) (since 16 n (ps_group_calls s)).

(** Field sizes, and ids aligned with the history, as the engine saves them. *)
Definition state_ok (s : PersistedState) : Prop :=
  ok_u64 (ps_last_announce_ms s) ∧ ok_u64 (ps_last_fetch_since_ms s) ∧
  secrets_ok (ps_prekeys s) ∧ fits_u32 (secrets_encode (ps_prekeys s)) ∧
  ok_list session_ok (ps_sessions s) ∧ ok_list channel_ok (ps_channels s) ∧ ok_list hosted_ok (ps_hosted s) ∧
  ok_list history_ok (ps_history s) ∧ ok_list (ok_len 32) (ps_seen_envelopes s) ∧
  ok_list chan_history_ok (ps_channel_history s) ∧
  ok_list (pair_ok 8 ok_u32) (ps_invite_uses s) ∧ ok_list removed_ok (ps_channel_removed s) ∧
  ok_list (pair_ok 32 ok_u64) (ps_server_autokick s) ∧ ok_list fits_u32 (ps_server_policies s) ∧
  ok_list (pair_ok 32 (ok_len 32)) (ps_server_join_pw s) ∧ ok_list reaction_ok (ps_channel_reactions s) ∧
  ok_list (pair_ok 32 (ok_len 32)) (ps_verified_peers s) ∧ ok_list contact_ok (ps_contacts s) ∧
  ok_list (ok_len 32) (ps_blocked s) ∧ ok_list edit_ok (ps_channel_edits s) ∧ ok_list pin_ok (ps_channel_pins s) ∧
  ok_list (ok_len 16) (ps_dm_msg_ids s) ∧ ok_list dm_edit_ok (ps_dm_edits s) ∧
  ok_list (pair_ok 32 (ok_list (ok_len 32))) (ps_server_bans s) ∧ ok_list stored_pow_ok (ps_server_register_pow s) ∧
  ok_list (pair_ok 32 fits_u32) (ps_group_calls s) ∧ ok_list meta_ok (meta_of <$> ps_channel_history s) ∧
  ps_dm_msg_ids s = he_msg_id <$> ps_history s.

Lemma apply_ids_blank l n :
  apply_ids (blank <$> l) (since 12 n (he_msg_id <$> l)) = if (12 <? n)%nat then l else blank <$> l.
Proof.
  unfold since. destruct (12 <? n)%nat; [|by destruct (blank <$> l)].
  induction l as [|[] l IH]; [done|]. cbn in *. by rewrite IH.
Qed.

Lemma apply_meta_plain l n :
  apply_meta (since 0 n (plain <$> l)) (since 17 n (meta_of <$> l)) =
  since 0 n (if (17 <? n)%nat then l else plain <$> l).
Proof.
  unfold since. destruct (Nat.ltb_spec 17 n) as [Hn|Hn].
  - replace (0 <? n)%nat with true by (symmetry; apply Nat.ltb_lt; lia).
    induction l as [|[] l IH]; [done|]. cbn in *. by rewrite IH.
  - by destruct (if (0 <? n)%nat then _ else _).
Qed.

Lemma ok_list_map {A} (f : A → A) (P Q : A → Prop) l :
  (∀ x, P x → Q (f x)) → ok_list P l → ok_list Q (f <$> l).
Proof.
  intros Hf [Hl HP]. split; [unfold fits_u32, len in *; by rewrite length_fmap|].
  apply Forall_fmap. eapply list.Forall_impl; [exact HP|]. done.
Qed.

Create HintDb long.
#[export] Hint Resolve session_long channel_long hosted_long history_long chan_history_long removed_long
  reaction_long contact_long edit_long pin_long dm_edit_long stored_pow_long meta_long fixed_long pair_long : long.
#[export] Hint Extern 1 (1 ≤ length (lenp _))%nat => apply lenp_nonempty : long.
#[export] Hint Extern 1 (1 ≤ length (id _))%nat => eapply fixed_long; eassumption : long.
#[export] Hint Extern 1 (1 ≤ length (enc_pair _ _))%nat => eapply pair_long; eassumption : long.

(** Reads the next section of the file. *)
Ltac tail_step :=
  match goal with
  | |- r_bind (r_tail ?m) ?K (rd ?p (mjoin (take (?n - ?k) (enc_list ?enc ?l :: ?secs)))) = _ =>
    let Hm := fresh "Hm" in
    eassert (Hm : Parses m enc _) by typeclasses eauto;
    rewrite (tail_parse m enc _ K k n l secs p Hm); [clear Hm; cbv beta|solve [eauto with long nocore]|eassumption]
  end.

Lemma run_as_of n s : state_ok s → run r_state (encode_as_of n s) = Ok (as_of n s).
Proof.
  intros Hok. unfold state_ok in Hok. destruct_and! Hok.
  assert (Hplain : ok_list (λ e, chan_history_ok e ∧ plain e = e) (plain <$> ps_channel_history s))
    by (eapply ok_list_map; [|eassumption]; intros e He; split; [exact He|done]).
  assert (Hblank : ok_list (λ h, history_ok h ∧ he_msg_id h = replicate 16 x00) (blank <$> ps_history s))
    by (eapply ok_list_map; [|eassumption]; intros e He; split; [exact He|done]).
  eapply run_parse. unfold encode_as_of, fixed_part, r_state. rewrite <- !app_assoc, app_nil_r.
  do 3 parse1. rewrite (r_lift_ok _ _ (ps_prekeys s)) by by apply secrets_round. do 3 parse1.
  replace (enc_list enc_history (ps_history s)) with (enc_list enc_history (blank <$> ps_history s)) at 1
    by (rewrite enc_list_fmap; done).
  refine (eq_trans (r_bind_rd _ _ _ _ (blank <$> ps_history s) _ _ counted_history Hblank) _).
  refine (eq_trans (r_bind_rd _ _ _ _ (ps_seen_envelopes s) _ _ fixeds_parses _) _); [assumption|].
  cbv beta. unfold sections. rewrite <- (Nat.sub_0_r n) at 1.
  replace (enc_list enc_chan_history (ps_channel_history s))
    with (enc_list enc_chan_history (plain <$> ps_channel_history s)) at 1 by (rewrite enc_list_fmap; done).
  do 18 tail_step. rewrite take_nil. change (mjoin []) with (@nil byte). rewrite r_bind_finish. unfold r_ret, as_of.
  match goal with H : ps_dm_msg_ids s = _ |- _ => rewrite H end.
  by rewrite apply_ids_blank, apply_meta_plain.
Qed.

(** ** The file *)

Section file.
Context `{CryptoPrims}.

(** The file that holds [plaintext]. *)
Definition sealed_file (key salt nonce plaintext : bytes) : bytes :=
  MAGIC ++ salt ++ nonce ++ xchacha_seal key nonce plaintext (MAGIC ++ salt).

Lemma derive_key_some `{!KdfLaws} k salt : is_Some (derive_key k salt).
Proof.
  unfold derive_key, kdf_expand. destruct (hkdf_expand_some (kdf_extract salt k) STORE_KDF_INFO 32) as (o & -> & _);
    [lia|]. by eexists.
Qed.

Lemma load_sealed `{!AeadLaws} k key salt nonce plaintext :
  derive_key k salt = Some key → length salt = SALT_LEN → length nonce = STORE_NONCE_LEN →
  load (Ok (sealed_file key salt nonce plaintext)) k =
  Some (let? s := decode_state plaintext in Ok (Some s)).
Proof.
  intros Hk Hs Hn. set (ct := xchacha_seal key nonce plaintext (MAGIC ++ salt)).
  assert (HM : length MAGIC = 13%nat) by done.
  unfold load. assert (length (sealed_file key salt nonce plaintext) <? HEADER_LEN = false)%nat as ->.
  { apply Nat.ltb_ge. unfold sealed_file. rewrite !length_app, HM, Hs, Hn. unfold HEADER_LEN. lia. }
  unfold sealed_file. fold ct. rewrite (take_app_all MAGIC _ 13) by by rewrite HM. rewrite bool_decide_true by done. cbn [orb negb].
  rewrite (drop_app_all MAGIC _ 13) by by rewrite HM. rewrite (take_app_all salt) by done.
  assert (Hd : drop (13 + SALT_LEN) (MAGIC ++ salt ++ nonce ++ ct) = nonce ++ ct).
  { rewrite app_assoc. apply drop_app_all. by rewrite length_app, HM, Hs. }
  rewrite Hd, (take_app_all nonce) by done. rewrite Hk.
  assert (drop HEADER_LEN (MAGIC ++ salt ++ nonce ++ ct) = ct) as ->.
  { rewrite !app_assoc. apply drop_app_all. by rewrite !length_app, HM, Hs, Hn. }
  cbn [mbind option_bind]. unfold xchacha_open, ct, xchacha_seal. by rewrite xchacha_open_seal.
Qed.
End file.

Lemma as_of_all s : as_of 18 s = s.
Proof. by destruct s. Qed.

(** The states a save can stop in: the file at [path] is still the old one, or
    is already the new one; other files are as before. *)
Lemma save_states (fs : Fs) path tmp file fs' :
  tmp ≠ path → interrupted [FsWrite tmp file; FsRename tmp path] fs fs' →
  (fs' !! path = fs !! path ∧ ∀ p, p ≠ path → p ≠ tmp → fs' !! p = fs !! p) ∨
  (fs' !! path = Some file ∧ ∀ p, p ≠ path → p ≠ tmp → fs' !! p = fs !! p).
Proof.
  intros Ht H. inversion H as [|? ? n ? ?|? ? ? ? H2]; subst; clear H.
  - by left.
  - left. rewrite lookup_insert_ne by done. split; [done|]. intros p Hp Hq. by rewrite lookup_insert_ne.
  - cbn [fs_apply] in H2. inversion H2 as [| |? ? ? ? H3]; subst; clear H2.
    + left. rewrite lookup_insert_ne by done. split; [done|]. intros p Hp Hq. by rewrite lookup_insert_ne.
    + cbn [fs_apply] in H3. rewrite lookup_insert_eq in H3. inversion H3; subst. right.
      rewrite lookup_insert_eq. split; [done|]. intros p Hp Hq.
      by rewrite lookup_insert_ne, lookup_delete_ne, lookup_insert_ne.
Qed.
