(* ===== verification/ClientTheorems.v ===== *)
(** * Properties of the client's data: roles, invite links, channel messages, the local store *)

From S2P Require Import Prelude Utf8 Enc Crypto ProtoRecord IdentityRecords X3dh Mailbox Ratchet RatchetProofs Session Roles RolesProofs Invite Channel LocalStore LocalStoreProofs.

(** ** What a member holds *)

(** The member's first assignment names [id], and [r] is the first role of
    that id. *)
Definition holds (p : ServerPolicy) (member : bytes) (r : Role) : Prop :=
  ∃ ids id, assigned p member = Some ids ∧ id ∈ ids ∧ find (λ r, (rl_id r =? id)%N) (sp_roles p) = Some r.

(** The fold of [effective_perms] unites the masks of the roles it finds. *)
Lemma mask_fold (roles : list Role) ids a d i :
  let m := foldl (λ '(allow, deny) id,
    match find (λ r, (rl_id r =? id)%N) roles with
    | Some role => (N.lor allow (rl_allow role), N.lor deny (rl_deny role))
    | None => (allow, deny)
    end) (a, d) ids in
  let found r := ∃ id, id ∈ ids ∧ find (λ r, (rl_id r =? id)%N) roles = Some r in
  (N.testbit m.1 i = true ↔ N.testbit a i = true ∨ ∃ r, found r ∧ N.testbit (rl_allow r) i = true) ∧
  (N.testbit m.2 i = true ↔ N.testbit d i = true ∨ ∃ r, found r ∧ N.testbit (rl_deny r) i = true).
Proof.
  revert a d. induction ids as [|id ids IH]; intros a d; cbn.
  - split; (split; [tauto|]); intros [H|(r & (id & Hid & _) & _)]; try done; by apply elem_of_nil in Hid.
  - destruct (find _ roles) as [r|] eqn:E.
    + destruct (IH (N.lor a (rl_allow r)) (N.lor d (rl_deny r))) as [IH1 IH2]. cbn in IH1, IH2.
      rewrite IH1, IH2, !N.lor_spec, !orb_true_iff. split; (split; [intros [[H|H]|(r' & (id' & Hin & Hf) & H)]
        |intros [H|(r' & (id' & [->|Hin]%elem_of_cons & Hf) & H)]]);
        try (by auto); try (right; exists r'; split; [exists id'; split; [first [done|by right]|done]|done]).
      all: try (right; exists r; split; [exists id; split; [by left|done]|done]).
      all: rewrite E in Hf; injection Hf as <-; auto.
    + destruct (IH a d) as [IH1 IH2]. cbn in IH1, IH2. rewrite IH1, IH2.
      split; (split; [intros [H|(r' & (id' & Hin & Hf) & H)]
        |intros [H|(r' & (id' & [->|Hin]%elem_of_cons & Hf) & H)]]);
        try (by auto); try (right; exists r'; split; [exists id'; split; [first [done|by right]|done]|done]).
      all: congruence.
Qed.

(** C34: permissions. A bit of a member's effective permissions is set exactly
    when the member owns the server, or it is the default one (posting) or
    one of the member's roles allows it, and none of those roles denies it:
    a denial wins over every grant, and only the owner is exempt. *)
Theorem effective_perms_spec p member i :
  N.testbit (effective_perms p member) i = true ↔
  (member = sp_owner_id p ∧ (i < 32)%N) ∨
  (member ≠ sp_owner_id p ∧
   (i = 0%N ∨ ∃ r, holds p member r ∧ N.testbit (rl_allow r) i = true) ∧
   ∀ r, holds p member r → N.testbit (rl_deny r) i = false).
Proof.
  unfold effective_perms. case_bool_decide as Ho.
  { change PERM_ALL with (N.ones 32). split.
    - intros H. left. split; [done|]. destruct (decide (i < 32)%N) as [|Hge]; [done|].
      rewrite N.ones_spec_high in H by lia. done.
    - intros [[_ Hi]|[Hn _]]; [by apply N.ones_spec_low|done]. }
  assert (H0 : N.testbit PERM_DEFAULT i = true ↔ i = 0%N).
  { change PERM_DEFAULT with (2 ^ 0)%N. rewrite N.pow2_bits_eqb, N.eqb_eq. split; congruence. }
  unfold holds. destruct (assigned p member) as [ids|].
  - pose proof (mask_fold (sp_roles p) ids 0 0 i) as [Ha Hd]. cbn zeta in Ha, Hd.
    destruct (foldl _ _ ids) as [allow deny]. cbn [fst snd] in Ha, Hd.
    rewrite N.bits_0 in Ha, Hd. rewrite N.ldiff_spec, N.lor_spec, andb_true_iff, orb_true_iff, negb_true_iff.
    rewrite <- not_true_iff_false, H0, Ha, Hd. split.
    + intros [H1 H2]. right. split; [done|]. split.
      * destruct H1 as [H1|[H1|(r & (id & ?) & H1)]]; [by left|done|right; exists r; eauto 10].
      * intros r (ids' & id & [= <-] & Hin & Hf). apply not_true_iff_false. intros Hb.
        apply H2. right. exists r. eauto 10.
    + intros [[Hm _]|(_ & H1 & H2)]; [done|]. split.
      * destruct H1 as [H1|(r & (ids' & id & [= <-] & Hin & Hf) & Hb)]; [by left|]. right. right.
        exists r. eauto 10.
      * intros [Hb|(r & (id & Hin & Hf) & Hb)]; [done|]. rewrite (H2 r) in Hb; [done|]. eauto 10.
  - rewrite N.ldiff_0_r, N.lor_0_r, H0. split.
    + intros Hi. right. split; [done|]. split; [by left|]. by intros r (ids & id & ? & _).
    + by intros [[? _]|(_ & [Hi|(r & (ids & id & ? & _) & _)] & _)].
Qed.

(** ** The highest role *)

(** [max_by_key] returns the last of the elements with the greatest key. *)
Definition last_max {A} (key : A → N) (l : list A) (x : A) : Prop :=
  ∃ l1 l2, l = l1 ++ x :: l2 ∧ Forall (λ y, (key y ≤ key x)%N) l1 ∧ Forall (λ y, (key y < key x)%N) l2.

Lemma max_by_key_snoc {A} (key : A → N) l x :
  max_by_key key (l ++ [x]) =
  match max_by_key key l with Some b => if (key b <=? key x)%N then Some x else Some b | None => Some x end.
Proof. unfold max_by_key. by rewrite foldl_app. Qed.

Lemma max_by_key_spec {A} (key : A → N) l :
  match max_by_key key l with Some x => last_max key l x | None => l = [] end.
Proof.
  induction l as [|x l IH] using rev_ind; [done|]. rewrite max_by_key_snoc.
  destruct (max_by_key key l) as [b|].
  - destruct IH as (l1 & l2 & -> & H1 & H2). destruct (key b <=? key x)%N eqn:E.
    + apply N.leb_le in E. exists (l1 ++ b :: l2), []. split_and!; [done| |done].
      apply Forall_app. split; [|constructor; [done|]];
        (eapply list.Forall_impl; [eassumption|]; cbn; intros; lia).
    + apply N.leb_gt in E. exists l1, (l2 ++ [x]). split_and!; [by rewrite <- app_assoc|done|].
      apply Forall_app. split; [done|]. by constructor.
  - subst l. by exists [], [].
Qed.

(** The roles listed for a member, in the policy's order. *)
Definition held_roles (p : ServerPolicy) (member : bytes) : list Role :=
  match assigned p member with
  | Some ids => List.filter (λ r, bool_decide (rl_id r ∈ ids)) (sp_roles p)
  | None => []
  end.

(** The member list groups a member under the role of greatest rank among
    those assigned, the one listed last when ranks are equal; the owner is
    the owner, and a member has no group exactly when no role of the policy
    is assigned. *)
Theorem top_role_name_spec p member :
  match top_role_name p member with
  | Some n => (member = sp_owner_id p ∧ n = lit "Owner") ∨
              (member ≠ sp_owner_id p ∧ ∃ r, last_max rl_rank (held_roles p member) r ∧ n = rl_name r)
  | None => member ≠ sp_owner_id p ∧ held_roles p member = []
  end.
Proof.
  unfold top_role_name, held_roles. case_bool_decide as Ho; [by left|].
  destruct (assigned p member) as [ids|]; cbn; [|done].
  pose proof (max_by_key_spec rl_rank (List.filter (λ r, bool_decide (rl_id r ∈ ids)) (sp_roles p))) as H.
  destruct (max_by_key _ _) as [r|]; cbn; [|done]. right. split; [done|]. by exists r.
Qed.

(** ** Signed policies and invite tokens *)

Section signed.
Context `{CryptoPrims}.

(** What a host signs, every member accepts. A policy signed with the
    server's root key survives the wire unchanged and verifies, provided it
    is within the limits members enforce. *)
Theorem policy_published `{!SignLaws} root owner ver roles asg em st so ni now :
  let p := policy_signed root owner ver roles asg em st so ni now in
  length root = 32 → policy_ok p → fits_u32 (policy_body p) →
  policy_decode (policy_encode p) = Ok p ∧ policy_verify p = Ok tt.
Proof.
  intros p Hr Hok Hf. split; [by apply policy_round|by apply policy_signed_verifies].
Qed.

Lemma with_sig_ok p s : policy_ok p → ok_len 64 s → policy_ok (with_sig s p).
Proof. unfold policy_ok. intros Hp Hs. cbn. tauto. Qed.

(** A policy's signature covers all of it. Two policies with the same
    challenge are the same but for the signature itself: version, owner,
    roles, icons, assignments, every list and nickname; the optional
    sections and the icon flag leave no ambiguity. *)
Theorem policy_signature_binds p q :
  policy_ok p → policy_ok q →
  collision_free [POLICY_SIG_DOMAIN ++ policy_body p; POLICY_SIG_DOMAIN ++ policy_body q] →
  policy_challenge (policy_body p) = policy_challenge (policy_body q) →
  with_sig (sp_sig q) p = q.
Proof.
  intros Hp Hq Hc E. apply Hc in E; [|by left|by right; left]. apply app_inv_head in E.
  assert (Hs : policy_ok (with_sig (sp_sig q) p)) by (apply with_sig_ok; [done|apply Hq]).
  pose proof (policy_body_run _ Hs) as R1. pose proof (policy_body_run _ Hq) as R2.
  change (policy_body (with_sig (sp_sig q) p)) with (policy_body p) in R1.
  change (sp_sig (with_sig (sp_sig q) p)) with (sp_sig q) in R1. rewrite E, R2 in R1. by injection R1.
Qed.

(** Invite links work. A link minted with the server's key, with any
    white space around it and with or without its prefix, is read back as
    the token, whose signature verifies; it expires at its expiry time, that
    millisecond included. *)
Theorem invite_link_accepted `{!SignLaws} root host chan relay exp uses nonce l1 l2 now :
  let t := token_mint root host chan relay exp uses nonce in
  length root = 32 → token_ok t → Forall (.∈ WHITE_SPACE) l1 → Forall (.∈ WHITE_SPACE) l2 →
  from_link (concat l1 ++ to_link t ++ concat l2) = Ok t ∧
  from_link (concat l1 ++ hex_of (token_encode t) ++ concat l2) = Ok t ∧
  token_verify t = Ok tt ∧ (token_is_expired t now = false ↔ (now < exp)%N).
Proof.
  intros t Hr Ht H1 H2. destruct (from_link_padded t l1 l2) as [E1 E2]; [done..|]. split_and!; [done..| |].
  - unfold token_verify, sign_public_from_bytes. change (tk_server_root t) with (prim_vk_of_sk root).
    rewrite vk_of_sk_ok by done. cbn [map_err result_bind]. unfold sign_verify.
    change (tk_sig t) with (prim_sign root (token_challenge (token_body t))). by rewrite sign_verifies.
  - unfold token_is_expired. by rewrite N.leb_gt.
Qed.

(** A link determines its token. Whatever link a client reads gives a
    token within its field sizes, and rendering that token gives a link that
    reads as the same token; two tokens with the same signing challenge
    differ at most in their signature. *)
Theorem invite_token_binds s s' t t' :
  from_link s = Ok t → from_link s' = Ok t' →
  collision_free [INVITE_SIG_DOMAIN ++ token_body t; INVITE_SIG_DOMAIN ++ token_body t'] →
  from_link (to_link t) = Ok t ∧
  (token_challenge (token_body t) = token_challenge (token_body t') → tk_sig t = tk_sig t' → t = t').
Proof.
  intros E E' Hc. apply from_link_ok in E, E'. split.
  - rewrite <- (app_nil_r (to_link t)). by apply (from_link_padded t [] []).
  - intros Ec Es. apply Hc in Ec; [|by left|by right; left]. apply app_inv_head in Ec.
    apply token_body_run in E, E'. rewrite Ec, Es, E' in E. by injection E.
Qed.
End signed.

(** ** Channel messages *)

(** Control messages. Every well-formed message decodes to itself; what
    decodes is well formed, and is either the one encoding of its message or
    a backlog of a host of the first version, whose lines are read with
    sequence number 0, and all of those backlogs are read. *)
Theorem control_codec :
  (∀ c, control_ok c → control_decode (control_encode c) = Ok c) ∧
  (∀ ch l, ok_len 32 ch → ok_list old_backlog_ok l → control_decode (old_history ch l) = Ok (History ch l)) ∧
  (∀ bs c, control_decode bs = Ok c →
     control_ok c ∧ (bs = control_encode c ∨
       ∃ ch l, c = History ch l ∧ ok_list old_backlog_ok l ∧ bs = old_history ch l)).
Proof.
  split_and!; [apply control_round|apply old_history_decode|].
  intros bs c H. apply control_canon in H as [Hok [<-|H]]; auto.
Qed.

(** A welcome as versions without voice channels sent it. *)
Definition old_welcome (i : ChannelInfo) (welcome : bytes) (since_seq : N) (log_key : bytes) : bytes :=
  enc_u8 1 ++ enc_info_old i ++ lenp welcome ++ be 8 since_seq ++ log_key.

(** Old channel descriptions. A stored description without the voice byte
    is read as a text channel, as its comment says; inside a welcome message
    the same description is not: no welcome of the older format is read as
    the welcome it was. *)
Theorem old_info_only_standalone i welcome since_seq log_key :
  info_ok i → ci_voice i = false →
  info_decode (enc_info_old i) = Ok i ∧
  control_decode (old_welcome i welcome since_seq log_key) ≠ Ok (MlsWelcome i welcome since_seq log_key).
Proof.
  intros Hi Hv. split.
  - by apply info_old_round.
  - intros E. apply control_canon in E as [_ [E|(ch & l & E & _)]]; [|done].
    rewrite control_encode_eq in E. cbn [control_tag control_body] in E.
    apply (f_equal length) in E. unfold old_welcome, enc_info in E. rewrite <- !app_assoc, !length_app in E.
    change (length (enc_bool (ci_voice i))) with 1%nat in E. lia.
Qed.

(** ** The local store *)

Section store.
Context `{CryptoPrims}.

(** a store file of any version loads. The file that a client which knew
    the first [n] optional sections wrote for a state loads as the state with
    the later sections empty, messages without an id and channel messages
    without metadata where those sections are missing; with all eighteen it
    loads as exactly the state that was saved. *)
Theorem store_versions_load `{!AeadLaws, !KdfLaws} n s k salt nonce :
  state_ok s → length salt = SALT_LEN → length nonce = STORE_NONCE_LEN →
  ∃ key, derive_key k salt = Some key ∧
    load (Ok (sealed_file key salt nonce (encode_as_of n s))) k = Some (Ok (Some (as_of n s))) ∧
    load (Ok (sealed_file key salt nonce (encode_state s))) k = Some (Ok (Some s)).
Proof.
  intros Hok Hs Hn. destruct (derive_key_some k salt) as [key Hk]. exists key. split; [done|].
  rewrite !(load_sealed k key) by done. rewrite encode_state_eq. unfold decode_state.
  rewrite !run_as_of by done. cbn [map_err result_bind]. by rewrite as_of_all.
Qed.

(** C32: saving is atomic. Wherever a save stops, finished, failed or cut off
    by a crash in the middle of a write, what loads afterwards is what loaded
    before, or the state that was being saved; when it finishes it is the
    latter, and no other file but the temporary one is touched. *)
Theorem save_atomic `{!AeadLaws, !KdfLaws} path k s salt nonce fs :
  state_ok s → length salt = SALT_LEN → length nonce = STORE_NONCE_LEN →
  with_extension path (lit "tmp") ≠ path →
  ∃ ops, save path k s salt nonce = Some ops ∧
    (∀ fs', interrupted ops fs fs' →
       load (fs_read fs' path) k = load (fs_read fs path) k ∨ load (fs_read fs' path) k = Some (Ok (Some s))) ∧
    load (fs_read (foldl (flip fs_apply) fs ops) path) k = Some (Ok (Some s)) ∧
    (∀ fs' p, interrupted ops fs fs' → p ≠ path → p ≠ with_extension path (lit "tmp") → fs' !! p = fs !! p).
Proof.
  intros Hok Hs Hn Ht. destruct (derive_key_some k salt) as [key Hk]. unfold save. rewrite Hk. cbn [mbind option_bind].
  eexists. split; [done|]. fold (sealed_file key salt nonce (encode_state s)).
  set (file := sealed_file key salt nonce (encode_state s)). set (tmp := with_extension path (lit "tmp")) in *.
  assert (Hl : load (Ok file) k = Some (Ok (Some s))).
  { unfold file. rewrite (load_sealed k key) by done. rewrite encode_state_eq. unfold decode_state.
    rewrite run_as_of by done. cbn [map_err result_bind]. by rewrite as_of_all. }
  pose proof (λ fs', save_states fs path tmp file fs' Ht) as Hst. split_and!.
  - intros fs' Hi. destruct (Hst fs' Hi) as [[E _]|[E _]]; unfold fs_read; rewrite E; [by left|by right].
  - unfold fs_read. cbn [foldl flip fs_apply]. rewrite lookup_insert_eq, lookup_insert_eq. exact Hl.
  - intros fs' p Hi Hp1 Hp2. destruct (Hst fs' Hi) as [[_ E]|[_ E]]; by apply E.
Qed.
End store.

(** ** Witnesses *)

Module ClientDemo.
#[local] Existing Instance Toy.prims.
Definition id32 (n : N) : bytes := replicate 32 (n2b n).
(** A moderator role, and one that silences; Bob holds both. *)
Definition mods : Role := mkRole 1 (lit "mods") (N.lor PERM_KICK PERM_SEND) 0 5 (Some (lit "star")).
Definition muted : Role := mkRole 2 (lit "muted") 0 PERM_SEND 5 None.
Definition policy : ServerPolicy :=
  policy_signed (id32 7) (id32 1) 3 [mods; muted] [(id32 2, [1; 2; 9]%N)] [(lit "star", id32 8)] []
    [(lit "horn", id32 9)] [(id32 2, lit "Bob")] 1000.
Definition token : InviteToken :=
  token_mint (id32 7) (id32 1) (id32 2) (lit "relay.example:9944") 1000000 5 (replicate 8 x09).
Definition copied : bytes := concat [[x20]; [xe2; x80; x83]] ++ to_link token ++ concat [[x0a]].

Definition hall : ChannelInfo := mkInfo (id32 7) (lit "the lodge") (id32 2) (lit "general") true (id32 1) false.
Definition snapshot : SessionState := session_export (mkSession (init_bob (id32 3) (id32 4)) (lit "ad")).
Definition line : ChannelHistoryEntry :=
  mkChanHistory (id32 2) (id32 1) false 10 (lit "hello") 4 (Some 2%N) (Some (lit "elsewhere")).
Definition saved : PersistedState :=
  mkPersisted (mkSecrets (id32 5) [id32 6]) [(id32 9, snapshot)]
    [mkStoredChannel hall (lit "mls") [id32 1; id32 2] 4 (Some (id32 8))] []
    [mkHistory (id32 9) true 11 (HkText (lit "hi")) (replicate 16 x07);
     mkHistory (id32 9) false 12 (HkFile (lit "a.txt") 3) (replicate 16 x00)]
    [line] [(replicate 8 x01, 2%N)] [] [(id32 7, 86400000%N)] [(id32 7, id32 1)] [policy_encode policy]
    [(id32 2, 4%N, lit "+1", id32 1)] [] [(id32 9, lit "Bob", 1%N)] [] [] [mkStoredPin (id32 2) 4 (id32 1) 20]
    [replicate 16 x07; replicate 16 x00] [] [id32 11] 1 2 [(id32 7, [id32 12])] [] [].
Definition at_path : bytes * bytes := (lit "/home/ada", lit "state.db").
End ClientDemo.

Section witnesses.
Import Toy ClientDemo.

Lemma demo_policy_ok : policy_ok policy ∧ fits_u32 (policy_body policy).
Proof.
  split; [|vm_compute; reflexivity]. apply (policy_decode_ok (policy_encode policy)). vm_compute. reflexivity.
Qed.

Lemma demo_token_ok : token_ok token.
Proof. apply (token_canon (token_encode token)). vm_compute. reflexivity. Qed.

(** Bob may kick, and may not post although everyone else may. *)
Example demo_perms : effective_perms policy (id32 2) = PERM_KICK ∧ effective_perms policy (id32 3) = PERM_SEND.
Proof. vm_compute. split; reflexivity. Qed.

Lemma policy_published_witness : policy_decode (policy_encode policy) = Ok policy ∧ policy_verify policy = Ok tt.
Proof.
  exact (policy_published (id32 7) (id32 1) 3 [mods; muted] [(id32 2, [1; 2; 9]%N)] [(lit "star", id32 8)] []
    [(lit "horn", id32 9)] [(id32 2, lit "Bob")] 1000 eq_refl (proj1 demo_policy_ok) (proj2 demo_policy_ok)).
Defined.

Lemma policy_signature_binds_witness :
  with_sig (sp_sig policy) (with_sig (replicate 64 x01) policy) = policy.
Proof.
  assert (Ho : ok_len 64 (replicate 64 x01)) by reflexivity.
  refine (policy_signature_binds (with_sig (replicate 64 x01) policy) policy
    (with_sig_ok _ _ (proj1 demo_policy_ok) Ho) (proj1 demo_policy_ok) _ _); [|reflexivity].
  apply collision_free_decide. vm_compute. reflexivity.
Defined.

Lemma invite_link_accepted_witness :
  from_link copied = Ok token ∧ token_verify token = Ok tt ∧ token_is_expired token 1000000 = true.
Proof.
  assert (H1 : Forall (.∈ WHITE_SPACE) [[x20]; [xe2; x80; x83]]).
  { apply list.Forall_forall. intros w Hw. apply (bool_decide_eq_true_1 (w ∈ WHITE_SPACE)).
    apply elem_of_cons in Hw as [->|Hw%list_elem_of_singleton]; [|subst w]; vm_compute; reflexivity. }
  assert (H2 : Forall (.∈ WHITE_SPACE) [[x0a]]).
  { constructor; [|constructor]. apply (bool_decide_eq_true_1 ([x0a] ∈ WHITE_SPACE)). vm_compute. reflexivity. }
  destruct (invite_link_accepted (id32 7) (id32 1) (id32 2) (lit "relay.example:9944") 1000000 5
    (replicate 8 x09) [[x20]; [xe2; x80; x83]] [[x0a]] 1000000 eq_refl demo_token_ok H1 H2) as (E & _ & Ev & _).
  split; [exact E|split; [exact Ev|vm_compute; reflexivity]].
Defined.

Lemma demo_saved_ok : state_ok saved.
Proof.
  assert (Hs : session_ok (id32 9, snapshot)).
  { split; [reflexivity|]. split; [|vm_compute; reflexivity].
    apply (session_state_canon (session_state_encode snapshot)). vm_compute. reflexivity. }
  unfold state_ok, saved. cbn [ps_last_announce_ms ps_last_fetch_since_ms ps_prekeys ps_sessions ps_channels ps_hosted
    ps_history ps_seen_envelopes ps_channel_history ps_invite_uses ps_channel_removed ps_server_autokick
    ps_server_policies ps_server_join_pw ps_channel_reactions ps_verified_peers ps_contacts ps_blocked
    ps_channel_edits ps_channel_pins ps_dm_msg_ids ps_dm_edits ps_server_bans ps_server_register_pow ps_group_calls].
  repeat match goal with
  | |- _ ∧ _ => split
  | |- ok_list _ _ => split; [reflexivity|]
  | |- Forall _ _ => constructor
  | |- session_ok _ => exact Hs
  | |- fits_u32 _ => vm_compute; reflexivity
  | |- secrets_ok _ => split
  | |- _ => first [reflexivity | progress (repeat split) | done]
  end.
Qed.

Lemma old_info_only_standalone_witness :
  info_decode (enc_info_old hall) = Ok hall ∧
  control_decode (old_welcome hall (lit "w") 4 (id32 0)) ≠ Ok (MlsWelcome hall (lit "w") 4 (id32 0)).
Proof.
  assert (Hi : info_ok hall) by (repeat split).
  exact (old_info_only_standalone hall (lit "w") 4 (id32 0) Hi eq_refl).
Defined.

Lemma store_versions_load_witness :
  ∃ key, derive_key (id32 4) (replicate 16 x01) = Some key ∧
    load (Ok (sealed_file key (replicate 16 x01) (replicate 24 x02) (encode_as_of 13 saved))) (id32 4) =
      Some (Ok (Some (as_of 13 saved))) ∧
    load (Ok (sealed_file key (replicate 16 x01) (replicate 24 x02) (encode_state saved))) (id32 4) =
      Some (Ok (Some saved)).
Proof.
  exact (store_versions_load 13 saved (id32 4) (replicate 16 x01) (replicate 24 x02) demo_saved_ok eq_refl eq_refl).
Defined.

Lemma save_atomic_witness :
  ∃ ops, save at_path (id32 4) saved (replicate 16 x01) (replicate 24 x02) = Some ops ∧
    load (fs_read (foldl (flip fs_apply) ∅ ops) at_path) (id32 4) = Some (Ok (Some saved)).
Proof.
  assert (Ht : with_extension at_path (lit "tmp") ≠ at_path) by (vm_compute; discriminate).
  destruct (save_atomic at_path (id32 4) saved (replicate 16 x01) (replicate 24 x02) ∅ demo_saved_ok eq_refl eq_refl Ht)
    as (ops & E & _ & El & _).
  exists ops. split; [exact E|exact El].
Defined.

Lemma invite_token_binds_witness : from_link (to_link token) = Ok token.
Proof.
  assert (E : from_link copied = Ok token) by (vm_compute; reflexivity).
  refine (proj1 (invite_token_binds copied copied token token E E _)).
  apply collision_free_decide. vm_compute. reflexivity.
Defined.
End witnesses.
