(* ===== verification/Mls.v ===== *)
(** * Group membership ([crates/dante-mls/src/lib.rs])

    The crate wraps OpenMLS, which is outside the repository: its calls are
    the fields of the class [Openmls], with the store of a provider (a map
    from keys to values, which the crate itself reads and writes) passed
    along.  What the crate adds is defined here: the credential that binds an
    identity to a leaf's signature key, the checks on every leaf that enters a
    group ([join], [process_from], [key_package_identity]), the roster views,
    and the export format.  The ledger side of those checks, which the engine
    supplies ([crates/dante-core/src/engine.rs]), closes the file. *)

From S2P Require Import Prelude Utf8 Enc Crypto.

Inductive MlsError : Type :=
  | ME_Group (what : string)
  | ME_Codec (what : string)
  | ME_Crypto (what : string)
  | ME_Unexpected (what : string).

#[export] Instance MlsError_eq_dec : EqDecision MlsError.
Proof. solve_decision. Defined.

(** ** The credential *)
Definition CREDENTIAL_BINDING_DOMAIN : bytes := lit "dante/mls/credential-binding/v1".

Record DanteCredential := mkDanteCredential {
  dc_identity : bytes;
  dc_idk_pub : bytes;
  dc_sig : bytes;
}.

Definition dc_encode (c : DanteCredential) : bytes :=
  w_into_vec (w_with_capacity (4 + len (dc_identity c) + 32 + 64)
    |> w_bytes (dc_identity c) |> w_fixed (dc_idk_pub c) |> w_fixed (dc_sig c)).

Definition dc_read : Read DanteCredential :=
  let! identity := r_bytes in
  let! idk_pub := r_fixed 32 in
  let! sig := r_fixed 64 in
  let! _ := r_finish in
  r_ret (mkDanteCredential identity idk_pub sig).

(** [ok()?] at every step: any error is [None]. *)
Definition dc_decode (bs : bytes) : option DanteCredential :=
  match run dc_read bs with Ok c => Some c | Err _ => None end.

Definition credential_identity (serialized_content : bytes) : bytes :=
  match dc_decode serialized_content with Some c => dc_identity c | None => [] end.

Section credential.
Context `{CryptoPrims}.

Definition credential_binding_challenge (identity mls_signature_pub : bytes) : bytes :=
  sha256_parts [CREDENTIAL_BINDING_DOMAIN; identity; mls_signature_pub].

Definition dc_new (identity idk_pub : bytes) (idk_sign : bytes → bytes)
    (mls_signature_pub : bytes) : DanteCredential :=
  mkDanteCredential identity idk_pub
    (idk_sign (credential_binding_challenge identity mls_signature_pub)).

Definition decode_and_verify (bs mls_signature_pub : bytes) : option DanteCredential :=
  match dc_decode bs with
  | None => None
  | Some cred =>
    match sign_public_from_bytes (dc_idk_pub cred) with
    | Err _ => None
    | Ok key =>
      match sign_verify key (credential_binding_challenge (dc_identity cred) mls_signature_pub)
              (dc_sig cred) with
      | Err _ => None
      | Ok _ => Some cred
      end
    end
  end.
End credential.

(** ** OpenMLS *)

(** What the crate reads of a leaf: the serialized content of its credential
    and its signature key. *)
Record LeafNode := mkLeafNode { lf_credential : bytes; lf_signature_key : bytes }.

#[export] Instance LeafNode_eq_dec : EqDecision LeafNode.
Proof. solve_decision. Defined.

(** [provider.storage().values] *)
Notation Store := (gmap bytes bytes).

(** [MlsMessageIn::extract] / [try_into_protocol_message], as far as the crate
    tells the bodies apart. *)
Inductive MessageBody (P W : Type) : Type :=
  | MB_Protocol (m : P)
  | MB_Welcome (w : W)
  | MB_Other.
Arguments MB_Protocol {P W} m.
Arguments MB_Welcome {P W} w.
Arguments MB_Other {P W}.

(** [ProcessedMessageContent] *)
Inductive ProcessedContent (S : Type) : Type :=
  | PC_ApplicationMessage (app : bytes)
  | PC_ProposalMessage
  | PC_ExternalJoinProposalMessage
  | PC_StagedCommitMessage (staged : S)
  | PC_OwnPendingCommit
  | PC_OwnPrivateMessage.
Arguments PC_ApplicationMessage {S} app.
Arguments PC_ProposalMessage {S}.
Arguments PC_ExternalJoinProposalMessage {S}.
Arguments PC_StagedCommitMessage {S} staged.
Arguments PC_OwnPendingCommit {S}.
Arguments PC_OwnPrivateMessage {S}.

(** An error of OpenMLS is kept as its text.  [Result]-returning calls on a
    group also return the group and the store, which they may have changed
    before failing. *)
Class Openmls : Type := {
  om_group : Type;
  om_staged : Type;
  om_protocol : Type;
  om_welcome : Type;
  om_staged_welcome : Type;
  om_key_package : Type;
  om_signer : Type;
  om_message_out : Type;

  om_decode : bytes → result (MessageBody om_protocol om_welcome) string;
  om_to_bytes : om_message_out → result bytes string;

  (** [MlsGroup]: its roster, as [members()] yields it *)
  om_members : om_group → list (N * LeafNode);
  om_group_id : om_group → bytes;
  om_epoch : om_group → N;
  om_own_index : om_group → N;
  om_export_secret : om_group → bytes → nat → result bytes string;
  om_new_group : Store → om_signer → bytes → LeafNode → result om_group string * Store;
  om_load : Store → bytes → result (option om_group) string;
  om_process : om_group → Store → om_protocol →
    result (bytes * ProcessedContent om_staged) string * (om_group * Store);
  om_merge_staged : om_group → Store → om_staged → result unit string * (om_group * Store);
  om_add_members : om_group → Store → om_signer → list om_key_package →
    result (om_message_out * om_message_out) string * (om_group * Store);
  om_remove_members : om_group → Store → om_signer → list N →
    result (om_message_out * option om_message_out) string * (om_group * Store);
  om_merge_pending : om_group → Store → result unit string * (om_group * Store);
  om_create_message : om_group → Store → om_signer → bytes →
    result om_message_out string * (om_group * Store);

  (** [StagedCommit]: the leaves it brings in *)
  om_add_proposals : om_staged → list LeafNode;
  (** The leaf of each Update proposal, and the leaf index of its sender
      where the sender is a member. *)
  om_update_proposals : om_staged → list (LeafNode * option N);
  om_update_path : om_staged → option LeafNode;
  (** The leaf index of the committer; [None] for an external commit, by
      which a non-member adds itself.  The crate does not read it. *)
  om_committer : om_staged → option N;

  (** [StagedWelcome] *)
  om_stage_welcome : Store → om_welcome → result om_staged_welcome string * Store;
  om_staged_members : om_staged_welcome → list (N * LeafNode);
  om_into_group : om_staged_welcome → Store → result om_group string * Store;

  (** [KeyPackage] *)
  om_kp_build : Store → om_signer → LeafNode → result om_key_package string * Store;
  om_kp_bytes : om_key_package → result bytes string;
  om_kp_in : Type;
  om_kp_decode : bytes → result om_kp_in string;
  om_kp_validate : om_kp_in → result om_key_package string;
  om_kp_leaf : om_key_package → LeafNode;

  (** [SignatureKeyPair] *)
  om_signer_public : om_signer → bytes;
  om_signer_store : om_signer → Store → result unit string * Store;
  om_signer_read : Store → bytes → option om_signer;
}.

(** What RFC 9420 and OpenMLS document of those calls, as far as the roster is
    concerned.  Processing a message decrypts and validates it; it does not
    touch the tree (a commit stays staged until it is merged), and it names the
    credential of the sender: the sending leaf's, or for an external commit the
    one of the leaf the joiner brings.  Merging a staged commit changes leaves
    only by the proposals it lists and by its update path, which replaces the
    committer's leaf (an external joiner's is a new one). *)
Class OpenmlsLaws `{Openmls} : Prop := {
  om_process_members g st m r g' st' :
    om_process g st m = (r, (g', st')) → om_members g' = om_members g;
  om_process_sender g st m c s g' st' :
    om_process g st m = (Ok (c, PC_StagedCommitMessage s), (g', st')) →
    match om_committer s with
    | Some i => ∃ l, (i, l) ∈ om_members g ∧ lf_credential l = c
    | None => ∃ l, om_update_path s = Some l ∧ lf_credential l = c
    end;
  om_merge_members g st m c s g' st' st1 g'' st2 j l' :
    om_process g st m = (Ok (c, PC_StagedCommitMessage s), (g', st')) →
    om_merge_staged g' st1 s = (Ok tt, (g'', st2)) →
    (j, l') ∈ om_members g'' →
    (j, l') ∈ om_members g ∨
    l' ∈ om_add_proposals s ∨
    (l', Some j) ∈ om_update_proposals s ∨
    (om_update_path s = Some l' ∧ from_option (eq j) True (om_committer s));
  om_merge_error g st s e g' st' :
    om_merge_staged g st s = (Err e, (g', st')) → om_members g' = om_members g;
  om_members_unique g : NoDup (om_members g).*1;
  om_into_group_members sw st g st' :
    om_into_group sw st = (Ok g, st') → om_members g = om_staged_members sw;
}.

(** ** Members *)
Inductive Processed : Type :=
  | Application (sender plaintext : bytes)
  | EpochChanged
  | Ignored.

#[export] Instance Processed_eq_dec : EqDecision Processed.
Proof. solve_decision. Defined.

Record Handshake := mkHandshake { hs_commit : bytes; hs_welcome : option bytes }.

(** [DANTE_CREDENTIAL_TYPE] travels in the credential's type; every leaf built
    here carries it. *)
Definition DANTE_CREDENTIAL_TYPE : N := 61658.

Definition CALL_KEY_LABEL : bytes := lit "dante/group-call/v1".
Definition CALL_KEY_LEN : nat := 32.

Section member.
Context `{CryptoPrims, Openmls}.

Record Pending := mkPending {
  pd_provider : Store;
  pd_signer : om_signer;
  pd_credential : LeafNode;
  pd_identity : bytes;
}.

Record Member := mkMember {
  mb_provider : Store;
  mb_signer : om_signer;
  mb_credential : LeafNode;
  mb_identity : bytes;
  mb_group : om_group;
}.

Definition with_group (m : Member) (gs : om_group * Store) : Member :=
  mkMember (snd gs) (mb_signer m) (mb_credential m) (mb_identity m) (fst gs).

(** The fresh key pair of [SignatureKeyPair::new] is an argument. *)
Definition new_credential (signer : result om_signer string) (identity idk_pub : bytes)
    (idk_sign : bytes → bytes) (provider : Store) :
    result (om_signer * LeafNode) MlsError * Store :=
  match signer with
  | Err e => (Err (ME_Crypto e), provider)
  | Ok signer =>
    match om_signer_store signer provider with
    | (Err e, provider) => (Err (ME_Group ("storing signer: " ++ e)), provider)
    | (Ok _, provider) =>
      let mls_pub := om_signer_public signer in
      let dante_cred := dc_new identity idk_pub idk_sign mls_pub in
      (Ok (signer, mkLeafNode (dc_encode dante_cred) mls_pub), provider)
    end
  end.

Definition create (fresh : result om_signer string) (identity idk_pub : bytes)
    (idk_sign : bytes → bytes) (group_id : bytes) : result Member MlsError :=
  match new_credential fresh identity idk_pub idk_sign ∅ with
  | (Err e, _) => Err e
  | (Ok (signer, credential), provider) =>
    match om_new_group provider signer group_id credential with
    | (Err e, _) => Err (ME_Group e)
    | (Ok group, provider) => Ok (mkMember provider signer credential identity group)
    end
  end.

Definition publish_key_package (fresh : result om_signer string) (identity idk_pub : bytes)
    (idk_sign : bytes → bytes) : result (Pending * bytes) MlsError :=
  match new_credential fresh identity idk_pub idk_sign ∅ with
  | (Err e, _) => Err e
  | (Ok (signer, credential), provider) =>
    match om_kp_build provider signer credential with
    | (Err e, _) => Err (ME_Group e)
    | (Ok bundle, provider) =>
      let? bs := map_err ME_Codec (om_kp_bytes bundle) in
      Ok (mkPending provider signer credential identity, bs)
    end
  end.

(** *** Joining *)
Definition leaf_verifies (l : LeafNode) : bool :=
  match decode_and_verify (lf_credential l) (lf_signature_key l) with
  | Some _ => true
  | None => false
  end.

(** The error hands the [Pending] back with the store as it is by then. *)
Definition join (self : Pending) (welcome : bytes) : result Member (Pending * MlsError) :=
  let back provider e :=
    Err (mkPending provider (pd_signer self) (pd_credential self) (pd_identity self), e) in
  match om_decode welcome with
  | Err e => back (pd_provider self) (ME_Codec e)
  | Ok (MB_Welcome w) =>
    match om_stage_welcome (pd_provider self) w with
    | (Err e, provider) => back provider (ME_Group e)
    | (Ok staged, provider) =>
      if forallb (leaf_verifies ∘ snd) (om_staged_members staged) then
        match om_into_group staged provider with
        | (Err e, provider) => back provider (ME_Group e)
        | (Ok group, provider) =>
          Ok (mkMember provider (pd_signer self) (pd_credential self) (pd_identity self) group)
        end
      else back provider (ME_Unexpected "a member in this Welcome's ratchet tree has no valid DaNTe credential binding")
    end
  | Ok _ => back (pd_provider self) (ME_Unexpected "expected a Welcome message")
  end.

(** *** Adding and removing *)
Definition parse_key_package (kp : bytes) : result om_key_package MlsError :=
  let? parsed := map_err ME_Codec (om_kp_decode kp) in
  map_err (λ e, ME_Group ("invalid key package: " ++ e)) (om_kp_validate parsed).

Definition key_package_identity (kp : bytes) : result (bytes * bytes) MlsError :=
  let? validated := parse_key_package kp in
  let leaf := om_kp_leaf validated in
  let? cred := ok_or (decode_and_verify (lf_credential leaf) (lf_signature_key leaf))
    (ME_Unexpected "key package credential missing or invalid DaNTe binding") in
  Ok (dc_identity cred, dc_idk_pub cred).

Fixpoint parse_key_packages (kps : list bytes) : result (list om_key_package) MlsError :=
  match kps with
  | [] => Ok []
  | kp :: kps =>
    let? validated := parse_key_package kp in
    let? rest := parse_key_packages kps in
    Ok (validated :: rest)
  end.

Definition add (key_packages : list bytes) (self : Member) : result Handshake MlsError * Member :=
  match parse_key_packages key_packages with
  | Err e => (Err e, self)
  | Ok kps =>
    match om_add_members (mb_group self) (mb_provider self) (mb_signer self) kps with
    | (Err e, gs) => (Err (ME_Group e), with_group self gs)
    | (Ok (commit, welcome), gs) =>
      match om_merge_pending (fst gs) (snd gs) with
      | (Err e, gs) => (Err (ME_Group e), with_group self gs)
      | (Ok _, gs) =>
        (let? commit := map_err ME_Codec (om_to_bytes commit) in
         let? welcome := map_err ME_Codec (om_to_bytes welcome) in
         Ok (mkHandshake commit (Some welcome)), with_group self gs)
      end
    end
  end.

Definition remove (members : list N) (self : Member) : result Handshake MlsError * Member :=
  match om_remove_members (mb_group self) (mb_provider self) (mb_signer self) members with
  | (Err e, gs) => (Err (ME_Group e), with_group self gs)
  | (Ok (commit, welcome), gs) =>
    match om_merge_pending (fst gs) (snd gs) with
    | (Err e, gs) => (Err (ME_Group e), with_group self gs)
    | (Ok _, gs) =>
      (let? commit := map_err ME_Codec (om_to_bytes commit) in
       let? welcome :=
         match welcome with
         | None => Ok None
         | Some w => let? w := map_err ME_Codec (om_to_bytes w) in Ok (Some w)
         end in
       Ok (mkHandshake commit welcome), with_group self gs)
    end
  end.

Definition mls_encrypt (plaintext : bytes) (self : Member) : result bytes MlsError * Member :=
  match om_create_message (mb_group self) (mb_provider self) (mb_signer self) plaintext with
  | (Err e, gs) => (Err (ME_Group e), with_group self gs)
  | (Ok msg, gs) => (map_err ME_Codec (om_to_bytes msg), with_group self gs)
  end.

(** *** Processing

    The three loops of [process_from] over a staged commit, in its order. *)
Fixpoint check_adds (accept_new_member : bytes → bytes → bool) (adds : list LeafNode) :
    result unit MlsError :=
  match adds with
  | [] => Ok tt
  | leaf :: adds =>
    match decode_and_verify (lf_credential leaf) (lf_signature_key leaf) with
    | None => Err (ME_Unexpected "a commit tried to add a member with no valid DaNTe credential binding")
    | Some cred =>
      if accept_new_member (dc_identity cred) (dc_idk_pub cred)
      then check_adds accept_new_member adds
      else Err (ME_Unexpected "a commit tried to add a member this client doesn't accept")
    end
  end.

Definition prior_identity (members : list (N * LeafNode)) (leaf_index : N) : option bytes :=
  (λ m, credential_identity (lf_credential (snd m)))
    <$> List.find (λ m, (fst m =? leaf_index)%N) members.

Fixpoint check_updates (members : list (N * LeafNode)) (updates : list (LeafNode * option N)) :
    result unit MlsError :=
  match updates with
  | [] => Ok tt
  | (leaf, sender) :: updates =>
    match decode_and_verify (lf_credential leaf) (lf_signature_key leaf) with
    | None => Err (ME_Unexpected "a commit tried to update a member to a credential with no valid DaNTe binding")
    | Some cred =>
      match sender with
      | None => Err (ME_Unexpected "a commit's update proposal had an unexpected sender")
      | Some leaf_index =>
        if bool_decide (prior_identity members leaf_index = Some (dc_identity cred))
        then check_updates members updates
        else Err (ME_Unexpected "a commit tried to change a member's identity via an update, not just rotate their key")
      end
    end
  end.

Definition check_path (sender : bytes) (path : option LeafNode) : result unit MlsError :=
  match path with
  | None => Ok tt
  | Some leaf =>
    match decode_and_verify (lf_credential leaf) (lf_signature_key leaf) with
    | None => Err (ME_Unexpected "a commit's own update path has no valid DaNTe credential binding")
    | Some cred =>
      if bool_decide (dc_identity cred = sender) then Ok tt
      else Err (ME_Unexpected "a commit tried to change the committer's own identity via its update path, not just rotate their key")
    end
  end.

Definition check_commit (members : list (N * LeafNode)) (sender : bytes)
    (accept_new_member : bytes → bytes → bool) (staged : om_staged) : result unit MlsError :=
  let? _ := check_adds accept_new_member (om_add_proposals staged) in
  let? _ := check_updates members (om_update_proposals staged) in
  check_path sender (om_update_path staged).

Definition process_from (wire : bytes) (allowed_committer : option bytes)
    (accept_new_member : bytes → bytes → bool) (self : Member) :
    result Processed MlsError * Member :=
  match om_decode wire with
  | Err e => (Err (ME_Codec e), self)
  | Ok (MB_Protocol protocol) =>
    match om_process (mb_group self) (mb_provider self) protocol with
    | (Err e, gs) => (Err (ME_Group e), with_group self gs)
    | (Ok (credential, content), gs) =>
      let self := with_group self gs in
      let sender := credential_identity credential in
      match content with
      | PC_ApplicationMessage app => (Ok (Application sender app), self)
      | PC_StagedCommitMessage staged =>
        if match allowed_committer with
           | Some allowed => negb (bool_decide (sender = allowed))
           | None => false
           end
        then (Ok Ignored, self)
        else
          match check_commit (om_members (mb_group self)) sender accept_new_member staged with
          | Err e => (Err e, self)
          | Ok _ =>
            match om_merge_staged (mb_group self) (mb_provider self) staged with
            | (Err e, gs) => (Err (ME_Group e), with_group self gs)
            | (Ok _, gs) => (Ok EpochChanged, with_group self gs)
            end
          end
      | _ => (Ok Ignored, self)
      end
    end
  | Ok _ => (Err (ME_Unexpected "not an application/handshake message"), self)
  end.

Definition process (wire : bytes) (self : Member) : result Processed MlsError * Member :=
  process_from wire None (λ _ _, true) self.

(** *** Views *)
Definition epoch (self : Member) : N := om_epoch (mb_group self).
Definition own_index (self : Member) : N := om_own_index (mb_group self).
Definition member_indices (self : Member) : list N := (om_members (mb_group self)).*1.
Definition members (self : Member) : list (N * bytes) :=
  (λ m, (fst m, credential_identity (lf_credential (snd m)))) <$> om_members (mb_group self).
Definition member_bindings (self : Member) : list (N * bytes * bytes) :=
  omap (λ m, (λ c, (fst m, dc_identity c, dc_idk_pub c))
               <$> decode_and_verify (lf_credential (snd m)) (lf_signature_key (snd m)))
    (om_members (mb_group self)).
Definition export_key (label : bytes) (n : nat) (self : Member) : result bytes MlsError :=
  map_err ME_Group (om_export_secret (mb_group self) label n).
Definition call_key (self : Member) : result bytes MlsError :=
  export_key CALL_KEY_LABEL CALL_KEY_LEN self.

(** *** Export and import *)
Definition put (field buf : bytes) : bytes := buf ++ be 4 (as_u32 (len field)) ++ field.

Definition get (cur : bytes) : result (bytes * bytes) MlsError :=
  if (length cur <? 4)%nat then Err (ME_Codec "truncated export")
  else
    let n := N.to_nat (of_be (take 4 cur)) in
    let rest := drop 4 cur in
    if (length rest <? n)%nat then Err (ME_Codec "truncated export")
    else Ok (take n rest, drop n rest).

(** [values.iter()] yields the entries of the map in an order of its own:
    [order] is that order. *)
Definition export_store (order : list (bytes * bytes)) : bytes :=
  foldl (λ store kv, put (snd kv) (put (fst kv) store)) (be 4 (as_u32 (len order))) order.

Definition export (order : list (bytes * bytes)) (self : Member) : bytes :=
  put (export_store order)
    (put (om_signer_public (mb_signer self))
      (put (mb_identity self) (put (om_group_id (mb_group self)) []))).

Fixpoint import_entries (count : nat) (sb : bytes) (values : Store) : result Store MlsError :=
  match count with
  | O => Ok values
  | S count =>
    let? ksb := get sb in
    let? vsb := get (snd ksb) in
    import_entries count (snd vsb) (<[fst ksb := fst vsb]> values)
  end.

Definition import_store (sb : bytes) : result Store MlsError :=
  if (length sb <? 4)%nat then Err (ME_Codec "truncated store")
  else import_entries (N.to_nat (of_be (take 4 sb))) (drop 4 sb) ∅.

(** The reloaded [credential] field is a placeholder ([BasicCredential] with
    the bare identity) that nothing reads. *)
Definition import (bs : bytes) : result Member MlsError :=
  let? g := get bs in
  let? i := get (snd g) in
  let? p := get (snd i) in
  let? s := get (snd p) in
  let? provider := import_store (fst s) in
  let? signer := ok_or (om_signer_read provider (fst p)) (ME_Group "no signature key in the store") in
  let? loaded := map_err ME_Group (om_load provider (fst g)) in
  let? group := ok_or loaded (ME_Group "no group in the store") in
  if forallb (λ m, bool_decide (is_Some (dc_decode (lf_credential (snd m))))) (om_members group) then
    Ok (mkMember provider signer (mkLeafNode (fst i) (om_signer_public signer)) (fst i) group)
  else Err (ME_Group "this group was persisted before DaNTe's credential binding existed and can no longer be imported — its leaves don't carry a decodable DanteCredential").
End member.

(** ** The engine's side: what the ledger says of a binding
    ([crates/dante-core/src/engine.rs]) *)
Section ledger_side.
Context `{CryptoPrims, Openmls}.
Context (chain_usable_for_id : bytes → option bool) (identity_id_for_idk : bytes → option bytes).

(** [<[u8; 32]>::try_from(identity)] *)
Definition ledger_accepts_binding (identity idk_pub : bytes) : bool :=
  if (length identity =? 32)%nat then
    match chain_usable_for_id identity with
    | None => true
    | Some false => false
    | Some true => bool_decide (identity_id_for_idk idk_pub = Some identity)
    end
  else false.

Definition bindings_match_ledger (bindings : list (N * bytes * bytes)) (total_members : nat) : bool :=
  (length bindings =? total_members)%nat
  && forallb (λ b, ledger_accepts_binding (snd (fst b)) (snd b)) bindings.

Definition key_package_binds_to (kp peer_id : bytes) : bool :=
  match key_package_identity kp with
  | Err _ => false
  | Ok (identity, idk_pub) =>
    bool_decide (identity = peer_id)
    && bool_decide (chain_usable_for_id peer_id = Some true)
    && bool_decide (identity_id_for_idk idk_pub = Some peer_id)
  end.

(** [Engine::member_bindings_match_ledger] *)
Definition member_bindings_match_ledger (mls : Member) : bool :=
  bindings_match_ledger (member_bindings mls) (length (member_indices mls)).

(** [Engine::try_join_pending]: every pending half is taken off the pool and
    tried in order; the ones that did not give the member are put back. *)
Fixpoint try_join_pending (pending : list Pending) (welcome : bytes) :
    option Member * list Pending :=
  match pending with
  | [] => (None, [])
  | p :: rest =>
    match join p welcome with
    | Ok m =>
      if member_bindings_match_ledger m then (Some m, rest)
      else try_join_pending rest welcome
    | Err (p, _) => let '(j, kept) := try_join_pending rest welcome in (j, p :: kept)
    end
  end.
End ledger_side.

(** ** A small instance

    A group is its roster; what messages mean is a table.  The witnesses of
    the development run on it, and it shows the documented facts can hold.
    Nothing is proved from it. *)
Module ToyMls.
Record TGroup := mkTGroup { tg_id : bytes; tg_leaves : gmap N LeafNode; tg_own : N; tg_epoch : N }.

Record TStaged := mkTStaged {
  ts_committer : option N;
  ts_joiner : N;
  ts_removes : list N;
  ts_adds : list (N * LeafNode);
  ts_updates : list (N * LeafNode);
  ts_path : option LeafNode;
}.

(** Application messages name their sender's leaf; commits and groups to
    load or join are looked up. *)
Record Tables := mkTables {
  tb_commit : bytes → option TStaged;
  tb_group : bytes → option TGroup;
}.

Definition apply_commit (g : TGroup) (s : TStaged) : TGroup :=
  let path := match ts_path s with
              | Some l => {[ default (ts_joiner s) (ts_committer s) := l ]}
              | None => ∅
              end in
  mkTGroup (tg_id g)
    (path ∪ list_to_map (ts_updates s) ∪ list_to_map (ts_adds s)
       ∪ filter (λ jl, jl.1 ∉ ts_removes s) (tg_leaves g))
    (tg_own g) (tg_epoch g + 1).

Definition sender_credential (g : TGroup) (s : TStaged) : option bytes :=
  match ts_committer s with
  | Some i => lf_credential <$> tg_leaves g !! i
  | None => lf_credential <$> ts_path s
  end.

Definition run_process (t : Tables) (g : TGroup) (wire : bytes) :
    result (bytes * ProcessedContent TStaged) string :=
  match tb_commit t wire, wire with
  | Some s, _ =>
    let? c := ok_or (sender_credential g s) "unknown sender" in Ok (c, PC_StagedCommitMessage s)
  | None, x01 :: i :: app =>
    let? l := ok_or (tg_leaves g !! b2n i) "unknown sender" in
    Ok (lf_credential l, PC_ApplicationMessage app)
  | None, _ => Err "undecryptable"
  end.

Definition add_leaves (g : TGroup) (kps : list LeafNode) : TGroup :=
  mkTGroup (tg_id g)
    (list_to_map (imap (λ k l, (N.of_nat (size (tg_leaves g) + k), l)) kps) ∪ tg_leaves g)
    (tg_own g) (tg_epoch g + 1).

Definition remove_leaves (g : TGroup) (ixs : list N) : TGroup :=
  mkTGroup (tg_id g) (filter (λ jl, jl.1 ∉ ixs) (tg_leaves g)) (tg_own g) (tg_epoch g + 1).

Definition package_of (bs : bytes) : result LeafNode string :=
  match get bs with
  | Ok (cred, key) => Ok (mkLeafNode cred key)
  | Err _ => Err "bad package"
  end.

Definition openmls (t : Tables) : Openmls := {|
  om_group := TGroup;
  om_staged := TStaged;
  om_protocol := bytes;
  om_welcome := bytes;
  om_staged_welcome := TGroup;
  om_key_package := LeafNode;
  om_signer := bytes;
  om_message_out := bytes;
  om_decode := λ w, match w with [] => Err "empty" | x00 :: w => Ok (MB_Welcome w) | _ => Ok (MB_Protocol w) end;
  om_to_bytes := Ok;
  om_members := λ g, map_to_list (tg_leaves g);
  om_group_id := tg_id;
  om_epoch := tg_epoch;
  om_own_index := tg_own;
  om_export_secret := λ g label n, Ok (replicate n (n2b (tg_epoch g)));
  om_new_group := λ st _ gid l, (Ok (mkTGroup gid {[ 0%N := l ]} 0 0), st);
  om_load := λ st gid, Ok (tb_group t gid);
  om_process := λ g st w, (run_process t g w, (g, st));
  om_merge_staged := λ g st s, (Ok tt, (apply_commit g s, st));
  om_add_members := λ g st _ kps, (Ok ([x02], [x00]), (add_leaves g kps, st));
  om_remove_members := λ g st _ ixs, (Ok ([x03], None), (remove_leaves g ixs, st));
  om_merge_pending := λ g st, (Ok tt, (g, st));
  om_create_message := λ g st _ pt, (Ok (x01 :: n2b (tg_own g) :: pt), (g, st));
  om_add_proposals := λ s, (ts_adds s).*2;
  om_update_proposals := λ s, (λ jl, (jl.2, Some jl.1)) <$> ts_updates s;
  om_update_path := ts_path;
  om_committer := ts_committer;
  om_stage_welcome := λ st w, (ok_or (tb_group t w) "no such group", st);
  om_staged_members := λ g, map_to_list (tg_leaves g);
  om_into_group := λ g st, (Ok g, st);
  om_kp_build := λ st _ l, (Ok l, st);
  om_kp_bytes := λ l, Ok (put (lf_credential l) [] ++ lf_signature_key l);
  om_kp_in := LeafNode;
  om_kp_decode := package_of;
  om_kp_validate := Ok;
  om_kp_leaf := id;
  om_signer_public := id;
  om_signer_store := λ s st, (Ok tt, <[s := s]> st);
  om_signer_read := λ st k, st !! k;
|}.

Lemma openmls_laws t : @OpenmlsLaws (openmls t).
Proof.
  constructor; cbn [om_process om_members om_merge_staged om_into_group om_staged_members
    om_committer om_update_path om_add_proposals om_update_proposals openmls].
  - by intros g st m r g' st' [= _ <- _].
  - intros g st m c s g' st' [= Hr _ _]. unfold run_process in Hr.
    destruct (tb_commit t m) as [s'|].
    2: { unfold result_bind, ok_or in Hr. by repeat case_match; simplify_eq. }
    destruct (sender_credential g s') as [c'|] eqn:Es; simpl in Hr; [|done].
    injection Hr as -> ->. unfold sender_credential in Es. destruct (ts_committer s) as [i|].
    + apply fmap_Some in Es as (l & Hl & ->). exists l. by rewrite elem_of_map_to_list.
    + apply fmap_Some in Es as (l & Hl & ->). by exists l.
  - intros g st m c s g' st' st1 g'' st2 j l' [= _ <- _] [= <- _] Hin.
    apply elem_of_map_to_list in Hin. simpl in Hin.
    apply lookup_union_Some_raw in Hin as [Hin|[_ Hin]].
    2: { left. apply elem_of_map_to_list. by apply map_lookup_filter_Some in Hin as [? _]. }
    apply lookup_union_Some_raw in Hin as [Hin|[_ Hin]].
    2: { right; left. apply elem_of_list_to_map_2 in Hin. apply list_elem_of_fmap. by exists (j, l'). }
    apply lookup_union_Some_raw in Hin as [Hin|[_ Hin]].
    + do 3 right. destruct (ts_path s) as [l|]; [|done].
      apply lookup_singleton_Some in Hin as [<- <-]. by destruct (ts_committer s).
    + do 2 right. left. apply elem_of_list_to_map_2 in Hin. apply list_elem_of_fmap. by exists (j, l').
  - done.
  - intros g. apply NoDup_fst_map_to_list.
  - by intros sw st g st' [= <- _].
Qed.
End ToyMls.
