(* ===== verification/MlsTheorems.v ===== *)
(** * What holds of group membership

    The roster of a group under the commits a client accepts, a joined group
    against the ledger, and the export format.  The lemmas on the checks come
    first; the witnesses run on a small instance of OpenMLS. *)

From S2P Require Import Prelude Utf8 Enc Crypto ProtoRecord IdentityRecords Ledger LedgerTheorems Mls.

(** Ada hosts a group; her commit [[x05]] adds Bob, the joiner of the external
    commit [[x06]] calls itself Ada. *)
Module MlsDemo.
Import LedgerDemo.
#[local] Existing Instance Toy.prims.
#[local] Existing Instance Toy.laws.

Definition leaf (identity : bytes) (n : N) (leaf_key : bytes) : LeafNode :=
  mkLeafNode (dc_encode (dc_new identity (key n) (prim_sign (sk n)) leaf_key)) leaf_key.
Definition ada : bytes := sha256 (key 1).
Definition bob : bytes := sha256 (key 7).
Definition group : ToyMls.TGroup :=
  ToyMls.mkTGroup (lit "hall") {[ 0%N := leaf ada 1 (sk 11) ]} 0 4.
Definition adds_bob : ToyMls.TStaged :=
  ToyMls.mkTStaged (Some 0%N) 9 [] [(1%N, leaf bob 7 (sk 12))] [] (Some (leaf ada 1 (sk 13))).
Definition intrudes : ToyMls.TStaged :=
  ToyMls.mkTStaged None 9 [] [] [] (Some (leaf ada 8 (sk 14))).
Definition tables : ToyMls.Tables :=
  ToyMls.mkTables
    (λ w, if bool_decide (w = [x05]) then Some adds_bob
          else if bool_decide (w = [x06]) then Some intrudes else None)
    (λ _, Some group).

#[export] Instance mls : Openmls := ToyMls.openmls tables.
#[export] Instance mls_laws : OpenmlsLaws := ToyMls.openmls_laws tables.

Definition member : Member :=
  mkMember {[ sk 11 := sk 11; lit "g" := lit "v" ]} (sk 11) (leaf ada 1 (sk 11)) ada group.
Definition pending : Pending := mkPending ∅ (sk 12) (leaf bob 7 (sk 12)) bob.
End MlsDemo.

Section checks.
Context `{CryptoPrims, Openmls}.

Lemma leaf_verifies_spec l :
  leaf_verifies l = true ↔
  ∃ cred, decode_and_verify (lf_credential l) (lf_signature_key l) = Some cred.
Proof.
  unfold leaf_verifies. destruct (decode_and_verify _ _) as [c|]; split; eauto; [done|].
  by intros [? [=]].
Qed.

(** A verified credential is what its bytes decode to, under a signature of
    the key it names over the identity and the leaf's key. *)
Lemma decode_and_verify_spec bs key cred :
  decode_and_verify bs key = Some cred ↔
  dc_decode bs = Some cred ∧ prim_vk_ok (dc_idk_pub cred) = true ∧
  prim_verify_strict (dc_idk_pub cred)
    (credential_binding_challenge (dc_identity cred) key) (dc_sig cred) = true.
Proof.
  unfold decode_and_verify, sign_public_from_bytes, sign_verify.
  destruct (dc_decode bs) as [c|]; [|by split; [|intros [[=] _]]].
  destruct (prim_vk_ok (dc_idk_pub c)) eqn:E1; [destruct (prim_verify_strict _ _ _) eqn:E2|].
  - split; [by intros [= <-]|by intros [[= <-] _]].
  - split; [done|]. intros [[= <-] [_ E]]. congruence.
  - split; [done|]. intros [[= <-] [E _]]. congruence.
Qed.

Lemma verified_identity bs key cred :
  decode_and_verify bs key = Some cred → credential_identity bs = dc_identity cred.
Proof. intros [E _]%decode_and_verify_spec. unfold credential_identity. by rewrite E. Qed.

Lemma check_adds_spec accept adds :
  check_adds accept adds = Ok tt ↔
  Forall (λ l, ∃ cred, decode_and_verify (lf_credential l) (lf_signature_key l) = Some cred ∧
                 accept (dc_identity cred) (dc_idk_pub cred) = true) adds.
Proof.
  induction adds as [|l adds IH]; simpl; [by split|]. rewrite list.Forall_cons, <- IH.
  destruct (decode_and_verify _ _) as [c|]; [destruct (accept _ _) eqn:E|].
  - split; [eauto|by intros [_ ?]].
  - split; [done|]. intros [(c' & [= <-] & E') _]. congruence.
  - split; [done|]. by intros [(c' & [=] & _) _].
Qed.

Lemma prior_identity_in ms i x :
  prior_identity ms i = Some x →
  ∃ l, (i, l) ∈ ms ∧ credential_identity (lf_credential l) = x.
Proof.
  unfold prior_identity. destruct (List.find _ _) as [[j l]|] eqn:E; [|done].
  intros [= <-]. apply List.find_some in E as [Hin Hj]. simpl in Hj.
  apply N.eqb_eq in Hj as ->. exists l. by rewrite list_elem_of_In.
Qed.

Lemma check_updates_spec ms us :
  check_updates ms us = Ok tt →
  Forall (λ u, ∃ cred i l, decode_and_verify (lf_credential u.1) (lf_signature_key u.1) = Some cred ∧
                 u.2 = Some i ∧ (i, l) ∈ ms ∧
                 credential_identity (lf_credential l) = dc_identity cred) us.
Proof.
  induction us as [|[leaf [i|]] us IH]; simpl; intros Hc; [done| |by case_match].
  destruct (decode_and_verify _ _) as [c|] eqn:E; [|done].
  destruct (bool_decide _) eqn:Eb; [|done]. apply bool_decide_eq_true in Eb.
  constructor; [|by apply IH]. apply prior_identity_in in Eb as (l & Hin & Hid). eauto 10.
Qed.

Lemma check_path_spec sender path :
  check_path sender path = Ok tt →
  ∀ l, path = Some l → ∃ cred, decode_and_verify (lf_credential l) (lf_signature_key l) = Some cred ∧
    dc_identity cred = sender.
Proof.
  destruct path as [l'|]; [|done]. simpl. intros Hc l [= ->].
  destruct (decode_and_verify _ _) as [c|]; [|done]. case_bool_decide; [eauto|done].
Qed.

Lemma check_commit_ok ms sender accept staged :
  check_commit ms sender accept staged = Ok tt →
  check_adds accept (om_add_proposals staged) = Ok tt ∧
  check_updates ms (om_update_proposals staged) = Ok tt ∧
  check_path sender (om_update_path staged) = Ok tt.
Proof.
  unfold check_commit. destruct (check_adds _ _) as [[]|]; [|done]. simpl.
  destruct (check_updates _ _) as [[]|]; [|done]. simpl. done.
Qed.

(** What a merged commit may have done to the roster. *)
Lemma process_from_cases wire allowed accept m r m' :
  process_from wire allowed accept m = (r, m') →
  (r ≠ Ok EpochChanged ∧
   (m' = m ∨ ∃ p r1 gs, om_process (mb_group m) (mb_provider m) p = (r1, gs) ∧
      (m' = with_group m gs ∨ ∃ s e gs', om_merge_staged gs.1 gs.2 s = (Err e, gs') ∧
         m' = with_group (with_group m gs) gs'))) ∨
  (r = Ok EpochChanged ∧ ∃ p c staged gs gs',
    om_decode wire = Ok (MB_Protocol p) ∧
    om_process (mb_group m) (mb_provider m) p = (Ok (c, PC_StagedCommitMessage staged), gs) ∧
    (∀ a, allowed = Some a → credential_identity c = a) ∧
    check_commit (om_members gs.1) (credential_identity c) accept staged = Ok tt ∧
    om_merge_staged gs.1 gs.2 staged = (Ok tt, gs') ∧
    m' = with_group (with_group m gs) gs').
Proof.
  unfold process_from. destruct (om_decode wire) as [[p|w|]|e] eqn:Ed;
    [|by intros [= <- <-]; eauto..].
  destruct (om_process _ _ p) as [[[c ct]|e] gs] eqn:Ep; [|intros [= <- <-]; left; split; [done|]; right; eauto 10].
  destruct ct; try (intros [= <- <-]; left; split; [done|]; right; by eauto 10).
  case_match eqn:Ea; [intros [= <- <-]; left; split; [done|]; right; by eauto 10|].
  simpl. destruct (check_commit _ _ _ _) as [[]|e] eqn:Ec;
    [|intros [= <- <-]; left; split; [done|]; right; by eauto 10].
  destruct (om_merge_staged _ _ _) as [[[]|e] gs'] eqn:Em; intros [= <- <-].
  - right. split; [done|]. exists p, c, staged, gs, gs'. split_and!; try done.
    intros a ->. apply negb_false_iff, bool_decide_eq_true in Ea. done.
  - left. split; [done|]. right. eauto 15.
Qed.
End checks.

Section laws.
Context `{CryptoPrims, OpenmlsLaws}.

(** A leaf's identity and its binding key, once verified. *)
Definition vouches (l : LeafNode) (identity idk_pub : bytes) : Prop :=
  ∃ cred, decode_and_verify (lf_credential l) (lf_signature_key l) = Some cred ∧
    dc_identity cred = identity ∧ dc_idk_pub cred = idk_pub.

Definition roster (m : Member) : list (N * LeafNode) := om_members (mb_group m).

Lemma roster_kept wire allowed accept m r m' :
  process_from wire allowed accept m = (r, m') → r ≠ Ok EpochChanged → roster m' = roster m.
Proof.
  intros Hp Hr. apply process_from_cases in Hp as [[_ Hc]|[? _]]; [|done].
  destruct Hc as [->|(p & r1 & [g st] & Ep & Hm)]; [done|].
  unfold roster. apply om_process_members in Ep.
  destruct Hm as [->|(s & e & [g' st'] & Em & ->)]; simpl in *; [done|].
  apply om_merge_error in Em. congruence.
Qed.

(** The leaves of the merged group: kept, added, updated, or the committer's. *)
Lemma merged_roster m p c staged gs gs' accept j l' :
  om_process (mb_group m) (mb_provider m) p = (Ok (c, PC_StagedCommitMessage staged), gs) →
  check_commit (om_members gs.1) (credential_identity c) accept staged = Ok tt →
  om_merge_staged gs.1 gs.2 staged = (Ok tt, gs') →
  (j, l') ∈ om_members gs'.1 →
  (j, l') ∈ roster m ∨
  ∃ cred, decode_and_verify (lf_credential l') (lf_signature_key l') = Some cred ∧
    (accept (dc_identity cred) (dc_idk_pub cred) = true ∨
     (∃ l, (j, l) ∈ roster m ∧ credential_identity (lf_credential l) = dc_identity cred) ∨
     (om_committer staged = None ∧ om_update_path staged = Some l' ∧
      dc_identity cred = credential_identity c)).
Proof.
  intros Ep Hc Em Hin. destruct gs as [g st], gs' as [g' st']; simpl in *.
  apply check_commit_ok in Hc as (Ha & Hu & Hp).
  pose proof (om_process_members _ _ _ _ _ _ Ep) as Hms. rewrite Hms in Hu.
  pose proof (om_process_sender _ _ _ _ _ _ _ Ep) as Hs.
  destruct (om_merge_members _ _ _ _ _ _ _ _ _ _ _ _ Ep Em Hin) as [Hold|[Hadd|[Hupd|[Hpath Hj]]]].
  - by left.
  - right. apply check_adds_spec in Ha. rewrite list.Forall_forall in Ha.
    destruct (Ha _ Hadd) as (cred & E & Hacc). eauto.
  - right. apply check_updates_spec in Hu. rewrite list.Forall_forall in Hu.
    destruct (Hu _ Hupd) as (cred & i & l & E & [= <-] & Hl & Hid). eauto 10.
  - right. destruct (check_path_spec _ _ Hp _ Hpath) as (cred & E & Hid). exists cred. split; [done|].
    right. destruct (om_committer staged) as [i|] eqn:Ei; simpl in Hj; [subst j; left|right; done].
    destruct Hs as (l & Hl & <-). eauto.
Qed.
End laws.

Section safety.
Context `{CryptoPrims, OpenmlsLaws}.

(** Whose name a merged commit bears. *)
Lemma committer_vouches m p c staged gs accept :
  Forall (λ jl, leaf_verifies jl.2 = true) (roster m) →
  om_process (mb_group m) (mb_provider m) p = (Ok (c, PC_StagedCommitMessage staged), gs) →
  check_commit (om_members gs.1) (credential_identity c) accept staged = Ok tt →
  match om_committer staged with
  | Some i => ∃ l idk, (i, l) ∈ roster m ∧ vouches l (credential_identity c) idk
  | None => ∃ l idk, om_update_path staged = Some l ∧ vouches l (credential_identity c) idk
  end.
Proof.
  intros Hall Ep Hc. destruct gs as [g st]. pose proof (om_process_sender _ _ _ _ _ _ _ Ep) as Hs.
  apply check_commit_ok in Hc as (_ & _ & Hp). destruct (om_committer staged) as [i|]; destruct Hs as (l & Hl & Hcr).
  - rewrite list.Forall_forall in Hall. apply Hall in Hl as Hv. apply leaf_verifies_spec in Hv as [cred E].
    exists l, (dc_idk_pub cred). split; [done|]. exists cred. split_and!; [done| |done].
    rewrite <- Hcr. symmetry. by eapply verified_identity.
  - destruct (check_path_spec _ _ Hp _ Hl) as (cred & E & Hid). exists l, (dc_idk_pub cred). split; [done|].
    by exists cred.
Qed.

(** C11: The roster of a group is guarded.  Handing a message to [process_from]
    with the host as the only allowed committer changes the roster only where
    it returns [EpochChanged].  Then every leaf carries a verified binding if
    it did before, the committer is a member whose verified leaf bears the
    host's identity, and each (index, identity) of the new roster was there
    before or is a member whose binding the callback accepted.  The one
    exception is an external commit: its joiner verifies as someone who calls
    itself the host, which is not put to the callback, so that under the
    host's name it may be anybody (see [external_commit_unvetted]). *)
Theorem commit_roster_safe wire host accept m r m' :
  Forall (λ jl, leaf_verifies jl.2 = true) (roster m) →
  process_from wire (Some host) accept m = (r, m') →
  match r with
  | Ok EpochChanged =>
    ∃ p c staged gs,
      om_decode wire = Ok (MB_Protocol p) ∧
      om_process (mb_group m) (mb_provider m) p = (Ok (c, PC_StagedCommitMessage staged), gs) ∧
      credential_identity c = host ∧
      Forall (λ jl, leaf_verifies jl.2 = true) (roster m') ∧
      match om_committer staged with
      | Some i => ∃ l idk, (i, l) ∈ roster m ∧ vouches l host idk
      | None => ∃ l idk, om_update_path staged = Some l ∧ vouches l host idk
      end ∧
      ∀ j identity, (j, identity) ∈ members m' →
        (j, identity) ∈ members m ∨
        (∃ l idk, (j, l) ∈ roster m' ∧ vouches l identity idk ∧ accept identity idk = true) ∨
        (om_committer staged = None ∧ identity = host)
  | _ => roster m' = roster m
  end.
Proof.
  intros Hall Hp. destruct (decide (r = Ok EpochChanged)) as [->|Hr].
  2: { pose proof (roster_kept _ _ _ _ _ _ Hp Hr). by repeat case_match. }
  apply process_from_cases in Hp as [[? _]|(_ & p & c & staged & gs & gs' & Ed & Ep & Ha & Hc & Em & ->)]; [done|].
  exists p, c, staged, gs. specialize (Ha _ eq_refl). split_and!; try done.
  - apply list.Forall_forall. intros [j l] Hin.
    destruct (merged_roster _ _ _ _ _ _ _ _ _ Ep Hc Em Hin) as [Hold|(cred & E & _)].
    + rewrite list.Forall_forall in Hall. by apply (Hall _ Hold).
    + apply leaf_verifies_spec. eauto.
  - rewrite <- Ha. by eapply committer_vouches.
  - intros j identity Hin. unfold members in Hin |- *.
    apply list_elem_of_fmap in Hin as ([j' l] & [= -> ->] & Hin).
    destruct (merged_roster _ _ _ _ _ _ _ _ _ Ep Hc Em Hin) as [Hold|(cred & E & Hcase)].
    + left. apply list_elem_of_fmap. by exists (j', l).
    + rewrite (verified_identity _ _ _ E).
      destruct Hcase as [Hacc|[(l0 & Hl0 & Hid)|(Hx & _ & Hid)]].
      * right; left. exists l, (dc_idk_pub cred). split_and!; [done| |done]. by exists cred.
      * left. apply list_elem_of_fmap. exists (j', l0). simpl. by rewrite Hid.
      * right; right. split; [done|]. congruence.
Qed.

(** An external commit is not put to the callback: its joiner needs only a
    binding of the host's identity to a key of its own. *)
Theorem external_commit_unvetted wire p c staged gs gs' host m l :
  om_decode wire = Ok (MB_Protocol p) →
  om_process (mb_group m) (mb_provider m) p = (Ok (c, PC_StagedCommitMessage staged), gs) →
  om_committer staged = None →
  om_update_path staged = Some l → (∃ idk, vouches l host idk) →
  om_add_proposals staged = [] → om_update_proposals staged = [] →
  om_merge_staged gs.1 gs.2 staged = (Ok tt, gs') →
  process_from wire (Some host) (λ _ _, false) m = (Ok EpochChanged, with_group (with_group m gs) gs').
Proof.
  intros Ed Ep Hc Hpath (idk & cred & E & Hid & _) Hadd Hupd Em.
  destruct gs as [g st]. pose proof (om_process_sender _ _ _ _ _ _ _ Ep) as Hs.
  rewrite Hc in Hs. destruct Hs as (l' & E' & Hl'). assert (l' = l) as -> by congruence.
  unfold process_from. rewrite Ed, Ep. rewrite <- Hl', (verified_identity _ _ _ E), Hid.
  rewrite bool_decide_eq_true_2 by done. simpl.
  unfold check_commit. rewrite Hadd, Hupd, Hpath. simpl. rewrite E.
  rewrite bool_decide_eq_true_2 by done. simpl in *. by rewrite Em.
Qed.
End safety.

Section join.
Context `{CryptoPrims, Openmls}.

Lemma length_omap_le {A B} (f : A → option B) (l : list A) : (length (omap f l) ≤ length l)%nat.
Proof. induction l as [|a l IH]; csimpl; [done|]. destruct (f a); simpl; lia. Qed.

Lemma member_bindings_length (m : Member) :
  length (member_bindings m) = length (member_indices m) →
  ∀ j l, (j, l) ∈ om_members (mb_group m) → ∃ identity idk,
    vouches l identity idk ∧ (j, identity, idk) ∈ member_bindings m.
Proof.
  unfold member_bindings, member_indices. rewrite length_fmap.
  set (view := λ m : N * LeafNode, (λ c, (m.1, dc_identity c, dc_idk_pub c))
        <$> decode_and_verify (lf_credential m.2) (lf_signature_key m.2)).
  induction (om_members _) as [|[i l'] ms IH]; [set_solver|].
  pose proof (length_omap_le view ms) as Hle.
  csimpl. destruct (view (i, l')) as [b|] eqn:E; simpl; [|intros; lia].
  unfold view in E. simpl in E. destruct (decode_and_verify _ _) as [c|] eqn:Ed; [|done].
  injection E as <-. intros Hlen j l [[= -> ->]|Hin]%elem_of_cons.
  - exists (dc_identity c), (dc_idk_pub c). split; [by exists c|by left].
  - destruct (IH ltac:(lia) _ _ Hin) as (? & ? & ? & ?). eauto using list_elem_of_further.
Qed.

Lemma try_join_cases usable id_of pending welcome j kept :
  try_join_pending usable id_of pending welcome = (j, kept) →
  (length kept ≤ length pending)%nat ∧
  ∀ m, j = Some m → ∃ p, p ∈ pending ∧ join p welcome = Ok m ∧
    member_bindings_match_ledger usable id_of m = true.
Proof.
  revert j kept. induction pending as [|p rest IH]; intros j kept; simpl; [by intros [= <- <-]|].
  destruct (join p welcome) as [m|[p' e]] eqn:Ej.
  - case_match eqn:Em.
    + intros [= <- <-]. split; [lia|]. intros m' [= <-]. exists p. split_and!; [by left|done..].
    + intros Ht. apply IH in Ht as [Hl Hm]. split; [lia|]. intros m' Hj.
      destruct (Hm m' Hj) as (q & Hq & ?). exists q. split; [by right|done].
  - destruct (try_join_pending usable id_of rest welcome) as [j' kept'] eqn:Et. intros [= <- <-].
    destruct (IH _ _ eq_refl) as [Hl Hm]; simpl. split; [lia|]. intros m' Hj.
    destruct (Hm m' Hj) as (q & Hq & ?). exists q. split; [by right|done].
Qed.

(** What the ledger does not object to in a member: if it has a chain for the
    identity, that is usable and the binding key is one of its keys.  If it
    has none, any key will do. *)
Definition ledger_permits {S} `{RecordStore S} (lg : Ledger S) (identity idk_pub : bytes) : Prop :=
  length identity = 32%nat ∧
  ∀ c, chain_by_id lg identity = Some c →
    chain_usable c = true ∧ ∃ own, chain_of lg idk_pub = Some own ∧ sha256 (ch_root_idk own) = identity.

Lemma ledger_accepts_permits {S} `{RecordStore S} (lg : Ledger S) identity idk_pub :
  ledger_accepts_binding (chain_usable_for_id lg) (identity_id lg) identity idk_pub = true →
  ledger_permits lg identity idk_pub.
Proof.
  unfold ledger_accepts_binding, ledger_permits, chain_usable_for_id, identity_id.
  destruct (_ =? _)%nat eqn:El; [|done]. apply Nat.eqb_eq in El.
  destruct (chain_by_id lg identity) as [c|]; simpl; [|by intros _; split].
  destruct (chain_usable c) eqn:Eu; [|done]. rewrite bool_decide_eq_true. intros E.
  split; [done|]. intros c' [= <-]. split; [done|].
  destruct (chain_of lg idk_pub) as [own|]; simpl in E; [|done].
  unfold sign_public_from_bytes in E. destruct (prim_vk_ok _); [|done]. naive_solver.
Qed.

(** C19: A group joined from a Welcome has no member the ledger objects to.  The
    member [try_join_pending] returns came from one of the pending packages,
    and each leaf of its roster carries a signature of the named key over the
    identity and that leaf's own key.  Where the ledger has a chain for the
    identity, the chain is usable and the named key belongs to it, so that
    nobody poses as an identity the ledger knows and nobody revoked or
    evaporated is in the group; of an identity the ledger does not know
    nothing is asked but the signature.  The pool never grows. *)
Theorem joined_roster_permitted {S} `{RecordStore S} (lg : Ledger S) pending welcome j kept :
  try_join_pending (chain_usable_for_id lg) (identity_id lg) pending welcome = (j, kept) →
  (length kept ≤ length pending)%nat ∧
  ∀ m, j = Some m →
    (∃ p, p ∈ pending ∧ join p welcome = Ok m) ∧
    ∀ i l, (i, l) ∈ roster m → ∃ identity idk, vouches l identity idk ∧ ledger_permits lg identity idk.
Proof.
  intros [Hl Hm]%try_join_cases. split; [done|]. intros m Hj.
  destruct (Hm m Hj) as (p & Hp & Hjoin & Hb). split; [by exists p|]. intros i l Hin.
  apply andb_true_iff in Hb as [Hlen Hall]. apply Nat.eqb_eq in Hlen.
  destruct (member_bindings_length m Hlen i l Hin) as (identity & idk & Hv & Hbs).
  exists identity, idk. split; [done|]. rewrite List.forallb_forall in Hall.
  apply list_elem_of_In, Hall in Hbs. by apply ledger_accepts_permits.
Qed.

(** The package a host adds a member with: the binding it carries is for
    that member, under a key of the member's usable chain. *)
Lemma key_package_binds_to_spec usable id_of kp peer_id :
  key_package_binds_to usable id_of kp peer_id = true ↔
  ∃ package idk, parse_key_package kp = Ok package ∧
    vouches (om_kp_leaf package) peer_id idk ∧
    usable peer_id = Some true ∧ id_of idk = Some peer_id.
Proof.
  unfold key_package_binds_to, key_package_identity.
  destruct (parse_key_package kp) as [package|e]; simpl; [|by split; [|intros (? & ? & [=] & _)]].
  destruct (decode_and_verify _ _) as [cred|] eqn:E; simpl.
  - rewrite !andb_true_iff, !bool_decide_eq_true. split.
    + intros [[<- Hu] Hid]. exists package, (dc_idk_pub cred). split_and!; try done. by exists cred.
    + intros (p & idk & [= <-] & (cred' & E' & Hid & Hk) & Hu & Hi).
      assert (cred' = cred) as -> by congruence. by subst.
  - split; [done|]. intros (p & idk & [= <-] & (cred' & E' & _) & _). congruence.
Qed.
End join.

(** ** Export and import *)
Section export.
Context `{CryptoPrims, Openmls}.

Lemma put_lenp field buf : put field buf = buf ++ lenp field.
Proof. with_strategy transparent [lenp] done. Qed.

Lemma get_lenp field rest : fits_u32 field → get (lenp field ++ rest) = Ok (field, rest).
Proof.
  intros Hf. unfold get. with_strategy transparent [lenp] unfold lenp. rewrite <- app_assoc.
  destruct (_ <? 4)%nat eqn:E; [apply Nat.ltb_lt in E; rewrite length_app, length_be in E; lia|].
  rewrite take_app_length', drop_app_length' by by rewrite length_be.
  rewrite of_be_be, (as_u32_fits _ Hf), N.mod_small by exact Hf.
  unfold len. rewrite Nat2N.id. clear E. destruct (_ <? _)%nat eqn:E.
  { apply Nat.ltb_lt in E. rewrite length_app in E. lia. }
  by rewrite take_app_length, drop_app_length.
Qed.

Definition entry_bytes (kv : bytes * bytes) : bytes := lenp kv.1 ++ lenp kv.2.

Lemma export_store_buf order :
  export_store order = be 4 (as_u32 (len order)) ++ mjoin (entry_bytes <$> order).
Proof.
  unfold export_store. generalize (be 4 (as_u32 (len order))) as buf.
  induction order as [|kv order IH]; intros buf; [by rewrite app_nil_r|].
  cbn [foldl]. rewrite IH, !put_lenp, join_cons. unfold entry_bytes at 2. by rewrite <- !app_assoc.
Qed.

Definition entry_fits (kv : bytes * bytes) : Prop := fits_u32 kv.1 ∧ fits_u32 kv.2.

Lemma import_entries_app order rest values :
  Forall entry_fits order → NoDup order.*1 → (∀ k, k ∈ order.*1 → values !! k = None) →
  import_entries (length order) (mjoin (entry_bytes <$> order) ++ rest) values
  = Ok (list_to_map order ∪ values).
Proof.
  revert values. induction order as [|[k v] order IH]; intros values Hf Hnd Hfresh.
  - cbn. f_equal. symmetry. apply (left_id_L ∅ (∪)).
  - apply list.Forall_cons in Hf as [[Hk Hv] Hf]. simpl in Hk, Hv.
    apply list.NoDup_cons in Hnd as [Hkn Hnd]. cbn [length import_entries].
    rewrite join_cons. unfold entry_bytes at 1. cbn [fst snd]. rewrite <- !app_assoc, get_lenp by done.
    cbn [result_bind fst snd]. rewrite get_lenp by done. cbn [result_bind fst snd].
    rewrite IH; [|done..|].
    + f_equal. rewrite list_to_map_cons, <- insert_union_l, insert_union_r; [done|].
      by apply not_elem_of_list_to_map_1.
    + intros k' Hk'. rewrite lookup_insert_ne by set_solver. apply Hfresh. set_solver.
Qed.

Lemma import_store_export order :
  Forall entry_fits order → NoDup order.*1 → fits_u32 order →
  import_store (export_store order) = Ok (list_to_map order).
Proof.
  intros Hf Hnd Hl. rewrite export_store_buf. unfold import_store.
  destruct (_ <? 4)%nat eqn:E; [apply Nat.ltb_lt in E; rewrite length_app, length_be in E; lia|].
  rewrite take_app_length', drop_app_length' by by rewrite length_be.
  rewrite of_be_be, (as_u32_fits _ Hl), N.mod_small by exact Hl. unfold len. rewrite Nat2N.id.
  pose proof (import_entries_app order [] ∅ Hf Hnd) as Hi. rewrite app_nil_r in Hi.
  rewrite Hi by done. by rewrite (right_id_L ∅ (∪)).
Qed.

(** What [import] makes of a member: all of it but the [credential] field. *)
Definition reloaded (m : Member) : Member :=
  mkMember (mb_provider m) (mb_signer m)
    (mkLeafNode (mb_identity m) (om_signer_public (mb_signer m))) (mb_identity m) (mb_group m).

(** A member survives a restart.  In whatever order the store's entries
    are written, [import] of [export] gives the same store, signer, identity
    and group back, provided every field's length fits its 32-bit prefix, the
    store holds the signer and the group (OpenMLS keeps both there), and the
    roster's credentials decode. *)
Theorem export_import (m : Member) order :
  Permutation order (map_to_list (mb_provider m)) →
  fits_u32 order → Forall entry_fits order →
  fits_u32 (om_group_id (mb_group m)) → fits_u32 (mb_identity m) →
  fits_u32 (om_signer_public (mb_signer m)) → fits_u32 (export_store order) →
  om_signer_read (mb_provider m) (om_signer_public (mb_signer m)) = Some (mb_signer m) →
  om_load (mb_provider m) (om_group_id (mb_group m)) = Ok (Some (mb_group m)) →
  Forall (λ jl, is_Some (dc_decode (lf_credential jl.2))) (roster m) →
  import (export order m) = Ok (reloaded m).
Proof.
  intros Hperm Hfo Hfe Hg Hi Hp Hs Hsig Hload Hdec.
  unfold export, import. rewrite !put_lenp, app_nil_l, <- !app_assoc.
  do 3 (rewrite get_lenp by done; cbn [result_bind fst snd]).
  rewrite <- (app_nil_r (lenp (export_store order))), get_lenp by done. cbn [result_bind fst snd].
  assert (NoDup order.*1) as Hnd.
  { rewrite (fmap_Permutation fst _ _ Hperm). apply NoDup_fst_map_to_list. }
  rewrite import_store_export by done. cbn [result_bind].
  rewrite (list_to_map_proper _ _ Hnd Hperm), list_to_map_to_list, Hsig. cbn [ok_or result_bind].
  rewrite Hload. cbn [map_err result_bind ok_or].
  replace (forallb _ _) with true; [done|]. symmetry. apply List.forallb_forall.
  intros jl Hjl. apply bool_decide_eq_true. rewrite list.Forall_forall in Hdec.
  apply (Hdec jl). by apply list_elem_of_In.
Qed.
End export.

(** ** Witnesses *)
Section witnesses.
Import Toy LedgerDemo MlsDemo.

Lemma demo_roster_verifies : Forall (λ jl, leaf_verifies jl.2 = true) (roster member).
Proof.
  assert (E : forallb (λ jl, leaf_verifies jl.2) (roster member) = true) by (vm_compute; reflexivity).
  rewrite List.forallb_forall in E. apply list.Forall_forall. intros jl Hjl. apply E. by apply list_elem_of_In.
Qed.

Lemma commit_roster_safe_witness :
  ∃ m', process_from [x05] (Some ada) (ledger_accepts_binding (chain_usable_for_id l4) (identity_id l4)) member
        = (Ok EpochChanged, m') ∧
    members m' = [(1%N, bob); (0%N, ada)] ∧ Forall (λ jl, leaf_verifies jl.2 = true) (roster m').
Proof.
  assert (E : fst (process_from [x05] (Some ada)
    (ledger_accepts_binding (chain_usable_for_id l4) (identity_id l4)) member) = Ok EpochChanged
    ∧ members (snd (process_from [x05] (Some ada)
    (ledger_accepts_binding (chain_usable_for_id l4) (identity_id l4)) member)) = [(1%N, bob); (0%N, ada)])
    by (vm_compute; split; reflexivity).
  destruct (process_from _ _ _ _) as [r m'] eqn:Ep. simpl in E. destruct E as [-> Em].
  destruct (commit_roster_safe [x05] ada _ member _ m' demo_roster_verifies Ep)
    as (p & c & staged & gs & _ & _ & _ & Hv & _ & _).
  exists m'. split; [reflexivity|split; [exact Em|exact Hv]].
Defined.

(** A stranger's key takes the host's name, the callback refusing everyone. *)
Example stranger_takes_host_name :
  let r := process_from [x06] (Some ada) (λ _ _, false) member in
  fst r = Ok EpochChanged ∧ member_bindings (snd r) = [(9%N, ada, key 8); (0%N, ada, key 1)].
Proof. vm_compute. split; reflexivity. Qed.

Lemma joined_roster_permitted_witness :
  ∃ m, try_join_pending (chain_usable_for_id l4) (identity_id l4) [pending] [x00] = (Some m, []) ∧
    ∃ identity idk, vouches (leaf ada 1 (sk 11)) identity idk ∧ ledger_permits l4 identity idk.
Proof.
  assert (E : match try_join_pending (chain_usable_for_id l4) (identity_id l4) [pending] [x00] with
    | (Some m, []) => bool_decide (roster m = [(0%N, leaf ada 1 (sk 11))])
    | _ => false
    end = true) by (vm_compute; reflexivity).
  destruct (try_join_pending _ _ _ _) as [[m|] [|]] eqn:Ej; try discriminate E.
  apply bool_decide_eq_true in E.
  destruct (joined_roster_permitted l4 [pending] [x00] (Some m) [] Ej) as [_ Hm].
  exists m. split; [reflexivity|].
  apply (proj2 (Hm m eq_refl) 0%N). rewrite E. by left.
Defined.

Lemma export_import_witness :
  import (export (reverse (map_to_list (mb_provider member))) member) = Ok (reloaded member).
Proof.
  apply (export_import member (reverse (map_to_list (mb_provider member)))).
  - apply reverse_Permutation.
  - vm_compute. reflexivity.
  - assert (reverse (map_to_list (mb_provider member)) = [(sk 11, sk 11); (lit "g", lit "v")]) as ->
      by (vm_compute; reflexivity).
    constructor; [split; vm_compute; reflexivity|]. constructor; [split; vm_compute; reflexivity|constructor].
  - vm_compute. reflexivity.
  - vm_compute. reflexivity.
  - vm_compute. reflexivity.
  - vm_compute. reflexivity.
  - vm_compute. reflexivity.
  - reflexivity.
  - constructor; [|constructor]. eexists. vm_compute. reflexivity.
Defined.
End witnesses.
