(* ===== verification/Sync.v ===== *)
(** * The client's requests ([crates/dante-net/src/sync.rs])

    Each function sends one request and insists on the shape of the answer;
    [pull_records] loops over batches of the ledger.  The connection is a
    class: [request] acts on a world of its own, which for a client of the
    modelled relay is the relay's state ([relay_connection]).  A function that
    shares its name with the relay's handler has the prefix [sync_].  The ledger
    replica of the engine ([Engine::sync] in
    [crates/dante-core/src/engine.rs]) closes the file. *)

From S2P Require Import Prelude Utf8 Enc Crypto ProtoRecord IdentityRecords Envelope Server Ledger Mailbox RateLimit Wire RelayParts RelayChannels Relay.

(** [Client::request]: a relay's [Response::Error] comes back as
    [NetError::Peer]. *)
Class Connection (W : Type) := { request : Request → W → result Response NetError * W }.

Section sync.
Context {W : Type} `{Connection W}.
(** [format!("..: {other:?}")] *)
Context (debug : string → Response → bytes).

(** Send, and read the answer with [f]; [None] stands for the [_] arm. *)
Definition ask {A} (req : Request) (f : Response → result A NetError) (w : W) : result A NetError * W :=
  match request req w with
  | (Ok resp, w) => (f resp, w)
  | (Err e, w) => (Err e, w)
  end.

Definition expect_ok_response (what : string) (resp : Response) : result unit NetError :=
  match resp with RsOk => Ok tt | other => Err (NE_Peer (debug what other)) end.

Definition sync_submit_record (rec : record) : W → result unit NetError * W :=
  ask (RqSubmitRecord (record_encode rec)) (expect_ok_response "SubmitRecord").
Definition sync_deposit (env : Envelope) : W → result unit NetError * W :=
  ask (RqDeposit (envelope_encode env)) (expect_ok_response "Deposit").
Definition sync_publish_prekeys (bundle : bytes) : W → result unit NetError * W :=
  ask (RqPublishPrekeys bundle) (expect_ok_response "PublishPrekeys").
Definition sync_get_prekeys (identity_id : bytes) : W → result (option bytes) NetError * W :=
  ask (RqGetPrekeys identity_id)
    (λ resp, match resp with RsPrekeys b => Ok b | _ => Err (NE_UnexpectedResponse "GetPrekeys") end).
Definition sync_publish_key_packages (identity : bytes) (key_packages : list bytes) (sig : bytes)
    : W → result unit NetError * W :=
  ask (RqPublishKeyPackages identity key_packages sig) (expect_ok_response "PublishKeyPackages").
Definition sync_get_key_package (identity : bytes) : W → result (option bytes) NetError * W :=
  ask (RqGetKeyPackage identity)
    (λ resp, match resp with RsKeyPackage kp => Ok kp | _ => Err (NE_UnexpectedResponse "GetKeyPackage") end).
Definition sync_put_blob (bs : bytes) : W → result unit NetError * W :=
  ask (RqPutBlob bs) (expect_ok_response "PutBlob").
Definition sync_get_blob (hash : bytes) : W → result (option bytes) NetError * W :=
  ask (RqGetBlob hash)
    (λ resp, match resp with RsBlob b => Ok b | _ => Err (NE_UnexpectedResponse "GetBlob") end).
Definition sync_post_to_channel (channel_id blob identity sig : bytes) : W → result N NetError * W :=
  ask (RqPostToChannel channel_id blob identity sig)
    (λ resp, match resp with
             | RsPosted seq => Ok seq
             | RsOk => Ok 0%N
             | other => Err (NE_Peer (debug "PostToChannel" other))
             end).
Definition sync_set_channel_roster (channel_id server_root : bytes) (version : N) (members : list bytes)
    (sig : bytes) : W → result unit NetError * W :=
  ask (RqSetChannelRoster channel_id server_root version members sig) (expect_ok_response "SetChannelRoster").
Definition sync_fetch_channel (channel_id : bytes) (since_seq : N) : W → result (list (N * bytes)) NetError * W :=
  ask (RqFetchChannel channel_id since_seq)
    (λ resp, match resp with
             | RsChannelLog entries => Ok entries
             | _ => Err (NE_UnexpectedResponse "FetchChannel")
             end).
Definition sync_post_signal (topic blob : bytes) : W → result unit NetError * W :=
  ask (RqPostSignal topic blob) (expect_ok_response "PostSignal").
Definition sync_fetch_signals (topic : bytes) : W → result (list bytes) NetError * W :=
  ask (RqFetchSignals topic)
    (λ resp, match resp with RsSignals blobs => Ok blobs | _ => Err (NE_UnexpectedResponse "FetchSignals") end).
Definition get_ice_config : W → result (list IceCfg) NetError * W :=
  ask RqGetIceConfig
    (λ resp, match resp with RsIceConfig l => Ok l | _ => Err (NE_UnexpectedResponse "GetIceConfig") end).
Definition sync_channel_heads (channel_ids : list bytes) : W → result (list (bytes * N)) NetError * W :=
  ask (RqChannelHeads channel_ids)
    (λ resp, match resp with
             | RsChannelHeads heads => Ok heads
             | _ => Err (NE_UnexpectedResponse "ChannelHeads")
             end).
(** Both tolerate a [Response::Error] value, which
    [Client::request] has by then turned into an error. *)
Definition sync_announce_p2p (addrs : list bytes) : W → result unit NetError * W :=
  ask (RqAnnounceP2p addrs)
    (λ resp, match resp with
             | RsOk | RsError _ => Ok tt
             | _ => Err (NE_UnexpectedResponse "AnnounceP2p")
             end).
Definition sync_get_p2p_peers : W → result (list bytes) NetError * W :=
  ask RqGetP2pPeers
    (λ resp, match resp with
             | RsP2pPeers l => Ok l
             | RsError _ => Ok []
             | _ => Err (NE_UnexpectedResponse "GetP2pPeers")
             end).
Definition sfu_join (room offer : bytes) : W → result (N * bytes) NetError * W :=
  ask (RqSfuJoin room offer)
    (λ resp, match resp with
             | RsSfuAnswer slot answer => Ok (slot, answer)
             | other => Err (NE_Peer (debug "SfuJoin" other))
             end).
Definition sfu_ice (room : bytes) (slot : N) (candidate : bytes) : W → result unit NetError * W :=
  ask (RqSfuIce room slot candidate) (expect_ok_response "SfuIce").
Definition sfu_pull (room : bytes) (slot : N) : W → result (list bytes) NetError * W :=
  ask (RqSfuPull room slot)
    (λ resp, match resp with RsSfuIce l => Ok l | other => Err (NE_Peer (debug "SfuPull" other)) end).
Definition unfurl_link (url : bytes) : W → result (bytes * bytes * bytes * bytes * option bytes) NetError * W :=
  ask (RqUnfurlLink url)
    (λ resp, match resp with
             | RsUnfurlPreview u site title description image =>
               Ok (u, site, title, description, if bool_decide (image = []) then None else Some image)
             | other => Err (NE_Peer (debug "UnfurlLink" other))
             end).
Definition sfu_leave (room : bytes) (slot : N) : W → result unit NetError * W :=
  ask (RqSfuLeave room slot) (expect_ok_response "SfuLeave").

(** A malformed envelope is left out. *)
Definition ok_opt {A E} (r : result A E) : option A := match r with Ok a => Some a | Err _ => None end.

Definition sync_fetch (hints : list bytes) (since_ms : N) : W → result (list Envelope) NetError * W :=
  ask (RqFetch hints since_ms)
    (λ resp, match resp with
             | RsEnvelopes blobs => Ok (omap (λ b, ok_opt (envelope_decode b)) blobs)
             | _ => Err (NE_UnexpectedResponse "Fetch")
             end).

(** ** Pulling the ledger

    [apply] runs on the caller's own state [L]; it may panic ([None]). *)
Section pull.
Context {L : Type} (apply : record → N → L → option (bool * L)).

Fixpoint apply_blobs (blobs : list bytes) (now_ms accepted : N) (l : L) : option (N * L) :=
  match blobs with
  | [] => Some (accepted, l)
  | blob :: blobs =>
    match record_decode blob with
    | Err _ => apply_blobs blobs now_ms accepted l
    | Ok rec =>
      match apply rec now_ms l with
      | None => None
      | Some (took, l) => apply_blobs blobs now_ms (if took : bool then accepted + 1 else accepted)%N l
      end
    end
  end.

(** [while from < size]; [fuel] bounds the rounds ([None] when it runs out). *)
Fixpoint pull_loop (fuel : nat) (from size now_ms batch accepted : N) (wl : W * L)
    : option (result (N * N) NetError * (W * L)) :=
  if (from <? size)%N then
    match fuel with
    | O => None
    | S fuel =>
      let to := N.min (from + batch) size in
      match request (RqGetRecords from to) wl.1 with
      | (Err e, w) => Some (Err e, (w, wl.2))
      | (Ok (RsRecords blobs), w) =>
        if bool_decide (blobs = []) then Some (Ok (from, accepted), (w, wl.2))
        else
          match apply_blobs blobs now_ms accepted wl.2 with
          | None => None
          | Some (accepted, l) => pull_loop fuel to size now_ms batch accepted (w, l)
          end
      | (Ok _, w) => Some (Err (NE_UnexpectedResponse "GetRecords"), (w, wl.2))
      end
    end
  else Some (Ok (from, accepted), wl).

Definition pull_records (local_len now_ms batch : N) (wl : W * L)
    : option (result (N * N) NetError * (W * L)) :=
  match request RqGetTreeHead wl.1 with
  | (Err e, w) => Some (Err e, (w, wl.2))
  | (Ok (RsTreeHead size _), w) =>
    if (size <=? local_len)%N then Some (Ok (local_len, 0%N), (w, wl.2))
    else pull_loop (N.to_nat (size - local_len)) local_len size now_ms batch 0 (w, wl.2)
  | (Ok _, w) => Some (Err (NE_UnexpectedResponse "GetTreeHead"), (w, wl.2))
  end.
End pull.
End sync.

(** ** The ledger replica of a client ([Engine::sync]) *)
Record Replica := mkReplica { rp_ledger : Ledger MemoryStore; rp_relay_ledger_cursor : N }.

Section replica.
Context {W : Type} `{Connection W, CryptoPrims}.

Definition replica_apply (rec : record) (now_ms : N) (l : Ledger MemoryStore)
    : option (bool * Ledger MemoryStore) :=
  match append rec now_ms l with Some (r, l) => Some (is_ok r, l) | None => None end.

Definition sync (now_ms : N) (w : W) (self : Replica) : option (result N NetError * (W * Replica)) :=
  let from := rp_relay_ledger_cursor self in
  match pull_records replica_apply from now_ms 256 (w, rp_ledger self) with
  | None => None
  | Some (Ok (new_cursor, accepted), (w, ledger)) => Some (Ok accepted, (w, mkReplica ledger new_cursor))
  | Some (Err e, (w, ledger)) => Some (Err e, (w, mkReplica ledger from))
  end.
End replica.

(** ** The modelled relay as a connection

    Requests come from one address at one time; a handler that panics closes
    the connection. *)
Section relay_connection.
Context `{CryptoPrims, TurnAuth}.
Context (show_ledger : LedgerError → string) (show_net : NetError → string) (ip : IpAddr) (now : N).

Definition relay_request (req : Request) (s : RelayState) : result Response NetError * RelayState :=
  match handle req ip now s with
  | None => (Err NE_Closed, s)
  | Some (r, s) =>
    (match to_response show_ledger show_net r with
     | RsError msg => Err (NE_Peer msg)
     | resp => Ok resp
     end, s)
  end.

Definition relay_connection : Connection RelayState := {| request := relay_request |}.
End relay_connection.
