(* ===== verification/SyncTheorems.v ===== *)
(** * The client's replica of the ledger

    [sync] against the modelled relay: it always ends, and a replica
    fed by it is what the client makes of the relay's log: the relay's ledger, when
    the log holds no tombstone.  A tombstone is a record the relay writes and
    every client refuses. *)

From S2P Require Import Prelude Utf8 Enc Crypto Merkle MerkleProofs ProtoRecord IdentityRecords Envelope Server Ledger LedgerProofs LedgerTheorems Mailbox RateLimit Wire RelayParts RelayChannels Relay RelayProofs RelayTheorems Sync.

Section replay.
Context `{CryptoPrims}.
Implicit Types (l : Ledger MemoryStore) (r : record).

(** [l'] is [l] after these records, each accepted in turn. *)
Inductive replays l : list record → Ledger MemoryStore → Prop :=
  | replays_nil : replays l [] l
  | replays_cons r rs l1 l' : accepted r l l1 → replays l1 rs l' → replays l (r :: rs) l'.

Lemma replays_app l rs rs' l' :
  replays l (rs ++ rs') l' ↔ ∃ l1, replays l rs l1 ∧ replays l1 rs' l'.
Proof.
  revert l. induction rs as [|r rs IH]; intros l; simpl.
  - split; [eauto using replays_nil|]. intros (l1 & Hr & ?). by inversion Hr; subst.
  - split.
    + intros Hr. inversion Hr as [|? ? l1 ? Ha Hrs]; subst. apply IH in Hrs as (l2 & ? & ?).
      eauto using replays_cons.
    + intros (l1 & Hr & ?). inversion Hr as [|? ? l2 ? Ha Hrs]; subst. econstructor; [done|].
      apply IH. eauto.
Qed.

Lemma accepted_fun r now l l1 l2 : header_ok r now → accepted r l l1 → accepted r l l2 → l1 = l2.
Proof.
  intros Hh H1 H2. pose proof (append_intro r now l l1 Hh H1) as E1.
  pose proof (append_intro r now l l2 Hh H2) as E2. congruence.
Qed.

Lemma replays_fun rs now l l1 l2 :
  Forall (λ r, header_ok r now) rs → replays l rs l1 → replays l rs l2 → l1 = l2.
Proof.
  revert l. induction rs as [|r rs IH]; intros l Hh H1 H2; [by inversion H1; inversion H2; congruence|].
  apply list.Forall_cons in Hh as [Hh Hhs].
  inversion H1 as [|? ? a ? Ha Hr]; subst. inversion H2 as [|? ? b ? Hb Hr']; subst.
  rewrite (accepted_fun r now l a b Hh Ha Hb) in Hr. by eapply IH.
Qed.

Lemma accepted_view r l l' : accepted r l l' → view l' = view l ++ [r].
Proof. by intros []. Qed.

Lemma replays_view rs l l' : replays l rs l' → view l' = view l ++ rs.
Proof.
  induction 1 as [l|l r rs l1 l' Ha Hr IH]; [by rewrite app_nil_r|].
  rewrite IH, (accepted_view _ _ _ Ha). by rewrite <- app_assoc.
Qed.

(** A ledger whose log has no tombstone was built by accepting its log. *)
Lemma evolves_replays l0 l :
  ledger_wf l0 → evolves l0 l → Forall (λ r, rec_kind r ≠ Tombstone) (view l) →
  ∃ rs, view l = view l0 ++ rs ∧ replays l0 rs l.
Proof.
  intros Hwf Hev. revert Hwf. induction Hev as [l|l1 l2 l3 Hs Hev IH]; intros Hwf Hnt.
  { exists []. rewrite app_nil_r. by repeat constructor. }
  destruct (step_ok _ _ Hwf Hs) as [Hwf2 _]. destruct (IH Hwf2 Hnt) as (rs & Hv & Hr).
  destruct Hs as [r now [id|e] l2 Ha|now res l2 He].
  - apply append_inv in Ha as (_ & Ha & _). exists (r :: rs). split; [|by econstructor].
    rewrite Hv, (accepted_view _ _ _ Ha). by rewrite <- app_assoc.
  - apply append_err_safe in Ha as ->. eauto.
  - destruct (evaporate_spec now l1 Hwf) as (l2' & Hrun & _ & _ & Hv2 & _).
    assert (l2' = l2) as -> by congruence.
    destruct (eligible now l1) as [|root roots] eqn:Ee.
    + unfold evaporate in He. rewrite st_get_bind, Ee in He. injection He as _ <-. eauto.
    + exfalso. rewrite Hv, Hv2 in Hnt. rewrite fmap_cons in Hnt.
      apply list.Forall_app in Hnt as [[_ Hnt]%list.Forall_app _].
      apply list.Forall_cons in Hnt as [Hnt _]. by apply Hnt.
Qed.

(** [l'] is [l] after these records where a tombstone, and a record that is
    not accepted, is passed over; [n] were accepted. *)
Inductive caught_up l : list record → N → Ledger MemoryStore → Prop :=
  | caught_up_nil : caught_up l [] 0 l
  | caught_up_take r rs n l1 l' :
      rec_kind r ≠ Tombstone → accepted r l l1 → caught_up l1 rs n l' → caught_up l (r :: rs) (n + 1) l'
  | caught_up_skip r rs n l' :
      (rec_kind r = Tombstone ∨ ∀ l1, ¬ accepted r l l1) → caught_up l rs n l' → caught_up l (r :: rs) n l'.

(** What a client of time [now] can judge by its own rules. *)
Definition judged (now : N) (r : record) : Prop := rec_kind r = Tombstone ∨ header_ok r now.

Lemma caught_up_app l rs rs' n l' :
  caught_up l (rs ++ rs') n l' ↔ ∃ l1 n1 n2, caught_up l rs n1 l1 ∧ caught_up l1 rs' n2 l' ∧ n = (n1 + n2)%N.
Proof.
  revert l n. induction rs as [|r rs IH]; intros l n; cbn [app].
  - split; [intros Hr; exists l, 0%N, n; split_and!; [constructor|done|done]|].
    intros (l1 & n1 & n2 & H1 & H2 & ->). by inversion H1; subst.
  - split.
    + intros Hr. inversion Hr as [|? ? m l1 ? Hk Ha Hrs|? ? m ? Hk Hrs]; subst;
        apply IH in Hrs as (l2 & n1 & n2 & ? & ? & ->).
      * exists l2, (n1 + 1)%N, n2. split_and!; [by econstructor|done|lia].
      * exists l2, n1, n2. split_and!; [by apply caught_up_skip|done|done].
    + intros (l2 & n1 & n2 & H1 & H2 & ->). inversion H1 as [|? ? m l1 ? Hk Ha Hrs|? ? m ? Hk Hrs]; subst.
      * replace (m + 1 + n2)%N with (m + n2 + 1)%N by lia. econstructor; [done..|]. apply IH. eauto 10.
      * apply caught_up_skip; [done|]. apply IH. eauto 10.
Qed.

Lemma caught_up_fun now rs l n1 n2 l1 l2 :
  Forall (judged now) rs → caught_up l rs n1 l1 → caught_up l rs n2 l2 → n1 = n2 ∧ l1 = l2.
Proof.
  intros Hj H1. revert n2 l2. induction H1 as [l|l r rs n l1 l' Hk Ha H1 IH|l r rs n l' Hk H1 IH]; intros n2 l2 H2;
    [by inversion H2|..]; apply list.Forall_cons in Hj as [Hr Hj];
    inversion H2 as [|? ? m l3 ? Hk' Ha' Hrs|? ? m ? Hk' Hrs]; subst.
  - destruct Hr as [?|Hr]; [done|]. rewrite (accepted_fun r now l l1 l3) in IH by done.
    by destruct (IH Hj _ _ Hrs) as [-> ->].
  - exfalso. destruct Hk' as [?|Hk']; [done|]. by apply (Hk' l1).
  - exfalso. destruct Hk as [?|Hk]; [done|]. by apply (Hk l3).
  - by apply IH.
Qed.

(** Any log can be caught up with. *)
Lemma caught_up_total now rs l :
  ledger_wf l → Forall (judged now) rs → ∃ n l', caught_up l rs n l' ∧ ledger_wf l'.
Proof.
  intros Hwf Hj. revert l Hwf. induction Hj as [|r rs Hr Hj IH]; intros l Hwf; [exists 0%N, l; by split; [constructor|]|].
  destruct (append_total r now l Hwf) as [[[id|e] l1] E].
  - pose proof (append_inv _ _ _ _ _ E) as ((_ & _ & Hk & _) & Ha & _).
    destruct (IH l1) as (n & l' & Hc & Hw); [apply (step_ok l l1 Hwf); by econstructor|].
    exists (n + 1)%N, l'. split; [by econstructor|done].
  - destruct (IH l Hwf) as (n & l' & Hc & Hw). exists n, l'. split; [|done]. apply caught_up_skip; [|done].
    destruct Hr as [?|Hr]; [by left|right]. intros l2 Ha. rewrite (append_intro r now l l2 Hr Ha) in E. done.
Qed.

(** Records each accepted in turn are all taken. *)
Lemma replays_caught_up l rs l' :
  Forall (λ r, rec_kind r ≠ Tombstone) rs → replays l rs l' → caught_up l rs (len rs) l'.
Proof.
  intros Hk Hr. induction Hr as [l|l r rs l1 l' Ha Hr IH]; [constructor|].
  apply list.Forall_cons in Hk as [Hk Hks]. rewrite len_cons, N.add_comm. econstructor; [done..|by apply IH].
Qed.

(** Records the ledger has had are passed over. *)
Lemma caught_up_settled l rs : Forall (λ r, settled r l) rs → caught_up l rs 0 l.
Proof.
  induction 1 as [|r rs Hr Hrs IH]; [constructor|]. apply caught_up_skip; [|done]. right. intros l1.
  by apply settled_refused.
Qed.

Lemma replays_extends l rs l' : replays l rs l' → extends l l'.
Proof. induction 1 as [l|l r rs l1 l' Ha Hr IH]; [done|]. etrans; [by eapply accepted_extends|done]. Qed.

Lemma replays_settled l rs l' : replays l rs l' → Forall (λ r, settled r l') rs.
Proof.
  induction 1 as [l|l r rs l1 l' Ha Hr IH]; constructor; [|done].
  eapply settled_extends; [by eapply replays_extends|]. by eapply settled_after.
Qed.

Lemma apply_blobs_caught_up rs now acc l n l' :
  ledger_wf l → Forall record_ok rs → Forall (judged now) rs → caught_up l rs n l' →
  apply_blobs replica_apply (record_encode <$> rs) now acc l = Some (acc + n, l')%N.
Proof.
  intros Hwf Ho Hj Hc. revert acc Hwf Ho Hj.
  induction Hc as [l|l r rs n l1 l' Hk Ha Hc IH|l r rs n l' Hk Hc IH]; intros acc Hwf Ho Hj; cbn [fmap list_fmap apply_blobs];
    [by rewrite N.add_0_r|..]; apply list.Forall_cons in Ho as [Ho Hos]; apply list.Forall_cons in Hj as [Hj Hjs];
    rewrite record_round by done; unfold replica_apply at 1.
  - destruct Hj as [?|Hh]; [done|]. pose proof (append_intro r now l l1 Hh Ha) as E. rewrite E. cbn [is_ok].
    rewrite IH; [do 2 f_equal; lia|apply (step_ok l l1 Hwf); by econstructor|done..].
  - destruct (append_total r now l Hwf) as [[[id|e] l1] E]; rewrite E; cbn [is_ok].
    + exfalso. apply append_inv in E as ((_ & _ & Hk' & _) & Ha & _). destruct Hk as [?|Hk]; [done|]. by apply (Hk l1).
    + apply append_err_safe in E as ->. by apply IH.
Qed.

Lemma caught_up_wf now rs l n l' :
  ledger_wf l → Forall (judged now) rs → caught_up l rs n l' → ledger_wf l'.
Proof.
  intros Hwf Hj Hc. destruct (caught_up_total now rs l Hwf Hj) as (n' & l2 & Hc' & Hw).
  by destruct (caught_up_fun now rs l _ _ _ _ Hj Hc Hc') as [_ ->].
Qed.

Lemma apply_blobs_total blobs now acc l :
  ledger_wf l → ∃ n l', apply_blobs replica_apply blobs now acc l = Some (n, l') ∧ ledger_wf l'.
Proof.
  revert acc l. induction blobs as [|b blobs IH]; intros acc l Hwf; cbn [apply_blobs]; [eauto|].
  destruct (record_decode b) as [r|e]; [|by apply IH]. unfold replica_apply at 1.
  destruct (append_total r now l Hwf) as [[res l1] E]. rewrite E. apply IH.
  apply (step_ok l l1 Hwf). by econstructor.
Qed.
End replay.

(** ** Against the relay *)
Section relay.
Context `{CryptoPrims, TurnAuth}.
Context (show_ledger : LedgerError → string) (show_net : NetError → string) (ip : IpAddr) (now : N).
Implicit Types s : RelayState.

#[local] Instance connection : Connection RelayState := relay_connection show_ledger show_net ip now.

Definition relay_ledger s : Ledger MemoryStore := lp_ledger (st_ledger s).

(** The limiter may refuse a read; otherwise it is answered from the state. *)
Lemma read_request_cases f s :
  ∃ s', st_ledger s' = st_ledger s ∧ st_max_get_records s' = st_max_get_records s ∧
    (read_request ip now f s = Some (Ok (f s'), s') ∨
     read_request ip now f s = Some (Err (RE_Text "rate limited"), s')).
Proof.
  unfold read_request, charge, st_bind, zoom, total, st_get, st_ret, st_reject, lens_get, lens_set,
    of_limits, of_read_rl.
  destruct (check ip now one (rl_read (st_limits s))) as [ok rl]. destruct ok; cbn [negb].
  all: eexists; split_and!; [| |first [left; reflexivity | right; reflexivity]]; done.
Qed.

Lemma request_tree_head s :
  ledger_wf (relay_ledger s) → (len (view (relay_ledger s)) < 18446744073709551616)%N →
  ∃ s', st_ledger s' = st_ledger s ∧ st_max_get_records s' = st_max_get_records s ∧
    (request RqGetTreeHead s =
       (Ok (RsTreeHead (len (view (relay_ledger s))) (th_root (ledger_head (relay_ledger s)))), s') ∨
     ∃ e, request RqGetTreeHead s = (Err e, s')).
Proof.
  intros Hwf Hlt.
  destruct (read_request_cases (λ s, RsTreeHead (th_size (ledger_head (lp_ledger (st_ledger s))))
    (th_root (ledger_head (lp_ledger (st_ledger s))))) s) as (s' & Hl & Hm & Hr).
  exists s'. split; [done|]. split; [done|]. cbn [request connection relay_connection]. unfold relay_request.
  cbn [handle]. destruct Hr as [->| ->]; [left|right; by eexists].
  cbn [to_response]. rewrite Hl. fold (relay_ledger s). cbn [ledger_head th_size].
  assert (len (lg_leaves (relay_ledger s)) = len (view (relay_ledger s))) as ->
    by (unfold len; by rewrite len_leaves).
  unfold wrap64. by rewrite N.mod_small.
Qed.

Lemma ledger_record_view l i : ledger_record l i = view (St:=MemoryStore) l !! i.
Proof. apply (rs_get_view (lg_store l)). Qed.

Lemma omap_ext_all {A B} (f g : A → option B) (xs : list A) : (∀ x, f x = g x) → omap f xs = omap g xs.
Proof. intros Hfg. induction xs as [|x xs IH]; csimpl; [done|]. by rewrite Hfg, IH. Qed.

Lemma omap_seq_lookup {A B} (f : A → B) (xs : list A) n k :
  (n + k ≤ length xs)%nat →
  omap (λ i, f <$> xs !! i) (seq n k) = f <$> take k (drop n xs).
Proof.
  revert n. induction k as [|k IH]; intros n Hn; [by rewrite take_0|].
  cbn [seq]. csimpl. destruct (xs !! n) as [x|] eqn:Ex; [|apply lookup_ge_None in Ex; lia].
  cbn [fmap option_fmap option_map]. rewrite IH by lia.
  rewrite (drop_S _ _ _ Ex). by cbn [take fmap list_fmap].
Qed.

(** A batch within the log and the relay's limit comes whole. *)
Lemma request_records s from to :
  (from ≤ to)%N → (to ≤ len (view (relay_ledger s)))%N → (to - from ≤ st_max_get_records s)%N →
  ∃ s', st_ledger s' = st_ledger s ∧ st_max_get_records s' = st_max_get_records s ∧
    (request (RqGetRecords from to) s =
       (Ok (RsRecords (record_encode <$>
          take (N.to_nat (to - from)) (drop (N.to_nat from) (view (relay_ledger s))))), s') ∨
     ∃ e, request (RqGetRecords from to) s = (Err e, s')).
Proof.
  intros Hft Hto Hmax.
  destruct (read_request_cases (get_records from to) s) as (s' & Hl & Hm & Hr).
  exists s'. split; [done|]. split; [done|]. cbn [request connection relay_connection]. unfold relay_request.
  cbn [handle]. destruct Hr as [->| ->]; [left|right; by eexists].
  cbn [to_response]. f_equal. unfold get_records. rewrite Hl, Hm. fold (relay_ledger s).
  assert (N.of_nat (ledger_len (relay_ledger s)) = len (view (relay_ledger s))) as -> by done.
  rewrite (N.min_l from) by lia. rewrite (N.min_l to) by lia. rewrite (N.min_l to) by lia.
  do 2 f_equal. etrans; [|apply (omap_seq_lookup record_encode); unfold len in *; lia].
  apply omap_ext_all. intros i. by rewrite ledger_record_view.
Qed.

Definition sync_ready s : Prop :=
  ledger_wf (relay_ledger s) ∧ (len (view (relay_ledger s)) < 18446744073709551616)%N ∧
  Forall record_ok (view (relay_ledger s)) ∧
  Forall (judged now) (view (relay_ledger s)) ∧
  (256 ≤ st_max_get_records s)%N.

Lemma sync_ready_same s s' :
  st_ledger s' = st_ledger s → st_max_get_records s' = st_max_get_records s → sync_ready s → sync_ready s'.
Proof. unfold sync_ready, relay_ledger. by intros -> ->. Qed.

(** The rest of the log, batch by batch; an error may come after any batch. *)
Lemma pull_loop_caught_up fuel s from acc l :
  sync_ready s → ledger_wf l → (from ≤ len (view (relay_ledger s)))%N →
  (N.to_nat (len (view (relay_ledger s)) - from) ≤ fuel)%nat →
  ∃ r s' l' j m, pull_loop replica_apply fuel from (len (view (relay_ledger s))) now 256 acc (s, l) = Some (r, (s', l')) ∧
    st_ledger s' = st_ledger s ∧
    caught_up l (take j (drop (N.to_nat from) (view (relay_ledger s)))) m l' ∧
    ∀ c n, r = Ok (c, n) → c = len (view (relay_ledger s)) ∧ n = (acc + m)%N ∧
      j = N.to_nat (len (view (relay_ledger s)) - from).
Proof.
  set (L := relay_ledger s). assert (HL : relay_ledger s = L) by done. clearbody L.
  revert s from acc l HL. induction fuel as [|fuel IH]; intros s from acc l HL Hready Hwfl Hfrom Hfuel; cbn [pull_loop];
    (destruct (from <? len (view L))%N eqn:E; [apply N.ltb_lt in E|apply N.ltb_ge in E]); [lia| |cbn [fst snd]|].
  1, 3: exists (Ok (from, acc)), s, l, 0%nat, 0%N; (split; [done|]); (split; [done|]); (split; [constructor|]);
    intros c n [= <- <-]; split_and!; lia.
  set (to := N.min (from + 256) (len (view L))).
  destruct Hready as (Hwf & Hlt & Hok & Hh & Hmax). rewrite HL in Hwf, Hlt, Hok, Hh.
  destruct (request_records s from to) as (s' & Hl & Hm & [Hreq|[e Hreq]]); [lia|rewrite HL; lia|lia| |];
    rewrite Hreq; [|exists (Err e), s', l, 0%nat, 0%N; split_and!; [done|done|constructor|done]].
  rewrite HL. set (batch := take _ (drop _ (view L))).
  assert (Hlen : length batch = N.to_nat (to - from)).
  { unfold batch. rewrite length_take, length_drop. unfold len in *. lia. }
  rewrite bool_decide_eq_false_2.
  2: { intros Hnil. apply (f_equal length) in Hnil. rewrite length_fmap, Hlen in Hnil. simpl in Hnil. lia. }
  assert (Hsplit : drop (N.to_nat from) (view L) = batch ++ drop (N.to_nat to) (view L)).
  { unfold batch. rewrite <- (take_drop (N.to_nat (to - from)) (drop (N.to_nat from) (view L))) at 1.
    f_equal. rewrite drop_drop. f_equal. lia. }
  assert (Hsub : ∀ P : record → Prop, Forall P (view L) → Forall P batch).
  { intros P HP. rewrite <- (take_drop (N.to_nat from) (view L)), Hsplit in HP.
    by apply list.Forall_app in HP as [_ [? _]%list.Forall_app]. }
  destruct (caught_up_total now batch l Hwfl (Hsub _ Hh)) as (n1 & l1 & Hc1 & Hwf1).
  rewrite (apply_blobs_caught_up batch now acc l n1 l1) by auto.
  destruct (IH s' to (acc + n1)%N l1) as (r & s'' & l' & j & m & Hp & Hl' & Hc & Hres).
  1: { unfold relay_ledger in *. by rewrite Hl. }
  1: { apply (sync_ready_same s s'); [done..|]. unfold sync_ready. by rewrite HL. }
  1: { done. }
  1, 2: lia.
  exists r, s'', l', (length batch + j)%nat, (n1 + m)%N. split; [exact Hp|]. split; [by rewrite Hl'|]. split.
  - rewrite Hsplit, take_app_add'; [|done]. apply caught_up_app. by exists l1, n1, m.
  - intros c n Hcn. destruct (Hres c n Hcn) as (-> & -> & ->). split_and!; [done|lia|]. rewrite Hlen. lia.
Qed.

Lemma sync_caught_up self s :
  sync_ready s → ledger_wf (rp_ledger self) → (rp_relay_ledger_cursor self ≤ len (view (relay_ledger s)))%N →
  ∃ r s' self' j m, sync now s self = Some (r, (s', self')) ∧ st_ledger s' = st_ledger s ∧
    caught_up (rp_ledger self) (take j (drop (N.to_nat (rp_relay_ledger_cursor self)) (view (relay_ledger s)))) m
      (rp_ledger self') ∧
    match r with
    | Ok n => rp_relay_ledger_cursor self' = len (view (relay_ledger s)) ∧ n = m ∧
        j = N.to_nat (len (view (relay_ledger s)) - rp_relay_ledger_cursor self)
    | Err _ => rp_relay_ledger_cursor self' = rp_relay_ledger_cursor self
    end.
Proof.
  intros Hready Hwf Hc. destruct self as [l c]. cbn [rp_ledger rp_relay_ledger_cursor] in *.
  unfold sync, pull_records. cbn [rp_ledger rp_relay_ledger_cursor fst snd].
  destruct (request_tree_head s) as (s' & Hl & Hm & [Hreq|[e Hreq]]); [by apply Hready..| |];
    rewrite Hreq; [|exists (Err e), s', (mkReplica l c), 0%nat, 0%N; split_and!; [done|done|exact (caught_up_nil _)|done]].
  destruct (_ <=? c)%N eqn:E; [apply N.leb_le in E|apply N.leb_gt in E].
  - eexists (Ok 0%N), s', (mkReplica l _), 0%nat, 0%N. split_and!; [done|done|exact (caught_up_nil _)|cbn [rp_relay_ledger_cursor]; lia|done|cbn [rp_relay_ledger_cursor]; lia].
  - assert (Hs : relay_ledger s' = relay_ledger s) by (unfold relay_ledger; by rewrite Hl).
    destruct (pull_loop_caught_up (N.to_nat (len (view (relay_ledger s)) - c)) s' c 0 l)
      as (r & s'' & l' & j & m & Hp & Hl' & Hcu & Hres); [by apply (sync_ready_same s)|done|by rewrite Hs|by rewrite Hs|].
    rewrite Hs in Hp, Hres, Hcu. rewrite Hp. destruct r as [[c' n]|e].
    + destruct (Hres c' n eq_refl) as (-> & -> & ->). eexists _, _, _, _, m. split_and!; [done|by rewrite Hl'|exact Hcu|done..].
    + eexists _, _, _, _, m. split_and!; [done|by rewrite Hl'|exact Hcu|done].
Qed.

(** A replica that has caught up, from [l0], with as many records of the log
    as its cursor says, and accepted [n] of them. *)
Definition follows l0 n (self : Replica) (L : Ledger MemoryStore) : Prop :=
  (rp_relay_ledger_cursor self ≤ len (view L))%N ∧
  caught_up l0 (take (N.to_nat (rp_relay_ledger_cursor self)) (view L)) n (rp_ledger self).

(** A replica that is where the relay's ledger was at some length of the log
    that the cursor has not passed: a sync that failed leaves the cursor
    behind the records it took. *)
Definition behind l0 (self : Replica) (L : Ledger MemoryStore) : Prop :=
  ∃ k, (N.to_nat (rp_relay_ledger_cursor self) ≤ k ≤ length (view L))%nat ∧ replays l0 (take k (view L)) (rp_ledger self).

Lemma take_clip {A} j (xs : list A) : take (Nat.min j (length xs)) xs = take j xs.
Proof. rewrite <- take_take. by rewrite (take_ge xs). Qed.

(** Reading on from the cursor, the records the replica has had are passed
    over and the rest is accepted. *)
Lemma behind_caught_up l0 l L c k j m l' :
  Forall (judged now) (view L) → Forall (λ r, rec_kind r ≠ Tombstone) (view L) → replays l0 (view L) L →
  (c ≤ k ≤ length (view L))%nat → replays l0 (take k (view L)) l → (c + j ≤ length (view L))%nat →
  caught_up l (take j (drop c (view L))) m l' →
  replays l0 (take (Nat.max k (c + j)) (view L)) l' ∧ m = N.of_nat (c + j - k).
Proof.
  intros Hj Hnt Hrep Hk Hl Hcj Hc.
  assert (Hcut : ∀ P : record → Prop, Forall P (view L) → ∀ a b, Forall P (take a (drop b (view L))))
    by (intros P HP a b; by apply Forall_take, Forall_drop).
  assert (Htk : take k (view L) = take c (view L) ++ take (k - c) (drop c (view L))).
  { rewrite take_take_drop. f_equal. lia. }
  assert (Hset : Forall (λ r, settled r l) (take (k - c) (drop c (view L)))).
  { apply replays_settled in Hl. rewrite Htk in Hl. by apply list.Forall_app in Hl as [_ ?]. }
  destruct (decide (c + j ≤ k)%nat) as [Hle|Hgt].
  - rewrite Nat.max_l by lia. destruct (caught_up_fun now _ _ _ _ _ _ (Hcut _ Hj _ _) Hc (caught_up_settled l _ ltac:(
      rewrite <- (take_drop j (take (k - c) (drop c (view L)))), take_take, Nat.min_l in Hset by lia;
      apply list.Forall_app in Hset as [Hset _]; exact Hset))) as [-> ->].
    split; [done|lia].
  - rewrite Nat.max_r by lia.
    assert (Hsplit : take j (drop c (view L)) = take (k - c) (drop c (view L)) ++ take (c + j - k) (drop k (view L))).
    { rewrite <- (take_drop (k - c) (take j (drop c (view L)))) at 1. rewrite take_take, Nat.min_l by lia. f_equal.
      assert (drop k (view L) = drop (k - c) (drop c (view L))) as -> by (rewrite drop_drop; f_equal; lia).
      rewrite (take_drop_commute _ (c + j - k)). do 2 f_equal. lia. }
    assert (Hall : take (c + j) (view L) = take k (view L) ++ take (c + j - k) (drop k (view L))).
    { rewrite take_take_drop. f_equal. lia. }
    rewrite <- (take_drop (c + j) (view L)), Hall in Hrep. apply replays_app in Hrep as (l2 & Hrep & _).
    apply replays_app in Hrep as (l1 & Hr1 & Hr2).
    assert (l1 = l) as ->.
    { destruct (caught_up_fun now (take k (view L)) l0 _ _ _ _ ltac:(by apply Forall_take)
        (replays_caught_up _ _ _ ltac:(by apply Forall_take) Hr1) (replays_caught_up _ _ _ ltac:(by apply Forall_take) Hl)) as [_ ?].
      done. }
    assert (Hc2 : caught_up l (take j (drop c (view L))) (0 + len (take (c + j - k) (drop k (view L)))) l2).
    { rewrite Hsplit. apply caught_up_app. exists l, 0%N, (len (take (c + j - k) (drop k (view L)))).
      split_and!; [by apply caught_up_settled|by apply replays_caught_up; [apply Hcut|]|done]. }
    destruct (caught_up_fun now _ _ _ _ _ _ (Hcut _ Hj _ _) Hc Hc2) as [-> ->].
    rewrite Hall. split; [apply replays_app; eauto|]. unfold len. rewrite length_take, length_drop. lia.
Qed.


(** A tombstone changes no replica: the client refuses the record. *)
Lemma tombstone_refused r l :
  rec_kind r = Tombstone → rec_v r = RECORD_VERSION →
  (rec_created_ms r ≤ sat_add64 now CLOCK_SKEW_MS)%N →
  append r now l = Some (Err LE_TombstoneNotAllowed, l).
Proof.
  intros Hk Hv Hc. unfold append. rewrite Hv, N.eqb_refl.
  apply N.ltb_ge in Hc. unfold st_bind, st_reject. rewrite Hc. cbn [negb].
  by rewrite bool_decide_eq_true_2.
Qed.
End relay.

(** ** Witnesses *)
Module SyncDemo.
Import LedgerDemo RelayDemo.
#[local] Existing Instance Toy.prims.
Definition relay_with (l : Ledger MemoryStore) : RelayState := lens_set of_ledger (mkLedgerPart l []) start.
Definition newcomer : Replica := mkReplica empty 0.
Definition show_ledger (e : LedgerError) : string := "refused".
Definition show_net (e : NetError) : string := "failed".
Definition run_sync (now : N) (l : Ledger MemoryStore) (self : Replica) :=
  @sync RelayState (connection show_ledger show_net ip now) _ now (relay_with l) self.
(** Ada's identity expires on the relay. *)
Definition evaporated : Ledger MemoryStore := after (evaporate 5000 l2).
End SyncDemo.

Section witnesses.
Import Toy LedgerDemo RelayDemo SyncDemo.

Lemma demo_header r now_ms :
  bool_decide (rec_v r = RECORD_VERSION) && (rec_created_ms r <=? sat_add64 now_ms CLOCK_SKEW_MS)%N &&
  negb (bool_decide (rec_kind r = Tombstone)) && bool_decide (record_verify_signature r = Ok tt) = true →
  header_ok r now_ms.
Proof.
  intros E. apply andb_true_iff in E as [E E4]. apply andb_true_iff in E as [E E3].
  apply andb_true_iff in E as [E1 E2]. apply bool_decide_eq_true in E1, E4.
  apply N.leb_le in E2. apply negb_true_iff, bool_decide_eq_false in E3. by split_and!.
Qed.

Lemma demo_record_ok r : bool_decide (record_decode (record_encode r) = Ok r) = true → record_ok r.
Proof. intros E%bool_decide_eq_true. by apply record_decode_canon in E as [? _]. Qed.

Lemma forallb_Forall_spec {A} (P : A → Prop) (p : A → bool) l :
  (∀ x, p x = true → P x) → forallb p l = true → Forall P l.
Proof. intros HP Hl. rewrite List.forallb_forall in Hl. apply list.Forall_forall. intros x Hx. apply HP, Hl. by apply list_elem_of_In. Qed.

Lemma demo_ready now_ms l :
  ledger_wf l →
  (len (view l) <? 18446744073709551616)%N &&
  forallb (λ r, bool_decide (record_decode (record_encode r) = Ok r)) (view l) &&
  forallb (λ r, bool_decide (rec_kind r = Tombstone) ||
    (bool_decide (rec_v r = RECORD_VERSION) && (rec_created_ms r <=? sat_add64 now_ms CLOCK_SKEW_MS)%N &&
     negb (bool_decide (rec_kind r = Tombstone)) && bool_decide (record_verify_signature r = Ok tt))) (view l) = true →
  sync_ready now_ms (relay_with l).
Proof.
  intros Hwf [[Hlt Hok]%andb_true_iff Hj]%andb_true_iff. split; [exact Hwf|]. split; [by apply N.ltb_lt|].
  split; [exact (forallb_Forall_spec _ _ _ demo_record_ok Hok)|]. split; [|vm_compute; discriminate].
  refine (forallb_Forall_spec _ _ _ _ Hj). intros r [Ht%bool_decide_eq_true|Hh]%orb_true_iff; [by left|right].
  by apply demo_header.
Qed.

Lemma newcomer_follows l : follows empty 0 newcomer l.
Proof. split; [apply N.le_0_l|apply caught_up_nil]. Qed.
Lemma newcomer_behind l : behind empty newcomer l.
Proof. exists 0%nat. split; [cbn; lia|apply replays_nil]. Qed.


(** The relay has evaporated Ada, its log says so, and a client in sync with
    it goes on taking her for usable. *)
Example evaporated_stays_usable :
  match run_sync 5000 evaporated newcomer with
  | Some (Ok n, (_, self)) =>
    (n =? 2)%N && (rp_relay_ledger_cursor self =? 3)%N &&
    bool_decide (chain_usable_for_id (rp_ledger self) ada = Some true) &&
    bool_decide (chain_usable_for_id evaporated ada = Some false)
  | _ => false
  end = true.
Proof. vm_compute. reflexivity. Qed.
End witnesses.
