(* ===== verification/ClientMessages.v ===== *)
(** * What a client keeps of channel messages
    ([crates/dante-core/src/engine.rs])

    Authorship, edits and deletions, pins, reactions and history of channel
    messages, with the part of [persist] and of [connect] that writes them to
    the local store and reads them back.  A nested [HashMap] is a nested map;
    the maps are only iterated where the result does not depend on the
    order. *)

From S2P Require Import Prelude Utf8 Enc Crypto Channel LocalStore.

(** ** Two-level maps

    [m.entry(a).or_default().entry(b)] and the like. *)
Section two_level.
Context {K A : Type} `{Countable K}.
Implicit Types m : gmap bytes (gmap K A).

Definition get2 m (a : bytes) (b : K) : option A := m !! a ≫= (.!! b).
Definition put2 (a : bytes) (b : K) (v : A) m : gmap bytes (gmap K A) :=
  <[a := <[b := v]> (default ∅ (m !! a))]> m.
(** [entry(b).or_insert(v)] *)
Definition or_insert2 (a : bytes) (b : K) (v : A) m : gmap bytes (gmap K A) :=
  let inner := default ∅ (m !! a) in
  match inner !! b with Some _ => <[a := inner]> m | None => <[a := <[b := v]> inner]> m end.
(** Every entry, in an order of no consequence. *)
Definition entries2 m : list (bytes * K * A) :=
  map_to_list m ≫= λ am, (λ bv, (am.1, bv.1, bv.2)) <$> map_to_list am.2.

Lemma get2_put2 a b v m a' b' :
  get2 (put2 a b v m) a' b' = if decide (a' = a ∧ b' = b) then Some v else get2 m a' b'.
Proof.
  unfold get2, put2. destruct (decide (a' = a)) as [->|Ha].
  - rewrite lookup_insert_eq. simpl. destruct (decide (b' = b)) as [->|Hb].
    + rewrite lookup_insert_eq, decide_True; done.
    + rewrite lookup_insert_ne, decide_False by naive_solver. by destruct (m !! a).
  - rewrite lookup_insert_ne, decide_False by naive_solver. done.
Qed.

Lemma get2_or_insert2 a b v m a' b' :
  get2 (or_insert2 a b v m) a' b' =
    if decide (a' = a ∧ b' = b) then Some (default v (get2 m a b)) else get2 m a' b'.
Proof.
  unfold get2, or_insert2. destruct (default ∅ (m !! a) !! b) as [w|] eqn:Eb.
  - destruct (decide (a' = a ∧ b' = b)) as [[-> ->]|Hn].
    + rewrite lookup_insert_eq. simpl. rewrite Eb. destruct (m !! a); simpl in *; [by rewrite Eb|done].
    + destruct (decide (a' = a)) as [->|]; [rewrite lookup_insert_eq|by rewrite lookup_insert_ne].
      by destruct (m !! a).
  - fold (put2 a b v m). change (get2 (put2 a b v m) a' b' = if decide (a' = a ∧ b' = b)
      then Some (default v (get2 m a b)) else get2 m a' b').
    rewrite get2_put2. destruct (decide _); [|done]. unfold get2.
    destruct (m !! a); simpl in *; [by rewrite Eb|done].
Qed.

Lemma elem_of_entries2 m a b v : (a, b, v) ∈ entries2 m ↔ get2 m a b = Some v.
Proof.
  unfold entries2, get2. rewrite list_elem_of_bind. split.
  - intros ([a' inner] & [[b' v'] [[= -> -> ->] Hb]]%list_elem_of_fmap & Ha).
    apply elem_of_map_to_list in Ha, Hb. simpl in *. by rewrite Ha.
  - destruct (m !! a) as [inner|] eqn:Ha; [|done]. intros Hb. exists (a, inner). split.
    + apply list_elem_of_fmap. exists (b, v). by rewrite elem_of_map_to_list.
    + by apply elem_of_map_to_list.
Qed.
End two_level.

(** ** State *)
Record MsgEdit := mkMsgEdit { me_author : bytes; me_text : option bytes; me_deleted : bool }.
Record PinInfo := mkPinInfo { pi_by : bytes; pi_at_ms : N }.
Record ChannelEdit := mkChannelEdit {
  ce_channel_id : bytes; ce_target_seq : N; ce_text : option bytes; ce_deleted : bool;
}.
Record ChannelPin := mkChannelPin {
  cp_channel_id : bytes; cp_target_seq : N; cp_by : bytes; cp_at_ms : N; cp_pinned : bool;
}.
Record ChannelReaction := mkReaction {
  cr_channel_id : bytes; cr_target_seq : N; cr_emoji : bytes; cr_member : bytes; cr_removed : bool;
}.

#[export] Instance MsgEdit_eq_dec : EqDecision MsgEdit.
Proof. solve_decision. Defined.

Notation EditMap := (gmap bytes (gmap N MsgEdit)).
Notation PinMap := (gmap bytes (gmap N PinInfo)).
Notation ReactionMap := (gmap bytes (gmap N (gmap bytes (gset bytes)))).

(** The fields of [Engine] the operations below touch. *)
Record Book := mkBook {
  bk_channel_edits : EditMap;
  bk_new_edits : list ChannelEdit;
  bk_channel_pins : PinMap;
  bk_new_pins : list ChannelPin;
  bk_channel_reactions : ReactionMap;
  bk_new_reactions : list ChannelReaction;
  bk_channel_history : list ChannelHistoryEntry;
  bk_dirty : bool;
}.

Definition book_empty : Book := mkBook ∅ [] ∅ [] ∅ [] [] false.

Definition set_edits (m : EditMap) (b : Book) : Book :=
  mkBook m (bk_new_edits b) (bk_channel_pins b) (bk_new_pins b) (bk_channel_reactions b)
    (bk_new_reactions b) (bk_channel_history b) (bk_dirty b).
Definition set_pins (m : PinMap) (b : Book) : Book :=
  mkBook (bk_channel_edits b) (bk_new_edits b) m (bk_new_pins b) (bk_channel_reactions b)
    (bk_new_reactions b) (bk_channel_history b) (bk_dirty b).
Definition set_history (h : list ChannelHistoryEntry) (b : Book) : Book :=
  mkBook (bk_channel_edits b) (bk_new_edits b) (bk_channel_pins b) (bk_new_pins b)
    (bk_channel_reactions b) (bk_new_reactions b) h (bk_dirty b).
Definition set_dirty (b : Book) : Book :=
  mkBook (bk_channel_edits b) (bk_new_edits b) (bk_channel_pins b) (bk_new_pins b)
    (bk_channel_reactions b) (bk_new_reactions b) (bk_channel_history b) true.

(** ** Authorship *)
Definition CHANNEL_HISTORY_CAP : nat := 2000.

Definition authorship_only (e : MsgEdit) : bool :=
  match me_text e with None => negb (me_deleted e) | Some _ => false end.

(** [entry(id).or_default().entry(seq).or_insert(MsgEdit { author, .. })] *)
Definition record_author (channel_id : bytes) (seq : N) (author : bytes) (b : Book) : Book :=
  set_edits (or_insert2 channel_id seq (mkMsgEdit author None false) (bk_channel_edits b)) b.

Definition trim_edit_map (cap : nat) (by_seq : gmap N MsgEdit) : gmap N MsgEdit :=
  let victims := (map_to_list (filter (λ se, authorship_only se.2 = true) by_seq)).*1 in
  if (length victims <=? cap)%nat then by_seq
  else
    let overflow := (length victims - cap)%nat in
    foldl (λ m seq, delete seq m) by_seq (take overflow (sort_by_key id victims)).

Definition trim_channel_edits (channel_id : bytes) (b : Book) : Book :=
  match bk_channel_edits b !! channel_id with
  | Some by_seq =>
    set_edits (<[channel_id := trim_edit_map CHANNEL_HISTORY_CAP by_seq]> (bk_channel_edits b)) b
  | None => b
  end.

(** ** Edits and deletions *)

(** [new_text]: [None] deletes. *)
Definition apply_channel_edit (channel_id : bytes) (target_seq : N) (by_ : bytes)
    (new_text : option bytes) (b : Book) : Book :=
  match get2 (bk_channel_edits b) channel_id target_seq with
  | None => b
  | Some entry =>
    if negb (bool_decide (me_author entry = by_)) || me_deleted entry then b
    else
      let deleted := match new_text with Some _ => false | None => true end in
      let entry := mkMsgEdit (me_author entry) new_text (me_deleted entry || deleted) in
      mkBook (put2 channel_id target_seq entry (bk_channel_edits b))
        (bk_new_edits b ++ [mkChannelEdit channel_id target_seq new_text deleted])
        (bk_channel_pins b) (bk_new_pins b) (bk_channel_reactions b) (bk_new_reactions b)
        (bk_channel_history b) true
  end.

Definition take_edits (b : Book) : list ChannelEdit * Book :=
  (bk_new_edits b, mkBook (bk_channel_edits b) [] (bk_channel_pins b) (bk_new_pins b)
     (bk_channel_reactions b) (bk_new_reactions b) (bk_channel_history b) (bk_dirty b)).

Definition edit_snapshot (b : Book) : list ChannelEdit :=
  omap (λ '(cid, seq, e),
    if me_deleted e then Some (mkChannelEdit cid seq None true)
    else (λ t, mkChannelEdit cid seq (Some t) false) <$> me_text e)
    (entries2 (bk_channel_edits b)).

(** ** Pins

    [host] is the host of the channel, where the client is in it. *)
Definition may_pin (host : option bytes) (channel_id : bytes) (target_seq : N) (who : bytes)
    (b : Book) : bool :=
  let is_host := bool_decide (host = Some who) in
  let is_author :=
    bool_decide (me_author <$> get2 (bk_channel_edits b) channel_id target_seq = Some who) in
  is_host || is_author.

Definition is_pinned (channel_id : bytes) (target_seq : N) (b : Book) : bool :=
  bool_decide (is_Some (get2 (bk_channel_pins b) channel_id target_seq)).

Definition apply_channel_pin (host : option bytes) (channel_id : bytes) (target_seq : N)
    (by_ : bytes) (unpin : bool) (at_ms : N) (b : Book) : Book :=
  if negb (may_pin host channel_id target_seq by_ b) then b
  else
    let by_seq := default ∅ (bk_channel_pins b !! channel_id) in
    let announce pins :=
      mkBook (bk_channel_edits b) (bk_new_edits b) pins
        (bk_new_pins b ++ [mkChannelPin channel_id target_seq by_ at_ms (negb unpin)])
        (bk_channel_reactions b) (bk_new_reactions b) (bk_channel_history b) true in
    if unpin then
      match by_seq !! target_seq with
      | None => set_pins (<[channel_id := by_seq]> (bk_channel_pins b)) b
      | Some _ =>
        let by_seq := delete target_seq by_seq in
        announce (if bool_decide (by_seq = ∅) then delete channel_id (bk_channel_pins b)
                  else <[channel_id := by_seq]> (bk_channel_pins b))
      end
    else announce (<[channel_id := <[target_seq := mkPinInfo by_ at_ms]> by_seq]> (bk_channel_pins b)).

Definition take_pins (b : Book) : list ChannelPin * Book :=
  (bk_new_pins b, mkBook (bk_channel_edits b) (bk_new_edits b) (bk_channel_pins b) []
     (bk_channel_reactions b) (bk_new_reactions b) (bk_channel_history b) (bk_dirty b)).

Definition pin_snapshot (b : Book) : list ChannelPin :=
  (λ '(cid, seq, p), mkChannelPin cid seq (pi_by p) (pi_at_ms p) true) <$> entries2 (bk_channel_pins b).

Definition pinned_messages (channel_id : bytes) (b : Book) : list ChannelPin :=
  sort_by_key cp_target_seq
    ((λ sp, mkChannelPin channel_id sp.1 (pi_by sp.2) (pi_at_ms sp.2) true)
       <$> map_to_list (default ∅ (bk_channel_pins b !! channel_id))).

(** ** Reactions *)
Definition record_reaction (channel_id : bytes) (target_seq : N) (emoji member : bytes)
    (removed : bool) (b : Book) : Book :=
  let by_seq := default ∅ (bk_channel_reactions b !! channel_id) in
  let slot := default ∅ (by_seq !! target_seq) in
  let by_seq :=
    if removed then
      let slot :=
        match slot !! emoji with
        | Some set =>
          let set := set ∖ {[ member ]} in
          if bool_decide (set = ∅) then delete emoji slot else <[emoji := set]> slot
        | None => slot
        end in
      if bool_decide (slot = ∅) then delete target_seq by_seq else <[target_seq := slot]> by_seq
    else <[target_seq := <[emoji := default ∅ (slot !! emoji) ∪ {[ member ]}]> slot]> by_seq in
  mkBook (bk_channel_edits b) (bk_new_edits b) (bk_channel_pins b) (bk_new_pins b)
    (<[channel_id := by_seq]> (bk_channel_reactions b))
    (bk_new_reactions b ++ [mkReaction channel_id target_seq emoji member removed])
    (bk_channel_history b) true.

Definition take_reactions (b : Book) : list ChannelReaction * Book :=
  (bk_new_reactions b, mkBook (bk_channel_edits b) (bk_new_edits b) (bk_channel_pins b)
     (bk_new_pins b) (bk_channel_reactions b) [] (bk_channel_history b) (bk_dirty b)).

(** Who holds [emoji] on a message. *)
Definition reactors (m : ReactionMap) (channel_id : bytes) (seq : N) (emoji : bytes) : gset bytes :=
  default ∅ (get2 m channel_id seq ≫= (.!! emoji)).

Definition reaction_entries (m : ReactionMap) : list (bytes * N * bytes * bytes) :=
  entries2 m ≫= λ '(cid, seq, by_emoji),
    map_to_list by_emoji ≫= λ em, (λ member, (cid, seq, em.1, member)) <$> elements em.2.

Definition reaction_snapshot (b : Book) : list ChannelReaction :=
  (λ '(cid, seq, emoji, member), mkReaction cid seq emoji member false)
    <$> reaction_entries (bk_channel_reactions b).

(** ** History *)
Definition push_channel_history (e : ChannelHistoryEntry) (b : Book) : Book :=
  let h := bk_channel_history b ++ [e] in
  set_history
    (if (CHANNEL_HISTORY_CAP <? length h)%nat then drop (length h - CHANNEL_HISTORY_CAP) h else h) b.

(** ** Across a restart

    The sections of the store these fields become in [persist], and what
    [connect] makes of them. *)
Definition persist_edits (b : Book) : list StoredEdit :=
  omap (λ '(cid, seq, e),
    if bool_decide (is_Some (me_text e)) || me_deleted e
    then Some (mkStoredEdit cid seq (me_author e) (default [] (me_text e)) (me_deleted e))
    else None) (entries2 (bk_channel_edits b)).
Definition persist_pins (b : Book) : list StoredPin :=
  (λ '(cid, seq, p), mkStoredPin cid seq (pi_by p) (pi_at_ms p)) <$> entries2 (bk_channel_pins b).
Definition persist_reactions (b : Book) : list (bytes * N * bytes * bytes) :=
  reaction_entries (bk_channel_reactions b).

Definition restore_edit (m : EditMap) (se : StoredEdit) : EditMap :=
  put2 (sd_channel_id se) (sd_seq se)
    (mkMsgEdit (sd_author se)
       (if negb (sd_deleted se) && negb (bool_decide (sd_text se = [])) then Some (sd_text se) else None)
       (sd_deleted se)) m.
Definition restore_author (m : EditMap) (e : ChannelHistoryEntry) : EditMap :=
  if (ch_seq e =? 0)%N then m
  else or_insert2 (ch_channel_id e) (ch_seq e) (mkMsgEdit (ch_sender e) None false) m.
Definition restore_reaction (m : ReactionMap) (r : bytes * N * bytes * bytes) : ReactionMap :=
  let '(chan, seq, emoji, member) := r in
  let by_seq := default ∅ (m !! chan) in
  let slot := default ∅ (by_seq !! seq) in
  <[chan := <[seq := <[emoji := default ∅ (slot !! emoji) ∪ {[ member ]}]> slot]> by_seq]> m.
Definition restore_pin (m : PinMap) (sp : StoredPin) : PinMap :=
  put2 (pn_channel_id sp) (pn_seq sp) (mkPinInfo (pn_by sp) (pn_at_ms sp)) m.

Definition restore (edits : list StoredEdit) (reactions : list (bytes * N * bytes * bytes))
    (pins : list StoredPin) (history : list ChannelHistoryEntry) : Book :=
  mkBook (foldl restore_author (foldl restore_edit ∅ edits) history) []
    (foldl restore_pin ∅ pins) [] (foldl restore_reaction ∅ reactions) [] history false.
