(* ===== verification/ClientMessagesProofs.v ===== *)
(** * Lemmas on the book of channel messages

    What trimming evicts, how authorship, edits and pins move under any run of
    operations, reactions as sets, and what a restart keeps. *)

From S2P Require Import Prelude Utf8 Enc Crypto Channel LocalStore ClientMessages.

(** ** Trimming *)

Definition unchanged (by_seq : gmap N MsgEdit) : list N :=
  (map_to_list (filter (λ se, authorship_only se.2 = true) by_seq)).*1.

Lemma elem_of_unchanged by_seq seq :
  seq ∈ unchanged by_seq ↔ ∃ e, by_seq !! seq = Some e ∧ authorship_only e = true.
Proof.
  unfold unchanged. rewrite list_elem_of_fmap. split.
  - intros ([s e] & -> & He). apply elem_of_map_to_list, map_lookup_filter_Some in He as [? ?]. eauto.
  - intros (e & ? & ?). exists (seq, e). split; [done|].
    by apply elem_of_map_to_list, map_lookup_filter_Some.
Qed.

Lemma NoDup_unchanged by_seq : NoDup (unchanged by_seq).
Proof. apply NoDup_fst_map_to_list. Qed.

Lemma lookup_foldl_delete {A} (l : list N) (m : gmap N A) k :
  foldl (λ m s, delete s m) m l !! k = if decide (k ∈ l) then None else m !! k.
Proof.
  revert m. induction l as [|s l IH]; intros m; cbn [foldl]; [by rewrite decide_False by set_solver|].
  rewrite IH. destruct (decide (k ∈ l)); [by rewrite decide_True by set_solver|].
  destruct (decide (k = s)) as [->|].
  - by rewrite lookup_delete_eq, decide_True by set_solver.
  - by rewrite lookup_delete_ne, decide_False by set_solver.
Qed.

(** Splitting a sorted list without duplicates separates small from large. *)
Lemma sorted_take_drop (l : list N) n x y :
  StronglySorted (λ a b, a ≤ b)%N l → NoDup l → x ∈ take n l → y ∈ drop n l → (x < y)%N.
Proof.
  revert n. induction l as [|z l IH]; intros n Hs Hnd Hx Hy; [by destruct n; simpl in Hx; set_solver|].
  inversion_clear Hs as [|? ? Hs' Hz]. apply list.NoDup_cons in Hnd as [Hzl Hnd].
  destruct n as [|n]; simpl in *; [by apply not_elem_of_nil in Hx|].
  assert (y ∈ l) as Hyl by (rewrite <- (take_drop n l); apply elem_of_app; by right).
  apply elem_of_cons in Hx as [->|Hx].
  - rewrite List.Forall_forall in Hz. specialize (Hz y (proj1 (list_elem_of_In _ _) Hyl)).
    assert (y ≠ z) by congruence. lia.
  - by apply (IH n).
Qed.

Lemma trim_edit_map_spec cap by_seq :
  let out := trim_edit_map cap by_seq in
  out ⊆ by_seq ∧
  (∀ seq e, by_seq !! seq = Some e → authorship_only e = false → out !! seq = Some e) ∧
  length (unchanged out) = (length (unchanged by_seq) `min` cap)%nat ∧
  (∀ old new e, by_seq !! old = Some e → out !! old = None → new ∈ unchanged out → (old < new)%N).
Proof.
  unfold trim_edit_map. fold (unchanged by_seq).
  destruct (_ <=? cap)%nat eqn:E; [apply Nat.leb_le in E|apply Nat.leb_gt in E]; cbn zeta.
  { split_and!; [done|done|lia|congruence]. }
  set (n := (length (unchanged by_seq) - cap)%nat).
  set (sorted := sort_by_key id (unchanged by_seq)).
  assert (Hperm : sorted ≡ₚ unchanged by_seq) by apply sort_by_key_perm.
  assert (Hnd : NoDup sorted) by (rewrite Hperm; apply NoDup_unchanged).
  assert (Hlook := lookup_foldl_delete (take n sorted) by_seq).
  set (out := foldl _ _ _) in *.
  assert (Hun : unchanged out ≡ₚ drop n sorted).
  { assert (Hnd' : NoDup (drop n sorted)).
    { rewrite <- (take_drop n sorted) in Hnd. by apply list.NoDup_app in Hnd as (_ & _ & ?). }
    apply NoDup_Permutation; [apply NoDup_unchanged|done|]. intros s.
    rewrite elem_of_unchanged, Hlook.
    rewrite <- (take_drop n sorted) in Hperm, Hnd. apply list.NoDup_app in Hnd as (_ & Hdis & _).
    assert (Hs : s ∈ unchanged by_seq ↔ s ∈ take n sorted ∨ s ∈ drop n sorted)
      by (rewrite <- Hperm; apply elem_of_app).
    rewrite elem_of_unchanged in Hs. destruct (decide (s ∈ take n sorted)) as [Hin|Hin].
    - split; [by intros (? & [=] & _)|]. intros Hd. by destruct (Hdis _ Hin).
    - rewrite Hs. naive_solver. }
  split_and!.
  - intros s. rewrite Hlook. destruct (decide _); [|by destruct (by_seq !! s)].
    by destruct (by_seq !! s).
  - intros s e Hs He. rewrite Hlook, decide_False; [done|]. intros Hin.
    assert (s ∈ unchanged by_seq) as Hu.
    { rewrite <- Hperm, <- (take_drop n sorted). apply elem_of_app. by left. }
    apply elem_of_unchanged in Hu as (e' & ? & ?). congruence.
  - rewrite Hun, length_drop, Hperm. lia.
  - intros old new e Hold Hnone Hnew. rewrite Hlook in Hnone.
    destruct (decide (old ∈ take n sorted)) as [Hin|]; [|congruence]. rewrite Hun in Hnew.
    apply (sorted_take_drop sorted n); try done. apply (sort_by_key_sorted id).
Qed.

(** ** Runs of operations *)

(** What an operation on the book can be; [OpPin] carries the host the client
    knows for the channel. *)
Inductive BookOp : Type :=
  | OpSeen (channel_id : bytes) (seq : N) (author : bytes)
  | OpEdit (channel_id : bytes) (seq : N) (by_ : bytes) (new_text : option bytes)
  | OpPin (host : option bytes) (channel_id : bytes) (seq : N) (by_ : bytes) (unpin : bool) (at_ms : N)
  | OpReact (channel_id : bytes) (seq : N) (emoji member : bytes) (removed : bool)
  | OpHistory (e : ChannelHistoryEntry)
  | OpTrim (channel_id : bytes)
  | OpDirty.

Definition book_apply (op : BookOp) (b : Book) : Book :=
  match op with
  | OpSeen cid seq who => record_author cid seq who b
  | OpEdit cid seq by_ t => apply_channel_edit cid seq by_ t b
  | OpPin host cid seq by_ unpin at_ms => apply_channel_pin host cid seq by_ unpin at_ms b
  | OpReact cid seq emoji member removed => record_reaction cid seq emoji member removed b
  | OpHistory e => push_channel_history e b
  | OpTrim cid => trim_channel_edits cid b
  | OpDirty => set_dirty b
  end.

Definition book_run (ops : list BookOp) (b : Book) : Book := foldl (flip book_apply) b ops.

Lemma book_run_app ops ops' b : book_run (ops ++ ops') b = book_run ops' (book_run ops b).
Proof. apply foldl_app. Qed.

Definition edit_of (b : Book) (cid : bytes) (seq : N) : option MsgEdit :=
  get2 (bk_channel_edits b) cid seq.

Lemma get2_trim b cid cid' seq :
  get2 (bk_channel_edits (trim_channel_edits cid b)) cid' seq =
    if decide (cid' = cid) then bk_channel_edits b !! cid ≫= λ m, trim_edit_map CHANNEL_HISTORY_CAP m !! seq
    else edit_of b cid' seq.
Proof.
  unfold trim_channel_edits, edit_of, get2. destruct (bk_channel_edits b !! cid) as [m|] eqn:E.
  - cbn [set_edits bk_channel_edits]. destruct (decide (cid' = cid)) as [->|].
    + by rewrite lookup_insert_eq.
    + by rewrite lookup_insert_ne.
  - destruct (decide (cid' = cid)) as [->|]; [by rewrite E|done].
Qed.

Lemma edits_of_pin host cid seq by_ unpin at_ms b :
  bk_channel_edits (apply_channel_pin host cid seq by_ unpin at_ms b) = bk_channel_edits b.
Proof. unfold apply_channel_pin. repeat case_match; done. Qed.

(** One operation leaves an edited or deleted message as it is, unless it is
    an edit by the message's author; a deleted one it always leaves. *)
Lemma edit_kept op b cid seq e :
  edit_of b cid seq = Some e → authorship_only e = false →
  (me_deleted e = true ∨ ∀ t, op ≠ OpEdit cid seq (me_author e) t) →
  edit_of (book_apply op b) cid seq = Some e.
Proof.
  intros He Hreal Hop. destruct op; cbn [book_apply].
  - unfold edit_of, record_author. cbn [set_edits bk_channel_edits]. rewrite get2_or_insert2.
    case_decide as Hd; [|done]. destruct Hd as [-> ->]. unfold edit_of in He. by rewrite He.
  - unfold apply_channel_edit. destruct (get2 _ channel_id seq0) as [entry|] eqn:Eg; [|done].
    destruct (negb _ || _) eqn:Ec; [done|]. apply orb_false_iff in Ec as [Ea Ed].
    apply negb_false_iff, bool_decide_eq_true in Ea.
    unfold edit_of. cbn [bk_channel_edits]. rewrite get2_put2. case_decide as Hd; [|done].
    destruct Hd as [-> ->]. unfold edit_of in He. rewrite He in Eg. injection Eg as ->.
    destruct Hop as [Hdel|Hop]; [congruence|]. by destruct (Hop new_text); subst.
  - unfold edit_of. by rewrite edits_of_pin.
  - done.
  - unfold push_channel_history. done.
  - unfold edit_of. rewrite get2_trim. case_decide as Hd; [|done]. subst.
    unfold edit_of, get2 in He. destruct (bk_channel_edits b !! channel_id) as [m|]; [|done]. simpl in *.
    by apply trim_edit_map_spec.
  - done.
Qed.

(** An entry that is only an authorship record keeps its author as long as it
    is there without interruption; what replaces it at once is an edit by
    that author. *)
Lemma edit_step op b cid seq e :
  edit_of b cid seq = Some e →
  edit_of (book_apply op b) cid seq = None ∧ authorship_only e = true ∧ op = OpTrim cid ∨
  edit_of (book_apply op b) cid seq = Some e ∨
  (∃ t, op = OpEdit cid seq (me_author e) t ∧ me_deleted e = false ∧
     edit_of (book_apply op b) cid seq =
       Some (mkMsgEdit (me_author e) t (bool_decide (t = None)))).
Proof.
  intros He. destruct op; cbn [book_apply]; try by right; left.
  - right; left. unfold edit_of, record_author. cbn [set_edits bk_channel_edits]. rewrite get2_or_insert2.
    case_decide as Hd; [|done]. destruct Hd as [-> ->]. unfold edit_of in He. by rewrite He.
  - unfold apply_channel_edit. destruct (get2 _ channel_id seq0) as [entry|] eqn:Eg; [|by right; left].
    destruct (negb _ || _) eqn:Ec; [by right; left|]. apply orb_false_iff in Ec as [Ea Ed].
    apply negb_false_iff, bool_decide_eq_true in Ea.
    unfold edit_of. cbn [bk_channel_edits]. rewrite get2_put2. case_decide as Hd; [|by right; left].
    destruct Hd as [-> ->]. unfold edit_of in He. rewrite He in Eg. injection Eg as ->. subst by_.
    right; right. exists new_text. split_and!; [done..|]. rewrite Ed. simpl.
    by destruct new_text.
  - right; left. unfold edit_of. by rewrite edits_of_pin.
  - unfold edit_of. rewrite get2_trim. case_decide as Hd; [|by right; left]. subst.
    unfold edit_of, get2 in He. destruct (bk_channel_edits b !! channel_id) as [m|]; [|done]. simpl in *.
    destruct (trim_edit_map_spec CHANNEL_HISTORY_CAP m) as (Hsub & Hkeep & _).
    destruct (trim_edit_map CHANNEL_HISTORY_CAP m !! seq) as [e'|] eqn:Et.
    + right; left. f_equal. pose proof (lookup_weaken _ _ _ _ Et Hsub). congruence.
    + left. split; [done|]. split; [|done]. destruct (authorship_only e) eqn:Ea; [done|].
      rewrite (Hkeep _ _ He Ea) in Et. done.
Qed.

Lemma edits_kept ops b cid seq e :
  edit_of b cid seq = Some e → authorship_only e = false →
  (me_deleted e = true ∨ ∀ t, OpEdit cid seq (me_author e) t ∉ ops) →
  edit_of (book_run ops b) cid seq = Some e.
Proof.
  revert b. induction ops as [|op ops IH]; intros b He Hr Hops; [done|]. cbn [book_run foldl flip].
  apply IH; [|done|].
  - apply edit_kept; [done..|]. destruct Hops as [|Hops]; [by left|right].
    intros t ->. apply (Hops t). by left.
  - destruct Hops as [|Hops]; [by left|right]. intros t Hin. apply (Hops t). by right.
Qed.

(** Where the entry of a message comes from: it was there, or the operation
    recorded its author, or edited it as that author. *)
Lemma edit_origin op b cid seq e' :
  edit_of (book_apply op b) cid seq = Some e' →
  edit_of b cid seq = Some e' ∨
  (∃ who, op = OpSeen cid seq who ∧ edit_of b cid seq = None ∧ e' = mkMsgEdit who None false) ∨
  (∃ e t, op = OpEdit cid seq (me_author e) t ∧ edit_of b cid seq = Some e ∧ me_deleted e = false ∧
     e' = mkMsgEdit (me_author e) t (bool_decide (t = None))).
Proof.
  intros He'. destruct (edit_of b cid seq) as [e|] eqn:He.
  - destruct (edit_step op b cid seq e He) as [(Hn & _)|[Hs|(t & -> & Hd & Hs)]]; [congruence|left; congruence|].
    right; right. exists e, t. split_and!; [done..|congruence].
  - right; left. destruct op; cbn [book_apply] in He'; try (change (edit_of b cid seq = Some e') in He'; congruence).
    + unfold edit_of, record_author in He'. cbn [set_edits bk_channel_edits] in He'. rewrite get2_or_insert2 in He'.
      unfold edit_of in He. destruct (decide _) as [[-> ->]|]; [|congruence]. rewrite He in He'. injection He' as <-.
      by exists author.
    + unfold apply_channel_edit in He'. destruct (get2 _ channel_id seq0) as [entry|] eqn:Eg; [|congruence].
      destruct (negb _ || _); [congruence|]. unfold edit_of in He'. cbn [bk_channel_edits] in He'.
      rewrite get2_put2 in He'. unfold edit_of in He. destruct (decide _) as [[-> ->]|]; congruence.
    + unfold edit_of in He'. rewrite edits_of_pin in He'. unfold edit_of in He. congruence.
    + unfold edit_of in He'. rewrite get2_trim in He'. destruct (decide _) as [->|]; [|congruence].
      unfold edit_of, get2 in He. destruct (bk_channel_edits b !! channel_id) as [m|]; [|done]. simpl in *.
      destruct (trim_edit_map_spec CHANNEL_HISTORY_CAP m) as (Hsub & _).
      pose proof (lookup_weaken _ _ _ _ He' Hsub). congruence.
Qed.

(** An operation that only records authors, or changes no entry. *)
Definition only_seen (op : BookOp) : Prop := match op with OpSeen _ _ _ | OpDirty => True | _ => False end.
(** An operation that records no author. *)
Definition records_none (op : BookOp) : Prop := match op with OpSeen _ _ _ => False | _ => True end.

Lemma seen_origin ops b cid seq e :
  Forall only_seen ops → edit_of (book_run ops b) cid seq = Some e →
  edit_of b cid seq = Some e ∨
  edit_of b cid seq = None ∧ ∃ who, OpSeen cid seq who ∈ ops ∧ e = mkMsgEdit who None false.
Proof.
  intros Ho. revert b. induction Ho as [|op ops Hop Ho IH]; intros b; [by left|]. cbn [book_run foldl flip].
  intros [He|(Hn & who & Hin & ->)]%IH.
  - apply edit_origin in He as [|[(who & -> & Hn & ->)|(e0 & t & -> & _)]]; [by left| |done].
    right. split; [done|]. exists who. split; [by left|done].
  - right. split; [|exists who; split; [by right|done]].
    destruct (edit_of b cid seq) as [e|] eqn:He; [|done].
    destruct (edit_step op b cid seq e He) as [(_ & _ & ->)|[?|(t & -> & _)]]; [done|congruence|done].
Qed.

Lemma edits_origin ops b cid seq e' :
  Forall records_none ops → edit_of (book_run ops b) cid seq = Some e' →
  ∃ e, edit_of b cid seq = Some e ∧ me_author e = me_author e' ∧
    (e' = e ∨ me_deleted e = false ∧ me_deleted e' = bool_decide (me_text e' = None) ∧
              OpEdit cid seq (me_author e') (me_text e') ∈ ops).
Proof.
  intros Ho. revert b. induction Ho as [|op ops Hop Ho IH]; intros b; [by exists e'; auto|]. cbn [book_run foldl flip].
  intros (e1 & He1 & Ha & Hcase)%IH.
  apply edit_origin in He1 as [He|[(who & -> & _)|(e & t & -> & He & Hd & ->)]]; [|done|].
  - exists e1. split_and!; [done..|]. destruct Hcase as [->|(? & ? & ?)]; [by left|right]. split_and!; [done..|by right].
  - exists e. split_and!; [done..|]. right. destruct Hcase as [->|(_ & ? & ?)].
    + split_and!; [done..|by left].
    + split_and!; [done..|by right].
Qed.

(** ** Pins *)

Definition pin_of (b : Book) (cid : bytes) (seq : N) : option PinInfo :=
  get2 (bk_channel_pins b) cid seq.

Lemma pin_refused host cid seq by_ unpin at_ms b :
  may_pin host cid seq by_ b = false → apply_channel_pin host cid seq by_ unpin at_ms b = b.
Proof. intros E. unfold apply_channel_pin. by rewrite E. Qed.

Lemma pin_applied host cid seq by_ unpin at_ms b cid' seq' :
  may_pin host cid seq by_ b = true →
  pin_of (apply_channel_pin host cid seq by_ unpin at_ms b) cid' seq' =
    if decide (cid' = cid ∧ seq' = seq)
    then if unpin then None else Some (mkPinInfo by_ at_ms)
    else pin_of b cid' seq'.
Proof.
  intros E. unfold apply_channel_pin, pin_of. rewrite E. cbn [negb]. destruct unpin.
  2: { cbn [bk_channel_pins]. fold (put2 cid seq (mkPinInfo by_ at_ms) (bk_channel_pins b)).
       apply get2_put2. }
  unfold get2. destruct (default ∅ (bk_channel_pins b !! cid) !! seq) as [p|] eqn:Ep.
  - cbn [bk_channel_pins]. destruct (decide (cid' = cid)) as [->|Hc].
    + destruct (bk_channel_pins b !! cid) as [m|]; [|done]. simpl in *.
      case_bool_decide as Hempty.
      * rewrite lookup_delete_eq. simpl. destruct (decide _) as [|Hs]; [done|].
        assert (seq' ≠ seq) as Hne by naive_solver.
        rewrite <- (lookup_delete_ne m seq seq') by done. by rewrite Hempty.
      * rewrite lookup_insert_eq. simpl. destruct (decide (seq' = seq)) as [->|].
        -- by rewrite lookup_delete_eq, decide_True.
        -- by rewrite lookup_delete_ne, decide_False by naive_solver.
    + rewrite decide_False by naive_solver. case_bool_decide; [by rewrite lookup_delete_ne|by rewrite lookup_insert_ne].
  - cbn [set_pins bk_channel_pins]. destruct (decide (cid' = cid)) as [->|Hc].
    + rewrite lookup_insert_eq. simpl. destruct (decide (seq' = seq)) as [->|].
      * by rewrite decide_True.
      * rewrite decide_False by naive_solver. by destruct (bk_channel_pins b !! cid).
    + by rewrite lookup_insert_ne, decide_False by naive_solver.
Qed.

(** ** Reactions *)

Lemma reactors_recorded cid seq emoji member removed b cid' seq' emoji' :
  reactors (bk_channel_reactions (record_reaction cid seq emoji member removed b)) cid' seq' emoji' =
    let before := reactors (bk_channel_reactions b) cid' seq' emoji' in
    if decide (cid' = cid ∧ seq' = seq ∧ emoji' = emoji)
    then if removed then before ∖ {[ member ]} else before ∪ {[ member ]}
    else before.
Proof.
  unfold reactors, get2, record_reaction. cbn [bk_channel_reactions].
  destruct (decide (cid' = cid)) as [->|]; [|by rewrite lookup_insert_ne, decide_False by naive_solver].
  rewrite lookup_insert_eq. cbn [option_bind mbind].
  set (by_seq := default ∅ (bk_channel_reactions b !! cid)).
  assert ((bk_channel_reactions b !! cid ≫= (.!! seq')) = by_seq !! seq') as Hb
    by (unfold by_seq; by destruct (bk_channel_reactions b !! cid)).
  rewrite Hb. clearbody by_seq. clear Hb.
  destruct (decide (seq' = seq)) as [->|Hs].
  2: { rewrite decide_False by naive_solver. destruct removed; [|by rewrite lookup_insert_ne].
       case_bool_decide; [by rewrite lookup_delete_ne|by rewrite lookup_insert_ne]. }
  set (slot := default ∅ (by_seq !! seq)).
  assert ((by_seq !! seq ≫= (.!! emoji')) = slot !! emoji') as Hb
    by (unfold slot; by destruct (by_seq !! seq)).
  rewrite Hb. clearbody slot. clear Hb. destruct removed.
  - set (slot' := match slot !! emoji with Some _ => _ | None => _ end).
    transitivity (default ∅ (slot' !! emoji')).
    { case_bool_decide as He; [|by rewrite lookup_insert_eq]. rewrite lookup_delete_eq. by rewrite He. }
    unfold slot'. destruct (slot !! emoji) as [set|] eqn:Es.
    + destruct (decide (emoji' = emoji)) as [->|].
      * rewrite decide_True, Es by done. simpl. case_bool_decide as He.
        -- by rewrite lookup_delete_eq.
        -- by rewrite lookup_insert_eq.
      * rewrite decide_False by naive_solver.
        case_bool_decide; [by rewrite lookup_delete_ne|by rewrite lookup_insert_ne].
    + case_decide as Hd; [|done]. destruct Hd as (_ & _ & ->). rewrite Es. set_solver.
  - rewrite lookup_insert_eq. cbn [option_bind mbind]. destruct (decide (emoji' = emoji)) as [->|].
    + by rewrite lookup_insert_eq, decide_True.
    + by rewrite lookup_insert_ne, decide_False by naive_solver.
Qed.

Lemma elem_of_reaction_entries m cid seq emoji member :
  (cid, seq, emoji, member) ∈ reaction_entries m ↔ member ∈ reactors m cid seq emoji.
Proof.
  unfold reaction_entries, reactors. rewrite list_elem_of_bind. split.
  - intros ([[c s] by_emoji] & Hin & Hm). apply list_elem_of_bind in Hin as ([e set] & Hin & He).
    apply list_elem_of_fmap in Hin as (x & [= -> -> -> ->] & Hx). apply elem_of_elements in Hx.
    apply elem_of_map_to_list in He. apply elem_of_entries2 in Hm. rewrite Hm. simpl. by rewrite He.
  - destruct (get2 m cid seq) as [by_emoji|] eqn:Eg; simpl; [|set_solver].
    destruct (by_emoji !! emoji) as [set|] eqn:Ee; simpl; [|set_solver]. intros Hm.
    exists (cid, seq, by_emoji). split; [|by apply elem_of_entries2].
    apply list_elem_of_bind. exists (emoji, set). split; [|by apply elem_of_map_to_list].
    apply list_elem_of_fmap. exists member. by rewrite elem_of_elements.
Qed.

Lemma reactors_restored l m cid seq emoji member :
  member ∈ reactors (foldl restore_reaction m l) cid seq emoji ↔
  member ∈ reactors m cid seq emoji ∨ (cid, seq, emoji, member) ∈ l.
Proof.
  revert m. induction l as [|[[[c s] e] x] l IH]; intros m; cbn [foldl]; [set_solver|].
  rewrite IH, elem_of_cons.
  assert (reactors (restore_reaction m (c, s, e, x)) cid seq emoji =
    if decide (cid = c ∧ seq = s ∧ emoji = e) then reactors m cid seq emoji ∪ {[ x ]}
    else reactors m cid seq emoji) as ->.
  { pose proof (reactors_recorded c s e x false (mkBook ∅ [] ∅ [] m [] [] false) cid seq emoji) as Hr.
    exact Hr. }
  case_decide as Hd; [destruct Hd as (-> & -> & ->)|]; set_solver.
Qed.

(** ** History *)

Lemma history_pushed e b :
  bk_channel_history (push_channel_history e b) =
    drop (S (length (bk_channel_history b)) - CHANNEL_HISTORY_CAP) (bk_channel_history b ++ [e]).
Proof.
  unfold push_channel_history. cbn [set_history bk_channel_history]. rewrite length_app. cbn [length].
  replace (length (bk_channel_history b) + 1)%nat with (S (length (bk_channel_history b))) by lia.
  destruct (_ <? _)%nat eqn:E; [done|]. apply Nat.ltb_ge in E.
  by replace (S (length (bk_channel_history b)) - CHANNEL_HISTORY_CAP)%nat with 0%nat by lia.
Qed.

(** ** Restart *)

Lemma get2_foldl_put2 {K A B} `{Countable K} (f : gmap bytes (gmap K A) → B → gmap bytes (gmap K A))
    (ka : B → bytes) (kb : B → K) (val : B → A) l m a b :
  (∀ m x, f m x = put2 (ka x) (kb x) (val x) m) →
  (∃ x, x ∈ l ∧ ka x = a ∧ kb x = b ∧ get2 (foldl f m l) a b = Some (val x)) ∨
  ((∀ x, x ∈ l → ¬ (ka x = a ∧ kb x = b)) ∧ get2 (foldl f m l) a b = get2 m a b).
Proof.
  intros Hf. revert m. induction l as [|y l IH]; intros m; cbn [foldl].
  { right. split; [|done]. intros x Hx. by apply not_elem_of_nil in Hx. }
  destruct (IH (f m y)) as [(x & Hx & Hk & Hk' & Hg)|[Hn Hg]].
  - left. exists x. split_and!; [by right|done..].
  - rewrite Hf, get2_put2 in Hg. case_decide as Hd.
    + destruct Hd as [-> ->]. left. exists y. split_and!; [by left|done..|]. by rewrite Hf.
    + right. rewrite Hf. split; [|done].
      intros x [->|Hx]%elem_of_cons; [naive_solver|by apply Hn].
Qed.

(** The sender of the first history line with that number, the author a
    restart assumes where no edit is stored. *)
Definition history_author (h : list ChannelHistoryEntry) (cid : bytes) (seq : N) : option bytes :=
  ch_sender <$> List.find (λ e, bool_decide (ch_channel_id e = cid) && (ch_seq e =? seq)%N
                                && negb (ch_seq e =? 0)%N) h.

Lemma get2_restore_author h m cid seq :
  get2 (foldl restore_author m h) cid seq =
    match get2 m cid seq with
    | Some e => Some e
    | None => (λ a, mkMsgEdit a None false) <$> history_author h cid seq
    end.
Proof.
  unfold history_author. revert m. induction h as [|e h IH]; intros m; cbn [foldl List.find].
  { by destruct (get2 m cid seq). }
  rewrite IH. unfold restore_author. destruct (ch_seq e =? 0)%N; [by rewrite andb_false_r|].
  rewrite get2_or_insert2, andb_true_r. case_decide as Hd.
  - destruct Hd as [-> ->]. rewrite bool_decide_eq_true_2, N.eqb_refl by done.
    by destruct (get2 m _ _).
  - destruct (bool_decide _ && _) eqn:E; [|done].
    apply andb_true_iff in E as [E1%bool_decide_eq_true E2%N.eqb_eq]. naive_solver.
Qed.

Lemma elem_of_persist_edits b se :
  se ∈ persist_edits b ↔ ∃ e, edit_of b (sd_channel_id se) (sd_seq se) = Some e ∧
    authorship_only e = false ∧
    se = mkStoredEdit (sd_channel_id se) (sd_seq se) (me_author e) (default [] (me_text e)) (me_deleted e).
Proof.
  unfold persist_edits. rewrite list_elem_of_omap. split.
  - intros ([[cid seq] e] & Hin & He). apply elem_of_entries2 in Hin.
    destruct (_ || _) eqn:Ec in He; [|done]. injection He as <-. exists e. split_and!; [done| |done].
    unfold authorship_only. destruct (me_text e); [done|]. destruct (me_deleted e); [done|].
    rewrite bool_decide_eq_false_2 in Ec; [done|]. by intros [? [=]].
  - intros (e & He & Ha & ->). cbn [sd_channel_id sd_seq] in *. exists (sd_channel_id se, sd_seq se, e).
    split; [by apply elem_of_entries2|]. unfold authorship_only in Ha.
    destruct (me_text e); [done|]. destruct (me_deleted e); [by rewrite orb_true_r|done].
Qed.

Definition restored_edit (e : MsgEdit) : MsgEdit :=
  mkMsgEdit (me_author e)
    (if me_deleted e || bool_decide (me_text e = Some []) then None else me_text e) (me_deleted e).

Lemma edits_restored b es rs ps cid seq :
  es ≡ₚ persist_edits b →
  edit_of (restore es rs ps (bk_channel_history b)) cid seq =
    match edit_of b cid seq with
    | Some e => if authorship_only e
                then (λ a, mkMsgEdit a None false) <$> history_author (bk_channel_history b) cid seq
                else Some (restored_edit e)
    | None => (λ a, mkMsgEdit a None false) <$> history_author (bk_channel_history b) cid seq
    end.
Proof.
  intros Hp. unfold edit_of at 1, restore. cbn [bk_channel_edits]. rewrite get2_restore_author.
  destruct (get2_foldl_put2 restore_edit sd_channel_id sd_seq
    (λ se, mkMsgEdit (sd_author se)
       (if negb (sd_deleted se) && negb (bool_decide (sd_text se = [])) then Some (sd_text se) else None)
       (sd_deleted se)) es ∅ cid seq) as [(se & Hin & <- & <- & Hg)|[Hn Hg]]; [done| |].
  - rewrite Hg. rewrite Hp in Hin. apply elem_of_persist_edits in Hin as (e & He & Ha & Hse).
    rewrite He, Ha. f_equal. rewrite Hse. cbn [sd_author sd_text sd_deleted]. unfold restored_edit. f_equal.
    destruct (me_text e) as [t|]; cbn [default id]; [|by destruct (me_deleted e)].
    destruct (me_deleted e); cbn [negb andb orb]; [done|].
    destruct (decide (t = [])) as [->|]; [done|].
    by rewrite !bool_decide_eq_false_2 by congruence.
  - rewrite Hg. change (get2 ∅ cid seq) with (@None MsgEdit).
    destruct (edit_of b cid seq) as [e|] eqn:He; [|done]. destruct (authorship_only e) eqn:Ha; [done|].
    exfalso. apply (Hn (mkStoredEdit cid seq (me_author e) (default [] (me_text e)) (me_deleted e))); [|done].
    rewrite Hp. apply elem_of_persist_edits. eauto.
Qed.

Lemma pins_restored b es rs ps cid seq :
  ps ≡ₚ persist_pins b →
  pin_of (restore es rs ps (bk_channel_history b)) cid seq = pin_of b cid seq.
Proof.
  intros Hp. unfold pin_of at 1, restore. cbn [bk_channel_pins].
  destruct (get2_foldl_put2 restore_pin pn_channel_id pn_seq (λ sp, mkPinInfo (pn_by sp) (pn_at_ms sp))
    ps ∅ cid seq) as [(sp & Hin & <- & <- & ->)|[Hn ->]]; [done| |].
  - rewrite Hp in Hin. unfold persist_pins in Hin.
    apply list_elem_of_fmap in Hin as ([[c s] p] & -> & Hin). apply elem_of_entries2 in Hin.
    symmetry. etrans; [exact Hin|]. by destruct p.
  - change (get2 ∅ cid seq) with (@None PinInfo).
    destruct (pin_of b cid seq) as [p|] eqn:Hpin; [|done]. exfalso.
    apply (Hn (mkStoredPin cid seq (pi_by p) (pi_at_ms p))); [|done]. rewrite Hp.
    apply list_elem_of_fmap. exists (cid, seq, p). split; [done|]. by apply elem_of_entries2.
Qed.

Lemma reactions_restored b es rs ps cid seq emoji :
  rs ≡ₚ persist_reactions b →
  reactors (bk_channel_reactions (restore es rs ps (bk_channel_history b))) cid seq emoji =
    reactors (bk_channel_reactions b) cid seq emoji.
Proof.
  intros Hp. apply set_eq. intros x. cbn [restore bk_channel_reactions].
  rewrite reactors_restored, Hp. unfold persist_reactions. rewrite elem_of_reaction_entries.
  unfold reactors at 1. change (get2 ∅ cid seq) with (@None (gmap bytes (gset bytes))). set_solver.
Qed.
