(* ===== verification/ClientChannels.v ===== *)
(** * The client's side of channels
    ([crates/dante-core/src/engine.rs])

    Sending to a channel, and [poll_channels]: the log of every channel is
    fetched, merged with what was heard over gossip, decrypted by MLS, checked
    against the roster, the block list and the server's roles, and folded into
    the book of messages.  What an operation only reads of the engine is a
    [View]; the relay is a [Connection].  The client is built with its default
    features, so gossip is on. *)

From S2P Require Import Prelude Utf8 Enc Crypto ProtoRecord IdentityRecords Ledger X3dh Mailbox Wire Content Roles Channel LocalStore Mls Sync ClientMessages.

(** ** Padding *)
Definition CHANNEL_PAD_LADDER : list N := [64; 256; 1024; 4096; 16384; 65536; 262144; 1048576]%N.

Definition pad_channel (pt : bytes) : bytes :=
  let need := (4 + len pt)%N in
  let bucket := default need (List.find (λ b, (need <=? b)%N) CHANNEL_PAD_LADDER) in
  let out := be 4 (as_u32 (len pt)) ++ pt in
  (* [out.resize(bucket, 0)] *)
  take (N.to_nat bucket) out ++ replicate (N.to_nat bucket - length out) x00.

Definition unpad_channel (b : bytes) : option bytes :=
  if (length b <? 4)%nat then None
  else
    let n := N.to_nat (of_be (take 4 b)) in
    if (length b <? 4 + n)%nat then None else Some (take n (drop 4 b)).

(** ** State *)
Section channels.
Context `{CryptoPrims, Openmls}.

Record ChannelSession := mkChannelSession {
  cs_info : ChannelInfo;
  cs_mls : Member;
  cs_roster : gset bytes;
  cs_last_seq : N;
  cs_removed : gmap bytes N;
  cs_log_key : option bytes;
}.

Definition cs_set_mls (m : Member) (c : ChannelSession) : ChannelSession :=
  mkChannelSession (cs_info c) m (cs_roster c) (cs_last_seq c) (cs_removed c) (cs_log_key c).
Definition cs_set_last_seq (n : N) (c : ChannelSession) : ChannelSession :=
  mkChannelSession (cs_info c) (cs_mls c) (cs_roster c) n (cs_removed c) (cs_log_key c).

Definition member_ids (m : Member) : list bytes :=
  omap (λ '(_, id), if (length id =? 32)%nat then Some id else None) (members m).

Definition resync_roster (self : ChannelSession) : ChannelSession :=
  mkChannelSession (cs_info self) (cs_mls self) (list_to_set (member_ids (cs_mls self)))
    (cs_last_seq self) (cs_removed self) (cs_log_key self).

Definition leaf_of (member : bytes) (self : ChannelSession) : option N :=
  fst <$> List.find (λ li, bool_decide (snd li = member)) (members (cs_mls self)).

(** What is only read here. *)
Record View := mkView {
  vw_identity : Identity;
  vw_ledger : Ledger MemoryStore;
  vw_blocked : gset bytes;
  vw_server_policies : gmap bytes ServerPolicy;
}.

Definition my_member_id (v : View) : bytes := sha256 (identity_sign_public (vw_identity v)).

Record EngineChannels := mkEngineChannels {
  ec_channels : gmap bytes ChannelSession;
  ec_channel_gossip : gmap bytes (list (N * bytes));
  ec_gossip_shown : gset (bytes * N);
  ec_evicted_channels : list (bytes * bytes * bytes);
  ec_book : Book;
}.

Definition set_channels (m : gmap bytes ChannelSession) (c : EngineChannels) : EngineChannels :=
  mkEngineChannels m (ec_channel_gossip c) (ec_gossip_shown c) (ec_evicted_channels c) (ec_book c).
Definition set_channel (id : bytes) (ch : ChannelSession) (c : EngineChannels) : EngineChannels :=
  set_channels (<[id := ch]> (ec_channels c)) c.
Definition set_gossip (g : gmap bytes (list (N * bytes))) (c : EngineChannels) : EngineChannels :=
  mkEngineChannels (ec_channels c) g (ec_gossip_shown c) (ec_evicted_channels c) (ec_book c).
Definition set_shown (s : gset (bytes * N)) (c : EngineChannels) : EngineChannels :=
  mkEngineChannels (ec_channels c) (ec_channel_gossip c) s (ec_evicted_channels c) (ec_book c).
Definition on_book (f : Book → Book) (c : EngineChannels) : EngineChannels :=
  mkEngineChannels (ec_channels c) (ec_channel_gossip c) (ec_gossip_shown c) (ec_evicted_channels c)
    (f (ec_book c)).

Definition host_of (id : bytes) (c : EngineChannels) : option bytes :=
  ci_host_id ∘ cs_info <$> ec_channels c !! id.

(** ** Sending *)
Section sending.
Context {W : Type} `{Connection W}.
Context (debug : string → Response → bytes) (show_mls : MlsError → string).

(** [nonce] is what [wrap] draws. *)
Definition wrap_channel_frame (channel_id : bytes) (tag : byte) (payload nonce : bytes)
    (c : EngineChannels) : bytes :=
  let framed := frame tag payload in
  match ec_channels c !! channel_id ≫= cs_log_key with
  | Some k => wrap k channel_id framed nonce
  | None => framed
  end.

(** Fanning the frame out over gossip changes nothing here. *)
Definition post_channel_frame (v : View) (channel_id frame : bytes) (w : W) : result N CoreError * W :=
  let me := my_member_id v in
  let sig := identity_sign (vw_identity v) (post_to_channel_challenge channel_id me frame) in
  let '(r, w) := sync_post_to_channel debug channel_id frame me sig w in
  (map_err CoNet r, w).

(** Encrypt a content for the group, and post the frame. *)
Definition post_content (v : View) (channel_id : bytes) (content : Content) (nonce : bytes)
    (c : EngineChannels) (w : W) : result N CoreError * (EngineChannels * W) :=
  match ec_channels c !! channel_id with
  | None => (Err CoUnknownChannel, (c, w))
  | Some ch =>
    let '(r, mls) := mls_encrypt (pad_channel (content_encode content)) (cs_mls ch) in
    let c := set_channel channel_id (cs_set_mls mls ch) c in
    match r with
    | Err e => (Err (CoVoice (show_mls e)), (c, w))
    | Ok ct =>
      let frame := wrap_channel_frame channel_id FRAME_APP ct nonce c in
      let '(r, w) := post_channel_frame v channel_id frame w in
      (r, (c, w))
    end
  end.

Definition send_channel_content (v : View) (channel_id : bytes) (content : Content)
    (history_text nonce : bytes) (now_ms : N) (c : EngineChannels) (w : W)
    : result N CoreError * (EngineChannels * W) :=
  match post_content v channel_id content nonce c w with
  | (Err e, cw) => (Err e, cw)
  | (Ok seq, (c, w)) =>
    let me := my_member_id v in
    let c := if (seq =? 0)%N then c
             else on_book (trim_channel_edits channel_id ∘ record_author channel_id seq me) c in
    let entry := mkChanHistory channel_id me true now_ms history_text seq
      (match content with CReply target_seq _ => Some target_seq | _ => None end)
      (match content with CForward origin _ => Some origin | _ => None end) in
    (Ok seq, (on_book (set_dirty ∘ push_channel_history entry) c, w))
  end.

Definition send_channel (v : View) (channel_id text nonce : bytes) (now_ms : N) (c : EngineChannels) (w : W) :=
  send_channel_content v channel_id (CText text) text nonce now_ms c w.
Definition send_channel_reply (v : View) (channel_id : bytes) (target_seq : N) (text nonce : bytes)
    (now_ms : N) (c : EngineChannels) (w : W) :=
  send_channel_content v channel_id (CReply target_seq text) text nonce now_ms c w.
Definition forward_to_channel (v : View) (channel_id origin text nonce : bytes) (now_ms : N)
    (c : EngineChannels) (w : W) :=
  send_channel_content v channel_id (CForward origin text) text nonce now_ms c w.

Definition post_channel_edit (v : View) (channel_id : bytes) (target_seq : N)
    (new_text : option bytes) (nonce : bytes) (c : EngineChannels) (w : W)
    : result unit CoreError * (EngineChannels * W) :=
  let me := my_member_id v in
  match get2 (bk_channel_edits (ec_book c)) channel_id target_seq with
  | None => (Err (CoChannel "unknown message (or sent before restart)"), (c, w))
  | Some e =>
    if negb (bool_decide (me_author e = me)) then
      (Err (CoChannel "you can only edit your own messages"), (c, w))
    else if me_deleted e then (Err (CoChannel "that message was deleted"), (c, w))
    else
      let content := match new_text with
                     | Some t => CEdit target_seq t
                     | None => CDelete target_seq
                     end in
      match post_content v channel_id content nonce c w with
      | (Err e, cw) => (Err e, cw)
      | (Ok _, (c, w)) => (Ok tt, (on_book (apply_channel_edit channel_id target_seq me new_text) c, w))
      end
  end.

Definition post_channel_pin (v : View) (channel_id : bytes) (target_seq : N) (unpin : bool)
    (nonce : bytes) (now_ms : N) (c : EngineChannels) (w : W) : result unit CoreError * (EngineChannels * W) :=
  let me := my_member_id v in
  if negb (may_pin (host_of channel_id c) channel_id target_seq me (ec_book c)) then
    (Err (CoChannel "only the channel host or the message author can pin"), (c, w))
  else if Bool.eqb unpin (negb (is_pinned channel_id target_seq (ec_book c))) then (Ok tt, (c, w))
  else
    match post_content v channel_id (CPin target_seq unpin) nonce c w with
    | (Err e, cw) => (Err e, cw)
    | (Ok _, (c, w)) =>
      (Ok tt, (on_book (apply_channel_pin (host_of channel_id c) channel_id target_seq me unpin now_ms) c, w))
    end.

Definition send_react (v : View) (channel_id : bytes) (target_seq : N) (emoji : bytes) (remove : bool)
    (nonce : bytes) (c : EngineChannels) (w : W) : result unit CoreError * (EngineChannels * W) :=
  match post_content v channel_id (CReaction target_seq emoji remove) nonce c w with
  | (Err e, cw) => (Err e, cw)
  | (Ok _, (c, w)) =>
    (Ok tt, (on_book (record_reaction channel_id target_seq emoji (my_member_id v) remove) c, w))
  end.

(** [ids]: the keys of the channel map, in the order it yields them. *)
Definition missed_channel_counts (ids : list bytes) (c : EngineChannels) (w : W)
    : result (list (bytes * N)) CoreError * W :=
  if bool_decide (ids = []) then (Ok [], w)
  else
    let '(r, w) := sync_channel_heads ids w in
    (let? heads := map_err CoNet r in
     Ok (omap (λ '(id, head),
       let last_seq := from_option cs_last_seq 0%N (ec_channels c !! id) in
       let missed := (head - last_seq)%N in
       if (0 <? missed)%N then Some (id, missed) else None) heads), w).
End sending.

(** Frames heard over gossip ([poll_p2p]) wait for the next poll, the newest
    256 per channel. *)
Definition buffer_gossip (cid : bytes) (seq : N) (frame : bytes) (c : EngineChannels) : EngineChannels :=
  match ec_channels c !! cid with
  | None => c
  | Some _ =>
    let buf := default [] (ec_channel_gossip c !! cid) ++ [(seq, frame)] in
    set_gossip (<[cid := drop (length buf - 256) buf]> (ec_channel_gossip c)) c
  end.

(** ** Polling *)

Record ChannelMessage := mkChannelMessage {
  cm_channel_id : bytes; cm_channel_name : bytes; cm_sender : bytes; cm_text : bytes; cm_seq : N;
  cm_reply_to : option N; cm_forwarded_from : option bytes;
}.

(** The local variables of [poll_channels]. *)
Record Poll := mkPoll {
  po_out : list ChannelMessage;
  po_new_history : list ChannelHistoryEntry;
  po_new_reacts : list (bytes * N * bytes * bytes * bool);
  po_pending_edits : list (bytes * N * bytes * option bytes);
  po_pending_pins : list (bytes * N * bytes * bool);
  po_evicted : list (bytes * bytes * bytes);
  po_edits_touched : gset bytes;
}.
Definition poll_empty : Poll := mkPoll [] [] [] [] [] [] ∅.

(** [(seq, frame, from_relay)], relay frames first for equal numbers; of
    equal numbers the first is kept.  [since + 1] wraps in a release build. *)
Fixpoint dedup_from (last : option N) (es : list (N * bytes * bool)) : list (N * bytes * bool) :=
  match es with
  | [] => []
  | e :: es =>
    if bool_decide (last = Some e.1.1) then dedup_from last es
    else e :: dedup_from (Some e.1.1) es
  end.

Definition poll_entries (since : N) (relay gossip : list (N * bytes)) : list (N * bytes * bool) :=
  let entries := ((λ sb, (sb.1, sb.2, true)) <$> relay) ++
    ((λ sf, (sf.1, sf.2, false)) <$> List.filter (λ sf, (sf.1 =? wrap64 (since + 1))%N) gossip) in
  dedup_from None (sort_by_key (λ e, 2 * e.1.1 + if e.2 : bool then 0 else 1)%N entries).

Definition mark_shown (k : bytes * N) (c : EngineChannels) : EngineChannels :=
  let shown := {[ k ]} ∪ ec_gossip_shown c in
  set_shown (if (4096 <? N.of_nat (size shown))%N then ∅ else shown) c.

(** A text, reply or forward. *)
Definition poll_text (now_ms : N) (id : bytes) (seq : N) (from_relay : bool) (ch : ChannelSession)
    (sender text : bytes) (reply_to : option N) (forwarded_from : option bytes) (cp : EngineChannels * Poll)
    : EngineChannels * Poll :=
  let '(c, p) := cp in
  let c := on_book (record_author id seq sender) c in
  let touched := {[ id ]} ∪ po_edits_touched p in
  let already_shown := from_relay && bool_decide ((id, seq) ∈ ec_gossip_shown c) in
  let c := if from_relay then set_shown (ec_gossip_shown c ∖ {[ (id, seq) ]}) c
           else mark_shown (id, seq) c in
  if already_shown then
    (c, mkPoll (po_out p) (po_new_history p) (po_new_reacts p) (po_pending_edits p) (po_pending_pins p)
          (po_evicted p) touched)
  else
    (c, mkPoll
      (po_out p ++ [mkChannelMessage id (ci_channel_name (cs_info ch)) sender text seq reply_to forwarded_from])
      (po_new_history p ++ [mkChanHistory id sender false now_ms text seq reply_to forwarded_from])
      (po_new_reacts p) (po_pending_edits p) (po_pending_pins p) (po_evicted p) touched).

Definition poll_content (now_ms : N) (id : bytes) (seq : N) (from_relay : bool) (ch : ChannelSession)
    (sender : bytes) (content : option (result Content WireError)) (cp : EngineChannels * Poll)
    : EngineChannels * Poll :=
  let '(c, p) := cp in
  match content with
  | Some (Ok (CText t)) => poll_text now_ms id seq from_relay ch sender t None None cp
  | Some (Ok (CReply target_seq t)) => poll_text now_ms id seq from_relay ch sender t (Some target_seq) None cp
  | Some (Ok (CForward origin t)) => poll_text now_ms id seq from_relay ch sender t None (Some origin) cp
  | Some (Ok (CReaction target_seq emoji remove)) =>
    (c, mkPoll (po_out p) (po_new_history p) (po_new_reacts p ++ [(id, target_seq, emoji, sender, remove)])
          (po_pending_edits p) (po_pending_pins p) (po_evicted p) (po_edits_touched p))
  | Some (Ok (CEdit target_seq t)) =>
    (c, mkPoll (po_out p) (po_new_history p) (po_new_reacts p)
          (po_pending_edits p ++ [(id, target_seq, sender, Some t)])
          (po_pending_pins p) (po_evicted p) (po_edits_touched p))
  | Some (Ok (CDelete target_seq)) =>
    (c, mkPoll (po_out p) (po_new_history p) (po_new_reacts p)
          (po_pending_edits p ++ [(id, target_seq, sender, None)])
          (po_pending_pins p) (po_evicted p) (po_edits_touched p))
  | Some (Ok (CPin target_seq unpin)) =>
    (c, mkPoll (po_out p) (po_new_history p) (po_new_reacts p) (po_pending_edits p)
          (po_pending_pins p ++ [(id, target_seq, sender, unpin)]) (po_evicted p) (po_edits_touched p))
  | _ => cp
  end.

(** Whether a member's message is heard at all. *)
Definition silenced (v : View) (ch : ChannelSession) (sender : bytes) : bool :=
  bool_decide (is_Some (cs_removed ch !! sender)) || bool_decide (sender ∈ vw_blocked v) ||
  match vw_server_policies v !! ci_server_root (cs_info ch) with
  | Some p => (N.land (effective_perms p sender) PERM_SEND =? 0)%N
  | None => false
  end.

(** The callback [poll_channels] gives [process_from]. *)
Definition accept_member (v : View) (identity idk_pub : bytes) : bool :=
  ledger_accepts_binding (chain_usable_for_id (vw_ledger v)) (identity_id (vw_ledger v)) identity idk_pub.

Definition strip_wrapper (ch : ChannelSession) (id blob : bytes) : option bytes :=
  match cs_log_key ch with Some k => unwrap k id blob | None => Some blob end.

(** One log entry. *)
Definition poll_entry (v : View) (now_ms : N) (id : bytes) (e : N * bytes * bool) (cp : EngineChannels * Poll)
    : EngineChannels * Poll :=
  let '(seq, blob, from_relay) := e in
  let '(c, p) := cp in
  match ec_channels c !! id with
  | None => cp
  | Some ch =>
    if negb from_relay && (seq <=? cs_last_seq ch)%N then cp
    else
      let ch := if from_relay then cs_set_last_seq (N.max (cs_last_seq ch) seq) ch else ch in
      let c := set_channel id ch c in
      match strip_wrapper ch id blob ≫= unframe with
      | None => (c, p)
      | Some (_, payload) =>
        let '(processed, mls) :=
          process_from payload (Some (ci_host_id (cs_info ch))) (accept_member v) (cs_mls ch) in
        let ch := cs_set_mls mls ch in
        let c := set_channel id ch c in
        match processed with
        | Ok EpochChanged =>
          let ch := resync_roster ch in
          let c := on_book set_dirty (set_channel id ch c) in
          if bool_decide (my_member_id v ∈ cs_roster ch) then (c, p)
          else (c, mkPoll (po_out p) (po_new_history p) (po_new_reacts p) (po_pending_edits p)
                  (po_pending_pins p)
                  (po_evicted p ++ [(id, ci_server_root (cs_info ch), ci_server_name (cs_info ch))])
                  (po_edits_touched p))
        | Ok (Application sender plaintext) =>
          if negb (length sender =? 32)%nat || silenced v ch sender then (c, p)
          else poll_content now_ms id seq from_relay ch sender
                 (content_decode <$> unpad_channel plaintext) (c, p)
        | Ok Ignored | Err _ => (c, p)
        end
      end
  end.

(** What follows the loops. *)
Definition evict (e : bytes * bytes * bytes) (c : EngineChannels) : EngineChannels :=
  let '(cid, root, name) := e in
  mkEngineChannels (delete cid (ec_channels c)) (ec_channel_gossip c) (ec_gossip_shown c)
    (ec_evicted_channels c ++ [(cid, root, name)]) (ec_book c).

Definition each {A B} (f : A → B → B) (xs : list A) (b : B) : B := foldl (flip f) b xs.

Definition finish_poll (now_ms : N) (p : Poll) (c : EngineChannels) : EngineChannels :=
  let c := each evict (po_evicted p) c in
  let c := each (λ '(cid, seq, emoji, member, removed), on_book (record_reaction cid seq emoji member removed))
             (po_new_reacts p) c in
  let c := each (λ '(cid, tseq, by_, new_text), on_book (apply_channel_edit cid tseq by_ new_text))
             (po_pending_edits p) c in
  let c := each (λ '(cid, tseq, by_, unpin) c,
                   on_book (apply_channel_pin (host_of cid c) cid tseq by_ unpin now_ms) c)
             (po_pending_pins p) c in
  let c := if bool_decide (po_out p = []) then c
           else on_book (set_dirty ∘ each push_channel_history (po_new_history p)) c in
  on_book (each trim_channel_edits (elements (po_edits_touched p))) c.

Section polling.
Context {W : Type} `{Connection W}.

(** The channels are polled in turn; a failed fetch ends the poll at once.
    [self.channels[&id]] panics for an unknown [id]. *)
Fixpoint poll_loop (v : View) (now_ms : N) (ids : list bytes) (cp : EngineChannels * Poll) (w : W)
    : option (result Poll CoreError * (EngineChannels * W)) :=
  match ids with
  | [] => Some (Ok cp.2, (cp.1, w))
  | id :: ids =>
    match ec_channels cp.1 !! id with
    | None => None
    | Some ch =>
      let since := cs_last_seq ch in
      match sync_fetch_channel id since w with
      | (Err e, w) => Some (Err (CoNet e), (cp.1, w))
      | (Ok relay, w) =>
        let gossip := default [] (ec_channel_gossip cp.1 !! id) in
        let c := set_gossip (delete id (ec_channel_gossip cp.1)) cp.1 in
        poll_loop v now_ms ids (each (poll_entry v now_ms id) (poll_entries since relay gossip) (c, cp.2)) w
      end
    end
  end.

(** [ids]: the keys of the channel map, in the order it yields them. *)
Definition poll_channels (v : View) (now_ms : N) (ids : list bytes) (c : EngineChannels) (w : W)
    : option (result (list ChannelMessage) CoreError * (EngineChannels * W)) :=
  match poll_loop v now_ms ids (c, poll_empty) w with
  | None => None
  | Some (Err e, cw) => Some (Err e, cw)
  | Some (Ok p, (c, w)) => Some (Ok (po_out p), (finish_poll now_ms p c, w))
  end.
End polling.
End channels.
