(* ===== verification/ClientChannelsProofs.v ===== *)
(** * Lemmas on the client's channels

    Padding, what one log entry does to the state, and the effect of a whole
    poll on the book of messages. *)

From S2P Require Import Prelude Utf8 Enc Crypto ProtoRecord IdentityRecords Ledger X3dh Mailbox Wire Content Roles Channel LocalStore Mls Sync ClientMessages ClientMessagesProofs ClientChannels.

(** ** Padding *)

Lemma pad_bucket_ge (pt : bytes) :
  (4 + len pt ≤ default (4 + len pt) (List.find (λ b, (4 + len pt <=? b)%N) CHANNEL_PAD_LADDER))%N.
Proof.
  destruct (List.find _ _) as [b|] eqn:E; simpl; [|lia].
  apply List.find_some in E as [_ E]. by apply N.leb_le in E.
Qed.

Lemma pad_channel_eq (pt : bytes) :
  let bucket := default (4 + len pt)%N (List.find (λ b, (4 + len pt <=? b)%N) CHANNEL_PAD_LADDER) in
  pad_channel pt = be 4 (as_u32 (len pt)) ++ pt ++ replicate (N.to_nat (bucket - (4 + len pt))) x00.
Proof.
  cbn zeta. unfold pad_channel. pose proof (pad_bucket_ge pt) as Hge.
  set (bucket := default _ _) in *.
  assert (Hl : length (be 4 (as_u32 (len pt)) ++ pt) = (4 + length pt)%nat)
    by (by rewrite length_app, length_be).
  rewrite take_ge by (rewrite Hl; unfold len in Hge; lia).
  rewrite <- app_assoc. do 3 f_equal. rewrite Hl. unfold len. lia.
Qed.

Lemma length_pad_channel (pt : bytes) :
  len (pad_channel pt) = default (4 + len pt)%N (List.find (λ b, (4 + len pt <=? b)%N) CHANNEL_PAD_LADDER).
Proof.
  rewrite pad_channel_eq. pose proof (pad_bucket_ge pt). set (bucket := default _ _) in *.
  unfold len in *. rewrite !length_app, length_be, length_replicate. lia.
Qed.

Lemma unpad_pad pt : fits_u32 pt → unpad_channel (pad_channel pt) = Some pt.
Proof.
  intros Hf. rewrite pad_channel_eq. set (bucket := default _ _). clearbody bucket.
  unfold unpad_channel. set (b := be 4 _ ++ _).
  assert (Hb : length b = (4 + length pt + N.to_nat (bucket - (4 + len pt)))%nat).
  { unfold b. rewrite !length_app, length_be, length_replicate. lia. }
  destruct (length b <? 4)%nat eqn:E; [apply Nat.ltb_lt in E; lia|]. clear E.
  assert (N.to_nat (of_be (take 4 b)) = length pt) as ->.
  { unfold b. rewrite take_app_length' by by rewrite length_be.
    rewrite of_be_be, (as_u32_fits _ Hf), N.mod_small by exact Hf. unfold len. lia. }
  destruct (length b <? 4 + length pt)%nat eqn:E; [apply Nat.ltb_lt in E; lia|].
  unfold b. rewrite drop_app_length' by by rewrite length_be. by rewrite take_app_length.
Qed.

(** ** One log entry *)
Section entries.
Context `{CryptoPrims, Openmls}.
Implicit Types c : EngineChannels.

(** Every group state that processing messages under the rules of a channel
    can lead to. *)
Definition group_step (v : View) (host : bytes) (m m' : Member) : Prop :=
  ∃ payload r, process_from payload (Some host) (accept_member v) m = (r, m').

(** What a poll leaves of a session: only the group moves on, and what is
    counted of the log and the roster. *)
Record session_follows (v : View) (ch ch' : ChannelSession) : Prop := {
  sf_info : cs_info ch' = cs_info ch;
  sf_log_key : cs_log_key ch' = cs_log_key ch;
  sf_removed : cs_removed ch' = cs_removed ch;
  sf_mls : rtc (group_step v (ci_host_id (cs_info ch))) (cs_mls ch) (cs_mls ch');
}.

Lemma session_follows_refl v ch : session_follows v ch ch.
Proof. by constructor. Qed.

Lemma session_follows_trans v a b d : session_follows v a b → session_follows v b d → session_follows v a d.
Proof. intros [I1 L1 R1 M1] [I2 L2 R2 M2]. rewrite I1 in M2. constructor; [congruence..|by etrans]. Qed.

Notation Sessions := (gmap bytes ChannelSession).

Definition sessions_follow (v : View) (s s' : Sessions) : Prop :=
  ∀ cid, option_Forall2 (session_follows v) (s !! cid) (s' !! cid).

Lemma sessions_follow_refl v s : sessions_follow v s s.
Proof. intros cid. destruct (s !! cid); constructor. apply session_follows_refl. Qed.

Lemma sessions_follow_trans v a b d : sessions_follow v a b → sessions_follow v b d → sessions_follow v a d.
Proof.
  intros H1 H2 cid. specialize (H1 cid). specialize (H2 cid). destruct H1; inversion H2; subst; constructor.
  by eapply session_follows_trans.
Qed.

Lemma sessions_follow_insert v s id ch ch' :
  s !! id = Some ch → session_follows v ch ch' → sessions_follow v s (<[id := ch']> s).
Proof.
  intros Hs Hf cid. destruct (decide (cid = id)) as [->|].
  - rewrite Hs, lookup_insert_eq. by constructor.
  - rewrite lookup_insert_ne by done. destruct (s !! cid); constructor. apply session_follows_refl.
Qed.

(** A member still in the roster, not blocked, to whom the server's policy
    gives the right to send. *)
Definition may_speak (v : View) (ch : ChannelSession) (sender : bytes) : Prop :=
  cs_removed ch !! sender = None ∧ sender ∉ vw_blocked v ∧
  ∀ p, vw_server_policies v !! ci_server_root (cs_info ch) = Some p →
    N.land (effective_perms p sender) PERM_SEND ≠ 0%N.

Lemma silenced_spec v ch sender : silenced v ch sender = false ↔ may_speak v ch sender.
Proof.
  unfold silenced, may_speak. rewrite !orb_false_iff, !bool_decide_eq_false, <- eq_None_not_Some.
  destruct (vw_server_policies v !! _) as [p|]; rewrite ?N.eqb_neq; naive_solver.
Qed.

(** A message that the frame with number [n] among the [frames] of channel [cid]
    carried: in a state of the group that follows from the session the client
    had, MLS authenticated [sender], who may speak, and this is what was said. *)
Definition heard (v : View) (start : Sessions) (frames : bytes → N → bytes → Prop) (cid : bytes) (n : N)
    (sender : bytes) (content : Content) : Prop :=
  ∃ ch m blob tag payload plaintext m',
    start !! cid = Some ch ∧ frames cid n blob ∧
    rtc (group_step v (ci_host_id (cs_info ch))) (cs_mls ch) m ∧
    strip_wrapper ch cid blob ≫= unframe = Some (tag, payload) ∧
    process_from payload (Some (ci_host_id (cs_info ch))) (accept_member v) m
      = (Ok (Application sender plaintext), m') ∧
    length sender = 32%nat ∧ may_speak v ch sender ∧
    content_decode <$> unpad_channel plaintext = Some (Ok content).

Definition message_content (m : ChannelMessage) (content : Content) : Prop :=
  match content with
  | CText t => cm_text m = t ∧ cm_reply_to m = None ∧ cm_forwarded_from m = None
  | CReply s t => cm_text m = t ∧ cm_reply_to m = Some s ∧ cm_forwarded_from m = None
  | CForward o t => cm_text m = t ∧ cm_reply_to m = None ∧ cm_forwarded_from m = Some o
  | _ => False
  end.

Definition edit_content (seq : N) (text : option bytes) : Content :=
  match text with Some s => CEdit seq s | None => CDelete seq end.

(** Everything a poll has gathered was heard. *)
Record poll_heard (v : View) (start : Sessions) (frames : bytes → N → bytes → Prop) (p : Poll) : Prop := {
  ph_out m : m ∈ po_out p →
    ∃ content, heard v start frames (cm_channel_id m) (cm_seq m) (cm_sender m) content ∧ message_content m content;
  ph_reacts cid t e who rm : (cid, t, e, who, rm) ∈ po_new_reacts p →
    ∃ n, heard v start frames cid n who (CReaction t e rm);
  ph_edits cid t who text : (cid, t, who, text) ∈ po_pending_edits p →
    ∃ n, heard v start frames cid n who (edit_content t text);
  ph_pins cid t who un : (cid, t, who, un) ∈ po_pending_pins p →
    ∃ n, heard v start frames cid n who (CPin t un);
}.

Lemma poll_heard_empty v start frames : poll_heard v start frames poll_empty.
Proof. constructor; intros; by match goal with E : _ ∈ _ |- _ => apply not_elem_of_nil in E end. Qed.

(** What a message is, among the contents. *)
Definition is_message (content : Content) : Prop :=
  match content with CText _ | CReply _ _ | CForward _ _ => True | _ => False end.

Lemma message_is_message m content : message_content m content → is_message content.
Proof. by destruct content. Qed.

(** Operations an entry may make on the book: it edits nothing, and names as
    the author of a message who was heard saying it under its number. *)
Definition entry_op (v : View) (start : Sessions) (frames : bytes → N → bytes → Prop) (op : BookOp) : Prop :=
  match op with
  | OpSeen cid seq who => ∃ content, heard v start frames cid seq who content ∧ is_message content
  | OpDirty => True
  | _ => False
  end.

Lemma entry_ops_only_seen v start frames ops : Forall (entry_op v start frames) ops → Forall only_seen ops.
Proof. intros Ho. eapply list.Forall_impl; [exact Ho|]. by intros []. Qed.

Section effect.
Context (v : View) (start : Sessions) (frames : bytes → N → bytes → Prop).

Definition buffered c (cid : bytes) (sf : N * bytes) : Prop := sf ∈ default [] (ec_channel_gossip c !! cid).

Record entry_effect (cp cp' : EngineChannels * Poll) : Prop := {
  ee_sessions : sessions_follow v (ec_channels cp.1) (ec_channels cp'.1);
  ee_book : ∃ ops, ec_book cp'.1 = book_run ops (ec_book cp.1) ∧ Forall (entry_op v start frames) ops;
  ee_heard : poll_heard v start frames cp.2 → poll_heard v start frames cp'.2;
  ee_gossip cid sf : buffered cp'.1 cid sf → buffered cp.1 cid sf;
}.

Lemma entry_effect_refl cp : entry_effect cp cp.
Proof. constructor; try done; [apply sessions_follow_refl|by exists []]. Qed.

Lemma entry_effect_trans a b d : entry_effect a b → entry_effect b d → entry_effect a d.
Proof.
  intros [I1 (ops1 & B1 & Q1) H1 G1] [I2 (ops2 & B2 & Q2) H2 G2]. constructor.
  - by eapply sessions_follow_trans.
  - exists (ops1 ++ ops2). rewrite book_run_app, <- B1. split; [done|]. by apply list.Forall_app.
  - auto.
  - auto.
Qed.

(** Replacing a session by one that follows from it. *)
Lemma entry_effect_session id ch ch' c p :
  ec_channels c !! id = Some ch → session_follows v ch ch' → entry_effect (c, p) (set_channel id ch' c, p).
Proof.
  intros Hc Hf. constructor; cbn [fst snd]; try done; [by eapply sessions_follow_insert|by exists []].
Qed.

Ltac ph_snoc Hp :=
  let Ho := fresh "Ho" in let Hr := fresh "Hr" in let Hd := fresh "Hd" in let Hq := fresh "Hq" in
  destruct Hp as [Ho Hr Hd Hq]; constructor; cbn [po_out po_new_reacts po_pending_edits po_pending_pins];
  try assumption; intros *; rewrite elem_of_app, list_elem_of_singleton.

Lemma poll_text_effect now_ms id seq from_relay ch sender text reply fwd c p content :
  heard v start frames id seq sender content →
  (∀ m, cm_text m = text → cm_reply_to m = reply → cm_forwarded_from m = fwd → message_content m content) →
  entry_effect (c, p) (poll_text now_ms id seq from_relay ch sender text reply fwd (c, p)).
Proof.
  intros Hh Hm. unfold poll_text. set (c1 := if from_relay then _ else _).
  assert (Hb : ec_book c1 = book_run [OpSeen id seq sender] (ec_book c)) by (unfold c1; by destruct from_relay).
  assert (Hi : ec_channels c1 = ec_channels c) by (unfold c1; by destruct from_relay).
  assert (Hg : ec_channel_gossip c1 = ec_channel_gossip c) by (unfold c1; by destruct from_relay).
  assert (Hc : is_message content)
    by (apply (message_is_message (mkChannelMessage id [] sender text seq reply fwd)); by apply Hm).
  destruct (_ && _); (constructor; cbn [fst snd];
    [rewrite Hi; apply sessions_follow_refl
    |exists [OpSeen id seq sender]; split; [done|by constructor; [exists content|constructor]]
    | |unfold buffered; by rewrite Hg]).
  - intros [Ho Hr Hd Hq]. by constructor.
  - intros Hp. ph_snoc Hp. intros [Hin| ->]; [eauto|]. exists content. split; [done|]. by apply Hm.
Qed.

Lemma poll_content_effect now_ms id seq from_relay ch sender content c p :
  (∀ ct, content = Some (Ok ct) → heard v start frames id seq sender ct) →
  entry_effect (c, p) (poll_content now_ms id seq from_relay ch sender content (c, p)).
Proof.
  intros Hh. unfold poll_content.
  destruct content as [[ct|]|]; [|apply entry_effect_refl..].
  specialize (Hh ct eq_refl).
  destruct ct; try apply entry_effect_refl;
    try (eapply poll_text_effect; [exact Hh|]; intros m ? ? ?; by split_and!).
  all: constructor; cbn [fst snd]; [apply sessions_follow_refl|by exists []|intros Hp|done]; ph_snoc Hp.
  all: intros [?|Heq]; [eauto|injection Heq; intros; subst; by exists seq].
Qed.

Lemma process_follows ch payload r m' :
  process_from payload (Some (ci_host_id (cs_info ch))) (accept_member v) (cs_mls ch) = (r, m') →
  session_follows v ch (cs_set_mls m' ch).
Proof. intros Hp. constructor; try done. apply rtc_once. by exists payload, r. Qed.

Lemma heard_now c id ch seq blob tag payload sender plaintext m' ct :
  sessions_follow v start (ec_channels c) → ec_channels c !! id = Some ch → frames id seq blob →
  strip_wrapper ch id blob ≫= unframe = Some (tag, payload) →
  process_from payload (Some (ci_host_id (cs_info ch))) (accept_member v) (cs_mls ch)
    = (Ok (Application sender plaintext), m') →
  length sender = 32%nat → may_speak v ch sender →
  content_decode <$> unpad_channel plaintext = Some (Ok ct) →
  heard v start frames id seq sender ct.
Proof.
  intros Hs Hc Hf Hu Hp Hl Hsil Hct. specialize (Hs id). rewrite Hc in Hs.
  inversion Hs as [ch0 ? [I L R M] E0|]; subst.
  exists ch0, (cs_mls ch), blob, tag, payload, plaintext, m'.
  destruct Hsil as (? & ? & ?). unfold strip_wrapper, may_speak in *. rewrite ?I, ?L, ?R in *. by split_and!.
Qed.

Lemma poll_entry_effect now_ms id e cp :
  sessions_follow v start (ec_channels cp.1) → frames id e.1.1 e.1.2 →
  entry_effect cp (poll_entry v now_ms id e cp).
Proof.
  destruct e as [[seq blob] from_relay], cp as [c p]. cbn [fst snd]. intros Hs Hfr. unfold poll_entry.
  destruct (ec_channels c !! id) as [ch0|] eqn:Ech; [|apply entry_effect_refl].
  destruct (_ && _); [apply entry_effect_refl|].
  set (ch := if from_relay then _ else ch0).
  assert (Hch : session_follows v ch0 ch) by (unfold ch; destruct from_relay; by constructor). clearbody ch.
  assert (He1 : entry_effect (c, p) (set_channel id ch c, p)) by by apply (entry_effect_session id ch0).
  eapply entry_effect_trans; [exact He1|]. pose proof (sessions_follow_trans _ _ _ _ Hs (ee_sessions _ _ He1)) as Hs1.
  cbn [fst] in Hs1. clear He1. set (c1 := set_channel id ch c) in *.
  assert (H1 : ec_channels c1 !! id = Some ch) by apply lookup_insert_eq.
  destruct (strip_wrapper ch id blob ≫= unframe) as [[tag payload]|] eqn:Es; [|apply entry_effect_refl].
  destruct (process_from payload _ _ (cs_mls ch)) as [processed mls] eqn:Ep.
  pose proof (process_follows _ _ _ _ Ep) as Hm.
  set (ch' := cs_set_mls mls ch) in *. set (c2 := set_channel id ch' c1).
  assert (H2 : ec_channels c2 !! id = Some ch') by apply lookup_insert_eq.
  eapply (entry_effect_trans _ (c2, p)); [by apply (entry_effect_session id ch)|].
  destruct processed as [[sender plaintext| |]|err]; [| |apply entry_effect_refl..].
  - destruct (_ || _) eqn:Eg; [apply entry_effect_refl|]. apply orb_false_iff in Eg as [El Esil].
    apply negb_false_iff, Nat.eqb_eq in El. apply poll_content_effect. intros ct Hct.
    apply silenced_spec in Esil. by eapply (heard_now c1 id ch).
  - set (ch'' := resync_roster ch').
    eapply entry_effect_trans; [by apply (entry_effect_session id ch' ch'' c2 p)|].
    assert (Hd : ∀ p', (poll_heard v start frames p → poll_heard v start frames p') →
      entry_effect (set_channel id ch'' c2, p) (on_book set_dirty (set_channel id ch'' c2), p')).
    { intros p' Hp'. constructor; cbn [fst snd]; try done; [apply sessions_follow_refl|].
      exists [OpDirty]. split; [done|by repeat constructor]. }
    case_bool_decide; apply Hd; [done|]. intros [Ho Hr He Hq]. by constructor.
Qed.

Lemma each_cons {A B} (f : A → B → B) x xs b : each f (x :: xs) b = each f xs (f x b).
Proof. done. Qed.

Lemma each_app {A B} (f : A → B → B) xs ys b : each f (xs ++ ys) b = each f ys (each f xs b).
Proof. apply foldl_app. Qed.

Lemma poll_each_effect now_ms id es cp :
  sessions_follow v start (ec_channels cp.1) → Forall (λ e : N * bytes * bool, frames id e.1.1 e.1.2) es →
  entry_effect cp (each (poll_entry v now_ms id) es cp).
Proof.
  intros Hs Hf. revert cp Hs. induction Hf as [|e es He Hf IH]; intros cp Hs; [apply entry_effect_refl|].
  rewrite each_cons. pose proof (poll_entry_effect now_ms id e cp Hs He) as H1.
  eapply entry_effect_trans; [exact H1|]. apply IH. by eapply sessions_follow_trans; [|apply H1].
Qed.
End effect.

(** Where the entries come from. *)
Lemma elem_of_dedup_from last es e : e ∈ dedup_from last es → e ∈ es.
Proof.
  revert last. induction es as [|x es IH]; intros last; cbn [dedup_from]; [done|].
  case_bool_decide; rewrite !elem_of_cons; naive_solver.
Qed.

Lemma elem_of_poll_entries since relay gossip seq blob fr :
  (seq, blob, fr) ∈ poll_entries since relay gossip → if fr : bool then (seq, blob) ∈ relay else (seq, blob) ∈ gossip.
Proof.
  intros Hin%elem_of_dedup_from. rewrite sort_by_key_perm, elem_of_app in Hin.
  destruct Hin as [([s b] & [= -> -> ->] & Hin)%list_elem_of_fmap|([s b] & [= -> -> ->] & Hin)%list_elem_of_fmap]; [done|].
  by apply list_elem_of_In, List.filter_In in Hin as [Hin%list_elem_of_In _].
Qed.

Section whole.
Context {W : Type} `{Connection W}.

(** The frames a poll can come across, with their numbers: what the relay answers to a request for
    the channel's log, and what gossip had left in the buffer. *)
Definition delivered c (cid : bytes) (seq : N) (blob : bytes) : Prop :=
  (∃ since w l w', sync_fetch_channel cid since w = (Ok l, w') ∧ (seq, blob) ∈ l) ∨ buffered c cid (seq, blob).

Lemma poll_round_effect v start c0 now_ms id relay since w w' c p :
  sessions_follow v start (ec_channels c) → (∀ cid sf, buffered c cid sf → buffered c0 cid sf) →
  sync_fetch_channel id since w = (Ok relay, w') →
  entry_effect v start (delivered c0) (c, p)
    (each (poll_entry v now_ms id) (poll_entries since relay (default [] (ec_channel_gossip c !! id)))
       (set_gossip (delete id (ec_channel_gossip c)) c, p)).
Proof.
  intros Hs Hg Hf. eapply entry_effect_trans; [|apply poll_each_effect; [exact Hs|]].
  - constructor; cbn [fst snd]; try done; [apply sessions_follow_refl|by exists []|].
    intros cid sf. unfold buffered. cbn [set_gossip ec_channel_gossip].
    destruct (decide (cid = id)) as [->|]; [by rewrite lookup_delete_eq; intros ?%not_elem_of_nil|].
    by rewrite lookup_delete_ne.
  - apply list.Forall_forall. intros [[seq blob] fr] Hin. apply elem_of_poll_entries in Hin. cbn [fst snd].
    destruct fr; [left; by do 4 eexists|right; by apply Hg].
Qed.

(** Every polled channel was known, so the poll does not panic; and whatever
    it returns, the state it leaves is the effect of its entries. *)
Lemma poll_loop_effect v start c0 now_ms ids cp (w : W) :
  (∀ id, id ∈ ids → is_Some (ec_channels cp.1 !! id)) →
  sessions_follow v start (ec_channels cp.1) → (∀ cid sf, buffered cp.1 cid sf → buffered c0 cid sf) →
  ∃ r c w' p, poll_loop v now_ms ids cp w = Some (r, (c, w')) ∧
    entry_effect v start (delivered c0) cp (c, p) ∧ (∀ p', r = Ok p' → p = p').
Proof.
  revert cp w. induction ids as [|id ids IH]; intros [c p] w Hids Hs Hg; cbn [poll_loop fst snd] in *.
  { do 4 eexists. split; [done|]. split; [apply entry_effect_refl|]. by intros p' [= <-]. }
  destruct (Hids id) as [ch Hch]; [by left|]. rewrite Hch.
  destruct (sync_fetch_channel id (cs_last_seq ch) w) as [[relay|e] w'] eqn:Ef.
  2: { do 4 eexists. split; [done|]. split; [apply entry_effect_refl|done]. }
  pose proof (poll_round_effect v start c0 now_ms id relay _ w w' c p Hs Hg Ef) as He.
  match type of He with entry_effect _ _ _ _ ?x => set (cp' := x) in * end.
  destruct (IH cp' w') as (r & c' & w'' & p' & Hl & He' & Hr).
  { intros id' Hid'. destruct (Hids id') as [ch' Hch']; [by right|].
    pose proof (ee_sessions _ _ _ _ _ He id') as Hf. cbn [fst] in Hf. rewrite Hch' in Hf.
    inversion Hf. by eexists. }
  { eapply sessions_follow_trans; [exact Hs|apply He]. }
  { intros cid sf Hb. apply Hg. by apply (ee_gossip _ _ _ _ _ He). }
  exists r, c', w'', p'. split; [exact Hl|]. split; [by eapply entry_effect_trans|done].
Qed.
End whole.

(** ** After the loops *)

Lemma each_run {X} (f : X → Book → Book) (op : X → BookOp) xs b :
  (∀ x b, f x b = book_apply (op x) b) → each f xs b = book_run (op <$> xs) b.
Proof.
  intros Hf. revert b. induction xs as [|x xs IH]; intros b; [done|].
  rewrite each_cons, IH, Hf. done.
Qed.

Definition edit_op (x : bytes * N * bytes * option bytes) : BookOp :=
  let '(cid, tseq, by_, text) := x in OpEdit cid tseq by_ text.

Definition pin_by (x : bytes * N * bytes * bool) (op : BookOp) : Prop :=
  let '(cid, tseq, by_, unpin) := x in ∃ host at_ms, op = OpPin host cid tseq by_ unpin at_ms.

(** Neither an edit nor the record of an author. *)
Definition aside (op : BookOp) : Prop := match op with OpEdit _ _ _ _ | OpSeen _ _ _ => False | _ => True end.

Lemma evict_book evs c : ec_book (each evict evs c) = ec_book c.
Proof.
  revert c. induction evs as [|[[cid root] name] evs IH]; intros c; [done|].
  rewrite each_cons, IH. done.
Qed.

Lemma pins_run now_ms pins c :
  ∃ ops, ec_book (each (λ '(cid, tseq, by_, unpin) c,
      on_book (apply_channel_pin (host_of cid c) cid tseq by_ unpin now_ms) c) pins c)
    = book_run ops (ec_book c) ∧ Forall aside ops.
Proof.
  revert c. induction pins as [|[[[cid tseq] by_] unpin] pins IH]; intros c; [by exists []|].
  rewrite each_cons. destruct (IH (on_book (apply_channel_pin (host_of cid c) cid tseq by_ unpin now_ms) c))
    as (ops & Hb & Hn).
  exists (OpPin (host_of cid c) cid tseq by_ unpin now_ms :: ops). split; [exact Hb|by constructor].
Qed.

(** The only edits are the pending ones. *)
Lemma finish_poll_run now_ms p c :
  ∃ ops1 ops2, ec_book (finish_poll now_ms p c) =
    book_run (ops1 ++ (edit_op <$> po_pending_edits p) ++ ops2) (ec_book c) ∧
    Forall aside ops1 ∧ Forall aside ops2.
Proof.
  unfold finish_poll. set (c1 := each evict _ c).
  set (c2 := each _ (po_new_reacts p) c1). set (c3 := each _ (po_pending_edits p) c2).
  destruct (pins_run now_ms (po_pending_pins p) c3) as (opsp & Hp & Hpn).
  set (c4 := each _ (po_pending_pins p) c3) in *.
  set (c5 := if bool_decide _ then _ else _).
  assert (H2 : ec_book c2 = book_run ((λ '(cid, seq, emoji, member, removed), OpReact cid seq emoji member removed)
      <$> po_new_reacts p) (ec_book c)).
  { rewrite <- (evict_book (po_evicted p) c). fold c1. unfold c2. clearbody c1. clear.
    revert c1. induction (po_new_reacts p) as [|[[[[? ?] ?] ?] ?] l IH]; intros c1; [done|].
    rewrite each_cons, IH. done. }
  assert (H3 : ec_book c3 = book_run (edit_op <$> po_pending_edits p) (ec_book c2)).
  { unfold c3. clearbody c2. clear. revert c2. induction (po_pending_edits p) as [|[[[? ?] ?] ?] l IH];
      intros c2; [done|]. rewrite each_cons, IH. done. }
  assert (H5 : ∃ ops, ec_book c5 = book_run ops (ec_book c4) ∧ Forall aside ops).
  { unfold c5. case_bool_decide; [by exists []|]. exists ((OpHistory <$> po_new_history p) ++ [OpDirty]).
    cbn [on_book ec_book compose]. rewrite book_run_app. split.
    - by rewrite (each_run push_channel_history OpHistory).
    - apply list.Forall_app. split; [|by repeat constructor]. apply list.Forall_fmap, list.Forall_forall. done. }
  destruct H5 as (ops5 & H5 & Hn5). cbn [on_book ec_book].
  rewrite (each_run trim_channel_edits OpTrim) by done.
  exists ((λ '(cid, seq, emoji, member, removed), OpReact cid seq emoji member removed) <$> po_new_reacts p),
    (opsp ++ ops5 ++ (OpTrim <$> elements (po_edits_touched p))).
  split_and!.
  - rewrite H5, Hp, H3, H2. by rewrite !book_run_app.
  - apply list.Forall_fmap, list.Forall_forall. by intros [[[[? ?] ?] ?] ?] _.
  - repeat (apply list.Forall_app; split); try done. apply list.Forall_fmap, list.Forall_forall. done.
Qed.

(** ** Positions in the log *)

Definition last_seq_of c (id : bytes) : option N := cs_last_seq <$> ec_channels c !! id.

Lemma last_seq_set id ch c id' :
  last_seq_of (set_channel id ch c) id' = if decide (id' = id) then Some (cs_last_seq ch) else last_seq_of c id'.
Proof.
  unfold last_seq_of. cbn [set_channel set_channels ec_channels]. destruct (decide (id' = id)) as [->|].
  - by rewrite lookup_insert_eq.
  - by rewrite lookup_insert_ne.
Qed.

Lemma poll_text_channels now_ms id seq fr ch sender text reply fwd cp :
  ec_channels (poll_text now_ms id seq fr ch sender text reply fwd cp).1 = ec_channels cp.1.
Proof. destruct cp as [c p]. unfold poll_text. destruct fr; destruct (_ && _); done. Qed.

Lemma poll_content_channels now_ms id seq fr ch sender ct cp :
  ec_channels (poll_content now_ms id seq fr ch sender ct cp).1 = ec_channels cp.1.
Proof.
  unfold poll_content. destruct cp as [c p].
  destruct ct as [[[]|]|]; try done; by rewrite poll_text_channels.
Qed.

(** A relay entry moves the position of its channel to its number at least; a
    gossip entry moves nothing. *)
Lemma poll_entry_position v now_ms id seq blob fr cp id' :
  last_seq_of (poll_entry v now_ms id (seq, blob, fr) cp).1 id' =
    if decide (id' = id) then (λ n, if fr : bool then N.max n seq else n) <$> last_seq_of cp.1 id
    else last_seq_of cp.1 id'.
Proof.
  destruct cp as [c p]. unfold poll_entry. cbn [fst].
  destruct (ec_channels c !! id) as [ch0|] eqn:Ech.
  2: { cbn [fst]. unfold last_seq_of. destruct (decide (id' = id)) as [->|]; [by rewrite !Ech|done]. }
  assert (Hl0 : last_seq_of c id = Some (cs_last_seq ch0)) by (unfold last_seq_of; by rewrite Ech).
  rewrite Hl0. cbn [fmap option_fmap option_map].
  assert (Hgoal : ∀ ch c1, cs_last_seq ch = (if fr then N.max (cs_last_seq ch0) seq else cs_last_seq ch0) →
    (∀ i, i ≠ id → last_seq_of c1 i = last_seq_of c i) →
    last_seq_of (set_channel id ch c1) id' =
      if decide (id' = id) then Some (if fr then N.max (cs_last_seq ch0) seq else cs_last_seq ch0)
      else last_seq_of c id').
  { intros ch c1 Hch Hc1. rewrite last_seq_set, Hch. destruct (decide _); [done|by apply Hc1]. }
  assert (Hset : ∀ ch c1, (∀ i, i ≠ id → last_seq_of c1 i = last_seq_of c i) →
    ∀ i, i ≠ id → last_seq_of (set_channel id ch c1) i = last_seq_of c i).
  { intros ch c1 Hc1 i Hi. rewrite last_seq_set, decide_False by done. by apply Hc1. }
  destruct (negb fr && _) eqn:Eg.
  { cbn [fst]. apply andb_true_iff in Eg as [Eg _]. apply negb_true_iff in Eg. subst fr.
    destruct (decide (id' = id)) as [->|]; done. }
  clear Eg. set (ch := if fr then _ else ch0).
  assert (Hch : cs_last_seq ch = if fr then N.max (cs_last_seq ch0) seq else cs_last_seq ch0)
    by (unfold ch; by destruct fr). clearbody ch.
  destruct (strip_wrapper ch id blob ≫= unframe) as [[tag payload]|]; [|apply Hgoal; done].
  destruct (process_from payload _ _ (cs_mls ch)) as [[[sender plaintext| |]|err] mls].
  - destruct (_ || _); [apply Hgoal; [done|]; by apply Hset|].
    pose proof (poll_content_channels now_ms id seq fr (cs_set_mls mls ch) sender
      (content_decode <$> unpad_channel plaintext)
      (set_channel id (cs_set_mls mls ch) (set_channel id ch c), p)) as Hpc. cbn [fst] in Hpc.
    unfold last_seq_of at 1. rewrite Hpc. apply Hgoal; [done|]. by apply Hset.
  - case_bool_decide; cbn [fst]; (apply Hgoal; [done|]; apply Hset, Hset; done).
  - apply Hgoal; [done|]. by apply Hset.
  - apply Hgoal; [done|]. by apply Hset.
Qed.

Lemma poll_each_position v now_ms id es cp id' :
  last_seq_of (each (poll_entry v now_ms id) es cp).1 id' =
    if decide (id' = id)
    then (λ n, foldl N.max n (omap (λ e : N * bytes * bool, if e.2 then Some e.1.1 else None) es)) <$> last_seq_of cp.1 id
    else last_seq_of cp.1 id'.
Proof.
  revert cp. induction es as [|[[seq blob] fr] es IH]; intros cp; [|rewrite each_cons].
  { destruct (decide (id' = id)) as [->|]; [|done]. change (each (poll_entry v now_ms id) [] cp) with cp.
    by destruct (last_seq_of cp.1 id). }
  rewrite IH, !poll_entry_position. rewrite (decide_True (P := id = id)) by done.
  destruct (decide (id' = id)); [|done]. destruct (last_seq_of cp.1 id) as [n|]; [|done].
  csimpl. by destruct fr.
Qed.
End entries.
