(* ===== verification/ClientChannelTheorems.v ===== *)
(** * What holds of the client's channels

    A poll shows, edits and deletes only what the author of a message sent, its
    position follows the relay's log, and what is sent is read. *)

From S2P Require Import Prelude Utf8 Enc Crypto ProtoRecord IdentityRecords Ledger LedgerTheorems X3dh Mailbox Wire Content Roles Channel LocalStore Mls MlsTheorems Sync ClientMessages ClientMessagesProofs ClientChannels ClientChannelsProofs.

(** ** Numbers of a log *)

Lemma foldl_max_le (l : list N) n m : (foldl N.max n l ≤ m)%N ↔ (n ≤ m)%N ∧ ∀ x, x ∈ l → (x ≤ m)%N.
Proof.
  revert n. induction l as [|x l IH]; intros n; cbn [foldl].
  - split; [|by intros []]. intros Hn. split; [done|]. by intros x ?%not_elem_of_nil.
  - rewrite IH. split.
    + intros [Hx Hl]. split; [lia|]. intros y [->|Hy]%elem_of_cons; [lia|auto].
    + intros [Hn Hl]. split; [|intros y Hy; apply Hl; by right].
      assert (x ≤ m)%N by (apply Hl; by left). lia.
Qed.

Lemma foldl_max_elem (l l' : list N) n : (∀ x, x ∈ l ↔ x ∈ l') → foldl N.max n l = foldl N.max n l'.
Proof.
  intros Hl. apply N.le_antisymm; apply foldl_max_le.
  - pose proof (proj1 (foldl_max_le l' n _) (N.le_refl _)) as [Hn Hx]. split; [done|].
    intros x Hin%Hl. by apply Hx.
  - pose proof (proj1 (foldl_max_le l n _) (N.le_refl _)) as [Hn Hx]. split; [done|].
    intros x Hin%Hl. by apply Hx.
Qed.

(** Of equal numbers the relay's entry is the one kept. *)
Lemma dedup_keeps_relay es last e :
  StronglySorted (λ a b : N * bytes * bool, (2 * a.1.1 + if a.2 then 0 else 1) ≤ (2 * b.1.1 + if b.2 then 0 else 1))%N es →
  e ∈ es → e.2 = true → last ≠ Some e.1.1 →
  ∃ e', e' ∈ dedup_from last es ∧ e'.1.1 = e.1.1 ∧ e'.2 = true.
Proof.
  revert last. induction es as [|x es IH]; intros last Hs Hin Hr Hl; [by apply not_elem_of_nil in Hin|].
  inversion_clear Hs as [|? ? Hs' Hx]. cbn [dedup_from].
  destruct (decide (x.1.1 = e.1.1)) as [Hxe|Hxe].
  - rewrite bool_decide_eq_false_2 by by rewrite Hxe. exists x. split; [by left|]. split; [done|].
    apply elem_of_cons in Hin as [->|Hin]; [done|]. rewrite list.Forall_forall in Hx.
    specialize (Hx e Hin). rewrite Hr, Hxe in Hx. destruct x.2; [done|lia].
  - apply elem_of_cons in Hin as [->|Hin]; [done|]. case_bool_decide; [by apply IH|].
    destruct (IH (Some x.1.1)) as (e' & He' & ? & ?); [done..|congruence|]. exists e'. split; [by right|done].
Qed.

Lemma relay_numbers since relay gossip n :
  foldl N.max n (omap (λ e : N * bytes * bool, if e.2 then Some e.1.1 else None) (poll_entries since relay gossip))
  = foldl N.max n relay.*1.
Proof.
  apply foldl_max_elem. intros x. rewrite list_elem_of_omap, list_elem_of_fmap. split.
  - intros ([[s b] fr] & Hin & Hx). apply elem_of_poll_entries in Hin. destruct fr; [|done].
    injection Hx as <-. by exists (s, b).
  - intros ([s b] & -> & Hin).
    destruct (dedup_keeps_relay (sort_by_key (λ e : N * bytes * bool, 2 * e.1.1 + if e.2 then 0 else 1)%N
      (((λ sb : N * bytes, (sb.1, sb.2, true)) <$> relay) ++
       ((λ sf : N * bytes, (sf.1, sf.2, false)) <$> List.filter (λ sf : N * bytes, (sf.1 =? wrap64 (since + 1))%N) gossip)))
      None (s, b, true)) as ([[s' b'] fr'] & He & Hs' & Hfr); [apply sort_by_key_sorted| |done..|].
    + rewrite sort_by_key_perm, elem_of_app. left. apply list_elem_of_fmap. by exists (s, b).
    + simpl in Hs', Hfr. subst. by exists (s, b', true).
Qed.

Section polling.
Context `{CryptoPrims, Openmls} {W : Type} `{Connection W}.
Implicit Types (c : EngineChannels) (w : W).

Lemma evict_channels evs c id ch :
  ec_channels (each evict evs c) !! id = Some ch → ec_channels c !! id = Some ch.
Proof.
  revert c. induction evs as [|[[cid root] name] evs IH]; intros c; [done|]. rewrite each_cons.
  intros Hl%IH. cbn [evict ec_channels] in Hl. by apply lookup_delete_Some in Hl as [_ ?].
Qed.

Lemma each_channels {A} (f : A → EngineChannels → EngineChannels) xs c :
  (∀ x c, ec_channels (f x c) = ec_channels c) → ec_channels (each f xs c) = ec_channels c.
Proof. intros Hf. revert c. induction xs as [|x xs IH]; intros c; [done|]. by rewrite each_cons, IH, Hf. Qed.

Lemma finish_poll_channels now_ms p c id ch :
  ec_channels (finish_poll now_ms p c) !! id = Some ch → ec_channels c !! id = Some ch.
Proof.
  unfold finish_poll. cbn [on_book ec_channels].
  set (c4 := each _ (po_pending_pins p) _). intros Hl.
  assert (Hc4 : ec_channels c4 !! id = Some ch) by (by case_bool_decide). clear Hl.
  apply (evict_channels (po_evicted p)). revert Hc4. unfold c4.
  rewrite (each_channels _ (po_pending_pins p)), (each_channels _ (po_pending_edits p)),
    (each_channels _ (po_new_reacts p)); [done|..];
    first [by intros [[[[? ?] ?] ?] ?]|by intros [[[? ?] ?] ?]].
Qed.

Lemma poll_round_position v now_ms id relay since c p id' :
  last_seq_of (each (poll_entry v now_ms id) (poll_entries since relay (default [] (ec_channel_gossip c !! id)))
       (set_gossip (delete id (ec_channel_gossip c)) c, p)).1 id' =
    if decide (id' = id) then (λ n, foldl N.max n relay.*1) <$> last_seq_of c id else last_seq_of c id'.
Proof.
  rewrite poll_each_position. destruct (decide (id' = id)); [|done]. cbn [fst].
  change (last_seq_of (set_gossip _ c) id) with (last_seq_of c id).
  destruct (last_seq_of c id) as [n|]; [|done]. simpl. by rewrite relay_numbers.
Qed.

Lemma poll_loop_positions v now_ms ids cp w p' c' w' :
  NoDup ids → poll_loop v now_ms ids cp w = Some (Ok p', (c', w')) →
  ∀ id n, last_seq_of cp.1 id = Some n →
    if decide (id ∈ ids)
    then ∃ w0 relay w1, sync_fetch_channel id n w0 = (Ok relay, w1) ∧
           last_seq_of c' id = Some (foldl N.max n relay.*1)
    else last_seq_of c' id = Some n.
Proof.
  revert cp w. induction ids as [|i ids IH]; intros [c p] w Hnd Hl id n Hn; cbn [poll_loop fst snd] in *.
  { injection Hl as _ <- _. by rewrite decide_False by by intros ?%not_elem_of_nil. }
  apply list.NoDup_cons in Hnd as [Hi Hnd].
  destruct (ec_channels c !! i) as [ch|] eqn:Ech; [|done].
  destruct (sync_fetch_channel i (cs_last_seq ch) w) as [[relay|e] w1] eqn:Ef; [|done].
  specialize (IH _ _ Hnd Hl id). rewrite poll_round_position in IH.
  destruct (decide (id = i)) as [->|Hid].
  - rewrite decide_True by by left.
    assert (n = cs_last_seq ch) as -> by (unfold last_seq_of in Hn; rewrite Ech in Hn; by injection Hn).
    exists w, relay, w1. split; [done|]. rewrite Hn in IH. specialize (IH _ eq_refl).
    by rewrite decide_False in IH.
  - specialize (IH n Hn). destruct (decide (id ∈ ids)).
    + rewrite decide_True by by right. exact IH.
    + rewrite decide_False; [exact IH|]. by intros [|]%elem_of_cons.
Qed.

(** The entries a poll's entries leave in the book. *)
Lemma seen_heard v start frames ops b cid seq e :
  Forall (entry_op v start frames) ops → edit_of (book_run ops b) cid seq = Some e →
  edit_of b cid seq = Some e ∨ edit_of b cid seq = None ∧ authorship_only e = true ∧
    ∃ content, heard v start frames cid seq (me_author e) content ∧ is_message content.
Proof.
  intros Ho He. apply seen_origin in He as [?|(Hn & who & Hin & ->)]; [by left| |by eapply entry_ops_only_seen].
  right. split_and!; [done..|]. rewrite list.Forall_forall in Ho. exact (Ho _ Hin).
Qed.

(** What the pending edits of a poll make of an entry. *)
Lemma finished_edit now_ms p c cid seq e :
  edit_of (ec_book (finish_poll now_ms p c)) cid seq = Some e →
  ∃ e0, edit_of (ec_book c) cid seq = Some e0 ∧ me_author e0 = me_author e ∧
    (e = e0 ∨ me_deleted e0 = false ∧ me_deleted e = bool_decide (me_text e = None) ∧
              (cid, seq, me_author e, me_text e) ∈ po_pending_edits p).
Proof.
  destruct (finish_poll_run now_ms p c) as (ops1 & ops2 & -> & Hn1 & Hn2).
  rewrite list.Forall_forall in Hn1. rewrite list.Forall_forall in Hn2.
  intros (e0 & He & Ha & Hcase)%edits_origin.
  - exists e0. split_and!; [done..|]. destruct Hcase as [|(? & ? & Hin)]; [by left|right]. split_and!; [done..|].
    rewrite !elem_of_app, list_elem_of_fmap in Hin.
    destruct Hin as [Hin%Hn1|[([[[cid' seq'] who] text] & [= -> -> -> ->] & Hin)|Hin%Hn2]]; done.
  - apply list.Forall_forall. intros op. rewrite !elem_of_app, list_elem_of_fmap.
    intros [Hin%Hn1|[([[[? ?] ?] ?] & -> & _)|Hin%Hn2]]; by try destruct op.
Qed.

(** An edited message stays so, but for a pending edit of its author. *)
Lemma finished_kept now_ms p c cid seq e :
  edit_of (ec_book c) cid seq = Some e → authorship_only e = false →
  edit_of (ec_book (finish_poll now_ms p c)) cid seq = Some e ∨
  me_deleted e = false ∧ ∃ text, (cid, seq, me_author e, text) ∈ po_pending_edits p.
Proof.
  intros He Ha. destruct (finish_poll_run now_ms p c) as (ops1 & ops2 & -> & Hn1 & Hn2).
  destruct (me_deleted e) eqn:Ed; [left; apply edits_kept; auto|].
  destruct (decide ((cid, seq, me_author e) ∈ fst <$> po_pending_edits p)) as [Hin|Hno].
  { apply list_elem_of_fmap in Hin as ([[[cid' seq'] who] text] & [= <- <- <-] & Hin). right. eauto. }
  left. apply edits_kept; [done..|]. right. intros t. rewrite !elem_of_app, list_elem_of_fmap.
  rewrite list.Forall_forall in Hn1. rewrite list.Forall_forall in Hn2.
  intros [Hin%Hn1|[([[[cid' seq'] who] text] & [= <- <- <- <-] & Hin)|Hin%Hn2]]; [done| |done].
  apply Hno, list_elem_of_fmap. by exists (cid, seq, me_author e, t).
Qed.

(** C12: Polling authenticates what it shows and what it changes.  A poll of
    known channels always ends without a panic.  Every message it returns was
    carried by a frame the relay or gossip delivered for that channel under
    that number, in a state of the group reached from the one the client had
    by processing messages under the channel's rules; MLS named its sender, whom the client
    neither removed from the roster nor blocks and to whom the server's policy
    gives the right to send, and the message says what the frame said.  Every
    edit or deletion the client has afterwards it had before, or it was heard
    in this way from the very author of the message, with this text: the
    author recorded before the poll, of a message not deleted until then, or,
    where none was recorded, one who was heard in the poll saying a message
    under that number.  And no edit or deletion is lost: what was edited changes
    only by a further edit of its author, what was deleted never. *)
Theorem poll_authentic v now_ms ids c w :
  (∀ id, id ∈ ids → is_Some (ec_channels c !! id)) →
  ∃ r c' w', poll_channels v now_ms ids c w = Some (r, (c', w')) ∧
    (∀ ms m, r = Ok ms → m ∈ ms → ∃ content,
       heard v (ec_channels c) (delivered c) (cm_channel_id m) (cm_seq m) (cm_sender m) content ∧
       message_content m content) ∧
    (∀ cid seq e, edit_of (ec_book c') cid seq = Some e → authorship_only e = false →
       edit_of (ec_book c) cid seq = Some e ∨
       (∃ n, heard v (ec_channels c) (delivered c) cid n (me_author e) (edit_content seq (me_text e))) ∧
       me_deleted e = bool_decide (me_text e = None) ∧
       match edit_of (ec_book c) cid seq with
       | Some e0 => me_author e0 = me_author e ∧ me_deleted e0 = false
       | None => ∃ content, heard v (ec_channels c) (delivered c) cid seq (me_author e) content ∧ is_message content
       end) ∧
    ∀ cid seq e, edit_of (ec_book c) cid seq = Some e → authorship_only e = false →
      edit_of (ec_book c') cid seq = Some e ∨
      me_deleted e = false ∧ ∃ n text,
        heard v (ec_channels c) (delivered c) cid n (me_author e) (edit_content seq text).
Proof.
  intros Hids. unfold poll_channels.
  destruct (poll_loop_effect v (ec_channels c) c now_ms ids (c, poll_empty) w) as (r & c1 & w1 & p & -> & He & Hr);
    [done|apply sessions_follow_refl|done|].
  destruct He as [_ (ops & Hb & Hq) Hh _]. cbn [fst snd] in *. specialize (Hh (poll_heard_empty _ _ _)).
  assert (Hquiet : ∀ cid seq e, edit_of (ec_book c) cid seq = Some e → authorship_only e = false →
    edit_of (ec_book c1) cid seq = Some e).
  { intros cid seq e He Ha. rewrite Hb. apply edits_kept; [done..|]. right. intros t Hin.
    rewrite list.Forall_forall in Hq. by apply Hq in Hin. }
  assert (Hseen : ∀ cid seq e, edit_of (ec_book c1) cid seq = Some e →
    edit_of (ec_book c) cid seq = Some e ∨ edit_of (ec_book c) cid seq = None ∧ authorship_only e = true ∧
      ∃ content, heard v (ec_channels c) (delivered c) cid seq (me_author e) content ∧ is_message content)
    by (intros cid seq e; rewrite Hb; by apply seen_heard).
  destruct r as [p'|err].
  2: { do 3 eexists. split; [done|]. split; [done|]. split; [|by auto].
       intros cid seq e [|(_ & Ha & _)]%Hseen He; [by left|congruence]. }
  assert (p' = p) as -> by (symmetry; by apply Hr). clear Hr.
  do 3 eexists. split; [done|]. split_and!.
  { intros ms m [= <-] Hm. by apply (ph_out _ _ _ _ Hh). }
  { intros cid seq e He Ha. destruct (finished_edit _ _ _ _ _ _ He) as (e0 & He0 & Hauth & [->|(Hd & Hde & Hin)]).
    - apply Hseen in He0 as [|(_ & Ha' & _)]; [by left|congruence].
    - right. split; [by apply (ph_edits _ _ _ _ Hh)|]. split; [done|].
      apply Hseen in He0 as [->|(-> & _ & Hc)]; [done|]. by rewrite <- Hauth. }
  intros cid seq e He Ha. destruct (finished_kept now_ms p c1 cid seq e) as [|(Hd & text & Hin)]; [by apply Hquiet|done|by left|].
  right. split; [done|]. destruct (ph_edits _ _ _ _ Hh _ _ _ _ Hin) as [n Hn]. by exists n, text.
Qed.

(** C20: A channel's position is where the relay's log is.  After a poll that
    succeeded, the position of every channel polled is the greatest of the
    old one and the numbers the relay answered to a request from the old one:
    it never goes back, and nothing heard over gossip moves it.  A channel
    not polled keeps its position. *)
Theorem poll_position v now_ms ids c w ms c' w' :
  NoDup ids → poll_channels v now_ms ids c w = Some (Ok ms, (c', w')) →
  ∀ id ch ch', ec_channels c !! id = Some ch → ec_channels c' !! id = Some ch' →
    if decide (id ∈ ids)
    then ∃ w0 relay w1, sync_fetch_channel id (cs_last_seq ch) w0 = (Ok relay, w1) ∧
           cs_last_seq ch' = foldl N.max (cs_last_seq ch) relay.*1
    else cs_last_seq ch' = cs_last_seq ch.
Proof.
  intros Hnd Hp id ch ch' Hch Hch'. unfold poll_channels in Hp.
  destruct (poll_loop v now_ms ids (c, poll_empty) w) as [[[p|e] [c1 w1]]|] eqn:El; [|done..].
  injection Hp as _ <- <-. apply finish_poll_channels in Hch'.
  pose proof (poll_loop_positions _ _ _ _ _ _ _ _ Hnd El id (cs_last_seq ch)) as Hpos.
  unfold last_seq_of in Hpos. cbn [fst] in Hpos. rewrite Hch, Hch' in Hpos. specialize (Hpos eq_refl).
  destruct (decide (id ∈ ids)).
  - destruct Hpos as (w0 & relay & w2 & Hf & Hs). exists w0, relay, w2. split; [done|]. by injection Hs.
  - by injection Hpos.
Qed.
End polling.

(** ** From the sender to the reader *)
Section delivery.
Context `{CryptoPrims, !AeadLaws, Openmls} {W : Type} `{Connection W}.
Context (debug : string → Response → bytes) (show_mls : MlsError → string).
Implicit Types (c : EngineChannels) (w : W).

(** Text, and what it replies to or is forwarded from. *)
Definition content_text (content : Content) : option (bytes * option N * option bytes) :=
  match content with
  | CText t => Some (t, None, None)
  | CReply s t => Some (t, Some s, None)
  | CForward o t => Some (t, None, Some o)
  | _ => None
  end.

Lemma post_content_posts v id content nonce c w ch ct mls :
  ec_channels c !! id = Some ch →
  mls_encrypt (pad_channel (content_encode content)) (cs_mls ch) = (Ok ct, mls) →
  let c1 := set_channel id (cs_set_mls mls ch) c in
  let frame := wrap_channel_frame id FRAME_APP ct nonce c1 in
  post_content debug show_mls v id content nonce c w =
    let '(r, w1) := post_channel_frame debug v id frame w in (r, (c1, w1)).
Proof. intros Hc He. unfold post_content. by rewrite Hc, He. Qed.

Lemma frame_stripped id tag ct nonce c ch ch' :
  ec_channels c !! id = Some ch → cs_log_key ch' = cs_log_key ch → length nonce = 24%nat →
  strip_wrapper ch' id (wrap_channel_frame id tag ct nonce c) ≫= unframe = Some (tag, ct).
Proof.
  intros Hc Hk Hn. unfold strip_wrapper, wrap_channel_frame. rewrite Hc, Hk. cbn [mbind option_bind].
  destruct (cs_log_key ch) as [k|]; [|done]. by rewrite unwrap_wrap.
Qed.

(** C13: What is sent to a channel is what is read.  A text, reply or forward
    that [post_content] encrypts is posted as one frame; a member with the same
    content key, for whom MLS opens the ciphertext to the padded plaintext and
    who does not silence the sender, reads from a log with that one new frame
    exactly one message: the channel's name, the sender MLS names, the text,
    the reply target and the forward origin as sent.  It is the newest entry of
    the reader's history, its number is recorded as the sender's, and the
    reader's position moves past it. *)
Theorem sent_is_read v vr now_ms id content text reply fwd nonce c w ch ct mls
    cr wr wr' chr mlsr sender seq :
  content_ok content → fits_u32 (content_encode content) → length nonce = 24%nat →
  content_text content = Some (text, reply, fwd) →
  ec_channels c !! id = Some ch →
  mls_encrypt (pad_channel (content_encode content)) (cs_mls ch) = (Ok ct, mls) →
  let c1 := set_channel id (cs_set_mls mls ch) c in
  let frame := wrap_channel_frame id FRAME_APP ct nonce c1 in
  ec_channels cr !! id = Some chr → cs_log_key chr = cs_log_key ch →
  process_from ct (Some (ci_host_id (cs_info chr))) (accept_member vr) (cs_mls chr)
    = (Ok (Application sender (pad_channel (content_encode content))), mlsr) →
  length sender = 32%nat → may_speak vr chr sender →
  ec_channel_gossip cr !! id = None → (id, seq) ∉ ec_gossip_shown cr →
  sync_fetch_channel id (cs_last_seq chr) wr = (Ok [(seq, frame)], wr') →
  post_content debug show_mls v id content nonce c w =
    (let '(r, w1) := post_channel_frame debug v id frame w in (r, (c1, w1))) ∧
  ∃ cr', poll_channels vr now_ms [id] cr wr =
      Some (Ok [mkChannelMessage id (ci_channel_name (cs_info chr)) sender text seq reply fwd], (cr', wr')) ∧
    last_seq_of cr' id = Some (N.max (cs_last_seq chr) seq) ∧
    ec_book cr' = trim_channel_edits id (set_dirty (push_channel_history
      (mkChanHistory id sender false now_ms text seq reply fwd) (record_author id seq sender (ec_book cr)))).
Proof.
  intros Hok Hfit Hn Htext Hc Henc c1 frame Hcr Hkey Hproc Hlen Hsil Hgos Hshown Hfetch. apply silenced_spec in Hsil.
  split; [by apply post_content_posts|].
  assert (Hstrip : ∀ n, strip_wrapper (cs_set_last_seq n chr) id frame ≫= unframe = Some (FRAME_APP, ct)).
  { intros n. apply (frame_stripped id FRAME_APP ct nonce c1 (cs_set_mls mls ch)); [|done..].
    apply lookup_insert_eq. }
  unfold poll_channels. cbn [poll_loop fst snd]. rewrite Hcr, Hfetch, Hgos.
  set (r := each _ _ _).
  assert (Hr : ∃ cr', r = (cr', mkPoll
      [mkChannelMessage id (ci_channel_name (cs_info chr)) sender text seq reply fwd]
      [mkChanHistory id sender false now_ms text seq reply fwd] [] [] [] [] {[ id ]}) ∧
    last_seq_of cr' id = Some (N.max (cs_last_seq chr) seq) ∧
    ec_book cr' = record_author id seq sender (ec_book cr)).
  { unfold r. change (poll_entries _ _ _) with [(seq, frame, true)]. rewrite each_cons.
    change (each _ [] ?x) with x. unfold poll_entry. cbn [set_gossip ec_channels]. rewrite Hcr.
    cbn [negb andb]. rewrite Hstrip. cbn [cs_info cs_mls cs_set_last_seq]. rewrite Hproc.
    rewrite Hlen. change (silenced vr (cs_set_mls mlsr _) sender) with (silenced vr chr sender).
    rewrite Hsil. cbn [Nat.eqb negb orb]. rewrite unpad_pad by done. cbn [fmap option_fmap option_map].
    rewrite content_round by done. unfold poll_content.
    assert (Hb : bool_decide ((id, seq) ∈ ec_gossip_shown cr) = false) by by apply bool_decide_eq_false.
    destruct content; try discriminate Htext; injection Htext as <- <- <-;
      unfold poll_text; cbn [set_channel set_channels set_gossip on_book set_shown ec_gossip_shown andb];
      rewrite Hb; eexists; (split; [cbn; rewrite (right_id_L ∅ (∪)); reflexivity|]);
      (split; [|done]); unfold last_seq_of; cbn; rewrite lookup_insert_eq; done. }
  destruct Hr as (cr1 & -> & Hl & Hb). cbn [fst snd po_out].
  eexists. split; [reflexivity|]. unfold finish_poll. cbn [po_evicted po_new_reacts po_pending_edits
    po_pending_pins po_new_history po_out po_edits_touched].
  rewrite bool_decide_eq_false_2 by done. rewrite elements_singleton.
  split; [exact Hl|]. cbn. by rewrite Hb.
Qed.
End delivery.

(** ** Across a restart *)

(** Restarting loses nothing that was said about messages.  Whatever the
    order the maps were written in, the client that loads what [persist]
    wrote has every pin and every reaction again, and every edited or deleted
    message with its author and text, except that an edit to the empty text
    comes back as no edit; an unedited message keeps its author as long as it
    is in the history. *)
Theorem restart_keeps_messages b es rs ps cid seq emoji :
  es ≡ₚ persist_edits b → rs ≡ₚ persist_reactions b → ps ≡ₚ persist_pins b →
  let b' := restore es rs ps (bk_channel_history b) in
  pin_of b' cid seq = pin_of b cid seq ∧
  reactors (bk_channel_reactions b') cid seq emoji = reactors (bk_channel_reactions b) cid seq emoji ∧
  (∀ e, edit_of b cid seq = Some e → authorship_only e = false →
     edit_of b' cid seq = Some (restored_edit e) ∧ (me_text e ≠ Some [] → me_deleted e = false → restored_edit e = e)) ∧
  (∀ e, edit_of b cid seq = Some e → authorship_only e = true →
     edit_of b' cid seq = (λ a, mkMsgEdit a None false) <$> history_author (bk_channel_history b) cid seq).
Proof.
  intros He Hr Hp b'. split_and!.
  - by apply pins_restored.
  - by apply reactions_restored.
  - intros e Hb Ha. unfold b'. rewrite (edits_restored b es) by done. rewrite Hb, Ha. split; [done|].
    intros Ht Hd. unfold restored_edit. rewrite Hd, bool_decide_eq_false_2 by done. destruct e; simpl in *; by subst.
  - intros e Hb Ha. unfold b'. rewrite (edits_restored b es) by done. by rewrite Hb, Ha.
Qed.

(** What a client remembers of unedited messages is bounded, and only old
    ones are forgotten.  Trimming a channel leaves at most 2000 of its
    messages that carry nothing but an author; it invents nothing, keeps every
    edited or deleted message and all other channels, and a message it drops
    is older than every unedited one it keeps. *)
Theorem trim_forgets_oldest cid b :
  let b' := trim_channel_edits cid b in
  (length (unchanged (default ∅ (bk_channel_edits b' !! cid))) ≤ CHANNEL_HISTORY_CAP)%nat ∧
  (∀ cid' seq e, edit_of b' cid' seq = Some e → edit_of b cid' seq = Some e) ∧
  (∀ cid' seq e, edit_of b cid' seq = Some e → cid' ≠ cid ∨ authorship_only e = false →
     edit_of b' cid' seq = Some e) ∧
  (∀ old new e e', edit_of b cid old = Some e → edit_of b' cid old = None →
     edit_of b' cid new = Some e' → authorship_only e' = true → (old < new)%N).
Proof.
  intros b'. assert (Hget : ∀ cid' seq, edit_of b' cid' seq =
    if decide (cid' = cid) then bk_channel_edits b !! cid ≫= λ m, trim_edit_map CHANNEL_HISTORY_CAP m !! seq
    else edit_of b cid' seq) by (intros; apply get2_trim).
  assert (Hmap : bk_channel_edits b' !! cid = trim_edit_map CHANNEL_HISTORY_CAP <$> bk_channel_edits b !! cid).
  { unfold b', trim_channel_edits. destruct (bk_channel_edits b !! cid) eqn:E; [|by rewrite E].
    cbn [set_edits bk_channel_edits]. by rewrite lookup_insert_eq. }
  assert (Hb : ∀ seq, edit_of b cid seq = bk_channel_edits b !! cid ≫= (.!! seq)) by done.
  rewrite Hmap. destruct (bk_channel_edits b !! cid) as [m|] eqn:Em;
    cbn [fmap option_fmap option_map mbind option_bind] in *.
  2: { split_and!.
    - vm_compute. lia.
    - intros cid' seq e. rewrite Hget. by destruct (decide _).
    - intros cid' seq e. rewrite Hget. destruct (decide _) as [->|]; [by rewrite Hb|done].
    - intros old new e e'. by rewrite Hb. }
  destruct (trim_edit_map_spec CHANNEL_HISTORY_CAP m) as (Hsub & Hreal & Hcap & Hold).
  split_and!.
  - simpl. rewrite Hcap. apply Nat.le_min_r.
  - intros cid' seq e. rewrite Hget. destruct (decide _) as [->|]; [|done]. rewrite Hb.
    intros Hs. by eapply lookup_weaken.
  - intros cid' seq e. rewrite Hget. destruct (decide _) as [->|]; [|done]. rewrite Hb.
    intros He [|Ha]; [done|]. by apply Hreal.
  - intros old new e e'. rewrite !Hget, !decide_True, Hb by done. intros He Ho Hn Ha.
    apply (Hold old new e); [done..|]. apply elem_of_unchanged. by exists e'.
Qed.

(** ** Witnesses *)
Module ChannelDemo.
Import LedgerDemo MlsDemo.
#[local] Existing Instance Toy.prims.

(** A relay that answers from a script. *)
Definition Script : Type := list (result Response NetError).
#[export] Instance scripted : Connection Script :=
  {| request := λ _ w, match w with r :: w => (r, w) | [] => (Err NE_Closed, []) end |}.

Definition carol : bytes := sha256 (key 3).
Definition trio (own : N) : ToyMls.TGroup :=
  ToyMls.mkTGroup (lit "hall")
    {[ 0%N := leaf ada 1 (sk 11); 1%N := leaf bob 7 (sk 12); 2%N := leaf carol 3 (sk 13) ]} own 4.
Definition seat (own : N) (identity : bytes) (k : N) : Member :=
  mkMember ∅ (sk (10 + k)) (leaf identity k (sk (10 + k))) identity (trio own).
Definition hall : bytes := replicate 32 x09.
Definition yard : bytes := replicate 32 x0a.
Definition info (id : bytes) : ChannelInfo := mkInfo (key 1) (lit "maps") id (lit "hall") false ada false.
Definition session (id : bytes) (m : Member) (last : N) : ChannelSession :=
  mkChannelSession (info id) m {[ ada; bob; carol ]} last ∅ (Some (sk 20)).
Definition view (n : N) : View := mkView (mkIdentity (sk n) (sk n)) l4 ∅ ∅.
Definition client (m : Member) : EngineChannels :=
  mkEngineChannels {[ hall := session hall m 0; yard := session yard m 0 ]} ∅ ∅ [] book_empty.
Definition reader : EngineChannels := client (seat 2 carol 3).
Definition writer : EngineChannels := client (seat 1 bob 7).
Definition nonce : bytes := replicate 24 x07.
Definition framed (id : bytes) (own : N) (content : Content) : bytes :=
  wrap (sk 20) id (frame FRAME_APP (x01 :: n2b own :: pad_channel (content_encode content))) nonce.
Definition log (id : bytes) (es : list (N * N * Content)) : result Response NetError :=
  Ok (RsChannelLog ((λ '(seq, own, content), (seq, framed id own content)) <$> es)).
Definition poll (ids : list bytes) (c : EngineChannels) (w : Script) := poll_channels (view 3) 50 ids c w.
Definition said (r : option (result (list ChannelMessage) CoreError * (EngineChannels * Script)))
    : option (list (bytes * bytes * N)) :=
  match r with
  | Some (Ok ms, _) => Some ((λ m, (cm_sender m, cm_text m, cm_seq m)) <$> ms)
  | _ => None
  end.
Definition script1 : Script := [log hall [(1, 1, CText (lit "hello")); (2, 1, CEdit 1 (lit "hi"))]%N; log yard []].
Definition script2 : Script := [log hall [(4, 1, CText (lit "a")); (3, 0, CText (lit "b"))]%N; log yard []].
Definition answer : Content := CReply 5 (lit "yes").
Definition script3 : Script := [log hall [(6, 1, answer)]%N].
Definition then_client (r : option (result (list ChannelMessage) CoreError * (EngineChannels * Script))) : EngineChannels :=
  match r with Some (_, (c, _)) => c | None => reader end.
End ChannelDemo.

Section witnesses.
Import Toy LedgerDemo MlsDemo ChannelDemo.
#[local] Existing Instance Toy.prims.

Lemma poll_authentic_witness :
  ∃ m c' w', poll [hall; yard] reader script1 = Some (Ok [m], (c', w')) ∧
    (cm_sender m, cm_text m, cm_seq m) = (bob, lit "hello", 1%N) ∧
    edit_of (ec_book c') hall 1 = Some (mkMsgEdit bob (Some (lit "hi")) false) ∧
    (∃ n, heard (view 3) (ec_channels reader) (delivered reader) hall n bob (CEdit 1 (lit "hi"))) ∧
    ∃ content, heard (view 3) (ec_channels reader) (delivered reader) (cm_channel_id m) (cm_seq m) (cm_sender m) content ∧
      message_content m content.
Proof.
  assert (Hids : ∀ id, id ∈ [hall; yard] → is_Some (ec_channels reader !! id)).
  { intros id Hid. apply elem_of_cons in Hid as [->|Hid].
    - eexists. apply lookup_insert_eq.
    - apply list_elem_of_singleton in Hid as ->. eexists. cbn [reader client ec_channels].
      rewrite lookup_insert_ne; [apply lookup_insert_eq|]. discriminate. }
  destruct (poll_authentic (view 3) 50 [hall; yard] reader script1 Hids) as (r & c' & w' & E & Hm & He & _).
  change (poll [hall; yard] reader script1 = Some (r, (c', w'))) in E.
  assert (Hs : match poll [hall; yard] reader script1 with
    | Some (Ok [m], (c', _)) => bool_decide ((cm_sender m, cm_text m, cm_seq m) = (bob, lit "hello", 1%N)) &&
        bool_decide (edit_of (ec_book c') hall 1 = Some (mkMsgEdit bob (Some (lit "hi")) false))
    | _ => false
    end = true) by (vm_compute; reflexivity).
  rewrite E in Hs. destruct r as [[|m [|]]|]; try discriminate Hs.
  apply andb_true_iff in Hs as [H1 H2]. apply bool_decide_eq_true in H1, H2.
  exists m, c', w'. split; [exact E|]. split; [exact H1|]. split; [exact H2|].
  split; [|apply (Hm [m] m eq_refl); by left].
  destruct (He hall 1%N _ H2 eq_refl) as [Hold|[Hheard _]]; [|exact Hheard].
  exfalso. assert (Hn : edit_of (ec_book reader) hall 1 = None) by (vm_compute; reflexivity). congruence.
Defined.

Lemma poll_position_witness :
  ∃ c' ch' w0 relay w1, ec_channels c' !! hall = Some ch' ∧ cs_last_seq ch' = 4%N ∧
    sync_fetch_channel hall 0%N w0 = (Ok relay, w1) ∧ cs_last_seq ch' = foldl N.max 0%N relay.*1.
Proof.
  assert (Hs : match poll [hall; yard] reader script2 with
    | Some (Ok _, (c', _)) => bool_decide (last_seq_of c' hall = Some 4%N)
    | _ => false
    end = true) by (vm_compute; reflexivity).
  destruct (poll [hall; yard] reader script2) as [[[ms|e] [c' w']]|] eqn:E; try discriminate Hs.
  assert (Hnd : NoDup [hall; yard]) by (apply (bool_decide_unpack _); vm_compute; exact I).
  assert (Hin : hall ∈ [hall; yard]) by left.
  apply bool_decide_eq_true in Hs. unfold last_seq_of in Hs.
  destruct (ec_channels c' !! hall) as [ch'|] eqn:Ech; [|discriminate Hs].
  pose proof (poll_position (view 3) 50 [hall; yard] reader script2 ms c' w' Hnd E hall
    (session hall (seat 2 carol 3) 0) ch' (lookup_insert_eq _ _ _) Ech) as Hp.
  rewrite decide_True in Hp by exact Hin. destruct Hp as (w0 & relay & w1 & Hf & Hm).
  exists c', ch', w0, relay, w1. split; [exact Ech|]. split; [by injection Hs|]. split; [exact Hf|exact Hm].
Defined.

Lemma sent_is_read_witness :
  ∃ cr', poll_channels (view 3) 50 [hall] reader script3 =
      Some (Ok [mkChannelMessage hall (lit "hall") bob (lit "yes") 6 (Some 5%N) None], (cr', [])).
Proof.
  assert (Hp : match process_from (x01 :: x01 :: pad_channel (content_encode answer))
      (Some ada) (accept_member (view 3)) (seat 2 carol 3) with
    | (Ok (Application s pt), _) => bool_decide (s = bob ∧ pt = pad_channel (content_encode answer))
    | _ => false
    end = true) by (vm_compute; reflexivity).
  destruct (process_from _ _ _ _) as [[[s pt| |]|e] mr] eqn:Ep; try discriminate Hp.
  apply bool_decide_eq_true in Hp as [-> ->].
  set (ct := x01 :: x01 :: pad_channel (content_encode answer)) in *.
  assert (Hframe : sync_fetch_channel hall 0%N script3 = (Ok [(6%N, wrap_channel_frame hall FRAME_APP ct nonce
    (set_channel hall (cs_set_mls (seat 1 bob 7) (session hall (seat 1 bob 7) 0)) writer))], [])).
  { unfold wrap_channel_frame. cbn [set_channel set_channels ec_channels]. rewrite lookup_insert_eq. reflexivity. }
  assert (Hok : content_ok answer) by (vm_compute; repeat split).
  assert (Hfit : fits_u32 (content_encode answer)) by (vm_compute; reflexivity).
  assert (Hw : ec_channels writer !! hall = Some (session hall (seat 1 bob 7) 0)) by apply lookup_insert_eq.
  assert (Hr : ec_channels reader !! hall = Some (session hall (seat 2 carol 3) 0)) by apply lookup_insert_eq.
  assert (Hsil : may_speak (view 3) (session hall (seat 2 carol 3) 0) bob)
    by (apply silenced_spec; vm_compute; reflexivity).
  assert (Hlen : length bob = 32%nat) by (vm_compute; reflexivity).
  destruct (sent_is_read (λ _ _, []) (λ _, "mls"%string) (view 7) (view 3) 50 hall answer
    (lit "yes") (Some 5%N) None nonce writer [] (session hall (seat 1 bob 7) 0) ct (seat 1 bob 7)
    reader script3 [] (session hall (seat 2 carol 3) 0) mr bob 6%N
    Hok Hfit eq_refl eq_refl Hw eq_refl Hr eq_refl Ep Hlen Hsil (lookup_empty _) (not_elem_of_empty _) Hframe)
    as [_ (cr' & Hcr & _)].
  exists cr'. exact Hcr.
Defined.

(** The yard's relay fails: what the hall's had delivered is never shown. *)
Example failed_fetch_loses_messages :
  let first := poll [hall; yard] reader [log hall [(1, 1, CText (lit "hello"))]%N; Err NE_Closed] in
  said first = None ∧
  last_seq_of (then_client first) hall = Some 1%N ∧
  ec_book (then_client first) = record_author hall 1 bob book_empty ∧
  said (poll [hall; yard] (then_client first) [log hall []; log yard []]) = Some [].
Proof. vm_compute. split_and!; reflexivity. Qed.

(** Bob gossips a frame under the number Ada's next message gets: Ada's is not
    shown, and Bob passes for the author of it. *)
Example gossip_takes_a_number :
  let heard := buffer_gossip hall 1 (framed hall 1 (CText (lit "bob's"))) reader in
  let first := poll [hall] heard [log hall []] in
  let second := poll [hall] (then_client first) [log hall [(1, 0, CText (lit "ada's"))]%N] in
  said first = Some [(bob, lit "bob's", 1%N)] ∧ said second = Some [] ∧
  edit_of (ec_book (then_client second)) hall 1 = Some (mkMsgEdit bob None false).
Proof. vm_compute. split_and!; reflexivity. Qed.

(** Deleting the text of a message by an edit is forgotten. *)
Example empty_edit_forgotten :
  let b := apply_channel_edit hall 1 bob (Some []) (record_author hall 1 bob book_empty) in
  let b' := restore (persist_edits b) (persist_reactions b) (persist_pins b) [] in
  edit_of b hall 1 = Some (mkMsgEdit bob (Some []) false) ∧ edit_of b' hall 1 = Some (mkMsgEdit bob None false).
Proof. vm_compute. split; reflexivity. Qed.

Lemma restart_keeps_messages_witness :
  let b := apply_channel_pin (Some ada) hall 1 ada false 9 (apply_channel_edit hall 1 bob (Some (lit "hi"))
             (record_author hall 1 bob book_empty)) in
  let b' := restore (persist_edits b) (persist_reactions b) (persist_pins b) [] in
  pin_of b' hall 1 = Some (mkPinInfo ada 9) ∧ edit_of b' hall 1 = Some (mkMsgEdit bob (Some (lit "hi")) false).
Proof.
  set (b := apply_channel_pin _ _ _ _ _ _ _). cbv zeta.
  destruct (restart_keeps_messages b (persist_edits b) (persist_reactions b) (persist_pins b) hall 1%N []
    (Permutation_refl _) (Permutation_refl _) (Permutation_refl _)) as (Hp & _ & He & _).
  assert (Hb : edit_of b hall 1 = Some (mkMsgEdit bob (Some (lit "hi")) false)) by (vm_compute; reflexivity).
  assert (Hq : pin_of b hall 1 = Some (mkPinInfo ada 9)) by (vm_compute; reflexivity).
  assert (Hh : bk_channel_history b = []) by (vm_compute; reflexivity). rewrite Hh in Hp, He.
  split; [by rewrite Hp|]. destruct (He _ Hb eq_refl) as [-> _]. reflexivity.
Defined.
End witnesses.
