(* ===== verification/ClientDm.v ===== *)
(** * The client's direct messages
    ([crates/dante-core/src/engine.rs])

    Sending a content to a peer (opening a session on first contact), polling
    the mailbox, edits and deletions of direct messages, files, and the
    short-lived typing and presence signals.  The arms of [receive_all] for
    calls, group calls and channel control act on parts of the engine that are
    not modelled here: they are the parameter [rest], with that part of the
    engine in the world of the connection.  Secrets drawn at random are
    arguments. *)

From S2P Require Import Prelude Utf8 Enc Crypto ProtoRecord Envelope IdentityRecords Ledger X3dh Ratchet Session FileTransfer Content Mailbox Wire Roles Channel LocalStore Mls Sync ClientMessages ClientChannels.

(** [Result::map] *)
Definition map_ok {A B E} (f : A → B) (r : result A E) : result B E :=
  match r with Ok a => Ok (f a) | Err e => Err e end.

(** ** State *)
Record DmMsgEdit := mkDmMsgEdit { dme_text : option bytes; dme_deleted : bool }.
Record DmEdit := mkDmEdit { de_peer_idk : bytes; de_msg_id : bytes; de_text : option bytes; de_deleted : bool }.

#[export] Instance DmMsgEdit_eq_dec : EqDecision DmMsgEdit.
Proof. solve_decision. Defined.
#[export] Instance HistoryKind_eq_dec : EqDecision HistoryKind.
Proof. solve_decision. Defined.

Notation DmEditMap := (gmap bytes (gmap bytes DmMsgEdit)).

(** The fields of [Engine] the operations below change. *)
Record Dm := mkDmState {
  dm_sessions : gmap bytes Session;
  dm_prekeys : PreKeySecrets;
  dm_history : list HistoryEntry;
  dm_edits : DmEditMap;
  dm_new_edits : list DmEdit;
  dm_seen : gset bytes;
  dm_seen_order : list bytes;
  dm_last_fetch_since_ms : N;
  dm_dirty : bool;
}.

Definition set_sessions (m : gmap bytes Session) (d : Dm) : Dm :=
  mkDmState m (dm_prekeys d) (dm_history d) (dm_edits d) (dm_new_edits d) (dm_seen d) (dm_seen_order d)
    (dm_last_fetch_since_ms d) (dm_dirty d).
Definition set_prekeys (p : PreKeySecrets) (d : Dm) : Dm :=
  mkDmState (dm_sessions d) p (dm_history d) (dm_edits d) (dm_new_edits d) (dm_seen d) (dm_seen_order d)
    (dm_last_fetch_since_ms d) (dm_dirty d).
Definition push_history (e : HistoryEntry) (d : Dm) : Dm :=
  mkDmState (dm_sessions d) (dm_prekeys d) (dm_history d ++ [e]) (dm_edits d) (dm_new_edits d) (dm_seen d)
    (dm_seen_order d) (dm_last_fetch_since_ms d) (dm_dirty d).
Definition set_dm_edits (m : DmEditMap) (news : list DmEdit) (d : Dm) : Dm :=
  mkDmState (dm_sessions d) (dm_prekeys d) (dm_history d) m news (dm_seen d) (dm_seen_order d)
    (dm_last_fetch_since_ms d) (dm_dirty d).
Definition set_seen (s : gset bytes) (order : list bytes) (d : Dm) : Dm :=
  mkDmState (dm_sessions d) (dm_prekeys d) (dm_history d) (dm_edits d) (dm_new_edits d) s order
    (dm_last_fetch_since_ms d) (dm_dirty d).
Definition set_since (n : N) (d : Dm) : Dm :=
  mkDmState (dm_sessions d) (dm_prekeys d) (dm_history d) (dm_edits d) (dm_new_edits d) (dm_seen d)
    (dm_seen_order d) n (dm_dirty d).
Definition touch (d : Dm) : Dm :=
  mkDmState (dm_sessions d) (dm_prekeys d) (dm_history d) (dm_edits d) (dm_new_edits d) (dm_seen d)
    (dm_seen_order d) (dm_last_fetch_since_ms d) true.

(** ** Constants *)
Definition DM_TTL_MS : N := 7 * 24 * 60 * 60 * 1000.
Definition TYPING_TTL_MS : N := 10000.
Definition VOICE_PRESENCE_TTL_MS : N := 15000.
Definition SEEN_CAP : nat := 5000.
Definition PREKEY_POOL_TARGET : nat := 50.
Definition DM_TYPING_TOPIC_DOMAIN : bytes := lit "dante/typing/dm/v1".
Definition CHANNEL_SIGNAL_LABEL : bytes := lit "dante/channel-signal/v1".
Definition VOICE_PRESENCE_LABEL : bytes := lit "dante/voice-presence/v1".

Definition no_msg_id : bytes := replicate 16 x00.

(** ** Envelopes already seen

    The answer is [HashSet::insert]'s: whether [tag] is new. *)
Definition record_seen_envelope (seen : gset bytes) (order : list bytes) (tag : bytes) (cap : nat)
    : bool * (gset bytes * list bytes) :=
  if bool_decide (tag ∈ seen) then (false, (seen, order))
  else
    let seen := {[ tag ]} ∪ seen in
    let order := order ++ [tag] in
    if (cap <? length order)%nat then
      match order with
      | oldest :: rest => (true, (seen ∖ {[ oldest ]}, rest))
      | [] => (true, (seen, order))
      end
    else (true, (seen, order)).

(** ** Edits *)

(** [entry(peer).or_default().entry(id).or_default()] stays when the message
    is deleted already. *)
Definition apply_dm_edit (peer_idk msg_id : bytes) (new_text : option bytes) (d : Dm) : Dm :=
  let entry := default (mkDmMsgEdit None false) (get2 (dm_edits d) peer_idk msg_id) in
  if dme_deleted entry then set_dm_edits (put2 peer_idk msg_id entry (dm_edits d)) (dm_new_edits d) d
  else
    let deleted := match new_text with Some _ => false | None => true end in
    touch (set_dm_edits (put2 peer_idk msg_id (mkDmMsgEdit new_text deleted) (dm_edits d))
      (dm_new_edits d ++ [mkDmEdit peer_idk msg_id new_text deleted]) d).

Definition is_text (k : HistoryKind) : bool := match k with HkText _ => true | HkFile _ _ => false end.

Definition names_text (outgoing : bool) (peer_idk msg_id : bytes) (e : HistoryEntry) : bool :=
  Bool.eqb (he_outgoing e) outgoing && bool_decide (he_peer_idk e = peer_idk)
  && bool_decide (he_msg_id e = msg_id) && is_text (he_kind e).

Definition dm_target_matches (from msg_id : bytes) (d : Dm) : bool :=
  existsb (names_text false from msg_id) (dm_history d).

Definition take_dm_edits (d : Dm) : list DmEdit * Dm := (dm_new_edits d, set_dm_edits (dm_edits d) [] d).

Definition dm_edit_snapshot (d : Dm) : list DmEdit :=
  omap (λ '(peer, msg_id, e),
    if dme_deleted e then Some (mkDmEdit peer msg_id None true)
    else (λ t, mkDmEdit peer msg_id (Some t) false) <$> dme_text e) (entries2 (dm_edits d)).

(** [persist] and [connect] *)
Definition persist_dm_edits (d : Dm) : list StoredDmEdit :=
  omap (λ '(peer, msg_id, e),
    if bool_decide (is_Some (dme_text e)) || dme_deleted e
    then Some (mkStoredDmEdit peer msg_id (default [] (dme_text e)) (dme_deleted e))
    else None) (entries2 (dm_edits d)).
Definition restore_dm_edit (m : DmEditMap) (de : StoredDmEdit) : DmEditMap :=
  put2 (dd_peer_idk de) (dd_msg_id de)
    (mkDmMsgEdit (if negb (dd_deleted de) && negb (bool_decide (dd_text de = [])) then Some (dd_text de) else None)
       (dd_deleted de)) m.

(** ** What polling reports *)
Inductive Inbound : Type :=
  | InMessage (from_idk text msg_id : bytes)
  | InFile (from_idk filename data : bytes)
  | InIncomingCall (from_idk : bytes)
  | InCallEnded (from_idk : bytes)
  | InGroupCallInvite (channel_id from_idk : bytes)
  | InGroupCallMembersChanged (channel_id : bytes)
  | InChannelBacklog (channel_id : bytes) (entries : list BacklogEntry)
  | InVoiceSignal (channel_id from_idk : bytes) (kind : N) (data : bytes)
  | InCallSignal (from_idk : bytes) (kind : N) (data : bytes)
  | InChannelInvite (channel_id from_idk channel_name server_name : bytes).

(** A content that is conversation, as history keeps it. *)
Definition conversation (content : Content) : option (HistoryKind * bytes) :=
  match content with
  | CText t => Some (HkText t, no_msg_id)
  | CTextId t id => Some (HkText t, id)
  | CFile m => Some (HkFile (fm_filename m) (fm_total_size m), no_msg_id)
  | _ => None
  end.

Section dm.
Context `{CryptoPrims}.

(** The block list is asked by this id. *)
Definition idk_to_id (idk : bytes) : bytes :=
  match sign_public_from_bytes idk with Ok pk => sha256 pk | Err _ => idk end.

Definition decrypt_packet (me : Identity) (fresh from_idk : bytes) (packet : Packet) (d : Dm)
    : option (result bytes CoreError * Dm) :=
  match packet with
  | PInit init =>
    match accept me init fresh (dm_prekeys d) with
    | None => None
    | Some (Err e, prekeys) => Some (Err (CoDm e), set_prekeys prekeys d)
    | Some (Ok (session, plaintext), prekeys) =>
      Some (Ok plaintext, set_sessions (<[from_idk := session]> (dm_sessions d)) (set_prekeys prekeys d))
    end
  | PMessage msg =>
    match dm_sessions d !! from_idk with
    | None => Some (Err CoNoSession, d)
    | Some session =>
      match session_decrypt fresh msg session with
      | None => None
      | Some (r, session) =>
        Some (map_err CoDm r, set_sessions (<[from_idk := session]> (dm_sessions d)) d)
      end
    end
  end.

Section world.
Context {W : Type} `{Connection W}.
Context (debug : string → Response → bytes).

(** The DHT, where the client runs a node. *)
Context (dht_get_prekey : option (bytes → option bytes)).

(** ** Sending *)

(** A relay that fails is as good as one without the bundle: the client is
    built with its p2p feature. *)
Definition fetch_prekey_bundle (peer_id : bytes) (w : W) : result bytes CoreError * W :=
  match sync_get_prekeys peer_id w with
  | (Ok (Some blob), w) => (Ok blob, w)
  | (_, w) => (ok_or (dht_get_prekey ≫= λ get, get peer_id) CoNoPrekeys, w)
  end.

(** What is checked of a fetched bundle: it is this peer's, under the keys
    the ledger has for the peer. *)
Definition check_bundle (peer_id peer_idk peer_ik : bytes) (bundle : PreKeyBundle) : result unit CoreError :=
  if negb (bool_decide (pb_idk_pub bundle = peer_idk)) || negb (bool_decide (pb_identity_id bundle = peer_id))
  then Err CoBadPeerPrekeys
  else if negb (bool_decide (pb_ik_pub bundle = peer_ik)) then Err CoBadPeerPrekeys
  else map_err (λ _, CoBadPeerPrekeys) (bundle_verify bundle).

(** The secrets a send draws: two to open a session, one for the envelope. *)
Record Draws := mkDraws { dr_ek : bytes; dr_ratchet : bytes; dr_eph : bytes }.

Definition make_packet (me : Identity) (dr : Draws) (peer_id peer_idk peer_ik plaintext : bytes) (d : Dm) (w : W)
    : option (result Packet CoreError * (Dm * W)) :=
  match dm_sessions d !! peer_idk with
  | Some session =>
    match session_encrypt plaintext session with
    | None => None
    | Some (r, session) =>
      Some (map_err CoDm (map_ok PMessage r),
            (set_sessions (<[peer_idk := session]> (dm_sessions d)) d, w))
    end
  | None =>
    let '(fetched, w) := fetch_prekey_bundle peer_id w in
    match (let? blob := fetched in
           let? bundle := map_err CoWire (bundle_decode blob) in
           let? _ := check_bundle peer_id peer_idk peer_ik bundle in Ok bundle) with
    | Err e => Some (Err e, (d, w))
    | Ok bundle =>
      match initiate me bundle plaintext (dr_ek dr) (dr_ratchet dr) with
      | None => None
      | Some (Err e) => Some (Err (CoDm e), (d, w))
      | Some (Ok (session, init)) =>
        Some (Ok (PInit init), (set_sessions (<[peer_idk := session]> (dm_sessions d)) d, w))
      end
    end
  end.

Definition send_content (v : View) (dr : Draws) (peer_id : bytes) (content : Content) (now_ms : N) (d : Dm) (w : W)
    : option (result unit CoreError * (Dm * W)) :=
  let me := vw_identity v in
  if bool_decide (peer_id ∈ vw_blocked v) && bool_decide (is_Some (conversation content))
  then Some (Err CoBlocked, (d, w))
  else
    match idk_for_id (vw_ledger v) peer_id with
    | None => Some (Err CoUnknownPeer, (d, w))
    | Some peer_idk =>
      match agreement_key (vw_ledger v) peer_idk with
      | None => Some (Err CoUnknownPeer, (d, w))
      | Some peer_ik =>
        match make_packet me dr peer_id peer_idk peer_ik (content_encode content) d w with
        | None => None
        | Some (Err e, dw) => Some (Err e, dw)
        | Some (Ok packet, (d, w)) =>
          match envelope_seal_with peer_id peer_ik (identity_sign_public me) (packet_encode packet)
                  now_ms DM_TTL_MS (identity_sign me) (dr_eph dr) with
          | Err e => Some (Err (CoCrypto e), (d, w))
          | Ok env =>
            match sync_deposit debug env w with
            | (Err e, w) => Some (Err (CoNet e), (d, w))
            | (Ok _, w) =>
              let d := match conversation content with
                       | Some (kind, id) => push_history (mkHistory peer_idk true now_ms kind id) d
                       | None => d
                       end in
              Some (Ok tt, (touch d, w))
            end
          end
        end
      end
    end.

(** [id] is drawn. *)
Definition send_dm (v : View) (dr : Draws) (peer_id text id : bytes) (now_ms : N) (d : Dm) (w : W)
    : option (result bytes CoreError * (Dm * W)) :=
  match send_content v dr peer_id (CTextId text id) now_ms d w with
  | Some (r, dw) => Some (map_ok (λ _, id) r, dw)
  | None => None
  end.

Definition post_dm_edit (v : View) (dr : Draws) (peer_id msg_id : bytes) (new_text : option bytes) (now_ms : N)
    (d : Dm) (w : W) : option (result unit CoreError * (Dm * W)) :=
  match idk_for_id (vw_ledger v) peer_id with
  | None => Some (Err CoUnknownPeer, (d, w))
  | Some peer_idk =>
    if negb (existsb (names_text true peer_idk msg_id) (dm_history d)) then
      Some (Err (CoMessage "unknown message (or sent before restart)"), (d, w))
    else if from_option dme_deleted false (get2 (dm_edits d) peer_idk msg_id) then
      Some (Err (CoMessage "that message was deleted"), (d, w))
    else
      let content := match new_text with Some t => CDmEdit msg_id t | None => CDmDelete msg_id end in
      match send_content v dr peer_id content now_ms d w with
      | Some (Ok _, (d, w)) => Some (Ok tt, (apply_dm_edit peer_idk msg_id new_text d, w))
      | r => r
      end
  end.

Definition edit_dm (v : View) (dr : Draws) (peer_id msg_id new_text : bytes) (now_ms : N) (d : Dm) (w : W) :=
  post_dm_edit v dr peer_id msg_id (Some new_text) now_ms d w.
Definition delete_dm (v : View) (dr : Draws) (peer_id msg_id : bytes) (now_ms : N) (d : Dm) (w : W) :=
  post_dm_edit v dr peer_id msg_id None now_ms d w.

Fixpoint put_chunks (chunks : list bytes) (w : W) : result unit NetError * W :=
  match chunks with
  | [] => (Ok tt, w)
  | chunk :: chunks =>
    match sync_put_blob debug chunk w with
    | (Err e, w) => (Err e, w)
    | (Ok _, w) => put_chunks chunks w
    end
  end.

(** [file_key] is drawn. *)
Definition send_file (v : View) (dr : Draws) (peer_id filename data file_key : bytes) (now_ms : N) (d : Dm) (w : W)
    : option (result unit CoreError * (Dm * W)) :=
  let '(manifest, chunks) := build (vw_identity v) filename data file_key in
  match put_chunks chunks w with
  | (Err e, w) => Some (Err (CoNet e), (d, w))
  | (Ok _, w) => send_content v dr peer_id (CFile manifest) now_ms d w
  end.

(** ** Receiving *)
Fixpoint get_chunks (hashes : list bytes) (w : W) : result (list bytes) CoreError * W :=
  match hashes with
  | [] => (Ok [], w)
  | hash :: hashes =>
    match sync_get_blob hash w with
    | (Err e, w) => (Err (CoNet e), w)
    | (Ok None, w) => (Err CoMissingBlob, w)
    | (Ok (Some blob), w) =>
      let '(r, w) := get_chunks hashes w in (map_ok (cons blob) r, w)
    end
  end.

Definition fetch_file (manifest : FileManifest) (w : W) : option (result (bytes * bytes) CoreError * W) :=
  match manifest_verify manifest with
  | Err e => Some (Err (CoDm e), w)
  | Ok _ =>
    match get_chunks (fm_chunk_hashes manifest) w with
    | (Err e, w) => Some (Err e, w)
    | (Ok chunks, w) =>
      match reassemble manifest chunks with
      | None => None
      | Some r => Some (map_err CoDm (map_ok (pair (fm_filename manifest)) r), w)
      end
    end
  end.

(** The arms of calls, group calls and channel control. *)
Context (rest : View → bytes → Content → N → Dm * W → option (list Inbound * (Dm * W))).

Definition fold_content (v : View) (from : bytes) (now_ms : N) (content : result Content WireError) (d : Dm) (w : W)
    : option (list Inbound * (Dm * W)) :=
  match content with
  | Ok (CText text) =>
    Some ([InMessage from text no_msg_id],
          (push_history (mkHistory from false now_ms (HkText text) no_msg_id) d, w))
  | Ok (CTextId text id) =>
    Some ([InMessage from text id], (push_history (mkHistory from false now_ms (HkText text) id) d, w))
  | Ok (CDmEdit target text) =>
    Some ([], (if dm_target_matches from target d then apply_dm_edit from target (Some text) d else d, w))
  | Ok (CDmDelete target) =>
    Some ([], (if dm_target_matches from target d then apply_dm_edit from target None d else d, w))
  | Ok (CFile manifest) =>
    match fetch_file manifest w with
    | None => None
    | Some (Ok (filename, data), w) =>
      Some ([InFile from filename data],
            (push_history (mkHistory from false now_ms (HkFile filename (len data)) no_msg_id) d, w))
    | Some (Err _, w) => Some ([], (d, w))
    end
  | Ok (CVoiceSignal channel_id kind data) => Some ([InVoiceSignal channel_id from kind data], (d, w))
  | Ok (CCallSignal kind data) => Some ([InCallSignal from kind data], (d, w))
  | Ok (CTyping | CReaction _ _ _ | CEdit _ _ | CDelete _ | CReply _ _ | CPin _ _ | CForward _ _) | Err _ =>
    Some ([], (d, w))
  | Ok c => rest v from c now_ms (d, w)
  end.

(** One envelope: what it reports, and whether it opened a session. *)
Definition receive_one (v : View) (now_ms : N) (fresh : bytes) (env : Envelope) (d : Dm) (w : W)
    : option (list Inbound * bool * (Dm * W)) :=
  let '(newly, (seen, order)) :=
    record_seen_envelope (dm_seen d) (dm_seen_order d) (sha256 (envelope_encode env)) SEEN_CAP in
  if negb newly then Some ([], false, (d, w))
  else
    let d := set_seen seen order d in
    match envelope_open env (id_ik (vw_identity v)) with
    | Err _ => Some ([], false, (d, w))
    | Ok sealed =>
      match packet_decode (sc_inner sealed) with
      | Err _ => Some ([], false, (d, w))
      | Ok packet =>
        let from := sc_sender_idk sealed in
        if bool_decide (idk_to_id from ∈ vw_blocked v) then Some ([], false, (d, w))
        else
          let init := match packet with PInit _ => true | PMessage _ => false end in
          match decrypt_packet (vw_identity v) fresh from packet d with
          | None => None
          | Some (Err _, d) => Some ([], init, (d, w))
          | Some (Ok plaintext, d) =>
            match fold_content v from now_ms (content_decode plaintext) d w with
            | None => None
            | Some (out, (d, w)) => Some (out, init, (touch d, w))
            end
          end
      end
    end.

Fixpoint receive_loop (v : View) (now_ms : N) (fresh : nat → bytes) (envs : list Envelope) (out : list Inbound)
    (consumed : bool) (d : Dm) (w : W) : option (list Inbound * bool * (Dm * W)) :=
  match envs with
  | [] => Some (out, consumed, (d, w))
  | env :: envs =>
    match receive_one v now_ms (fresh 0%nat) env d w with
    | None => None
    | Some (out', init, (d, w)) =>
      receive_loop v now_ms (fresh ∘ S) envs (out ++ out') (consumed || init) d w
    end
  end.

Definition publish_prekeys (v : View) (otps : nat → bytes) (d : Dm) (w : W) : result unit CoreError * (Dm * W) :=
  let '(minted, prekeys) := replenish otps PREKEY_POOL_TARGET (dm_prekeys d) in
  let d := set_prekeys prekeys d in
  let d := if (0 <? minted)%nat then touch d else d in
  let bundle := bundle_encode (secrets_bundle prekeys (vw_identity v)) in
  let '(r, w) := Sync.sync_publish_prekeys debug bundle w in
  (map_err CoNet r, (d, w)).

Definition mailbox_hints (v : View) (now_ms : N) : list bytes :=
  let my_id := my_member_id v in
  [recipient_hint my_id now_ms; recipient_hint my_id (now_ms - EPOCH_MS)%N;
   recipient_hint my_id (sat_add64 now_ms EPOCH_MS)].

Definition receive_all (v : View) (now_ms : N) (fresh otps : nat → bytes) (d : Dm) (w : W)
    : option (result (list Inbound) CoreError * (Dm * W)) :=
  match sync_fetch (mailbox_hints v now_ms) (dm_last_fetch_since_ms d) w with
  | (Err e, w) => Some (Err (CoNet e), (d, w))
  | (Ok envelopes, w) =>
    match receive_loop v now_ms fresh envelopes [] false d w with
    | None => None
    | Some (out, consumed, (d, w)) =>
      let d := set_since (now_ms - 2 * EPOCH_MS)%N d in
      let '(d, w) := if consumed : bool then (publish_prekeys v otps d w).2 else (d, w) in
      Some (Ok out, (d, w))
    end
  end.

Definition receive (v : View) (now_ms : N) (fresh otps : nat → bytes) (d : Dm) (w : W)
    : option (result (list (bytes * bytes * bytes)) CoreError * (Dm * W)) :=
  match receive_all v now_ms fresh otps d w with
  | None => None
  | Some (r, dw) =>
    Some (map_ok (omap (λ i, match i with InMessage f t id => Some (f, t, id) | _ => None end)) r, dw)
  end.
End world.
End dm.
