(* ===== verification/ClientSignals.v ===== *)
(** * Signals that are not messages
    ([crates/dante-core/src/engine.rs])

    Typing notices and voice presence: sealed blobs on relay topics that are
    read over and over until they expire and change no state.  A channel's are
    sealed under a secret of its group; a peer's are sealed envelopes. *)

From S2P Require Import Prelude Utf8 Enc Crypto ProtoRecord Envelope IdentityRecords Ledger X3dh FileTransfer IdentityIds Content Mailbox Wire Roles Channel Mls Sync ClientChannels ClientDm.

Inductive TypingScope : Type := ScopeDm (peer_idk : bytes) | ScopeChannel (channel_id : bytes).
Record TypingEvent := mkTyping { ty_scope : TypingScope; ty_who : bytes; ty_at_ms : N }.

#[export] Instance TypingScope_eq_dec : EqDecision TypingScope.
Proof. solve_decision. Defined.
#[export] Instance TypingEvent_eq_dec : EqDecision TypingEvent.
Proof. solve_decision. Defined.

Section signals.
Context `{CryptoPrims}.

(** The topic both ends of a conversation derive. *)
Definition dm_typing_topic (me : Identity) (peer_idk : bytes) : bytes :=
  let mine := identity_sign_public me in
  let '(lo, hi) := if bytes_le mine peer_idk then (mine, peer_idk) else (peer_idk, mine) in
  sha256 (DM_TYPING_TOPIC_DOMAIN ++ lo ++ hi).

Definition voice_presence_topic (channel_id : bytes) : bytes :=
  sha256 (VOICE_PRESENCE_LABEL ++ channel_id).

Section groups.
Context `{Openmls}.
Context (show_mls : MlsError → string).

(** [nonce] is drawn. *)
Definition seal_channel_signal (member : Member) (me channel_id label plaintext nonce : bytes)
    : result bytes CoreError :=
  let? key := map_err (λ e, CoVoice (show_mls e)) (export_key label 32 member) in
  Ok (me ++ nonce ++ xchacha_seal (take 32 key) nonce plaintext (channel_id ++ me)).

Definition open_channel_signal (member : Member) (channel_id label blob : bytes) : option (bytes * bytes) :=
  if (length blob <? 56)%nat then None
  else
    let sender := take 32 blob in
    let nonce := take 24 (drop 32 blob) in
    match export_key label 32 member with
    | Err _ => None
    | Ok key =>
      match xchacha_open (take 32 key) nonce (drop 56 blob) (channel_id ++ sender) with
      | Ok pt => Some (sender, pt)
      | Err _ => None
      end
    end.

Section world.
Context {W : Type} `{Connection W}.
Context (debug : string → Response → bytes).

(** ** Typing *)
Definition send_typing_dm (v : View) (eph peer_id : bytes) (now_ms : N) (w : W) : result unit CoreError * W :=
  let me := vw_identity v in
  match (let? peer_idk := ok_or (idk_for_id (vw_ledger v) peer_id) CoUnknownPeer in
         let? peer_ik := ok_or (agreement_key (vw_ledger v) peer_idk) CoUnknownPeer in
         let? env := map_err CoCrypto (envelope_seal_with peer_id peer_ik (identity_sign_public me)
           (content_encode CTyping) now_ms TYPING_TTL_MS (identity_sign me) eph) in
         Ok (dm_typing_topic me peer_idk, env)) with
  | Err e => (Err e, w)
  | Ok (topic, env) =>
    let '(r, w) := sync_post_signal debug topic (envelope_encode env) w in (map_err CoNet r, w)
  end.

Definition send_typing_channel (v : View) (nonce channel_id : bytes) (now_ms : N) (c : EngineChannels) (w : W)
    : result unit CoreError * W :=
  match ec_channels c !! channel_id with
  | None => (Err CoUnknownChannel, w)
  | Some ch =>
    match seal_channel_signal (cs_mls ch) (my_member_id v) channel_id CHANNEL_SIGNAL_LABEL
            (be 8 now_ms ++ content_encode CTyping) nonce with
    | Err e => (Err e, w)
    | Ok blob => let '(r, w) := sync_post_signal debug channel_id blob w in (map_err CoNet r, w)
    end
  end.

Definition is_typing (inner : bytes) : bool := bool_decide (content_decode inner = Ok CTyping).

Definition typing_dm (v : View) (peer_idk blob : bytes) : option TypingEvent :=
  match envelope_decode blob with
  | Err _ => None
  | Ok env =>
    match envelope_open env (id_ik (vw_identity v)) with
    | Err _ => None
    | Ok sealed =>
      if negb (bool_decide (sc_sender_idk sealed = peer_idk)) then None
      else if bool_decide (idk_to_id (sc_sender_idk sealed) ∈ vw_blocked v) then None
      else if is_typing (sc_inner sealed)
           then Some (mkTyping (ScopeDm peer_idk) (sc_sender_idk sealed) (env_deposited_ms env)) else None
    end
  end.

Definition typing_channel (v : View) (channel_id : bytes) (ch : ChannelSession) (blob : bytes) : option TypingEvent :=
  match open_channel_signal (cs_mls ch) channel_id CHANNEL_SIGNAL_LABEL blob with
  | None => None
  | Some (member, pt) =>
    if bool_decide (member = my_member_id v) || (length pt <? 8)%nat || bool_decide (member ∈ vw_blocked v)
    then None
    else if is_typing (drop 8 pt) then Some (mkTyping (ScopeChannel channel_id) member (of_be (take 8 pt))) else None
  end.

(** [for topic in topics { for blob in fetch(topic)? { .. } }] *)
Fixpoint poll_signals {K} (topic : K → bytes) (read : K → bytes → option TypingEvent) (ks : list K)
    (out : list TypingEvent) (w : W) : result (list TypingEvent) CoreError * W :=
  match ks with
  | [] => (Ok out, w)
  | k :: ks =>
    match sync_fetch_signals (topic k) w with
    | (Err e, w) => (Err (CoNet e), w)
    | (Ok blobs, w) => poll_signals topic read ks (out ++ omap (read k) blobs) w
    end
  end.

(** [peers] and [ids]: the keys of the session and channel maps, in the orders
    they yield them. *)
Definition poll_typing (v : View) (peers ids : list bytes) (c : EngineChannels) (w : W)
    : result (list TypingEvent) CoreError * W :=
  match poll_signals (dm_typing_topic (vw_identity v)) (typing_dm v) peers [] w with
  | (Err e, w) => (Err e, w)
  | (Ok out, w) =>
    poll_signals id
      (λ cid blob, ec_channels c !! cid ≫= λ ch, typing_channel v cid ch blob) ids out w
  end.

(** ** Presence in voice channels

    [in_call]: the channels with a call the client is in. *)
Fixpoint post_presence (v : View) (nonces : nat → bytes) (now_ms : N) (ids : list bytes) (c : EngineChannels) (w : W) : W :=
  match ids with
  | [] => w
  | cid :: ids =>
    let w :=
      match ec_channels c !! cid with
      | None => w
      | Some ch =>
        match seal_channel_signal (cs_mls ch) (my_member_id v) cid VOICE_PRESENCE_LABEL (be 8 now_ms) (nonces 0%nat) with
        | Err _ => w
        | Ok blob => (sync_post_signal debug (voice_presence_topic cid) blob w).2
        end
      end in
    post_presence v (nonces ∘ S) now_ms ids c w
  end.

(** [ids]: the keys of the channel map, in the order it yields them. *)
Definition send_voice_presence (v : View) (nonces : nat → bytes) (in_call : gset bytes) (ids : list bytes)
    (now_ms : N) (c : EngineChannels) (w : W) : W :=
  let connected := filter (λ cid, from_option (λ ch, ci_voice (cs_info ch)) false (ec_channels c !! cid) = true
                                  ∧ cid ∈ in_call) ids in
  post_presence v nonces now_ms connected c w.

Definition fresh_presence (v : View) (channel_id : bytes) (ch : ChannelSession) (now_ms : N) (blob : bytes)
    : option bytes :=
  match open_channel_signal (cs_mls ch) channel_id VOICE_PRESENCE_LABEL blob with
  | None => None
  | Some (member, pt) =>
    if (length pt <? 8)%nat || bool_decide (member ∈ vw_blocked v) then None
    else if (now_ms - of_be (take 8 pt) <=? VOICE_PRESENCE_TTL_MS)%N then Some member else None
  end.

Definition voice_participants (v : View) (in_call : gset bytes) (channel_id : bytes) (now_ms : N) (c : EngineChannels) (w : W)
    : list bytes * W :=
  let own : gset bytes := if bool_decide (channel_id ∈ in_call) then {[ my_member_id v ]} else ∅ in
  let '(r, w) := sync_fetch_signals (voice_presence_topic channel_id) w in
  let heard := match r, ec_channels c !! channel_id with
               | Ok blobs, Some ch => omap (fresh_presence v channel_id ch now_ms) blobs
               | _, _ => []
               end in
  (sort_by_key of_be (elements (own ∪ list_to_set heard)), w).

Fixpoint poll_voice (v : View) (in_call : gset bytes) (ids : list bytes) (now_ms : N) (c : EngineChannels) (w : W)
    : list (bytes * list bytes) * W :=
  match ids with
  | [] => ([], w)
  | cid :: ids =>
    if from_option (λ ch, ci_voice (cs_info ch)) false (ec_channels c !! cid) then
      let '(members, w) := voice_participants v in_call cid now_ms c w in
      let '(out, w) := poll_voice v in_call ids now_ms c w in ((cid, members) :: out, w)
    else poll_voice v in_call ids now_ms c w
  end.
End world.
End groups.
End signals.
