(* ===== verification/ClientDmProofs.v ===== *)
(** * Lemmas on the client's direct messages

    The window of envelopes already seen, what one operation leaves of edits
    and history, and what one envelope can do. *)

From S2P Require Import Prelude Utf8 Enc Crypto ProtoRecord Envelope IdentityRecords Ledger X3dh Ratchet Session FileTransfer Content Mailbox Wire Roles Channel LocalStore Mls Sync ClientMessages ClientMessagesProofs ClientChannels ClientDm.

(** ** The window of seen envelopes *)

(** The set is the queue, which has no repetition and keeps to its cap. *)
Record window_ok (cap : nat) (seen : gset bytes) (order : list bytes) : Prop := {
  wi_nodup : NoDup order;
  wi_elems x : x ∈ seen ↔ x ∈ order;
  wi_len : (length order ≤ cap)%nat;
}.

Lemma window_empty cap : window_ok cap ∅ [].
Proof. constructor; [constructor| |simpl; lia]. intros x. split; [set_solver|by intros ?%not_elem_of_nil]. Qed.

(** The queue takes the new tag at its end and drops its oldest beyond the
    cap. *)
Lemma record_seen_spec cap seen order tag :
  (0 < cap)%nat → window_ok cap seen order →
  let '(newly, (seen', order')) := record_seen_envelope seen order tag cap in
  newly = bool_decide (tag ∉ order) ∧
  order' = (if newly then drop (S (length order) - cap) (order ++ [tag]) else order) ∧
  window_ok cap seen' order'.
Proof.
  intros Hcap [Hnd Hel Hlen]. unfold record_seen_envelope.
  destruct (decide (tag ∈ order)) as [Hin|Hin].
  { rewrite bool_decide_eq_true_2 by by apply Hel. rewrite bool_decide_eq_false_2 by tauto. by split_and!. }
  rewrite bool_decide_eq_false_2 by by rewrite Hel. rewrite (bool_decide_eq_true_2 (tag ∉ order)) by done.
  rewrite length_app. cbn [length].
  assert (Hnd' : NoDup (order ++ [tag])).
  { apply list.NoDup_app. split; [done|]. split; [|by apply list.NoDup_singleton].
    intros x Hx ->%list_elem_of_singleton. done. }
  assert (Hel' : ∀ x, x ∈ {[ tag ]} ∪ seen ↔ x ∈ order ++ [tag]).
  { intros x. rewrite elem_of_union, elem_of_singleton, Hel, elem_of_app, list_elem_of_singleton. tauto. }
  destruct (_ <? _)%nat eqn:E.
  - apply Nat.ltb_lt in E. destruct order as [|old order]; [simpl in E, Hlen; lia|].
    cbn [app length] in *. assert (S (S (length order)) - cap = 1)%nat as -> by lia. cbn [drop].
    split_and!; [done..|]. apply list.NoDup_cons in Hnd' as [Hold Hnd']. constructor; [done| |].
    + intros x. rewrite elem_of_difference, elem_of_singleton, Hel', elem_of_cons. split.
      * intros [[->|?] ?]; [done|done].
      * intros Hx. split; [by right|]. intros ->. done.
    + rewrite length_app. simpl in *. lia.
  - apply Nat.ltb_ge in E. assert (S (length order) - cap = 0)%nat as -> by lia.
    split_and!; [done..|]. constructor; [done..|]. rewrite length_app. simpl. lia.
Qed.

(** ** Edits *)

Definition dm_edit_of (d : Dm) (peer id : bytes) : option DmMsgEdit := get2 (dm_edits d) peer id.

(** What an edit makes of the entry it names. *)
Definition edited (e : DmMsgEdit) (text : option bytes) : DmMsgEdit :=
  if dme_deleted e then e else mkDmMsgEdit text (bool_decide (text = None)).

Lemma apply_dm_edit_of peer id text d peer' id' :
  dm_edit_of (apply_dm_edit peer id text d) peer' id' =
    if decide (peer' = peer ∧ id' = id)
    then Some (edited (default (mkDmMsgEdit None false) (dm_edit_of d peer id)) text)
    else dm_edit_of d peer' id'.
Proof.
  unfold dm_edit_of, apply_dm_edit, edited. set (e := default _ _).
  destruct (dme_deleted e) eqn:Ed; cbn [touch set_dm_edits dm_edits]; rewrite get2_put2;
    (destruct (decide _); [|done]); [done|]. destruct text; done.
Qed.

(** What an operation on direct messages that is neither a send nor a receipt
    of conversation leaves alone. *)
Record quiet_on (d d' : Dm) : Prop := {
  qu_history : dm_history d' = dm_history d;
  qu_edits peer id : dm_edit_of d' peer id = dm_edit_of d peer id;
  qu_seen : dm_seen d' = dm_seen d;
  qu_order : dm_seen_order d' = dm_seen_order d;
}.

Lemma quiet_refl d : quiet_on d d.
Proof. by constructor. Qed.

Lemma quiet_trans a b c : quiet_on a b → quiet_on b c → quiet_on a c.
Proof. intros [H1 E1 S1 O1] [H2 E2 S2 O2]. constructor; intros; congruence. Qed.

Lemma apply_dm_edit_quiet_but peer id text d :
  dm_history (apply_dm_edit peer id text d) = dm_history d ∧
  dm_seen (apply_dm_edit peer id text d) = dm_seen d ∧
  dm_seen_order (apply_dm_edit peer id text d) = dm_seen_order d.
Proof. unfold apply_dm_edit. by case_match. Qed.

Section dm.
Context `{CryptoPrims}.

Lemma decrypt_quiet me fresh from packet d r d' :
  decrypt_packet me fresh from packet d = Some (r, d') → quiet_on d d'.
Proof.
  unfold decrypt_packet. destruct packet as [m|m].
  - destruct (accept _ _ _ _) as [[[[s p]|e] pk]|]; intros [= _ <-]; by constructor.
  - destruct (dm_sessions d !! from); [|by intros [= _ <-]].
    destruct (session_decrypt _ _ _) as [[r' s']|]; intros [= _ <-]; by constructor.
Qed.

Section world.
Context {W : Type} `{Connection W}.
Context (debug : string → Response → bytes) (dht : option (bytes → option bytes)).
Implicit Types (w : W) (v : View).

Lemma make_packet_quiet me dr peer_id peer_idk peer_ik text d w r d' w' :
  make_packet dht me dr peer_id peer_idk peer_ik text d w = Some (r, (d', w')) → quiet_on d d'.
Proof.
  unfold make_packet. destruct (dm_sessions d !! peer_idk).
  - destruct (session_encrypt _ _) as [[r' s']|]; [|done]. intros [= _ <- _]. by constructor.
  - destruct (fetch_prekey_bundle _ _ _) as [f w1].
    destruct (let? blob := f in _) as [b|e]; [|by intros [= _ <- _]].
    destruct (initiate _ _ _ _ _) as [[[s i]|e]|]; intros [= _ <- _]; by constructor.
Qed.

(** A send leaves everything but the sessions, or puts one entry in the
    history. *)
Lemma send_content_effect v dr peer_id content now_ms d w r d' w' :
  send_content debug dht v dr peer_id content now_ms d w = Some (r, (d', w')) →
  dm_seen d' = dm_seen d ∧ dm_seen_order d' = dm_seen_order d ∧
  (∀ peer id, dm_edit_of d' peer id = dm_edit_of d peer id) ∧
  (dm_history d' = dm_history d ∨
   ∃ idk kind id, r = Ok tt ∧ idk_for_id (vw_ledger v) peer_id = Some idk ∧
     conversation content = Some (kind, id) ∧
     dm_history d' = dm_history d ++ [mkHistory idk true now_ms kind id]).
Proof.
  unfold send_content. destruct (_ && _); [by intros [= _ <- _]; auto|].
  destruct (idk_for_id _ _) as [idk|] eqn:Ei; [|by intros [= _ <- _]; auto].
  destruct (agreement_key _ _) as [ik|]; [|by intros [= _ <- _]; auto].
  destruct (make_packet _ _ _ _ _ _ _ _ _) as [[[p|e] [d1 w1]]|] eqn:Ep; [| |done];
    apply make_packet_quiet in Ep as [Hh He Hs Ho].
  2: { intros [= _ <- _]. auto. }
  destruct (envelope_seal_with _ _ _ _ _ _ _ _) as [env|e]; [|intros [= _ <- _]; auto].
  destruct (sync_deposit _ env w1) as [[u|e] w2]; [|intros [= _ <- _]; auto].
  intros [= <- <- _]. destruct (conversation content) as [[kind id]|] eqn:Ec; cbn.
  - split_and!; [done..|]. right. exists idk, kind, id. split_and!; [by destruct u..|by rewrite Hh].
  - auto.
Qed.

Context (rest : View → bytes → Content → N → Dm * W → option (list Inbound * (Dm * W))).

(** What the arms of [receive_all] that are not modelled do to direct
    messages, as the code has them: they send no conversation, so they leave
    history, edits and the window alone, and they report no message and no
    file. *)
Definition rest_frame : Prop := ∀ v from c now_ms d w out d' w',
  rest v from c now_ms (d, w) = Some (out, (d', w')) →
  quiet_on d d' ∧ Forall (λ i, match i with InMessage _ _ _ | InFile _ _ _ => False | _ => True end) out.

(** What a content of a peer does to history and edits. *)
Record folded (from : bytes) (now_ms : N) (content : result Content WireError) (d d' : Dm) (out : list Inbound) : Prop := {
  fo_seen : dm_seen d' = dm_seen d;
  fo_order : dm_seen_order d' = dm_seen_order d;
  fo_history : dm_history d' = dm_history d ∨
    ∃ kind id, dm_history d' = dm_history d ++ [mkHistory from false now_ms kind id] ∧
      match kind with
      | HkText t => out = [InMessage from t id] ∧
          (content = Ok (CText t) ∧ id = no_msg_id ∨ content = Ok (CTextId t id))
      | HkFile name size => ∃ data m, out = [InFile from name data] ∧ content = Ok (CFile m) ∧
          size = len data ∧ name = fm_filename m
      end;
  fo_out : dm_history d' = dm_history d →
    Forall (λ i, match i with InMessage _ _ _ | InFile _ _ _ => False | _ => True end) out;
  fo_edits peer id : dm_edit_of d' peer id = dm_edit_of d peer id ∨
    peer = from ∧ dm_target_matches from id d = true ∧
    ∃ text, content = Ok (match text with Some t => CDmEdit id t | None => CDmDelete id end) ∧
      dm_edit_of d' peer id = Some (edited (default (mkDmMsgEdit None false) (dm_edit_of d peer id)) text);
}.

Lemma folded_quiet from now_ms content d d' out :
  quiet_on d d' →
  Forall (λ i, match i with InMessage _ _ _ | InFile _ _ _ => False | _ => True end) out →
  folded from now_ms content d d' out.
Proof. intros [Hh He Hs Ho] Hout. constructor; auto. Qed.

Lemma history_grows d e : dm_history d ++ [e] ≠ dm_history d.
Proof. intros E%(f_equal length). rewrite length_app in E. simpl in E. lia. Qed.

Lemma fold_content_folded v from now_ms content d w out d' w' :
  rest_frame → fold_content rest v from now_ms content d w = Some (out, (d', w')) →
  folded from now_ms content d d' out.
Proof.
  intros Hrest. unfold fold_content.
  assert (Htext : ∀ t id, (content = Ok (CText t) ∧ id = no_msg_id ∨ content = Ok (CTextId t id)) →
    folded from now_ms content d (push_history (mkHistory from false now_ms (HkText t) id) d) [InMessage from t id]).
  { intros t id Hc. constructor; [done..| | |by auto].
    - right. by exists (HkText t), id.
    - by intros ?%history_grows. }
  assert (Hedit : ∀ target text,
    content = Ok (match text with Some t => CDmEdit target t | None => CDmDelete target end) →
    folded from now_ms content d (if dm_target_matches from target d then apply_dm_edit from target text d else d) []).
  { intros target text Hc. destruct (dm_target_matches from target d) eqn:Et; [|by apply folded_quiet].
    destruct (apply_dm_edit_quiet_but from target text d) as (Hh & Hs & Ho).
    constructor; [done..|by left|by constructor|]. intros peer id. rewrite apply_dm_edit_of.
    destruct (decide _) as [[-> ->]|]; [|by left]. right. split_and!; [done..|]. by exists text. }
  destruct content as [c|e]; [|intros [= <- <- _]; by apply folded_quiet].
  destruct c; try (intros [= <- <- _]; first [by apply folded_quiet; [apply quiet_refl|repeat constructor]
    |by apply Htext; auto|by apply (Hedit _ (Some _))|by apply (Hedit _ None)]);
    try (intros Hr; apply Hrest in Hr as [Hq Ho]; by apply folded_quiet).
  unfold fetch_file. destruct (manifest_verify m) as [u|e]; [|intros [= <- <- _]; by apply folded_quiet].
  destruct (get_chunks _ _) as [[cs|e] w1]; [|intros [= <- <- _]; by apply folded_quiet].
  destruct (reassemble m cs) as [[data|e]|]; cbn; [|intros [= <- <- _]; by apply folded_quiet|done].
  intros [= <- <- _]. constructor; [done..| | |by auto].
  - right. exists (HkFile (fm_filename m) (len data)), no_msg_id. split; [done|]. by exists data, m.
  - by intros ?%history_grows.
Qed.

(** An envelope the client opened, from a peer it does not block, with the
    content inside. *)
Definition authenticated v env from (content : result Content WireError) : Prop :=
  ∃ sealed packet d fresh plaintext d',
    envelope_open env (id_ik (vw_identity v)) = Ok sealed ∧ sc_sender_idk sealed = from ∧
    prim_verify_strict from (sig_challenge (env_recipient_hint env) (sc_inner sealed)) (sc_sender_sig sealed) = true ∧
    packet_decode (sc_inner sealed) = Ok packet ∧ idk_to_id from ∉ vw_blocked v ∧
    decrypt_packet (vw_identity v) fresh from packet d = Some (Ok plaintext, d') ∧
    content = content_decode plaintext.

Lemma open_verifies env ik sealed :
  envelope_open env ik = Ok sealed →
  prim_verify_strict (sc_sender_idk sealed) (sig_challenge (env_recipient_hint env) (sc_inner sealed))
    (sc_sender_sig sealed) = true.
Proof.
  unfold envelope_open. destruct (_ || _); [done|]. destruct (agree ik _) as [sh|]; [|done]. cbn [result_bind].
  destruct (derive_seal _ _ _) as [key nonce]. destruct (xchacha_open _ _ _ _) as [p|]; [|done]. cbn [result_bind].
  destruct (_ <? 4)%N; [done|]. destruct (_ <? _)%N; [done|].
  destruct (sealed_content_decode _) as [c|]; [|done]. cbn [map_err result_bind].
  unfold sign_public_from_bytes. destruct (prim_vk_ok _); [|done]. cbn [result_bind]. unfold sign_verify.
  destruct (prim_verify_strict _ _ _) eqn:E; [|done]. by intros [= <-].
Qed.

(** What an envelope can do: nothing that lasts but a place in the window, or
    what the content of an authenticated peer does. *)
Lemma receive_one_effect v now_ms fresh env d w out init d' w' :
  rest_frame → receive_one rest v now_ms fresh env d w = Some (out, init, (d', w')) →
  let tag := sha256 (envelope_encode env) in
  let '(newly, (seen, order)) := record_seen_envelope (dm_seen d) (dm_seen_order d) tag SEEN_CAP in
  dm_seen d' = seen ∧ dm_seen_order d' = order ∧
  if newly
  then (out = [] ∧ quiet_on (set_seen seen order d) d') ∨
       ∃ from content d1, authenticated v env from content ∧ quiet_on (set_seen seen order d) d1 ∧
         folded from now_ms content d1 d' out
  else out = [] ∧ init = false ∧ d' = d ∧ w' = w.
Proof.
  intros Hrest. unfold receive_one. cbv zeta.
  destruct (record_seen_envelope _ _ _ _) as [newly [seen order]] eqn:Es.
  destruct newly; cbn [negb].
  2: { intros [= <- <- <- <-]. unfold record_seen_envelope in Es. case_bool_decide as Hin; [|by repeat case_match; simplify_eq].
    injection Es as <- <-. by split_and!. }
  destruct (envelope_open env _) as [sealed|] eqn:Eo;
    [|intros [= <- _ <- _]; split_and!; [done..|left; split; [done|apply quiet_refl]]].
  destruct (packet_decode _) as [packet|] eqn:Ep;
    [|intros [= <- _ <- _]; split_and!; [done..|left; split; [done|apply quiet_refl]]].
  case_bool_decide as Hb;
    [intros [= <- _ <- _]; split_and!; [done..|left; split; [done|apply quiet_refl]]|].
  destruct (decrypt_packet _ _ _ _ _) as [[[plaintext|e] d1]|] eqn:Ed; [| |done].
  2: { intros [= <- _ <- _]. apply decrypt_quiet in Ed. pose proof (qu_seen _ _ Ed). pose proof (qu_order _ _ Ed).
    split_and!; [done..|]. by left. }
  destruct (fold_content _ _ _ _ _ _ _) as [[out' [d2 w2]]|] eqn:Ef; [|done].
  intros [= <- _ <- _]. apply fold_content_folded in Ef; [|done].
  pose proof (decrypt_quiet _ _ _ _ _ _ _ Ed) as Hq.
  split_and!.
  - cbn. rewrite (fo_seen _ _ _ _ _ _ Ef). apply Hq.
  - cbn. rewrite (fo_order _ _ _ _ _ _ Ef). apply Hq.
  - right. exists (sc_sender_idk sealed), (content_decode plaintext), d1. split_and!; [|done|].
    + exists sealed, packet, (set_seen seen order d), fresh, plaintext, d1. split_and!; try done. by eapply open_verifies.
    + destruct Ef. by constructor.
Qed.

Lemma receive_one_window v now_ms fresh env d w out init d' w' :
  rest_frame → receive_one rest v now_ms fresh env d w = Some (out, init, (d', w')) →
  window_ok SEEN_CAP (dm_seen d) (dm_seen_order d) → window_ok SEEN_CAP (dm_seen d') (dm_seen_order d').
Proof.
  intros Hrest Hr Hw. apply receive_one_effect in Hr; [|done]. cbv zeta in Hr.
  pose proof (record_seen_spec SEEN_CAP _ _ (sha256 (envelope_encode env)) ltac:(unfold SEEN_CAP; lia) Hw) as Hs.
  destruct (record_seen_envelope _ _ _ _) as [newly [seen order]]. destruct Hr as (-> & -> & _). apply Hs.
Qed.
End world.
End dm.
