(* ===== verification/ClientDmTheorems.v ===== *)
(** * What holds of the client's direct messages

    What polling reports and changes was sent by those it names, an envelope
    served again is ignored, a conversation is opened only with the peer the
    ledger knows, and a first message arrives. *)

From S2P Require Import Prelude Utf8 Enc Crypto ProtoRecord Envelope IdentityRecords Ledger X3dh Ratchet RatchetProofs Conversation Session FileTransfer Content DmTheorems LedgerTheorems Mailbox Wire Roles Channel LocalStore Mls Sync ClientMessages ClientMessagesProofs ClientChannels ClientDm ClientDmProofs.

Section receiving.
Context `{CryptoPrims} {W : Type} `{Connection W}.
Context (debug : string → Response → bytes).
Context (rest : View → bytes → Content → N → Dm * W → option (list Inbound * (Dm * W))).
Implicit Types (v : View) (d : Dm) (w : W).

Definition edit_by (peer id : bytes) (text : option bytes) : Content :=
  match text with Some t => CDmEdit id t | None => CDmDelete id end.

(** What a number of envelopes can do to direct messages. *)
Record received v (envs : list Envelope) d d' (out : list Inbound) : Prop := {
  rc_message from text id : InMessage from text id ∈ out → ∃ env content, env ∈ envs ∧
    authenticated v env from (Ok content) ∧
    (content = CText text ∧ id = no_msg_id ∨ content = CTextId text id);
  rc_file from name data : InFile from name data ∈ out → ∃ env m, env ∈ envs ∧
    authenticated v env from (Ok (CFile m)) ∧ name = fm_filename m;
  rc_history : ∃ l, dm_history d' = dm_history d ++ l ∧
    Forall (λ e, he_outgoing e = false ∧ ∃ env content, env ∈ envs ∧ authenticated v env (he_peer_idk e) content) l;
  rc_edits peer id : dm_edit_of d' peer id = dm_edit_of d peer id ∨
    (∀ e, dm_edit_of d peer id = Some e → dme_deleted e = false) ∧
    ∃ env text, env ∈ envs ∧ authenticated v env peer (Ok (edit_by peer id text));
  rc_window : window_ok SEEN_CAP (dm_seen d) (dm_seen_order d) → window_ok SEEN_CAP (dm_seen d') (dm_seen_order d');
}.

Lemma received_refl v d : received v [] d d [].
Proof.
  constructor; try done; [by intros * ?%not_elem_of_nil..| |by left].
  exists []. by rewrite app_nil_r.
Qed.

Lemma received_app v envs1 envs2 d1 d2 d3 out1 out2 :
  received v envs1 d1 d2 out1 → received v envs2 d2 d3 out2 → received v (envs1 ++ envs2) d1 d3 (out1 ++ out2).
Proof.
  intros [M1 F1 (l1 & H1 & L1) E1 W1] [M2 F2 (l2 & H2 & L2) E2 W2].
  assert (Hl : ∀ env, env ∈ envs1 → env ∈ envs1 ++ envs2) by (intros; apply elem_of_app; auto).
  assert (Hr : ∀ env, env ∈ envs2 → env ∈ envs1 ++ envs2) by (intros; apply elem_of_app; auto).
  constructor; [| | | |by auto].
  - intros from text id [(env & c & ? & ?)%M1|(env & c & ? & ?)%M2]%elem_of_app; exists env, c; auto.
  - intros from name data [(env & m & ? & ?)%F1|(env & m & ? & ?)%F2]%elem_of_app; exists env, m; auto.
  - exists (l1 ++ l2). rewrite H2, H1, app_assoc. split; [done|]. apply list.Forall_app.
    split; [eapply list.Forall_impl; [exact L1|]|eapply list.Forall_impl; [exact L2|]];
      intros e (? & env & c & ? & ?); (split; [done|]); exists env, c; auto.
  - intros peer id. destruct (E2 peer id) as [->|(Hd & env & text & ? & ?)].
    + destruct (E1 peer id) as [|(Hd & env & text & ? & ?)]; [by left|]. right. split; [done|]. exists env, text; auto.
    + right. split; [|by exists env, text; auto]. intros e He.
      destruct (E1 peer id) as [Heq|(Hd' & _)]; [|by apply Hd']. apply Hd. by rewrite Heq.
Qed.

Lemma quiet_received v d d' out :
  quiet_on d d' → Forall (λ i, match i with InMessage _ _ _ | InFile _ _ _ => False | _ => True end) out →
  received v [] d d' out.
Proof.
  intros [Hh He Hs Ho] Hout. rewrite list.Forall_forall in Hout. constructor.
  - by intros from text id ?%Hout.
  - by intros from name data ?%Hout.
  - exists []. by rewrite Hh, app_nil_r.
  - by left.
  - by rewrite Hs, Ho.
Qed.

Lemma received_more v envs envs' d d' out : envs ⊆ envs' → received v envs d d' out → received v envs' d d' out.
Proof.
  intros Hsub [M F (l & Hl & L) E Wi]. constructor; [| | | |done].
  - intros ? ? ? (env & c & ? & ?)%M. exists env, c. auto.
  - intros ? ? ? (env & m & ? & ?)%F. exists env, m. auto.
  - exists l. split; [done|]. eapply list.Forall_impl; [exact L|]. intros e (? & env & c & ? & ?).
    split; [done|]. exists env, c. auto.
  - intros peer id. destruct (E peer id) as [|(? & env & t & ? & ?)]; [by left|]. right. split; [done|].
    exists env, t. auto.
Qed.

Lemma folded_received v env from now_ms content d d' out :
  authenticated v env from content → folded from now_ms content d d' out → received v [env] d d' out.
Proof.
  intros Ha [Hs Ho Hh Hout He].
  assert (Hin : env ∈ [env]) by by apply list_elem_of_singleton.
  assert (Hedits : ∀ peer id, dm_edit_of d' peer id = dm_edit_of d peer id ∨
    (∀ e, dm_edit_of d peer id = Some e → dme_deleted e = false) ∧
    ∃ env' text, env' ∈ [env] ∧ authenticated v env' peer (Ok (edit_by peer id text))).
  { intros peer id. destruct (He peer id) as [|(-> & _ & text & -> & Hd')]; [by left|].
    destruct (dm_edit_of d from id) as [e|] eqn:Ed.
    - destruct (dme_deleted e) eqn:Ede; [left|right].
      + rewrite Hd'. unfold edited. simpl. by rewrite Ede.
      + split; [by intros e' [= <-]|]. by exists env, text.
    - right. split; [done|]. by exists env, text. }
  destruct Hh as [Hh|(kind & id & Hh & Hk)].
  - specialize (Hout Hh). rewrite list.Forall_forall in Hout. constructor; [..|done|by rewrite Hs, Ho].
    + by intros f t i ?%Hout.
    + by intros f n b ?%Hout.
    + exists []. by rewrite Hh, app_nil_r.
  - assert (Hhist : ∃ l, dm_history d' = dm_history d ++ l ∧
      Forall (λ e, he_outgoing e = false ∧ ∃ env' c, env' ∈ [env] ∧ authenticated v env' (he_peer_idk e) c) l).
    { exists [mkHistory from false now_ms kind id]. split; [done|]. constructor; [|constructor].
      split; [done|]. by exists env, content. }
    destruct kind as [t|name size].
    + destruct Hk as [-> Hc]. constructor; [..|exact Hhist|done|by rewrite Hs, Ho].
      * intros f t' i [= -> -> ->]%list_elem_of_singleton. exists env.
        destruct Hc as [[-> ->]|Hc]; [by exists (CText t); auto|]. subst content. by exists (CTextId t id); auto.
      * by intros f n b ?%list_elem_of_singleton.
    + destruct Hk as (data & m & -> & -> & -> & ->). constructor; [..|exact Hhist|done|by rewrite Hs, Ho].
      * by intros f t' i ?%list_elem_of_singleton.
      * intros f n b [= -> -> ->]%list_elem_of_singleton. by exists env, m.
Qed.

Lemma receive_one_received v now_ms fresh env d w out init d' w' :
  rest_frame rest → receive_one rest v now_ms fresh env d w = Some (out, init, (d', w')) →
  received v [env] d d' out.
Proof.
  intros Hrest Hr.
  assert (Hw : window_ok SEEN_CAP (dm_seen d) (dm_seen_order d) → window_ok SEEN_CAP (dm_seen d') (dm_seen_order d'))
    by (intros; eapply receive_one_window; eauto).
  apply receive_one_effect in Hr; [|done]. cbv zeta in Hr.
  destruct (record_seen_envelope _ _ _ _) as [newly [seen order]]. destruct Hr as (Hs & Ho & Hr).
  assert (Hmid : ∀ d1, quiet_on (set_seen seen order d) d1 →
    ∀ out, received v [env] d1 d' out → received v [env] d d' out).
  { intros d1 [Hh1 He1 _ _] o [M F (l & Hl & L) E _]. constructor; try done.
    - exists l. by rewrite Hl, Hh1.
    - intros peer id. specialize (E peer id). rewrite He1 in E. exact E. }
  destruct newly.
  - destruct Hr as [[-> Hq]|(from & content & d1 & Ha & Hq & Hf)].
    + apply (Hmid d' Hq). eapply received_more; [|apply received_refl]. by intros ? ?%not_elem_of_nil.
    + apply (Hmid d1 Hq). by eapply folded_received.
  - destruct Hr as (-> & _ & -> & _). eapply received_more; [|apply received_refl]. by intros ? ?%not_elem_of_nil.
Qed.

Lemma receive_loop_received v now_ms fresh envs out0 c0 d w out c d' w' :
  rest_frame rest → receive_loop rest v now_ms fresh envs out0 c0 d w = Some (out, c, (d', w')) →
  ∃ new, out = out0 ++ new ∧ received v envs d d' new.
Proof.
  intros Hrest. revert fresh out0 c0 d w. induction envs as [|env envs IH]; intros fresh out0 c0 d w; cbn [receive_loop].
  { intros [= <- _ <- _]. exists []. rewrite app_nil_r. split; [done|apply received_refl]. }
  destruct (receive_one _ _ _ _ _ _ _) as [[[out1 init] [d1 w1]]|] eqn:E1; [|done].
  intros (new & -> & Hnew)%IH. exists (out1 ++ new). rewrite app_assoc. split; [done|].
  change (env :: envs) with ([env] ++ envs). eapply received_app; [|exact Hnew]. by eapply receive_one_received.
Qed.

(** A poll is its loop, and then nothing that is seen here. *)
Lemma publish_quiet v otps d w : quiet_on d (publish_prekeys debug v otps d w).2.1.
Proof.
  unfold publish_prekeys. destruct (replenish _ _ _) as [minted pk]. destruct (sync_publish_prekeys _ _ _) as [rp wp].
  destruct (0 <? minted)%nat; by constructor.
Qed.

Lemma receive_all_split v now_ms fresh otps d w r d' w' :
  receive_all debug rest v now_ms fresh otps d w = Some (r, (d', w')) →
  match sync_fetch (mailbox_hints v now_ms) (dm_last_fetch_since_ms d) w with
  | (Err _, _) => d' = d ∧ is_ok r = false
  | (Ok envs, w1) => ∃ out c d1 w2, receive_loop rest v now_ms fresh envs [] false d w1 = Some (out, c, (d1, w2)) ∧
      r = Ok out ∧ quiet_on d1 d'
  end.
Proof.
  unfold receive_all. destruct (sync_fetch _ _ w) as [[envs|e] w1]; [|by intros [= <- <- _]].
  destruct (receive_loop _ _ _ _ _ _ _ _) as [[[out c] [d1 w2]]|]; [|done].
  set (d2 := set_since _ d1). assert (Hq : quiet_on d1 d2) by by constructor.
  destruct c; [destruct (publish_prekeys debug v otps d2 w2) as [rp [d3 w3]] eqn:Ep; cbn [snd]|]; intros [= <- <- _];
    do 4 eexists; (split; [done|]); (split; [done|]); [|done].
  eapply quiet_trans; [exact Hq|]. pose proof (publish_quiet v otps d2 w2) as Hp. by rewrite Ep in Hp.
Qed.

(** C15: Polling the mailbox reports nothing that was not sent to the client.
    Every message and every file [receive_all] returns was in one of the
    envelopes the relay answered with: it opened under the client's key, with
    a signature of the sender over the recipient's hint and the packet, the
    sender is not blocked by its id, the packet decrypted in the session with
    that sender, and the content says just this.  The history only grows, by
    incoming entries of such senders; a message is edited or withdrawn only by
    such an envelope from the peer in whose conversation it is kept, and never
    after it was withdrawn; an error leaves everything as it was. *)
Theorem receive_authentic v now_ms fresh otps d w r d' w' :
  rest_frame rest → receive_all debug rest v now_ms fresh otps d w = Some (r, (d', w')) →
  match r with
  | Err _ => d' = d
  | Ok out => ∃ envs w1, sync_fetch (mailbox_hints v now_ms) (dm_last_fetch_since_ms d) w = (Ok envs, w1) ∧
    (∀ from text id, InMessage from text id ∈ out → ∃ env content, env ∈ envs ∧
       authenticated v env from (Ok content) ∧
       (content = CText text ∧ id = no_msg_id ∨ content = CTextId text id)) ∧
    (∀ from name data, InFile from name data ∈ out → ∃ env m, env ∈ envs ∧
       authenticated v env from (Ok (CFile m)) ∧ name = fm_filename m) ∧
    (∃ l, dm_history d' = dm_history d ++ l ∧
       Forall (λ e, he_outgoing e = false ∧ ∃ env content, env ∈ envs ∧ authenticated v env (he_peer_idk e) content) l) ∧
    (∀ peer id, dm_edit_of d' peer id = dm_edit_of d peer id ∨
       (∀ e, dm_edit_of d peer id = Some e → dme_deleted e = false) ∧
       ∃ env text, env ∈ envs ∧ authenticated v env peer (Ok (edit_by peer id text)))
  end.
Proof.
  intros Hrest Hr. apply receive_all_split in Hr.
  destruct (sync_fetch _ _ w) as [[envs|e] w1] eqn:Ef; [|destruct Hr as [-> Hr]; by destruct r].
  destruct Hr as (out & c & d1 & w2 & El & -> & Hq).
  apply receive_loop_received in El as (new & -> & Hn); [|done]. rewrite app_nil_l.
  pose proof (received_app _ _ [] _ _ _ _ [] Hn (quiet_received v _ _ [] Hq ltac:(constructor))) as Hrec.
  rewrite !app_nil_r in Hrec. destruct Hrec as [M F Hh He _]. exists envs, w1. by split_and!.
Qed.

(** An envelope's place in the window: it is there, and at most [k] have come
    after it. *)
Record recent (k : nat) (env : Envelope) d : Prop := {
  re_window : window_ok SEEN_CAP (dm_seen d) (dm_seen_order d);
  re_place : ∃ pre post, dm_seen_order d = pre ++ sha256 (envelope_encode env) :: post ∧ (length post ≤ k)%nat;
}.

Lemma recent_same k env d d' :
  dm_seen d' = dm_seen d → dm_seen_order d' = dm_seen_order d → recent k env d → recent k env d'.
Proof. intros Hs Ho [Hw Hp]. constructor; rewrite ?Hs, Ho; done. Qed.

Lemma recent_more k k' env d : (k ≤ k')%nat → recent k env d → recent k' env d.
Proof. intros Hk [Hw (pre & post & Ho & Hl)]. constructor; [done|]. exists pre, post. split; [done|lia]. Qed.

Lemma recent_ignored k env d v now_ms fresh w :
  recent k env d → receive_one rest v now_ms fresh env d w = Some ([], false, (d, w)).
Proof.
  intros [Hw (pre & post & Ho & _)]. unfold receive_one, record_seen_envelope.
  rewrite bool_decide_eq_true_2; [done|]. apply (wi_elems _ _ _ Hw). rewrite Ho. apply elem_of_app. right. by left.
Qed.

(** Another envelope pushes it back by one place at most. *)
Lemma receive_one_recent v now_ms fresh other d w out init d' w' k env :
  rest_frame rest → receive_one rest v now_ms fresh other d w = Some (out, init, (d', w')) →
  (S k < SEEN_CAP)%nat → recent k env d → recent (S k) env d'.
Proof.
  intros Hrest Hr Hk [Hw (pre & post & Hpre & Hpost)].
  constructor; [by eapply receive_one_window|]. apply receive_one_effect in Hr; [|done]. cbv zeta in Hr.
  pose proof (record_seen_spec SEEN_CAP _ _ (sha256 (envelope_encode other)) ltac:(unfold SEEN_CAP; lia) Hw) as Hs.
  destruct (record_seen_envelope _ _ _ _) as [newly [seen order]]. destruct Hr as (_ & -> & _).
  destruct Hs as (_ & Hord & _). destruct newly; [|exists pre, post; subst order; split; [done|lia]].
  rewrite Hord, Hpre. pose proof (wi_len _ _ _ Hw) as Hlen. rewrite Hpre, length_app in *. cbn [length] in *.
  set (n := (S _ - SEEN_CAP)%nat). rewrite <- app_assoc. cbn [app].
  exists (drop n pre), (post ++ [sha256 (envelope_encode other)]).
  split; [|rewrite length_app; simpl; lia]. rewrite drop_app. f_equal.
  assert (n - length pre = 0)%nat as -> by (unfold n; lia). done.
Qed.

(** A new one comes last. *)
Lemma receive_one_takes v now_ms fresh env d w out init d' w' :
  rest_frame rest → receive_one rest v now_ms fresh env d w = Some (out, init, (d', w')) →
  window_ok SEEN_CAP (dm_seen d) (dm_seen_order d) → sha256 (envelope_encode env) ∉ dm_seen d → recent 0 env d'.
Proof.
  intros Hrest Hr Hw Hnew. constructor; [by eapply receive_one_window|].
  apply receive_one_effect in Hr; [|done]. cbv zeta in Hr. set (tag := sha256 (envelope_encode env)) in *.
  pose proof (record_seen_spec SEEN_CAP _ _ tag ltac:(unfold SEEN_CAP; lia) Hw) as Hs.
  destruct (record_seen_envelope _ _ _ _) as [newly [seen order]]. destruct Hr as (_ & -> & _).
  destruct Hs as (-> & -> & _). rewrite bool_decide_eq_true_2 by by rewrite <- (wi_elems _ _ _ Hw).
  pose proof (wi_len _ _ _ Hw). rewrite drop_app_le by (unfold SEEN_CAP in *; lia). by eexists _, [].
Qed.

Lemma receive_loop_recent v now_ms envs env : rest_frame rest →
  ∀ fresh out0 c0 d w out c d' w' k,
  receive_loop rest v now_ms fresh envs out0 c0 d w = Some (out, c, (d', w')) →
  (k + length envs < SEEN_CAP)%nat → recent k env d → recent (k + length envs) env d'.
Proof.
  intros Hrest. induction envs as [|other envs IH]; intros fresh out0 c0 d w out c d' w' k; cbn [receive_loop length].
  { intros [= _ _ <- _] _. by rewrite Nat.add_0_r. }
  destruct (receive_one _ _ _ _ _ _ _) as [[[out1 init] [d1 w1]]|] eqn:E1; [|done]. intros Hl Hk Hd.
  rewrite Nat.add_succ_r. change (S (k + length envs)) with (S k + length envs)%nat.
  eapply IH; [exact Hl|lia|]. by eapply receive_one_recent; [| |lia|].
Qed.

Lemma receive_loop_takes v now_ms envs env : rest_frame rest →
  ∀ fresh out0 c0 d w out c d' w',
  receive_loop rest v now_ms fresh envs out0 c0 d w = Some (out, c, (d', w')) →
  (length envs ≤ SEEN_CAP)%nat → window_ok SEEN_CAP (dm_seen d) (dm_seen_order d) →
  env ∈ envs → sha256 (envelope_encode env) ∉ dm_seen d → recent (pred (length envs)) env d'.
Proof.
  intros Hrest. induction envs as [|other envs IH]; intros fresh out0 c0 d w out c d' w'; cbn [receive_loop length];
    [by intros _ _ _ ?%not_elem_of_nil|].
  destruct (receive_one _ _ _ _ _ _ _) as [[[out1 init] [d1 w1]]|] eqn:E1; [|done]. intros Hl Hlen Hw Hin Hnew.
  cbn [pred]. destruct (decide (sha256 (envelope_encode env) ∈ dm_seen d1)) as [Hseen|Hseen].
  - assert (Ht : sha256 (envelope_encode env) = sha256 (envelope_encode other)).
    { apply receive_one_effect in E1; [|done]. cbv zeta in E1.
      pose proof (record_seen_spec SEEN_CAP _ _ (sha256 (envelope_encode other)) ltac:(unfold SEEN_CAP; lia) Hw) as Hs.
      destruct (record_seen_envelope _ _ _ _) as [newly [seen order]]. destruct E1 as (Hs1 & _ & _).
      destruct Hs as (_ & Hord & Hw1). rewrite Hs1 in Hseen. apply (wi_elems _ _ _ Hw1) in Hseen. rewrite Hord in Hseen.
      rewrite (wi_elems _ _ _ Hw) in Hnew. destruct newly; [|done].
      assert (Hin' : sha256 (envelope_encode env) ∈ dm_seen_order d ++ [sha256 (envelope_encode other)]).
      { eapply list.elem_of_sublist; [exact Hseen|apply list.sublist_drop]. }
      rewrite elem_of_app, list_elem_of_singleton in Hin'. tauto. }
    assert (Hr : recent 0 other d1) by (eapply receive_one_takes; [done..|by rewrite <- Ht]).
    assert (Hr' : recent 0 env d1) by (destruct Hr as [? Hp]; constructor; [done|]; by rewrite Ht).
    change (length envs) with (0 + length envs)%nat. eapply receive_loop_recent; [done|exact Hl|simpl; lia|exact Hr'].
  - apply elem_of_cons in Hin as [->|Hin].
    { pose proof (receive_one_takes _ _ _ _ _ _ _ _ _ _ Hrest E1 Hw Hnew) as [Hw1 (pre & post & Ho & _)].
      destruct Hseen. apply (wi_elems _ _ _ Hw1). rewrite Ho. apply elem_of_app. right. by left. }
    eapply recent_more; [|eapply IH; [exact Hl|lia|by eapply receive_one_window|done|done]]. lia.
Qed.

Context (dht : option (bytes → option bytes)).

(** How many envelopes the relay answers a poll with. *)
Definition envelopes_served v now_ms d w : nat :=
  match (sync_fetch (mailbox_hints v now_ms) (dm_last_fetch_since_ms d) w).1 with Ok envs => length envs | Err _ => 0 end.

(** The operations of a running client on its direct messages, with the
    number of envelopes that came. *)
Inductive dm_step d : nat → Dm → Prop :=
  | dm_poll v now_ms fresh otps w r d' w' :
      receive_all debug rest v now_ms fresh otps d w = Some (r, (d', w')) → dm_step d (envelopes_served v now_ms d w) d'
  | dm_send v dr peer_id content now_ms w r d' w' :
      send_content debug dht v dr peer_id content now_ms d w = Some (r, (d', w')) → dm_step d 0 d'
  | dm_edit v dr peer_id msg_id text now_ms w r d' w' :
      post_dm_edit debug dht v dr peer_id msg_id text now_ms d w = Some (r, (d', w')) → dm_step d 0 d'
  | dm_file v dr peer_id filename data key now_ms w r d' w' :
      send_file debug dht v dr peer_id filename data key now_ms d w = Some (r, (d', w')) → dm_step d 0 d'
  | dm_publish v otps w : dm_step d 0 (publish_prekeys debug v otps d w).2.1
  | dm_take : dm_step d 0 (take_dm_edits d).2.

Inductive dm_run d : nat → Dm → Prop :=
  | dm_run_nil : dm_run d 0 d
  | dm_run_step n m d1 d2 : dm_step d n d1 → dm_run d1 m d2 → dm_run d (n + m) d2.

Lemma post_dm_edit_seen v dr peer_id msg_id text now_ms d w r d' w' :
  post_dm_edit debug dht v dr peer_id msg_id text now_ms d w = Some (r, (d', w')) →
  dm_seen d' = dm_seen d ∧ dm_seen_order d' = dm_seen_order d.
Proof.
  unfold post_dm_edit. destruct (idk_for_id _ _) as [idk|]; [|by intros [= _ <- _]].
  destruct (negb _); [by intros [= _ <- _]|]. destruct (from_option _ _ _); [by intros [= _ <- _]|].
  destruct (send_content _ _ _ _ _ _ _ _ _) as [[[u|e] [d1 w1]]|] eqn:Es; [| |done];
    apply send_content_effect in Es as (Hs & Ho & _); intros [= _ <- _]; [|done].
  destruct (apply_dm_edit_quiet_but idk msg_id text d1) as (_ & Hs2 & Ho2). split; congruence.
Qed.

Lemma dm_step_recent n k env d d' :
  rest_frame rest → dm_step d n d' → (k + n < SEEN_CAP)%nat → recent k env d → recent (k + n) env d'.
Proof.
  intros Hrest [v now_ms fresh otps w r d1 w1 Hp|v dr peer content now_ms w r d1 w1 Hp|v dr peer id text now_ms w r d1 w1 Hp|
    v dr peer name data key now_ms w r d1 w1 Hp|v otps w|] Hk Hd; rewrite ?Nat.add_0_r.
  - apply receive_all_split in Hp. unfold envelopes_served in *. destruct (sync_fetch _ _ w) as [[envs|e] w2]; cbn [fst] in *.
    + destruct Hp as (out & c & d2 & w3 & Hl & _ & [_ _ Hs Ho]). apply (recent_same _ _ d2); [done..|].
      by eapply receive_loop_recent.
    + destruct Hp as [-> _]. by rewrite Nat.add_0_r.
  - apply send_content_effect in Hp as (Hs & Ho & _). by apply (recent_same _ _ d).
  - apply post_dm_edit_seen in Hp as [Hs Ho]. by apply (recent_same _ _ d).
  - unfold send_file in Hp. destruct (build _ _ _ _) as [m chunks]. destruct (put_chunks _ _ _) as [[u|e] w2];
      [|by injection Hp as _ <- _]. apply send_content_effect in Hp as (Hs & Ho & _). by apply (recent_same _ _ d).
  - destruct (publish_quiet v otps d w) as [_ _ Hs Ho]. by apply (recent_same _ _ d).
  - by apply (recent_same _ _ d).
Qed.

Lemma dm_run_recent n k env d d' :
  rest_frame rest → dm_run d n d' → (k + n < SEEN_CAP)%nat → recent k env d → recent (k + n) env d'.
Proof.
  intros Hrest Hr. revert k. induction Hr as [d|d n m d1 d2 Hs Hr IH]; intros k Hk Hd; [by rewrite Nat.add_0_r|].
  rewrite Nat.add_assoc. apply IH; [lia|]. eapply dm_step_recent; [done..|lia|done].
Qed.

(** A poll answered with nothing but what is in the window. *)
Lemma receive_loop_replayed v now_ms envs d w : (∀ env, env ∈ envs → ∃ k, recent k env d) →
  ∀ fresh out c, receive_loop rest v now_ms fresh envs out c d w = Some (out, c, (d, w)).
Proof.
  induction envs as [|env envs IH]; intros Hin fresh out c; cbn [receive_loop]; [done|].
  destruct (Hin env) as [k Hk]; [by left|]. rewrite (recent_ignored k) by done. rewrite app_nil_r, orb_false_r.
  apply IH. intros e He. apply Hin. by right.
Qed.

(** C17: An envelope works once.  After a poll has taken a new envelope, and
    whatever the client does next, sending, editing, publishing prekeys and
    polling again, as long as with those of that poll no more than 5000
    envelopes came, the relay may serve it again: it is then ignored wherever
    it comes in an answer, reporting nothing, opening nothing and changing
    nothing; and a poll answered with such envelopes only reports nothing and
    moves nothing but the time to fetch from.  (Beyond 5000 it is forgotten.) *)
Theorem replay_ignored v now_ms fresh otps d w out d1 w1 envs wf n d2 replayed :
  rest_frame rest → window_ok SEEN_CAP (dm_seen d) (dm_seen_order d) →
  sync_fetch (mailbox_hints v now_ms) (dm_last_fetch_since_ms d) w = (Ok envs, wf) →
  receive_all debug rest v now_ms fresh otps d w = Some (Ok out, (d1, w1)) →
  (∀ env, env ∈ replayed → env ∈ envs ∧ sha256 (envelope_encode env) ∉ dm_seen d) →
  dm_run d1 n d2 → (length envs + n ≤ SEEN_CAP)%nat →
  (∀ env v' now_ms' fresh' w', env ∈ replayed →
     receive_one rest v' now_ms' fresh' env d2 w' = Some ([], false, (d2, w'))) ∧
  ∀ v' now_ms' fresh' otps' again w2 w3, again ⊆ replayed →
    sync_fetch (mailbox_hints v' now_ms') (dm_last_fetch_since_ms d2) w2 = (Ok again, w3) →
    receive_all debug rest v' now_ms' fresh' otps' d2 w2 = Some (Ok [], (set_since (now_ms' - 2 * EPOCH_MS)%N d2, w3)).
Proof.
  intros Hrest Hw Hf Hr Hre Hrun Hn. apply receive_all_split in Hr. rewrite Hf in Hr.
  destruct Hr as (out' & c & d0 & w0 & Hl & _ & [_ _ Hs Ho]).
  assert (Hrec : ∀ env, env ∈ replayed → ∃ k, recent k env d2).
  { intros env [Hin Hnew]%Hre. eexists. eapply dm_run_recent; [done|exact Hrun| |].
    2: { apply (recent_same _ _ d0 d1); [done..|]. eapply receive_loop_takes; [done|exact Hl|lia|done..]. }
    destruct envs; [by apply not_elem_of_nil in Hin|cbn [pred length] in *; lia]. }
  split.
  - intros env v' now_ms' fresh' w' [k Hk]%Hrec. by eapply recent_ignored.
  - intros v' now_ms' fresh' otps' again w2 w3 Hsub Hf2. unfold receive_all. rewrite Hf2, receive_loop_replayed; [done|].
    intros env Hin. by apply Hrec, Hsub.
Qed.
End receiving.

(** ** Sending *)
Section sending.
Context `{CryptoPrims} {W : Type} `{Connection W}.
Context (debug : string → Response → bytes) (dht : option (bytes → option bytes)).
Implicit Types (v : View) (d : Dm) (w : W).

Lemma check_bundle_ok peer_id idk ik b :
  check_bundle peer_id idk ik b = Ok tt →
  pb_idk_pub b = idk ∧ pb_identity_id b = peer_id ∧ pb_ik_pub b = ik ∧ bundle_verify b = Ok tt.
Proof.
  unfold check_bundle. repeat case_bool_decide; cbn [negb orb]; try done.
  destruct (bundle_verify b) as [[]|]; [|done]. by intros _.
Qed.

(** Which sessions a send touches. *)
Lemma make_packet_sessions me dr peer_id idk ik text d w r d' w' :
  make_packet dht me dr peer_id idk ik text d w = Some (r, (d', w')) →
  (∀ k, k ≠ idk → dm_sessions d' !! k = dm_sessions d !! k) ∧
  (dm_sessions d !! idk = None → ∀ s, dm_sessions d' !! idk = Some s → ∃ b init,
     (fetch_prekey_bundle dht peer_id w).1 = Ok (bundle_encode b) ∧ bundle_ok b ∧
     pb_idk_pub b = idk ∧ pb_identity_id b = peer_id ∧ pb_ik_pub b = ik ∧ bundle_verify b = Ok tt ∧
     initiate me b text (dr_ek dr) (dr_ratchet dr) = Some (Ok (s, init)) ∧ r = Ok (PInit init)).
Proof.
  unfold make_packet. destruct (dm_sessions d !! idk) as [s|] eqn:Es.
  - destruct (session_encrypt _ _) as [[r' s']|]; [|done]. intros [= _ <- _]. split; [|done].
    intros k Hk. by apply lookup_insert_ne.
  - destruct (fetch_prekey_bundle dht peer_id w) as [f w1]. cbn [fst].
    destruct f as [blob|e]; cbn [result_bind]; [|intros [= _ <- _]; by rewrite Es].
    destruct (bundle_decode blob) as [b|e] eqn:Ed; cbn [map_err result_bind]; [|intros [= _ <- _]; by rewrite Es].
    destruct (check_bundle _ _ _ _) as [[]|e] eqn:Ec; cbn [result_bind]; [|intros [= _ <- _]; by rewrite Es].
    apply check_bundle_ok in Ec as (? & ? & ? & ?). apply bundle_decode_canon in Ed as [Hok <-].
    destruct (initiate _ _ _ _ _) as [[[s i]|e]|] eqn:Ei; [|intros [= _ <- _]; by rewrite Es|done].
    intros [= <- <- _]. cbn [set_sessions dm_sessions]. split; [intros k Hk; by apply lookup_insert_ne|].
    intros _ s'. rewrite lookup_insert_eq. intros [= <-]. by exists b, i.
Qed.

Lemma send_content_sessions v dr peer_id content now_ms d w r d' w' :
  send_content debug dht v dr peer_id content now_ms d w = Some (r, (d', w')) →
  dm_sessions d' = dm_sessions d ∨
  ∃ idk ik rp d1 w1, idk_for_id (vw_ledger v) peer_id = Some idk ∧ agreement_key (vw_ledger v) idk = Some ik ∧
    make_packet dht (vw_identity v) dr peer_id idk ik (content_encode content) d w = Some (rp, (d1, w1)) ∧
    dm_sessions d' = dm_sessions d1.
Proof.
  unfold send_content. destruct (_ && _); [by intros [= _ <- _]; left|].
  destruct (idk_for_id _ _) as [idk|]; [|by intros [= _ <- _]; left].
  destruct (agreement_key _ idk) as [ik|] eqn:Ea; [|by intros [= _ <- _]; left].
  destruct (make_packet _ _ _ _ _ _ _ _ _) as [[rp [d1 w1]]|] eqn:Ep; [|done].
  intros Hr. right. exists idk, ik, rp, d1, w1. split_and!; [done..|].
  destruct rp as [p|e]; [|by injection Hr as _ <- _].
  destruct (envelope_seal_with _ _ _ _ _ _ _ _) as [env|e]; [|by injection Hr as _ <- _].
  destruct (sync_deposit _ env w1) as [[u|e] w2]; [|by injection Hr as _ <- _].
  injection Hr as _ <- _. by destruct (conversation content) as [[? ?]|].
Qed.

(** The view with another block list. *)
Definition blocking (blocked : gset bytes) v : View :=
  mkView (vw_identity v) (vw_ledger v) blocked (vw_server_policies v).

(** Making a packet fails for its own reasons. *)
Lemma make_packet_error me dr peer_id idk ik text d w e d' w' :
  make_packet dht me dr peer_id idk ik text d w = Some (Err e, (d', w')) → e ≠ CoBlocked.
Proof.
  unfold make_packet. destruct (dm_sessions d !! idk) as [s|].
  { destruct (session_encrypt _ _) as [[[m|e'] s']|]; by intros [= <- _ _]. }
  unfold fetch_prekey_bundle. destruct (sync_get_prekeys peer_id w) as [[[blob|]|e'] w1]; cbn [ok_or].
  all: try destruct (dht ≫= _) as [blob|]; cbn [ok_or result_bind]; try by intros [= <- _ _].
  all: destruct (bundle_decode blob) as [b|e1]; cbn [map_err result_bind]; [|by intros [= <- _ _]].
  all: unfold check_bundle; destruct (_ || _); cbn [result_bind]; [by intros [= <- _ _]|].
  all: destruct (negb _); cbn [result_bind]; [by intros [= <- _ _]|].
  all: destruct (bundle_verify b); cbn [map_err result_bind]; [|by intros [= <- _ _]].
  all: destruct (initiate _ _ _ _ _) as [[[s i]|e2]|]; by intros [= <- _ _].
Qed.

Lemma send_blocked v dr peer_id content now_ms d w d' w' :
  send_content debug dht v dr peer_id content now_ms d w = Some (Err CoBlocked, (d', w')) →
  peer_id ∈ vw_blocked v ∧ is_Some (conversation content) ∧ d' = d ∧ w' = w.
Proof.
  unfold send_content. destruct (_ && _) eqn:Eb.
  { apply andb_true_iff in Eb as [?%bool_decide_eq_true ?%bool_decide_eq_true]. by intros [= <- <-]. }
  destruct (idk_for_id _ _) as [idk|]; [|done]. destruct (agreement_key _ _) as [ik|]; [|done].
  destruct (make_packet _ _ _ _ _ _ _ _ _) as [[[p|e] [d1 w1]]|] eqn:Ep; [| |done].
  2: { intros [= -> _ _]. by apply make_packet_error in Ep. }
  destruct (envelope_seal_with _ _ _ _ _ _ _ _) as [env|e]; [|done].
  by destruct (sync_deposit _ env w1) as [[u|e] w2].
Qed.

End sending.

(** ** First contact *)
Section contact.
Context `{CryptoPrims, !SignLaws, !AgreeLaws, !AeadLaws} {W : Type} `{Connection W}.
Context (debug : string → Response → bytes) (dht : option (bytes → option bytes)).

Lemma packet_init_fits m : fits_u32 (packet_encode (PInit m)) →
  fits_u32 (dm_ciphertext (im_first m)) ∧ fits_u32 (dm_encode (im_first m)) ∧ fits_u32 (init_encode m).
Proof.
  unfold packet_encode, fits_u32. enc_norm. rewrite len_app, len_lenp.
  intros Hm. rewrite init_encode_eq, ?len_app, len_lenp in *. rewrite dm_encode_eq, len_app, len_lenp in *. lia.
Qed.

(** What [initiate] makes is a packet that has an encoding. *)
Lemma initiate_packet_ok me b text ek a0 s init :
  bundle_ok b → initiate me b text ek a0 = Some (Ok (s, init)) →
  fits_u32 (packet_encode (PInit init)) → packet_ok (PInit init).
Proof.
  intros Hb Hi Hfit. unfold initiate in Hi.
  destruct (initiator me b ek) as [hs|] eqn:Eh; [|done].
  destruct (init_alice a0 _ _) as [A|] eqn:EA; [|done].
  destruct (encrypt text (xr_ad (ih_result hs)) A) as [[[[h ct]|] A']|] eqn:Ee; [|done..].
  injection Hi as _ <-.
  destruct (init_alice_counters _ _ _ _ EA) as [Hns Hpn].
  pose proof (encrypt_header _ _ _ _ _ _ Ee) as Hh. rewrite Hns, Hpn in Hh.
  unfold initiator in Eh. destruct (bundle_verify b); [|done]. cbn [result_bind] in Eh.
  destruct (identity_agree me _); [|done]. cbn [map_err result_bind] in Eh.
  destruct (agree ek (pb_ik_pub b)); [|done]. cbn [map_err result_bind] in Eh.
  destruct (agree ek (pb_spk_pub b)); [|done]. cbn [map_err result_bind] in Eh.
  destruct (match fst <$> head (pb_otps b) with Some o => _ | None => _ end) as [l|]; [|done].
  cbn [result_bind] in Eh. injection Eh as <-.
  assert (Hotp : opt32_ok (fst <$> head (pb_otps b))).
  { destruct Hb as (_ & _ & _ & _ & _ & Hl). destruct (pb_otps b) as [|o l']; [done|].
    destruct Hl as [_ Hl]. apply list.Forall_cons in Hl as [[Ho _] _]. exact Ho. }
  assert (Hh' : header_ok h).
  { rewrite Hh. split_and!; cbn; [apply x25519_public_length|vm_compute; done..]. }
  pose proof (packet_init_fits _ Hfit) as Hlen. cbn in Hlen.
  destruct Hlen as (? & ? & ?).
  split; [|done]. split_and!; cbn; [apply x25519_public_length..|done|by split|done].
Qed.

(** What was sealed into an envelope fits one of its sizes. *)
Lemma seal_inner_fits rid ik idk inner d t sign eph env :
  envelope_seal_with rid ik idk inner d t sign eph = Ok env → fits_u32 inner.
Proof.
  unfold envelope_seal_with. destruct (bucket_for _) as [[c b]|] eqn:Hb; [|done]. intros _.
  apply bucket_for_spec in Hb as (_ & Hb & Hmax & _). unfold fits_u32.
  rewrite sealed_content_encode_eq, !len_app in Hb. cbn [sc_inner] in Hb. rewrite len_lenp in Hb. lia.
Qed.

(** What a send that opens a session puts on the wire. *)
Lemma send_first v dr peer_id content now_ms d w d' w' b idk :
  send_content debug dht v dr peer_id content now_ms d w = Some (Ok tt, (d', w')) →
  idk_for_id (vw_ledger v) peer_id = Some idk → dm_sessions d !! idk = None →
  (fetch_prekey_bundle dht peer_id w).1 = Ok (bundle_encode b) → bundle_ok b →
  ∃ s init env w1, initiate (vw_identity v) b (content_encode content) (dr_ek dr) (dr_ratchet dr) = Some (Ok (s, init)) ∧
    dm_sessions d' !! idk = Some s ∧ packet_ok (PInit init) ∧
    envelope_seal_with peer_id (pb_ik_pub b) (identity_sign_public (vw_identity v)) (packet_encode (PInit init))
      now_ms DM_TTL_MS (identity_sign (vw_identity v)) (dr_eph dr) = Ok env ∧
    sync_deposit debug env w1 = (Ok tt, w').
Proof.
  intros Hs Hi Hn Hf Hb. unfold send_content in Hs.
  destruct (_ && _); [done|]. rewrite Hi in Hs.
  destruct (agreement_key _ idk) as [ik|] eqn:Ea; [|done].
  destruct (make_packet _ _ _ _ _ _ _ _ _) as [[rp [d1 w1]]|] eqn:Ep; [|done].
  destruct rp as [p|e]; [|done].
  destruct (envelope_seal_with _ _ _ _ _ _ _ _) as [env|e] eqn:Ev; [|done].
  destruct (sync_deposit _ env w1) as [[[]|e] w2] eqn:Ed; [|done].
  injection Hs as <- <-.
  unfold make_packet in Ep. rewrite Hn in Ep. destruct (fetch_prekey_bundle _ _ _) as [f w0]. cbn [fst] in Hf. subst f.
  cbn [result_bind] in Ep. rewrite bundle_round in Ep by done. cbn [map_err result_bind] in Ep.
  destruct (check_bundle _ _ _ _) as [[]|e] eqn:Ec; cbn [result_bind] in Ep; [|done].
  apply check_bundle_ok in Ec as (_ & _ & <- & _).
  destruct (initiate _ _ _ _ _) as [[[s init]|e]|] eqn:Ein; [|done..].
  injection Ep as <- <- <-. exists s, init, env, w0. split_and!; [done| | |done|done].
  - destruct (conversation content) as [[? ?]|]; cbn; apply lookup_insert_eq.
  - eapply initiate_packet_ok; [exact Hb|exact Ein|]. by eapply seal_inner_fits.
Qed.

Context (rest : View → bytes → Content → N → Dm * W → option (list Inbound * (Dm * W))).

(** C14: The first message to a peer arrives.  When [send_dm] has no session with
    the peer, finds the bundle the peer published (with any of its one-time
    keys) and returns the message's id, the envelope it deposited makes the
    peer's [receive_one], with the secrets behind that bundle, report exactly
    this text from this sender under this id, as a new session; the two
    sessions agree on the associated data and are the two ends of one
    conversation with nothing in flight. *)
Theorem first_message_arrives v vb dr peer_id idk text id now_ms d w d' w' db otps f now_ms' wb :
  let me := vw_identity v in
  let bob := vw_identity vb in
  let secrets := dm_prekeys db in
  let full := secrets_bundle secrets bob in
  send_dm debug dht v dr peer_id text id now_ms d w = Some (Ok id, (d', w')) →
  idk_for_id (vw_ledger v) peer_id = Some idk → dm_sessions d !! idk = None →
  otps ⊆ pb_otps full → bundle_ok (with_otps otps full) →
  (fetch_prekey_bundle dht peer_id w).1 = Ok (bundle_encode (with_otps otps full)) →
  length (id_idk me) = 32%nat → content_ok (CTextId text id) →
  idk_to_id (identity_sign_public me) ∉ vw_blocked vb →
  agree_public (dr_ratchet dr) ≠ agree_public (pks_spk secrets) →
  agree_public f ∉ [agree_public (dr_ratchet dr); agree_public (pks_spk secrets)] →
  is_ok (agree f (agree_public (dr_ratchet dr))) = true →
  is_ok (agree f (agree_public (pks_spk secrets))) = true →
  ∃ env w1 db' sess sess' sk w0 c,
    sync_deposit debug env w1 = (Ok tt, w') ∧
    (sha256 (envelope_encode env) ∉ dm_seen db →
     receive_one rest vb now_ms' f env db wb =
       Some ([InMessage (identity_sign_public me) text id], true, (db', wb))) ∧
    dm_history db' = dm_history db ++ [mkHistory (identity_sign_public me) false now_ms' (HkText text) id] ∧
    dm_sessions d' !! idk = Some sess ∧ dm_sessions db' !! identity_sign_public me = Some sess' ∧
    ss_ad sess' = ss_ad sess ∧
    conv_start sk (dr_ratchet dr) (pks_spk secrets) w0 ∧ rtc (conv_step (ss_ad sess)) w0 c ∧
    cv_peer c true = ss_ratchet sess ∧ cv_peer c false = ss_ratchet sess' ∧ cv_wire c = [].
Proof.
  cbv zeta. unfold send_dm.
  destruct (send_content _ _ _ _ _ _ _ _ _) as [[[[]|e] [d1 w1]]|] eqn:Es; [|done|done].
  cbn [map_ok]. intros [= <- <-] Hi Hn Hsub Hb Hf Hlen Hc Hblk Hne Hfr Hf1 Hf2.
  destruct (send_first _ _ _ _ _ _ _ _ _ _ _ Es Hi Hn Hf Hb) as (s & init & env & wd & Hin & Hsess & Hp & Hseal & Hdep).
  destruct (opening_accepted _ _ _ _ _ _ _ _ _ _ Hsub Hin Hne Hfr Hf1 Hf2)
    as (s' & pk' & sk & w0 & c & Hacc & Had & Hstart & Hsteps & Hca & Hcb & Hwire).
  pose proof (open_seal _ (id_ik (vw_identity vb)) _ _ _ _ _ _ Hlen Hseal) as Hopen.
  set (seen := record_seen_envelope (dm_seen db) (dm_seen_order db) (sha256 (envelope_encode env)) SEEN_CAP) in *.
  exists env, wd, (touch (push_history (mkHistory (identity_sign_public (vw_identity v)) false now_ms' (HkText text) id)
    (set_sessions (<[identity_sign_public (vw_identity v) := s']> (dm_sessions db))
      (set_prekeys pk' (set_seen seen.2.1 seen.2.2 db))))), s, s', sk, w0, c.
  split_and!; [done| |done|done|apply lookup_insert_eq|done..].
  intros Hnew. unfold receive_one. fold seen.
  assert (seen.1 = true) as Hs1.
  { unfold seen, record_seen_envelope. rewrite bool_decide_eq_false_2 by done. by repeat case_match. }
  destruct seen as [newly [sn so]]. cbn [fst snd] in Hs1 |- *. subst newly. cbn [negb].
  rewrite Hopen. cbn [sc_inner sc_sender_idk]. rewrite packet_round by done.
  rewrite bool_decide_eq_false_2 by done. cbn [decrypt_packet set_seen dm_prekeys]. rewrite Hacc.
  rewrite content_round by done. done.
Qed.
End contact.

(** ** Bob writes to Ada

    Bob is the identity of key 7; Ada is in the ledger under key 1, later
    under key 2. *)
Module DirectDemo.
Import LedgerDemo.
#[local] Existing Instance Toy.prims.

(** A relay with one bundle and one mailbox, which may refuse deposits. *)
Record Office := mkOffice { of_bundle : bytes; of_box : list bytes; of_open : bool }.
#[export] Instance office : Connection Office :=
  {| request := λ rq w,
       match rq with
       | RqGetPrekeys _ => (Ok (RsPrekeys (Some (of_bundle w))), w)
       | RqDeposit env =>
         if of_open w then (Ok RsOk, mkOffice (of_bundle w) (of_box w ++ [env]) true) else (Err NE_Closed, w)
       | RqFetch _ _ => (Ok (RsEnvelopes (of_box w)), w)
       | _ => (Ok RsOk, w)
       end |}.

Definition view (n : N) (l : Ledger MemoryStore) (blocked : gset bytes) : View :=
  mkView (mkIdentity (sk n) (sk n)) l blocked ∅.
Definition secrets : PreKeySecrets := mkSecrets (sk 5) [sk 6].
Definition user (p : PreKeySecrets) : Dm := mkDmState ∅ p [] ∅ [] ∅ [] 0 false.
Definition ada_idk : bytes := key 1.
Definition bob_idk : bytes := key 7.
Definition ada_id : bytes := sha256 ada_idk.
Definition otps : list (bytes * bytes) := pb_otps (secrets_bundle secrets (mkIdentity (sk 1) (sk 1))).
Definition ada_bundle (n : N) : bytes := bundle_encode (secrets_bundle secrets (mkIdentity (sk n) (sk n))).
Definition closed : Office := mkOffice (ada_bundle 1) [] false.
Definition opened : Office := mkOffice (ada_bundle 1) [] true.
Definition draws : Draws := mkDraws (sk 21) (sk 22) (sk 23).
Definition note : bytes := replicate 16 x4e.
Definition quiet : View → bytes → Content → N → Dm * Office → option (list Inbound * (Dm * Office)) :=
  λ _ _ _ _ dw, Some ([], dw).
Definition deb : string → Response → bytes := λ _ _, [].

Lemma quiet_frame : rest_frame quiet.
Proof. intros v from c now_ms d w out d' w' [= <- <- <-]. split; [apply quiet_refl|constructor]. Qed.

Definition sent (text : bytes) (d : Dm) (w : Office) := send_dm deb None (view 7 l3 ∅) draws ada_id text note 50 d w.
Definition first_send := sent (lit "hi ada") (user (mkSecrets [] [])) opened.
Definition first_deposit {A} (r : option (result A CoreError * (Dm * Office))) : Envelope :=
  match r with
  | Some (Ok _, (_, w)) =>
    match envelope_decode (default [] (head (of_box w))) with Ok env => env | Err _ => mkEnvelope 0 [] [] 0 0 0 end
  | _ => mkEnvelope 0 [] [] 0 0 0
  end.
Definition mail : Envelope := first_deposit first_send.
Definition at_ada (blocked : gset bytes) := receive_one quiet (view 1 l3 blocked) 60 (sk 24) mail (user secrets) closed.
Definition inbox (r : option (list Inbound * bool * (Dm * Office))) : option (list (bytes * bytes)) :=
  match r with
  | Some (out, _, _) => Some (omap (λ i, match i with InMessage f t _ => Some (f, t) | _ => None end) out)
  | None => None
  end.
End DirectDemo.

Section witnesses.
Import LedgerDemo DirectDemo.
#[local] Existing Instance Toy.prims.
#[local] Existing Instance Toy.sign_laws.
#[local] Existing Instance Toy.agree_laws.
#[local] Existing Instance Toy.aead_laws.

Example ada_reads : inbox (at_ada ∅) = Some [(bob_idk, lit "hi ada")] ∧ inbox (at_ada {[ sha256 bob_idk ]}) = Some [].
Proof. split; vm_compute; reflexivity. Qed.

Lemma first_message_arrives_witness :
  ∃ env d' w' db' w1, sent (lit "hi ada") (user (mkSecrets [] [])) opened = Some (Ok note, (d', w')) ∧
    sync_deposit deb env w1 = (Ok tt, w') ∧
    (sha256 (envelope_encode env) ∉ dm_seen (user secrets) →
     receive_one quiet (view 1 l3 ∅) 60 (sk 24) env (user secrets) closed =
       Some ([InMessage bob_idk (lit "hi ada") note], true, (db', closed))) ∧
    dm_history db' = [mkHistory bob_idk false 60 (HkText (lit "hi ada")) note].
Proof.
  assert (Hs : match sent (lit "hi ada") (user (mkSecrets [] [])) opened with
    | Some (Ok id, _) => bool_decide (id = note) | _ => false end = true) by (vm_compute; reflexivity).
  destruct (sent _ _ _) as [[[id|e] [d' w']]|] eqn:E; try discriminate Hs.
  apply bool_decide_eq_true in Hs as ->.
  assert (H1 : idk_for_id (vw_ledger (view 7 l3 ∅)) ada_id = Some ada_idk) by (vm_compute; reflexivity).
  assert (H2 : bundle_ok (with_otps otps (secrets_bundle secrets (mkIdentity (sk 1) (sk 1))))).
  { split_and!; try (vm_compute; reflexivity). split; [vm_compute; reflexivity|].
    repeat constructor; vm_compute; reflexivity. }
  assert (H3 : (fetch_prekey_bundle None ada_id opened).1 =
    Ok (bundle_encode (with_otps otps (secrets_bundle secrets (mkIdentity (sk 1) (sk 1)))))) by (vm_compute; reflexivity).
  assert (H4 : content_ok (CTextId (lit "hi ada") note)) by (vm_compute; repeat split).
  assert (H5 : agree_public (sk 22) ≠ agree_public (pks_spk secrets)) by (vm_compute; discriminate).
  assert (H6 : agree_public (sk 24) ∉ [agree_public (sk 22); agree_public (pks_spk secrets)]).
  { apply (bool_decide_eq_false_1 (_ ∈ _)). vm_compute. reflexivity. }
  assert (H7 : is_ok (agree (sk 24) (agree_public (sk 22))) = true) by (vm_compute; reflexivity).
  assert (H8 : is_ok (agree (sk 24) (agree_public (pks_spk secrets))) = true) by (vm_compute; reflexivity).
  destruct (first_message_arrives deb None quiet (view 7 l3 ∅) (view 1 l3 ∅) draws ada_id ada_idk (lit "hi ada") note
    50 (user (mkSecrets [] [])) opened d' w' (user secrets) otps (sk 24) 60 closed E H1 (lookup_empty _)
    (λ x Hx, Hx) H2 H3 eq_refl H4 (not_elem_of_empty _) H5 H6 H7 H8)
    as (env & w1 & db' & _ & _ & _ & _ & _ & Hd & Hr & Hh & _).
  exists env, d', w', db', w1. split; [reflexivity|]. split; [exact Hd|]. split; [exact Hr|exact Hh].
Defined.

Definition after_dm {A} (r : option (A * (Dm * Office))) : Dm :=
  match r with Some (_, (d, _)) => d | None => user secrets end.
Definition after_office {A} (r : option (A * (Dm * Office))) : Office :=
  match r with Some (_, (_, w)) => w | None => closed end.


Definition mailbox : Office := after_office first_send.
Definition polled (blocked : gset bytes) (d : Dm) :=
  receive_all deb quiet (view 1 l3 blocked) 60 (λ _, sk 24) (λ n, sk (30 + N.of_nat n)) d mailbox.

Lemma receive_authentic_witness :
  ∃ out d' w', polled ∅ (user secrets) = Some (Ok out, (d', w')) ∧ InMessage bob_idk (lit "hi ada") note ∈ out ∧
    ∃ env, authenticated (view 1 l3 ∅) env bob_idk (Ok (CTextId (lit "hi ada") note)).
Proof.
  assert (Hs : match polled ∅ (user secrets) with
    | Some (Ok [InMessage f t i], _) => bool_decide (f = bob_idk) && bool_decide (t = lit "hi ada") && bool_decide (i = note)
    | _ => false end = true) by (vm_compute; reflexivity).
  destruct (polled ∅ (user secrets)) as [[[out|e] [d' w']]|] eqn:E; try discriminate Hs.
  destruct (receive_authentic deb quiet (view 1 l3 ∅) 60 (λ _, sk 24) (λ n, sk (30 + N.of_nat n)) (user secrets) mailbox
    (Ok out) d' w' quiet_frame E) as (envs & w1 & _ & Hm & _).
  destruct out as [|[] [|]]; try discriminate Hs. apply andb_true_iff in Hs as [Hs Hi].
  apply andb_true_iff in Hs as [Hf Ht]. apply bool_decide_eq_true in Hf as ->, Ht as ->, Hi as ->.
  eexists _, d', w'. split; [reflexivity|]. split; [by left|].
  destruct (Hm bob_idk (lit "hi ada") note ltac:(by left)) as (env & content & _ & Ha & [[_ Hc]|Hc]); [discriminate Hc|].
  subst content. exists env. exact Ha.
Defined.

(** The office answers any fetch with its whole box. *)
Lemma office_fetch hints since hints' since' w : sync_fetch hints since w = sync_fetch (W:=Office) hints' since' w.
Proof. reflexivity. Qed.

Lemma office_answers hints since w n :
  match sync_fetch (W:=Office) hints since w with (Ok envs, _) => (length envs <=? n)%nat | _ => false end = true →
  ∃ envs, sync_fetch hints since w = (Ok envs, w) ∧ (length envs ≤ n)%nat.
Proof.
  destruct (sync_fetch hints since w) as [[envs|e] w'] eqn:E; [|done]. intros Hn%Nat.leb_le. exists envs. split; [|done].
  unfold sync_fetch in E. cbn in E. injection E as _ <-. reflexivity.
Qed.

Lemma replay_ignored_witness :
  ∃ d1 w1, polled ∅ (user secrets) = Some (Ok [InMessage bob_idk (lit "hi ada") note], (d1, w1)) ∧
    let d2 := (take_dm_edits d1).2 in
    receive_all deb quiet (view 1 l3 ∅) 70 (λ _, sk 25) (λ _, sk 26) d2 mailbox =
      Some (Ok [], (set_since (70 - 2 * EPOCH_MS)%N d2, mailbox)).
Proof.
  assert (Hs : match polled ∅ (user secrets) with
    | Some (Ok [InMessage f t i], _) =>
        bool_decide (f = bob_idk) && bool_decide (t = lit "hi ada") && bool_decide (i = note)
    | _ => false end = true) by (vm_compute; reflexivity).
  destruct (office_answers (mailbox_hints (view 1 l3 ∅) 60) 0 mailbox 10) as (envs & Ef & Hlen); [vm_compute; reflexivity|].
  assert (Hf : (length envs + 0 ≤ SEEN_CAP)%nat) by (unfold SEEN_CAP; lia).
  destruct (polled ∅ (user secrets)) as [[[out|e] [d1 w1]]|] eqn:E; try discriminate Hs.
  destruct out as [|[f t i| | | | | | | | |] [|]]; try discriminate Hs.
  apply andb_true_iff in Hs as [Hs Hi]. apply andb_true_iff in Hs as [Hft Ht].
  apply bool_decide_eq_true in Hft as ->, Ht as ->, Hi as ->.
  exists d1, w1. split; [reflexivity|].
  refine (proj2 (replay_ignored deb quiet None (view 1 l3 ∅) 60 (λ _, sk 24) (λ n, sk (30 + N.of_nat n)) (user secrets) mailbox
    _ d1 w1 envs mailbox 0 (take_dm_edits d1).2 envs quiet_frame (window_empty SEEN_CAP) Ef E _ _ Hf)
    (view 1 l3 ∅) 70%N _ _ envs mailbox mailbox (reflexivity _) _).
  - intros env Hin. split; [exact Hin|exact (not_elem_of_empty _)].
  - apply (dm_run_step _ _ _ _ 0 0 _ _ (dm_take _ _ _ _) (dm_run_nil _ _ _ _)).
  - rewrite <- Ef. apply office_fetch.
Defined.

(** A client blocks Ada.  It blocks an id, and asks by the id of the key that
    signed: after she rotated, her id still names her new key, which is heard. *)
Definition letter (n : N) : Envelope :=
  match initiate (mkIdentity (sk n) (sk n)) (secrets_bundle secrets (mkIdentity (sk 9) (sk 9)))
          (content_encode (CText (lit "it is me"))) (sk 21) (sk 22) with
  | Some (Ok (_, init)) =>
    match envelope_seal_with (sha256 (key 9)) (agree_public (sk 9)) (key n) (packet_encode (PInit init)) 50 DM_TTL_MS
            (prim_sign (sk n)) (sk 23) with Ok env => env | Err _ => mkEnvelope 0 [] [] 0 0 0 end
  | _ => mkEnvelope 0 [] [] 0 0 0
  end.
Example rotated_is_heard :
  let heard n l blocked := inbox (receive_one quiet (view 9 l blocked) 60 (sk 24) (letter n) (user secrets) closed) in
  bool_decide (idk_for_id l4 ada_id = Some (key 2)) = true ∧
  heard 1%N l4 {[ ada_id ]} = Some [] ∧
  heard 2%N l4 {[ ada_id ]} = Some [(key 2, lit "it is me")].
Proof. vm_compute. split_and!; reflexivity. Qed.

(** The id of a rotated identity is its first key's, its bundle names the id
    of the present one: nobody opens a session with it. *)
Example rotated_is_unreachable :
  let sent n := option_map fst (send_dm deb None (view 7 l4 ∅) draws ada_id (lit "hi") note 50 (user (mkSecrets [] []))
                  (mkOffice (ada_bundle n) [] true)) in
  sent 1%N = Some (Err CoBadPeerPrekeys) ∧ sent 2%N = Some (Err CoBadPeerPrekeys).
Proof. vm_compute. split; reflexivity. Qed.

(** Bob's deposit fails, he sends again: Ada gets a message of a session she
    never saw opened. *)
Definition second_send := sent (lit "again") (after_dm (sent (lit "hi ada") (user (mkSecrets [] [])) closed)) opened.
Definition only_envelope (w : Office) : option Envelope :=
  match of_box w with
  | [bs] => match envelope_decode bs with Ok env => Some env | Err _ => None end
  | _ => None
  end.
Definition second_mail : option Envelope := only_envelope (after_office second_send).
Example lost_opening_is_not_repeated :
  option_map fst (sent (lit "hi ada") (user (mkSecrets [] [])) closed) = Some (Err (CoNet NE_Closed)) ∧
  option_map fst second_send = Some (Ok note) ∧
  (second_mail ≫= λ env, inbox (receive_one quiet (view 1 l3 ∅) 60 (sk 24) env (user secrets) closed)) = Some [].
Proof. split_and!; vm_compute; reflexivity. Qed.

(** Bob uses the id of Ada's message for one of his own and edits that: the
    edit is kept for both. *)
Definition mine : Dm := push_history (mkHistory bob_idk true 40 (HkText (lit "yes")) note) (user secrets).
Definition folds (d : Dm) (c : Content) : Dm :=
  match fold_content quiet (view 1 l3 ∅) bob_idk 50 (Ok c) d closed with Some (_, (d, _)) => d | None => d end.
Example peer_edits_my_message :
  dm_edit_of (folds mine (CDmEdit note (lit "no"))) bob_idk note = None ∧
  let d := folds (folds mine (CTextId (lit "hm") note)) (CDmEdit note (lit "no")) in
  dm_edit_of d bob_idk note = Some (mkDmMsgEdit (Some (lit "no")) false) ∧
  existsb (names_text true bob_idk note) (dm_history d) = true.
Proof. vm_compute. split_and!; reflexivity. Qed.
End witnesses.
