(* ===== verification/SignalTheorems.v ===== *)
(** * What holds of typing notices and voice presence *)

From S2P Require Import Prelude Utf8 Enc Crypto ProtoRecord Envelope IdentityRecords Ledger X3dh FileTransfer IdentityIds Content Mailbox Wire Roles Channel Mls MlsTheorems LedgerTheorems Sync ClientMessages ClientChannels ClientDm ClientSignals.

Section envelopes.
Context `{CryptoPrims, !CryptoLaws, !AgreeLaws, !AeadLaws}.

(** A sealed envelope has an encoding. *)
Lemma sealed_envelope_ok rid ik idk inner d t sign eph env :
  ok_u64 d → ok_u32 t → envelope_seal_with rid ik idk inner d t sign eph = Ok env → envelope_ok env.
Proof.
  intros Hd Ht Hs. pose proof (seal_payload_length _ _ _ _ _ _ _ _ _ Hs) as (b & Hb & Hl).
  unfold envelope_seal_with in Hs. destruct (bucket_for _) as [[c b']|] eqn:Hc; [|done].
  apply bucket_for_spec in Hc as (Hb' & _ & Hmax & Hcl). cbn [ok_or result_bind] in Hs.
  destruct (agree eph _) as [sh|]; [|done]. cbn [result_bind] in Hs.
  destruct (derive_seal _ _ _) as [key nonce]. injection Hs as <-. cbn [env_payload env_size_class] in *.
  assert (b = b') as -> by congruence.
  unfold envelope_ok. cbn [env_v env_recipient_hint env_payload env_size_class env_deposited_ms env_ttl_ms].
  split_and!; [vm_compute; reflexivity| |unfold fits_u32; lia|unfold ok_u16; lia|exact Hd|exact Ht].
  unfold ok_len, recipient_hint, sha256_parts. rewrite length_take, sha256_length. done.
Qed.
End envelopes.

Section signals.
Context `{CryptoPrims, !CryptoLaws, !SignLaws, !AgreeLaws, !AeadLaws} `{Openmls} {W : Type} `{Connection W}.
Context (show_mls : MlsError → string) (debug : string → Response → bytes).

(** Both ends of a conversation derive one topic. *)
Lemma dm_typing_topic_sym me peer :
  length (identity_sign_public me) = 32%nat → length (identity_sign_public peer) = 32%nat →
  dm_typing_topic me (identity_sign_public peer) = dm_typing_topic peer (identity_sign_public me).
Proof.
  intros Hm Hp. unfold dm_typing_topic, bytes_le.
  destruct (N.leb_spec (of_be (identity_sign_public me)) (of_be (identity_sign_public peer))) as [Hl|Hl];
    destruct (N.leb_spec (of_be (identity_sign_public peer)) (of_be (identity_sign_public me))) as [Hr|Hr];
    [|done|done|lia].
  rewrite (of_be_inj (identity_sign_public me) (identity_sign_public peer)); [done|congruence|lia].
Qed.

(** A signal sealed in a channel opens for who has the group's secret. *)
Lemma channel_signal_round m m' me cid label plaintext nonce blob :
  length me = 32%nat → length nonce = 24%nat → export_key label 32 m' = export_key label 32 m →
  seal_channel_signal show_mls m me cid label plaintext nonce = Ok blob →
  open_channel_signal m' cid label blob = Some (me, plaintext).
Proof.
  intros Hm Hn He. unfold seal_channel_signal, open_channel_signal. rewrite He.
  destruct (export_key label 32 m) as [key|e]; [|done]. cbn [map_err result_bind]. intros [= <-].
  set (ct := xchacha_seal _ _ _ _). rewrite (app_assoc me).
  replace (length ((me ++ nonce) ++ ct) <? 56)%nat with false
    by (symmetry; apply Nat.ltb_ge; rewrite !length_app; lia).
  assert (drop 56 ((me ++ nonce) ++ ct) = ct) as -> by (apply drop_app_all; rewrite length_app; lia).
  rewrite <- app_assoc.
  assert (take 32 (me ++ nonce ++ ct) = me) as -> by by apply take_app_all.
  assert (drop 32 (me ++ nonce ++ ct) = nonce ++ ct) as -> by by apply drop_app_all.
  rewrite take_app_all by done.
  unfold ct, xchacha_open, xchacha_seal. by rewrite xchacha_open_seal.
Qed.

(** A typing notice reaches the one it is for.  What [send_typing_dm] posts
    lies on the topic the peer polls for this conversation, and the peer's
    [poll_typing] makes of it exactly the notice that this sender was typing
    when it was sent, unless the peer blocks the sender.  What
    [send_typing_channel] posts is read, by every client whose session exports
    the same group secret and does not block the sender, as a notice of the
    sender's member id in this channel. *)
Theorem typing_arrives v vb eph nonce peer_id cid now_ms c w w' :
  let me := identity_sign_public (vw_identity v) in
  let bob := identity_sign_public (vw_identity vb) in
  length (id_idk (vw_identity v)) = 32%nat → length bob = 32%nat → length nonce = 24%nat → ok_u64 now_ms →
  (send_typing_dm debug v eph peer_id now_ms w = (Ok tt, w') →
   idk_for_id (vw_ledger v) peer_id = Some bob →
   agreement_key (vw_ledger v) bob = Some (identity_agree_public (vw_identity vb)) →
   idk_to_id me ∉ vw_blocked vb →
   ∃ blob, sync_post_signal debug (dm_typing_topic (vw_identity vb) me) blob w = (Ok tt, w') ∧
     typing_dm vb me blob = Some (mkTyping (ScopeDm me) me now_ms)) ∧
  (send_typing_channel show_mls debug v nonce cid now_ms c w = (Ok tt, w') →
   ∃ ch blob, ec_channels c !! cid = Some ch ∧ sync_post_signal debug cid blob w = (Ok tt, w') ∧
     ∀ ch', export_key CHANNEL_SIGNAL_LABEL 32 (cs_mls ch') = export_key CHANNEL_SIGNAL_LABEL 32 (cs_mls ch) →
       my_member_id vb ≠ my_member_id v → my_member_id v ∉ vw_blocked vb →
       typing_channel vb cid ch' blob = Some (mkTyping (ScopeChannel cid) (my_member_id v) now_ms)).
Proof.
  cbv zeta. intros Hsk Hbob Hn Hnow. split.
  - unfold send_typing_dm. intros Hs Hi Ha Hb. rewrite Hi in Hs. cbn [ok_or result_bind] in Hs.
    rewrite Ha in Hs. cbn [ok_or result_bind] in Hs.
    destruct (envelope_seal_with _ _ _ _ _ _ _ _) as [env|e] eqn:Ev; [|done]. cbn [map_err result_bind] in Hs.
    exists (envelope_encode env). rewrite dm_typing_topic_sym; [|done|by apply vk_of_sk_length].
    destruct (sync_post_signal _ _ _ _) as [[[]|e] w1]; [|done]. cbn [map_err] in Hs. split; [congruence|].
    unfold typing_dm. rewrite envelope_round by (eapply sealed_envelope_ok; [exact Hnow| |exact Ev]; vm_compute; reflexivity).
    rewrite (open_seal _ _ _ _ _ _ _ _ Hsk Ev). cbn [sc_sender_idk sc_inner].
    rewrite bool_decide_eq_true_2 by done. cbn [negb].
    rewrite bool_decide_eq_false_2 by done.
    unfold is_typing. rewrite content_round by done. rewrite bool_decide_eq_true_2 by done.
    do 3 f_equal. unfold envelope_seal_with in Ev. destruct (bucket_for _) as [[? ?]|]; [|done].
    cbn [ok_or result_bind] in Ev. destruct (agree eph _); [|done]. cbn [result_bind] in Ev.
    destruct (derive_seal _ _ _). by injection Ev as <-.
  - unfold send_typing_channel. destruct (ec_channels c !! cid) as [ch|]; [|done].
    destruct (seal_channel_signal _ _ _ _ _ _ _) as [blob|e] eqn:Es; [|done]. intros Hs. exists ch, blob.
    destruct (sync_post_signal _ _ _ _) as [[[]|e] w1]; [|done]. cbn [map_err] in Hs.
    split_and!; [done|congruence|]. intros ch' He Hne Hb. unfold typing_channel.
    assert (Hid : length (my_member_id v) = 32%nat) by apply sha256_length.
    rewrite (channel_signal_round _ _ _ _ _ _ _ _ Hid Hn He Es).
    rewrite (bool_decide_eq_false_2 (_ = my_member_id vb)) by congruence.
    rewrite bool_decide_eq_false_2 by done.
    replace (length _ <? 8)%nat with false by (symmetry; apply Nat.ltb_ge; rewrite length_app, length_be; lia).
    cbn [orb]. unfold is_typing. rewrite drop_app_all, take_app_all by by rewrite length_be.
    rewrite content_round by done. rewrite bool_decide_eq_true_2 by done.
    rewrite of_be_be, N.mod_small; done.
Qed.
End signals.

(** Ada tells Carol, and the hall, that she is typing. *)
Section witnesses.
Import LedgerDemo MlsDemo.
#[local] Existing Instance Toy.prims.
#[local] Existing Instance Toy.laws.
#[local] Existing Instance Toy.sign_laws.
#[local] Existing Instance Toy.agree_laws.
#[local] Existing Instance Toy.aead_laws.
#[local] Instance accepting : Connection (list Request) := {| request := λ rq w, (Ok RsOk, w ++ [rq]) |}.
Definition person (n : N) : View := mkView (mkIdentity (sk n) (sk n)) l3 ∅ ∅.
Definition hall : bytes := replicate 32 x09.
Definition seats : EngineChannels :=
  mkEngineChannels {[ hall := mkChannelSession (mkInfo (key 1) (lit "maps") hall (lit "hall") false ada false) member
    {[ ada ]} 0 ∅ None ]} ∅ ∅ [] book_empty.
Definition say (_ : MlsError) : string := "mls".
Definition deb (_ : string) (_ : Response) : bytes := [].

Lemma typing_arrives_witness :
  (∃ w' blob, send_typing_dm deb (person 7) (sk 20) ada 50 [] = (Ok tt, w') ∧
     typing_dm (person 1) (key 7) blob = Some (mkTyping (ScopeDm (key 7)) (key 7) 50)) ∧
  (∃ w' ch blob, send_typing_channel say deb (person 7) (replicate 24 x07) hall 50 seats [] = (Ok tt, w') ∧
     ec_channels seats !! hall = Some ch ∧
     typing_channel (person 1) hall ch blob = Some (mkTyping (ScopeChannel hall) (sha256 (key 7)) 50)).
Proof.
  assert (Hd : match send_typing_dm deb (person 7) (sk 20) ada 50 [] with (Ok tt, _) => true | _ => false end = true)
    by (vm_compute; reflexivity).
  destruct (send_typing_dm deb (person 7) (sk 20) ada 50 []) as [[[]|e] w1] eqn:E1; [|discriminate Hd].
  assert (Hc : match send_typing_channel say deb (person 7) (replicate 24 x07) hall 50 seats [] with
    (Ok tt, _) => true | _ => false end = true) by (vm_compute; reflexivity).
  destruct (send_typing_channel say deb (person 7) (replicate 24 x07) hall 50 seats []) as [[[]|e] w2] eqn:E2; [|discriminate Hc].
  assert (Hi : idk_for_id (vw_ledger (person 7)) ada = Some (identity_sign_public (vw_identity (person 1))))
    by (vm_compute; reflexivity).
  assert (Ha : agreement_key (vw_ledger (person 7)) (identity_sign_public (vw_identity (person 1))) =
    Some (identity_agree_public (vw_identity (person 1)))) by (vm_compute; reflexivity).
  assert (Hn : ok_u64 50) by (vm_compute; reflexivity).
  assert (Hne : my_member_id (person 1) ≠ my_member_id (person 7)) by (vm_compute; discriminate).
  assert (Hl1 : length (identity_sign_public (vw_identity (person 1))) = 32%nat) by reflexivity.
  split.
  - destruct (typing_arrives say deb (person 7) (person 1) (sk 20) (replicate 24 x07) ada hall 50 seats [] w1
      eq_refl Hl1 eq_refl Hn) as [Hdm _].
    destruct (Hdm E1 Hi Ha (not_elem_of_empty _)) as (blob & _ & Hb).
    exists w1, blob. split; [reflexivity|exact Hb].
  - destruct (typing_arrives say deb (person 7) (person 1) (sk 20) (replicate 24 x07) ada hall 50 seats [] w2
      eq_refl Hl1 eq_refl Hn) as [_ Hch].
    destruct (Hch E2) as (ch & blob & Hl & _ & Hb).
    exists w2, ch, blob. split; [reflexivity|]. split; [exact Hl|].
    exact (Hb ch eq_refl Hne (not_elem_of_empty _)).
Defined.
End witnesses.
