(* ===== verification/ClientPeers.v ===== *)
(** * Contacts, blocking, verification and the own profile
    ([crates/dante-core/src/engine.rs])

    What the client keeps about other identities, and the identity records it
    publishes about its own.  A proof of work is found by a search over random
    nonces and is an argument; so is SHA-512, and [str::to_lowercase] outside
    ASCII. *)

From S2P Require Import Prelude Utf8 Enc Crypto ProtoRecord IdentityRecords Ledger X3dh FileTransfer IdentityIds Content Mailbox Wire Roles Invite Channel LocalStore Mls Sync ClientMessages ClientChannels.

(** ** Constants *)
Definition PETNAME_MAX : nat := 64.
Definition SAFETY_NUMBER_DOMAIN : bytes := lit "dante/safety-number/v1".
Definition REANNOUNCE_AFTER_MS : N := 24 * 60 * 60 * 1000.
Definition AVATAR_MAX_BYTES : N := 256 * 1024.

(** ** Text *)

(** The bytes of the character that starts with [b]. *)
Definition char_width (b : byte) : nat :=
  if (b2n b <? 128)%N then 1 else if (b2n b <? 224)%N then 2 else if (b2n b <? 240)%N then 3 else 4.

(** [s.chars().take(n).collect::<String>()] *)
Fixpoint take_chars (n : nat) (s : bytes) : bytes :=
  match n, s with
  | O, _ | _, [] => []
  | S n, b :: _ => take (char_width b) s ++ take_chars n (drop (char_width b) s)
  end.

(** [str::cmp]: byte by byte, a prefix first. *)
Fixpoint str_le (a b : bytes) : bool :=
  match a, b with
  | [], _ => true
  | _ :: _, [] => false
  | x :: a, y :: b => if (b2n x =? b2n y)%N then str_le a b else (b2n x <? b2n y)%N
  end.

Definition starts_with (p s : bytes) : bool := bool_decide (take (length p) s = p).
Definition is_png (image : bytes) : bool := starts_with [x89; x50; x4e; x47; x0d; x0a; x1a; x0a] image.
Definition is_jpeg (image : bytes) : bool := starts_with [xff; xd8; xff] image.

(** ** State *)
Record Contact := mkContact { ct_petname : bytes; ct_added_ms : N }.

#[global] Instance Contact_eq_dec : EqDecision Contact.
Proof. solve_decision. Defined.

Record Peers := mkPeers {
  pr_verified_peers : gmap bytes bytes;
  pr_contacts : gmap bytes Contact;
  pr_blocked : gset bytes;
  pr_last_announce_ms : N;
  pr_announced_name : option bytes;
  pr_dirty : bool;
}.

Definition set_verified_peers (m : gmap bytes bytes) (p : Peers) : Peers :=
  mkPeers m (pr_contacts p) (pr_blocked p) (pr_last_announce_ms p) (pr_announced_name p) true.
Definition set_contacts (m : gmap bytes Contact) (p : Peers) : Peers :=
  mkPeers (pr_verified_peers p) m (pr_blocked p) (pr_last_announce_ms p) (pr_announced_name p) true.
Definition set_blocked (s : gset bytes) (p : Peers) : Peers :=
  mkPeers (pr_verified_peers p) (pr_contacts p) s (pr_last_announce_ms p) (pr_announced_name p) true.
Definition set_announced (at_ms : N) (name : option bytes) (p : Peers) : Peers :=
  mkPeers (pr_verified_peers p) (pr_contacts p) (pr_blocked p) at_ms name true.
Definition peers_touch (p : Peers) : Peers :=
  mkPeers (pr_verified_peers p) (pr_contacts p) (pr_blocked p) (pr_last_announce_ms p) (pr_announced_name p) true.

Section peers.
Context `{CryptoPrims, Sha512}.
Context (to_lowercase : bytes → bytes).

(** ** Verification *)
Definition engine_safety_number (v : View) (peer_id : bytes) : option bytes :=
  peer_idk ← idk_for_id (vw_ledger v) peer_id;
  let mine := identity_sign_public (vw_identity v) in
  let '(lo, hi) := if bytes_le mine peer_idk then (mine, peer_idk) else (peer_idk, mine) in
  let h := prim_sha512 (SAFETY_NUMBER_DOMAIN ++ lo ++ hi) in
  Some (join_spaces (five_digits <$> chunks 5 (take 60 h))).

Definition set_verified (l : Ledger MemoryStore) (peer_id : bytes) (verified : bool) (p : Peers)
    : result unit CoreError * Peers :=
  if verified then
    match idk_for_id l peer_id with
    | None => (Err CoUnknownPeer, p)
    | Some idk => (Ok tt, set_verified_peers (<[peer_id := idk]> (pr_verified_peers p)) p)
    end
  else (Ok tt, set_verified_peers (delete peer_id (pr_verified_peers p)) p).

Definition is_verified (l : Ledger MemoryStore) (peer_id : bytes) (p : Peers) : bool :=
  match pr_verified_peers p !! peer_id, idk_for_id l peer_id with
  | Some pinned, Some current => bool_decide (pinned = current)
  | _, _ => false
  end.

(** ** Contacts *)
Definition add_contact (peer_id petname : bytes) (now_ms : N) (p : Peers) : Peers :=
  let petname := take_chars PETNAME_MAX (trim petname) in
  let added_ms := match pr_contacts p !! peer_id with Some c => ct_added_ms c | None => now_ms end in
  set_contacts (<[peer_id := mkContact petname added_ms]> (pr_contacts p)) p.

Definition remove_contact (peer_id : bytes) (p : Peers) : Peers :=
  if bool_decide (is_Some (pr_contacts p !! peer_id)) then set_contacts (delete peer_id (pr_contacts p)) p else p.

(** The comparison of [contacts]: by lower-cased petname, then by id. *)
Definition contact_le (a b : bytes * Contact) : Prop :=
  let x := to_lowercase (ct_petname a.2) in
  let y := to_lowercase (ct_petname b.2) in
  (if bool_decide (x = y) then bytes_le a.1 b.1 else str_le x y) = true.
#[global] Instance contact_le_dec : RelDecision contact_le.
Proof. intros a b. unfold contact_le. apply _. Defined.

Definition contacts (p : Peers) : list (bytes * Contact) := merge_sort contact_le (map_to_list (pr_contacts p)).

Definition petname (peer_id : bytes) (p : Peers) : option bytes :=
  c ← pr_contacts p !! peer_id; if bool_decide (ct_petname c = []) then None else Some (ct_petname c).
Definition is_contact (peer_id : bytes) (p : Peers) : bool := bool_decide (is_Some (pr_contacts p !! peer_id)).

(** ** Blocking *)
Definition block (peer_id : bytes) (p : Peers) : Peers :=
  if bool_decide (peer_id ∈ pr_blocked p) then p else set_blocked ({[ peer_id ]} ∪ pr_blocked p) p.
Definition unblock (peer_id : bytes) (p : Peers) : Peers :=
  if bool_decide (peer_id ∈ pr_blocked p) then set_blocked (pr_blocked p ∖ {[ peer_id ]}) p else p.
Definition is_blocked (peer_id : bytes) (p : Peers) : bool := bool_decide (peer_id ∈ pr_blocked p).
Definition blocked (p : Peers) : list bytes := sort_by_key of_be (elements (pr_blocked p)).

(** ** Persisting *)
Definition persist_verified (p : Peers) : list (bytes * bytes) := map_to_list (pr_verified_peers p).
Definition persist_contacts (p : Peers) : list (bytes * bytes * N) :=
  (λ '(id, c), (id, ct_petname c, ct_added_ms c)) <$> map_to_list (pr_contacts p).
Definition persist_blocked (p : Peers) : list bytes := elements (pr_blocked p).
Definition restore_peers (verified : list (bytes * bytes)) (cs : list (bytes * bytes * N)) (bl : list bytes)
    (p : Peers) : Peers :=
  mkPeers (list_to_map verified) (list_to_map ((λ '(id, petname, added_ms), (id, mkContact petname added_ms)) <$> cs))
    (list_to_set bl) (pr_last_announce_ms p) (pr_announced_name p) (pr_dirty p).

(** ** The own profile *)
Section world.
Context {W : Type} `{Connection W}.
Context (debug : string → Response → bytes).

(** [to_record] of the identity's bodies *)
Definition own_record (v : View) (kind : RecordKind) (body : bytes) (now_ms : N) : record :=
  record_seal_with kind body (identity_sign_public (vw_identity v)) now_ms (identity_sign (vw_identity v)).

(** [submit] and gossip, which changes nothing here. *)
Definition submit (rec : record) (f : Peers → Peers) (p : Peers) (w : W) : result unit CoreError * (Peers * W) :=
  match sync_submit_record debug rec w with
  | (Err e, w) => (Err (CoNet e), (p, w))
  | (Ok _, w) => (Ok tt, (f p, w))
  end.

(** Publishing a key package afterwards is best-effort and is left out here. *)
Definition announce (v : View) (pow : PowProof) (display_hint : bytes) (now_ms : N) (p : Peers) (w : W) :=
  let body := announce_from_proof (identity_sign (vw_identity v)) display_hint
                (identity_agree_public (vw_identity v)) pow in
  submit (own_record v IdentityAnnounce (announce_encode body) now_ms)
    (λ p, set_announced now_ms (if bool_decide (display_hint = []) then pr_announced_name p else Some display_hint) p) p w.

Definition prove_liveness (v : View) (pow : PowProof) (now_ms : N) (p : Peers) (w : W) :=
  submit (own_record v LivenessProof (liveness_encode (mkLiveness pow)) now_ms)
    (λ p, set_announced now_ms (pr_announced_name p) p) p w.

Definition announce_if_stale (v : View) (pow : PowProof) (display_hint : bytes) (now_ms : N) (p : Peers) (w : W)
    : result bool CoreError * (Peers * W) :=
  if (now_ms - pr_last_announce_ms p <=? REANNOUNCE_AFTER_MS)%N then (Ok false, (p, w))
  else
    let '(r, pw) := if (pr_last_announce_ms p =? 0)%N then announce v pow display_hint now_ms p w
                    else prove_liveness v pow now_ms p w in
    (match r with Ok _ => Ok true | Err e => Err e end, pw).

Definition revoke_identity (v : View) (reason : RevokeReason) (now_ms : N) (p : Peers) (w : W) :=
  submit (own_record v IdentityRevoke
    (revoke_encode (mkRevoke (identity_sign_public (vw_identity v)) reason)) now_ms) peers_touch p w.

Definition my_username (v : View) (p : Peers) : option bytes :=
  match pr_announced_name p with
  | Some name => Some name
  | None => display_name_by_id (vw_ledger v) (my_member_id v)
  end.
Definition my_avatar_hash (v : View) : option bytes := avatar_hash_by_id (vw_ledger v) (my_member_id v).
Definition my_status (v : View) : option bytes := status_by_id (vw_ledger v) (my_member_id v).

Definition submit_profile (v : View) (avatar_hash status : option bytes) (now_ms : N) (p : Peers) (w : W) :=
  submit (own_record v IdentityProfile (profile_encode (mkProfile avatar_hash status)) now_ms) peers_touch p w.

Definition publish_avatar (v : View) (image : bytes) (now_ms : N) (p : Peers) (w : W)
    : result unit CoreError * (Peers * W) :=
  if bool_decide (image = []) || (AVATAR_MAX_BYTES <? len image)%N
  then (Err (CoChannel "avatar image must be 1 byte..=256 KiB"), (p, w))
  else if negb (is_png image) && negb (is_jpeg image)
  then (Err (CoChannel "avatar image must be a PNG or JPEG"), (p, w))
  else
    match sync_put_blob debug image w with
    | (Err e, w) => (Err (CoNet e), (p, w))
    | (Ok _, w) => submit_profile v (Some (sha256 image)) (my_status v) now_ms p w
    end.
Definition clear_avatar (v : View) (now_ms : N) (p : Peers) (w : W) := submit_profile v None (my_status v) now_ms p w.
Definition publish_status (v : View) (status : bytes) (now_ms : N) (p : Peers) (w : W)
    : result unit CoreError * (Peers * W) :=
  if negb (valid_status status) then (Err (CoChannel "bad status"), (p, w))
  else submit_profile v (my_avatar_hash v) (Some status) now_ms p w.
Definition clear_status (v : View) (now_ms : N) (p : Peers) (w : W) :=
  submit_profile v (my_avatar_hash v) None now_ms p w.
End world.
End peers.
