(* ===== verification/PeerTheorems.v ===== *)
(** * What holds of safety numbers, contacts and the own profile *)

From S2P Require Import Prelude Utf8 Enc Crypto ProtoRecord IdentityRecords Ledger LedgerProofs LedgerTheorems X3dh FileTransfer IdentityIds IdentityTheorems Content Mailbox Wire Roles Invite Channel LocalStore Mls Sync ClientMessages ClientChannels ClientPeers.

(** ** Safety numbers *)

(** Twelve groups of five digits, whatever the digest. *)
Lemma length_five_digits c : length (five_digits c) = 5%nat.
Proof. done. Qed.

Lemma chunks_fuel_length f n k l :
  (0 < n)%nat → (length l ≤ f)%nat → length l = (k * n)%nat → length (chunks_fuel f n l) = k.
Proof.
  intros Hn. revert k l. induction f as [|f IH]; intros k l Hf Hl.
  - destruct l; [|simpl in Hf; lia]. destruct k; simpl in *; [done|lia].
  - destruct l as [|b l]; [destruct k; simpl in *; [done|lia]|]. destruct k as [|k]; [simpl in Hl; lia|].
    cbn [chunks_fuel length]. f_equal. apply IH; rewrite length_drop; simpl in *; lia.
Qed.

Lemma join_spaces_length l n : Forall (λ s, length s = n) l → length (join_spaces l) = (length l * S n - 1)%nat.
Proof.
  induction 1 as [|s l Hs Hl IH]; [done|]. destruct l as [|t l]; [simpl; lia|].
  change (length (s ++ x20 :: join_spaces (t :: l)) = (length (s :: t :: l) * S n - 1)%nat).
  rewrite length_app. cbn [length] in *. rewrite IH. cbn [length]. lia.
Qed.

Section safety.
Context `{CryptoPrims, Sha512}.

(** What is hashed for two keys. *)
Definition pair_input (a b : bytes) : bytes :=
  let '(lo, hi) := if bytes_le a b then (a, b) else (b, a) in SAFETY_NUMBER_DOMAIN ++ lo ++ hi.

Lemma pair_input_same a b a' b' :
  length a = 32%nat → length b = 32%nat → length a' = 32%nat → length b' = 32%nat →
  pair_input a b = pair_input a' b' ↔ (a = a' ∧ b = b' ∨ a = b' ∧ b = a').
Proof.
  intros La Lb La' Lb'. unfold pair_input. split.
  - destruct (bytes_le a b), (bytes_le a' b'); intros E%app_inv_head;
      (apply app_inj_length_l in E as [-> ->]; [auto|congruence]).
  - intros [[-> ->]|[-> ->]]; [done|]. unfold pair_input.
    apply (ordered_sym (λ lo hi, SAFETY_NUMBER_DOMAIN ++ lo ++ hi)). congruence.
Qed.

(** Both ends of a conversation read the same safety number.  When each has
    the other's current key, they are shown one text of twelve groups of five
    digits; and it is made of the digest of a text that two pairs of keys
    share only when they are the same pair. *)
Theorem safety_numbers_agree v vb ada bob :
  let a := identity_sign_public (vw_identity v) in
  let b := identity_sign_public (vw_identity vb) in
  length a = 32%nat → length b = 32%nat →
  idk_for_id (vw_ledger v) bob = Some b → idk_for_id (vw_ledger vb) ada = Some a →
  engine_safety_number v bob = engine_safety_number vb ada ∧
  (∃ n, engine_safety_number v bob = Some n ∧ length n = 71%nat ∧
     n = join_spaces (five_digits <$> chunks 5 (take 60 (prim_sha512 (pair_input a b))))) ∧
  (∀ a' b', length a' = 32%nat → length b' = 32%nat →
     pair_input a b = pair_input a' b' ↔ (a = a' ∧ b = b' ∨ a = b' ∧ b = a')).
Proof.
  cbv zeta. set (a := identity_sign_public (vw_identity v)). set (b := identity_sign_public (vw_identity vb)).
  intros La Lb Hb Ha.
  assert (Hn : ∀ u peer_id x y, identity_sign_public (vw_identity u) = x → idk_for_id (vw_ledger u) peer_id = Some y →
    engine_safety_number u peer_id = Some (join_spaces (five_digits <$> chunks 5 (take 60 (prim_sha512 (pair_input x y)))))).
  { intros u peer_id x y <- Hy. unfold engine_safety_number, pair_input. rewrite Hy. cbn [mbind option_bind].
    by destruct (bytes_le _ y). }
  split_and!.
  - rewrite (Hn v bob a b), (Hn vb ada b a) by done. do 6 f_equal. apply pair_input_same; auto.
  - eexists. split; [by apply (Hn v bob a b)|]. split; [|done].
    assert (Hl : length (chunks 5 (take 60 (prim_sha512 (pair_input a b)))) = 12%nat).
    { apply chunks_fuel_length; [lia|done|]. rewrite length_take, sha512_length. done. }
    rewrite (join_spaces_length _ 5); [by rewrite length_fmap, Hl|].
    apply list.Forall_fmap. apply list.Forall_forall. intros c _. apply length_five_digits.
  - intros. by apply pair_input_same.
Qed.
End safety.

(** ** The own profile *)
Section profile.
Context `{CryptoPrims, !SignLaws, !CryptoLaws} {W : Type} `{Connection W}.
Context (debug : string → Response → bytes).

Lemma own_record_verifies v kind body now_ms :
  length (id_idk (vw_identity v)) = 32%nat → record_verify_signature (own_record v kind body now_ms) = Ok tt.
Proof.
  intros Hsk. unfold own_record, record_verify_signature, record_seal_with. cbn [rec_author rec_sig].
  unfold sign_public_from_bytes, identity_sign_public. rewrite vk_of_sk_ok by done. cbn [result_bind].
  unfold sign_verify, identity_sign. by rewrite sign_verifies.
Qed.

(** A status that is published is shown, and keeps the avatar.  What
    [publish_status] submits is a record that every ledger accepts in which
    the client's key is the current key of a usable identity, that has not
    seen a later profile and whose clock is not behind by more than the
    allowed skew; afterwards that ledger shows this status for the identity,
    and the avatar it showed before, when the client's replica had it. *)
Theorem status_published v status now_ms p w p' w' :
  publish_status debug v status now_ms p w = (Ok tt, (p', w')) →
  length (id_idk (vw_identity v)) = 32%nat → utf8_valid status = true →
  ∃ rec, sync_submit_record debug rec w = (Ok tt, w') ∧
    ∀ (l : Ledger MemoryStore) i c relay_ms,
      acts_on l (identity_sign_public (vw_identity v)) i c → lg_id_to_chain l !! my_member_id v = Some i →
      (ch_profile_ms c < now_ms)%N → (now_ms ≤ sat_add64 relay_ms CLOCK_SKEW_MS)%N →
      my_avatar_hash v = ch_avatar_hash c → (∀ h, ch_avatar_hash c = Some h → length h = 32%nat) →
      ∃ l', append rec relay_ms l = Some (Ok (record_id rec), l') ∧
        status_by_id l' (my_member_id v) = Some status ∧
        avatar_hash_by_id l' (my_member_id v) = avatar_hash_by_id l (my_member_id v).
Proof.
  unfold publish_status. destruct (valid_status status) eqn:Hv; [|done]. cbn [negb].
  unfold submit_profile, submit. set (rec := own_record _ _ _ _). intros Hs Hsk Hu.
  exists rec. destruct (sync_submit_record debug rec w) as [[[]|e] w1]; [|done]. split; [congruence|].
  intros l i c relay_ms Hact Hid Hms Hskew Hav Hlen.
  assert (Hacc : accepted rec l (push_record_to rec (set_chains (alter (profile_chain
    (my_avatar_hash v) (Some status) now_ms) i) l))).
  { apply (acc_profile rec l (mkProfile (my_avatar_hash v) (Some status)) i c); try done.
    unfold rec, own_record, record_seal_with. cbn [rec_body]. apply profile_round. split; cbn.
    - rewrite Hav. destruct (ch_avatar_hash c) as [h|]; [by apply Hlen|done].
    - done. }
  eexists. split.
  - apply append_intro; [|exact Hacc]. unfold header_ok. split_and!; [done|done|done|by apply own_record_verifies].
  - destruct Hact as (_ & Hc & _). unfold status_by_id, avatar_hash_by_id, chain_by_id.
    cbn [push_record_to set_chains lg_id_to_chain lg_chains]. rewrite Hid. cbn [mbind option_bind].
    rewrite list_lookup_alter, Hc, decide_True by done. by split.
Qed.
End profile.

(** ** Witnesses *)
Section witnesses.
Import LedgerDemo.
#[local] Existing Instance Toy.prims.
#[local] Existing Instance Toy.laws.
#[local] Existing Instance Toy.sign_laws.

(** Two toy digests stand for SHA-512. *)
Lemma toy512_length m : length (Toy.hash m ++ Toy.hash (x00 :: m)) = 64%nat.
Proof. unfold Toy.hash. by rewrite length_app, !Toy.to_bytes_length. Qed.
#[local] Instance toy512 : Sha512 :=
  {| prim_sha512 m := Toy.hash m ++ Toy.hash (x00 :: m); sha512_length := toy512_length |}.
#[local] Instance accepting : Connection (list Request) := {| request := λ rq w, (Ok RsOk, w ++ [rq]) |}.
Definition person (n : N) : View := mkView (mkIdentity (sk n) (sk n)) l3 ∅ ∅.
Definition ada : bytes := sha256 (key 1).
Definition nobody : Peers := mkPeers ∅ ∅ ∅ 0 None false.
Definition deb (_ : string) (_ : Response) : bytes := [].

Definition with_bob : Ledger MemoryStore :=
  after (append (signed 7 IdentityAnnounce
    (announce_encode (announce_from_proof (prim_sign (sk 7)) (lit "bob") (ik 7) pow)) 11) 100 l3).
Definition bob : bytes := sha256 (key 7).
Definition at_bob (n : N) : View := mkView (mkIdentity (sk n) (sk n)) with_bob ∅ ∅.

Lemma safety_numbers_agree_witness :
  engine_safety_number (at_bob 1) bob = engine_safety_number (at_bob 7) ada ∧ is_Some (engine_safety_number (at_bob 1) bob).
Proof.
  assert (H1 : idk_for_id (vw_ledger (at_bob 1)) bob = Some (identity_sign_public (vw_identity (at_bob 7))))
    by (vm_compute; reflexivity).
  assert (H2 : idk_for_id (vw_ledger (at_bob 7)) ada = Some (identity_sign_public (vw_identity (at_bob 1))))
    by (vm_compute; reflexivity).
  assert (H3 : length (identity_sign_public (vw_identity (at_bob 1))) = 32%nat) by reflexivity.
  assert (H4 : length (identity_sign_public (vw_identity (at_bob 7))) = 32%nat) by reflexivity.
  destruct (safety_numbers_agree (at_bob 1) (at_bob 7) ada bob H3 H4 H1 H2) as (Hs & (n & Hn & _) & _).
  split; [exact Hs|]. exists n. exact Hn.
Defined.

(** The premises about the ledger, as one check. *)
Definition may_publish (l : Ledger MemoryStore) (v : View) (now_ms : N) (i : nat) : bool :=
  bool_decide (lg_idk_to_chain l !! identity_sign_public (vw_identity v) = Some i) &&
  bool_decide (lg_id_to_chain l !! my_member_id v = Some i) &&
  match lg_chains l !! i with
  | Some c => chain_usable c && bool_decide (ch_tip_idk c = identity_sign_public (vw_identity v)) &&
      (ch_profile_ms c <? now_ms)%N && bool_decide (my_avatar_hash v = ch_avatar_hash c) &&
      bool_decide (ch_avatar_hash c = None)
  | None => false
  end.

Lemma may_publish_spec l v now_ms i :
  may_publish l v now_ms i = true →
  ∃ c, acts_on l (identity_sign_public (vw_identity v)) i c ∧ lg_id_to_chain l !! my_member_id v = Some i ∧
    (ch_profile_ms c < now_ms)%N ∧ my_avatar_hash v = ch_avatar_hash c ∧ ∀ h, ch_avatar_hash c = Some h → length h = 32%nat.
Proof.
  unfold may_publish. intros Hc. apply andb_true_iff in Hc as [Hc Hm]. apply andb_true_iff in Hc as [Hk Hid].
  apply bool_decide_eq_true in Hk, Hid. destruct (lg_chains l !! i) as [c|] eqn:Ec; [|done].
  apply andb_true_iff in Hm as [Hm Hn]. apply andb_true_iff in Hm as [Hm Ha]. apply andb_true_iff in Hm as [Hm Hp].
  apply andb_true_iff in Hm as [Hu Ht]. apply bool_decide_eq_true in Hn, Ha, Ht. apply N.ltb_lt in Hp.
  exists c. repeat split; try done. intros h Hh. congruence.
Qed.

Lemma succeeds_inv (r : result unit CoreError * (Peers * list Request)) :
  is_ok r.1 = true → ∃ p w, r = (Ok tt, (p, w)).
Proof. destruct r as [[[]|] [p w]]; [eauto|done]. Qed.

Lemma status_published_witness :
  ∃ rec l', append rec 100 (vw_ledger (person 1)) = Some (Ok (record_id rec), l') ∧
    status_by_id l' (my_member_id (person 1)) = Some (lit "away").
Proof.
  assert (Hs : is_ok (publish_status deb (person 1) (lit "away") 60 nobody []).1 = true) by (vm_compute; reflexivity).
  assert (Hc : may_publish (vw_ledger (person 1)) (person 1) 60 0 = true) by (vm_compute; reflexivity).
  destruct (succeeds_inv _ Hs) as (p' & w' & E).
  destruct (may_publish_spec _ _ _ _ Hc) as (c & Hact & Hid & Hm & Ha & Hlen).
  assert (Hsk : length (id_idk (vw_identity (person 1))) = 32%nat) by reflexivity.
  assert (Hu : utf8_valid (lit "away") = true) by (vm_compute; reflexivity).
  destruct (status_published deb (person 1) (lit "away") 60 nobody [] p' w' E Hsk Hu) as (rec & _ & Hl).
  assert (Hskew : (60 ≤ sat_add64 100 CLOCK_SKEW_MS)%N) by (vm_compute; discriminate).
  destruct (Hl _ _ c 100%N Hact Hid Hm Hskew Ha Hlen) as (l' & Hap & Hst & _).
  exists rec, l'. split; [exact Hap|exact Hst].
Defined.

(** A petname keeps 64 characters, which can be 256 bytes. *)
Example petname_counts_characters :
  let p := add_contact ada (mjoin (replicate 64 [xf0; x9f; x98; x80]) ++ lit "more") 5 nobody in
  option_map length (petname ada p) = Some 256%nat.
Proof. vm_compute. reflexivity. Qed.
End witnesses.
