(* ===== verification/Servers.v ===== *)
(** * The servers and channels a client hosts or joined
    ([crates/dante-core/src/engine.rs])

    Creating servers and channels, inviting and removing members, invite
    links, bans, deleting and leaving, and the sweep of inactive members.  An
    operation of the engine is a stateful, fallible step; what it sends goes
    through the direct messages of [ClientDm], what it posts through the
    channel log of [ClientChannels].  Random bytes are drawn from a stream
    that is part of the state.  [HashSet]s and [HashMap]s are iterated in an
    order of no consequence.  Gossip and the DHT's announcements change
    nothing here. *)

From S2P Require Import Prelude Utf8 Enc Crypto ProtoRecord IdentityRecords Server Ledger X3dh Content Mailbox Wire Roles Invite Channel LocalStore Mls Sync ClientMessages ClientChannels ClientDm ClientPeers.

(** ** Text *)
Definition eq_ignore_ascii_case (a b : bytes) : bool :=
  bool_decide (ascii_lowercase <$> a = ascii_lowercase <$> b).

(** ** State *)
Record HostedServer := mkHosted {
  ho_name : bytes;
  ho_root : bytes;
  ho_channels : list bytes;
  ho_auto_kick_ms : option N;
  ho_join_pw_hash : option bytes;
  ho_banned : gset bytes;
  ho_register_pow : PowProof;
}.

Definition ho_set_channels (l : list bytes) (h : HostedServer) : HostedServer :=
  mkHosted (ho_name h) (ho_root h) l (ho_auto_kick_ms h) (ho_join_pw_hash h) (ho_banned h) (ho_register_pow h).
Definition ho_set_auto_kick (o : option N) (h : HostedServer) : HostedServer :=
  mkHosted (ho_name h) (ho_root h) (ho_channels h) o (ho_join_pw_hash h) (ho_banned h) (ho_register_pow h).
Definition ho_set_join_pw (o : option bytes) (h : HostedServer) : HostedServer :=
  mkHosted (ho_name h) (ho_root h) (ho_channels h) (ho_auto_kick_ms h) o (ho_banned h) (ho_register_pow h).
Definition ho_set_banned (s : gset bytes) (h : HostedServer) : HostedServer :=
  mkHosted (ho_name h) (ho_root h) (ho_channels h) (ho_auto_kick_ms h) (ho_join_pw_hash h) s (ho_register_pow h).

Definition MAX_PENDING_INVITES : nat := 256.
Definition INVITE_NAME_MAX : nat := 64.
Definition MLS_KEYPKG_POOL : nat := 12.

Section servers.
Context `{CryptoPrims, Openmls}.

(** The fields of [Engine] that are about servers. *)
Record Servers := mkServers {
  sv_policies : gmap bytes ServerPolicy;
  sv_hosted : gmap bytes HostedServer;
  sv_invites_sent : gset (bytes * bytes);
  sv_invites_received : gmap bytes (bytes * bytes * bytes);
  sv_invite_uses : gmap bytes N;
  sv_mls_pending : list Pending;
  sv_roster_version : gmap bytes N;
  sv_dirty : bool;
}.

Definition on_policies (f : gmap bytes ServerPolicy → gmap bytes ServerPolicy) (s : Servers) : Servers :=
  mkServers (f (sv_policies s)) (sv_hosted s) (sv_invites_sent s) (sv_invites_received s) (sv_invite_uses s)
    (sv_mls_pending s) (sv_roster_version s) (sv_dirty s).
Definition on_hosted (f : gmap bytes HostedServer → gmap bytes HostedServer) (s : Servers) : Servers :=
  mkServers (sv_policies s) (f (sv_hosted s)) (sv_invites_sent s) (sv_invites_received s) (sv_invite_uses s)
    (sv_mls_pending s) (sv_roster_version s) (sv_dirty s).
Definition on_invites_sent (f : gset (bytes * bytes) → gset (bytes * bytes)) (s : Servers) : Servers :=
  mkServers (sv_policies s) (sv_hosted s) (f (sv_invites_sent s)) (sv_invites_received s) (sv_invite_uses s)
    (sv_mls_pending s) (sv_roster_version s) (sv_dirty s).
Definition on_invites_received (f : gmap bytes (bytes * bytes * bytes) → gmap bytes (bytes * bytes * bytes))
    (s : Servers) : Servers :=
  mkServers (sv_policies s) (sv_hosted s) (sv_invites_sent s) (f (sv_invites_received s)) (sv_invite_uses s)
    (sv_mls_pending s) (sv_roster_version s) (sv_dirty s).
Definition on_invite_uses (f : gmap bytes N → gmap bytes N) (s : Servers) : Servers :=
  mkServers (sv_policies s) (sv_hosted s) (sv_invites_sent s) (sv_invites_received s) (f (sv_invite_uses s))
    (sv_mls_pending s) (sv_roster_version s) (sv_dirty s).
Definition on_mls_pending (f : list Pending → list Pending) (s : Servers) : Servers :=
  mkServers (sv_policies s) (sv_hosted s) (sv_invites_sent s) (sv_invites_received s) (sv_invite_uses s)
    (f (sv_mls_pending s)) (sv_roster_version s) (sv_dirty s).
Definition on_roster_version (f : gmap bytes N → gmap bytes N) (s : Servers) : Servers :=
  mkServers (sv_policies s) (sv_hosted s) (sv_invites_sent s) (sv_invites_received s) (sv_invite_uses s)
    (sv_mls_pending s) (f (sv_roster_version s)) (sv_dirty s).
(** [self.dirty = true] *)
Definition sv_touch (s : Servers) : Servers :=
  mkServers (sv_policies s) (sv_hosted s) (sv_invites_sent s) (sv_invites_received s) (sv_invite_uses s)
    (sv_mls_pending s) (sv_roster_version s) true.

(** What the operations only read of the engine (of the view: identity,
    ledger and block list; the policies are state here), and what they use of
    other crates: the texts of errors, the DHT, a fresh MLS signing key, the
    search for a proof of work. *)
Class Env : Type := {
  nv_view : View;
  nv_relay_addrs : list bytes;
  nv_pow : Difficulty;
  nv_debug : string → Response → bytes;
  nv_show_mls : MlsError → string;
  nv_dht : option (bytes → option bytes);
  nv_signer : bytes → result om_signer string;
  nv_solve : bytes → Difficulty → PowProof;
}.

(** The engine, with the relay behind its connection. *)
Record Engine (W : Type) := mkEngine {
  en_servers : Servers;
  en_channels : EngineChannels;
  en_dm : Dm;
  en_world : W;
  en_rng : nat → bytes;
}.
#[global] Arguments mkEngine {W}.
#[global] Arguments en_servers {W}.
#[global] Arguments en_channels {W}.
#[global] Arguments en_dm {W}.
#[global] Arguments en_world {W}.
#[global] Arguments en_rng {W}.

Definition Op (W A : Type) : Type := Step (Engine W) CoreError A.

Section ops.
Context {W : Type}.

Definition en_on_servers (f : Servers → Servers) (s : Engine W) : Engine W :=
  mkEngine (f (en_servers s)) (en_channels s) (en_dm s) (en_world s) (en_rng s).
Definition en_on_channels (f : EngineChannels → EngineChannels) (s : Engine W) : Engine W :=
  mkEngine (en_servers s) (f (en_channels s)) (en_dm s) (en_world s) (en_rng s).
Definition en_set_dm (d : Dm) (w : W) (s : Engine W) : Engine W :=
  mkEngine (en_servers s) (en_channels s) d w (en_rng s).
Definition en_set_world (w : W) (s : Engine W) : Engine W := en_set_dm (en_dm s) w s.
Definition en_set_rng (g : nat → bytes) (s : Engine W) : Engine W :=
  mkEngine (en_servers s) (en_channels s) (en_dm s) (en_world s) g.

Definition on_servers (f : Servers → Servers) : Op W unit := st_modify (en_on_servers f).
Definition on_channels (f : EngineChannels → EngineChannels) : Op W unit := st_modify (en_on_channels f).
Definition mark_dirty : Op W unit := on_servers sv_touch.
Definition fail {A} (e : CoreError) : Op W A := st_lift (Err e).

(** [let _ = m.await;] *)
Definition attempt {A} (m : Op W A) : Op W unit :=
  λ s, match m s with Some (_, s) => Some (Ok tt, s) | None => None end.
(** [for x in xs { f(x) }] *)
Fixpoint for_each {A} (f : A → Op W unit) (xs : list A) : Op W unit :=
  match xs with
  | [] => st_ret tt
  | x :: xs => do! _ := f x in for_each f xs
  end.

(** [random_array] and [SignSecret::generate] *)
Definition draw : Op W bytes := λ s, Some (Ok (en_rng s 0%nat), en_set_rng (en_rng s ∘ S) s).
(** A request to the relay. *)
Definition call {A} (m : W → result A NetError * W) : Op W A :=
  λ s, let '(r, w) := m (en_world s) in Some (map_err CoNet r, en_set_world w s).

Definition channel_at (s : Engine W) (channel_id : bytes) : option ChannelSession :=
  ec_channels (en_channels s) !! channel_id.
Definition hosted_at (s : Engine W) (server_root : bytes) : option HostedServer :=
  sv_hosted (en_servers s) !! server_root.
Definition policy_at (s : Engine W) (server_root : bytes) : option ServerPolicy :=
  sv_policies (en_servers s) !! server_root.
Definition is_hosted (s : Engine W) (server_root : bytes) : bool := bool_decide (is_Some (hosted_at s server_root)).
Definition root_of (ch : ChannelSession) : bytes := ci_server_root (cs_info ch).

(** [ok_or(CoreError::UnknownChannel)?] and [ok_or(CoreError::NotServerHost)?] *)
Definition get_channel (channel_id : bytes) : Op W ChannelSession :=
  do! s := st_get in st_lift (ok_or (channel_at s channel_id) CoUnknownChannel).
Definition get_hosted (server_root : bytes) : Op W HostedServer :=
  do! s := st_get in st_lift (ok_or (hosted_at s server_root) CoNotServerHost).
(** [if !self.hosted.contains_key(&root) { return Err(NotServerHost) }] *)
Definition require_hosted (server_root : bytes) : Op W unit :=
  do! s := st_get in st_reject (negb (is_hosted s server_root)) CoNotServerHost.
Definition alter_channel (f : ChannelSession → ChannelSession) (channel_id : bytes) : Op W unit :=
  on_channels (λ c, set_channels (alter f channel_id (ec_channels c)) c).
Definition drop_channel (channel_id : bytes) : Op W unit :=
  on_channels (λ c, set_channels (delete channel_id (ec_channels c)) c).
(** [if let Some(h) = self.hosted.get_mut(root) { .. }] *)
Definition alter_hosted (f : HostedServer → HostedServer) (server_root : bytes) : Op W unit :=
  on_servers (on_hosted (alter f server_root)).

Definition cs_resync (mls : Member) (ch : ChannelSession) : ChannelSession := resync_roster (cs_set_mls mls ch).
Definition cs_set_removed (f : gmap bytes N → gmap bytes N) (ch : ChannelSession) : ChannelSession :=
  mkChannelSession (cs_info ch) (cs_mls ch) (cs_roster ch) (cs_last_seq ch) (f (cs_removed ch)) (cs_log_key ch).
Definition cs_set_name (name : bytes) (ch : ChannelSession) : ChannelSession :=
  let i := cs_info ch in
  mkChannelSession
    (mkInfo (ci_server_root i) (ci_server_name i) (ci_channel_id i) name (ci_private i) (ci_host_id i) (ci_voice i))
    (cs_mls ch) (cs_roster ch) (cs_last_seq ch) (cs_removed ch) (cs_log_key ch).

Section world.
Context `{Env, !Connection W}.

Definition me : Identity := vw_identity nv_view.
Definition my_id : bytes := my_member_id nv_view.
Definition mls_err (e : MlsError) : CoreError := CoVoice ("mls: " ++ nv_show_mls e)%string.

(** [send_content(peer_id, content, now_ms)] *)
Definition send (peer_id : bytes) (content : Content) (now_ms : N) : Op W unit :=
  do! ek := draw in
  do! ratchet := draw in
  do! eph := draw in
  λ s,
    match send_content nv_debug nv_dht nv_view (mkDraws ek ratchet eph) peer_id content now_ms (en_dm s) (en_world s) with
    | None => None
    | Some (r, (d, w)) => Some (r, en_set_dm d w s)
    end.
Definition send_control (peer_id : bytes) (c : ChannelControl) (now_ms : N) : Op W unit :=
  send peer_id (CChannel (control_encode c)) now_ms.

(** Wrap and post a commit; the nonce is only used under a password. *)
Definition post_commit (channel_id commit : bytes) : Op W N :=
  do! nonce := draw in
  do! s := st_get in
  let frame := wrap_channel_frame channel_id FRAME_COMMIT commit nonce (en_channels s) in
  λ s,
    let '(r, w) := post_channel_frame nv_debug nv_view channel_id frame (en_world s) in
    Some (r, en_set_world w s).

(** ** Rosters *)
Definition push_channel_roster (channel_id : bytes) (now_ms : N) : Op W unit :=
  do! s := st_get in
  match channel_at s channel_id with
  | None => st_ret tt
  | Some ch =>
    match hosted_at s (root_of ch) with
    | None => st_ret tt
    | Some h =>
      let root := ho_root h in
      let members := elements (cs_roster ch) in
      let last := sv_roster_version (en_servers s) !! channel_id in
      let version := N.max now_ms (wrap64 (default 0%N last + 1)) in
      do! _ := on_servers (on_roster_version <[channel_id := version]>) in
      let root_pub := prim_vk_of_sk root in
      let sig := prim_sign root (channel_roster_challenge channel_id root_pub version members) in
      call (sync_set_channel_roster nv_debug channel_id root_pub version members sig)
    end
  end.

(** ** Servers *)
Definition create_server (name : bytes) (now_ms : N) : Op W bytes :=
  do! root := draw in
  let server_root := prim_vk_of_sk root in
  let register_pow := nv_solve (register_challenge server_root) nv_pow in
  let reg := mkRegister server_root [] [] [] [] false [] register_pow in
  let rec := register_to_record reg now_ms (prim_sign root) in
  do! _ := call (sync_submit_record nv_debug rec) in
  do! _ := on_servers (on_policies <[server_root := policy_genesis root my_id now_ms]>) in
  do! _ := on_servers (on_hosted <[server_root := mkHosted name root [] None None ∅ register_pow]>) in
  do! _ := mark_dirty in
  st_ret server_root.

(** [clock] is the system's time, read for the roster's version alone. *)
Definition create_channel_inner (server_root name : bytes) (private : bool) (password : option bytes) (voice : bool)
    (clock : N) : Op W bytes :=
  do! h := get_hosted server_root in
  do! channel_id := draw in
  do! key := draw in
  do! mls := st_lift (map_err mls_err
    (create (nv_signer key) my_id (identity_sign_public me) (identity_sign me) channel_id)) in
  do! log_key :=
    match password with
    | Some ((_ :: _) as p) =>
      do! k := st_index (derive_log_key server_root channel_id p) in st_ret (Some k)
    | _ => st_ret None
    end in
  let info := mkInfo server_root (ho_name h) channel_id name private my_id voice in
  do! _ := on_channels (set_channel channel_id (mkChannelSession info mls {[ my_id ]} 0 ∅ log_key)) in
  do! _ := alter_hosted (λ h, ho_set_channels (ho_channels h ++ [channel_id]) h) server_root in
  do! _ := mark_dirty in
  do! _ := push_channel_roster channel_id clock in
  st_ret channel_id.

Definition create_channel (server_root name : bytes) (private : bool) (password : option bytes) (clock : N) :=
  create_channel_inner server_root name private password false clock.
Definition create_voice_channel (server_root name : bytes) (private : bool) (clock : N) :=
  create_channel_inner server_root name private None true clock.

(** ** Inviting *)
Definition invite_to_channel (channel_id peer_id : bytes) (now_ms : N) : Op W unit :=
  do! ch := get_channel channel_id in
  do! _ := require_hosted (root_of ch) in
  do! _ := on_servers (on_invites_sent (union {[ (channel_id, peer_id) ]})) in
  send_control peer_id (Channel.Invite channel_id (ci_channel_name (cs_info ch)) (ci_server_name (cs_info ch))) now_ms.

Definition accept_channel_invite (channel_id : bytes) (now_ms : N) : Op W unit :=
  do! s := st_get in
  do! inviter := st_lift (ok_or (fst ∘ fst <$> sv_invites_received (en_servers s) !! channel_id)
    (CoChannel "no pending invite for that channel")) in
  send_control (idk_to_id inviter) (InviteAccept channel_id) now_ms.

Definition decline_channel_invite (channel_id : bytes) (now_ms : N) : Op W unit :=
  do! s := st_get in
  match sv_invites_received (en_servers s) !! channel_id with
  | None => st_ret tt
  | Some (inviter, _, _) =>
    do! _ := on_servers (on_invites_received (delete channel_id)) in
    do! _ := mark_dirty in
    attempt (send_control (idk_to_id inviter) (InviteDecline channel_id) now_ms)
  end.

(** The last 200 lines of a channel. *)
Definition backlog_of (channel_id : bytes) (b : Book) : list BacklogEntry :=
  (λ e, mkBacklog (ch_sender e) (ch_ts_ms e) (ch_text e) (ch_seq e)) <$>
    rev (take 200 (rev (List.filter (λ e, bool_decide (ch_channel_id e = channel_id)) (bk_channel_history b)))).

Definition binds_to (kp peer_id : bytes) : bool :=
  key_package_binds_to (chain_usable_for_id (vw_ledger nv_view)) (Ledger.identity_id (vw_ledger nv_view)) kp peer_id.

Definition mls_add_member (channel_id peer_id : bytes) (now_ms : N) : Op W unit :=
  do! ch := get_channel channel_id in
  do! s := st_get in
  do! _ := st_reject (from_option (λ h, bool_decide (peer_id ∈ ho_banned h)) false (hosted_at s (root_of ch)))
             (CoChannel "that identity is banned from this server") in
  do! found := call (sync_get_key_package peer_id) in
  do! kp := st_lift (ok_or found
    (CoChannel "that identity has no published MLS KeyPackage — they must connect first")) in
  do! _ := st_reject (negb (binds_to kp peer_id))
    (CoChannel "fetched KeyPackage's credential doesn't carry a valid DaNTe binding for the identity it was fetched for") in
  let '(added, mls) := add [kp] (cs_mls ch) in
  do! _ := alter_channel (cs_set_mls mls) channel_id in
  do! hs := st_lift (map_err mls_err added) in
  do! welcome := st_lift (ok_or (hs_welcome hs) (CoVoice "MLS add produced no Welcome")) in
  do! _ := alter_channel resync_roster channel_id in
  do! _ := attempt (push_channel_roster channel_id now_ms) in
  do! _ := post_commit channel_id (hs_commit hs) in
  do! _ := send_control peer_id
    (MlsWelcome (cs_info ch) welcome (cs_last_seq ch) (default (replicate 32 x00) (cs_log_key ch))) now_ms in
  do! s := st_get in
  do! _ := match policy_at s (root_of ch) with
           | Some policy => attempt (send_control peer_id (Policy (policy_encode policy)) now_ms)
           | None => st_ret tt
           end in
  do! s := st_get in
  let entries := backlog_of channel_id (ec_book (en_channels s)) in
  do! _ := (if bool_decide (entries = []) then st_ret tt
            else attempt (send_control peer_id (History channel_id entries) now_ms)) in
  mark_dirty.

(** ** Invite links *)
Definition primary_relay : bytes := default [] (head nv_relay_addrs).

Definition create_invite_link (channel_id : bytes) (ttl_ms max_uses now_ms : N) : Op W bytes :=
  do! ch := get_channel channel_id in
  do! host := get_hosted (root_of ch) in
  do! nonce := draw in
  st_ret (to_link (token_mint (ho_root host) my_id channel_id primary_relay (sat_add64 now_ms ttl_ms) max_uses nonce)).

Definition redeem_invite (link : bytes) (password : option bytes) (now_ms : N) : Op W unit :=
  do! token := st_lift (from_link link) in
  do! _ := st_lift (token_verify token) in
  do! _ := st_reject (token_is_expired token now_ms) (CoInvite "expired") in
  do! s := st_get in
  if bool_decide (is_Some (channel_at s (tk_channel_id token))) then st_ret tt
  else send_control (tk_host_id token) (Redeem (token_encode token) (default [] password)) now_ms.

Definition join_pw_hash (server_root pw : bytes) : bytes := sha256 (lit "dante/join-pw/v1" ++ server_root ++ pw).

Definition set_join_password (server_root : bytes) (password current : option bytes) : Op W unit :=
  do! h := get_hosted server_root in
  do! _ := match ho_join_pw_hash h with
           | None => st_ret tt
           | Some existing =>
             let ok := from_option (λ c, negb (bool_decide (c = [])) && bool_decide (join_pw_hash server_root c = existing))
                         false current in
             st_reject (negb ok) (CoChannel "current join password does not match")
           end in
  do! _ := alter_hosted (ho_set_join_pw (join_pw_hash server_root <$> password)) server_root in
  mark_dirty.

Definition set_discoverable (server_root : bytes) (discoverable : bool) (summary : bytes) (tags : list bytes)
    (now_ms : N) : Op W unit :=
  do! h := get_hosted server_root in
  do! invite :=
    (if discoverable then
       do! ch := st_lift (ok_or (head (ho_channels h)) (CoChannel "create a channel first")) in
       create_invite_link ch 315360000000 0 now_ms
     else st_ret []) in
  let reg := mkRegister server_root
    (if discoverable then take_chars 64 (ho_name h) else [])
    (if discoverable then take_chars 280 summary else [])
    (if discoverable then take 8 (take_chars 32 <$> tags) else [])
    (take 8 nv_relay_addrs) discoverable invite (ho_register_pow h) in
  let rec := register_to_record reg now_ms (prim_sign (ho_root h)) in
  do! _ := call (sync_submit_record nv_debug rec) in
  mark_dirty.

Definition join_discovered (server_root : bytes) (password : option bytes) (now_ms : N) : Op W unit :=
  do! link := st_lift (ok_or
    (s ← List.find (λ s, bool_decide (sr_server_root s = server_root)) (discoverable_servers (vw_ledger nv_view));
     if bool_decide (sr_invite s = []) then None else Some (sr_invite s))
    (CoChannel "that server has no public join link")) in
  redeem_invite link password now_ms.

(** ** Removing members *)
Definition remove_from_channel (channel_id member_id : bytes) (now_ms : N) : Op W unit :=
  do! _ := st_reject (bool_decide (member_id = my_id)) (CoChannel "cannot remove yourself") in
  do! ch := get_channel channel_id in
  do! _ := require_hosted (root_of ch) in
  match leaf_of member_id ch with
  | None => st_ret tt
  | Some leaf =>
    let '(removed, mls) := remove [leaf] (cs_mls ch) in
    do! _ := alter_channel (cs_set_mls mls) channel_id in
    do! hs := st_lift (map_err mls_err removed) in
    do! _ := alter_channel (resync_roster ∘ cs_set_removed <[member_id := now_ms]>) channel_id in
    do! _ := mark_dirty in
    do! _ := push_channel_roster channel_id now_ms in
    do! _ := post_commit channel_id (hs_commit hs) in
    st_ret tt
  end.

Definition in_roster (s : Engine W) (channel_id member : bytes) : bool :=
  from_option (λ ch, bool_decide (member ∈ cs_roster ch)) false (channel_at s channel_id).

Definition kick_from_server (server_root member : bytes) (ban : bool) (now_ms : N) : Op W unit :=
  do! h := get_hosted server_root in
  do! _ := st_reject (bool_decide (member = my_id)) (CoChannel "cannot remove yourself") in
  do! _ := for_each (λ cid,
    do! s := st_get in
    if in_roster s cid member then attempt (remove_from_channel cid member now_ms) else st_ret tt) (ho_channels h) in
  do! _ := (if ban then alter_hosted (λ h, ho_set_banned ({[ member ]} ∪ ho_banned h) h) server_root else st_ret tt) in
  mark_dirty.

Definition unban_from_server (server_root member : bytes) : Op W bool :=
  do! s := st_get in
  let removed := from_option (λ h, bool_decide (member ∈ ho_banned h)) false (hosted_at s server_root) in
  do! _ := alter_hosted (λ h, ho_set_banned (ho_banned h ∖ {[ member ]}) h) server_root in
  do! _ := (if removed then mark_dirty else st_ret tt) in
  st_ret removed.

(** ** Closing, renaming, leaving *)
Definition GENERAL : bytes := lit "general".

(** The members of a roster but this client. *)
Definition others (ch : ChannelSession) : list bytes := List.filter (λ m, negb (bool_decide (m = my_id))) (elements (cs_roster ch)).
(** A control message to each, whatever becomes of it. *)
Definition tell (members : list bytes) (c : ChannelControl) (now_ms : N) : Op W unit :=
  for_each (λ m, attempt (send_control m c now_ms)) members.

Definition delete_channel (channel_id : bytes) (now_ms : N) : Op W unit :=
  do! ch := get_channel channel_id in
  do! _ := require_hosted (root_of ch) in
  do! _ := st_reject (eq_ignore_ascii_case (ci_channel_name (cs_info ch)) GENERAL)
             (CoChannel "#general cannot be deleted") in
  do! _ := tell (others ch) (Closed channel_id) now_ms in
  do! _ := drop_channel channel_id in
  do! _ := alter_hosted (λ h, ho_set_channels
    (List.filter (λ c, negb (bool_decide (c = channel_id))) (ho_channels h)) h) (root_of ch) in
  mark_dirty.

Definition rename_channel (channel_id name : bytes) (now_ms : N) : Op W unit :=
  let name := take_chars 64 (trim name) in
  do! _ := st_reject (bool_decide (name = [])) (CoChannel "channel name cannot be empty") in
  do! ch := get_channel channel_id in
  do! _ := require_hosted (root_of ch) in
  do! _ := st_reject (eq_ignore_ascii_case (ci_channel_name (cs_info ch)) GENERAL)
             (CoChannel "#general cannot be renamed") in
  do! _ := alter_channel (cs_set_name name) channel_id in
  do! _ := tell (others ch) (Renamed channel_id name) now_ms in
  mark_dirty.

Definition delete_server (server_root : bytes) (now_ms : N) : Op W unit :=
  do! h := get_hosted server_root in
  do! _ := for_each (λ c, attempt (delete_channel c now_ms)) (ho_channels h) in
  do! _ := for_each (λ c,
    do! s := st_get in
    match channel_at s c with
    | None => st_ret tt
    | Some ch =>
      do! _ := drop_channel c in
      tell (others ch) (Closed c) now_ms
    end) (ho_channels h) in
  let rec := delist_to_record (mkDelist server_root) now_ms (prim_sign (ho_root h)) in
  do! _ := call (sync_submit_record nv_debug rec) in
  do! _ := on_servers (on_hosted (delete server_root)) in
  do! _ := on_servers (on_policies (delete server_root)) in
  mark_dirty.

(** Forget the policy of a server none of whose channels is left. *)
Definition drop_stale_policy (server_root : bytes) : Op W unit :=
  do! s := st_get in
  if existsb (λ ic, bool_decide (root_of ic.2 = server_root)) (map_to_list (ec_channels (en_channels s)))
  then st_ret tt
  else on_servers (on_policies (delete server_root)).

Definition leave_channel (channel_id : bytes) (now_ms : N) : Op W unit :=
  do! ch := get_channel channel_id in
  do! s := st_get in
  do! _ := st_reject (is_hosted s (root_of ch)) (CoChannel "you host this server — delete the channel instead") in
  do! _ := attempt (send_control (ci_host_id (cs_info ch)) (Leave channel_id) now_ms) in
  do! _ := drop_channel channel_id in
  do! _ := drop_stale_policy (root_of ch) in
  mark_dirty.

(** ** Inactivity *)
Definition set_auto_kick (server_root : bytes) (window_ms : option N) : Op W unit :=
  do! _ := get_hosted server_root in
  do! _ := alter_hosted (ho_set_auto_kick window_ms) server_root in
  mark_dirty.

Definition inactive (window now_ms : N) (m : bytes) : bool :=
  match idk_for_id (vw_ledger nv_view) m with
  | None => true
  | Some idk =>
    match last_activity (vw_ledger nv_view) idk with
    | None => true
    | Some t => (window <? now_ms - t)%N
    end
  end.

Definition victims (now_ms : N) (s : Engine W) : list (bytes * bytes) :=
  '(root, h) ← map_to_list (sv_hosted (en_servers s));
  match ho_auto_kick_ms h with
  | None => []
  | Some window =>
    chan_id ← ho_channels h;
    match channel_at s chan_id with
    | None => []
    | Some ch =>
      if negb (bool_decide (root_of ch = root)) then []
      else
        pair chan_id <$>
          List.filter (λ m, negb (bool_decide (m = my_id)) && negb (bool_decide (is_Some (cs_removed ch !! m)))
                            && inactive window now_ms m) (elements (cs_roster ch))
    end
  end.

(** Those whose removal succeeds. *)
Fixpoint remove_each (l : list (bytes * bytes)) (now_ms : N) : Op W (list bytes) :=
  match l with
  | [] => st_ret []
  | (chan_id, member) :: l =>
    do! ok := λ s, match remove_from_channel chan_id member now_ms s with
                   | Some (r, s) => Some (Ok (is_ok r), s)
                   | None => None
                   end in
    do! removed := remove_each l now_ms in
    st_ret (if ok : bool then member :: removed else removed)
  end.

Definition sweep_inactive_members (now_ms : N) : Op W (list bytes) :=
  do! s := st_get in remove_each (victims now_ms s) now_ms.

(** ** Key packages *)
Fixpoint mint_key_packages (fuel : nat) (fresh : list bytes) : Op W (list bytes) :=
  do! s := st_get in
  if (length (sv_mls_pending (en_servers s)) + length fresh <? MLS_KEYPKG_POOL)%nat then
    match fuel with
    | O => st_ret fresh
    | S fuel =>
      do! key := draw in
      do! pk := st_lift (map_err mls_err
        (publish_key_package (nv_signer key) my_id (identity_sign_public me) (identity_sign me))) in
      do! _ := on_servers (on_mls_pending (λ l, l ++ [pk.1])) in
      mint_key_packages fuel (fresh ++ [pk.2])
    end
  else st_ret fresh.

Definition refresh_mls_key_package : Op W unit :=
  do! fresh := mint_key_packages MLS_KEYPKG_POOL [] in
  do! _ := (if bool_decide (fresh = []) then st_ret tt
            else call (sync_publish_key_packages nv_debug my_id fresh
                         (identity_sign me (keypkg_publish_challenge my_id fresh)))) in
  on_servers (on_mls_pending (λ l, drop (length l - 2 * MLS_KEYPKG_POOL) l)).
End world.
End ops.
End servers.
