(* ===== verification/ServerPolicies.v ===== *)
(** * Roles, shortcodes and nicknames of a hosted server
    ([crates/dante-core/src/engine.rs])

    Every change takes the parts of the current policy, edits them, signs a
    new policy with the next version and sends it to every member. *)

From S2P Require Import Prelude Utf8 Enc Crypto ProtoRecord IdentityRecords Server Ledger X3dh Content Mailbox Wire Roles Invite Channel LocalStore Mls Sync ClientMessages ClientChannels ClientDm ClientPeers Servers.

Definition MAX_SERVER_EMOJIS : nat := 200.
Definition MAX_SERVER_STICKERS : nat := 100.
Definition MAX_SERVER_SOUNDS : nat := 50.

(** ** Lists of pairs *)

(** [match l.iter_mut().find(|(k, _)| k == key) { Some(e) => e.1 = f(e.1),
    None => l.push((key, new)) }] *)
Fixpoint upsert {A} (key : bytes) (f : A → A) (new : option A) (l : list (bytes * A)) : list (bytes * A) :=
  match l with
  | [] => match new with Some v => [(key, v)] | None => [] end
  | (k, v) :: l => if bool_decide (k = key) then (k, f v) :: l else (k, v) :: upsert key f new l
  end.
Definition put_named (key value : bytes) : list (bytes * bytes) → list (bytes * bytes) :=
  upsert key (λ _, value) (Some value).
(** [retain(|(k, _)| k != key)] *)
Definition drop_named {A} (key : bytes) (l : list (bytes * A)) : list (bytes * A) :=
  List.filter (λ p, negb (bool_decide (p.1 = key))) l.
(** [any(|(k, _)| k == key)] *)
Definition names {A} (key : bytes) (l : list (bytes * A)) : bool := existsb (λ p, bool_decide (p.1 = key)) l.
(** [retain(|(_, ids)| !ids.is_empty())] *)
Definition drop_unassigned (l : list (bytes * list N)) : list (bytes * list N) :=
  List.filter (λ p, nonempty p.2) l.

(** ** Roles *)
Definition set_role_in (id : N) (name : bytes) (allow deny rank : N) (icon : option bytes) : list Role → list Role :=
  fix go l :=
    match l with
    | [] => [mkRole id name allow deny rank icon]
    | r :: l => if (rl_id r =? id)%N then mkRole (rl_id r) name allow deny rank icon :: l else r :: go l
    end.
(** [u16]: one more than the greatest wraps to 0 after 65535. *)
Definition next_role_id (roles : list Role) : N := ((foldl N.max 0 (rl_id <$> roles) + 1) mod 65536)%N.

(** ** Formats *)
Definition is_gif (image : bytes) : bool := starts_with (lit "GIF87a") image || starts_with (lit "GIF89a") image.
(** [&b[8..12] == what] where it is in range, [b.get(8..12) == Some(what)] *)
Definition riff_of (what image : bytes) : bool :=
  starts_with (lit "RIFF") image && bool_decide (take 4 (drop 8 image) = what).
Definition is_webp (image : bytes) : bool := (12 <? length image)%nat && riff_of (lit "WEBP") image.
Definition is_ogg (audio : bytes) : bool := starts_with (lit "OggS") audio.
Definition is_wav (audio : bytes) : bool := (12 <? length audio)%nat && riff_of (lit "WAVE") audio.
Definition is_mp3 (audio : bytes) : bool :=
  starts_with (lit "ID3") audio || starts_with [xff; xfb] audio || starts_with [xff; xf3] audio
  || starts_with [xff; xf2] audio.
(** [image.is_empty() || image.len() > max] *)
Definition bad_size (max : N) (image : bytes) : bool := bool_decide (image = []) || (max <? len image)%N.

(** ** Drafts *)
Record Draft := mkDraft {
  dr_roles : list Role;
  dr_assignments : list (bytes * list N);
  dr_emojis : list (bytes * bytes);
  dr_stickers : list (bytes * bytes);
  dr_sounds : list (bytes * bytes);
  dr_nicknames : list (bytes * bytes);
  dr_owner : bytes;
  dr_version : N;
  dr_root : bytes;
}.
Definition with_roles (l : list Role) (a : list (bytes * list N)) (d : Draft) : Draft :=
  mkDraft l a (dr_emojis d) (dr_stickers d) (dr_sounds d) (dr_nicknames d) (dr_owner d) (dr_version d) (dr_root d).
Definition with_emojis (l : list (bytes * bytes)) (d : Draft) : Draft :=
  mkDraft (dr_roles d) (dr_assignments d) l (dr_stickers d) (dr_sounds d) (dr_nicknames d) (dr_owner d) (dr_version d) (dr_root d).
Definition with_stickers (l : list (bytes * bytes)) (d : Draft) : Draft :=
  mkDraft (dr_roles d) (dr_assignments d) (dr_emojis d) l (dr_sounds d) (dr_nicknames d) (dr_owner d) (dr_version d) (dr_root d).
Definition with_sounds (l : list (bytes * bytes)) (d : Draft) : Draft :=
  mkDraft (dr_roles d) (dr_assignments d) (dr_emojis d) (dr_stickers d) l (dr_nicknames d) (dr_owner d) (dr_version d) (dr_root d).
Definition with_nicknames (l : list (bytes * bytes)) (d : Draft) : Draft :=
  mkDraft (dr_roles d) (dr_assignments d) (dr_emojis d) (dr_stickers d) (dr_sounds d) l (dr_owner d) (dr_version d) (dr_root d).

Section policies.
Context `{CryptoPrims, Openmls, !Env}.

(** The policy a draft becomes. *)
Definition sign_draft (d : Draft) (now_ms : N) : ServerPolicy :=
  policy_signed (dr_root d) (dr_owner d) (wrap64 (dr_version d + 1)) (dr_roles d) (dr_assignments d) (dr_emojis d)
    (dr_stickers d) (dr_sounds d) (dr_nicknames d) now_ms.
(** The check of [commit_policy] is the one [ServerPolicy::decode] makes. *)
Definition icons_ok (d : Draft) : bool := forallb (icon_ok (dr_emojis d)) (dr_roles d).

Section world.
Context {W : Type} `{!Connection W}.

Definition policy_draft (server_root : bytes) : Op W Draft :=
  do! h := get_hosted server_root in
  do! s := st_get in
  do! p := st_lift (ok_or (policy_at s server_root) CoNotServerHost) in
  st_ret (mkDraft (sp_roles p) (sp_assignments p) (sp_emojis p) (sp_stickers p) (sp_sounds p) (sp_nicknames p)
            (sp_owner_id p) (sp_version p) (ho_root h)).

(** Everybody else in a channel of the server. *)
Definition members_of (s : Engine W) (server_root : bytes) : gset bytes :=
  foldr (λ ic acc, (if bool_decide (root_of ic.2 = server_root) then cs_roster ic.2 else ∅) ∪ acc) ∅
    (map_to_list (ec_channels (en_channels s))) ∖ {[ my_id ]}.

Definition broadcast_policy (server_root : bytes) (now_ms : N) : Op W unit :=
  do! s := st_get in
  match policy_at s server_root with
  | None => st_ret tt
  | Some policy => tell (elements (members_of s server_root)) (Policy (policy_encode policy)) now_ms
  end.

Definition commit_policy (server_root : bytes) (d : Draft) (now_ms : N) : Op W unit :=
  do! _ := st_reject (negb (icons_ok d)) (CoChannel "role icon must name a custom emoji on this server") in
  do! _ := on_servers (on_policies <[server_root := sign_draft d now_ms]>) in
  do! _ := mark_dirty in
  broadcast_policy server_root now_ms.

(** ** Roles *)
Definition set_role (server_root : bytes) (id : option N) (name : bytes) (allow deny rank : N) (icon : option bytes)
    (now_ms : N) : Op W N :=
  do! d := policy_draft server_root in
  let id := default (next_role_id (dr_roles d)) id in
  let roles := set_role_in id name allow deny rank icon (dr_roles d) in
  do! _ := commit_policy server_root (with_roles roles (dr_assignments d) d) now_ms in
  st_ret id.

Definition delete_role (server_root : bytes) (role_id now_ms : N) : Op W unit :=
  do! d := policy_draft server_root in
  let roles := List.filter (λ r, negb (rl_id r =? role_id)%N) (dr_roles d) in
  let strip := λ p : bytes * list N, (p.1, List.filter (λ i, negb (i =? role_id)%N) p.2) in
  commit_policy server_root (with_roles roles (drop_unassigned (strip <$> dr_assignments d)) d) now_ms.

Definition assign_role (server_root member : bytes) (role_id : N) (add : bool) (now_ms : N) : Op W unit :=
  do! d := policy_draft server_root in
  do! _ := st_reject (add && negb (existsb (λ r, (rl_id r =? role_id)%N) (dr_roles d))) (CoChannel "no such role") in
  let assignments :=
    if add
    then upsert member (λ ids, if bool_decide (role_id ∈ ids) then ids else ids ++ [role_id]) (Some [role_id])
           (dr_assignments d)
    else upsert member (List.filter (λ i, negb (i =? role_id)%N)) None (dr_assignments d) in
  commit_policy server_root (with_roles (dr_roles d) (drop_unassigned assignments) d) now_ms.

(** ** Emojis, stickers, sounds *)
Definition set_server_emoji (server_root name image : bytes) (now_ms : N) : Op W unit :=
  do! _ := st_reject (negb (valid_emoji_name name)) (CoChannel "bad emoji name") in
  do! _ := st_reject (bad_size (1024 * 1024) image) (CoChannel "emoji image must be 1..=1024 KiB") in
  do! _ := st_reject (negb (is_png image) && negb (is_jpeg image)) (CoChannel "emoji image must be a PNG or JPEG") in
  do! d := policy_draft server_root in
  do! _ := st_reject (names name (dr_stickers d)) (CoChannel "a sticker already uses that name") in
  do! _ := st_reject (names name (dr_sounds d)) (CoChannel "a soundboard clip already uses that name") in
  do! _ := st_reject (negb (names name (dr_emojis d)) && (MAX_SERVER_EMOJIS <=? length (dr_emojis d))%nat)
             (CoChannel "server emoji limit reached") in
  do! _ := call (sync_put_blob nv_debug image) in
  commit_policy server_root (with_emojis (put_named name (sha256 image) (dr_emojis d)) d) now_ms.

Definition remove_server_emoji (server_root name : bytes) (now_ms : N) : Op W unit :=
  do! d := policy_draft server_root in
  let emojis := drop_named name (dr_emojis d) in
  do! _ := st_reject (length emojis =? length (dr_emojis d))%nat (CoChannel "no such emoji") in
  commit_policy server_root (with_emojis emojis d) now_ms.

Definition set_server_sticker (server_root name image : bytes) (now_ms : N) : Op W unit :=
  do! _ := st_reject (negb (valid_emoji_name name)) (CoChannel "bad sticker name") in
  do! _ := st_reject (bad_size (512 * 1024) image) (CoChannel "sticker image must be 1..=512 KiB") in
  do! _ := st_reject (negb (is_png image) && negb (is_jpeg image) && negb (is_gif image) && negb (is_webp image))
             (CoChannel "sticker image must be PNG, JPEG, GIF or WebP") in
  do! d := policy_draft server_root in
  do! _ := st_reject (names name (dr_emojis d)) (CoChannel "a custom emoji already uses that name") in
  do! _ := st_reject (negb (names name (dr_stickers d)) && (MAX_SERVER_STICKERS <=? length (dr_stickers d))%nat)
             (CoChannel "server sticker limit reached") in
  do! _ := call (sync_put_blob nv_debug image) in
  commit_policy server_root (with_stickers (put_named name (sha256 image) (dr_stickers d)) d) now_ms.

Definition remove_server_sticker (server_root name : bytes) (now_ms : N) : Op W unit :=
  do! d := policy_draft server_root in
  let stickers := drop_named name (dr_stickers d) in
  do! _ := st_reject (length stickers =? length (dr_stickers d))%nat (CoChannel "no such sticker") in
  commit_policy server_root (with_stickers stickers d) now_ms.

Definition set_server_sound (server_root name audio : bytes) (now_ms : N) : Op W unit :=
  do! _ := st_reject (negb (valid_emoji_name name)) (CoChannel "bad sound name") in
  do! _ := st_reject (bad_size (256 * 1024) audio) (CoChannel "sound clip must be 1..=256 KiB") in
  do! _ := st_reject (negb (is_ogg audio) && negb (is_wav audio) && negb (is_mp3 audio))
             (CoChannel "sound clip must be OGG, MP3 or WAV") in
  do! d := policy_draft server_root in
  do! _ := st_reject (names name (dr_emojis d) || names name (dr_stickers d))
             (CoChannel "an emoji or sticker already uses that name") in
  do! _ := st_reject (negb (names name (dr_sounds d)) && (MAX_SERVER_SOUNDS <=? length (dr_sounds d))%nat)
             (CoChannel "server soundboard limit reached") in
  do! _ := call (sync_put_blob nv_debug audio) in
  commit_policy server_root (with_sounds (put_named name (sha256 audio) (dr_sounds d)) d) now_ms.

Definition remove_server_sound (server_root name : bytes) (now_ms : N) : Op W unit :=
  do! d := policy_draft server_root in
  let sounds := drop_named name (dr_sounds d) in
  do! _ := st_reject (length sounds =? length (dr_sounds d))%nat (CoChannel "no such sound") in
  commit_policy server_root (with_sounds sounds d) now_ms.

(** An image of no server. *)
Definition put_gif_blob (image : bytes) : Op W bytes :=
  do! _ := st_reject (bad_size (512 * 1024) image) (CoChannel "gif image must be 1..=512 KiB") in
  do! _ := st_reject (negb (is_gif image) && negb (riff_of (lit "WEBP") image))
             (CoChannel "gif image must be a GIF or WebP") in
  do! _ := call (sync_put_blob nv_debug image) in
  st_ret (sha256 image).

(** ** Nicknames *)
Definition set_member_nickname (server_root member : bytes) (nickname : option bytes) (now_ms : N) : Op W unit :=
  do! _ := st_reject (from_option (λ n, negb (valid_nickname n)) false nickname) (CoChannel "bad nickname") in
  do! d := policy_draft server_root in
  let nicknames :=
    match nickname with
    | Some n => put_named member n (dr_nicknames d)
    | None => drop_named member (dr_nicknames d)
    end in
  commit_policy server_root (with_nicknames nicknames d) now_ms.

(** ** What others ask of the host *)
Definition member_perms (s : Engine W) (server_root member : bytes) : N :=
  from_option (λ p, effective_perms p member) PERM_DEFAULT (policy_at s server_root).

(** [mask & bits != 0] *)
Definition has_any (mask bits : N) : bool := negb (N.land mask bits =? 0)%N.
Definition PERM_STAFF : N := N.lor PERM_KICK PERM_MANAGE_ROLES.
Definition perm_to_remove (ban : bool) : N := if ban then PERM_BAN else PERM_KICK.

Definition owner_of (s : Engine W) (server_root : bytes) : Op W bytes :=
  st_lift (ok_or (sp_owner_id <$> policy_at s server_root) (CoChannel "no server policy — cannot reach the host")).

Definition request_kick (channel_id member : bytes) (ban : bool) (now_ms : N) : Op W unit :=
  do! ch := get_channel channel_id in
  do! s := st_get in
  do! owner := owner_of s (root_of ch) in
  do! _ := st_reject (bool_decide (member = owner)) (CoChannel "cannot remove the server owner") in
  let target_is_staff := has_any (member_perms s (root_of ch) member) PERM_STAFF in
  do! _ := st_reject (target_is_staff && negb (bool_decide (my_id = owner)))
             (CoChannel "only the owner can remove staff") in
  if is_hosted s (root_of ch) then kick_from_server (root_of ch) member ban now_ms
  else
    do! _ := st_reject (negb (has_any (member_perms s (root_of ch) my_id) (perm_to_remove ban)))
               (CoChannel (if ban then "you lack the ban permission" else "you lack the kick permission")) in
    send_control owner (KickRequest channel_id member ban) now_ms.

Definition request_nickname (channel_id : bytes) (nickname : option bytes) (now_ms : N) : Op W unit :=
  do! _ := st_reject (from_option (λ n, negb (valid_nickname n)) false nickname) (CoChannel "bad nickname") in
  do! ch := get_channel channel_id in
  do! s := st_get in
  if is_hosted s (root_of ch) then set_member_nickname (root_of ch) my_id nickname now_ms
  else
    do! owner := owner_of s (root_of ch) in
    send_control owner (NicknameRequest channel_id (default [] nickname)) now_ms.
End world.
End policies.
