(* ===== verification/ServerControl.v ===== *)
(** * Channel control messages
    ([Engine::handle_channel_control], [crates/dante-core/src/engine.rs])

    What an authenticated peer can make the engine do about channels and
    servers.  [control_arm] plugs the handler into the polling of direct
    messages. *)

From S2P Require Import Prelude Utf8 Enc Crypto ProtoRecord IdentityRecords Server Ledger X3dh Content Mailbox Wire Roles Invite Channel LocalStore Mls Sync ClientMessages ClientChannels ClientDm ClientPeers Servers ServerPolicies.

Section control.
Context `{CryptoPrims, Openmls, !Env}.
Context {W : Type} `{!Connection W}.

(** [SignPublic::from_bytes(from)] and [IdentityId::of] *)
Definition id_of_key (from : bytes) : option bytes :=
  match sign_public_from_bytes from with Ok pk => Some (sha256 pk) | Err _ => None end.

Definition is_host_of (s : Engine W) (channel_id from : bytes) : bool :=
  from_option (λ c, bool_decide (ci_host_id (cs_info c) = idk_to_id from)) false (channel_at s channel_id).

Definition handle_welcome (info : ChannelInfo) (welcome : bytes) (since_seq : N) (log_key : bytes) : Op W unit :=
  let channel_id := ci_channel_id info in
  do! _ := on_servers (on_invites_received (delete channel_id)) in
  do! s := st_get in
  if bool_decide (is_Some (channel_at s channel_id)) then st_ret tt
  else
    let '(joined, pending) :=
      try_join_pending (chain_usable_for_id (vw_ledger nv_view)) (Ledger.identity_id (vw_ledger nv_view))
        (sv_mls_pending (en_servers s)) welcome in
    do! _ := on_servers (on_mls_pending (λ _, pending)) in
    match joined with
    | None => st_ret tt
    | Some mls =>
      let roster : gset bytes := list_to_set (member_ids mls) in
      let log_key := if bool_decide (log_key = replicate 32 x00) then None else Some log_key in
      do! _ := on_channels (set_channel channel_id (mkChannelSession info mls roster since_seq ∅ log_key)) in
      do! _ := attempt refresh_mls_key_package in
      mark_dirty
    end.

Definition readmit (channel_id member : bytes) : Op W unit :=
  alter_channel (cs_set_removed (delete member)) channel_id.

Definition handle_redeem (from token pw : bytes) (now_ms : N) : Op W unit :=
  do! token := st_lift (map_err CoWire (token_decode token)) in
  do! _ := st_lift (token_verify token) in
  if token_is_expired token now_ms || negb (bool_decide (tk_host_id token = my_id)) then st_ret tt else
  do! s := st_get in
  match channel_at s (tk_channel_id token) with
  | None => st_ret tt
  | Some ch =>
    if negb (bool_decide (root_of ch = tk_server_root token)) then st_ret tt else
    match hosted_at s (tk_server_root token) with
    | None => st_ret tt
    | Some h =>
      if from_option (λ want, negb (bool_decide (join_pw_hash (tk_server_root token) pw = want))) false (ho_join_pw_hash h)
      then st_ret tt else
      let used := default 0%N (sv_invite_uses (en_servers s) !! tk_nonce token) in
      if negb (tk_max_uses token =? 0)%N && (tk_max_uses token <=? used)%N then st_ret tt else
      match id_of_key from with
      | None => st_ret tt
      | Some redeemer_id =>
        do! _ := on_servers (on_invite_uses <[tk_nonce token := wrap32 (used + 1)]>) in
        do! _ := mark_dirty in
        do! _ := mls_add_member (tk_channel_id token) redeemer_id now_ms in
        readmit (tk_channel_id token) redeemer_id
      end
    end
  end.

Definition handle_closed (from channel_id : bytes) : Op W unit :=
  do! s := st_get in
  match channel_at s channel_id with
  | None => st_ret tt
  | Some ch =>
    if is_host_of s channel_id from then
      do! _ := drop_channel channel_id in
      do! _ := drop_stale_policy (root_of ch) in
      mark_dirty
    else st_ret tt
  end.

Definition handle_renamed (from channel_id name : bytes) : Op W unit :=
  do! s := st_get in
  if is_host_of s channel_id from then
    do! _ := alter_channel (cs_set_name (take_chars 64 name)) channel_id in
    mark_dirty
  else st_ret tt.

(** One line of a backlog. *)
Definition backfill (channel_id : bytes) (b : Book) (e : BacklogEntry) : Book :=
  let b := if (be_seq e =? 0)%N then b
           else trim_channel_edits channel_id (record_author channel_id (be_seq e) (be_sender e) b) in
  push_channel_history
    (mkChanHistory channel_id (be_sender e) (bool_decide (be_sender e = my_id)) (be_at_ms e) (be_text e) (be_seq e)
       None None) b.

Definition handle_history (from channel_id : bytes) (entries : list BacklogEntry) : Op W (list Inbound) :=
  do! s := st_get in
  let already :=
    existsb (λ e, bool_decide (ch_channel_id e = channel_id)) (bk_channel_history (ec_book (en_channels s))) in
  if is_host_of s channel_id from && negb already && negb (bool_decide (entries = [])) then
    do! _ := on_channels (on_book (λ b, foldl (backfill channel_id) b entries)) in
    do! _ := mark_dirty in
    st_ret [InChannelBacklog channel_id entries]
  else st_ret [].

Definition handle_invite (from channel_id channel_name server_name : bytes) : Op W (list Inbound) :=
  do! s := st_get in
  let received := sv_invites_received (en_servers s) in
  if bool_decide (is_Some (channel_at s channel_id)) || bool_decide (is_Some (received !! channel_id))
     || (MAX_PENDING_INVITES <=? size received)%nat
  then st_ret []
  else
    let channel_name := take_chars INVITE_NAME_MAX channel_name in
    let server_name := take_chars INVITE_NAME_MAX server_name in
    do! _ := on_servers (on_invites_received <[channel_id := (from, channel_name, server_name)]>) in
    do! _ := mark_dirty in
    st_ret [InChannelInvite channel_id from channel_name server_name].

Definition handle_invite_accept (from channel_id : bytes) (now_ms : N) : Op W unit :=
  let member := idk_to_id from in
  do! s := st_get in
  if bool_decide ((channel_id, member) ∈ sv_invites_sent (en_servers s)) then
    do! _ := on_servers (on_invites_sent (λ i, i ∖ {[ (channel_id, member) ]})) in
    attempt (do! _ := mls_add_member channel_id member now_ms in readmit channel_id member)
  else st_ret tt.

Definition handle_policy (policy : bytes) : Op W unit :=
  match policy_decode policy with
  | Err _ => st_ret tt
  | Ok p =>
    if negb (is_ok (policy_verify p)) then st_ret tt
    else
      do! s := st_get in
      let newer := from_option (λ cur, sp_version cur <? sp_version p)%N true (policy_at s (sp_server_root p)) in
      if newer then
        do! _ := on_servers (on_policies <[sp_server_root p := p]>) in
        mark_dirty
      else st_ret tt
  end.

Definition handle_kick_request (from channel_id member : bytes) (ban : bool) (now_ms : N) : Op W unit :=
  do! s := st_get in
  match channel_at s channel_id with
  | None => st_ret tt
  | Some ch =>
    let server_root := root_of ch in
    if negb (is_hosted s server_root) then st_ret tt else
    match id_of_key from with
    | None => st_ret tt
    | Some requester =>
      let owner := sp_owner_id <$> policy_at s server_root in
      let target_is_staff := has_any (member_perms s server_root member) PERM_STAFF in
      let requester_is_owner := bool_decide (owner = Some requester) in
      if bool_decide (Some member = owner) then st_ret tt
      else if has_any (member_perms s server_root requester) (perm_to_remove ban)
              && (requester_is_owner || negb target_is_staff)
      then kick_from_server server_root member ban now_ms
      else st_ret tt
    end
  end.

Definition handle_nickname_request (from channel_id nickname : bytes) (now_ms : N) : Op W unit :=
  do! s := st_get in
  match channel_at s channel_id with
  | None => st_ret tt
  | Some chan =>
    if negb (is_hosted s (root_of chan)) then st_ret tt else
    match id_of_key from with
    | None => st_ret tt
    | Some requester =>
      if negb (bool_decide (requester ∈ cs_roster chan)) then st_ret tt
      else
        let nickname := if bool_decide (nickname = []) then None else Some nickname in
        if from_option (λ n, negb (valid_nickname n)) false nickname then st_ret tt
        else set_member_nickname (root_of chan) requester nickname now_ms
    end
  end.

Definition handle_leave (from channel_id : bytes) (now_ms : N) : Op W unit :=
  do! s := st_get in
  match channel_at s channel_id with
  | None => st_ret tt
  | Some ch =>
    match id_of_key from with
    | None => st_ret tt
    | Some leaver =>
      if is_hosted s (root_of ch) && negb (bool_decide (leaver = my_id)) && in_roster s channel_id leaver
      then remove_from_channel channel_id leaver now_ms
      else st_ret tt
    end
  end.

(** With nothing to report. *)
Definition quietly (m : Op W unit) : Op W (list Inbound) := do! _ := m in st_ret [].

Definition handle_channel_control (from blob : bytes) (now_ms : N) : Op W (list Inbound) :=
  do! c := st_lift (map_err CoWire (control_decode blob)) in
  match c with
  | MlsWelcome info welcome since_seq log_key => quietly (handle_welcome info welcome since_seq log_key)
  | Redeem token pw => quietly (handle_redeem from token pw now_ms)
  | Closed channel_id => quietly (handle_closed from channel_id)
  | Renamed channel_id name => quietly (handle_renamed from channel_id name)
  | History channel_id entries => handle_history from channel_id entries
  | Channel.Invite channel_id channel_name server_name => handle_invite from channel_id channel_name server_name
  | InviteAccept channel_id => quietly (handle_invite_accept from channel_id now_ms)
  | InviteDecline channel_id =>
    quietly (on_servers (on_invites_sent (λ i, i ∖ {[ (channel_id, idk_to_id from) ]})))
  | Policy policy => quietly (handle_policy policy)
  | KickRequest channel_id member ban => quietly (handle_kick_request from channel_id member ban now_ms)
  | NicknameRequest channel_id nickname => quietly (handle_nickname_request from channel_id nickname now_ms)
  | Leave channel_id => quietly (handle_leave from channel_id now_ms)
  end.

(** ** In the polling of direct messages *)

(** What the polling of [ClientDm] carries along: the rest of the engine. *)
Record Rest := mkRest { rs_servers : Servers; rs_channels : EngineChannels; rs_world : W; rs_rng : nat → bytes }.

#[export] Instance rest_connection : Connection Rest :=
  {| request rq r :=
       let '(res, w) := request rq (rs_world r) in (res, mkRest (rs_servers r) (rs_channels r) w (rs_rng r)) |}.

Definition engine_of (d : Dm) (r : Rest) : Engine W :=
  mkEngine (rs_servers r) (rs_channels r) d (rs_world r) (rs_rng r).
Definition rest_of (s : Engine W) : Rest := mkRest (en_servers s) (en_channels s) (en_world s) (en_rng s).

(** The arm of [receive_all] for channel control; an error is logged and
    dropped.  [calls] stands for the arms of the calls. *)
Definition control_arm (calls : View → bytes → Content → N → Dm * Rest → option (list Inbound * (Dm * Rest)))
    (v : View) (from : bytes) (content : Content) (now_ms : N) (dr : Dm * Rest) : option (list Inbound * (Dm * Rest)) :=
  match content with
  | CChannel blob =>
    match handle_channel_control from blob now_ms (engine_of dr.1 dr.2) with
    | None => None
    | Some (res, s) => Some (match res with Ok out => out | Err _ => [] end, (en_dm s, rest_of s))
    end
  | _ => calls v from content now_ms dr
  end.
End control.
