(* ===== verification/ServerProofs.v ===== *)
(** * What server operations leave alone
    Frames of the engine's operations ([Servers], [ServerPolicies],
    [ServerControl]), stated as relations between the states before and after
    that are composed by [stays]. *)

From S2P Require Import Prelude Utf8 Enc Crypto ProtoRecord IdentityRecords Server Ledger X3dh Content Mailbox Wire Roles Invite Channel LocalStore Mls Sync ClientMessages ClientChannels ClientDm ClientPeers ClientDmProofs Servers ServerPolicies ServerControl.

(** ** Steps within a relation *)
Section stays.
Context {S E : Type} (R : S → S → Prop) `{!PreOrder R}.

(** Whatever the step returns, the states are related. *)
Definition stays {A} (m : Step S E A) : Prop := ∀ s r s', m s = Some (r, s') → R s s'.

Lemma stays_ret {A} (a : A) : stays (st_ret a).
Proof. intros s r s' [= _ <-]. reflexivity. Qed.
Lemma stays_lift {A} (r : result A E) : stays (st_lift r).
Proof. intros s r' s' [= _ <-]. reflexivity. Qed.
Lemma stays_reject c e : stays (st_reject c e).
Proof. intros s r' s' [= _ <-]. reflexivity. Qed.
Lemma stays_get : stays st_get.
Proof. intros s r' s' [= _ <-]. reflexivity. Qed.
Lemma stays_index {A} (o : option A) : stays (st_index o).
Proof. intros s r' s' H. unfold st_index in H. destruct o; [injection H as _ <-; reflexivity|done]. Qed.
Lemma stays_modify f : (∀ s, R s (f s)) → stays (st_modify f).
Proof. intros Hf s r' s' [= _ <-]. apply Hf. Qed.
Lemma stays_bind {A B} (m : Step S E A) (k : A → Step S E B) :
  stays m → (∀ a, stays (k a)) → stays (st_bind m k).
Proof.
  intros Hm Hk s r s' H. apply st_bind_Some in H as [(a & s1 & H1 & H2)|(e & H & _)]; [|by eapply Hm].
  transitivity s1; [by eapply Hm|by eapply Hk].
Qed.
Lemma stays_if {A} (b : bool) (m k : Step S E A) : stays m → stays k → stays (if b then m else k).
Proof. by destruct b. Qed.
End stays.


Create HintDb stays.
#[export] Hint Resolve stays_ret stays_lift stays_reject stays_get stays_index stays_if : stays.

(** Take a step apart down to the operations the database knows. *)
Ltac stays :=
  repeat first
    [ solve [eauto with stays typeclass_instances]
    | match goal with
      | |- PreOrder _ => apply _
      | |- stays _ (st_bind _ _) => apply stays_bind; [apply _| |intros ?]
      | |- stays _ (match ?x with _ => _ end) => destruct x
      | |- stays _ (let '(_, _) := ?x in _) => destruct x
      end ].

Section frames.
Context `{CryptoPrims, Openmls, !Env}.
Context {W : Type} `{!Connection W}.
Implicit Types s : Engine W.

Section relation.
Context (R : Engine W → Engine W → Prop) `{!PreOrder R}.

Lemma stays_attempt {A} (m : Op W A) : stays R m → stays R (attempt m).
Proof.
  intros Hm s r s' Hs. unfold attempt in Hs. destruct (m s) as [[r1 s1]|] eqn:E; [|done].
  injection Hs as _ <-. by eapply Hm.
Qed.
Lemma stays_for_each {A} (f : A → Op W unit) xs : (∀ x, x ∈ xs → stays R (f x)) → stays R (for_each f xs).
Proof.
  induction xs as [|x xs IH]; intros Hf; [by apply stays_ret|].
  apply stays_bind; [done|apply Hf; set_solver|]. intros _. apply IH. set_solver.
Qed.
End relation.

(** What a send changes: sessions and prekeys, the world and the stream of
    random bytes. *)
Record sends s s' : Prop := {
  se_servers : en_servers s' = en_servers s;
  se_channels : en_channels s' = en_channels s;
  se_quiet : quiet_on (en_dm s) (en_dm s');
}.
#[export] Instance sends_preorder : PreOrder sends.
Proof.
  split; [by constructor; try apply quiet_refl|].
  intros a b c [S1 C1 Q1] [S2 C2 Q2]. constructor; [congruence..|by eapply quiet_trans].
Qed.

(** What an operation on the members of channels changes: the group and the
    roster of the channels in [C], besides what a send changes, versions of
    rosters and the pool of key packages. *)
Definition admin s := (sv_policies (en_servers s), sv_hosted (en_servers s), sv_invites_sent (en_servers s),
  sv_invites_received (en_servers s), sv_invite_uses (en_servers s)).
Record regrouped (ch ch' : ChannelSession) : Prop := {
  rg_info : cs_info ch' = cs_info ch;
  rg_seq : cs_last_seq ch' = cs_last_seq ch;
  rg_key : cs_log_key ch' = cs_log_key ch;
}.
#[export] Instance regrouped_preorder : PreOrder regrouped.
Proof. split; [by constructor|]. intros a b c [] []. constructor; congruence. Qed.

Record changes (C : list bytes) s s' : Prop := {
  cg_admin : admin s' = admin s;
  cg_book : ec_book (en_channels s') = ec_book (en_channels s);
  cg_quiet : quiet_on (en_dm s) (en_dm s');
  cg_regrouped c : option_Forall2 regrouped (channel_at s c) (channel_at s' c);
  cg_others c : c ∉ C → channel_at s' c = channel_at s c;
}.
#[export] Instance changes_preorder C : PreOrder (changes C).
Proof.
  split; [constructor; try done; try apply quiet_refl; intros; by apply option_Forall2_refl|].
  intros a b c [A1 B1 Q1 G1 O1] [A2 B2 Q2 G2 O2]. constructor; [congruence..|by eapply quiet_trans| |].
  - intros x. specialize (G1 x); specialize (G2 x).
    destruct G1 as [? ? E1|]; inversion G2; constructor. by etrans.
  - intros x Hx. rewrite O2 by done. by apply O1.
Qed.

Lemma sends_changes C s s' : sends s s' → changes C s s'.
Proof.
  intros [S1 C1 Q]. constructor; unfold admin, channel_at; rewrite ?S1, ?C1; done.
Qed.
Lemma changes_self C s s' :
  admin s' = admin s → en_channels s' = en_channels s → en_dm s' = en_dm s → changes C s s'.
Proof.
  intros HA HC HD. assert (Hc : ∀ c, channel_at s' c = channel_at s c) by (intros c; unfold channel_at; by rewrite HC).
  split; [done|by rewrite HC|rewrite HD; apply quiet_refl| |done].
  intros c. rewrite Hc. by apply option_Forall2_refl.
Qed.
Lemma changes_weaken (C D : list bytes) s s' : C ⊆ D → changes C s s' → changes D s s'.
Proof. intros HC [A B Q G O]. constructor; auto. Qed.

(** *** The basic operations *)
Lemma stays_weaken (R R' : Engine W → Engine W → Prop) {A} (m : Op W A) :
  (∀ s s', R s s' → R' s s') → stays R m → stays R' m.
Proof. intros HR Hm s r s' Hs. apply HR. by eapply Hm. Qed.

Lemma draw_sends : stays sends draw.
Proof. intros s r s' [= _ <-]. constructor; try done; apply quiet_refl. Qed.
Lemma call_sends {A} (m : W → result A NetError * W) : stays sends (call m).
Proof.
  intros s r s' Hs. unfold call in Hs. destruct (m (en_world s)) as [r1 w1]. injection Hs as _ <-.
  constructor; try done; apply quiet_refl.
Qed.

Lemma send_control_sends peer c now_ms : stays sends (send_control peer c now_ms).
Proof.
  unfold send_control, send. repeat (apply stays_bind; [apply _|apply draw_sends|intros ?]).
  intros s r s' Hs. destruct (send_content _ _ _ _ _ _ _ _ _) as [[r1 [d1 w1]]|] eqn:E; [|done].
  injection Hs as _ <-. apply send_content_effect in E as (E1 & E2 & E3 & E4). 
  assert (Hh : dm_history d1 = dm_history (en_dm s)) by (destruct E4 as [Hh|(? & ? & ? & _ & _ & Hc & _)]; [exact Hh|discriminate Hc]).
  split; [done..|]. by split.
Qed.
Lemma post_commit_sends cid commit : stays sends (post_commit cid commit).
Proof.
  unfold post_commit. apply stays_bind; [apply _|apply draw_sends|intros n].
  apply stays_bind; [apply _|apply stays_get, _|intros s0]. intros s r s' Hs.
  destruct (post_channel_frame _ _ _ _ _) as [r1 w1]. injection Hs as _ <-. constructor; try done; apply quiet_refl.
Qed.
Lemma tell_sends l c now_ms : stays sends (tell l c now_ms).
Proof. apply stays_for_each; [apply _|]. intros x _. apply stays_attempt, send_control_sends. Qed.

(** A change of servers that leaves what [admin] names. *)
Lemma servers_changes C f : (∀ s, admin (en_on_servers f s) = admin s) → stays (changes C) (on_servers f).
Proof.
  intros Hf s r s' [= _ <-]. by apply changes_self.
Qed.
Lemma mark_dirty_changes C : stays (changes C) mark_dirty.
Proof. by apply servers_changes. Qed.
Lemma alter_channel_changes (C : list bytes) f cid : cid ∈ C → (∀ ch, regrouped ch (f ch)) → stays (changes C) (alter_channel f cid).
Proof.
  intros Hc Hf s r s' [= _ <-]. constructor; try done; try apply quiet_refl; unfold channel_at; cbn.
  - intros c. destruct (decide (c = cid)) as [->|Hn]; [|rewrite lookup_alter_ne by done; by apply option_Forall2_refl].
    rewrite lookup_alter_eq. destruct (_ !! cid); constructor. apply Hf.
  - intros c Hn. rewrite lookup_alter_ne; [done|]. by intros ->.
Qed.

Lemma changes_of_sends {A} (m : Op W A) C : stays sends m → stays (changes C) m.
Proof. apply stays_weaken, sends_changes. Qed.
End frames.

#[export] Hint Resolve draw_sends call_sends send_control_sends post_commit_sends tell_sends : stays.
#[export] Hint Resolve changes_of_sends mark_dirty_changes stays_attempt stays_for_each : stays.

Section operations.
Context `{CryptoPrims, Openmls, !Env}.
Context {W : Type} `{!Connection W}.
Implicit Types s : Engine W.

Lemma push_channel_roster_changes C cid now_ms : stays (changes C) (push_channel_roster cid now_ms).
Proof.
  unfold push_channel_roster. stays. by apply servers_changes.
Qed.
Hint Resolve push_channel_roster_changes : stays.

Lemma mls_add_member_changes (C : list bytes) cid peer now_ms : cid ∈ C → stays (changes C) (mls_add_member cid peer now_ms).
Proof.
  intros Hc. unfold mls_add_member, get_channel. stays; by apply alter_channel_changes.
Qed.

Lemma remove_from_channel_changes (C : list bytes) cid m now_ms : cid ∈ C → stays (changes C) (remove_from_channel cid m now_ms).
Proof.
  intros Hc. unfold remove_from_channel, get_channel, require_hosted. stays; by apply alter_channel_changes.
Qed.

Lemma refresh_changes C : stays (changes (W:=W) C) refresh_mls_key_package.
Proof.
  assert (Hp : ∀ f, stays (changes (W:=W) C) (on_servers (on_mls_pending f))) by (intros f; by apply servers_changes).
  unfold refresh_mls_key_package. generalize MLS_KEYPKG_POOL at 1 2. intros fuel. generalize (@nil bytes) at 1.
  intros fresh. apply stays_bind; [apply _| |intros l; stays].
  revert fresh. induction fuel as [|fuel IH]; intros fresh; cbn [mint_key_packages]; stays.
Qed.

(** Removing from every channel of a server, and the ban. *)
Lemma kick_effect root m ban now_ms s r s' :
  kick_from_server root m ban now_ms s = Some (r, s') →
  s' = s ∨ ∃ h s1, hosted_at s root = Some h ∧ changes (ho_channels h) s s1 ∧ m ≠ my_id ∧
    s' = en_on_servers sv_touch (if ban : bool then
      en_on_servers (on_hosted (alter (λ h, ho_set_banned ({[ m ]} ∪ ho_banned h) h) root)) s1 else s1).
Proof.
  unfold kick_from_server, get_hosted. intros Hs.
  apply st_bind_Some in Hs as [(h & s0 & Hm1 & Hs)|(e & Hm1 & _)].
  2: { left. unfold st_bind, st_get, st_lift in Hm1. by injection Hm1. }
  unfold st_bind at 1, st_get, st_lift in Hm1. injection Hm1 as Hm1 <-.
  destruct (hosted_at s root) as [h'|]; [|done]. injection Hm1 as ->.
  apply st_bind_Some in Hs as [(u & s0 & Hm1 & Hs)|(e & Hm1 & _)].
  2: { left. unfold st_reject in Hm1. by injection Hm1. }
  unfold st_reject in Hm1. injection Hm1 as Hm1 <-. case_bool_decide as Hm; [done|].
  apply st_bind_Some in Hs as [([] & s1 & Hm2 & Hs)|(e & Hm2 & _)].
  - right. exists h, s1. split; [done|]. split; [|split; [done|]].
    + eapply stays_for_each; [apply _| |exact Hm2]. intros c Hc. cbn beta. stays.
      apply stays_attempt. by apply remove_from_channel_changes.
    + by destruct ban; injection Hs as _ <-.
  - exfalso. assert (Hok : ∀ xs s r s', for_each (λ cid : bytes, do! s := st_get in
      if in_roster s cid m then attempt (remove_from_channel cid m now_ms) else st_ret tt) xs s = Some (r, s') → r = Ok tt).
    { clear. induction xs as [|x xs IH]; intros s r s' Hs; [by injection Hs|]. cbn [for_each] in Hs.
      apply st_bind_Some in Hs as [(u & s1 & _ & Hs)|(e & Hs & _)]; [by eapply IH|].
      rewrite st_get_bind in Hs. destruct (in_roster _ _ _); [|done]. unfold attempt in Hs.
      by destruct (remove_from_channel _ _ _ _) as [[? ?]|]. }
    by apply Hok in Hm2.
Qed.

(** Every [for_each] over attempts runs to its end. *)
Lemma tell_ok l c now_ms s r s' : tell l c now_ms s = Some (r, s') → r = Ok tt.
Proof.
  unfold tell. revert s. induction l as [|x l IH]; intros s Hs; [by injection Hs|]. cbn [for_each] in Hs.
  apply st_bind_Some in Hs as [(u & s1 & _ & Hs)|(e & Hs & _)]; [by eapply IH|].
  unfold attempt in Hs. by destruct (send_control _ _ _ _) as [[? ?]|].
Qed.

(** A change of policy is refused for a dangling icon, or installed, signed,
    and told to everybody. *)
Lemma commit_policy_effect root d now_ms s r s' :
  commit_policy root d now_ms s = Some (r, s') →
  (icons_ok d = false ∧ s' = s ∧ is_ok r = false) ∨
  (icons_ok d = true ∧ r = Ok tt ∧
   sends (en_on_servers sv_touch (en_on_servers (on_policies <[root := sign_draft d now_ms]>) s)) s').
Proof.
  unfold commit_policy. intros Hs. unfold st_bind at 1, st_reject in Hs. destruct (icons_ok d); cbn [negb] in Hs.
  - right. split; [done|]. change (broadcast_policy root now_ms
      (en_on_servers sv_touch (en_on_servers (on_policies <[root := sign_draft d now_ms]>) s)) = Some (r, s')) in Hs.
    unfold broadcast_policy in Hs. rewrite st_get_bind in Hs. revert Hs. case_match; intros Hs.
    + split; [by eapply tell_ok|by eapply tell_sends].
    + injection Hs as <- <-. done.
  - left. by injection Hs as <- <-.
Qed.

Lemma policy_draft_spec root s r s' :
  policy_draft root s = Some (r, s') → s' = s ∧
  ∀ d, r = Ok d → ∃ h p, hosted_at s root = Some h ∧ policy_at s root = Some p ∧
    d = mkDraft (sp_roles p) (sp_assignments p) (sp_emojis p) (sp_stickers p) (sp_sounds p) (sp_nicknames p)
          (sp_owner_id p) (sp_version p) (ho_root h).
Proof.
  unfold policy_draft, get_hosted, st_bind, st_get, st_lift, st_ret.
  destruct (hosted_at s root) as [h|]; [|by intros [= <- <-]]. cbn [ok_or].
  destruct (policy_at s root) as [p|]; intros [= <- <-]; [|done]. split; [done|]. intros d [= <-]. by exists h, p.
Qed.
End operations.
