(* ===== verification/ServerControlProofs.v ===== *)
(** * What a control message can do
    The authority a peer needs for each change of channels, bans and policies
    that [handle_channel_control] makes, and the effect of every handler
    within it. *)

From S2P Require Import Prelude Utf8 Enc Crypto ProtoRecord IdentityRecords Server Ledger X3dh Content Mailbox Wire Roles Invite Channel LocalStore Mls Sync ClientMessages ClientChannels ClientDm ClientPeers ClientDmProofs Servers ServerPolicies ServerControl ServerProofs.

Section authority.
Context `{CryptoPrims, Openmls, !Env}.
Context {W : Type} `{!Connection W}.
Implicit Types s : Engine W.

(** ** Authority *)

(** [requester] may remove [member] from a server hosted here. *)
Definition may_remove s (root requester member : bytes) (ban : bool) : Prop :=
  let owner := sp_owner_id <$> policy_at s root in
  has_any (member_perms s root requester) (perm_to_remove ban) = true ∧ Some member ≠ owner ∧
  (has_any (member_perms s root member) PERM_STAFF = true → owner = Some requester).

(** A kick or ban of [member] asked by [from] through channel [cid]. *)
Definition kick_authorised s (from cid member : bytes) (ban : bool) (h : HostedServer) (root : bytes) : Prop :=
  ∃ ch requester, channel_at s cid = Some ch ∧ root_of ch = root ∧ hosted_at s root = Some h ∧
    id_of_key from = Some requester ∧ may_remove s root requester member ban.

Definition not_banned s (ch : ChannelSession) (member : bytes) : Prop :=
  ∀ h, hosted_at s (root_of ch) = Some h → member ∉ ho_banned h.

(** A link signed by the server's root, for this host and channel, that is
    neither expired nor used up, with the join password if there is one. *)
Definition link_honoured s (t : InviteToken) (pw : bytes) (now_ms : N) (ch : ChannelSession) : Prop :=
  token_verify t = Ok tt ∧ token_is_expired t now_ms = false ∧ tk_host_id t = my_id ∧
  channel_at s (tk_channel_id t) = Some ch ∧ root_of ch = tk_server_root t ∧
  (∃ h, hosted_at s (root_of ch) = Some h ∧
    ∀ want, ho_join_pw_hash h = Some want → join_pw_hash (root_of ch) pw = want) ∧
  (tk_max_uses t = 0%N ∨ (default 0 (sv_invite_uses (en_servers s) !! tk_nonce t) < tk_max_uses t)%N).

(** Why the members of channel [cid] may change. *)
Definition may_regroup s (from : bytes) (c : ChannelControl) (now_ms : N) (cid : bytes) : Prop :=
  match c with
  | InviteAccept cid' =>
    cid' = cid ∧ (cid, idk_to_id from) ∈ sv_invites_sent (en_servers s) ∧
    ∃ ch, channel_at s cid = Some ch ∧ not_banned s ch (idk_to_id from)
  | Redeem token pw =>
    ∃ t ch member, token_decode token = Ok t ∧ tk_channel_id t = cid ∧ link_honoured s t pw now_ms ch ∧
      id_of_key from = Some member ∧ not_banned s ch member
  | KickRequest cid' member ban => ∃ h root, kick_authorised s from cid' member ban h root ∧ cid ∈ ho_channels h
  | Leave cid' =>
    cid' = cid ∧ ∃ ch leaver, channel_at s cid = Some ch ∧ is_hosted s (root_of ch) = true ∧
      id_of_key from = Some leaver ∧ leaver ∈ cs_roster ch ∧ leaver ≠ my_id
  | _ => False
  end.

(** How the policy of a server may change. *)
Inductive policy_changed s s' (from : bytes) (root : bytes) : ChannelControl → Prop :=
  | Published blob p :
      policy_decode blob = Ok p → policy_verify p = Ok tt → sp_server_root p = root →
      (∀ cur, policy_at s root = Some cur → (sp_version cur < sp_version p)%N) →
      policy_at s' root = Some p → policy_changed s s' from root (Policy blob)
  | Nicknamed cid name ch member d d' now_ms :
      channel_at s cid = Some ch → root_of ch = root → is_hosted s root = true →
      id_of_key from = Some member → member ∈ cs_roster ch →
      policy_draft root s = Some (Ok d, s) → d' = with_nicknames (dr_nicknames d') d →
      (∀ m, m ≠ member → find_named m (dr_nicknames d') = find_named m (dr_nicknames d)) →
      policy_at s' root = Some (sign_draft d' now_ms) →
      policy_changed s s' from root (NicknameRequest cid name)
  | Forgotten cid ch :
      is_host_of s cid from = true → channel_at s cid = Some ch → root_of ch = root →
      (∀ c ch', channel_at s' c = Some ch' → root_of ch' ≠ root) → policy_at s' root = None →
      policy_changed s s' from root (Closed cid).

(** The session of a channel before and after. *)
Definition session_changed s (from : bytes) (c : ChannelControl) (now_ms : N) (cid : bytes)
    (before after : option ChannelSession) : Prop :=
  match before, after with
  | None, None => True
  | None, Some ch' =>
    ∃ info welcome since_seq log_key pending, c = MlsWelcome info welcome since_seq log_key ∧
      cid = ci_channel_id info ∧ cs_info ch' = info ∧
      try_join_pending (chain_usable_for_id (vw_ledger nv_view)) (Ledger.identity_id (vw_ledger nv_view))
        (sv_mls_pending (en_servers s)) welcome = (Some (cs_mls ch'), pending)
  | Some _, None => c = Closed cid ∧ is_host_of s cid from = true
  | Some ch, Some ch' =>
    cs_last_seq ch' = cs_last_seq ch ∧ cs_log_key ch' = cs_log_key ch ∧
    (cs_info ch' = cs_info ch ∨
     ∃ name, c = Renamed cid name ∧ is_host_of s cid from = true ∧ cs_info ch' = cs_info (cs_set_name (take_chars 64 name) ch)) ∧
    (cs_mls ch' = cs_mls ch ∧ cs_roster ch' = cs_roster ch ∨ may_regroup s from c now_ms cid)
  end.

Record control_effect (from : bytes) (c : ChannelControl) (now_ms : N) s s' : Prop := {
  ef_policies root : policy_at s' root = policy_at s root ∨ policy_changed s s' from root c;
  ef_hosted root : hosted_at s' root = hosted_at s root ∨
    ∃ cid member h, c = KickRequest cid member true ∧ kick_authorised s from cid member true h root ∧
      hosted_at s' root = Some (ho_set_banned ({[ member ]} ∪ ho_banned h) h);
  ef_sessions cid : session_changed s from c now_ms cid (channel_at s cid) (channel_at s' cid);
  ef_quiet : quiet_on (en_dm s) (en_dm s');
}.

(** ** Within authority *)
Lemma session_same s from c now_ms cid o : session_changed s from c now_ms cid o o.
Proof. destruct o; cbn; [|done]. split_and!; auto. Qed.

Lemma effect_same from c now_ms s s' :
  sv_policies (en_servers s') = sv_policies (en_servers s) → sv_hosted (en_servers s') = sv_hosted (en_servers s) →
  ec_channels (en_channels s') = ec_channels (en_channels s) → quiet_on (en_dm s) (en_dm s') →
  control_effect from c now_ms s s'.
Proof.
  intros HP HH HC HQ. constructor; unfold policy_at, hosted_at, channel_at; rewrite ?HP, ?HH, ?HC; auto.
  intros cid. apply session_same.
Qed.

(** An operation on members, run after a change of nothing that matters here. *)
Lemma effect_regroup C from c now_ms s s1 s' :
  sv_policies (en_servers s1) = sv_policies (en_servers s) → sv_hosted (en_servers s1) = sv_hosted (en_servers s) →
  en_channels s1 = en_channels s → en_dm s1 = en_dm s → changes C s1 s' →
  (∀ cid, cid ∈ C → channel_at s' cid = channel_at s cid ∨ may_regroup s from c now_ms cid) →
  control_effect from c now_ms s s'.
Proof.
  intros HP HH HC HD [HA HB HQ HG HO] Hmay. unfold admin in HA. injection HA as EP EH _ _ _.
  constructor; unfold policy_at, hosted_at; rewrite ?EP, ?EH, ?HP, ?HH; auto.
  - intros cid. specialize (HG cid). specialize (HO cid). unfold channel_at in *. rewrite HC in *.
    destruct (decide (cid ∈ C)) as [Hc|Hc]; [|rewrite HO by done; apply session_same].
    destruct (Hmay cid Hc) as [->|Hm]; [apply session_same|].
    destruct HG as [ch ch' [I Q K]|]; [|done]. cbn. split_and!; [done|done|by left|by right].
  - by rewrite <- HD.
Qed.

(** ** The handlers *)

(** A banned identity is refused before anything else. *)
Lemma mls_add_member_effect cid member now_ms s r s' :
  mls_add_member cid member now_ms s = Some (r, s') →
  changes [cid] s s' ∧ (is_ok r = false ∧ s' = s ∨ ∃ ch, channel_at s cid = Some ch ∧ not_banned s ch member).
Proof.
  intros Hs. split; [by eapply mls_add_member_changes; [|exact Hs]; left|].
  unfold mls_add_member, get_channel in Hs.
  destruct (channel_at s cid) as [ch|] eqn:Ech.
  2: { left. unfold st_bind, st_get, st_lift in Hs. rewrite Ech in Hs. by injection Hs as <- <-. }
  destruct (from_option (λ h, bool_decide (member ∈ ho_banned h)) false (hosted_at s (root_of ch))) eqn:Eb.
  - left. unfold st_bind at 1 2, st_get, st_lift in Hs. rewrite Ech in Hs. cbn [ok_or] in Hs. cbv beta iota in Hs.
    unfold st_bind at 1 2, st_reject in Hs. rewrite Eb in Hs. by injection Hs as <- <-.
  - right. exists ch. split; [done|]. intros h Hh. rewrite Hh in Eb. cbn in Eb. by case_bool_decide.
Qed.

Lemma readmit_changes (C : list bytes) cid member : cid ∈ C → stays (changes (W:=W) C) (readmit cid member).
Proof. intros Hc. by apply alter_channel_changes. Qed.

(** What adding and readmitting a member does. *)
Lemma add_readmit cid member now_ms s1 r s' :
  (do! _ := mls_add_member cid member now_ms in readmit cid member) s1 = Some (r, s') →
  changes [cid] s1 s' ∧ (s' = s1 ∨ ∃ ch, channel_at s1 cid = Some ch ∧ not_banned s1 ch member).
Proof.
  intros Hs. split.
  - revert Hs. apply stays_bind; [apply _|intros ????; by eapply mls_add_member_changes; [left|]|intros _; apply readmit_changes; by left].
  - apply st_bind_Some in Hs as [([] & s3 & Ha & Hr)|(e & Ha & _)]; apply mls_add_member_effect in Ha as [_ [[Ha E]|Ha]]; auto.
    by left.
Qed.

Lemma handle_invite_accept_effect from cid now_ms s r s' :
  handle_invite_accept from cid now_ms s = Some (r, s') → control_effect from (InviteAccept cid) now_ms s s'.
Proof.
  unfold handle_invite_accept. rewrite st_get_bind. case_bool_decide as Hin; [|intros [= _ <-]; by apply effect_same].
  intros Hs. unfold st_bind at 1, on_servers, st_modify in Hs.
  match type of Hs with attempt _ ?s1 = _ => set (s1' := s1) in Hs end.
  unfold attempt in Hs. destruct (st_bind _ _ s1') as [[r1 s2]|] eqn:E; [|done]. injection Hs as _ <-.
  apply add_readmit in E as [Hch Ha].
  apply (effect_regroup [cid] _ _ _ s s1'); try done. intros c Hc%list_elem_of_singleton. subst c.
  destruct Ha as [->|(ch & Hch1 & Hb)]; [by left|]. right. cbn. eauto.
Qed.

(** A redemption is ignored, or counted before the redeemer is added. *)
Definition counted (t : InviteToken) s : Engine W :=
  en_on_servers sv_touch (en_on_servers (on_invite_uses
    <[tk_nonce t := wrap32 (default 0%N (sv_invite_uses (en_servers s) !! tk_nonce t) + 1)]>) s).

Lemma redeem_cases from token pw now_ms s r s' :
  handle_redeem from token pw now_ms s = Some (r, s') →
  s' = s ∨ ∃ t ch member, token_decode token = Ok t ∧ link_honoured s t pw now_ms ch ∧ id_of_key from = Some member ∧
    (do! _ := mls_add_member (tk_channel_id t) member now_ms in readmit (tk_channel_id t) member) (counted t s) = Some (r, s').
Proof.
  unfold handle_redeem. intros Hs. unfold st_bind at 1, st_lift in Hs.
  destruct (token_decode token) as [t|] eqn:Et; cbn [map_err] in Hs; [|injection Hs as _ <-; by left].
  unfold st_bind at 1 in Hs. destruct (token_verify t) as [[]|] eqn:Ev; [|injection Hs as _ <-; by left].
  destruct (token_is_expired t now_ms) eqn:Ex; [injection Hs as _ <-; by left|].
  destruct (bool_decide (tk_host_id t = my_id)) eqn:Eh; cbn [orb negb] in Hs; [|injection Hs as _ <-; by left].
  apply bool_decide_eq_true in Eh. rewrite st_get_bind in Hs.
  destruct (channel_at s (tk_channel_id t)) as [ch|] eqn:Ec; [|injection Hs as _ <-; by left].
  destruct (bool_decide (root_of ch = tk_server_root t)) eqn:Er; cbn [negb] in Hs; [|injection Hs as _ <-; by left].
  apply bool_decide_eq_true in Er.
  destruct (hosted_at s (tk_server_root t)) as [h|] eqn:Eho; [|injection Hs as _ <-; by left].
  destruct (from_option _ _ _) eqn:Ep in Hs; [injection Hs as _ <-; by left|].
  destruct (negb _ && _) eqn:Eu in Hs; [injection Hs as _ <-; by left|].
  destruct (id_of_key from) as [member|] eqn:Ei; [|injection Hs as _ <-; by left].
  right. exists t, ch, member. split; [done|]. split; [|split; [done|exact Hs]].
  split_and!; try done; rewrite ?Er.
  - exists h. split; [done|]. intros want Hw. rewrite Hw in Ep. cbn in Ep. by case_bool_decide.
  - apply andb_false_iff in Eu as [Eu|Eu]; [left|right]; [apply negb_false_iff, N.eqb_eq in Eu; done|].
    by apply N.leb_gt in Eu.
Qed.

Lemma handle_redeem_effect from token pw now_ms s r s' :
  handle_redeem from token pw now_ms s = Some (r, s') → control_effect from (Redeem token pw) now_ms s s'.
Proof.
  intros [->|(t & ch & member & Et & Hl & Ei & Hs)]%redeem_cases; [by apply effect_same|].
  apply add_readmit in Hs as [Hch Ha].
  apply (effect_regroup [tk_channel_id t] _ _ _ s (counted t s)); try done. intros c Hc%list_elem_of_singleton. subst c.
  destruct Ha as [->|(ch' & Hch1 & Hb)]; [by left|]. right.
  change (channel_at s (tk_channel_id t) = Some ch') in Hch1. destruct Hl as (Hl1 & Hl2 & Hl3 & Hl4 & Hl).
  rewrite Hl4 in Hch1. injection Hch1 as <-. by exists t, ch, member.
Qed.

Lemma handle_leave_effect from cid now_ms s r s' :
  handle_leave from cid now_ms s = Some (r, s') → control_effect from (Leave cid) now_ms s s'.
Proof.
  unfold handle_leave. rewrite st_get_bind. destruct (channel_at s cid) as [ch|] eqn:Ec; [|intros [= _ <-]; by apply effect_same].
  destruct (id_of_key from) as [leaver|] eqn:Ei; [|intros [= _ <-]; by apply effect_same].
  destruct (_ && _) eqn:E; [|intros [= _ <-]; by apply effect_same].
  apply andb_true_iff in E as [[Eh Em]%andb_true_iff Er]. intros Hs.
  apply (effect_regroup [cid] _ _ _ s s); try done.
  - by eapply remove_from_channel_changes; [left|].
  - intros c Hc%list_elem_of_singleton. subst c. right. split; [done|]. exists ch, leaver. unfold in_roster in Er. rewrite Ec in Er.
    apply bool_decide_eq_true in Er. apply negb_true_iff, bool_decide_eq_false in Em. done.
Qed.

Lemma handle_kick_request_effect from cid member ban now_ms s r s' :
  handle_kick_request from cid member ban now_ms s = Some (r, s') →
  control_effect from (KickRequest cid member ban) now_ms s s'.
Proof.
  unfold handle_kick_request. rewrite st_get_bind. destruct (channel_at s cid) as [ch|] eqn:Ec; [|intros [= _ <-]; by apply effect_same].
  unfold is_hosted. case_bool_decide as Eho; cbn [negb]; [|intros [= _ <-]; by apply effect_same]. destruct Eho as [h Eho].
  destruct (id_of_key from) as [requester|] eqn:Ei; [|intros [= _ <-]; by apply effect_same].
  case_bool_decide as Eo; [intros [= _ <-]; by apply effect_same|].
  destruct (_ && _) eqn:E; [|intros [= _ <-]; by apply effect_same]. apply andb_true_iff in E as [Ep Es].
  assert (Hk : kick_authorised s from cid member ban h (root_of ch)).
  { exists ch, requester. do 4 (split; [done|]). split; [done|]. split; [done|]. intros Hstaff. rewrite Hstaff in Es. cbn [negb orb] in Es.
    rewrite orb_false_r in Es. by apply bool_decide_eq_true in Es. }
  intros Hs. apply kick_effect in Hs as [->|(h' & s1 & Eh' & Hch & Hm & ->)]; [by apply effect_same|].
  rewrite Eho in Eh'. injection Eh' as <-.
  assert (Heff : control_effect from (KickRequest cid member ban) now_ms s s1).
  { apply (effect_regroup (ho_channels h) _ _ _ s s); try done. intros c Hc. right. exists h, (root_of ch). by split. }
  assert (Hh1 : ∀ root, hosted_at s1 root = hosted_at s root).
  { intros root. pose proof (cg_admin _ _ _ Hch) as EA. unfold admin in EA. injection EA as _ EH _ _ _. unfold hosted_at. by rewrite EH. }
  destruct Heff as [HP HH HS HQ]. constructor.
  - intros root. left. destruct (HP root) as [E|E]; [|by inversion E]. destruct ban; exact E.
  - intros root. destruct ban; [|exact (HH root)].
    unfold hosted_at. cbn. destruct (decide (root = root_of ch)) as [->|Hn].
    + right. exists cid, member, h. split; [done|]. split; [done|]. rewrite lookup_alter_eq.
      specialize (Hh1 (root_of ch)). unfold hosted_at in Hh1. rewrite Hh1. unfold hosted_at in Eho. by rewrite Eho.
    + left. rewrite lookup_alter_ne by done. apply Hh1.
  - intros c. specialize (HS c). destruct ban; exact HS.
  - destruct ban; exact HQ.
Qed.

Lemma handle_welcome_effect from info welcome since_seq log_key now_ms s r s' :
  handle_welcome info welcome since_seq log_key s = Some (r, s') →
  control_effect from (MlsWelcome info welcome since_seq log_key) now_ms s s'.
Proof.
  unfold handle_welcome. intros Hs. unfold st_bind at 1, on_servers, st_modify in Hs. rewrite st_get_bind in Hs.
  case_bool_decide as Hin; [injection Hs as _ <-; by apply effect_same|].
  destruct (try_join_pending _ _ _ _) as [joined pending] eqn:Ej. unfold st_bind at 1 in Hs.
  destruct joined as [mls|]; [|injection Hs as _ <-; by apply effect_same].
  unfold st_bind at 1, on_channels, st_modify in Hs.
  match type of Hs with st_bind _ _ ?s1 = _ => set (s1' := s1) in Hs end.
  assert (Hch : changes [] s1' s').
  { revert Hs. apply stays_bind; [apply _|apply stays_attempt, refresh_changes|intros _; apply mark_dirty_changes]. }
  destruct Hch as [HA HB HQ HG HO]. unfold admin in HA. injection HA as EP EH _ _ _.
  constructor; unfold policy_at, hosted_at; rewrite ?EP, ?EH; auto.
  intros cid. rewrite HO by set_solver. unfold channel_at. cbn.
  destruct (decide (cid = ci_channel_id info)) as [->|Hn]; [|rewrite lookup_insert_ne by done; apply session_same].
  rewrite lookup_insert_eq. apply eq_None_not_Some in Hin. unfold channel_at in Hin. cbn in Hin. rewrite Hin. cbn.
  exists info, welcome, since_seq, log_key, pending. done.
Qed.

Lemma handle_closed_effect from cid now_ms s r s' :
  handle_closed from cid s = Some (r, s') → control_effect from (Closed cid) now_ms s s'.
Proof.
  unfold handle_closed. rewrite st_get_bind. destruct (channel_at s cid) as [ch|] eqn:Ec; [|intros [= _ <-]; by apply effect_same].
  destruct (is_host_of s cid from) eqn:Eh; [|intros [= _ <-]; by apply effect_same].
  intros Hs. unfold st_bind at 1, drop_channel, on_channels, st_modify in Hs.
  match type of Hs with st_bind _ _ ?s1 = _ => set (s1' := s1) in Hs end.
  assert (Hsess : ∀ c, session_changed s from (Closed cid) now_ms c (channel_at s c) (channel_at s1' c)).
  { intros c. unfold channel_at. cbn. destruct (decide (c = cid)) as [->|Hn].
    - rewrite lookup_delete_eq. unfold channel_at in Ec. rewrite Ec. done.
    - rewrite lookup_delete_ne by done. apply session_same. }
  unfold drop_stale_policy in Hs. unfold st_bind at 1 in Hs. rewrite st_get_bind in Hs.
  destruct (existsb _ _) eqn:Eex in Hs; injection Hs as _ <-; (constructor; [|by left|done|done]); intros root; [by left|].
  destruct (decide (root = root_of ch)) as [->|Hn]; [|left; by apply lookup_delete_ne].
  right. eapply Forgotten; [done|done|done| |by apply lookup_delete_eq].
  intros c ch' Hc Hr. assert (Hin : (c, ch') ∈ map_to_list (ec_channels (en_channels s1'))) by by apply elem_of_map_to_list.
  apply not_true_iff_false in Eex. apply Eex, existsb_exists. exists (c, ch'). split; [by apply list_elem_of_In|].
  by apply bool_decide_eq_true.
Qed.

Lemma handle_renamed_effect from cid name now_ms s r s' :
  handle_renamed from cid name s = Some (r, s') → control_effect from (Renamed cid name) now_ms s s'.
Proof.
  unfold handle_renamed. rewrite st_get_bind. destruct (is_host_of s cid from) eqn:Eh; intros [= _ <-]; [|by apply effect_same].
  constructor; [by left|by left| |done]. intros c. unfold channel_at. cbn.
  destruct (decide (c = cid)) as [->|Hn]; [|rewrite lookup_alter_ne by done; apply session_same].
  rewrite lookup_alter_eq. destruct (_ !! cid) as [ch|]; [|done]. cbn. split_and!; [done|done|right; by exists name|by left].
Qed.

Lemma handle_policy_effect from blob now_ms s r s' :
  handle_policy blob s = Some (r, s') → control_effect from (Policy blob) now_ms s s'.
Proof.
  unfold handle_policy. destruct (policy_decode blob) as [p|] eqn:Ed; [|intros [= _ <-]; by apply effect_same].
  destruct (policy_verify p) as [[]|] eqn:Ev; cbn [is_ok negb]; [|intros [= _ <-]; by apply effect_same].
  rewrite st_get_bind. destruct (from_option _ _ _) eqn:En; intros [= _ <-]; [|by apply effect_same].
  constructor; [|by left| |done].
  - intros root. destruct (decide (root = sp_server_root p)) as [->|Hn]; [|left; by apply lookup_insert_ne].
    right. eapply Published; [done|done|done| |by apply lookup_insert_eq].
    intros cur Hc. rewrite Hc in En. by apply N.ltb_lt in En.
  - intros cid. apply session_same.
Qed.

Lemma find_named_other (f : bytes → bytes) new key m l : m ≠ key → find_named m (upsert key f new l) = find_named m l.
Proof.
  intros Hm. unfold find_named. induction l as [|[k v] l IH]; cbn.
  - destruct new; cbn; [by rewrite bool_decide_false|done].
  - destruct (decide (k = key)) as [->|Hk].
    + rewrite (bool_decide_true (key = key)) by done. cbn. by rewrite !bool_decide_false by done.
    + rewrite (bool_decide_false (k = key)) by done. cbn. by destruct (bool_decide (k = m)).
Qed.
Lemma find_named_dropped key m (l : list (bytes * bytes)) : m ≠ key → find_named m (drop_named key l) = find_named m l.
Proof.
  intros Hm. unfold find_named, drop_named. induction l as [|[k v] l IH]; [done|]. cbn.
  destruct (decide (k = key)) as [->|Hk].
  - rewrite (bool_decide_true (key = key)) by done. cbn. by rewrite bool_decide_false.
  - rewrite (bool_decide_false (k = key)) by done. cbn. by destruct (bool_decide (k = m)).
Qed.

(** What [set_member_nickname] makes of the policy. *)
Lemma set_member_nickname_effect root member name now_ms s r s' :
  set_member_nickname root member name now_ms s = Some (r, s') →
  s' = s ∨ ∃ d d', policy_draft root s = Some (Ok d, s) ∧ d' = with_nicknames (dr_nicknames d') d ∧
    (∀ m, m ≠ member → find_named m (dr_nicknames d') = find_named m (dr_nicknames d)) ∧
    sends (en_on_servers sv_touch (en_on_servers (on_policies <[root := sign_draft d' now_ms]>) s)) s'.
Proof.
  unfold set_member_nickname. intros Hs. apply st_bind_Some in Hs as [(u & s0 & Hu & Hs)|(e & Hu & _)].
  2: { left. unfold st_reject in Hu. by injection Hu. }
  unfold st_reject in Hu. injection Hu as _ <-.
  apply st_bind_Some in Hs as [(d & s1 & Hd & Hs)|(e & Hd & _)].
  2: { left. by apply policy_draft_spec in Hd as [-> _]. }
  pose proof Hd as Hd'. apply policy_draft_spec in Hd' as [-> _].
  apply commit_policy_effect in Hs as [(_ & -> & _)|(_ & _ & Hs)]; [by left|right].
  match type of Hs with context[sign_draft ?x] => exists d, x end. split_and!; [done|by destruct d| |done].
  intros m Hm. destruct name as [n|]; [by apply find_named_other|by apply find_named_dropped].
Qed.

Lemma handle_nickname_request_effect from cid name now_ms s r s' :
  handle_nickname_request from cid name now_ms s = Some (r, s') →
  control_effect from (NicknameRequest cid name) now_ms s s'.
Proof.
  unfold handle_nickname_request. rewrite st_get_bind.
  destruct (channel_at s cid) as [ch|] eqn:Ec; [|intros [= _ <-]; by apply effect_same].
  destruct (is_hosted s (root_of ch)) eqn:Eh; cbn [negb]; [|intros [= _ <-]; by apply effect_same].
  destruct (id_of_key from) as [m|] eqn:Ei; [|intros [= _ <-]; by apply effect_same].
  case_bool_decide as Hm; cbn [negb]; [|intros [= _ <-]; by apply effect_same].
  destruct (from_option _ _ _); [intros [= _ <-]; by apply effect_same|].
  intros Hs. apply set_member_nickname_effect in Hs as [->|(d & d' & Hd & Ed & Hn & [HS HC HQ])]; [by apply effect_same|].
  constructor; unfold policy_at, hosted_at, channel_at; rewrite ?HS, ?HC; [|by left|intros c; apply session_same|done].
  intros root. cbn. destruct (decide (root = root_of ch)) as [->|Hr]; [|left; by apply lookup_insert_ne].
  right. eapply (Nicknamed _ _ _ _ cid name ch m d d' now_ms); try done.
  unfold policy_at. rewrite HS. cbn. apply lookup_insert_eq.
Qed.

Lemma quietly_inv (m : Op W unit) s r s' : quietly m s = Some (r, s') → ∃ r1, m s = Some (r1, s').
Proof.
  unfold quietly. rewrite st_bind_Some. intros [(u & s1 & Hm & [= _ <-])|(e & Hm & _)]; eauto.
Qed.

Lemma handle_history_effect from cid entries now_ms s r s' :
  handle_history from cid entries s = Some (r, s') → control_effect from (History cid entries) now_ms s s'.
Proof.
  unfold handle_history. rewrite st_get_bind. destruct (_ && _); intros [= _ <-]; by apply effect_same.
Qed.
Lemma handle_invite_effect from cid cname sname now_ms s r s' :
  handle_invite from cid cname sname s = Some (r, s') → control_effect from (Channel.Invite cid cname sname) now_ms s s'.
Proof.
  unfold handle_invite. rewrite st_get_bind. destruct (_ || _); intros [= _ <-]; by apply effect_same.
Qed.

(** Every control message stays within the authority of its sender. *)
Lemma control_within from blob c now_ms s r s' :
  control_decode blob = Ok c → handle_channel_control from blob now_ms s = Some (r, s') →
  control_effect from c now_ms s s'.
Proof.
  unfold handle_channel_control. intros ->. unfold st_bind at 1, st_lift at 1. cbn [map_err].
  destruct c; intros Hs.
  all: try (apply quietly_inv in Hs as [r1 Hs]).
  - by eapply handle_welcome_effect.
  - by eapply handle_redeem_effect.
  - by eapply handle_policy_effect.
  - by eapply handle_kick_request_effect.
  - by eapply handle_nickname_request_effect.
  - by eapply handle_leave_effect.
  - by eapply handle_closed_effect.
  - by eapply handle_renamed_effect.
  - by eapply handle_history_effect.
  - by eapply handle_invite_effect.
  - by eapply handle_invite_accept_effect.
  - injection Hs as _ <-. by apply effect_same.
Qed.

Lemma control_garbage from blob e now_ms s r s' :
  control_decode blob = Err e → handle_channel_control from blob now_ms s = Some (r, s') → s' = s ∧ r = Err (CoWire e).
Proof. unfold handle_channel_control. intros ->. by intros [= <- <-]. Qed.

(** The arm of channel control is one that the polling of direct messages
    allows. *)
Lemma control_reports from blob now_ms s out s' :
  handle_channel_control from blob now_ms s = Some (Ok out, s') →
  Forall (λ i, match i with InMessage _ _ _ | InFile _ _ _ => False | _ => True end) out.
Proof.
  unfold handle_channel_control. destruct (control_decode blob) as [c|]; [|done].
  unfold st_bind at 1, st_lift at 1. cbn [map_err].
  assert (Hq : ∀ m : Op W unit, quietly m s = Some (Ok out, s') → Forall (λ i, match i with
    InMessage _ _ _ | InFile _ _ _ => False | _ => True end) out).
  { intros m. unfold quietly. rewrite st_bind_Ok. by intros (u & s1 & _ & [= <- _]). }
  destruct c; try (intros Hs; by eapply Hq).
  - unfold handle_history. rewrite st_get_bind. destruct (_ && _); intros [= <- _]; by repeat constructor.
  - unfold handle_invite. rewrite st_get_bind. destruct (_ || _); intros [= <- _]; by repeat constructor.
Qed.

Lemma control_arm_frame calls : rest_frame calls → rest_frame (control_arm calls).
Proof.
  intros Hc v from c now_ms d w out d' w'. case c; try (intros; by eapply Hc). intros blob. cbn [control_arm].
  destruct (handle_channel_control _ _ _ _) as [[res s']|] eqn:E; [|done]. intros [= <- <- _].
  destruct (control_decode blob) as [c'|e] eqn:Ed.
  - split; [exact (ef_quiet _ _ _ _ _ (control_within _ _ _ _ _ _ _ Ed E))|].
    destruct res; [by eapply control_reports|constructor].
  - destruct (control_garbage _ _ _ _ _ _ _ Ed E) as [Es Er]. rewrite Es, Er. split; [apply quiet_refl|constructor].
Qed.
End authority.
