(* ===== verification/ServerLinks.v ===== *)
(** * Invite links are used at most as often as they allow
    The count that [handle_redeem] stays per link, over any run of control
    messages. *)

From S2P Require Import Prelude Utf8 Enc Crypto ProtoRecord IdentityRecords Server Ledger X3dh Content Mailbox Wire Roles Invite Channel LocalStore Mls Sync ClientMessages ClientChannels ClientDm ClientPeers ClientDmProofs Servers ServerPolicies ServerControl ServerProofs ServerControlProofs.

Section links.
Context `{CryptoPrims, Openmls, !Env}.
Context {W : Type} `{!Connection W}.
Implicit Types s : Engine W.

Definition uses s (nonce : bytes) : N := default 0%N (sv_invite_uses (en_servers s) !! nonce).

Definition same_uses s s' : Prop := sv_invite_uses (en_servers s') = sv_invite_uses (en_servers s).
#[export] Instance same_uses_preorder : PreOrder same_uses.
Proof. split; [done|]. unfold same_uses. intros a b c; congruence. Qed.

(** ** Only redeeming counts *)
Lemma uses_of_sends {A} (m : Op W A) : stays sends m → stays same_uses m.
Proof. apply stays_weaken. intros s s' [E _ _]. unfold same_uses. by rewrite E. Qed.
Lemma uses_of_changes {A} (m : Op W A) C : stays (changes C) m → stays same_uses m.
Proof. apply stays_weaken. intros s s' [E _ _ _ _]. unfold admin in E. by injection E. Qed.
Lemma on_channels_uses f : stays same_uses (on_channels f).
Proof. by intros s r s' [= _ <-]. Qed.
Lemma on_servers_uses f : (∀ v, sv_invite_uses (f v) = sv_invite_uses v) → stays same_uses (on_servers f).
Proof. intros Hf s r s' [= _ <-]. apply Hf. Qed.


Lemma kick_uses root m ban now_ms : stays same_uses (kick_from_server root m ban now_ms).
Proof.
  intros s r s' [->|(h & s1 & _ & [E _ _ _ _] & _ & ->)]%kick_effect; [done|].
  unfold admin in E. injection E as _ _ _ _ E. unfold same_uses. by destruct ban.
Qed.
Lemma nickname_uses root m n now_ms : stays same_uses (set_member_nickname root m n now_ms).
Proof.
  intros s r s' [->|(d & d' & _ & _ & _ & [E _ _])]%set_member_nickname_effect; [done|]. unfold same_uses. by rewrite E.
Qed.
Lemma add_readmit_uses cid member now_ms :
  stays same_uses (do! _ := mls_add_member cid member now_ms in readmit cid member).
Proof. apply (uses_of_changes _ [cid]). intros s r s' Hs. by apply add_readmit in Hs as [? _]. Qed.
Lemma remove_uses cid member now_ms : stays same_uses (remove_from_channel cid member now_ms).
Proof. apply (uses_of_changes _ [cid]), remove_from_channel_changes. by left. Qed.
End links.

#[export] Hint Resolve on_channels_uses remove_uses kick_uses nickname_uses add_readmit_uses : stays.
#[export] Hint Extern 2 (stays same_uses (on_servers _)) => (by apply on_servers_uses) : stays.
#[export] Hint Extern 2 (stays same_uses mark_dirty) => (by apply on_servers_uses) : stays.
#[export] Hint Extern 3 (stays same_uses _) => (apply (uses_of_changes _ []); apply refresh_changes) : stays.

Section runs.
Context `{CryptoPrims, Openmls, !Env}.
Context {W : Type} `{!Connection W}.
Implicit Types s : Engine W.

(** A handler that is not [handle_redeem] counts nothing. *)
Lemma control_uses from blob c now_ms s r s' :
  control_decode blob = Ok c → handle_channel_control from blob now_ms s = Some (r, s') →
  (same_uses s s' ∧ ∀ token pw, c = Redeem token pw → s' = s) ∨
  ∃ token pw t ch, c = Redeem token pw ∧ token_decode token = Ok t ∧ link_honoured s t pw now_ms ch ∧
    same_uses (counted t s) s'.
Proof.
  unfold handle_channel_control. intros ->. unfold st_bind at 1, st_lift at 1. cbn [map_err].
  destruct c; intros Hs.
  2: { apply quietly_inv in Hs as [r1 Hs]. apply redeem_cases in Hs as [->|(t & ch & member & Et & Hl & _ & Hs)]; [by left|].
    right. exists token, pw, t, ch. split_and!; [done..|]. by apply add_readmit_uses in Hs. }
  all: left; split; [|done]; revert Hs; generalize s, r, s'; fold (stays (E:=CoreError) (same_uses (W:=W)) (A:=list Inbound)).
  all: unfold quietly, handle_welcome, handle_policy, handle_kick_request, handle_nickname_request, handle_leave,
    handle_closed, handle_renamed, handle_history, handle_invite, handle_invite_accept, drop_stale_policy, drop_channel.
  all: match goal with |- ∀ s r s', ?m s = Some (r, s') → _ => change (stays same_uses m) end; stays.
Qed.

(** ** Runs *)

(** The members of some channel changed. *)
Definition regroups s s' : Prop :=
  ∃ cid ch ch', channel_at s cid = Some ch ∧ channel_at s' cid = Some ch' ∧
    (cs_mls ch' ≠ cs_mls ch ∨ cs_roster ch' ≠ cs_roster ch).

(** The message redeems a link with this nonce, and somebody is added. *)
Definition admits (nonce blob : bytes) s s' : Prop :=
  ∃ token pw t, control_decode blob = Ok (Redeem token pw) ∧ token_decode token = Ok t ∧ tk_nonce t = nonce ∧
    regroups s s'.

(** Control messages from anybody, one after the other, of which [k] admit by
    a link with this nonce. *)
Inductive run (nonce : bytes) : list bytes → N → Engine W → Engine W → Prop :=
  | run_start s : run nonce [] 0 s s
  | run_admit blobs k s s1 from blob now_ms r s2 :
      run nonce blobs k s s1 → handle_channel_control from blob now_ms s1 = Some (r, s2) → admits nonce blob s1 s2 →
      run nonce (blobs ++ [blob]) (k + 1) s s2
  | run_other blobs k s s1 from blob now_ms r s2 :
      run nonce blobs k s s1 → handle_channel_control from blob now_ms s1 = Some (r, s2) → ¬ admits nonce blob s1 s2 →
      run nonce (blobs ++ [blob]) k s s2.

(** The link of the message, where it carries this nonce and a valid
    signature, allows at most [M] uses. *)
Definition limited (nonce : bytes) (M : N) (blob : bytes) : Prop := ∀ token pw t,
  control_decode blob = Ok (Redeem token pw) → token_decode token = Ok t → token_verify t = Ok tt → tk_nonce t = nonce →
  (0 < tk_max_uses t ≤ M)%N.

Lemma uses_counted t s : uses (counted t s) (tk_nonce t) = wrap32 (uses s (tk_nonce t) + 1).
Proof. unfold uses, counted. cbn. by rewrite lookup_insert_eq. Qed.
Lemma uses_counted_ne t s n : n ≠ tk_nonce t → uses (counted t s) n = uses s n.
Proof. intros Hn. unfold uses, counted. cbn. by rewrite lookup_insert_ne. Qed.

(** One message counts at most one use, and at least one if it admits. *)
Lemma control_counts from blob now_ms s r s' n M :
  handle_channel_control from blob now_ms s = Some (r, s') → limited n M blob → (M ≤ u32_max)%N → (uses s n ≤ M)%N →
  (uses s n ≤ uses s' n ≤ M)%N ∧ (admits n blob s s' → (uses s n + 1 ≤ uses s' n)%N).
Proof.
  intros Hs Hlim HM Hu. destruct (control_decode blob) as [c|e] eqn:Ed.
  2: { destruct (control_garbage _ _ _ _ _ _ _ Ed Hs) as [-> _]. split; [lia|].
       intros (tk & pw & t & E & _). congruence. }
  apply (control_uses _ _ _ _ _ _ _ Ed) in Hs as [[E Hr]|(token & pw & t & ch & -> & Et & Hl & E)].
  - assert (Eu : uses s' n = uses s n) by (unfold uses; by rewrite E). rewrite Eu. split; [lia|].
    intros (tk & pw & t & E' & _ & _ & Hreg). rewrite Ed in E'. injection E' as ->.
    destruct Hreg as (cid & ch & ch' & H1' & H2' & H3'). rewrite (Hr _ _ eq_refl) in H2'. rewrite H1' in H2'.
    injection H2' as <-. by destruct H3'.
  - assert (Eu : uses s' n = uses (counted t s) n) by (unfold uses; by rewrite E). rewrite Eu.
    destruct (decide (n = tk_nonce t)) as [->|Hn].
    2: { rewrite uses_counted_ne by done. split; [lia|]. intros (tk & pw' & t' & E' & Et' & Hn' & _). congruence. }
    destruct Hl as (Hv & _ & _ & _ & _ & _ & Hmax).
    assert (Hm : (0 < tk_max_uses t ≤ M)%N) by by eapply Hlim.
    rewrite uses_counted. change (default 0%N (sv_invite_uses (en_servers s) !! tk_nonce t)) with (uses s (tk_nonce t)) in Hmax.
    destruct Hmax as [Hz|Hlt]; [lia|]. unfold wrap32. rewrite N.mod_small by (unfold u32_max in HM; lia). lia.
Qed.
End runs.
