(* ===== verification/ServerPolicyProofs.v ===== *)
(** * What changes of a policy do
    The lists behind roles, assignments and shortcodes as maps, the pure edit
    that each operation makes of a policy, and what every edit preserves. *)

From S2P Require Import Prelude Utf8 Enc Crypto ProtoRecord IdentityRecords Server Ledger X3dh Content Mailbox Wire WireProofs Roles RolesProofs Invite Channel LocalStore Mls Sync ClientMessages ClientChannels ClientDm ClientPeers ClientDmProofs Servers ServerPolicies ServerControl ServerProofs.

(** ** Lists of pairs as maps *)
Section assoc.
Context {A : Type}.
Implicit Types l : list (bytes * A).

Definition assoc (key : bytes) (l : list (bytes * A)) : option A := snd <$> find (λ p, bool_decide (p.1 = key)) l.

Arguments assoc : simpl never.

Lemma assoc_cons key k v l : assoc key ((k, v) :: l) = if bool_decide (k = key) then Some v else assoc key l.
Proof. unfold assoc. cbn. by case_bool_decide. Qed.

Lemma assoc_upsert key f new l m :
  assoc m (upsert key f new l) =
    if bool_decide (m = key) then match assoc key l with Some v => Some (f v) | None => new end else assoc m l.
Proof.
  induction l as [|[k v] l IH].
  - cbn. destruct new as [v|]; [rewrite assoc_cons|]; repeat case_bool_decide; subst; done.
  - cbn [upsert]. rewrite !assoc_cons. destruct (decide (k = key)) as [->|Hk].
    + rewrite (bool_decide_true (key = key)) by done. rewrite assoc_cons. repeat case_bool_decide; subst; done.
    + rewrite (bool_decide_false (k = key)) by done. rewrite assoc_cons, IH. repeat case_bool_decide; subst; done.
Qed.

Lemma assoc_None key l : key ∉ l.*1 ↔ assoc key l = None.
Proof.
  induction l as [|[k v] l IH]; [split; [done|set_solver]|]. rewrite assoc_cons. cbn. case_bool_decide.
  - subst. split; [set_solver|done].
  - rewrite <- IH. set_solver.
Qed.

Lemma keys_upsert key f new l :
  (upsert key f new l).*1 = l.*1 ∨ key ∉ l.*1 ∧ is_Some new ∧ (upsert key f new l).*1 = l.*1 ++ [key].
Proof.
  induction l as [|[k v] l IH]; cbn.
  - destruct new; [right; split_and!; [set_solver|done|done]|by left].
  - destruct (decide (k = key)) as [->|Hk]; [rewrite bool_decide_true by done; by left|].
    rewrite bool_decide_false by done. cbn. destruct IH as [->|(Hn & Hs & ->)]; [by left|right].
    split_and!; [set_solver|done|done].
Qed.

Lemma NoDup_upsert key f new l : NoDup l.*1 → NoDup (upsert key f new l).*1.
Proof.
  intros Hn. destruct (keys_upsert key f new l) as [->|(Hk & _ & ->)]; [done|].
  apply list.NoDup_app. split_and!; [done| |by apply list.NoDup_singleton]. intros x Hx ->%list_elem_of_singleton. done.
Qed.

(** Leaving out entries, with keys unique. *)
Lemma assoc_filter (keep : bytes * A → bool) l m :
  NoDup l.*1 → assoc m (List.filter keep l) = (v ← assoc m l; if keep (m, v) then Some v else None).
Proof.
  induction l as [|[k v] l IH]; [done|]. cbn. intros [Hk Hn]%list.NoDup_cons. rewrite assoc_cons.
  destruct (decide (k = m)) as [->|Hm].
  - rewrite (bool_decide_true (m = m)) by done. cbn. destruct (keep (m, v)); [by rewrite assoc_cons, bool_decide_true|].
    rewrite IH by done. by rewrite (proj1 (assoc_None m l) Hk).
  - rewrite (bool_decide_false (k = m)) by done. destruct (keep (k, v)); [rewrite assoc_cons, bool_decide_false by done|]; by apply IH.
Qed.

Lemma NoDup_filter_keys (keep : bytes * A → bool) l : NoDup l.*1 → NoDup (List.filter keep l).*1.
Proof.
  induction l as [|[k v] l IH]; [done|]. cbn. intros [Hk Hn]%list.NoDup_cons. destruct (keep (k, v)); cbn; [|by apply IH].
  apply list.NoDup_cons. split; [|by apply IH]. intros Hin. apply Hk.
  apply list_elem_of_fmap in Hin as ([k' v'] & -> & Hf). apply list_elem_of_In, filter_In in Hf as [Hf _].
  apply list_elem_of_fmap. exists (k', v'). split; [done|by apply list_elem_of_In].
Qed.

Lemma length_upsert key f new l :
  length (upsert key f new l) = length l ∨ key ∉ l.*1 ∧ length (upsert key f new l) = S (length l).
Proof.
  destruct (keys_upsert key f new l) as [E|(Hk & _ & E)]; [left|right; split; [done|]];
    apply (f_equal length) in E; rewrite ?length_app, !length_fmap in E; cbn in E; lia.
Qed.

Lemma Forall_upsert (P : bytes * A → Prop) key f new l :
  Forall P l → (∀ v, (key, v) ∈ l → P (key, v) → P (key, f v)) → (∀ v, new = Some v → P (key, v)) →
  Forall P (upsert key f new l).
Proof.
  intros Hl Hf Hnew. induction Hl as [|[k v] l Hp Hl IH]; cbn.
  - destruct new as [v|]; [constructor; [by apply Hnew|constructor]|constructor].
  - destruct (decide (k = key)) as [->|Hk]; [rewrite bool_decide_true by done|rewrite bool_decide_false by done]; constructor; auto.
    + apply Hf; [by left|done].
    + apply IH. intros v' Hv. apply Hf. by right.
Qed.

Lemma Forall_filter_bool {B} (P : B → Prop) (keep : B → bool) (l : list B) : Forall P l → Forall P (List.filter keep l).
Proof. induction 1; cbn; [constructor|]. case_match; [by constructor|done]. Qed.

Lemma names_spec key l : names key l = true ↔ key ∈ l.*1.
Proof.
  unfold names. rewrite existsb_exists, list_elem_of_fmap. split.
  - intros ([k v] & Hin & E%bool_decide_eq_true). exists (k, v). split; [done|by apply list_elem_of_In].
  - intros ([k v] & -> & Hin). exists (k, v). split; [by apply list_elem_of_In|by apply bool_decide_eq_true].
Qed.
End assoc.

(** ** Roles and who holds them *)
Definition role_of (p : ServerPolicy) (i : N) : option Role := find (λ r, (rl_id r =? i)%N) (sp_roles p).
Definition holds (p : ServerPolicy) (m : bytes) (i : N) : Prop := i ∈ default [] (assigned p m).

Lemma find_set_role i n a d k ic l j :
  find (λ r, (rl_id r =? j)%N) (set_role_in i n a d k ic l) =
    if (j =? i)%N then Some (mkRole i n a d k ic) else find (λ r, (rl_id r =? j)%N) l.
Proof.
  induction l as [|r l IH]; cbn.
  - rewrite (N.eqb_sym i j). by destruct (j =? i)%N.
  - destruct (N.eqb_spec (rl_id r) i) as [E|E]; cbn.
    + rewrite E. rewrite (N.eqb_sym i j). by destruct (j =? i)%N.
    + rewrite IH. destruct (N.eqb_spec (rl_id r) j); [|done]. subst j. by destruct (N.eqb_spec (rl_id r) i).
Qed.

Lemma find_delete_role i l j :
  find (λ r, (rl_id r =? j)%N) (List.filter (λ r, negb (rl_id r =? i)%N) l) =
    if (j =? i)%N then None else find (λ r, (rl_id r =? j)%N) l.
Proof.
  induction l as [|r l IH]; cbn; [by destruct (j =? i)%N|].
  destruct (N.eqb_spec (rl_id r) i) as [E|E]; cbn; rewrite IH.
  - destruct (N.eqb_spec j i) as [|Hj]; [done|]. destruct (N.eqb_spec (rl_id r) j); [congruence|done].
  - destruct (N.eqb_spec (rl_id r) j) as [Hj|Hj]; [|done]. destruct (N.eqb_spec j i); [congruence|done].
Qed.

(** Assignments without empty entries are the same assignments. *)
Lemma assigned_unassigned l m : NoDup l.*1 → default [] (assoc m (drop_unassigned l)) = default [] (assoc m l).
Proof.
  intros Hn. unfold drop_unassigned. rewrite assoc_filter by done. destruct (assoc m l) as [[|]|]; done.
Qed.

Lemma assoc_strip (f : list N → list N) l m : assoc m ((λ p : bytes * list N, (p.1, f p.2)) <$> l) = f <$> assoc m l.
Proof. induction l as [|[k v] l IH]; [done|]. cbn [fmap list_fmap fst snd]. rewrite !assoc_cons. by case_bool_decide. Qed.
Lemma keys_strip (f : list N → list N) l : ((λ p : bytes * list N, (p.1, f p.2)) <$> l).*1 = l.*1.
Proof. induction l as [|[k v] l IH]; [done|]. cbn. by f_equal. Qed.
Lemma elem_filter_ne (i j : N) l : j ∈ List.filter (λ i', negb (i' =? i)%N) l ↔ j ∈ l ∧ j ≠ i.
Proof. rewrite !list_elem_of_In, filter_In, negb_true_iff, N.eqb_neq. done. Qed.

(** ** The edits *)
Inductive PolicyOp : Type :=
  | OpSetRole (id : option N) (name : bytes) (allow deny rank : N) (icon : option bytes)
  | OpDeleteRole (role_id : N)
  | OpAssignRole (member : bytes) (role_id : N) (add : bool)
  | OpSetEmoji (name image : bytes)
  | OpRemoveEmoji (name : bytes)
  | OpSetSticker (name image : bytes)
  | OpRemoveSticker (name : bytes)
  | OpSetSound (name audio : bytes)
  | OpRemoveSound (name : bytes)
  | OpSetNickname (member : bytes) (nickname : option bytes).

Definition set_role_id (op : PolicyOp) (d : Draft) : N :=
  match op with OpSetRole (Some i) _ _ _ _ _ => i | _ => next_role_id (dr_roles d) end.

Section edits.
Context `{CryptoPrims, Openmls, !Env}.

Definition edit (op : PolicyOp) (d : Draft) : Draft :=
  match op with
  | OpSetRole _ name allow deny rank icon =>
    with_roles (set_role_in (set_role_id op d) name allow deny rank icon (dr_roles d)) (dr_assignments d) d
  | OpDeleteRole role_id =>
    with_roles (List.filter (λ r, negb (rl_id r =? role_id)%N) (dr_roles d))
      (drop_unassigned ((λ p : bytes * list N, (p.1, List.filter (λ i, negb (i =? role_id)%N) p.2)) <$> dr_assignments d)) d
  | OpAssignRole member role_id add =>
    with_roles (dr_roles d)
      (drop_unassigned (if add
         then upsert member (λ ids, if bool_decide (role_id ∈ ids) then ids else ids ++ [role_id]) (Some [role_id])
                (dr_assignments d)
         else upsert member (List.filter (λ i, negb (i =? role_id)%N)) None (dr_assignments d))) d
  | OpSetEmoji name image => with_emojis (put_named name (sha256 image) (dr_emojis d)) d
  | OpRemoveEmoji name => with_emojis (drop_named name (dr_emojis d)) d
  | OpSetSticker name image => with_stickers (put_named name (sha256 image) (dr_stickers d)) d
  | OpRemoveSticker name => with_stickers (drop_named name (dr_stickers d)) d
  | OpSetSound name audio => with_sounds (put_named name (sha256 audio) (dr_sounds d)) d
  | OpRemoveSound name => with_sounds (drop_named name (dr_sounds d)) d
  | OpSetNickname member nickname =>
    with_nicknames (match nickname with
                    | Some n => put_named member n (dr_nicknames d)
                    | None => drop_named member (dr_nicknames d)
                    end) d
  end.

(** What an operation asks of its arguments and of the policy. *)
Definition admissible (op : PolicyOp) (d : Draft) : Prop :=
  match op with
  | OpSetEmoji name _ => valid_emoji_name name = true ∧ names name (dr_stickers d) = false ∧
      names name (dr_sounds d) = false ∧ (names name (dr_emojis d) = true ∨ length (dr_emojis d) < MAX_SERVER_EMOJIS)
  | OpSetSticker name _ => valid_emoji_name name = true ∧ names name (dr_emojis d) = false ∧
      (names name (dr_stickers d) = true ∨ length (dr_stickers d) < MAX_SERVER_STICKERS)
  | OpSetSound name _ => valid_emoji_name name = true ∧ names name (dr_emojis d) = false ∧
      names name (dr_stickers d) = false ∧ (names name (dr_sounds d) = true ∨ length (dr_sounds d) < MAX_SERVER_SOUNDS)
  | OpAssignRole _ role_id true => existsb (λ r, (rl_id r =? role_id)%N) (dr_roles d) = true
  | OpSetNickname _ (Some n) => valid_nickname n = true
  | _ => True
  end.

Section world.
Context {W : Type} `{!Connection W}.
Implicit Types s : Engine W.

Definition run_policy_op (root : bytes) (op : PolicyOp) (now_ms : N) : Op W unit :=
  match op with
  | OpSetRole id name allow deny rank icon => do! _ := set_role root id name allow deny rank icon now_ms in st_ret tt
  | OpDeleteRole role_id => delete_role root role_id now_ms
  | OpAssignRole member role_id add => assign_role root member role_id add now_ms
  | OpSetEmoji name image => set_server_emoji root name image now_ms
  | OpRemoveEmoji name => remove_server_emoji root name now_ms
  | OpSetSticker name image => set_server_sticker root name image now_ms
  | OpRemoveSticker name => remove_server_sticker root name now_ms
  | OpSetSound name audio => set_server_sound root name audio now_ms
  | OpRemoveSound name => remove_server_sound root name now_ms
  | OpSetNickname member nickname => set_member_nickname root member nickname now_ms
  end.

Definition installed (root : bytes) (d : Draft) (now_ms : N) s : Engine W :=
  en_on_servers sv_touch (en_on_servers (on_policies <[root := sign_draft d now_ms]>) s).

(** Either nothing was changed but what a request changes, or the edited
    policy was installed and told. *)
Definition op_outcome (root : bytes) (op : PolicyOp) (now_ms : N) s (ok : bool) s' : Prop :=
  (ok = false ∧ sends s s') ∨
  (ok = true ∧ ∃ d s1, policy_draft root s = Some (Ok d, s) ∧ admissible op d ∧ icons_ok (edit op d) = true ∧ sends s s1 ∧
     tell (elements (members_of (installed root (edit op d) now_ms s1) root))
       (Policy (policy_encode (sign_draft (edit op d) now_ms))) now_ms (installed root (edit op d) now_ms s1) = Some (Ok tt, s')).

Lemma commit_policy_run root d now_ms s r s' :
  commit_policy root d now_ms s = Some (r, s') →
  (is_ok r = false ∧ s' = s) ∨
  (r = Ok tt ∧ icons_ok d = true ∧
   tell (elements (members_of (installed root d now_ms s) root)) (Policy (policy_encode (sign_draft d now_ms))) now_ms
     (installed root d now_ms s) = Some (Ok tt, s')).
Proof.
  unfold commit_policy. intros Hs. unfold st_bind at 1, st_reject in Hs. destruct (icons_ok d); cbn [negb] in Hs.
  2: { left. by injection Hs as <- <-. }
  right. change (broadcast_policy root now_ms (installed root d now_ms s) = Some (r, s')) in Hs.
  unfold broadcast_policy in Hs. rewrite st_get_bind in Hs.
  replace (policy_at (installed root d now_ms s) root) with (Some (sign_draft d now_ms)) in Hs
    by (symmetry; apply lookup_insert_eq).
  pose proof (tell_ok _ _ _ _ _ _ Hs) as ->. done.
Qed.

Lemma committed root op now_ms s s1 d r s' :
  policy_draft root s = Some (Ok d, s) → admissible op d → sends s s1 →
  commit_policy root (edit op d) now_ms s1 = Some (r, s') → op_outcome root op now_ms s (is_ok r) s'.
Proof.
  intros Hd Ha Hs1 [[-> ->]|(-> & Hi & Ht)]%commit_policy_run; [by left|]. right. split; [done|]. exists d, s1. done.
Qed.

(** A check before the draft, and the draft. *)
Lemma reject_inv {B} (c : bool) e (k : unit → Op W B) s r s' :
  st_bind (st_reject c e) k s = Some (r, s') → (is_ok r = false ∧ s' = s) ∨ (c = false ∧ k tt s = Some (r, s')).
Proof. unfold st_bind, st_reject. destruct c; [intros [= <- <-]; by left|by right]. Qed.
Lemma draft_inv {B} root (k : Draft → Op W B) s r s' :
  st_bind (policy_draft root) k s = Some (r, s') →
  (is_ok r = false ∧ s' = s) ∨ (∃ d, policy_draft root s = Some (Ok d, s) ∧ k d s = Some (r, s')).
Proof.
  intros [(d & s1 & Hd & Hs)|(e & Hd & ->)]%st_bind_Some; pose proof Hd as Hd'; apply policy_draft_spec in Hd as [-> _];
    [right; eauto|by left].
Qed.
Lemma put_inv {B} image (k : unit → Op W B) s r s' :
  st_bind (call (sync_put_blob nv_debug image)) k s = Some (r, s') →
  (is_ok r = false ∧ sends s s') ∨ (∃ s1, sends s s1 ∧ k tt s1 = Some (r, s')).
Proof.
  intros [([] & s1 & Hc & Hs)|(e & Hc & ->)]%st_bind_Some; apply call_sends in Hc; [right; eauto|by left].
Qed.
Lemma refused root op now_ms s ok s' : ok = false ∧ s' = s → op_outcome root op now_ms s ok s'.
Proof. intros [-> ->]. left. done. Qed.

Ltac op_steps := repeat match goal with
  | H : st_bind (st_reject _ _) _ _ = Some _ |- _ => apply reject_inv in H as [H|[? H]]; [by apply refused|]
  | H : st_bind (policy_draft _) _ _ = Some _ |- _ => apply draft_inv in H as [H|(? & ? & H)]; [by apply refused|]
  | H : st_bind (call (sync_put_blob _ _)) _ _ = Some _ |- _ => apply put_inv in H as [H|(? & ? & H)]; [by left|]
  end.

Lemma run_policy_op_outcome root op now_ms s r s' :
  run_policy_op root op now_ms s = Some (r, s') → op_outcome root op now_ms s (is_ok r) s'.
Proof.
  destruct op; cbn [run_policy_op]; intros Hs;
    unfold delete_role, assign_role, set_server_emoji, remove_server_emoji, set_server_sticker, remove_server_sticker,
      set_server_sound, remove_server_sound, set_member_nickname in Hs; op_steps.
  - unfold set_role in Hs. apply st_bind_Some in Hs as [(i & s1 & Hs & [= <- <-])|(e & Hs & ->)].
    + apply draft_inv in Hs as [[Hs _]|(d & Hd & Hs)]; [done|].
      apply st_bind_Ok in Hs as (u & s1' & Hs & [= _ <-]).
      assert (E : default (next_role_id (dr_roles d)) id = set_role_id (OpSetRole id name allow deny rank icon) d) by by destruct id.
      rewrite E in Hs. by apply (committed _ (OpSetRole id name allow deny rank icon) _ s s d) in Hs.
    + apply draft_inv in Hs as [Hs|(d & Hd & Hs)]; [by apply refused|].
      apply st_bind_Some in Hs as [(u & s1' & _ & [=])|(e' & Hs & [= ->])].
      assert (E : default (next_role_id (dr_roles d)) id = set_role_id (OpSetRole id name allow deny rank icon) d) by by destruct id.
      rewrite E in Hs. by apply (committed _ (OpSetRole id name allow deny rank icon) _ s s d) in Hs.
  - by eapply (committed _ (OpDeleteRole role_id)); [| |done|].
  - eapply (committed _ (OpAssignRole member role_id add)); [done| |done|done].
    destruct add; [|done]. by apply negb_false_iff.
  - eapply (committed _ (OpSetEmoji name image)); [done| |done|done].
    cbn. rewrite <- Nat.leb_gt. split_and!; [by apply negb_false_iff|done|done|]. 
    match goal with E : negb _ && _ = false |- _ => apply andb_false_iff in E as [E%negb_false_iff|E] end; auto.
  - by eapply (committed _ (OpRemoveEmoji name)).
  - eapply (committed _ (OpSetSticker name image)); [done| |done|done].
    cbn. rewrite <- Nat.leb_gt. split_and!; [by apply negb_false_iff|done|].
    match goal with E : negb (names _ _) && (_ <=? _) = false |- _ => apply andb_false_iff in E as [E%negb_false_iff|E] end; auto.
  - by eapply (committed _ (OpRemoveSticker name)).
  - match goal with E : names _ _ || names _ _ = false |- _ => apply orb_false_iff in E as [? ?] end.
    eapply (committed _ (OpSetSound name audio)); [done| |done|done].
    cbn. rewrite <- Nat.leb_gt. split_and!; [by apply negb_false_iff|done|done|].
    match goal with E : negb (names _ _) && (_ <=? _) = false |- _ => apply andb_false_iff in E as [E%negb_false_iff|E] end; auto.
  - by eapply (committed _ (OpRemoveSound name)).
  - eapply (committed _ (OpSetNickname member nickname)); [done| |done|done].
    destruct nickname; [|done]. by apply negb_false_iff.
Qed.
End world.
End edits.

(** ** What edits preserve *)
Section kept.
Context `{CryptoPrims, !CryptoLaws}.

Definition op_typed (op : PolicyOp) : Prop :=
  match op with
  | OpSetRole id name allow deny rank icon =>
    (∀ i, id = Some i → ok_u16 i) ∧ ok_str name ∧ ok_u32 allow ∧ ok_u32 deny ∧ ok_u16 rank ∧
    (∀ i, icon = Some i → ok_str i)
  | OpDeleteRole _ => True
  | OpAssignRole member role_id _ => ok_len 32 member ∧ ok_u16 role_id
  | OpSetEmoji name _ | OpSetSticker name _ | OpSetSound name _ => ok_str name
  | OpRemoveEmoji _ | OpRemoveSticker _ | OpRemoveSound _ => True
  | OpSetNickname member nickname => ok_len 32 member ∧ ∀ n, nickname = Some n → ok_str n
  end.

(** Draft lists within the field sizes, with room for one more entry where
    the code sets no limit. *)
Record draft_typed (d : Draft) : Prop := {
  dt_roles : Forall role_ok (dr_roles d);
  dt_assignments : Forall assignment_ok (dr_assignments d);
  dt_emojis : Forall named_ok (dr_emojis d);
  dt_stickers : Forall named_ok (dr_stickers d);
  dt_sounds : Forall named_ok (dr_sounds d);
  dt_nicknames : Forall nickname_ok (dr_nicknames d);
}.
Definition draft_room (d : Draft) : Prop :=
  (len (dr_roles d) + 1 < 2147483648)%N ∧ (len (dr_assignments d) + 1 < 4294967296)%N ∧
  (len (dr_nicknames d) + 1 < 4294967296)%N ∧ Forall (λ p : bytes * list N, len p.2 + 1 < 4294967296)%N (dr_assignments d).

(** One entry per member; the limits; shortcodes of emojis are neither
    stickers' nor sounds'. *)
Record draft_wf (d : Draft) : Prop := {
  dw_members : NoDup (dr_assignments d).*1;
  dw_emojis : length (dr_emojis d) ≤ MAX_SERVER_EMOJIS;
  dw_stickers : length (dr_stickers d) ≤ MAX_SERVER_STICKERS;
  dw_sounds : length (dr_sounds d) ≤ MAX_SERVER_SOUNDS;
  dw_sticker_names : ∀ n, n ∈ (dr_emojis d).*1 → n ∉ (dr_stickers d).*1;
  dw_sound_names : ∀ n, n ∈ (dr_emojis d).*1 → n ∉ (dr_sounds d).*1;
}.

Lemma sha256_ok x : ok_len 32 (sha256 x).
Proof. apply sha256_length. Qed.

Lemma set_role_typed i n a d k ic l :
  Forall role_ok l → role_ok (mkRole i n a d k ic) → Forall role_ok (set_role_in i n a d k ic l).
Proof.
  intros Hl Hr. induction Hl as [|r l Hp Hl IH]; cbn; [by constructor|].
  destruct (N.eqb_spec (rl_id r) i) as [E|_]; constructor; auto. by rewrite E.
Qed.
Lemma set_role_length i n a d k ic l : (len (set_role_in i n a d k ic l) ≤ len l + 1)%N.
Proof.
  induction l as [|r l IH]; cbn [set_role_in]; [done|]. destruct (rl_id r =? i)%N; rewrite !len_cons; lia.
Qed.
Lemma next_role_u16 l : ok_u16 (next_role_id l).
Proof. unfold next_role_id, ok_u16. apply N.mod_lt. done. Qed.

Lemma keys_put key v l n : n ∈ (put_named key v l).*1 ↔ n ∈ l.*1 ∨ n = key.
Proof.
  unfold put_named. destruct (keys_upsert key (λ _, v) (Some v) l) as [E|(Hk & _ & E)]; rewrite E; [|set_solver].
  split; [by left|]. intros [?|E']; [done|subst n]. apply dec_stable. intros Hn. apply assoc_None in Hn.
  pose proof (assoc_upsert key (λ _, v) (Some v) l key) as Hu. rewrite bool_decide_true, Hn in Hu by done.
  apply (proj2 (assoc_None key l)) in Hn. rewrite <- E in Hn. apply assoc_None in Hn. rewrite Hn in Hu. done.
Qed.
Lemma keys_dropped {A} key (l : list (bytes * A)) n : n ∈ (drop_named key l).*1 → n ∈ l.*1.
Proof.
  intros ([k v] & -> & Hin)%list_elem_of_fmap. apply list_elem_of_In, filter_In in Hin as [Hin _].
  apply list_elem_of_fmap. exists (k, v). split; [done|by apply list_elem_of_In].
Qed.
Lemma length_put (key v : bytes) l cap :
  (names key l = true ∨ length l < cap) → length l ≤ cap → length (put_named key v l) ≤ cap.
Proof.
  intros Hc Hl. unfold put_named. destruct (length_upsert key (λ _, v) (Some v) l) as [->|[Hk ->]]; [done|].
  destruct Hc as [Hn%names_spec|]; [done|lia].
Qed.
Lemma length_dropped {A} key (l : list (bytes * A)) : length (drop_named key l) ≤ length l.
Proof. unfold drop_named. induction l as [|x l IH]; cbn; [done|]. destruct (negb _); cbn; lia. Qed.
Lemma filter_len {A} (f : A → bool) l : (len (List.filter f l) ≤ len l)%N.
Proof. induction l as [|x l IH]; cbn; [done|]. destruct (f x); rewrite ?len_cons; lia. Qed.
Lemma names_false {A} key (l : list (bytes * A)) : names key l = false → key ∉ l.*1.
Proof. intros Hn Hin%names_spec. congruence. Qed.

Lemma edit_typed op d : op_typed op → admissible op d → draft_room d → draft_typed d → draft_typed (edit op d).
Proof.
  intros Ho Ha (_ & _ & _ & Hroom) [Hr Hs He Ht Hu Hn]. destruct op; cbn in Ho, Ha |- *; constructor; try assumption; cbn.
  - destruct Ho as (Hi & Hname & Hal & Hde & Hra & Hic). apply set_role_typed; [done|]. split_and!; try done; cbn.
    + destruct id; [by apply Hi|apply next_role_u16].
    + destruct icon; [by apply Hic|done].
  - by apply Forall_filter_bool.
  - apply Forall_filter_bool, Forall_fmap. eapply list.Forall_impl; [exact Hs|]. intros [m ids] [Hm [Hf Hids]].
    split; [done|]. split; [|by apply Forall_filter_bool]. unfold fits_u32 in *. cbn in *.
    pose proof (filter_len (λ i, negb (i =? role_id)%N) ids). lia.
  - apply Forall_filter_bool. destruct Ho as [Hm Hi]. destruct add; apply Forall_upsert; try done.
    + intros v Hin [_ [Hf Hids]]. split; [done|]. case_bool_decide; [by split|].
      split; [|apply Forall_app; split; [done|by constructor]].
      rewrite list.Forall_forall in Hroom. apply Hroom in Hin. change (len (v ++ [role_id]) < 4294967296)%N. by rewrite len_app.
    + intros v [= <-]. split; [done|]. split; [done|by constructor].
    + intros v _ [_ [Hf Hids]]. split; [done|]. split; [|by apply Forall_filter_bool]. unfold fits_u32 in *. cbn in *.
      pose proof (filter_len (λ i, negb (i =? role_id)%N) v). lia.
  - apply Forall_upsert; [done| |intros v [= <-]]; [intros v _ _|]; (split_and!; [done|by destruct Ha|apply sha256_ok]).
  - by apply Forall_filter_bool.
  - apply Forall_upsert; [done| |intros v [= <-]]; [intros v _ _|]; (split_and!; [done|by destruct Ha|apply sha256_ok]).
  - by apply Forall_filter_bool.
  - apply Forall_upsert; [done| |intros v [= <-]]; [intros v _ _|]; (split_and!; [done|by destruct Ha|apply sha256_ok]).
  - by apply Forall_filter_bool.
  - destruct Ho as [Hm Hni]. destruct nickname as [n|]; [|by apply Forall_filter_bool].
    apply Forall_upsert; [done| |intros v [= <-]]; [intros v _ _|]; (split_and!; [done|by apply Hni|done]).
Qed.
End kept.

Section kept_wf.
Context `{CryptoPrims, !CryptoLaws}.

Lemma upsert_none_length {A} key (f : A → A) l : length (upsert key f None l) = length l.
Proof. induction l as [|[k v] l IH]; cbn; [done|]. case_bool_decide; cbn; [done|by rewrite IH]. Qed.

Lemma edit_wf op d : admissible op d → draft_wf d → draft_wf (edit op d).
Proof.
  intros Ha [Hm He Ht Hu Hs Hn]. destruct op; cbn in Ha |- *; constructor; try assumption; cbn.
  - apply NoDup_filter_keys. by rewrite keys_strip.
  - apply NoDup_filter_keys. by destruct add; apply NoDup_upsert.
  - apply length_put; [by apply Ha|done].
  - intros n [Hin| ->]%keys_put; [by apply Hs|]. by apply names_false, Ha.
  - intros n [Hin| ->]%keys_put; [by apply Hn|]. by apply names_false, Ha.
  - pose proof (length_dropped name (dr_emojis d)). lia.
  - intros n Hin%keys_dropped. by apply Hs.
  - intros n Hin%keys_dropped. by apply Hn.
  - apply length_put; [by apply Ha|done].
  - intros n Hin [Hin'| ->]%keys_put; [by eapply Hs|]. exact (names_false _ _ (proj1 (proj2 Ha)) Hin).
  - pose proof (length_dropped name (dr_stickers d)). lia.
  - intros n Hin Hin'%keys_dropped. by eapply Hs.
  - apply length_put; [by apply Ha|done].
  - intros n Hin [Hin'| ->]%keys_put; [by eapply Hn|]. exact (names_false _ _ (proj1 (proj2 Ha)) Hin).
  - pose proof (length_dropped name (dr_sounds d)). lia.
  - intros n Hin Hin'%keys_dropped. by eapply Hn.
Qed.

(** The lists that grow without a limit grow by one entry at most. *)
Lemma edit_grows op d :
  (len (dr_roles (edit op d)) ≤ len (dr_roles d) + 1)%N ∧
  (len (dr_assignments (edit op d)) ≤ len (dr_assignments d) + 1)%N ∧
  (len (dr_nicknames (edit op d)) ≤ len (dr_nicknames d) + 1)%N.
Proof.
  assert (Hf : ∀ {A} (f : A → bool) l, (len (List.filter f l) ≤ len l + 1)%N) by (intros A f l; pose proof (filter_len f l); lia).
  assert (Hu : ∀ {A} key (f : A → A) new l, (len (upsert key f new l) ≤ len l + 1)%N).
  { intros A key f new l. unfold len. destruct (length_upsert key f new l) as [->|[_ ->]]; lia. }
  assert (Hl : ∀ (g : list N → list N) l, len ((λ p : bytes * list N, (p.1, g p.2)) <$> l) = len l) by (intros g l; unfold len; by rewrite length_fmap).
  destruct op; cbn; split_and!; try lia; try apply Hf; try apply Hu.
  - apply set_role_length.
  - etrans; [apply Hf|]. by rewrite Hl.
  - unfold drop_unassigned. etrans; [apply filter_len|]. destruct add; apply Hu.
  - destruct nickname; [apply Hu|apply Hf].
Qed.
End kept_wf.
