(* ===== verification/ServerDemo.v ===== *)
(** * A small server, for the witnesses
    A host with a channel of two members, over the toy primitives and the
    small instance of OpenMLS. *)

From S2P Require Import Prelude Utf8 Enc Crypto ProtoRecord IdentityRecords Server Ledger LedgerTheorems X3dh Content Mailbox RateLimit Wire RelayParts RelayChannels Relay RelayTheorems Roles Invite Channel LocalStore Mls MlsTheorems Sync ClientMessages ClientChannels ClientDm ClientPeers Servers ServerPolicies ServerControl.

Module ServerDemo.
Import LedgerDemo MlsDemo.
#[local] Existing Instance Toy.prims.

(** A relay that has one key package and takes everything. *)
Definition Desk : Type := bytes.
#[export] Instance desk : Connection Desk :=
  {| request := λ rq w,
       match rq with
       | RqGetKeyPackage _ => (Ok (RsKeyPackage (Some w)), w)
       | RqPostToChannel _ _ _ _ => (Ok (RsPosted 1), w)
       | RqGetPrekeys _ => (Err NE_Closed, w)
       | _ => (Ok RsOk, w)
       end |}.

Definition env (n : N) (l : Ledger MemoryStore) : Env := {|
  nv_view := mkView (mkIdentity (sk n) (sk n)) l ∅ ∅;
  nv_relay_addrs := [lit "relay:1"];
  nv_pow := mkDifficulty 32 1 8;
  nv_debug := λ _ _, [];
  nv_show_mls := λ _, ""%string;
  nv_dht := None;
  nv_signer := λ k, Ok k;
  nv_solve := λ _ _, pow;
|}.

Definition demo_root : bytes := key 9.
Definition hall : bytes := replicate 32 x07.
Definition mods : Role := mkRole 1 (lit "mods") PERM_KICK 0 5 None.
Definition policy (owner : bytes) : ServerPolicy :=
  policy_signed (sk 9) owner 3 [mods] [] [] [(lit "wave", sha256 (lit "w"))] [] [] 1000.
Definition nobody : Dm := mkDmState ∅ (mkSecrets [] []) [] ∅ [] ∅ [] 0 false.
Definition random : nat → bytes := λ n, replicate 32 (n2b (100 + N.of_nat n)).

(** The host [own] with the leaves of its channel and a world. *)
Definition host {W} (own : bytes) (n : N) (leaves : list (N * bytes * N)) (w : W) : Engine W :=
  let group := ToyMls.mkTGroup hall
    (list_to_map ((λ '(j, identity, k), (j, leaf identity k (sk (10 + k)))) <$> leaves)) 0 4 in
  let mls := mkMember ∅ (sk (10 + n)) (leaf own n (sk (10 + n))) own group in
  let info := mkInfo demo_root (lit "maps") hall (lit "hall") false own false in
  mkEngine
    (mkServers {[ demo_root := policy own ]}
       {[ demo_root := mkHosted (lit "maps") (sk 9) [hall] None None ∅ pow ]} ∅ ∅ ∅ [] ∅ false)
    (mkEngineChannels {[ hall := mkChannelSession info mls (list_to_set ((λ x, x.1.2) <$> leaves)) 0 ∅ None ]} ∅ ∅ [] book_empty)
    nobody w random.

(** Bob hosts; Ada, whose identity the ledger has, may come in by a link. *)
Definition bobs (leaves : list (N * bytes * N)) : Engine Desk :=
  host bob 7 leaves (put (lf_credential (leaf ada 1 (sk 13))) [] ++ sk 13).
Definition alone : Engine Desk := bobs [(0, bob, 7)]%N.
Definition both : Engine Desk := bobs [(0, bob, 7); (1, ada, 1)]%N.
Definition link : InviteToken := token_mint (sk 9) bob hall (lit "relay:1") 5000 1 (replicate 8 x4c).
Definition redeems : bytes := control_encode (Redeem (token_encode link) []).

Definition after {W A} (r : option (result A CoreError * Engine W)) (s : Engine W) : Engine W :=
  match r with Some (_, s) => s | None => s end.
End ServerDemo.

(** What a step of the demo comes to, from checks that compute. *)
Lemma ran {W A} (m : option (result A CoreError * Engine W)) s :
  match m with Some _ => true | None => false end = true → ∃ r, m = Some (r, ServerDemo.after m s).
Proof. destruct m as [[r s']|]; [|done]. by exists r. Qed.
Lemma ran_ok {W} (m : option (result unit CoreError * Engine W)) s :
  match m with Some (Ok tt, _) => true | _ => false end = true → m = Some (Ok tt, ServerDemo.after m s).
Proof. by destruct m as [[[[]|] s']|]. Qed.

Section examples.
Import Toy LedgerDemo MlsDemo ServerDemo.
#[local] Existing Instance Toy.prims.
#[local] Instance bobs_env : Env := env 7 l3.

Definition roster_in {W} (s : Engine W) : list bytes :=
  match channel_at s hall with Some ch => elements (cs_roster ch) | None => [] end.
Definition then_do {A} (m : Op Desk A) (s : Engine Desk) : Engine Desk := after (m s) s.
Definition redeem : Op Desk (list Inbound) := handle_channel_control (key 1) redeems 60.

(** A member that redeems a link again has a second leaf, and stays when the
    host kicks it: only the first leaf is removed. *)
Example second_leaf_survives_a_kick :
  let s := then_do (kick_from_server demo_root ada false 70) (then_do redeem both) in
  bool_decide (roster_in s ≡ₚ [ada; bob]) = true.
Proof. vm_compute. reflexivity. Qed.

(** A join password set to the empty text can be neither changed nor removed. *)
Example empty_join_password_is_for_ever :
  let set p q := set_join_password demo_root p q in
  let s := then_do (set (Some []) None) both in
  (fst <$> set (Some (lit "new")) (Some []) s, fst <$> set None (Some []) s, fst <$> set None None s) =
  (let no := Some (Err (CoChannel "current join password does not match")) in (no, no, no)).
Proof. vm_compute. reflexivity. Qed.

(** A sticker may take the name of a sound, a sound not that of a sticker. *)
Example sticker_takes_the_name_of_a_sound :
  let png := [x89; x50; x4e; x47; x0d; x0a; x1a; x0a] in
  let s := then_do (set_server_sound demo_root (lit "boo") (lit "OggS") 60) both in
  fst <$> set_server_sticker demo_root (lit "boo") png 70 s = Some (Ok tt) ∧
  fst <$> set_server_sound demo_root (lit "wave") (lit "OggS") 70 both =
    Some (Err (CoChannel "an emoji or sticker already uses that name")).
Proof. vm_compute. split; reflexivity. Qed.
End examples.
