(* ===== verification/ServerTheorems.v ===== *)
(** * Servers: what holds
    Authority over channels, bans and policies; how often a link is used; the
    exact effect of role changes; that every member adopts what the host
    signs; that a removed member is shut out. *)

From S2P Require Import Prelude Utf8 Enc Crypto ProtoRecord IdentityRecords Server Ledger LedgerTheorems X3dh Content Mailbox Wire WireProofs RelayParts RelayChannels ChannelProofs Relay RelayProofs Roles RolesProofs Invite Channel LocalStore ClientTheorems Mls MlsTheorems Sync ClientMessages ClientChannels ClientDm ClientPeers ClientDmProofs Servers ServerPolicies ServerControl ServerProofs ServerControlProofs ServerLinks ServerPolicyProofs ServerDemo.

Section control.
Context `{CryptoPrims, Openmls, !Env}.
Context {W : Type} `{!Connection W}.
Implicit Types s : Engine W.

(** C21: Nobody changes more than he may.  Whatever bytes an authenticated peer
    sends as a control message, afterwards: every policy is the one before, or
    a newer one signed by the server's root, or one in which the host changed
    the sender's own nickname, or forgotten because the server's host closed
    its last channel; no ban list changed but by a ban that a holder of the
    ban permission asked for; no channel appeared but by a Welcome that the
    client had a key package for and no member of which the ledger objects to;
    none disappeared or changed its name but by its host; and the members of a
    channel changed only for an invited identity that accepts, a valid link, a
    member that leaves, or a kick by one who may.  No conversation is touched. *)
Theorem control_authority from blob now_ms s r s' :
  handle_channel_control from blob now_ms s = Some (r, s') →
  match control_decode blob with
  | Ok c => control_effect from c now_ms s s'
  | Err e => s' = s ∧ r = Err (CoWire e)
  end.
Proof.
  intros Hs. destruct (control_decode blob) as [c|e] eqn:Ed; [by eapply control_within|by eapply control_garbage].
Qed.

(** C25: An invite link admits at most as often as it says.  Over any sequence
    of control messages from anybody, of which those that redeem valid links
    with one nonce allow at most M uses, the admissions by these links and the
    count before are together at most M. *)
Theorem link_uses_bounded n M blobs k s s' :
  run n blobs k s s' → Forall (limited n M) blobs → (M ≤ u32_max)%N → (uses s n ≤ M)%N →
  (uses s n + k ≤ uses s' n ≤ M)%N.
Proof.
  intros Hrun Hlim HM Hu. revert Hlim.
  induction Hrun as [|blobs k s s1 f b t r s2 Hrun IH Hs Ha|blobs k s s1 f b t r s2 Hrun IH Hs Ha];
    intros Hlim; [lia|..].
  all: apply Forall_app in Hlim as [Hlim Hb]; apply list.Forall_cons_1 in Hb as [Hb _]; specialize (IH Hu Hlim).
  all: destruct (control_counts _ _ _ _ _ _ n M Hs Hb HM) as [Hc Hadm]; [lia|].
  - specialize (Hadm Ha). lia.
  - lia.
Qed.
End control.

(** ** Policies *)
Section policies.
Context `{CryptoPrims, !CryptoLaws, !SignLaws, Openmls, !Env}.
Context {W : Type} `{!Connection W}.
Implicit Types s : Engine W.

Definition draft_of (root_secret : bytes) (p : ServerPolicy) : Draft :=
  mkDraft (sp_roles p) (sp_assignments p) (sp_emojis p) (sp_stickers p) (sp_sounds p) (sp_nicknames p)
    (sp_owner_id p) (sp_version p) root_secret.

(** A server hosted here, with a policy that members can read. *)
Record hosts s (root : bytes) (h : HostedServer) (p : ServerPolicy) : Prop := {
  hs_hosted : hosted_at s root = Some h;
  hs_policy : policy_at s root = Some p;
  hs_secret : length (ho_root h) = 32%nat;
  hs_root : prim_vk_of_sk (ho_root h) = root;
  hs_owner : ok_len 32 (sp_owner_id p);
  hs_typed : draft_typed (draft_of (ho_root h) p);
  hs_wf : draft_wf (draft_of (ho_root h) p);
}.

Lemma hosts_draft s root h p : hosts s root h p → policy_draft root s = Some (Ok (draft_of (ho_root h) p), s).
Proof.
  intros [Hh Hp _ _ _ _ _]. unfold policy_draft, get_hosted, st_bind, st_get, st_lift, st_ret. by rewrite Hh, Hp.
Qed.

(** The policy an operation makes of one. *)
Definition next_policy (op : PolicyOp) (h : HostedServer) (p : ServerPolicy) (now_ms : N) : ServerPolicy :=
  sign_draft (edit op (draft_of (ho_root h) p)) now_ms.

Lemma edit_parts op d : dr_owner (edit op d) = dr_owner d ∧ dr_version (edit op d) = dr_version d ∧ dr_root (edit op d) = dr_root d.
Proof. by destruct op. Qed.

Lemma draft_of_next op h p now_ms :
  let d := edit op (draft_of (ho_root h) p) in
  draft_of (ho_root h) (next_policy op h p now_ms) =
    mkDraft (dr_roles d) (dr_assignments d) (dr_emojis d) (dr_stickers d) (dr_sounds d) (dr_nicknames d) (dr_owner d)
      (wrap64 (dr_version d + 1)) (ho_root h).
Proof. done. Qed.

(** Success installs the next policy; failure leaves the policies. *)
Lemma policy_op_cases root op now_ms s r s' h p :
  hosts s root h p → run_policy_op root op now_ms s = Some (r, s') →
  if is_ok r then
    policy_at s' root = Some (next_policy op h p now_ms) ∧ admissible op (draft_of (ho_root h) p) ∧
    icons_ok (edit op (draft_of (ho_root h) p)) = true ∧ hosted_at s' root = Some h ∧
    ∃ s1, en_channels s1 = en_channels s ∧
      tell (elements (members_of s1 root)) (Policy (policy_encode (next_policy op h p now_ms))) now_ms s1 = Some (Ok tt, s')
  else policy_at s' root = Some p.
Proof.
  intros Hh Hs. apply run_policy_op_outcome in Hs as [[-> [E _ _]]|(-> & d & s1 & Hd & Ha & Hi & [E1 E2 _] & Ht)].
  - unfold policy_at. rewrite E. apply Hh.
  - rewrite (hosts_draft _ _ _ _ Hh) in Hd. injection Hd as <-.
    set (s2 := installed root _ now_ms s1) in Ht. pose proof Ht as [T1 T2 _]%tell_sends.
    split_and!; [|done|done| |].
    + unfold policy_at. rewrite T1. apply lookup_insert_eq.
    + unfold hosted_at. rewrite T1. cbn. rewrite E1. apply Hh.
    + exists s2. by split.
Qed.

Lemma next_policy_ok op h p now_ms s root :
  hosts s root h p → op_typed op → admissible op (draft_of (ho_root h) p) →
  icons_ok (edit op (draft_of (ho_root h) p)) = true → draft_room (draft_of (ho_root h) p) →
  (sp_version p + 1 < 18446744073709551616)%N → ok_u64 now_ms → policy_ok (next_policy op h p now_ms).
Proof.
  intros [_ _ Hsec _ Hown Hty Hwf] Ho Ha Hi Hr Hv Hn.
  pose proof (edit_typed op _ Ho Ha Hr Hty) as [T1 T2 T3 T4 T5 T6]. pose proof (edit_wf op _ Ha Hwf) as [_ W1 W2 W3 _ _].
  destruct (edit_grows op (draft_of (ho_root h) p)) as (G1 & G2 & G3). destruct Hr as (R1 & R2 & R3 & _).
  assert (F1 : (len (dr_roles (edit op (draft_of (ho_root h) p))) < 2147483648)%N) by lia.
  assert (F2 : fits_u32 (dr_assignments (edit op (draft_of (ho_root h) p)))) by (unfold fits_u32; lia).
  assert (F3 : fits_u32 (dr_nicknames (edit op (draft_of (ho_root h) p)))) by (unfold fits_u32; lia).
  destruct (edit_parts op (draft_of (ho_root h) p)) as (P1 & P2 & P3).
  unfold next_policy, sign_draft. rewrite P1, P2, P3. cbn [dr_owner dr_version dr_root draft_of].
  assert (Hf : ∀ (l : list (bytes * bytes)) k, (length l ≤ k)%nat → (k ≤ 200)%nat → fits_u32 l) by (intros l k ??; unfold fits_u32, len; lia).
  split; [by apply vk_of_sk_length|]. split; [done|].
  split; [change (ok_u64 (wrap64 (sp_version p + 1))); unfold wrap64; by rewrite N.mod_small|].
  split; [done|]. split; [by split|]. split; [by split|].
  split; [split; [by eapply Hf|done]|]. split; [done|].
  split; [split; [eapply Hf; [exact W2|unfold MAX_SERVER_STICKERS; lia]|done]|].
  split; [split; [eapply Hf; [exact W3|unfold MAX_SERVER_SOUNDS; lia]|done]|].
  split; [by split|]. apply sign_length.
Qed.
End policies.

(** ** What an operation does, by its own account *)
Section spec.
Context `{CryptoPrims, Openmls, !Env}.

(** The shortcodes and nicknames after a change of [key] to [value]. *)
Definition set_to (key : bytes) (value : option bytes) (before after : list (bytes * bytes)) : Prop :=
  ∀ n, assoc n after = if bool_decide (n = key) then value else assoc n before.

(** One part of the policy changes, as the operation says; the others stay. *)
Definition op_effect (op : PolicyOp) (p p' : ServerPolicy) : Prop :=
  match op with
  | OpSetRole id name allow deny rank icon =>
    ∃ i, i = default (next_role_id (sp_roles p)) id ∧
      ∀ j, role_of p' j = if (j =? i)%N then Some (mkRole i name allow deny rank icon) else role_of p j
  | OpDeleteRole i => ∀ j, role_of p' j = if (j =? i)%N then None else role_of p j
  | _ => sp_roles p' = sp_roles p
  end ∧
  match op with
  | OpDeleteRole i => ∀ m j, holds p' m j ↔ holds p m j ∧ j ≠ i
  | OpAssignRole member i true =>
    is_Some (role_of p i) ∧ ∀ m j, holds p' m j ↔ holds p m j ∨ m = member ∧ j = i
  | OpAssignRole member i false => ∀ m j, holds p' m j ↔ holds p m j ∧ ¬ (m = member ∧ j = i)
  | _ => sp_assignments p' = sp_assignments p
  end ∧
  match op with
  | OpSetEmoji name image => set_to name (Some (sha256 image)) (sp_emojis p) (sp_emojis p')
  | OpRemoveEmoji name => set_to name None (sp_emojis p) (sp_emojis p')
  | _ => sp_emojis p' = sp_emojis p
  end ∧
  match op with
  | OpSetSticker name image => set_to name (Some (sha256 image)) (sp_stickers p) (sp_stickers p')
  | OpRemoveSticker name => set_to name None (sp_stickers p) (sp_stickers p')
  | _ => sp_stickers p' = sp_stickers p
  end ∧
  match op with
  | OpSetSound name audio => set_to name (Some (sha256 audio)) (sp_sounds p) (sp_sounds p')
  | OpRemoveSound name => set_to name None (sp_sounds p) (sp_sounds p')
  | _ => sp_sounds p' = sp_sounds p
  end ∧
  match op with
  | OpSetNickname member nickname => set_to member nickname (sp_nicknames p) (sp_nicknames p')
  | _ => sp_nicknames p' = sp_nicknames p
  end ∧
  sp_owner_id p' = sp_owner_id p.

Lemma put_named_sets key v l : set_to key (Some v) l (put_named key v l).
Proof. intros n. unfold put_named. rewrite assoc_upsert. by destruct (assoc key l). Qed.
Lemma drop_named_sets key l : set_to key None l (drop_named key l).
Proof.
  intros n. unfold drop_named. induction l as [|[k v] l IH]; [by case_bool_decide|]. cbn [List.filter fst].
  destruct (decide (k = key)) as [->|Hk].
  - rewrite bool_decide_true by done. cbn [negb]. rewrite IH, assoc_cons. repeat case_bool_decide; subst; done.
  - rewrite (bool_decide_false (k = key)) by done. cbn [negb]. rewrite !assoc_cons, IH. repeat case_bool_decide; subst; done.
Qed.

(** Roles a member holds, from the assignments. *)
Lemma upsert_holds member (i : N) l m :
  default [] (assoc m (upsert member (λ ids, if bool_decide (i ∈ ids) then ids else ids ++ [i]) (Some [i]) l)) =
    if bool_decide (m = member)
    then let ids := default [] (assoc m l) in if bool_decide (i ∈ ids) then ids else ids ++ [i]
    else default [] (assoc m l).
Proof. rewrite assoc_upsert. case_bool_decide as E; [subst m|done]. by destruct (assoc member l). Qed.

Lemma edit_effect op h p now_ms :
  NoDup (sp_assignments p).*1 → admissible op (draft_of (ho_root h) p) → op_effect op p (next_policy op h p now_ms).
Proof.
  intros Hn Ha. unfold next_policy, op_effect, role_of, holds, assigned.
  assert (Hd : ∀ l (k : bytes), snd <$> find (λ q : bytes * list N, bool_decide (q.1 = k)) l = assoc k l) by done.
  destruct op; cbn; split_and!; try done; try apply put_named_sets; try apply drop_named_sets.
  - eexists. split; [done|]. intros j. rewrite find_set_role. by destruct id.
  - intros j. apply find_delete_role.
  - intros m j. rewrite !Hd, assigned_unassigned by by rewrite keys_strip. rewrite assoc_strip.
    destruct (assoc m (sp_assignments p)) as [ids|]; cbn; [apply elem_filter_ne|set_solver].
  - destruct add; cbn in Ha.
    + split.
      { apply existsb_exists in Ha as (r & Hin & Hr). destruct (find _ _) eqn:E; [by eexists|].
        by rewrite (find_none _ _ E _ Hin) in Hr. }
      intros m j. rewrite !Hd, assigned_unassigned by by apply NoDup_upsert. rewrite upsert_holds. cbn zeta.
      repeat case_bool_decide; subst; set_solver.
    + intros m j. rewrite !Hd, assigned_unassigned by by apply NoDup_upsert. rewrite assoc_upsert.
      case_bool_decide as E; [subst m|set_solver]. destruct (assoc member _) as [ids|]; cbn; [|set_solver].
      rewrite elem_filter_ne. set_solver.
  - destruct nickname; [apply put_named_sets|apply drop_named_sets].
Qed.
End spec.

Section told.
Context `{CryptoPrims, !CryptoLaws, !SignLaws, Openmls, !Env}.
Context {W : Type} `{!Connection W}.
Implicit Types s : Engine W.

(** C23: A change of policy does what it says and nothing else.  When an
    operation on roles, assignments, emojis, stickers, sounds or nicknames
    succeeds, the policy in force is the next version, in which exactly the
    named entry changed: a role set under its identifier or a fresh one, a
    role gone from everybody who held it, a role given to or taken from one
    member, a shortcode or nickname set or removed.  When it fails, the policy
    is the one before. *)
Theorem policy_ops_exact root op now_ms s r s' h p :
  hosts s root h p → run_policy_op root op now_ms s = Some (r, s') →
  if is_ok r
  then ∃ p', policy_at s' root = Some p' ∧ sp_server_root p' = root ∧ sp_version p' = wrap64 (sp_version p + 1) ∧
         op_effect op p p'
  else policy_at s' root = Some p.
Proof.
  intros Hh Hs. pose proof (policy_op_cases _ _ _ _ _ _ _ _ Hh Hs) as Hc. destruct (is_ok r); [|done].
  destruct Hc as (Hp & Ha & _). exists (next_policy op h p now_ms). split; [done|].
  destruct (edit_parts op (draft_of (ho_root h) p)) as (_ & P2 & P3). split_and!.
  - unfold next_policy, sign_draft. rewrite P3. apply Hh.
  - unfold next_policy, sign_draft. by rewrite P2.
  - apply edit_effect; [|done]. apply (dw_members _ (hs_wf _ _ _ _ Hh)).
Qed.

Lemma policy_told {E' : Env} {W' : Type} {C' : Connection W'} p now_ms from (t : Engine W') :
  policy_decode (policy_encode p) = Ok p → policy_verify p = Ok tt → fits_u32 (policy_encode p) →
  (∀ q, policy_at t (sp_server_root p) = Some q → (sp_version q < sp_version p)%N) →
  ∃ t', handle_channel_control from (control_encode (Policy (policy_encode p))) now_ms t = Some (Ok [], t') ∧
    policy_at t' (sp_server_root p) = Some p.
Proof.
  intros Hd Hv Hf Hq. unfold handle_channel_control. rewrite control_round by done.
  unfold st_bind at 1, st_lift at 1. cbn [map_err]. unfold quietly, handle_policy. rewrite Hd, Hv. cbn [is_ok negb].
  unfold st_bind at 1. rewrite st_get_bind.
  replace (from_option _ _ _) with true.
  - eexists. split; [done|]. unfold policy_at. cbn. apply lookup_insert_eq.
  - destruct (policy_at t _) as [q|]; [|done]. symmetry. by apply N.ltb_lt, Hq.
Qed.

(** C24: What the host changes, every member adopts.  An operation on a policy
    that members can read, with arguments that fit their fields, leaves a
    policy that members can read, under the limits on shortcodes and with no
    name shared by an emoji and a sticker or sound; it is sent to everybody
    else in a channel of the server; and any engine that holds an older policy
    of the server or none adopts it when it handles that message. *)
Theorem policy_ops_reach_members root op now_ms s s' h p :
  hosts s root h p → op_typed op → draft_room (draft_of (ho_root h) p) →
  (sp_version p + 1 < 18446744073709551616)%N → ok_u64 now_ms →
  run_policy_op root op now_ms s = Some (Ok tt, s') →
  ∃ p', hosts s' root h p' ∧ sp_version p' = (sp_version p + 1)%N ∧
    (∃ s1, en_channels s1 = en_channels s ∧
       tell (elements (members_of s root)) (Policy (policy_encode p')) now_ms s1 = Some (Ok tt, s')) ∧
    (fits_u32 (policy_encode p') → ∀ (E' : Env) W' (C' : Connection W') (t : Engine W') from later,
       (∀ q, policy_at t root = Some q → (sp_version q ≤ sp_version p)%N) →
       ∃ t', @handle_channel_control _ _ E' W' C' from (control_encode (Policy (policy_encode p'))) later t = Some (Ok [], t') ∧
         policy_at t' root = Some p').
Proof.
  intros Hh Ho Hr Hv Hn Hs. apply (policy_op_cases _ _ _ _ _ _ _ _ Hh) in Hs as (Hp & Ha & Hi & Hho & s1 & Hch & Ht).
  destruct (edit_parts op (draft_of (ho_root h) p)) as (P1 & P2 & P3).
  assert (Ev : sp_version (next_policy op h p now_ms) = (sp_version p + 1)%N).
  { unfold next_policy, sign_draft. rewrite P2. cbn. unfold wrap64. by rewrite N.mod_small. }
  assert (Er : sp_server_root (next_policy op h p now_ms) = root).
  { unfold next_policy, sign_draft. rewrite P3. apply Hh. }
  pose proof (next_policy_ok op h p now_ms s root Hh Ho Ha Hi Hr Hv Hn) as Hok.
  pose proof (edit_typed op _ Ho Ha Hr (hs_typed _ _ _ _ Hh)) as [T1 T2 T3 T4 T5 T6].
  pose proof (edit_wf op _ Ha (hs_wf _ _ _ _ Hh)) as [W1 W2 W3 W4 W5 W6].
  exists (next_policy op h p now_ms). split_and!; [|done| |].
  - destruct Hh as [_ _ Hsec Hroot Hown _ _]. split; try done; [unfold next_policy, sign_draft; by rewrite P1|..];
      by rewrite draft_of_next; constructor.
  - exists s1. split; [done|]. replace (members_of s root) with (members_of s1 root); [done|]. unfold members_of. by rewrite Hch.
  - intros Hf E' W' C' t from later Hq.
    assert (Hb : fits_u32 (policy_body (next_policy op h p now_ms))).
    { unfold fits_u32 in *. unfold policy_encode in Hf. revert Hf. rewrite w_into_vec_buf. enc_norm. rewrite len_app, len_lenp. lia. }
    rewrite <- Er. apply policy_told; [by apply policy_round| |done|].
    + apply policy_signed_verifies. rewrite P3. apply Hh.
    + rewrite Er, Ev. intros q Hq'. specialize (Hq q Hq'). lia.
Qed.
End told.

(** ** Witnesses *)
Section witnesses.
Import Toy LedgerDemo MlsDemo ServerDemo.
#[local] Existing Instance Toy.prims.
#[local] Existing Instance Toy.laws.
#[local] Existing Instance Toy.sign_laws.
#[local] Instance host_env : Env := env 7 l3.

Definition nickname_at {W} (s : Engine W) (m : bytes) : option bytes :=
  match policy_at s demo_root with Some p => nickname_of p m | None => None end.
Definition asks_name : bytes := control_encode (NicknameRequest hall (lit "ace")).

Lemma control_authority_witness :
  ∃ r s', handle_channel_control (key 1) asks_name 60 both = Some (r, s') ∧
    nickname_at both ada = None ∧ nickname_at s' ada = Some (lit "ace") ∧
    control_effect (key 1) (NicknameRequest hall (lit "ace")) 60 both s'.
Proof.
  destruct (ran (handle_channel_control (key 1) asks_name 60 both) both) as [r Hr]; [vm_compute; reflexivity|].
  exists r, (ServerDemo.after (handle_channel_control (key 1) asks_name 60 both) both). split; [exact Hr|].
  split; [vm_compute; reflexivity|]. split; [vm_compute; reflexivity|].
  pose proof (control_authority _ _ _ _ _ _ Hr) as Hc.
  replace (control_decode asks_name) with (Ok (E:=WireError) (NicknameRequest hall (lit "ace"))) in Hc
    by (vm_compute; reflexivity).
  exact Hc.
Defined.

(** Ada redeems a link for one use twice. *)
Definition once : Engine Desk := then_do redeem alone.
Definition twice : Engine Desk := then_do redeem once.

Lemma redeemed : control_decode redeems = Ok (Redeem (token_encode link) []) ∧ token_decode (token_encode link) = Ok link.
Proof. split; vm_compute; reflexivity. Qed.
Lemma redeem_inj a b c d : Ok (E:=WireError) (Redeem a b) = Ok (Redeem c d) → c = a.
Proof. by intros [= -> _]. Qed.
Lemma ok_inj (a b : InviteToken) : Ok (E:=WireError) a = Ok b → b = a.
Proof. by intros [= ->]. Qed.
Lemma one_use : limited (tk_nonce link) 1 redeems.
Proof.
  intros token pw t Hc Ht _ _. destruct redeemed as [E1 E2].
  pose proof (redeem_inj _ _ _ _ (eq_trans (eq_sym E1) Hc)) as E. rewrite E in Ht.
  rewrite (ok_inj _ _ (eq_trans (eq_sym E2) Ht)). split; vm_compute; [reflexivity|discriminate].
Qed.
Lemma roster_changed {W} (s s' : Engine W) cid :
  match channel_at s cid, channel_at s' cid with
  | Some ch, Some ch' => negb (bool_decide (cs_roster ch' = cs_roster ch))
  | _, _ => false
  end = true → regroups s s'.
Proof.
  destruct (channel_at s cid) as [ch|] eqn:E; [|done]. destruct (channel_at s' cid) as [ch'|] eqn:E'; [|done].
  intros Hn%negb_true_iff%bool_decide_eq_false. exists cid, ch, ch'. auto.
Qed.
Lemma link_uses_bounded_witness :
  run (tk_nonce link) [redeems; redeems] 1 alone twice ∧ uses twice (tk_nonce link) = 1%N.
Proof.
  destruct (ran (redeem alone) alone) as [r1 H1]; [vm_compute; reflexivity|].
  destruct (ran (redeem once) once) as [r2 H2]; [vm_compute; reflexivity|].
  assert (Hrun : run (tk_nonce link) [redeems; redeems] 1 alone twice).
  { apply (run_other (tk_nonce link) [redeems] 1 alone once (key 1) redeems 60 r2); [|exact H2|].
    - apply (run_admit (tk_nonce link) [] 0 alone alone (key 1) redeems 60 r1); [constructor|exact H1|].
      exists (token_encode link), [], link. destruct redeemed as [E1 E2]. split; [exact E1|]. split; [exact E2|].
      split; [reflexivity|]. apply (roster_changed _ _ hall). vm_compute. reflexivity.
    - intros Ha. assert (Hu : uses once (tk_nonce link) = 1%N) by (vm_compute; reflexivity).
      destruct (control_counts _ _ _ _ _ _ _ 1 H2 one_use) as [Hc Hadm]; [vm_compute; discriminate|lia|].
      specialize (Hadm Ha). change (then_do redeem once) with twice in *. lia. }
  split; [exact Hrun|].
  assert (Hl : Forall (limited (tk_nonce link) 1) [redeems; redeems])
    by (constructor; [exact one_use|constructor; [exact one_use|constructor]]).
  destruct (link_uses_bounded _ 1 _ 1 _ _ Hrun Hl) as [Hlo Hhi]; [vm_compute; discriminate|vm_compute; discriminate|].
  assert (Hz : uses alone (tk_nonce link) = 0%N) by (vm_compute; reflexivity). lia.
Defined.

(** Bob makes Ada a moderator. *)
Definition promotes : PolicyOp := OpAssignRole ada 1 true.
Definition promoted : Engine Desk := then_do (run_policy_op demo_root promotes 60) both.
Definition demo_host : HostedServer := mkHosted (lit "maps") (sk 9) [hall] None None ∅ pow.

Lemma demo_hosts : hosts both demo_root demo_host (policy bob).
Proof.
  split.
  - reflexivity.
  - reflexivity.
  - reflexivity.
  - reflexivity.
  - reflexivity.
  - assert (Hm : role_ok mods) by (vm_compute; repeat split).
    assert (Hw : named_ok (lit "wave", sha256 (lit "w"))) by (split; [split|split]; vm_compute; reflexivity).
    split.
    + change (Forall role_ok [mods]). constructor; [exact Hm|constructor].
    + change (Forall assignment_ok []). constructor.
    + change (Forall named_ok []). constructor.
    + change (Forall named_ok [(lit "wave", sha256 (lit "w"))]). constructor; [exact Hw|constructor].
    + change (Forall named_ok []). constructor.
    + change (Forall nickname_ok []). constructor.
  - split.
    + change (NoDup (@nil bytes)). constructor.
    + change (0 ≤ MAX_SERVER_EMOJIS). unfold MAX_SERVER_EMOJIS. lia.
    + change (1 ≤ MAX_SERVER_STICKERS). unfold MAX_SERVER_STICKERS. lia.
    + change (0 ≤ MAX_SERVER_SOUNDS). unfold MAX_SERVER_SOUNDS. lia.
    + change (∀ n : bytes, n ∈ [] → n ∉ [lit "wave"]). set_solver.
    + change (∀ n : bytes, n ∈ [] → n ∉ []). set_solver.
Qed.
Lemma promotion_runs : run_policy_op demo_root promotes 60 both = Some (Ok tt, promoted).
Proof. apply ran_ok. vm_compute. reflexivity. Qed.

Lemma policy_ops_exact_witness :
  ∃ p', policy_at promoted demo_root = Some p' ∧ sp_version p' = 4%N ∧ holds p' ada 1 ∧ ¬ holds (policy bob) ada 1.
Proof.
  destruct (policy_ops_exact demo_root promotes 60 both _ _ demo_host (policy bob) demo_hosts promotion_runs)
    as (p' & Hp & _ & Hv & _ & (_ & Hh) & _).
  exists p'. split; [exact Hp|]. split; [exact Hv|]. split; [|exact (not_elem_of_nil (A:=N) 1%N)].
  apply Hh. right. split; reflexivity.
Defined.

(** A newcomer with no policy yet. *)
Definition newcomer : Engine Desk := en_on_servers (on_policies (λ _, ∅)) both.

Lemma policy_ops_reach_members_witness :
  ∃ p' t', policy_at promoted demo_root = Some p' ∧ sp_version p' = 4%N ∧
    @handle_channel_control _ _ (env 1 l3) _ _ bob (control_encode (Policy (policy_encode p'))) 70 newcomer = Some (Ok [], t') ∧
    policy_at t' demo_root = Some p'.
Proof.
  destruct (policy_ops_reach_members demo_root promotes 60 both promoted demo_host (policy bob) demo_hosts)
    as (p' & Hh & Hv & _ & Hadopt).
  - split; vm_compute; reflexivity.
  - split; [vm_compute; reflexivity|]. split; [vm_compute; reflexivity|]. split; [vm_compute; reflexivity|constructor].
  - vm_compute. reflexivity.
  - vm_compute. reflexivity.
  - exact promotion_runs.
  - pose proof (hs_policy _ _ _ _ Hh) as Hp.
    assert (Hs : match policy_at promoted demo_root with Some p => (len (policy_encode p) <? 4294967296)%N | None => false end = true)
      by (vm_compute; reflexivity).
    rewrite Hp in Hs. apply N.ltb_lt in Hs.
    destruct (Hadopt Hs (env 1 l3) Desk desk newcomer bob 70%N) as (t' & Ht & Htp).
    { intros q Hq. exfalso. revert Hq. vm_compute. discriminate. }
    exists p', t'. split; [exact Hp|]. split; [exact Hv|]. split; [exact Ht|exact Htp].
Defined.
End witnesses.
