(* ===== verification/ServerRemoval.v ===== *)
(** * A removed member is shut out
    Removing a member, composed with the relay behind the connection: the
    roster that the host registers no longer has the member, and the relay
    refuses what the member posts until the server signs another roster. *)

From S2P Require Import Prelude Utf8 Enc Crypto ProtoRecord IdentityRecords Server Ledger LedgerTheorems X3dh Content Mailbox RateLimit Wire RelayParts RelayChannels ChannelProofs Relay RelayProofs RelayTheorems Roles Invite Channel LocalStore Mls MlsTheorems Sync ClientMessages ClientChannels ClientDm ClientPeers ClientDmProofs Servers ServerPolicies ServerControl ServerProofs ServerDemo.

(** What OpenMLS documents of removing members: the commit takes these leaves
    out of the tree; the committer's own leaf may be refreshed, under the
    credential it had. *)
Class OpenmlsRemoves `{Openmls} : Prop := {
  om_removed g st sg ixs out g1 st1 g2 st2 j l :
    om_remove_members g st sg ixs = (Ok out, (g1, st1)) → om_merge_pending g1 st1 = (Ok tt, (g2, st2)) →
    (j, l) ∈ om_members g2 → j ∉ ixs ∧ ∃ l', (j, l') ∈ om_members g ∧ lf_credential l' = lf_credential l;
}.

Lemma toy_removes t : @OpenmlsRemoves (ToyMls.openmls t).
Proof.
  constructor. cbn [om_remove_members om_merge_pending om_members ToyMls.openmls].
  intros g st sg ixs out g1 st1 g2 st2 j l [= _ <- _] [= <- _] Hin. apply elem_of_map_to_list in Hin. cbn in Hin.
  apply map_lookup_filter_Some in Hin as [Hl Hj]. split; [exact Hj|]. exists l. split; [|done]. by apply elem_of_map_to_list.
Qed.

(** ** The relay *)
Section relay.
Context `{CryptoPrims, TurnAuth} (show_ledger : LedgerError → string) (show_net : NetError → string) (ip : IpAddr) (now : N).
Notation ask_relay := (relay_request show_ledger show_net ip now).

Lemma relay_request_inv req w resp w' :
  ask_relay req w = (Ok resp, w') → handle req ip now w = Some (Ok resp, w').
Proof.
  unfold relay_request. destruct (handle req ip now w) as [[[x|e] w1]|]; [| |done].
  - cbn [to_response]. by destruct x; intros [= <- <-].
  - destruct e; done.
Qed.

(** A charge, and then an operation on the channels that succeeds. *)
Lemma charged_Ok {X} rl (m : RelayState → Step RelayChannels.Channels RelayError X) s x s' :
  (do! _ := charge rl ip now in do! s1 := st_get in zoom of_channels (m s1)) s = Some (Ok x, s') →
  ∃ s1, st_ledger s1 = st_ledger s ∧ m s1 (st_channels s) = Some (Ok x, st_channels s').
Proof.
  intros Hr. unfold st_bind at 1 in Hr.
  destruct (charge rl ip now s) as [[[u|e] s1]|] eqn:Ec; [|done..]. apply charge_Some in Ec as [Hl Hc].
  unfold st_bind, st_get, zoom in Hr. cbn [lens_get of_channels] in Hr. rewrite Hc in Hr.
  destruct (m s1 (st_channels s)) as [[r1 c1]|] eqn:Em; [|done]. injection Hr as -> <-.
  exists s1. split; [done|]. by rewrite Em.
Qed.

Lemma relay_sets_roster c root version members sig w w' :
  ask_relay (RqSetChannelRoster c root version members sig) w = (Ok RsOk, w') →
  cs_rosters (st_channels w') !! c = Some (mkRoster root version (list_to_set members)).
Proof.
  intros Hr%relay_request_inv. cbn [handle] in Hr.
  apply (charged_Ok _ (λ _, set_channel_roster c root version members sig)) in Hr as (s1 & _ & Hr).
  apply set_channel_roster_cases in Hr as [[Hn _]|(_ & _ & ->)]; [done|]. apply lookup_insert_eq.
Qed.

Lemma relay_post_rosters c b i sig w seq w' :
  handle (RqPostToChannel c b i sig) ip now w = Some (Ok seq, w') →
  cs_rosters (st_channels w') = cs_rosters (st_channels w).
Proof.
  intros Hr. cbn [handle] in Hr. apply charged_Ok in Hr as (s1 & _ & Hr).
  apply post_cases in Hr as [(_ & _ & -> & _)|(_ & _ & ->)]; done.
Qed.
End relay.

(** Who is not in the roster is refused, and leaves the logs alone. *)
Lemma relay_refuses `{CryptoPrims, TurnAuth} ip now c b i sig w roster :
  cs_rosters (st_channels w) !! c = Some roster → i ∉ ro_members roster →
  ∃ e w', handle (RqPostToChannel c b i sig) ip now w = Some (Err e, w') ∧ st_channels w' = st_channels w.
Proof.
  intros Hro Hi. cbn [handle]. unfold st_bind at 1.
  assert (Hcharge : ∃ r s1, charge of_deposit_rl ip now w = Some (r, s1)).
  { unfold charge, zoom, total, st_bind, st_ret, st_reject. destruct (check _ _ _ _) as [ok rl]. cbn. by destruct ok; eauto. }
  destruct Hcharge as (r & s1 & Ec). rewrite Ec. apply charge_Some in Ec as [Hl Hc]. destruct r as [u|e]; [|by eauto].
  unfold st_bind, st_get, zoom. cbn [lens_get of_channels]. rewrite Hc.
  destruct (post_total (lp_ledger (st_ledger s1)) c b i sig now (st_channels w)) as [[r1 c1] Ep]. rewrite Ep.
  apply post_cases in Ep as [(e & -> & -> & _)|(_ & (_ & _ & (ro & Hro' & Hi') & _) & _)]; [|congruence].
  exists e. eexists. done.
Qed.

(** ** The host *)
Section host.
Context `{CryptoPrims, Openmls}.

(** Elements with the same image are the same, where the images are unique. *)
Lemma NoDup_omap_inj {A B} (f : A → option B) l a b x :
  NoDup (omap f l) → a ∈ l → b ∈ l → f a = Some x → f b = Some x → a = b.
Proof.
  intros Hn Ha Hb Hfa Hfb. revert Hn Ha Hb. induction l as [|c l IH]; [set_solver|]. csimpl.
  intros Hn [->|Ha]%elem_of_cons [->|Hb]%elem_of_cons; [done|..].
  - rewrite Hfa in Hn. apply list.NoDup_cons in Hn as [Hn _]. destruct Hn. apply list_elem_of_omap. by exists b.
  - rewrite Hfb in Hn. apply list.NoDup_cons in Hn as [Hn _]. destruct Hn. apply list_elem_of_omap. by exists a.
  - apply IH; [|done|done]. destruct (f c); [by apply list.NoDup_cons in Hn as [_ Hn]|done].
Qed.

(** A member with one leaf is not in the group without it. *)
Lemma removed_leaves `{!OpenmlsRemoves} m leaf ch hs mls :
  leaf_of m ch = Some leaf → NoDup (member_ids (cs_mls ch)) → remove [leaf] (cs_mls ch) = (Ok hs, mls) →
  m ∉ member_ids mls.
Proof.
  unfold leaf_of. intros Hleaf Hn Hr Hin. apply fmap_Some in Hleaf as ([leaf' x] & Hf & ->).
  apply find_some in Hf as [Hf Hx%bool_decide_eq_true]. cbn in Hx. subst x. apply list_elem_of_In in Hf.
  unfold remove in Hr. destruct (om_remove_members _ _ _ _) as [[out|e] [g1 st1]] eqn:E1; [|done].
  destruct out as [commit welcome]. cbn [fst snd] in Hr.
  destruct (om_merge_pending g1 st1) as [[[]|e] [g2 st2]] eqn:E2; [|done]. injection Hr as _ <-.
  unfold member_ids in Hin. apply list_elem_of_omap in Hin as ([j id] & Hin & Hid).
  destruct (length id =? 32)%nat eqn:El; [|done]. injection Hid as ->.
  unfold members in Hin. cbn [mb_group with_group fst] in Hin. apply list_elem_of_fmap in Hin as ([j' l] & [= -> Hm] & Hin).
  destruct (om_removed _ _ _ _ _ _ _ _ _ _ _ E1 E2 Hin) as (Hj & l' & Hin' & Hcred).
  assert (Hl : (j', m) ∈ members (cs_mls ch)).
  { unfold members. apply list_elem_of_fmap. exists (j', l'). split; [|done]. cbn. by rewrite Hm, <- Hcred. }
  assert ((leaf', m) = (j', m)) as [= ->]; [|set_solver].
  unfold member_ids in Hn. eapply NoDup_omap_inj; [exact Hn|done|done| |]; cbn; by rewrite El.
Qed.

Context `{!Env}.
Context {W : Type} `{!Connection W}.
Implicit Types s : Engine W.

(** The parts of a removal that succeeds. *)
Lemma remove_success cid m now_ms s s' ch leaf :
  remove_from_channel cid m now_ms s = Some (Ok tt, s') → channel_at s cid = Some ch → leaf_of m ch = Some leaf →
  ∃ h hs mls s1 s2 n, hosted_at s (root_of ch) = Some h ∧ remove [leaf] (cs_mls ch) = (Ok hs, mls) ∧
    hosted_at s1 (root_of ch) = Some h ∧
    channel_at s1 cid = Some (resync_roster (cs_set_removed <[m := now_ms]> (cs_set_mls mls ch))) ∧
    en_world s1 = en_world s ∧
    push_channel_roster cid now_ms s1 = Some (Ok tt, s2) ∧ post_commit cid (hs_commit hs) s2 = Some (Ok n, s').
Proof.
  intros Hs Hch Hleaf. unfold remove_from_channel, get_channel, require_hosted in Hs.
  apply st_bind_Ok in Hs as (u & s0 & Hs0 & Hs). unfold st_reject in Hs0. injection Hs0 as Hs0 <-.
  apply st_bind_Ok in Hs as (ch' & s0 & Hs1 & Hs). unfold st_bind, st_get, st_lift in Hs1. injection Hs1 as Hs1 <-.
  rewrite Hch in Hs1. injection Hs1 as <-.
  apply st_bind_Ok in Hs as (u2 & s0 & Hs2 & Hs). unfold st_bind, st_get, st_reject in Hs2. injection Hs2 as Hs2 <-.
  destruct (is_hosted s (root_of ch)) eqn:Eh; [|done]. unfold is_hosted in Eh. apply bool_decide_eq_true in Eh as [h Eh].
  rewrite Hleaf in Hs. destruct (remove [leaf] (cs_mls ch)) as [r mls] eqn:Er.
  apply st_bind_Ok in Hs as (u3 & s3 & [= <- <-] & Hs).
  apply st_bind_Ok in Hs as (hs & s3 & Hl & Hs). unfold st_lift in Hl. injection Hl as Hl <-.
  destruct r as [hs'|e]; [|done]. injection Hl as ->.
  apply st_bind_Ok in Hs as (u4 & s4 & [= <- <-] & Hs). apply st_bind_Ok in Hs as (u5 & s5 & [= <- <-] & Hs).
  apply st_bind_Ok in Hs as ([] & s6 & Hp & Hs). apply st_bind_Ok in Hs as (n & s7 & Hc & [= <-]).
  eexists h, hs, mls, _, s6, n. split_and!; [done|done| | | |exact Hp|exact Hc]; [done| |done].
  unfold channel_at in *. cbn. rewrite lookup_alter_eq. fold (channel_at s). rewrite lookup_alter_eq, Hch. done.
Qed.
End host.

Section shut_out.
Context `{CryptoPrims, TurnAuth, Openmls, !OpenmlsRemoves, !Env}.
Context (show_ledger : LedgerError → string) (show_net : NetError → string) (ip : IpAddr) (now : N).
#[local] Instance relay_link : Connection RelayState := relay_connection show_ledger show_net ip now.
Implicit Types s : Engine RelayState.

(** The roster the relay holds for a channel. *)
Definition relay_roster (cid : bytes) (w : RelayState) : option ChannelRoster := cs_rosters (st_channels w) !! cid.

Lemma pushed_roster cid now_ms s s' ch h :
  channel_at s cid = Some ch → hosted_at s (root_of ch) = Some h → push_channel_roster cid now_ms s = Some (Ok tt, s') →
  en_channels s' = en_channels s ∧
  ∃ v, relay_roster cid (en_world s') = Some (mkRoster (prim_vk_of_sk (ho_root h)) v (cs_roster ch)).
Proof.
  intros Hch Hh Hs. unfold push_channel_roster in Hs. rewrite st_get_bind, Hch, Hh in Hs.
  apply st_bind_Ok in Hs as (u & s1 & [= <- <-] & Hs). unfold call, sync_set_channel_roster, ask in Hs.
  cbn [request relay_link relay_connection] in Hs.
  match type of Hs with context[relay_request ?a ?b ?c ?d ?rq ?w] => destruct (relay_request a b c d rq w) as [[resp|e] w'] eqn:E end;
    [|done]. unfold expect_ok_response in Hs. destruct resp; try done. injection Hs as <-. split; [done|].
  apply relay_sets_roster in E. rewrite list_to_set_elements_L in E. eexists. exact E.
Qed.

Lemma committed_roster cid commit s n s' :
  post_commit cid commit s = Some (Ok n, s') →
  en_channels s' = en_channels s ∧ relay_roster cid (en_world s') = relay_roster cid (en_world s).
Proof.
  unfold post_commit. intros Hs. apply st_bind_Ok in Hs as (nonce & s1 & [= _ <-] & Hs). rewrite st_get_bind in Hs.
  unfold post_channel_frame, sync_post_to_channel, ask in Hs. cbn [request relay_link relay_connection en_world en_set_rng] in Hs.
  match type of Hs with context[relay_request ?a ?b ?c ?d ?rq ?w] => destruct (relay_request a b c d rq w) as [[resp|e] w'] eqn:E end;
    [|done]. injection Hs as _ <-. split; [done|]. apply relay_request_inv, relay_post_rosters in E.
  unfold relay_roster. cbn. by rewrite E.
Qed.

(** C22: A removed member is shut out.  When the host removes a member that has
    one leaf in the group, and the relay took the host's requests, then the
    member is in neither the client's roster nor the relay's, and over any
    further run of the relay every post of the member to that channel is
    refused without a trace, from whatever address and however signed, until
    the server's root signs a newer roster. *)
Theorem removed_cannot_post cid m now_ms s s' ch leaf :
  channel_at s cid = Some ch → leaf_of m ch = Some leaf → NoDup (member_ids (cs_mls ch)) →
  remove_from_channel cid m now_ms s = Some (Ok tt, s') →
  ∃ ch' h r, channel_at s' cid = Some ch' ∧ m ∉ cs_roster ch' ∧ cs_removed ch' !! m = Some now_ms ∧
    hosted_at s (root_of ch) = Some h ∧ relay_roster cid (en_world s') = Some r ∧
    ro_server_root r = prim_vk_of_sk (ho_root h) ∧ ro_members r = cs_roster ch' ∧
    ∀ w, relay_run (en_world s') w →
      (∃ r', relay_roster cid w = Some r' ∧ ro_server_root r' = ro_server_root r ∧
             (ro_version r < ro_version r')%N ∧ roster_signed cid r') ∨
      ∀ blob sig ip' now', ∃ e w', handle (RqPostToChannel cid blob m sig) ip' now' w = Some (Err e, w') ∧
        st_channels w' = st_channels w.
Proof.
  intros Hch Hleaf Hn Hs.
  destruct (remove_success _ _ _ _ _ _ _ Hs Hch Hleaf) as (h & hs & mls & s1 & s2 & n & Hh & Hr & Hh1 & Hch1 & _ & Hp & Hc).
  set (ch' := resync_roster _) in Hch1.
  destruct (pushed_roster cid now_ms s1 s2 ch' h Hch1 Hh1 Hp) as (E2 & v & Hro). apply committed_roster in Hc as [E3 Hro'].
  rewrite Hro in Hro'. assert (Hm : m ∉ cs_roster ch').
  { cbn. rewrite elem_of_list_to_set. by eapply removed_leaves. }
  exists ch', h. eexists. split_and!; [|exact Hm|cbn; apply lookup_insert_eq|done|exact Hro'|done|done|].
  { unfold channel_at. by rewrite E3, E2. }
  intros w Hrun. destruct (relay_run_roster _ _ _ _ Hrun Hro') as (r' & Hr' & [->|(H1' & H2' & H3')]).
  - right. intros blob sig ip' now'. by eapply relay_refuses.
  - left. by exists r'.
Qed.
End shut_out.

(** ** Witness *)
Section witnesses.
Import Toy LedgerDemo MlsDemo RelayDemo ServerDemo.
#[local] Existing Instance Toy.prims.
#[local] Instance adas_env : Env := env 1 l3.
#[local] Instance removes : OpenmlsRemoves := toy_removes tables.

(** Ada hosts a channel with Bob, behind the relay of [RelayDemo]. *)
Definition shown : LedgerError → string := λ _, ""%string.
Definition shown_net : NetError → string := λ _, ""%string.
#[local] Instance behind_relay : Connection RelayState := relay_connection shown shown_net ip 300.
Definition adas : Engine RelayState := host MlsDemo.ada 1 [(0, MlsDemo.ada, 1); (1, bob, 7)]%N r2.
Definition expelled : Engine RelayState := ServerDemo.after (remove_from_channel hall bob 250 adas) adas.

Lemma removed_cannot_post_witness :
  ∃ r, relay_roster hall (en_world expelled) = Some r ∧ bob ∉ ro_members r ∧
    ∀ blob sig, ∃ e w', handle (RqPostToChannel hall blob bob sig) ip 400 (en_world expelled) = Some (Err e, w') ∧
      st_channels w' = st_channels (en_world expelled).
Proof.
  assert (Hr : remove_from_channel hall bob 250 adas = Some (Ok tt, expelled)) by (apply ran_ok; vm_compute; reflexivity).
  assert (Hs : match channel_at adas hall with
    | Some ch => bool_decide (leaf_of bob ch = Some 1%N) && bool_decide (NoDup (member_ids (cs_mls ch)))
    | None => false
    end = true) by (vm_compute; reflexivity).
  destruct (channel_at adas hall) as [ch|] eqn:Ech; [|discriminate Hs].
  apply andb_true_iff in Hs as [Hl Hn]. apply bool_decide_eq_true in Hl, Hn.
  destruct (removed_cannot_post shown shown_net ip 300 hall bob 250 adas expelled ch 1 Ech Hl Hn Hr)
    as (ch' & h & r & _ & Hm & _ & _ & Hro & _ & Hms & Hpost).
  exists r. split; [exact Hro|]. split; [rewrite Hms; exact Hm|]. intros blob sig.
  destruct (Hpost (en_world expelled)) as [(r' & Hr' & _ & Hlt & _)|Hp]; [apply rtc_refl| |apply Hp].
  exfalso. rewrite Hro in Hr'. injection Hr' as <-. exact (N.lt_irrefl _ Hlt).
Defined.
End witnesses.
