(* ===== verification/Transport.v ===== *)
(** * Client and relay transport ([crates/dante-net/src/transport.rs], [socks5.rs])

    Frames with a length prefix, the SOCKS5 handshake, the TCP client with its
    reconnects and failover, the libp2p client that spreads requests over
    several relays, and the relay's side of a connection.  Sockets and the
    libp2p node are outside the repository: the classes [Net] and [P2pNode]
    have the calls that are made, on a world of their own.  An I/O error is
    told apart only as far as the code does. *)

From S2P Require Import Prelude Utf8 Enc Crypto Mailbox Wire Roles Invite.

(** ** Text *)

(** [s.rsplit_once(c)] *)
Fixpoint rsplit_once (c : byte) (s : bytes) : option (bytes * bytes) :=
  match s with
  | [] => None
  | b :: s =>
    match rsplit_once c s with
    | Some (l, r) => Some (b :: l, r)
    | None => if bool_decide (b = c) then Some ([], s) else None
    end
  end.
(** [str::parse] for an unsigned integer: decimal digits, with a leading plus
    allowed. *)
Definition parse_digits (max : N) (s : bytes) : option N :=
  foldl (λ acc b,
    v ← acc;
    if (48 <=? b2n b)%N && (b2n b <=? 57)%N
    then let v := (v * 10 + (b2n b - 48))%N in if (v <=? max)%N then Some v else None
    else None) (Some 0%N) s.
Definition parse_uint (max : N) (s : bytes) : option N :=
  let digits := match s with x2b :: s => s | _ => s end in
  if bool_decide (digits = []) then None else parse_digits max digits.
Definition parse_u16 : bytes → option N := parse_uint 65535.
(** [trim_start_matches(c)] and [trim_end_matches(c)] *)
Fixpoint drop_leading (c : byte) (s : bytes) : bytes :=
  match s with b :: s' => if bool_decide (b = c) then drop_leading c s' else s | [] => [] end.
Definition drop_trailing (c : byte) (s : bytes) : bytes := rev (drop_leading c (rev s)).
Definition ends_with (p s : bytes) : bool := bool_decide (drop (length s - length p) s = p) && (length p <=? length s)%nat.

(** ** Sockets *)
Inductive SockError : Type := UnexpectedEof | OtherIo.

(** [C] is an open connection. *)
Class Net (W C : Type) : Type := {
  nt_connect : bytes → W → result C SockError * W;
  nt_read_exact : C → nat → W → result bytes SockError * W;
  nt_write_all : C → bytes → W → result unit SockError * W;
}.

Definition MAX_FRAME : N := 8 * 1024 * 1024.
Definition MAX_CONNECTIONS : nat := 1024.
Definition TOR_SOCKS : bytes := lit "127.0.0.1:9050".

Section net.
Context {W C : Type} `{!Net W C}.
Notation Sock A := (Step W NetError A).

(** A call, with what becomes of its error. *)
Definition io {A} (f : SockError → NetError) (m : W → result A SockError * W) : Sock A :=
  λ w, let '(r, w) := m w in Some (map_err f r, w).
Definition eof_closed (e : SockError) : NetError := match e with UnexpectedEof => NE_Closed | OtherIo => NE_Io end.
Definition io_err (_ : SockError) : NetError := NE_Io.
Definition sock_err {A} (e : NetError) : Sock A := st_lift (Err e).

(** ** Frames *)
Definition write_frame (c : C) (body : bytes) : Sock unit :=
  do! _ := st_reject (u32_max <? len body)%N (NE_FrameTooLarge u32_max) in
  do! _ := st_reject (MAX_FRAME <? len body)%N (NE_FrameTooLarge (len body)) in
  do! _ := io io_err (nt_write_all c (be 4 (len body))) in
  io io_err (nt_write_all c body).

Definition read_frame (c : C) : Sock bytes :=
  do! len_buf := io eof_closed (nt_read_exact c 4) in
  let len := of_be len_buf in
  do! _ := st_reject (MAX_FRAME <? len)%N (NE_FrameTooLarge len) in
  io eof_closed (nt_read_exact c (N.to_nat len)).

Definition round_trip (c : C) (bs : bytes) : Sock Response :=
  do! _ := write_frame c bs in
  do! body := read_frame c in
  do! res := st_lift (map_err NE_Decode (response_decode body)) in
  match res with
  | RsError msg => sock_err (NE_Peer msg)
  | res => st_ret res
  end.

(** ** SOCKS5 *)
Definition SOCKS_VERSION : byte := x05.
Definition NO_AUTH : byte := x00.
Definition CMD_CONNECT : byte := x01.
Definition ATYP_IPV4 : byte := x01.
Definition ATYP_DOMAIN : byte := x03.
Definition ATYP_IPV6 : byte := x04.

Definition greeting : bytes := [SOCKS_VERSION; x01; NO_AUTH].
Definition connect_request (host : bytes) (port : N) : bytes :=
  [SOCKS_VERSION; CMD_CONNECT; x00; ATYP_DOMAIN; n2b (len host)] ++ host ++ be 2 port.

Definition socks_drain (c : C) (n : nat) : Sock unit := do! _ := io io_err (nt_read_exact c n) in st_ret tt.

Definition connect_via (proxy host : bytes) (port : N) : Sock C :=
  do! _ := st_reject (bool_decide (host = []) || (255 <? len host)%N) NE_Io in
  do! s := io io_err (nt_connect proxy) in
  do! _ := io io_err (nt_write_all s greeting) in
  do! answer := io io_err (nt_read_exact s 2) in
  match answer with
  | [version; method] =>
    do! _ := st_reject (negb (bool_decide (version = SOCKS_VERSION))) NE_Io in
    do! _ := st_reject (negb (bool_decide (method = NO_AUTH))) NE_Io in
    do! _ := io io_err (nt_write_all s (connect_request host port)) in
    do! head := io io_err (nt_read_exact s 4) in
    match head with
    | [version; reply; _; atyp] =>
      do! _ := st_reject (negb (bool_decide (version = SOCKS_VERSION))) NE_Io in
      do! _ := st_reject (negb (bool_decide (reply = x00))) NE_Io in
      do! _ :=
        (if bool_decide (atyp = ATYP_IPV4) then socks_drain s (4 + 2)
         else if bool_decide (atyp = ATYP_IPV6) then socks_drain s (16 + 2)
         else if bool_decide (atyp = ATYP_DOMAIN) then
           do! len := io io_err (nt_read_exact s 1) in
           socks_drain s (N.to_nat (of_be len) + 2)
         else sock_err NE_Io) in
      st_ret s
    | _ => st_index None
    end
  | _ => st_index None
  end.

(** ** Dialling *)
Definition split_host_port (addr : bytes) : result (bytes * N) NetError :=
  let? hp := ok_or (rsplit_once x3a addr) NE_Io in
  let? port := ok_or (parse_u16 hp.2) NE_Io in
  Ok (drop_trailing x5d (drop_leading x5b hp.1), port).

(** [env] is the variable [DANTE_SOCKS5]. *)
Definition proxy_for (env : option bytes) (host : bytes) : option bytes :=
  match env with
  | Some p =>
    if bool_decide (trim p = [])
    then if ends_with (lit ".onion") host then Some TOR_SOCKS else None
    else Some (trim p)
  | None => if ends_with (lit ".onion") host then Some TOR_SOCKS else None
  end.

Definition dial (env : option bytes) (addr : bytes) : Sock C :=
  do! hp := st_lift (split_host_port addr) in
  match proxy_for env hp.1 with
  | Some p => connect_via p hp.1 hp.2
  | None => io io_err (nt_connect addr)
  end.

(** ** The TCP client *)
Record TcpBackend := mkTcp { tb_addrs : list bytes; tb_current : nat; tb_stream : option C }.

Section client.
Context (env : option bytes).
Notation Client A := (Step (TcpBackend * W) NetError A).

Definition on_net {A} (m : Sock A) : Client A :=
  λ '(t, w), match m w with Some (r, w) => Some (r, (t, w)) | None => None end.
Definition set_stream (s : option C) (t : TcpBackend) : TcpBackend := mkTcp (tb_addrs t) (tb_current t) s.
Definition set_current (i : nat) (t : TcpBackend) : TcpBackend := mkTcp (tb_addrs t) i (tb_stream t).
Definition on_tcp (f : TcpBackend → TcpBackend) : Client unit := st_modify (prod_map f id).

(** Go on with the outcome of a step, whatever it is. *)
Definition outcome_of {S E A} (m : Step S E A) : Step S E (result A E) :=
  λ s, match m s with Some (r, s) => Some (Ok r, s) | None => None end.

Fixpoint reconnect_loop (idxs : list nat) (last : NetError) : Client unit :=
  match idxs with
  | [] => st_lift (Err last)
  | idx :: idxs =>
    do! t := st_get in
    do! addr := st_index (tb_addrs t.1 !! idx) in
    do! r := outcome_of (on_net (dial env addr)) in
    match r with
    | Ok stream => on_tcp (λ t, set_current idx (set_stream (Some stream) t))
    | Err e => reconnect_loop idxs e
    end
  end.
(** The endpoints, from the current one round. *)
Definition rotation_from (current n : nat) : list nat := (λ step, ((current + step) mod n)%nat) <$> seq 0 n.
Definition reconnect : Client unit :=
  do! _ := on_tcp (set_stream None) in
  do! t := st_get in
  reconnect_loop (rotation_from (tb_current t.1) (length (tb_addrs t.1))) NE_Closed.

(** [n] attempts remain of the two. *)
Fixpoint tcp_attempts (n : nat) (bs : bytes) (last : NetError) : Client Response :=
  match n with
  | O => st_lift (Err last)
  | S n =>
    do! t := st_get in
    do! ready := (match tb_stream t.1 with
                  | Some _ => st_ret (Ok tt)
                  | None => outcome_of reconnect
                  end) in
    match ready with
    | Err e => tcp_attempts n bs e
    | Ok _ =>
      do! t := st_get in
      do! stream := st_index (tb_stream t.1) in
      do! r := outcome_of (on_net (round_trip stream bs)) in
      match r with
      | Ok res => st_ret res
      | Err (NE_Peer msg) => st_lift (Err (NE_Peer msg))
      | Err e =>
        do! _ := on_tcp (set_stream None) in
        tcp_attempts n bs e
      end
    end
  end.
Definition tcp_request (req : Request) : Client Response := tcp_attempts 2 (request_encode req) NE_Closed.

Definition candidate_addrs (addrs : list bytes) : list bytes :=
  List.filter (λ a, negb (bool_decide (a = []))) (trim <$> addrs).
Definition connect_multi (addrs : list bytes) (w : W) : option (result TcpBackend NetError * W) :=
  let addrs := candidate_addrs addrs in
  if bool_decide (addrs = []) then Some (Err NE_Closed, w)
  else
    match reconnect (mkTcp addrs 0 None, w) with
    | Some (Ok _, (t, w)) => Some (Ok t, w)
    | Some (Err e, (_, w)) => Some (Err e, w)
    | None => None
    end.
Definition tcp_endpoint (t : TcpBackend) : option bytes := tb_addrs t !! tb_current t.
End client.

(** ** The relay's side of a connection *)

(** [RequestHandler], on the handler's state; [None] is a panic, which ends
    the connection's task. *)
Section serving.
Context {T : Type} (handle : Request → T → option (Response * T)) (show : WireError → bytes).
Notation Serve A := (Step (T * W) NetError A).

Definition serving {A} (m : Sock A) : Serve A :=
  λ '(s, w), match m w with Some (r, w) => Some (r, (s, w)) | None => None end.
Definition respond (body : bytes) : Serve Response := λ '(s, w),
  match request_decode body with
  | Ok req => match handle req s with Some (resp, s) => Some (Ok resp, (s, w)) | None => None end
  | Err e => Some (Ok (RsError (lit "bad request: " ++ show e)), (s, w))
  end.

(** The loop of [serve_conn]; a connection that closes ends it, and so does
    the deadline for the next frame.  [fuel] bounds the number of requests. *)
Fixpoint serve_conn (fuel : nat) (c : C) : Serve unit :=
  match fuel with
  | O => st_ret tt
  | S fuel =>
    do! r := outcome_of (serving (read_frame c)) in
    match r with
    | Ok body =>
      do! response := respond body in
      do! _ := serving (write_frame c (response_encode response)) in
      serve_conn fuel c
    | Err NE_Closed => st_ret tt
    | Err e => st_lift (Err e)
    end
  end.
End serving.
End net.

(** [serve_with_conn_count]: a newcomer at the limit is dropped. *)
Definition accept_conn (open : nat) : bool * nat :=
  if (open <? MAX_CONNECTIONS)%nat then (true, S open) else (false, open).
Definition conn_ended (open : nat) : nat := pred open.

(** ** The libp2p client *)

(** A request to a peer fails with a text.  [nd_arrival] is the order in which
    concurrent requests to these candidates complete; one whose task panics is
    left out. *)
Class P2pNode (W : Type) : Type := {
  nd_request : bytes → bytes → W → result bytes bytes * W;
  nd_arrival : list nat → W → list nat;
}.

(** The score is an [i32] that is never negative. *)
Record Cand := mkCand { cd_peer : bytes; cd_score : N }.
Definition cand_new (peer : bytes) : Cand := mkCand peer 0.

Inductive FanOut : Type :=
  | FanWrite
  | FanMergeEnvelopes
  | FanChannel (channel_id : bytes)
  | FanOne.

Definition fan_out (req : Request) : FanOut :=
  match req with
  | RqDeposit _ | RqPutBlob _ | RqPublishPrekeys _ | RqSubmitRecord _ => FanWrite
  | RqFetch _ _ => FanMergeEnvelopes
  | RqPostToChannel channel_id _ _ _ | RqFetchChannel channel_id _ | RqSetChannelRoster channel_id _ _ _ _ =>
    FanChannel channel_id
  | _ => FanOne
  end.

Section p2p.
Context `{CryptoPrims} {W : Type} `{!P2pNode W}.
Notation PoolStep A := (Step (list Cand * W) NetError A).

Definition hrw (peer channel_id : bytes) : bytes := sha256 (peer ++ channel_id).

Definition order (cands : list Cand) : list nat :=
  sort_by_key (λ i, from_option cd_score 0%N (cands !! i)) (seq 0 (length cands)).

(** Dead relays last, then by hash; arrays of 32 bytes compare as numbers. *)
Definition channel_key (channel_id : bytes) (c : Cand) : N :=
  ((if (20 <=? cd_score c)%N then 2 ^ 256 else 0) + of_be (hrw (cd_peer c) channel_id))%N.
Definition channel_order (cands : list Cand) (channel_id : bytes) : list nat :=
  sort_by_key (λ i, from_option (channel_key channel_id) 0%N (cands !! i)) (seq 0 (length cands)).

Definition bump_cand (c : Cand) : Cand := mkCand (cd_peer c) (N.min (cd_score c + 2) 20).
Definition heal_cand (c : Cand) : Cand := mkCand (cd_peer c) (cd_score c - 1).
Definition bump (i : nat) : PoolStep unit := st_modify (prod_map (alter bump_cand i) id).
Definition heal (i : nat) : PoolStep unit := st_modify (prod_map (alter heal_cand i) id).

(** Whatever goes wrong on the way becomes an error of the peer. *)
Definition p2p_one (peer bs : bytes) (w : W) : result Response NetError * W :=
  let '(raw, w) := nd_request peer bs w in
  ((let? raw := map_err NE_Peer raw in
    let? res := map_err NE_Decode (response_decode raw) in
    match res with RsError msg => Err (NE_Peer msg) | res => Ok res end), w).

Definition ask_cand (i : nat) (bs : bytes) : PoolStep (result Response NetError) := λ '(cands, w),
  match cands !! i with
  | None => None
  | Some c => let '(r, w) := p2p_one (cd_peer c) bs w in Some (Ok r, (cands, w))
  end.

Fixpoint gather (idxs : list nat) (bs : bytes) : PoolStep (list (nat * result Response NetError)) :=
  match idxs with
  | [] => st_ret []
  | i :: idxs =>
    do! r := ask_cand i bs in
    do! rs := gather idxs bs in
    st_ret ((i, r) :: rs)
  end.

(** The accounting of a fan-out: success heals, a refusal by the relay does
    not count, any other failure does. *)
Definition fan_score (i : nat) (r : result Response NetError) : PoolStep unit :=
  match r with
  | Ok _ => heal i
  | Err (NE_Peer _) => st_ret tt
  | Err _ => bump i
  end.
Fixpoint fan_scores (rs : list (nat * result Response NetError)) : PoolStep unit :=
  match rs with
  | [] => st_ret tt
  | (i, r) :: rs => do! _ := fan_score i r in fan_scores rs
  end.
Definition last_ok (rs : list (nat * result Response NetError)) : option Response :=
  foldl (λ ok ir, match ir.2 with Ok r => Some r | Err _ => ok end) None rs.
Definition last_error (rs : list (nat * result Response NetError)) : NetError :=
  foldl (λ e ir, match ir.2 with Ok _ => e | Err e => e end) NE_Closed rs.
Definition merged (rs : list (nat * result Response NetError)) : list bytes :=
  mbind (λ ir, match ir.2 with Ok (RsEnvelopes v) => v | _ => [] end) rs.

(** One relay after the other, until one answers. *)
Fixpoint try_each (idxs : list nat) (bs : bytes) (last : NetError) : PoolStep Response :=
  match idxs with
  | [] => st_lift (Err last)
  | i :: idxs =>
    do! r := ask_cand i bs in
    match r with
    | Ok res => do! _ := heal i in st_ret res
    | Err (NE_Peer msg) => st_lift (Err (NE_Peer msg))
    | Err e => do! _ := bump i in try_each idxs bs e
    end
  end.

Definition p2p_request (req : Request) : PoolStep Response :=
  let bs := request_encode req in
  do! cw := st_get in
  match fan_out req with
  | FanWrite =>
    do! rs := gather (nd_arrival (order cw.1) cw.2) bs in
    do! _ := fan_scores rs in
    st_lift (ok_or (last_ok rs) (last_error rs))
  | FanMergeEnvelopes =>
    do! rs := gather (nd_arrival (order cw.1) cw.2) bs in
    do! _ := fan_scores rs in
    match last_ok rs with
    | Some _ => st_ret (RsEnvelopes (merged rs))
    | None => st_lift (Err (last_error rs))
    end
  | FanChannel channel_id => try_each (channel_order cw.1 channel_id) bs NE_Closed
  | FanOne => try_each (order cw.1) bs NE_Closed
  end.
End p2p.
