(* ===== verification/TransportTheorems.v ===== *)
(** * What holds of the transport
    A request over TCP is a call of the relay's handler; which relay a libp2p
    client asks, and when it gives up. *)

From S2P Require Import Prelude Utf8 Enc Crypto ProtoRecord IdentityRecords Server Ledger Mailbox RateLimit Wire WireProofs RelayParts RelayChannels Relay RelayProofs LedgerTheorems RelayTheorems Roles Invite Sync Transport.

(** ** A connection in memory *)

(** What each side has sent and the other has not read. *)
Record Duplex := mkDuplex { du_in : bytes; du_out : bytes }.

#[export] Instance duplex : Net Duplex unit := {|
  nt_connect := λ _ d, (Ok tt, d);
  nt_read_exact := λ _ n d,
    if (n <=? length (du_in d))%nat then (Ok (take n (du_in d)), mkDuplex (drop n (du_in d)) (du_out d))
    else (Err UnexpectedEof, d);
  nt_write_all := λ _ bs d, (Ok tt, mkDuplex (du_in d) (du_out d ++ bs));
|}.

(** A relay at the other end, which runs when the client waits for it.  A
    panic of its handler closes the connection. *)
Section link.
Context {T : Type} (handle : Request → T → option (Response * T)) (show : WireError → bytes).

Record Link := mkLink { lk_buffers : Duplex; lk_state : T }.

(** The client's bytes are the relay's input. *)
Definition relay_runs (l : Link) : Link :=
  match serve_conn handle show (S (length (du_in (lk_buffers l)))) tt (lk_state l, lk_buffers l) with
  | Some (_, (s, d)) => mkLink d s
  | None => l
  end.

Definition link : Net Link unit := {|
  nt_connect := λ _ l, (Ok tt, l);
  nt_write_all := λ _ bs l, (Ok tt, mkLink (mkDuplex (du_in (lk_buffers l) ++ bs) (du_out (lk_buffers l))) (lk_state l));
  nt_read_exact := λ _ n l,
    let l := relay_runs l in
    let d := lk_buffers l in
    if (n <=? length (du_out d))%nat
    then (Ok (take n (du_out d)), mkLink (mkDuplex (du_in d) (drop n (du_out d))) (lk_state l))
    else (Err UnexpectedEof, l);
|}.
End link.
Arguments mkLink {T}.
Arguments lk_buffers {T}.
Arguments lk_state {T}.

(** ** Frames *)
Definition frame_of (body : bytes) : bytes := be 4 (len body) ++ body.
Definition frame_fits (body : bytes) : Prop := (len body ≤ MAX_FRAME)%N.

Lemma frame_len body : frame_fits body → of_be (be 4 (len body)) = len body ∧ (len body <= u32_max)%N.
Proof.
  unfold frame_fits, MAX_FRAME, u32_max. intros Hf. split; [|lia]. rewrite of_be_be. apply N.mod_small.
  change (256 ^ N.of_nat 4)%N with 4294967296%N. lia.
Qed.

Section frames.
Context {W C : Type} `{!Net W C}.

(** Both writes succeed, one after the other. *)
Lemma write_frame_ok c body w w1 w2 :
  frame_fits body → nt_write_all c (be 4 (len body)) w = (Ok tt, w1) → nt_write_all c body w1 = (Ok tt, w2) →
  write_frame c body w = Some (Ok tt, w2).
Proof.
  intros Hf H1 H2. destruct (frame_len body Hf) as [_ Hu]. unfold frame_fits in Hf.
  unfold write_frame, st_bind, st_reject, io.
  rewrite (proj2 (N.ltb_ge _ _) Hu), (proj2 (N.ltb_ge _ _) Hf), H1. cbn [map_err]. by rewrite H2.
Qed.

Lemma read_frame_ok c body w w1 w2 :
  frame_fits body → nt_read_exact c 4 w = (Ok (be 4 (len body)), w1) →
  nt_read_exact c (length body) w1 = (Ok body, w2) → read_frame c w = Some (Ok body, w2).
Proof.
  intros Hf H1 H2. destruct (frame_len body Hf) as [Hlen _]. unfold frame_fits in Hf.
  unfold read_frame, st_bind, st_reject, io. rewrite H1. cbn [map_err]. rewrite Hlen, (proj2 (N.ltb_ge _ _) Hf).
  replace (N.to_nat (len body)) with (length body) by (unfold len; lia). by rewrite H2.
Qed.
End frames.

(** Reading what was framed. *)
Lemma duplex_reads body rest out :
  frame_fits body → read_frame tt (mkDuplex (frame_of body ++ rest) out) = Some (Ok body, mkDuplex rest out).
Proof.
  intros Hf. unfold frame_of. rewrite <- app_assoc.
  eapply (read_frame_ok tt body _ (mkDuplex (body ++ rest) out)); [done|..]; cbn [nt_read_exact duplex du_in du_out].
  - rewrite length_app, length_be. cbn [Nat.leb]. by rewrite take_app_all, drop_app_all by by rewrite length_be.
  - rewrite length_app, (proj2 (Nat.leb_le _ _)) by lia. by rewrite take_app_length, drop_app_length.
Qed.
Lemma duplex_writes body inp out :
  frame_fits body → write_frame tt body (mkDuplex inp out) = Some (Ok tt, mkDuplex inp (out ++ frame_of body)).
Proof. intros Hf. eapply write_frame_ok; [done|done|]. unfold frame_of. by rewrite app_assoc. Qed.
Lemma duplex_empty out : read_frame tt (mkDuplex [] out) = Some (Err NE_Closed, mkDuplex [] out).
Proof. done. Qed.

(** ** SOCKS5 *)

Lemma duplex_reads_all xs rest out :
  nt_read_exact tt (length xs) (mkDuplex (xs ++ rest) out) = (Ok xs, mkDuplex rest out).
Proof.
  cbn [nt_read_exact duplex du_in du_out]. rewrite length_app, (proj2 (Nat.leb_le _ _)) by lia.
  by rewrite take_app_length, drop_app_length.
Qed.
Lemma read_bind {A} f n xs rest out (k : bytes → Step Duplex NetError A) :
  length xs = n → st_bind (io f (nt_read_exact tt n)) k (mkDuplex (xs ++ rest) out) = k xs (mkDuplex rest out).
Proof. intros <-. unfold st_bind, io. by rewrite duplex_reads_all. Qed.
Lemma write_bind {A} f bs inp out (k : unit → Step Duplex NetError A) :
  st_bind (io f (nt_write_all tt bs)) k (mkDuplex inp out) = k tt (mkDuplex inp (out ++ bs)).
Proof. done. Qed.
Lemma pass_bind {S E A} c (e : E) (k : unit → Step S E A) s : c = false → st_bind (st_reject c e) k s = k tt s.
Proof. by intros ->. Qed.
Lemma duplex_drains n xs rest out :
  length xs = n → socks_drain (C:=unit) tt n (mkDuplex (xs ++ rest) out) = Some (Ok tt, mkDuplex rest out).
Proof. intros Hn. unfold socks_drain. by rewrite read_bind. Qed.
Lemma drain_bind {A} n xs rest out (k : unit → Step Duplex NetError A) :
  length xs = n → st_bind (socks_drain tt n) k (mkDuplex (xs ++ rest) out) = k tt (mkDuplex rest out).
Proof. intros Hn. unfold st_bind at 1. by rewrite duplex_drains. Qed.

(** The address a proxy reports: four bytes, sixteen, or a name. *)
Inductive bound_addr : byte → bytes → Prop :=
  | bound_v4 ip : length ip = 4%nat → bound_addr ATYP_IPV4 ip
  | bound_v6 ip : length ip = 16%nat → bound_addr ATYP_IPV6 ip
  | bound_name name : (len name < 256)%N → bound_addr ATYP_DOMAIN (n2b (len name) :: name).

(** A proxy's handshake leaves a clean tunnel.  Against a SOCKS5 proxy that
    accepts, whatever address it reports, the client sends the greeting and a
    request for the very name it was given, unresolved, and takes from the
    connection exactly the proxy's two replies: the next byte it reads is the
    relay's. *)
Theorem socks_tunnel proxy host port rsv atyp addr bport rest out :
  host ≠ [] → (len host ≤ 255)%N → bound_addr atyp addr → length bport = 2%nat →
  connect_via proxy host port (mkDuplex ([SOCKS_VERSION; NO_AUTH; SOCKS_VERSION; x00; rsv; atyp] ++ addr ++ bport ++ rest) out) =
    Some (Ok tt, mkDuplex rest (out ++ greeting ++ connect_request host port)).
Proof.
  intros Hne Hlen Ha Hp. unfold connect_via.
  rewrite pass_bind by by rewrite (bool_decide_eq_false_2 _ Hne), (proj2 (N.ltb_ge _ _) Hlen).
  unfold st_bind at 1, io at 1. cbn [nt_connect duplex map_err]. rewrite write_bind.
  change ([?a; ?b; ?c; ?d; ?e; ?f] ++ ?l) with ([a; b] ++ [c; d; e; f] ++ l).
  rewrite (read_bind _ 2 [_; _]), !pass_bind, write_bind, (read_bind _ 4 [_; _; _; _]), !pass_bind by done.
  rewrite <- !app_assoc. destruct Ha as [ip Hi|ip Hi|name Hn].
  - rewrite bool_decide_eq_true_2, app_assoc, drain_bind by (done || rewrite length_app; lia). done.
  - rewrite bool_decide_eq_false_2, bool_decide_eq_true_2, app_assoc, drain_bind by (done || rewrite length_app; lia). done.
  - rewrite !bool_decide_eq_false_2, bool_decide_eq_true_2 by done.
    unfold st_bind at 1. change ((n2b (len name) :: name) ++ ?l) with ([n2b (len name)] ++ name ++ l).
    rewrite (read_bind _ 1 [_]) by done. rewrite app_assoc.
    assert (Hl : N.to_nat (of_be [n2b (len name)]) = length name)
      by (unfold of_be; cbn [foldl]; rewrite b2n_n2b, N.mod_small by done; unfold len; lia).
    rewrite duplex_drains; [done|]. rewrite Hl, length_app. lia.
Qed.

Section served.
Context {T : Type} (handle : Request → T → option (Response * T)) (show : WireError → bytes).
#[local] Instance the_link : Net (Link (T:=T)) unit := link handle show.

(** One request waiting: the relay answers it, and waits for the next. *)
Lemma relay_answers q s s' resp fuel out :
  request_ok q → frame_fits (request_encode q) → handle q s = Some (resp, s') → frame_fits (response_encode resp) →
  serve_conn handle show (S (S fuel)) tt (s, mkDuplex (frame_of (request_encode q)) out) =
    Some (Ok tt, (s', mkDuplex [] (out ++ frame_of (response_encode resp)))).
Proof.
  intros Hq Hfq Hh Hfr. cbn [serve_conn].
  unfold st_bind at 1, outcome_of, serving. rewrite <- (app_nil_r (frame_of _)), duplex_reads by done.
  unfold st_bind at 1, respond. rewrite request_round, Hh by done.
  unfold st_bind at 1. rewrite duplex_writes by done. cbn [serve_conn].
  unfold st_bind at 1. by rewrite duplex_empty.
Qed.

Lemma round_trip_served q s s' resp :
  request_ok q → frame_fits (request_encode q) → handle q s = Some (resp, s') →
  response_ok resp → frame_fits (response_encode resp) →
  round_trip tt (request_encode q) (mkLink (mkDuplex [] []) s) =
    Some (match resp with RsError msg => Err (NE_Peer msg) | _ => Ok resp end, mkLink (mkDuplex [] []) s').
Proof.
  intros Hq Hfq Hh Hr Hfr. unfold round_trip. unfold st_bind at 1.
  erewrite write_frame_ok; [|done|done|done]. cbn [nt_write_all the_link link lk_buffers lk_state du_in du_out app].
  fold (frame_of (request_encode q)).
  set (l := mkLink (mkDuplex (frame_of (request_encode q)) []) s).
  assert (Hrun : relay_runs handle show l = mkLink (mkDuplex [] (frame_of (response_encode resp))) s').
  { unfold relay_runs. cbn [lk_buffers lk_state l du_in]. 
    destruct (length (frame_of (request_encode q))) eqn:El; [by unfold frame_of in El; rewrite length_app, length_be in El|].
    by rewrite (relay_answers q s s' resp). }
  assert (Hidle : ∀ out, relay_runs handle show (mkLink (mkDuplex [] out) s') = mkLink (mkDuplex [] out) s') by done.
  unfold st_bind at 1. erewrite read_frame_ok; [| exact Hfr| |].
  - unfold st_bind, st_lift. rewrite response_round by done. cbn [map_err]. by destruct resp.
  - cbn [nt_read_exact the_link link]. rewrite Hrun. cbn [lk_buffers du_out du_in lk_state].
    unfold frame_of at 1. rewrite length_app, length_be. cbn [Nat.leb]. unfold frame_of.
    by rewrite take_app_all, drop_app_all by by rewrite length_be.
  - cbn [nt_read_exact the_link link]. rewrite Hidle. cbn [lk_buffers du_out du_in lk_state].
    rewrite Nat.leb_refl, firstn_all, drop_all. done.
Qed.
End served.

(** ** The relay behind a TCP connection *)
Section refinement.
Context `{CryptoPrims, TurnAuth}.
Context (show_ledger : LedgerError → string) (show_net : NetError → string) (ip : IpAddr) (now : N) (show : WireError → bytes).

(** The handler of the relay's process. *)
Definition relay_handler (q : Request) (s : RelayState) : option (Response * RelayState) :=
  match handle q ip now s with
  | Some (r, s) => Some (to_response show_ledger show_net r, s)
  | None => None
  end.
#[local] Instance relay_link : Net (Link (T:=RelayState)) unit := link relay_handler show.

(** C26: TCP carries the request interface.  For a client with an open
    connection to a relay, a request that is encoded, framed, read, decoded,
    handled, and whose response comes back the same way, is exactly the call
    of the relay that the rest of the development takes a connection to be:
    the same result, errors of the relay as errors of the peer, the same state
    of the relay, and nothing left over on the wire. *)
Theorem tcp_refines_connection env q t s r s' :
  tb_stream t = Some tt → request_ok q → frame_fits (request_encode q) →
  handle q ip now s = Some (r, s') →
  response_ok (to_response show_ledger show_net r) → frame_fits (response_encode (to_response show_ledger show_net r)) →
  let res := relay_request show_ledger show_net ip now q s in
  tcp_request env q (t, mkLink (mkDuplex [] []) s) = Some (res.1, (t, mkLink (mkDuplex [] []) res.2)).
Proof.
  intros Ht Hq Hfq Hh Hr Hfr. unfold relay_request. rewrite Hh. cbn [fst snd].
  pose proof (round_trip_served relay_handler show q s s' (to_response show_ledger show_net r) Hq Hfq) as Hrt.
  unfold relay_handler in Hrt at 1. rewrite Hh in Hrt. specialize (Hrt eq_refl Hr Hfr).
  change (the_link relay_handler show) with relay_link in Hrt.
  unfold tcp_request. cbn [tcp_attempts]. rewrite st_get_bind. cbn [fst]. rewrite Ht.
  unfold st_bind at 1, st_ret. rewrite st_get_bind. cbn [fst]. rewrite Ht.
  unfold st_bind at 1, st_index. unfold st_bind at 1, outcome_of, on_net. rewrite Hrt.
  by destruct (to_response show_ledger show_net r).
Qed.
End refinement.

(** ** Failing over *)
Section failover.
Context {W C : Type} `{!Net W C}.
Context (env : option bytes).

Lemma on_tcp_bind {A} f (k : unit → Step (TcpBackend (C:=C) * W) NetError A) t w :
  st_bind (on_tcp (C:=C) f) k (t, w) = k tt (f t, w).
Proof. done. Qed.

(** One attempt, on the connection that is open; *)
Lemma attempt_open n bs last t c w r w1 :
  tb_stream t = Some c → round_trip c bs w = Some (r, w1) →
  tcp_attempts env (S n) bs last (t, w) =
    match r with
    | Ok res => Some (Ok res, (t, w1))
    | Err (NE_Peer msg) => Some (Err (NE_Peer msg), (t, w1))
    | Err e => tcp_attempts env n bs e (set_stream None t, w1)
    end.
Proof.
  intros Ht Hr. cbn [tcp_attempts]. unfold st_bind, st_get, st_ret, st_index, outcome_of, on_net. cbn [fst]. rewrite Ht. cbn [fst]. rewrite Ht. cbv beta iota. rewrite Hr.
  destruct r as [|[]]; done.
Qed.
(** with none open, the client first dials. *)
Lemma attempt_closed n bs last t w t' w' c :
  tb_stream t = None → reconnect env (t, w) = Some (Ok tt, (t', w')) → tb_stream t' = Some c →
  tcp_attempts env (S n) bs last (t, w) = tcp_attempts env (S n) bs last (t', w').
Proof.
  intros Ht Hr Ht'. cbn [tcp_attempts]. unfold st_bind, st_get, st_ret, st_index, outcome_of. cbn [fst]. rewrite Ht, Ht'. cbv beta iota. rewrite Hr. cbn [fst]. by rewrite Ht'.
Qed.

(** None of these endpoints can be dialled. *)
Inductive unreachable (addrs : list bytes) : list nat → W → NetError → W → NetError → Prop :=
  | unreachable_nil w e : unreachable addrs [] w e w e
  | unreachable_cons i idxs addr w e w1 e1 w2 e2 :
      addrs !! i = Some addr → dial env addr w = Some (Err e1, w1) →
      unreachable addrs idxs w1 e1 w2 e2 → unreachable addrs (i :: idxs) w e w2 e2.

Lemma reconnect_reaches addrs cur st pre i post w e w1 e1 addr c w2 :
  unreachable addrs pre w e w1 e1 → addrs !! i = Some addr → dial env addr w1 = Some (Ok c, w2) →
  reconnect_loop env (pre ++ i :: post) e (mkTcp addrs cur st, w) = Some (Ok tt, (mkTcp addrs i (Some c), w2)).
Proof.
  intros Hp. revert cur st. induction Hp as [w e|j idxs a w e w1 e1 w2' e2 Ha Hd _ IH]; intros cur st Hi Hdial; cbn [app reconnect_loop].
  - rewrite st_get_bind. cbn [fst tb_addrs]. rewrite Hi. unfold st_bind at 1, st_index. unfold st_bind, outcome_of, on_net.
    by rewrite Hdial.
  - rewrite st_get_bind. cbn [fst tb_addrs]. rewrite Ha. unfold st_bind at 1, st_index. unfold st_bind at 1, outcome_of, on_net.
    rewrite Hd. by apply IH.
Qed.

Lemma reconnect_ok addrs cur st pre i post w w1 e1 addr c w2 :
  rotation_from cur (length addrs) = pre ++ i :: post →
  unreachable addrs pre w NE_Closed w1 e1 → addrs !! i = Some addr → dial env addr w1 = Some (Ok c, w2) →
  reconnect env (mkTcp addrs cur st, w) = Some (Ok tt, (mkTcp addrs i (Some c), w2)).
Proof.
  intros Hrot Hun Hi Hd. unfold reconnect. rewrite on_tcp_bind, st_get_bind. cbn [fst tb_addrs tb_current set_stream]. rewrite Hrot. eapply reconnect_reaches; eassumption.
Qed.

(** A request survives a lost connection.  When the exchange on the open
    connection fails for any reason but an answer of the relay, the client
    dials its endpoints from the current one round; the first that can be
    dialled gets the request, and if it answers, that is the result, and the
    client stays there.  An error that the relay itself returns is final. *)
Theorem tcp_fails_over q addrs cur c w r w1 :
  round_trip c (request_encode q) w = Some (r, w1) →
  match r with
  | Ok res => tcp_request env q (mkTcp addrs cur (Some c), w) = Some (Ok res, (mkTcp addrs cur (Some c), w1))
  | Err (NE_Peer msg) => tcp_request env q (mkTcp addrs cur (Some c), w) = Some (Err (NE_Peer msg), (mkTcp addrs cur (Some c), w1))
  | Err _ => ∀ pre i post addr w2 e2 c' w3 res w4,
      rotation_from cur (length addrs) = pre ++ i :: post →
      unreachable addrs pre w1 NE_Closed w2 e2 → addrs !! i = Some addr → dial env addr w2 = Some (Ok c', w3) →
      round_trip c' (request_encode q) w3 = Some (Ok res, w4) →
      tcp_request env q (mkTcp addrs cur (Some c), w) = Some (Ok res, (mkTcp addrs i (Some c'), w4))
  end.
Proof.
  intros Hr. unfold tcp_request. rewrite (attempt_open _ _ _ (mkTcp addrs cur (Some c)) c _ _ _ eq_refl Hr).
  assert (Hgo : ∀ e pre i post addr w2 e2 c' w3 res w4,
      rotation_from cur (length addrs) = pre ++ i :: post →
      unreachable addrs pre w1 NE_Closed w2 e2 → addrs !! i = Some addr → dial env addr w2 = Some (Ok c', w3) →
      round_trip c' (request_encode q) w3 = Some (Ok res, w4) →
      tcp_attempts env 1 (request_encode q) e (mkTcp addrs cur None, w1) = Some (Ok res, (mkTcp addrs i (Some c'), w4))).
  { intros e pre i post addr w2 e2 c' w3 res w4 Hrot Hun Hi Hd Hrt.
    rewrite (attempt_closed _ _ _ (mkTcp addrs cur None) _ (mkTcp addrs i (Some c')) w3 c' eq_refl); [|by eapply reconnect_ok|done].
    by rewrite (attempt_open _ _ _ (mkTcp addrs i (Some c')) c' _ _ _ eq_refl Hrt). }
  destruct r as [res|[]]; first [done | exact (Hgo _)].
Qed.
End failover.

(** ** The libp2p client *)
Section p2p.
Context `{CryptoPrims, !CryptoLaws} {W : Type} `{!P2pNode W}.

(** Sorting indices by a key of the elements is sorting the elements. *)
Lemma insert_by_fmap {A B} (f : A → B) (key : B → N) x l :
  f <$> insert_by (key ∘ f) x l = insert_by key (f x) (f <$> l).
Proof. induction l as [|y l IH]; [done|]. cbn. case_match; cbn; [done|]. by rewrite IH. Qed.
Lemma sort_by_fmap {A B} (f : A → B) (key : B → N) l : f <$> sort_by_key (key ∘ f) l = sort_by_key key (f <$> l).
Proof.
  induction l as [|x l IH]; [done|]. unfold sort_by_key in *. cbn [foldr fmap list_fmap]. by rewrite insert_by_fmap, IH.
Qed.

Definition cand_key (key : Cand → N) (o : option Cand) : N := from_option key 0%N o.
Lemma sorted_cands (key : Cand → N) cands :
  (λ i, cands !! i) <$> sort_by_key (λ i, cand_key key (cands !! i)) (seq 0 (length cands)) = Some <$> sort_by_key key cands.
Proof.
  etrans; [exact (sort_by_fmap (λ i : nat, cands !! i) (cand_key key) (seq 0 (length cands)))|].
  assert (E : (λ i, cands !! i) <$> seq 0 (length cands) = Some <$> cands).
  { apply list_eq. intros j. rewrite !list_lookup_fmap. destruct (decide (j < length cands)) as [Hj|Hj].
    - rewrite lookup_seq_lt by done. cbn. destruct (lookup_lt_is_Some_2 cands j Hj) as [c Hc]. by rewrite Hc.
    - rewrite lookup_ge_None_2 by (rewrite length_seq; lia). by rewrite lookup_ge_None_2 by lia. }
  rewrite E. symmetry. apply (sort_by_fmap Some (cand_key key)).
Qed.

(** Two sorted lists with the same elements, whose keys tell them apart. *)
Lemma sorted_unique {A} (key : A → N) l k :
  StronglySorted (λ a b, key a ≤ key b)%N l → StronglySorted (λ a b, key a ≤ key b)%N k → l ≡ₚ k →
  (∀ a b, a ∈ l → b ∈ l → key a = key b → a = b) → l = k.
Proof.
  intros Hl. revert k. induction Hl as [|a l Hl IH Ha]; intros k Hk Hp Hinj.
  - apply Permutation_nil in Hp. by subst.
  - destruct Hk as [|b k Hk Hb]; [by apply Permutation_nil_r in Hp|].
    assert (a = b) as ->.
    { apply Hinj; [by left|rewrite Hp; by left|].
      assert (Hin : b ∈ a :: l) by (rewrite Hp; by left). assert (Hin' : a ∈ b :: k) by (rewrite <- Hp; by left).
      apply elem_of_cons in Hin as [->|Hin]; [done|]. apply elem_of_cons in Hin' as [->|Hin']; [done|].
      rewrite list.Forall_forall in Ha, Hb. specialize (Ha _ Hin). specialize (Hb _ Hin'). lia. }
    f_equal. apply IH; [done|by apply Permutation_cons_inv in Hp|]. intros x y Hx Hy. apply Hinj; by right.
Qed.

Lemma channel_key_alive cid c : (cd_score c < 20)%N → channel_key cid c = of_be (hrw (cd_peer c) cid).
Proof. intros Hs. unfold channel_key. by rewrite (proj2 (N.leb_gt _ _)). Qed.
Lemma channel_key_inj cid c d :
  (cd_score c < 20)%N → (cd_score d < 20)%N → channel_key cid c = channel_key cid d → hrw (cd_peer c) cid = hrw (cd_peer d) cid.
Proof.
  intros Hc Hd. rewrite !channel_key_alive by done. intros E. eapply of_be_inj; [|exact E].
  unfold hrw. by rewrite !sha256_length.
Qed.

Definition routed (cands : list Cand) (cid : bytes) : list (option bytes) :=
  (λ i, cd_peer <$> cands !! i) <$> channel_order cands cid.

Lemma routed_sorted cands cid :
  routed cands cid = (Some ∘ cd_peer) <$> sort_by_key (channel_key cid) cands.
Proof.
  unfold routed, channel_order. pose proof (sorted_cands (channel_key cid) cands) as E.
  apply (f_equal (fmap (fmap cd_peer))) in E. rewrite <- !list_fmap_compose in E. exact E.
Qed.

(** C29: Clients agree on a channel's relay.  Two clients that know the same
    relays, none of which either holds for dead, try them for a channel in the
    same order, whatever order they learnt them in and whatever their other
    scores; so one relay numbers the channel's messages.  (The hashes of
    different relays must not collide.) *)
Theorem channel_routing_agrees a b cid :
  (cd_peer <$> a) ≡ₚ (cd_peer <$> b) → Forall (λ c, (cd_score c < 20)%N) a → Forall (λ c, (cd_score c < 20)%N) b →
  collision_free ((λ p, p ++ cid) <$> (cd_peer <$> a)) →
  routed a cid = routed b cid.
Proof.
  intros Hp Ha Hb Hinj. rewrite !routed_sorted, !list_fmap_compose. f_equal.
  set (hkey := λ p : bytes, of_be (hrw p cid)).
  assert (Hkey : ∀ l, Forall (λ c, (cd_score c < 20)%N) l → cd_peer <$> sort_by_key (channel_key cid) l = sort_by_key hkey (cd_peer <$> l)).
  { intros l Hl. rewrite <- (sort_by_fmap cd_peer hkey). f_equal. clear -Hl. unfold hkey.
    induction Hl as [|c l Hc Hl IH]; [done|]. unfold sort_by_key in *. cbn [foldr]. rewrite IH.
    set (k := foldr (insert_by ((λ p, of_be (hrw p cid)) ∘ cd_peer)) [] l).
    assert (Hk : ∀ k, Forall (λ c, (cd_score c < 20)%N) k → insert_by (channel_key cid) c k = insert_by ((λ p, of_be (hrw p cid)) ∘ cd_peer) c k).
    { clear k. induction 1 as [|d k Hd Hk IHk]; [done|]. cbn [insert_by]. rewrite !channel_key_alive, IHk by done. done. }
    apply Hk. change (Forall (λ c0, (cd_score c0 < 20)%N) (sort_by_key ((λ p, of_be (hrw p cid)) ∘ cd_peer) l)). by rewrite sort_by_key_perm. }
  rewrite !Hkey by done. apply (sorted_unique hkey); [apply sort_by_key_sorted..| |].
  - rewrite !sort_by_key_perm. exact Hp.
  - intros p p'. rewrite !sort_by_key_perm. intros Hi Hi' E. apply of_be_inj in E; [|by unfold hrw; rewrite !sha256_length].
    assert (p ++ cid = p' ++ cid) as E'; [|by apply app_inv_tail in E'].
    apply Hinj; [apply list_elem_of_fmap; eauto..|exact E].
Qed.
(** The relays a request goes to one after the other. *)
Definition candidates_in_turn (req : Request) (cands : list Cand) : list nat :=
  match fan_out req with
  | FanOne => order cands
  | FanChannel cid => channel_order cands cid
  | FanWrite | FanMergeEnvelopes => []
  end.

Lemma in_turn req cands w i js :
  candidates_in_turn req cands = i :: js →
  p2p_request req (cands, w) = try_each (i :: js) (request_encode req) NE_Closed (cands, w).
Proof.
  unfold candidates_in_turn, p2p_request. rewrite st_get_bind. cbn [fst]. by destruct (fan_out req); [..|intros ->|intros ->].
Qed.

(** A libp2p client does not fail over when a relay cannot be reached.  A
    failure to reach the relay is turned into the error a relay answers with,
    so the first relay in the order decides: no other relay is asked, the
    relay's health does not suffer, and the next request asks it again.  Only
    an answer that does not decode moves the client on, and counts. *)
Theorem p2p_gives_up req cands w i js c :
  candidates_in_turn req cands = i :: js → cands !! i = Some c →
  let '(raw, w') := nd_request (cd_peer c) (request_encode req) w in
  match raw with
  | Err text => p2p_request req (cands, w) = Some (Err (NE_Peer text), (cands, w'))
  | Ok bs =>
    match response_decode bs with
    | Err e => p2p_request req (cands, w) = try_each js (request_encode req) (NE_Decode e) (alter bump_cand i cands, w')
    | Ok (RsError msg) => p2p_request req (cands, w) = Some (Err (NE_Peer msg), (cands, w'))
    | Ok res => p2p_request req (cands, w) = Some (Ok res, (alter heal_cand i cands, w'))
    end
  end.
Proof.
  intros Hi Hc. rewrite (in_turn _ _ _ _ _ Hi).
  cbn [try_each]. unfold st_bind, ask_cand, p2p_one. rewrite Hc.
  destruct (nd_request (cd_peer c) (request_encode req) w) as [[bs|text] w']; [|done]. cbn [map_err result_bind].
  destruct (response_decode bs) as [res|e]; [|done]. by destruct res.
Qed.
End p2p.

(** ** Witnesses *)
Section witnesses.
Import Toy LedgerDemo RelayDemo.
#[local] Existing Instance Toy.prims.

Definition mute : WireError → bytes := λ _, [].


Lemma tcp_refines_connection_witness :
  let t := mkTcp [lit "relay.example:4600"] 0 (Some tt) in
  let w := relay_request (λ _, "?"%string) (λ _, "?"%string) ip 300 (post_request hello) r2 in
  tcp_request (Net0:=link (relay_handler (λ _, "?"%string) (λ _, "?"%string) ip 300) mute) None (post_request hello) (t, mkLink (mkDuplex [] []) r2) =
    Some (w.1, (t, mkLink (mkDuplex [] []) w.2)).
Proof.
  cbv zeta. refine (tcp_refines_connection _ _ ip 300 mute None (post_request hello) (mkTcp [lit "relay.example:4600"] 0 (Some tt)) r2 (Ok (RsPosted 1)) r3 eq_refl _ _ _ _ _).
  - apply (step_ok_spec _ r2). vm_compute; reflexivity.
  - apply N.leb_le. vm_compute; reflexivity.
  - apply (answered_act (post_request hello) 300 r2). vm_compute; reflexivity.
  - reflexivity.
  - apply N.leb_le. vm_compute; reflexivity.
Defined.

(** A proxy that reports a name. *)
Lemma socks_tunnel_witness :
  connect_via TOR_SOCKS (lit "abc.onion") 4600
    (mkDuplex ([SOCKS_VERSION; NO_AUTH; SOCKS_VERSION; x00; x00; ATYP_DOMAIN] ++ (n2b 3 :: lit "tor") ++ [x01; x02] ++ lit "relay") []) =
  Some (Ok tt, mkDuplex (lit "relay") ([] ++ greeting ++ connect_request (lit "abc.onion") 4600)).
Proof.
  refine (socks_tunnel TOR_SOCKS (lit "abc.onion") 4600 x00 ATYP_DOMAIN (n2b 3 :: lit "tor") [x01; x02] (lit "relay") [] _ _ _ _).
  - discriminate.
  - apply N.leb_le. reflexivity.
  - apply (bound_name (lit "tor")). reflexivity.
  - reflexivity.
Defined.

(** Two scores, and the same two relays learnt in another order. *)
Lemma channel_routing_agrees_witness :
  let a := [mkCand (lit "first") 0; mkCand (lit "second") 7] in
  let b := [mkCand (lit "second") 0; mkCand (lit "first") 19] in
  routed a cid = routed b cid ∧ routed a cid = [Some (lit "first"); Some (lit "second")].
Proof.
  cbv zeta. split; [|vm_compute; reflexivity]. apply channel_routing_agrees.
  - apply Permutation_swap.
  - repeat constructor.
  - repeat constructor.
  - apply collision_free_decide. vm_compute; reflexivity.
Defined.

(** The first relay is down and the second would answer. *)
#[local] Instance one_down : P2pNode unit := {|
  nd_request := λ peer _ w, (if bool_decide (peer = lit "down") then Err (lit "unreachable") else Ok (response_encode RsPong), w);
  nd_arrival := λ l _, l;
|}.
Lemma p2p_gives_up_witness :
  let cands := [mkCand (lit "down") 0; mkCand (lit "up") 0] in
  p2p_request RqPing (cands, tt) = Some (Err (NE_Peer (lit "unreachable")), (cands, tt)).
Proof. cbv zeta. exact (p2p_gives_up RqPing [mkCand (lit "down") 0; mkCand (lit "up") 0] tt 0 [1%nat] _ eq_refl eq_refl). Defined.

(** A network on which the first of two endpoints is dead and the connection
    at hand has been closed. *)
#[local] Instance flaky : Net Duplex bytes := {|
  nt_connect := λ addr d, (if bool_decide (addr = lit "a:1") then Err OtherIo else Ok addr, d);
  nt_read_exact := λ c n d, if bool_decide (c = lit "old") then (Err UnexpectedEof, d) else nt_read_exact tt n d;
  nt_write_all := λ c bs d, if bool_decide (c = lit "old") then (Ok tt, d) else nt_write_all tt bs d;
|}.
Lemma tcp_fails_over_witness :
  let addrs := [lit "a:1"; lit "b:2"] in
  let inbox := frame_of (response_encode RsPong) in
  tcp_request None RqPing (mkTcp addrs 0 (Some (lit "old")), mkDuplex inbox []) =
    Some (Ok RsPong, (mkTcp addrs 1 (Some (lit "b:2")), mkDuplex [] (frame_of (request_encode RqPing)))).
Proof.
  intros addrs inbox. set (d := mkDuplex inbox []).
  refine (tcp_fails_over None RqPing addrs 0 (lit "old") d (Err NE_Closed) d _
    [0%nat] 1 [] (lit "b:2") d NE_Io (lit "b:2") d RsPong (mkDuplex [] (frame_of (request_encode RqPing))) _ _ _ _ _).
  - vm_compute; reflexivity.
  - reflexivity.
  - apply (unreachable_cons _ _ 0 [] (lit "a:1") _ _ d NE_Io); [reflexivity|vm_compute; reflexivity|apply unreachable_nil].
  - reflexivity.
  - vm_compute; reflexivity.
  - vm_compute; reflexivity.
Defined.

(** The name of an onion service is told by its last characters as they stand:
    in capitals, it is dialled without the proxy. *)
Example onion_in_capitals :
  proxy_for None (lit "abc.onion") = Some TOR_SOCKS ∧ proxy_for None (lit "ABC.ONION") = None.
Proof. split; vm_compute; reflexivity. Qed.
End witnesses.
