(* ===== verification/Unfurl.v ===== *)
(** * The link-preview fetcher ([crates/dante-net/src/unfurl.rs]) and the
      relay's gate to it ([crates/dante-relay/src/unfurl.rs])

    A user's link is fetched over HTTP by a relay or by the local daemon, so
    each address that is connected to must be a public one.  DNS, sockets and
    TLS are outside the repository: the class [Web] has the calls that are
    made, on a world of its own, in any of which the deadline may pass.  Texts
    are their UTF-8 bytes. *)

From S2P Require Import Prelude Utf8 Enc Crypto Server Ledger Mailbox RateLimit Wire RelayParts Relay Invite Transport.

(** ** Bytes and text of the Standard Library *)

Definition has_prefix (p s : bytes) : bool := bool_decide (take (length p) s = p).

(** [hay.windows(n).position(|w| w == needle)] *)
Fixpoint position_from (i : nat) (hay needle : bytes) : option nat :=
  match hay with
  | [] => None
  | _ :: hay' => if has_prefix needle hay then Some i else position_from (S i) hay' needle
  end.
Definition find (hay needle : bytes) : option nat :=
  if bool_decide (needle = []) || (length hay <? length needle)%nat then None else position_from 0 hay needle.

(** [s.find([..])]: the first of these characters. *)
Fixpoint find_any (cs s : bytes) : option nat :=
  match s with
  | [] => None
  | b :: s => if bool_decide (b ∈ cs) then Some 0%nat else S <$> find_any cs s
  end.
(** [s.split_once(pat)] *)
Definition split_once (pat s : bytes) : option (bytes * bytes) :=
  (λ i, (take i s, drop (i + length pat) s)) <$> find s pat.
(** [s.split(c).next().unwrap_or(..)]: what comes before the first [c]. *)
Definition before (c : byte) (s : bytes) : bytes := match find_any [c] s with Some i => take i s | None => s end.
Definition contains (s pat : bytes) : bool := match find s pat with Some _ => true | None => false end.

(** [s.split(pat)] *)
Fixpoint split_fuel (fuel : nat) (pat s : bytes) : list bytes :=
  match fuel with
  | O => [s]
  | S fuel => match split_once pat s with Some (l, r) => l :: split_fuel fuel pat r | None => [s] end
  end.
Definition split_str (pat s : bytes) : list bytes := split_fuel (length s) pat s.
(** [s.replace(pat, by)] *)
Definition replace (pat new s : bytes) : bytes :=
  match split_str pat s with [] => [] | x :: l => x ++ mbind (λ y, new ++ y) l end.

(** [s.split_whitespace()] *)
Fixpoint word (s : bytes) : bytes :=
  match s with
  | [] => []
  | b :: s' => match after_space WHITE_SPACE s with Some _ => [] | None => b :: word s' end
  end.
Fixpoint words_fuel (fuel : nat) (s : bytes) : list bytes :=
  match fuel with
  | O => []
  | S fuel =>
    let s := trim_start s in
    if bool_decide (s = []) then [] else let w := word s in w :: words_fuel fuel (drop (length w) s)
  end.
Definition split_whitespace (s : bytes) : list bytes := words_fuel (S (length s)) s.

(** [String::from_utf8_lossy]: each maximal ill-formed sequence becomes
    U+FFFD. *)
Definition REPLACEMENT : bytes := [xef; xbf; xbd].
Definition between (lo hi : N) (b : byte) : bool := (lo <=? b2n b)%N && (b2n b <=? hi)%N.
Definition second_of_3 (b0 b1 : byte) : bool :=
  let n := b2n b0 in
  if (n =? 224)%N then between 160 191 b1 else if (n =? 237)%N then between 128 159 b1 else between 128 191 b1.
Definition second_of_4 (b0 b1 : byte) : bool :=
  let n := b2n b0 in
  if (n =? 240)%N then between 144 191 b1 else if (n =? 244)%N then between 128 143 b1 else between 128 191 b1.
Fixpoint from_utf8_lossy (s : bytes) : bytes :=
  match s with
  | [] => []
  | b0 :: r0 =>
    if between 0 127 b0 then b0 :: from_utf8_lossy r0
    else if between 194 223 b0 then
      match r0 with
      | b1 :: r1 => if is_cont b1 then [b0; b1] ++ from_utf8_lossy r1 else REPLACEMENT ++ from_utf8_lossy r0
      | [] => REPLACEMENT
      end
    else if between 224 239 b0 then
      match r0 with
      | b1 :: r1 =>
        if second_of_3 b0 b1 then
          match r1 with
          | b2 :: r2 => if is_cont b2 then [b0; b1; b2] ++ from_utf8_lossy r2 else REPLACEMENT ++ from_utf8_lossy r1
          | [] => REPLACEMENT
          end
        else REPLACEMENT ++ from_utf8_lossy r0
      | [] => REPLACEMENT
      end
    else if between 240 244 b0 then
      match r0 with
      | b1 :: r1 =>
        if second_of_4 b0 b1 then
          match r1 with
          | b2 :: r2 =>
            if is_cont b2 then
              match r2 with
              | b3 :: r3 =>
                if is_cont b3 then [b0; b1; b2; b3] ++ from_utf8_lossy r3 else REPLACEMENT ++ from_utf8_lossy r2
              | [] => REPLACEMENT
              end
            else REPLACEMENT ++ from_utf8_lossy r1
          | [] => REPLACEMENT
          end
        else REPLACEMENT ++ from_utf8_lossy r0
      | [] => REPLACEMENT
      end
    else REPLACEMENT ++ from_utf8_lossy r0
  end.

(** [s.chars().count()] and [s.chars().take(n)] of a well-formed string. *)
Definition char_count (s : bytes) : nat := length (List.filter (λ b, negb (is_cont b)) s).
Fixpoint chars_take (n : nat) (s : bytes) : bytes :=
  match s with
  | [] => []
  | b :: s =>
    if is_cont b then b :: chars_take n s
    else match n with O => [] | S n => b :: chars_take n s end
  end.

(** [usize::from_str_radix(s, 16)]; too large is an error. *)
Definition hex_digit (b : byte) : option N :=
  let n := b2n b in
  if between 48 57 b then Some (n - 48)%N
  else if between 97 102 b then Some (n - 87)%N
  else if between 65 70 b then Some (n - 55)%N
  else None.
Definition parse_hex (s : bytes) : option N :=
  let digits := match s with x2b :: s => s | _ => s end in
  if bool_decide (digits = []) then None
  else foldl (λ acc b, v ← acc; d ← hex_digit b;
         let v := (v * 16 + d)%N in if (v <=? u64_max)%N then Some v else None) (Some 0%N) digits.
Definition parse_usize : bytes → option N := parse_uint u64_max.

(** ** URLs *)

Definition COLON : byte := x3a.
Definition SLASH : byte := x2f.
Definition default_port (tls : bool) : N := if tls then 443 else 80.

(** [(path_and_query, host, port, is_tls)] *)
Definition split_url (url : bytes) : result (bytes * bytes * N * bool) bytes :=
  let? sr := ok_or (split_once (lit "://") url) (lit "url needs a scheme") in
  let scheme := ascii_lowercase <$> sr.1 in
  let rest := sr.2 in
  let? tls :=
    (if bool_decide (scheme = lit "https") then Ok true
     else if bool_decide (scheme = lit "http") then Ok false
     else Err (lit "only http and https links are previewed")) in
  let '(authority, path) :=
    match find_any (lit "/?#") rest with
    | Some i => (take i rest, drop i rest)
    | None => (rest, lit "/")
    end in
  let authority := match rsplit_once x40 authority with Some (_, r) => r | None => authority end in
  let? hp :=
    match authority with
    | x5b :: h =>
      let? ht := ok_or (split_once [x5d] h) (lit "bad ipv6 authority") in
      let port := match ht.2 with x3a :: p => parse_u16 p | _ => None end in
      Ok (ht.1, default (default_port tls) port)
    | _ =>
      match rsplit_once COLON authority with
      | Some (h, p) => let? p := ok_or (parse_u16 p) (lit "bad port") in Ok (h, p)
      | None => Ok (authority, default_port tls)
      end
    end in
  if bool_decide (hp.1 = []) then Err (lit "url has no host")
  else Ok (if bool_decide (path = []) then lit "/" else path, hp.1, hp.2, tls).

Definition url_host (url : bytes) : option bytes :=
  match split_url url with Ok (_, h, _, _) => Some h | Err _ => None end.

Definition absolutize (base href : bytes) : option bytes :=
  let href := trim href in
  if bool_decide (href = []) then None
  else if contains href (lit "://") then Some href
  else
    sr ← split_once (lit "://") base;
    let '(scheme, rest) := sr in
    match strip_prefix (lit "//") href with
    | Some sf => Some (scheme ++ lit "://" ++ sf)
    | None =>
      let authority := match find_any (lit "/?#") rest with Some i => take i rest | None => rest end in
      match strip_prefix (lit "/") href with
      | Some abs => Some (scheme ++ lit "://" ++ authority ++ lit "/" ++ abs)
      | None =>
        match rsplit_once SLASH rest with
        | Some (l, _) =>
          if (length authority <=? length l)%nat
          then Some (scheme ++ lit "://" ++ take (length l + 1) rest ++ href)
          else Some (scheme ++ lit "://" ++ authority ++ lit "/" ++ href)
        | None => Some (scheme ++ lit "://" ++ authority ++ lit "/" ++ href)
        end
      end
    end.

(** ** Public addresses *)

Definition v4_is_public (o : bytes) : bool :=
  match b2n <$> o with
  | [a; b; c; d] =>
    negb ((a =? 127)                                                           (* is_loopback *)
      || ((a =? 10) || ((a =? 172) && (16 <=? b) && (b <=? 31)) || ((a =? 192) && (b =? 168)))  (* is_private *)
      || ((a =? 169) && (b =? 254))                                            (* is_link_local *)
      || ((a =? 255) && (b =? 255) && (c =? 255) && (d =? 255))                (* is_broadcast *)
      || (((a =? 192) && (b =? 0) && (c =? 2)) || ((a =? 198) && (b =? 51) && (c =? 100))
          || ((a =? 203) && (b =? 0) && (c =? 113)))                           (* is_documentation *)
      || ((a =? 0) && (b =? 0) && (c =? 0) && (d =? 0))                        (* is_unspecified *)
      || ((224 <=? a) && (a <=? 239))                                          (* is_multicast *)
      || (a =? 0)
      || ((a =? 100) && (N.land b 192 =? 64))
      || ((a =? 192) && (b =? 0) && (c =? 0))
      || ((a =? 198) && (N.land b 254 =? 18))
      || (240 <=? a))%N
  | _ => false
  end.

(** The eight segments of sixteen octets. *)
Fixpoint segments (o : bytes) : list N :=
  match o with a :: b :: o => (b2n a * 256 + b2n b)%N :: segments o | _ => [] end.
Definition MAPPED_PREFIX : bytes := replicate 10 x00 ++ [xff; xff].
Definition v6_is_public (o : bytes) : bool :=
  match strip_prefix MAPPED_PREFIX o with
  | Some v4 => v4_is_public v4
  | None =>
    match segments o with
    | s0 :: s1 :: _ =>
      negb (bool_decide (o = replicate 15 x00 ++ [x01])
        || bool_decide (o = replicate 16 x00)
        || (N.land s0 65280 =? 65280)%N
        || (N.land s0 65024 =? 64512)%N
        || (N.land s0 65472 =? 65152)%N
        || ((s0 =? 8193)%N && (s1 =? 3512)%N))
    | _ => false
    end
  end.
Definition ip_is_public (ip : IpAddr) : bool :=
  match ip with V4 o => v4_is_public o | V6 o => v6_is_public o end.

(** ** Bodies *)

Definition CRLF : bytes := [x0d; x0a].

(** A best-effort decoder of chunked bodies; each chunk is shorter than the
    input. *)
Fixpoint dechunk_fuel (fuel : nat) (rest : bytes) : bytes :=
  match fuel with
  | O => []
  | S fuel =>
    match find rest CRLF with
    | None => []
    | Some nl =>
      let size_txt := from_utf8_lossy (take nl rest) in
      let size := default 0%N (parse_hex (trim (before x3b (trim size_txt)))) in
      let rest := drop (nl + 2) rest in
      if (size =? 0)%N || (len rest <? size)%N
      then if (0 <? size)%N && negb (bool_decide (rest = [])) then take (N.to_nat (N.min (len rest) size)) rest else []
      else
        take (N.to_nat size) rest ++
        (let rest := drop (N.to_nat size) rest in
         dechunk_fuel fuel (if has_prefix CRLF rest then drop 2 rest else rest))
    end
  end.
Definition dechunk (input : bytes) : bytes := dechunk_fuel (S (length input)) input.

(** Base 64, three bytes at a time. *)
Definition B64_TABLE : bytes := lit "ABCDEFGHIJKLMNOPQRSTUVWXYZabcdefghijklmnopqrstuvwxyz0123456789+/".
Definition b64_char (n : N) : byte := nth (N.to_nat (N.land n 63)) B64_TABLE x00.
Definition b64_word (a b c : N) : N := N.lor (N.lor (N.shiftl a 16) (N.shiftl b 8)) c.
Fixpoint b64 (bs : bytes) : bytes :=
  match bs with
  | [] => []
  | [a] =>
    let n := b64_word (b2n a) 0 0 in
    [b64_char (N.shiftr n 18); b64_char (N.shiftr n 12); x3d; x3d]
  | [a; b] =>
    let n := b64_word (b2n a) (b2n b) 0 in
    [b64_char (N.shiftr n 18); b64_char (N.shiftr n 12); b64_char (N.shiftr n 6); x3d]
  | a :: b :: c :: bs =>
    let n := b64_word (b2n a) (b2n b) (b2n c) in
    [b64_char (N.shiftr n 18); b64_char (N.shiftr n 12); b64_char (N.shiftr n 6); b64_char n] ++ b64 bs
  end.

(** ** HTML *)

Definition is_blank (b : byte) : bool := bool_decide (b ∈ [x20; x09; x0a]).
Definition may_precede (b : byte) : bool := bool_decide (b ∈ [x20; x09; x0a; x22; x27; x3c]).
Definition ends_bare (b : byte) : bool := bool_decide (b ∈ [x20; x09; x0a; x3e; x2f]).

Fixpoint skip_blank (s : bytes) : bytes :=
  match s with b :: s' => if is_blank b then skip_blank s' else s | [] => [] end.
Fixpoint bare_value (s : bytes) : bytes :=
  match s with b :: s => if ends_bare b then [] else b :: bare_value s | [] => [] end.

(** The value that follows the name, if one does; the option inside is for a
    value that is not closed. *)
Definition value_after (s : bytes) : option (option bytes) :=
  match skip_blank s with
  | x3d :: s =>
    Some (match skip_blank s with
          | [] => None
          | q :: s' =>
            if bool_decide (q ∈ [x22; x27]) then (λ e, take e s') <$> find s' [q] else Some (bare_value (q :: s'))
          end)
  | _ => None
  end.
(** [attr(tag, name)], from offset [i]. *)
Fixpoint attr_from (fuel : nat) (b name : bytes) (i : nat) : option bytes :=
  match fuel with
  | O => None
  | S fuel =>
    rel ← find (drop i b) name;
    let at_ := (i + rel)%nat in
    let ok_before := match at_ with O => true | S p => match b !! p with Some c => may_precede c | None => false end end in
    match (if ok_before then value_after (drop (at_ + length name) b) else None) with
    | Some v => v
    | None =>
      let i := (at_ + length name)%nat in
      if (length b <=? i)%nat then None else attr_from fuel b name i
    end
  end.
Definition attr (tag name : bytes) : option bytes := attr_from (S (length tag)) tag name 0.

(** [meta(html, key)], from offset [i]. *)
Fixpoint meta_from (fuel : nat) (hay key : bytes) (i : nat) : option bytes :=
  match fuel with
  | O => None
  | S fuel =>
    rel ← find (drop i hay) (lit "<meta");
    let start := (i + rel)%nat in
    let end_ := match find (drop start hay) (lit ">") with Some e => (start + e)%nat | None => length hay end in
    let tag := take (end_ - start) (drop start hay) in
    let i := S end_ in
    let tag_l := ascii_lowercase <$> tag in
    let matches_key := bool_decide (attr tag_l (lit "property") = Some key)
      || bool_decide (attr tag_l (lit "name") = Some key) || bool_decide (attr tag_l (lit "itemprop") = Some key) in
    let content := if matches_key then trim <$> attr tag (lit "content") else None in
    match content with
    | Some ((_ :: _) as c) => Some c
    | _ => if (length hay <=? i)%nat then None else meta_from fuel hay key i
    end
  end.
Definition meta (html key : bytes) : option bytes := meta_from (S (length html)) html key 0.

Definition title_tag (html : bytes) : option bytes :=
  let l := ascii_lowercase <$> html in
  open ← find l (lit "<title");
  gt ← find_any (lit ">") (drop open l);
  let gt := (gt + open + 1)%nat in
  close ← find (drop gt l) (lit "</title>");
  let t := trim (take close (drop gt html)) in
  if bool_decide (t = []) then None else Some t.

Definition ENTITIES : list (bytes * bytes) :=
  [(lit "&amp;", lit "&"); (lit "&#38;", lit "&"); (lit "&lt;", lit "<"); (lit "&#60;", lit "<");
   (lit "&gt;", lit ">"); (lit "&#62;", lit ">"); (lit "&quot;", [x22]); (lit "&#34;", [x22]);
   (lit "&#39;", [x27]); (lit "&apos;", [x27]); (lit "&nbsp;", lit " "); (lit "&hellip;", [xe2; x80; xa6]);
   (lit "&mdash;", [xe2; x80; x94]); (lit "&ndash;", [xe2; x80; x93])].
Definition decode_entities (s : bytes) : bytes := foldl (λ s e, replace e.1 e.2 s) s ENTITIES.

Definition clip (s : bytes) (max : nat) : bytes :=
  let s := trim s in
  if (char_count s <=? max)%nat then s else chars_take max s ++ [xe2; x80; xa6].

(** ** Fetching *)

Definition MAX_BODY : nat := 512 * 1024.
Definition MAX_IMAGE : nat := 256 * 1024.
Definition MAX_REDIRECTS : nat := 3.
Definition MAX_HEAD : nat := 32 * 1024.
Definition UA : bytes := lit "DaNTe-unfurl/1".

(** The deadline passes, or the call fails with a text. *)
Inductive WebError : Type := Elapsed | Failed (text : bytes).

(** [wb_read] returns at most the given number of bytes, none at the end of
    the stream; a lookup gives addresses with the port. *)
Class Web (W C : Type) : Type := {
  wb_lookup : bytes → N → W → result (list (IpAddr * N)) bytes * W;
  wb_connect : IpAddr * N → W → result C WebError * W;
  wb_sni_ok : bytes → bool;
  wb_tls : C → bytes → W → result C WebError * W;
  wb_write_all : C → bytes → W → result unit WebError * W;
  wb_read : C → nat → W → result bytes WebError * W;
}.

Inductive HttpResponse : Type :=
  | Redirect (location : bytes)
  | Body (content_type body : bytes).

Record Head := mkHead {
  hd_location : option bytes; hd_content_type : bytes; hd_content_length : option N; hd_chunked : bool;
}.
Definition lower_trim (s : bytes) : bytes := ascii_lowercase <$> trim s.
(** One header line. *)
Definition header_line (h : Head) (line : bytes) : Head :=
  match split_once [COLON] line with
  | None => h
  | Some (k, v) =>
    let k := lower_trim k in
    let v := trim v in
    if bool_decide (k = lit "location")
    then mkHead (Some v) (hd_content_type h) (hd_content_length h) (hd_chunked h)
    else if bool_decide (k = lit "content-type")
    then mkHead (hd_location h) (ascii_lowercase <$> v) (hd_content_length h) (hd_chunked h)
    else if bool_decide (k = lit "content-length")
    then mkHead (hd_location h) (hd_content_type h) (parse_usize v) (hd_chunked h)
    else if bool_decide (k = lit "transfer-encoding") && contains (ascii_lowercase <$> v) (lit "chunked")
    then mkHead (hd_location h) (hd_content_type h) (hd_content_length h) true
    else h
  end.
(** The status code and the headers. *)
Definition parse_head (head : bytes) : N * Head :=
  match split_str CRLF (from_utf8_lossy head) with
  | [] => (0%N, mkHead None [] None false)
  | status_line :: lines =>
    (default 0%N (split_whitespace status_line !! 1%nat ≫= parse_u16),
     foldl header_line (mkHead None [] None false) lines)
  end.
Definition get_request (host path_and_query : bytes) : bytes :=
  lit "GET " ++ path_and_query ++ lit " HTTP/1.1" ++ CRLF ++ lit "Host: " ++ host ++ CRLF ++
  lit "User-Agent: " ++ UA ++ CRLF ++ lit "Accept: text/html,*/*" ++ CRLF ++
  lit "Accept-Encoding: identity" ++ CRLF ++ lit "Connection: close" ++ CRLF ++ CRLF.

Section web.
Context {W C : Type} `{!Web W C}.
Notation Call A := (Step W WebError A).
Notation Fetch A := (Step W bytes A).

Definition web_call {A} (m : W → result A WebError * W) : Call A := λ w, Some (m w).
Definition web_err {A} (text : bytes) : Call A := st_lift (Err (Failed text)).

(** Reads until the blank line, which is at most 32 KiB and one read away:
    each read that is not the last brings a byte.  [None] is out of fuel. *)
Fixpoint read_head (fuel : nat) (s : C) (buf : bytes) : Call (bytes * nat) :=
  match fuel with
  | O => st_index None
  | S fuel =>
    do! tmp := web_call (wb_read s 8192) in
    if bool_decide (tmp = []) then web_err (lit "no headers")
    else
      let buf := buf ++ tmp in
      match find buf (CRLF ++ CRLF) with
      | Some i => st_ret (buf, (i + 4)%nat)
      | None => if (MAX_HEAD <? length buf)%nat then web_err (lit "headers too large") else read_head fuel s buf
      end
  end.
Definition HEAD_FUEL : nat := MAX_HEAD + 2.

(** Reads the body up to the limit and a little more. *)
Fixpoint read_body (fuel : nat) (s : C) (limit cap : nat) (body : bytes) : Call bytes :=
  match fuel with
  | O => st_index None
  | S fuel =>
    if (length body <? limit + 64)%nat then
      do! tmp := web_call (wb_read s 8192) in
      if bool_decide (tmp = []) then st_ret body
      else
        let body := body ++ tmp in
        if (cap + 64 <? length body)%nat then st_ret body else read_body fuel s limit cap body
    else st_ret body
  end.

Definition http_roundtrip (s : C) (host path_and_query : bytes) (cap : nat) : Call HttpResponse :=
  do! _ := web_call (wb_write_all s (get_request host path_and_query)) in
  do! bh := read_head HEAD_FUEL s [] in
  let '(buf, head_end) := bh in
  let '(code, h) := parse_head (take head_end buf) in
  if ((300 <=? code) && (code <? 400))%N then
    match hd_location h with
    | Some loc => st_ret (Redirect loc)
    | None => web_err (lit "redirect without location")
    end
  else if negb ((200 <=? code) && (code <? 300))%N
  then web_err (lit "http status " ++ lit (pretty code))
  else
    let limit := match hd_content_length h with Some n => N.to_nat (N.min n (N.of_nat cap)) | None => cap end in
    do! body := read_body (cap + 65) s limit cap (drop head_end buf) in
    let body := if hd_chunked h then dechunk body else body in
    st_ret (Body (hd_content_type h) (take cap body)).

Definition resolve_public (host : bytes) (port : N) : Fetch (IpAddr * N) := λ w,
  let '(r, w) := wb_lookup host port w in
  Some (match r with
        | Err e => Err (lit "dns: " ++ e)
        | Ok addrs =>
          match List.find (λ a, ip_is_public a.1) addrs with
          | Some a => Ok a
          | None => Err (lit "link points at a non-public address")
          end
        end, w).

Definition exchange (addr : IpAddr * N) (tls : bool) (host path : bytes) (cap : nat) : Call HttpResponse :=
  do! tcp := web_call (wb_connect addr) in
  if tls then
    do! _ := (if wb_sni_ok host then st_ret tt else web_err (lit "bad sni")) in
    do! s := web_call (wb_tls tcp host) in
    http_roundtrip s host path cap
  else http_roundtrip tcp host path cap.
Definition timed (e : WebError) : bytes := match e with Elapsed => lit "timed out" | Failed text => text end.
Definition within_deadline {A} (m : Call A) : Fetch A := λ w,
  match m w with Some (r, w) => Some (map_err timed r, w) | None => None end.

Definition type_ok (want : option bytes) (content_type : bytes) : bool :=
  match want with Some w => has_prefix w (trim_start content_type) | None => true end.

(** [hops] connections remain. *)
Fixpoint fetch_hops (hops : nat) (url : bytes) (cap : nat) (want : option bytes) (host_ok : option (bytes → bool))
    : Fetch (bytes * bytes * bytes) :=
  match hops with
  | O => st_lift (Err (lit "too many redirects"))
  | S hops =>
    do! _ := st_reject (match host_ok with Some ok => negb (ok url) | None => false end)
               (lit "redirected to a host outside the allowlist") in
    do! u := st_lift (split_url url) in
    let '(path, host, port, tls) := u in
    do! addr := resolve_public host port in
    do! raw := within_deadline (exchange addr tls host path cap) in
    match raw with
    | Redirect loc =>
      do! url := st_lift (ok_or (absolutize url loc) (lit "bad redirect location")) in
      fetch_hops hops url cap want host_ok
    | Body content_type body =>
      if type_ok want content_type then st_ret (url, body, content_type)
      else st_lift (Err (lit "unexpected content type: " ++ content_type))
    end
  end.
Definition fetch_url (start_url : bytes) (cap : nat) (want : option bytes) (host_ok : option (bytes → bool)) :
    Fetch (bytes * bytes * bytes) := fetch_hops (S MAX_REDIRECTS) start_url cap want host_ok.

Record Preview := mkPreview {
  pv_url : bytes; pv_site : bytes; pv_title : bytes; pv_description : bytes; pv_image_data_uri : option bytes;
}.

Definition or_else {A} (a b : option A) : option A := match a with Some _ => a | None => b end.
Definition or_host (s host : bytes) : bytes := if bool_decide (s = []) then host else s.
(** The [data:] URI of an image that was fetched. *)
Definition data_uri (bytes_ ct : bytes) : option bytes :=
  if bool_decide (bytes_ = []) then None
  else Some (lit "data:" ++ trim (before x3b ct) ++ lit ";base64," ++ b64 bytes_).
Definition fetch_image (url : bytes) : Fetch (option bytes) :=
  do! r := outcome_of (fetch_url url MAX_IMAGE (Some (lit "image/")) None) in
  match r with
  | Ok (_, bytes_, ct) => st_ret (data_uri bytes_ ct)
  | Err _ => st_ret None
  end.

Definition unfurl (raw_url : bytes) : Fetch Preview :=
  do! _ := st_reject (2048 <? len raw_url)%N (lit "url too long") in
  do! page := fetch_url raw_url MAX_BODY (Some (lit "text/html")) None in
  let '(final_url, body, _) := page in
  let html := from_utf8_lossy body in
  let host := default [] (url_host final_url) in
  let site := default [] (meta html (lit "og:site_name")) in
  let title := default [] (or_else (or_else (meta html (lit "og:title")) (meta html (lit "twitter:title"))) (title_tag html)) in
  let description := default []
    (or_else (or_else (meta html (lit "og:description")) (meta html (lit "twitter:description"))) (meta html (lit "description"))) in
  let image :=
    or_else (or_else (meta html (lit "og:image")) (meta html (lit "og:image:url"))) (meta html (lit "twitter:image"))
    ≫= absolutize final_url in
  do! image_data_uri := (match image with Some url => fetch_image url | None => st_ret None end) in
  st_ret (mkPreview final_url (clip (decode_entities (or_host site host)) 120) (clip (decode_entities (or_host title host)) 300)
    (clip (decode_entities description) 600) image_data_uri).

(** ** The relay's gate *)

Record UnfurlGate := mkGate { ug_enabled : bool; ug_rl : KeyedRateLimiter IpAddr }.
Definition UNFURL_RATE : f64 * f64 := (f64_of_N 10, f64_of_N 1).
Definition MAX_URL_BYTES : N := 2048.
Definition gate_new (enabled : bool) : UnfurlGate := mkGate enabled (limiter_new UNFURL_RATE.1 UNFURL_RATE.2).

(** [None] is for a request that is not the gate's, or a panic. *)
Definition gate_allow (ip : IpAddr) (now : N) (g : UnfurlGate) : bool * UnfurlGate :=
  let '(ok, rl) := check ip now one (ug_rl g) in (ok, mkGate (ug_enabled g) rl).
Definition refuse (text : bytes) : Response := RsError (lit "unfurl: " ++ text).
Definition gate_handle (url : bytes) (ip : IpAddr) (now : N) (g : UnfurlGate) (w : W) : option (Response * UnfurlGate * W) :=
  if negb (ug_enabled g) then Some (refuse (lit "not enabled on this relay"), g, w)
  else if (MAX_URL_BYTES <? len url)%N then Some (refuse (lit "url too long"), g, w)
  else
    let '(ok, g) := gate_allow ip now g in
    if negb ok then Some (refuse (lit "rate limited"), g, w)
    else
      match unfurl url w with
      | Some (Ok p, w) =>
        Some (RsUnfurlPreview (pv_url p) (pv_site p) (pv_title p) (pv_description p) (default [] (pv_image_data_uri p)), g, w)
      | Some (Err e, w) => Some (refuse e, g, w)
      | None => None
      end.

(** [RelayHandler::handle] of a relay built with previews and without rooms. *)
Definition with_gate `{CryptoPrims, TurnAuth} (show_ledger : LedgerError → string) (show_net : NetError → string)
    (req : Request) (ip : IpAddr) (now : N) (g : UnfurlGate) (s : RelayState) (w : W) :
    option (Response * UnfurlGate * RelayState * W) :=
  match req with
  | RqUnfurlLink url =>
    match gate_handle url ip now g w with Some (r, g, w) => Some (r, g, s, w) | None => None end
  | _ =>
    match handle req ip now s with Some (r, s) => Some (to_response show_ledger show_net r, g, s, w) | None => None end
  end.
End web.
