(* ===== verification/UnfurlTheorems.v ===== *)
(** * What holds of link previews
    Which addresses count as public, next to the registries of special-purpose
    addresses, and that nothing else is connected to. *)

From Stdlib Require Import Btauto.
From S2P Require Import Prelude Utf8 Enc Crypto RateLimit Wire RelayParts Relay Invite Transport Unfurl.

(** ** Ranges of addresses *)

(** [addr] is in [net/bits], of addresses of [width] bits. *)
Definition in_cidr (width addr net bits : N) : bool :=
  (N.shiftr addr (width - bits) =? N.shiftr net (width - bits))%N.
Definition v4_net (a b c d : N) : N := (((a * 256 + b) * 256 + c) * 256 + d)%N.
(** The blocks the code's tests pick out. *)
Definition GUARDED_V4 : list (N * N) :=
  [(v4_net 0 0 0 0, 8); (v4_net 10 0 0 0, 8); (v4_net 100 64 0 0, 10); (v4_net 127 0 0 0, 8);
   (v4_net 169 254 0 0, 16); (v4_net 172 16 0 0, 12); (v4_net 192 0 0 0, 24); (v4_net 192 0 2 0, 24);
   (v4_net 192 168 0 0, 16); (v4_net 198 18 0 0, 15); (v4_net 198 51 100 0, 24); (v4_net 203 0 113 0, 24);
   (v4_net 224 0 0 0, 4); (v4_net 240 0 0 0, 4)]%N.
Definition guarded_v4 (addr : N) : bool := existsb (λ r, in_cidr 32 addr r.1 r.2) GUARDED_V4.
Definition v6_net (s0 s1 : N) : N := ((s0 * 65536 + s1) * 2 ^ 96)%N.
Definition GUARDED_V6 : list (N * N) :=
  [(0, 128); (1, 128); (v6_net 0xff00 0, 8); (v6_net 0xfc00 0, 7); (v6_net 0xfe80 0, 10); (v6_net 0x2001 0xdb8, 32)]%N.
Definition guarded_ip (ip : IpAddr) : bool :=
  match ip with
  | V4 o => guarded_v4 (of_be o)
  | V6 o =>
    let addr := of_be o in
    if in_cidr 128 addr (65535 * 2 ^ 32)%N 96 then guarded_v4 (addr mod 2 ^ 32)%N
    else existsb (λ r, in_cidr 128 addr r.1 r.2) GUARDED_V6
  end.
Definition octets_ok (ip : IpAddr) : Prop :=
  match ip with V4 o => length o = 4%nat | V6 o => length o = 16%nat end.

(** ** The registries

    The special-purpose address registries of IANA: the blocks that are marked
    as not globally reachable, with multicast, which is not unicast, and the
    assignments inside of them that are marked as reachable.  A block without
    a mark (Teredo, 6to4) is in neither. *)
Definition v6_addr (segments : list N) : N := foldl (λ a s, a * 65536 + s)%N 0%N segments.
Definition NON_GLOBAL_V4 : list (N * N) :=
  [(v4_net 0 0 0 0, 8);          (* this network *)
   (v4_net 10 0 0 0, 8);         (* private use *)
   (v4_net 100 64 0 0, 10);      (* shared address space *)
   (v4_net 127 0 0 0, 8);        (* loopback *)
   (v4_net 169 254 0 0, 16);     (* link local *)
   (v4_net 172 16 0 0, 12);      (* private use *)
   (v4_net 192 0 0 0, 24);       (* protocol assignments *)
   (v4_net 192 0 2 0, 24);       (* documentation *)
   (v4_net 192 168 0 0, 16);     (* private use *)
   (v4_net 198 18 0 0, 15);      (* benchmarking *)
   (v4_net 198 51 100 0, 24);    (* documentation *)
   (v4_net 203 0 113 0, 24);     (* documentation *)
   (v4_net 224 0 0 0, 4);        (* multicast *)
   (v4_net 240 0 0 0, 4)]%N.     (* reserved, limited broadcast *)
(** Anycast of the port control protocol and of TURN. *)
Definition GLOBAL_WITHIN_V4 : list (N * N) := [(v4_net 192 0 0 9, 32); (v4_net 192 0 0 10, 32)]%N.
Definition NON_GLOBAL_V6 : list (N * N) :=
  [(v6_addr [0; 0; 0; 0; 0; 0; 0; 0], 128);            (* unspecified *)
   (v6_addr [0; 0; 0; 0; 0; 0; 0; 1], 128);            (* loopback *)
   (v6_addr [0x64; 0xff9b; 1; 0; 0; 0; 0; 0], 48);     (* local IPv4 translation *)
   (v6_addr [0x100; 0; 0; 0; 0; 0; 0; 0], 64);         (* discard only *)
   (v6_addr [0x100; 0; 0; 1; 0; 0; 0; 0], 64);         (* dummy prefix *)
   (v6_addr [0x2001; 0; 0; 0; 0; 0; 0; 0], 23);        (* protocol assignments *)
   (v6_addr [0x2001; 0xdb8; 0; 0; 0; 0; 0; 0], 32);    (* documentation *)
   (v6_addr [0x3fff; 0; 0; 0; 0; 0; 0; 0], 20);        (* documentation *)
   (v6_addr [0x5f00; 0; 0; 0; 0; 0; 0; 0], 16);        (* segment routing *)
   (v6_addr [0xfc00; 0; 0; 0; 0; 0; 0; 0], 7);         (* unique local *)
   (v6_addr [0xfe80; 0; 0; 0; 0; 0; 0; 0], 10);        (* link local *)
   (v6_addr [0xff00; 0; 0; 0; 0; 0; 0; 0], 8)]%N.      (* multicast *)
Definition GLOBAL_WITHIN_V6 : list (N * N) :=
  [(v6_addr [0x2001; 0; 0; 0; 0; 0; 0; 0], 32);        (* Teredo: not marked *)
   (v6_addr [0x2001; 1; 0; 0; 0; 0; 0; 1], 128);       (* anycast of PCP *)
   (v6_addr [0x2001; 1; 0; 0; 0; 0; 0; 2], 128);       (* anycast of TURN *)
   (v6_addr [0x2001; 1; 0; 0; 0; 0; 0; 3], 128);       (* anycast of DNS-SD registration *)
   (v6_addr [0x2001; 3; 0; 0; 0; 0; 0; 0], 32);        (* AMT *)
   (v6_addr [0x2001; 4; 0x112; 0; 0; 0; 0; 0], 48);    (* AS112 *)
   (v6_addr [0x2001; 0x10; 0; 0; 0; 0; 0; 0], 28);     (* ORCHID: deprecated, not marked *)
   (v6_addr [0x2001; 0x20; 0; 0; 0; 0; 0; 0], 28);     (* ORCHIDv2 *)
   (v6_addr [0x2001; 0x30; 0; 0; 0; 0; 0; 0], 28)]%N.  (* drone remote identification *)

Definition in_blocks (width addr : N) (blocks : list (N * N)) : bool :=
  existsb (λ r, in_cidr width addr r.1 r.2) blocks.
(** [::ffff:0:0/96]: such an address is judged as the IPv4 address it stands for. *)
Definition is_mapped (addr : N) : bool := in_cidr 128 addr (65535 * 2 ^ 32)%N 96.
Definition by_version (v4 v6 : N → bool) (ip : IpAddr) : bool :=
  match ip with
  | V4 o => v4 (of_be o)
  | V6 o => if is_mapped (of_be o) then v4 (of_be o mod 2 ^ 32)%N else v6 (of_be o)
  end.
(** Not globally reachable, by the registries. *)
Definition unreachable : IpAddr → bool :=
  by_version (λ a, in_blocks 32 a NON_GLOBAL_V4 && negb (in_blocks 32 a GLOBAL_WITHIN_V4))
    (λ a, in_blocks 128 a NON_GLOBAL_V6 && negb (in_blocks 128 a GLOBAL_WITHIN_V6)).
(** The two anycast addresses of IPv4. *)
Definition anycast : IpAddr → bool := by_version (λ a, in_blocks 32 a GLOBAL_WITHIN_V4) (λ _, false).
(** The unreachable blocks the code does not know. *)
Definition MISSED_V6 : list (N * N) :=
  [(v6_addr [0x64; 0xff9b; 1; 0; 0; 0; 0; 0], 48); (v6_addr [0x100; 0; 0; 0; 0; 0; 0; 0], 64);
   (v6_addr [0x100; 0; 0; 1; 0; 0; 0; 0], 64); (v6_addr [0x2001; 0; 0; 0; 0; 0; 0; 0], 23);
   (v6_addr [0x3fff; 0; 0; 0; 0; 0; 0; 0], 20); (v6_addr [0x5f00; 0; 0; 0; 0; 0; 0; 0], 16)]%N.
Definition missed : IpAddr → bool :=
  by_version (λ _, false) (λ a, in_blocks 128 a MISSED_V6 && negb (in_blocks 128 a GLOBAL_WITHIN_V6)).

(** Of two blocks that meet, the wider holds the other; and an address in a
    block is in any wider block that holds it. *)
Lemma in_cidr_wider width addr net bits bits' :
  (bits' ≤ bits ≤ width)%N → in_cidr width addr net bits = true →
  N.shiftr addr (width - bits') = N.shiftr net (width - bits').
Proof.
  intros Hb E%N.eqb_eq. replace (width - bits')%N with (width - bits + (bits - bits'))%N by lia.
  by rewrite <- !N.shiftr_shiftr, E.
Qed.
Definition apart (width : N) (r r' : N * N) : bool :=
  (r.2 <=? width)%N && (r'.2 <=? width)%N &&
  negb (N.shiftr r.1 (width - N.min r.2 r'.2) =? N.shiftr r'.1 (width - N.min r.2 r'.2))%N.
Definition within (width : N) (r r' : N * N) : bool :=
  (r'.2 <=? r.2)%N && (r.2 <=? width)%N && (N.shiftr r.1 (width - r'.2) =? N.shiftr r'.1 (width - r'.2))%N.

Lemma apart_blocks width addr bs bs' :
  forallb (λ r, forallb (apart width r) bs') bs = true →
  in_blocks width addr bs = true → in_blocks width addr bs' = false.
Proof.
  intros Ha (r & Hr & Hin)%existsb_exists. apply not_true_iff_false. intros (r' & Hr' & Hin')%existsb_exists.
  rewrite forallb_forall in Ha. specialize (Ha r Hr). rewrite forallb_forall in Ha. specialize (Ha r' Hr').
  apply andb_true_iff in Ha as [[H1%N.leb_le H2%N.leb_le]%andb_true_iff H3%negb_true_iff%N.eqb_neq]. apply H3.
  rewrite <- (in_cidr_wider width addr r.1 r.2), <- (in_cidr_wider width addr r'.1 r'.2); try done; lia.
Qed.
Lemma within_blocks width addr bs bs' :
  forallb (λ r, existsb (within width r) bs') bs = true →
  in_blocks width addr bs = true → in_blocks width addr bs' = true.
Proof.
  intros Ha (r & Hr & Hin)%existsb_exists. rewrite forallb_forall in Ha. specialize (Ha r Hr).
  apply existsb_exists in Ha as (r' & Hr' & Hw). apply existsb_exists. exists r'. split; [done|].
  apply andb_true_iff in Hw as [[H1%N.leb_le H2%N.leb_le]%andb_true_iff H3%N.eqb_eq]. unfold in_cidr.
  rewrite (in_cidr_wider width addr r.1 r.2), H3; [apply N.eqb_refl|lia|done].
Qed.

(** A check of every byte. *)
Definition all_bytes : list N := N.of_nat <$> seq 0 256.
Lemma byte_check (P : N → bool) : forallb P all_bytes = true → ∀ n, (n < 256)%N → P n = true.
Proof.
  intros HP n Hn. rewrite forallb_forall in HP. apply HP, list_elem_of_In, list_elem_of_fmap.
  exists (N.to_nat n). rewrite N2Nat.id. split; [done|]. apply elem_of_seq. lia.
Qed.
Lemma masks n : (n < 256)%N →
  (N.land n 192 =? 64)%N = (n / 64 =? 1)%N ∧ (N.land n 254 =? 18)%N = (n / 2 =? 9)%N ∧ ((16 <=? n) && (n <=? 31))%N = (n / 16 =? 1)%N
  ∧ ((224 <=? n) && (n <=? 239))%N = (n / 16 =? 14)%N ∧ (240 <=? n)%N = (n / 16 =? 15)%N.
Proof.
  intros Hn. pose proof (byte_check (λ n,
    Bool.eqb (N.land n 192 =? 64) (n / 64 =? 1) && Bool.eqb (N.land n 254 =? 18) (n / 2 =? 9) && Bool.eqb ((16 <=? n) && (n <=? 31)) (n / 16 =? 1)
    && Bool.eqb ((224 <=? n) && (n <=? 239)) (n / 16 =? 14) && Bool.eqb (240 <=? n) (n / 16 =? 15))%N eq_refl n Hn) as Hb.
  rewrite !andb_true_iff, !Bool.eqb_true_iff in Hb. naive_solver.
Qed.

Lemma v4_shifts a b c d : (a < 256 → b < 256 → c < 256 → d < 256 →
  N.shiftr (v4_net a b c d) 24 = a ∧ N.shiftr (v4_net a b c d) 22 = 4 * a + b / 64 ∧
  N.shiftr (v4_net a b c d) 20 = 16 * a + b / 16 ∧ N.shiftr (v4_net a b c d) 17 = 128 * a + b / 2 ∧
  N.shiftr (v4_net a b c d) 16 = 256 * a + b ∧ N.shiftr (v4_net a b c d) 8 = 65536 * a + 256 * b + c ∧
  N.shiftr (v4_net a b c d) 28 = a / 16)%N.
Proof.
  intros Ha Hb Hc Hd. rewrite !N.shiftr_div_pow2.
  change (2 ^ 24)%N with 16777216%N. change (2 ^ 22)%N with 4194304%N. change (2 ^ 20)%N with 1048576%N.
  change (2 ^ 17)%N with 131072%N. change (2 ^ 16)%N with 65536%N. change (2 ^ 8)%N with 256%N. change (2 ^ 28)%N with 268435456%N.
  pose proof (N.div_mod' b 64). pose proof (N.mod_lt b 64). pose proof (N.div_mod' b 16). pose proof (N.mod_lt b 16).
  pose proof (N.div_mod' b 2). pose proof (N.mod_lt b 2). pose proof (N.div_mod' a 16). pose proof (N.mod_lt a 16).
  unfold v4_net. repeat split; symmetry.
  - apply (N.div_unique _ _ _ ((b * 256 + c) * 256 + d)); lia.
  - apply (N.div_unique _ _ _ ((b mod 64 * 256 + c) * 256 + d)); lia.
  - apply (N.div_unique _ _ _ ((b mod 16 * 256 + c) * 256 + d)); lia.
  - apply (N.div_unique _ _ _ ((b mod 2 * 256 + c) * 256 + d)); lia.
  - apply (N.div_unique _ _ _ (c * 256 + d)); lia.
  - apply (N.div_unique _ _ _ d); lia.
  - apply (N.div_unique _ _ _ (((a mod 16 * 256 + b) * 256 + c) * 256 + d)); lia.
Qed.

(** The conditions of the code, over the octets as numbers. *)
Lemma v4_ranges a b c d : (a < 256 → b < 256 → c < 256 → d < 256 →
  guarded_v4 (v4_net a b c d) =
    ((a =? 127)
      || ((a =? 10) || ((a =? 172) && (16 <=? b) && (b <=? 31)) || ((a =? 192) && (b =? 168)))
      || ((a =? 169) && (b =? 254))
      || ((a =? 255) && (b =? 255) && (c =? 255) && (d =? 255))
      || (((a =? 192) && (b =? 0) && (c =? 2)) || ((a =? 198) && (b =? 51) && (c =? 100))
          || ((a =? 203) && (b =? 0) && (c =? 113)))
      || ((a =? 0) && (b =? 0) && (c =? 0) && (d =? 0))
      || ((224 <=? a) && (a <=? 239))
      || (a =? 0)
      || ((a =? 100) && (N.land b 192 =? 64))
      || ((a =? 192) && (b =? 0) && (c =? 0))
      || ((a =? 198) && (N.land b 254 =? 18))
      || (240 <=? a)))%N.
Proof.
  intros Ha Hb Hc Hd.
  destruct (v4_shifts a b c d Ha Hb Hc Hd) as (E24 & E22 & E20 & E17 & E16 & E8 & E28).
  unfold guarded_v4, GUARDED_V4, in_cidr. cbn [existsb fst snd].
  change (32 - 8)%N with 24%N. change (32 - 10)%N with 22%N. change (32 - 12)%N with 20%N. change (32 - 15)%N with 17%N.
  change (32 - 16)%N with 16%N. change (32 - 24)%N with 8%N. change (32 - 4)%N with 28%N.
  rewrite E24, E22, E20, E17, E16, E8, E28.
  repeat match goal with |- context [N.shiftr (v4_net ?a ?b ?c ?d) ?k] =>
    let v := eval vm_compute in (N.shiftr (v4_net a b c d) k) in change (N.shiftr (v4_net a b c d) k) with v end.
  destruct (masks b Hb) as (-> & -> & _).
  assert (b / 64 < 4 ∧ b / 16 < 16 ∧ b / 2 < 128)%N as (B64 & B16 & B2) by (split_and!; apply N.Div0.div_lt_upper_bound; lia).
  assert (Ea : ∀ n k j x m, (n = m * k + j → x < m → j < m → (m * a + x =? n) = (a =? k) && (x =? j))%N).
  { clear. intros ? k j x m -> Hx Hj. apply eq_true_iff_eq. rewrite andb_true_iff, !N.eqb_eq. split; [|by intros [-> ->]].
    intros E. assert (a = k); [|split; [done|subst; lia]]. destruct (N.lt_trichotomy a k) as [?|[?|?]]; [|done|]; nia. }
  assert (Eb : ∀ n k j i, (n = 65536 * k + 256 * j + i → j < 256 → i < 256 → (65536 * a + 256 * b + c =? n) = (a =? k) && (b =? j) && (c =? i))%N).
  { clear -Hb Hc. intros ? k j i -> Hj Hi. apply eq_true_iff_eq. rewrite !andb_true_iff, !N.eqb_eq. lia. }
  clear E24 E22 E20 E17 E16 E8 E28.
  rewrite (Ea 401 100 1 (b / 64) 4)%N by lia. rewrite (Ea 43518 169 254 b 256)%N by lia.
  rewrite (Ea 2753 172 1 (b / 16) 16)%N by lia.
  rewrite (Ea 49320 192 168 b 256)%N by lia. rewrite (Ea 25353 198 9 (b / 2) 128)%N by lia.
  rewrite (Eb 12582912 192 0 0)%N by lia. rewrite (Eb 12582914 192 0 2)%N by lia. rewrite (Eb 12989284 198 51 100)%N by lia. rewrite (Eb 13303921 203 0 113)%N by lia.
  destruct (masks b Hb) as (_ & _ & M16 & _). destruct (masks a Ha) as (_ & _ & _ & <- & <-).
  rewrite <- !andb_assoc, M16. destruct (N.leb_spec 240 a) as [Hbig|Hsmall]; [by rewrite !orb_true_r|].
  replace (a =? 255)%N with false by (symmetry; apply N.eqb_neq; lia).
  destruct (a =? 0)%N; [by rewrite !orb_true_r|]. btauto.
Qed.

Lemma of_be_split p q : of_be (p ++ q) = (of_be p * 256 ^ len q + of_be q)%N.
Proof.
  induction p as [|b p IH]; [done|]. cbn [app]. rewrite !of_be_cons, IH, len_app, N.pow_add_r. lia.
Qed.
Lemma pow256 (n : N) : (256 ^ n = 2 ^ (8 * n))%N.
Proof. by rewrite N.pow_mul_r. Qed.
Lemma of_be_shiftr p q n : n = (8 * len q)%N → N.shiftr (of_be (p ++ q)) n = of_be p.
Proof.
  intros ->. rewrite of_be_split, N.shiftr_div_pow2, <- pow256. pose proof (of_be_lt q) as Hq.
  symmetry. apply (N.div_unique _ _ _ (of_be q)); [exact Hq|lia].
Qed.
Lemma of_be_low p q : (of_be (p ++ q) mod 256 ^ len q = of_be q)%N.
Proof. rewrite of_be_split, N.add_comm, N.Div0.mod_add. apply N.mod_small, of_be_lt. Qed.

(** A mask of the upper bits is a comparison of the shifted value. *)
Lemma land_top x j k v : (x < 2 ^ (j + k))%N → (N.land x (N.shiftl (N.ones j) k) =? N.shiftl v k)%N = (N.shiftr x k =? v)%N.
Proof.
  intros Hx. assert (E : N.land x (N.shiftl (N.ones j) k) = N.shiftl (N.shiftr x k) k).
  { transitivity (N.shiftl (N.land (N.shiftr x k) (N.ones j)) k).
    - apply N.bits_inj. intros n. rewrite N.land_spec. destruct (N.lt_ge_cases n k) as [Hn|Hn].
      + rewrite !N.shiftl_spec_low by done. apply andb_false_r.
      + rewrite !N.shiftl_spec_high', N.land_spec, N.shiftr_spec' by done. by rewrite N.sub_add.
    - rewrite N.land_ones, N.mod_small; [done|]. rewrite N.shiftr_div_pow2. apply N.Div0.div_lt_upper_bound.
      rewrite <- N.pow_add_r. by rewrite N.add_comm in Hx. }
  rewrite E. apply eq_true_iff_eq. rewrite !N.eqb_eq. split; [|by intros ->].
  rewrite !N.shiftl_mul_pow2. intros Heq. apply N.mul_cancel_r in Heq; [done|]. by apply N.pow_nonzero.
Qed.

Lemma in_cidr_top addr s0 net bits :
  N.shiftr addr 112 = s0 → (bits ≤ 16)%N → in_cidr 128 addr (v6_net net 0) bits = (N.shiftr s0 (16 - bits) =? N.shiftr net (16 - bits))%N.
Proof.
  intros <- Hb. unfold in_cidr. replace (128 - bits)%N with (112 + (16 - bits))%N by lia. rewrite <- !N.shiftr_shiftr.
  do 2 f_equal. unfold v6_net. rewrite N.add_0_r, N.shiftr_div_pow2, <- N.mul_assoc. apply N.div_mul. by apply N.pow_nonzero.
Qed.

Lemma v6_segments a b c d rest :
  length rest = 12%nat →
  let s0 := (b2n a * 256 + b2n b)%N in let s1 := (b2n c * 256 + b2n d)%N in
  N.shiftr (of_be (a :: b :: c :: d :: rest)) 112 = s0 ∧ N.shiftr (of_be (a :: b :: c :: d :: rest)) 96 = (s0 * 65536 + s1)%N.
Proof.
  intros Hl. split.
  - change (a :: b :: c :: d :: rest) with ([a; b] ++ c :: d :: rest). rewrite of_be_shiftr; [done|]. unfold len. cbn [length]. by rewrite Hl.
  - change (a :: b :: c :: d :: rest) with ([a; b; c; d] ++ rest). rewrite of_be_shiftr; [unfold of_be; cbn [foldl]; lia|].
    unfold len. by rewrite Hl.
Qed.
Lemma of_be_eqb o o' : length o = length o' → (of_be o =? of_be o')%N = bool_decide (o = o').
Proof.
  intros Hl. apply eq_true_iff_eq. rewrite N.eqb_eq, bool_decide_eq_true. split; [by apply of_be_inj|by intros ->].
Qed.

(** The code's tests on octets and segments, as membership in blocks, with an
    IPv4 address inside an IPv6 one judged as itself. *)
Lemma public_is_not_guarded ip : octets_ok ip → ip_is_public ip = negb (guarded_ip ip).
Proof.
  assert (H4 : ∀ o, length o = 4%nat → v4_is_public o = negb (guarded_v4 (of_be o))).
  { intros [|a [|b [|c [|d [|]]]]] Hl; try discriminate.
    change (of_be [a; b; c; d]) with (v4_net (b2n a) (b2n b) (b2n c) (b2n d)). 
    rewrite v4_ranges by apply b2n_lt. done. }
  destruct ip as [o|o]; cbn [octets_ok ip_is_public guarded_ip]; [apply H4|]. intros Hl.
  unfold v6_is_public, strip_prefix. change (length MAPPED_PREFIX) with 12%nat.
  assert (Hcut : take 12 o ++ drop 12 o = o) by apply take_drop.
  assert (Hd : length (drop 12 o) = 4%nat) by (rewrite length_drop; lia).
  assert (Em : in_cidr 128 (of_be o) (65535 * 2 ^ 32) 96 = bool_decide (take 12 o = MAPPED_PREFIX)).
  { unfold in_cidr. rewrite <- Hcut at 1. rewrite of_be_shiftr by (unfold len; by rewrite Hd).
    rewrite <- of_be_eqb; [done|]. rewrite length_take. by rewrite Hl. }
  rewrite Em. destruct (bool_decide_reflect (take 12 o = MAPPED_PREFIX)) as [_|_].
  { rewrite H4 by done. do 2 f_equal. rewrite <- Hcut at 2. change (2 ^ 32)%N with (256 ^ 4)%N.
    replace 4%N with (len (drop 12 o)) by (unfold len; by rewrite Hd). by rewrite of_be_low. }
  rewrite <- (of_be_eqb o (replicate 15 x00 ++ [x01])), <- (of_be_eqb o (replicate 16 x00)) by done.
  destruct o as [|a [|b [|c [|d rest]]]]; try discriminate. injection Hl as Hl.
  destruct (v6_segments a b c d rest Hl) as [E0 E1]. cbn [segments].
  set (s0 := (b2n a * 256 + b2n b)%N) in *. set (s1 := (b2n c * 256 + b2n d)%N) in *.
  assert (H0 : (s0 < 2 ^ 16)%N) by (change (2 ^ 16)%N with 65536%N; pose proof (b2n_lt a); pose proof (b2n_lt b); unfold s0; lia).
  assert (H1 : (s1 < 65536)%N) by (pose proof (b2n_lt c); pose proof (b2n_lt d); unfold s1; lia).
  set (addr := of_be (a :: b :: c :: d :: rest)) in *.
  f_equal. unfold GUARDED_V6. cbn [existsb fst snd].
  rewrite !(in_cidr_top addr s0) by done.
  pose proof (land_top s0 8 8 255 H0) as L8. pose proof (land_top s0 7 9 126 H0) as L9. pose proof (land_top s0 10 6 1018 H0) as L6.
  change (N.shiftl (N.ones 8) 8) with 65280%N in L8. change (N.shiftl 255 8) with 65280%N in L8.
  change (N.shiftl (N.ones 7) 9) with 65024%N in L9. change (N.shiftl 126 9) with 64512%N in L9.
  change (N.shiftl (N.ones 10) 6) with 65472%N in L6. change (N.shiftl 1018 6) with 65152%N in L6.
  rewrite L8, L9, L6.
  assert (E32 : in_cidr 128 addr (v6_net 8193 3512) 32 = (s0 =? 8193)%N && (s1 =? 3512)%N).
  { unfold in_cidr. change (128 - 32)%N with 96%N. rewrite E1. change (N.shiftr (v6_net 8193 3512) 96) with (8193 * 65536 + 3512)%N.
    apply eq_true_iff_eq. rewrite andb_true_iff, !N.eqb_eq. lia. }
  change (0x2001)%N with 8193%N. change (0xdb8)%N with 3512%N. rewrite E32.
  change (of_be (replicate 15 x00 ++ [x01])) with 1%N. change (of_be (replicate 16 x00)) with 0%N.
  unfold in_cidr. change (128 - 128)%N with 0%N. rewrite !N.shiftr_0_r.
  change (N.shiftr 65280 (16 - 8)) with 255%N. change (N.shiftr 64512 (16 - 7)) with 126%N. change (N.shiftr 65152 (16 - 10)) with 1018%N.
  change (16 - 8)%N with 8%N. change (16 - 7)%N with 9%N. change (16 - 10)%N with 6%N.
  btauto.
Qed.


(** ** Connections that are made *)
Section recorded.
Context {W C : Type} `{!Web W C}.

(** The same world, with a log of the addresses that are connected to. *)
Definition recorded : Web (W * list (IpAddr * N)) C := {|
  wb_lookup := λ h p '(w, log), let '(r, w) := wb_lookup h p w in (r, (w, log));
  wb_connect := λ a '(w, log), let '(r, w) := wb_connect a w in (r, (w, log ++ [a]));
  wb_sni_ok := wb_sni_ok;
  wb_tls := λ c h '(w, log), let '(r, w) := wb_tls c h w in (r, (w, log));
  wb_write_all := λ c bs '(w, log), let '(r, w) := wb_write_all c bs w in (r, (w, log));
  wb_read := λ c n '(w, log), let '(r, w) := wb_read c n w in (r, (w, log));
|}.
#[local] Existing Instance recorded | 0.

Definition public (a : IpAddr * N) : Prop := ip_is_public a.1 = true.

(** A step that always returns, with at most [n] connections, all to public
    addresses, and with a result in [Q] if it succeeds. *)
Definition guarded {E A} (n : nat) (m : Step (W * list (IpAddr * N)) E A) (Q : A → Prop) : Prop :=
  ∀ w log, ∃ r w' more, m (w, log) = Some (r, (w', log ++ more)) ∧ Forall public more ∧ (length more ≤ n)%nat ∧
    ∀ a, r = Ok a → Q a.

Lemma guarded_weaken {E A} n n' (m : Step (W * list (IpAddr * N)) E A) (Q Q' : A → Prop) :
  guarded n m Q → (n ≤ n')%nat → (∀ a, Q a → Q' a) → guarded n' m Q'.
Proof.
  intros Hm Hn HQ w log. destruct (Hm w log) as (r & w' & more & Hr & Hp & Hl & Ha).
  exists r, w', more. split_and!; [done|done|lia|eauto].
Qed.
Lemma guarded_bind {E A B} n k (m : Step (W * list (IpAddr * N)) E A) (f : A → Step _ E B) Q R :
  guarded n m Q → (∀ a, Q a → guarded k (f a) R) → guarded (n + k) (st_bind m f) R.
Proof.
  intros Hm Hf w log. destruct (Hm w log) as (r & w' & more & Hr & Hp & Hl & Ha). unfold st_bind. rewrite Hr.
  destruct r as [a|e].
  - destruct (Hf a (Ha a eq_refl) w' (log ++ more)) as (r2 & w2 & more2 & Hr2 & Hp2 & Hl2 & Hb).
    exists r2, w2, (more ++ more2). rewrite Hr2, app_assoc, length_app. split_and!; [done|by apply Forall_app|lia|done].
  - exists (Err e), w', more. split_and!; [done|done|lia|by intros ? [=]].
Qed.
Lemma guarded_bind0 {E A B} n (m : Step (W * list (IpAddr * N)) E A) (f : A → Step _ E B) Q R :
  guarded 0 m Q → (∀ a, Q a → guarded n (f a) R) → guarded n (st_bind m f) R.
Proof. apply (guarded_bind 0). Qed.
Lemma guarded_lift {E A} n (r : result A E) (Q : A → Prop) : (∀ a, r = Ok a → Q a) → guarded n (st_lift r) Q.
Proof. intros Hr w log. exists r, w, []. rewrite app_nil_r. split_and!; [done|constructor|simpl; lia|done]. Qed.
Lemma guarded_ret {E A} n (a : A) (Q : A → Prop) : Q a → guarded (E:=E) n (st_ret a) Q.
Proof. intros Ha. apply (guarded_lift n (Ok a)). by intros ? [= <-]. Qed.
Lemma guarded_fail {E A} n (e : E) (Q : A → Prop) : guarded n (st_lift (Err e)) Q.
Proof. apply guarded_lift. by intros ? [=]. Qed.
Lemma guarded_reject {E} n c (e : E) : guarded n (st_reject c e) (λ _, c = false).
Proof. destruct c; [apply (guarded_fail n e)|by apply (guarded_ret n tt)]. Qed.

(** A call that opens no connection. *)
Definition quiet {A} (m : W * list (IpAddr * N) → result A WebError * (W * list (IpAddr * N))) : Prop :=
  ∀ w log, ∃ r w', m (w, log) = (r, (w', log)).
Lemma guarded_call {A} (m : W * list (IpAddr * N) → result A WebError * (W * list (IpAddr * N))) :
  quiet m → guarded 0 (web_call m) (λ _, True).
Proof.
  intros Hm w log. destruct (Hm w log) as (r & w' & E). exists r, w', []. unfold web_call. rewrite E, app_nil_r.
  split_and!; [done|constructor|simpl; lia|done].
Qed.
Lemma quiet_read c n : quiet (wb_read c n).
Proof. intros w log. cbn. destruct (wb_read c n w) as [r w']. by exists r, w'. Qed.
Lemma quiet_write c bs : quiet (wb_write_all c bs).
Proof. intros w log. cbn. destruct (wb_write_all c bs w) as [r w']. by exists r, w'. Qed.
Lemma quiet_tls c h : quiet (wb_tls c h).
Proof. intros w log. cbn. destruct (wb_tls c h w) as [r w']. by exists r, w'. Qed.
Lemma guarded_connect a : public a → guarded 1 (web_call (wb_connect a)) (λ _, True).
Proof.
  intros Ha w log. unfold web_call. cbn. destruct (wb_connect a w) as [r w']. exists r, w', [a].
  split_and!; [done|by constructor|simpl; lia|done].
Qed.

(** The loops have fuel enough: each round reads a byte or ends. *)
Lemma read_head_guarded fuel s buf :
  (0 < fuel)%nat → (MAX_HEAD + 2 ≤ fuel + length buf)%nat → guarded 0 (read_head fuel s buf) (λ _, True).
Proof.
  revert buf. induction fuel as [|fuel IH]; intros buf Hf Hl; [lia|]. cbn [read_head].
  eapply guarded_bind0; [apply guarded_call, quiet_read|]. intros tmp _.
  destruct (bool_decide_reflect (tmp = [])) as [_|Hne]; [apply guarded_fail|]. cbv zeta.
  destruct (find _ _); [by apply guarded_ret|].
  destruct (Nat.ltb_spec MAX_HEAD (length (buf ++ tmp))) as [Hbig|Hsmall]; [apply guarded_fail|].
  destruct tmp as [|b tmp]; [done|]. rewrite length_app in Hsmall. cbn [length] in Hsmall.
  apply IH; [lia|]. rewrite length_app. cbn [length]. lia.
Qed.
Lemma read_body_guarded fuel s limit cap body :
  (0 < fuel)%nat → (limit ≤ cap)%nat → (cap + 65 ≤ fuel + length body)%nat →
  guarded 0 (read_body fuel s limit cap body) (λ _, True).
Proof.
  revert body. induction fuel as [|fuel IH]; intros body Hf Hlim Hl; [lia|]. cbn [read_body].
  destruct (_ <? _)%nat; [|by apply guarded_ret].
  eapply guarded_bind0; [apply guarded_call, quiet_read|]. intros tmp _.
  destruct (bool_decide_reflect (tmp = [])) as [_|Hne]; [by apply guarded_ret|]. cbv zeta.
  destruct (Nat.ltb_spec (cap + 64) (length (body ++ tmp))) as [Hbig|Hsmall]; [by apply guarded_ret|].
  destruct tmp as [|b tmp]; [done|]. rewrite length_app in Hsmall. cbn [length] in Hsmall.
  apply IH; [lia|done|]. rewrite length_app. cbn [length]. lia.
Qed.

Definition fits (cap : nat) (r : HttpResponse) : Prop :=
  match r with Redirect _ => True | Body _ body => (length body ≤ cap)%nat end.

Lemma http_guarded s host path cap : guarded 0 (http_roundtrip s host path cap) (fits cap).
Proof.
  unfold http_roundtrip. eapply guarded_bind0; [apply guarded_call, quiet_write|]. intros _ _.
  eapply guarded_bind0; [apply read_head_guarded; unfold HEAD_FUEL; lia|]. intros [buf head_end] _.
  destruct (parse_head _) as [code h].
  destruct (_ && _)%bool; [destruct (hd_location h); [by apply guarded_ret|apply guarded_fail]|].
  destruct (negb _); [apply guarded_fail|]. cbv zeta.
  eapply guarded_bind0; [apply read_body_guarded; [lia| |lia]|].
  - destruct (hd_content_length h); [|done]. rewrite N2Nat.inj_min, Nat2N.id. lia.
  - intros body _. apply guarded_ret. cbn. rewrite length_take. lia.
Qed.
Lemma exchange_guarded a tls host path cap : public a → guarded 1 (exchange a tls host path cap) (fits cap).
Proof.
  intros Ha. unfold exchange. eapply (guarded_bind 1 0); [by apply guarded_connect|]. intros tcp _.
  destruct tls; [|apply http_guarded].
  eapply guarded_bind0 with (Q := λ _, True); [destruct (wb_sni_ok host); [by apply guarded_ret|apply guarded_fail]|]. intros _ _.
  eapply guarded_bind0; [apply guarded_call, quiet_tls|]. intros s _. apply http_guarded.
Qed.
Lemma deadline_guarded {A} n (m : Step (W * list (IpAddr * N)) WebError A) Q : guarded n m Q → guarded n (within_deadline m) Q.
Proof.
  intros Hm w log. destruct (Hm w log) as (r & w' & more & Hr & Hp & Hl & Ha). unfold within_deadline. rewrite Hr.
  exists (map_err timed r), w', more. split_and!; [done..|]. intros a E. apply Ha. by destruct r; simplify_eq/=.
Qed.
Lemma resolve_guarded host port : guarded 0 (resolve_public host port) public.
Proof.
  intros w log. unfold resolve_public. cbn [wb_lookup recorded]. destruct (wb_lookup host port w) as [r w'].
  eexists _, w', []. rewrite app_nil_r. split_and!; [done|constructor|simpl; lia|].
  intros a. destruct r as [addrs|]; [|done]. destruct (List.find _ addrs) as [a'|] eqn:Hf; [|done].
  intros [= <-]. by apply List.find_some in Hf as [_ ?].
Qed.

(** What a successful fetch returns. *)
Definition fetched (cap : nat) (want : option bytes) (host_ok : option (bytes → bool)) (r : bytes * bytes * bytes) : Prop :=
  (length r.1.2 ≤ cap)%nat ∧ type_ok want r.2 = true ∧ match host_ok with Some ok => ok r.1.1 = true | None => True end.

Lemma fetch_hops_guarded hops url cap want host_ok :
  guarded hops (fetch_hops hops url cap want host_ok) (fetched cap want host_ok).
Proof.
  revert url. induction hops as [|hops IH]; intros url; cbn [fetch_hops]; [apply guarded_fail|].
  eapply guarded_bind0; [apply guarded_reject|]. intros [] Hok.
  eapply guarded_bind0 with (Q := λ _, True); [by apply guarded_lift|]. intros [[[path host] port] tls] _.
  eapply guarded_bind0; [apply resolve_guarded|]. intros a Ha.
  eapply (guarded_bind 1 hops); [by apply deadline_guarded, exchange_guarded|]. intros [loc|ct body] Hfit.
  - eapply guarded_bind0 with (Q := λ _, True); [by apply guarded_lift|]. intros url' _. apply IH.
  - destruct (type_ok want ct) eqn:Ht; [|apply guarded_fail]. apply guarded_ret. split_and!; [done|done|].
    destruct host_ok; [by apply negb_false_iff in Hok|done].
Qed.
Lemma fetch_guarded url cap want host_ok :
  guarded (S MAX_REDIRECTS) (fetch_url url cap want host_ok) (fetched cap want host_ok).
Proof. apply fetch_hops_guarded. Qed.

Lemma outcome_guarded {E A} n (m : Step (W * list (IpAddr * N)) E A) Q : guarded n m Q → guarded (E:=E) n (outcome_of m) (λ _, True).
Proof.
  intros Hm w log. destruct (Hm w log) as (r & w' & more & Hr & Hp & Hl & Ha). unfold outcome_of. rewrite Hr.
  by exists (Ok r), w', more.
Qed.
Lemma unfurl_guarded url : guarded (2 * S MAX_REDIRECTS) (unfurl url) (λ _, True).
Proof.
  unfold unfurl. eapply guarded_bind0; [apply guarded_reject|]. intros _ _.
  eapply (guarded_bind (S MAX_REDIRECTS) (S MAX_REDIRECTS)); [apply fetch_guarded|]. intros [[final body] ct] _. cbv zeta.
  eapply (guarded_bind (S MAX_REDIRECTS) 0) with (Q := λ _, True); [|intros img _; by apply guarded_ret].
  destruct (or_else _ _ ≫= _) as [u|]; [|by apply guarded_ret]. unfold fetch_image.
  eapply (guarded_bind (S MAX_REDIRECTS) 0); [eapply outcome_guarded, fetch_guarded|].
  intros [[[? ?] ?]|?] _; by apply guarded_ret.
Qed.
End recorded.

(** C33: Previews reach public addresses only.  Whatever link a client sends,
    and however sites redirect, the relay's preview handler returns, having
    connected to at most eight addresses, each of them public; and to none
    when previews are off, the link is too long, or the client's tokens are
    spent. *)
Theorem preview_only_public {W C} `{!Web W C} url ip now g w log :
  ∃ (r : Response) (g' : UnfurlGate) (w' : W) (more : list (IpAddr * N)),
    gate_handle (Web0:=recorded) url ip now g (w, log) = Some (r, g', (w', log ++ more)) ∧
    Forall public more ∧ (length more ≤ 8)%nat ∧
    (more ≠ [] → ug_enabled g = true ∧ (len url ≤ MAX_URL_BYTES)%N ∧ (gate_allow ip now g).1 = true).
Proof.
  unfold gate_handle.
  assert (Hquiet : ∀ (r : Response) (g' : UnfurlGate), ∃ (r' : Response) (g'' : UnfurlGate) (w' : W) (more : list (IpAddr * N)),
    Some (r, g', (w, log)) = Some (r', g'', (w', log ++ more)) ∧ Forall public more ∧ (length more ≤ 8)%nat ∧
    (more ≠ [] → ug_enabled g = true ∧ (len url ≤ MAX_URL_BYTES)%N ∧ (gate_allow ip now g).1 = true)).
  { intros r g'. exists r, g', w, []. rewrite app_nil_r. split_and!; [done|constructor|simpl; lia|done]. }
  destruct (ug_enabled g); [|apply Hquiet]. cbn [negb].
  destruct (N.ltb_spec MAX_URL_BYTES (len url)); [apply Hquiet|].
  destruct (gate_allow ip now g) as [[] g']; [|apply Hquiet]. cbn [negb fst].
  destruct (unfurl_guarded url w log) as (r & w' & more & -> & Hp & Hl & _).
  destruct r as [p|e]; eexists _, g', w', more; split_and!; done.
Qed.


(** Addresses that stand for a private IPv4 address behind a translator
    (64:ff9b::10.0.0.1), in 6to4 (2002:a00:1::) and in the old compatible form
    (::10.0.0.1) are taken for public. *)
Example translated_is_public :
  ip_is_public (V6 ([x00; x64; xff; x9b] ++ replicate 8 x00 ++ [x0a; x00; x00; x01])) = true ∧
  ip_is_public (V6 ([x20; x02; x0a; x00; x00; x01] ++ replicate 10 x00)) = true ∧
  ip_is_public (V6 (replicate 12 x00 ++ [x0a; x00; x00; x01])) = true.
Proof. repeat split; reflexivity. Qed.
(** An escaped entity is decoded twice. *)
Example entity_decoded_twice : decode_entities (lit "&amp;lt;b&amp;gt;") = lit "<b>".
Proof. vm_compute. reflexivity. Qed.
Example absolutize_forms :
  absolutize (lit "https://a.com/x/y/z") (lit "//cdn.com/p.png") = Some (lit "https://cdn.com/p.png") ∧
  absolutize (lit "https://a.com/x/y/z") (lit "/root.png") = Some (lit "https://a.com/root.png") ∧
  absolutize (lit "https://a.com/x/y/z") (lit "sibling.png") = Some (lit "https://a.com/x/y/sibling.png").
Proof. vm_compute. repeat split. Qed.
Example split_url_forms :
  split_url (lit "HTTP://me@[::1]:8080?q") = Ok (lit "?q", lit "::1", 8080%N, false) ∧
  split_url (lit "https://ex.org") = Ok (lit "/", lit "ex.org", 443%N, true) ∧
  split_url (lit "ftp://ex.org") = Err (lit "only http and https links are previewed").
Proof. vm_compute. repeat split. Qed.
Example b64_vectors : b64 (lit "fo") = lit "Zm8=" ∧ b64 (lit "foobar") = lit "Zm9vYmFy".
Proof. vm_compute. repeat split. Qed.
Example meta_found :
  meta (lit "<head><META name='x'><meta property=og:title content='A &amp; B'>") (lit "og:title") = Some (lit "A &amp; B") ∧
  title_tag (lit "<TITLE lang=en> T </Title>") = Some (lit "T").
Proof. vm_compute. repeat split. Qed.
Example dechunk_two : dechunk (lit "3" ++ CRLF ++ lit "abc" ++ CRLF ++ lit "A;x" ++ CRLF ++ lit "0123456789" ++ CRLF ++ lit "0" ++ CRLF) = lit "abc0123456789".
Proof. vm_compute. reflexivity. Qed.
