(* ===== verification/Federation.v ===== *)
(** * Federation of relays ([crates/dante-relay/src/run.rs]) and the client's
      gossip ([crates/dante-core/src/p2p.rs])

    A relay hears its siblings on gossip topics, tells them every two seconds
    what it accepted, and copies ledgers and channel logs it lacks over
    connections.  The libp2p node is outside the repository: what it hears
    comes as a topic and a message, what is subscribed and published is
    returned.  A sibling's connection is the class [Connection] of [Sync]. *)

From S2P Require Import Prelude Utf8 Enc Crypto ProtoRecord IdentityRecords Server Ledger Mailbox Wire RelayParts RelayChannels Relay Roles Invite Sync.

(** ** Topics ([crates/dante-p2p/src/lib.rs]) *)
Definition LEDGER_TOPIC : bytes := lit "dante/ledger/v1".
Definition PREKEY_TOPIC : bytes := lit "dante/prekey/v1".
Definition MAILBOX_TOPIC : bytes := lit "dante/mbox/v1".
Definition KEYPKG_TOPIC : bytes := lit "dante/keypkg/v1".
Definition CHAN_TOPIC_PREFIX : bytes := lit "dante/chan/".

Definition channel_topic (channel_id : bytes) : bytes := CHAN_TOPIC_PREFIX ++ hex_of channel_id.

(** [u8::from_str_radix(two, 16)]: a leading plus is allowed. *)
Definition hex_pair (a b : byte) : option byte :=
  if bool_decide (a = x2b) then n2b <$> unnibble b
  else hi ← unnibble a; lo ← unnibble b; Some (n2b (hi * 16 + lo)).
Fixpoint hex_pairs (s : bytes) : option bytes :=
  match s with
  | [] => Some []
  | a :: b :: s => x ← hex_pair a b; l ← hex_pairs s; Some (x :: l)
  | _ => None
  end.
Definition parse_channel_topic (topic : bytes) : option bytes :=
  hex ← strip_prefix CHAN_TOPIC_PREFIX topic;
  if (length hex =? 64)%nat then hex_pairs hex else None.

(** ** A channel's gossip between relays *)
Inductive ChanGossip : Type :=
  | CgFrame (seq : N) (identity sig blob : bytes)
  | CgRoster (server_root : bytes) (version : N) (members : list bytes) (sig : bytes).

Definition TAG_FRAME : N := 0.
Definition TAG_ROSTER : N := 1.

Definition gossip_encode (g : ChanGossip) : bytes :=
  w_into_vec
    match g with
    | CgFrame seq identity sig blob =>
      w_new |> w_u8 TAG_FRAME |> w_u64 seq |> w_fixed identity |> w_fixed sig |> w_bytes blob
    | CgRoster server_root version members sig =>
      w_new |> w_u8 TAG_ROSTER |> w_fixed server_root |> w_u64 version |> w_fixed sig
        |> w_u32 (as_u32 (len members)) |> w_each w_fixed members
    end.

(** Which error it is does not matter: [decode] drops it. *)
Definition gossip_body (tag : N) : Read ChanGossip :=
  if (tag =? TAG_FRAME)%N then
    let! seq := r_u64 in
    let! identity := r_fixed 32 in
    let! sig := r_fixed 64 in
    let! blob := r_bytes in
    r_ret (CgFrame seq identity sig blob)
  else if (tag =? TAG_ROSTER)%N then
    let! server_root := r_fixed 32 in
    let! version := r_u64 in
    let! sig := r_fixed 64 in
    let! members := r_bounded 32 (r_fixed 32) in
    r_ret (CgRoster server_root version members sig)
  else r_err Eof.
Definition gossip_read : Read ChanGossip :=
  let! t := r_u8 in let! out := gossip_body t in let! _ := r_finish in r_ret out.
Definition gossip_decode (data : bytes) : option ChanGossip :=
  match run gossip_read data with Ok g => Some g | Err _ => None end.

(** ** The event loop of [serve_p2p] *)
Section relay.
Context `{CryptoPrims, TurnAuth}.

(** [Event::Message]; [None] is a panic. *)
Definition on_message (topic data : bytes) (now : N) (s : RelayState) : option RelayState :=
  if bool_decide (topic = LEDGER_TOPIC) then
    (λ bp, lens_set of_ledger bp.2 s) <$> ingest_gossiped_record data now (st_ledger s)
  else if bool_decide (topic = PREKEY_TOPIC) then
    Some (lens_set of_prekeys (ingest_gossiped_prekey data (st_prekeys s)).2 s)
  else if bool_decide (topic = MAILBOX_TOPIC) then
    (λ bp, lens_set of_mail bp.2 s) <$> ingest_gossiped_envelope data now (st_mail s)
  else if bool_decide (topic = KEYPKG_TOPIC) then
    Some (lens_set of_keypkgs (ingest_gossiped_keypackage (lp_ledger (st_ledger s)) data (st_keypkgs s)).2 s)
  else
    match parse_channel_topic topic with
    | None => Some s
    | Some cid =>
      match gossip_decode data with
      | Some (CgFrame seq identity sig blob) =>
        Some (lens_set of_channels
          (ingest_gossiped_channel_frame (lp_ledger (st_ledger s)) cid seq blob identity sig now (st_channels s)).2 s)
      | Some (CgRoster server_root version members sig) =>
        Some (lens_set of_channels (ingest_gossiped_channel_roster cid server_root version members sig (st_channels s)).2 s)
      | None => Some s
      end
    end.

Definition MAX_CHAN_SUBS : N := 16384.
(** The channels that are newly subscribed, and the set after them. *)
Fixpoint subscribe_all (cids : list bytes) (subs : gset bytes) : list bytes * gset bytes :=
  match cids with
  | [] => ([], subs)
  | cid :: cids =>
    if (N.of_nat (size subs) <? MAX_CHAN_SUBS)%N && negb (bool_decide (cid ∈ subs))
    then let '(l, subs) := subscribe_all cids ({[cid]} ∪ subs) in (cid :: l, subs)
    else subscribe_all cids subs
  end.

Definition frame_gossip (e : ChannelOutboxEntry) : bytes * bytes :=
  (channel_topic (co_channel_id e), gossip_encode (CgFrame (co_seq e) (co_identity e) (co_sig e) (co_blob e))).
Definition roster_gossip (e : ChannelRosterOutboxEntry) : bytes * bytes :=
  (channel_topic (cr_channel_id e), gossip_encode (CgRoster (cr_server_root e) (cr_version e) (cr_members e) (cr_sig e))).

(** What a tick does: what it subscribes to, what it publishes, which channels
    it goes on to fetch from siblings, the subscriptions and the state after. *)
Record Flush := mkFlush {
  fl_subscribed : list bytes; fl_published : list (bytes * bytes); fl_to_fetch : list bytes;
  fl_subs : gset bytes; fl_state : RelayState;
}.
Definition flush_tick (subs : gset bytes) (s : RelayState) : Flush :=
  let '(records, p) := take_ledger_outbox (st_ledger s) in
  let s := lens_set of_ledger p s in
  let '(prekeys, d) := take_prekey_outbox (st_prekeys s) in
  let s := lens_set of_prekeys d s in
  let '(envelopes, m) := take_mbox_outbox (st_mail s) in
  let s := lens_set of_mail m s in
  let '(keypkgs, k) := take_keypkg_outbox (st_keypkgs s) in
  let s := lens_set of_keypkgs k s in
  let '(frames, c) := take_channel_outbox (st_channels s) in
  let '(rosters, c) := take_channel_roster_outbox c in
  let '(backfill, c) := take_channel_backfill c in
  let s := lens_set of_channels c s in
  let '(subscribed, subs) := subscribe_all ((co_channel_id <$> frames) ++ (cr_channel_id <$> rosters) ++ backfill) subs in
  mkFlush subscribed
    ((pair LEDGER_TOPIC <$> records) ++ (pair PREKEY_TOPIC <$> prekeys) ++ (pair MAILBOX_TOPIC <$> envelopes) ++
     (pair KEYPKG_TOPIC <$> keypkgs) ++ (frame_gossip <$> frames) ++ (roster_gossip <$> rosters))
    backfill subs s.

(** [peer_pseudo_ip], of the bytes of a peer id. *)
Definition peer_pseudo_ip (peer : bytes) : IpAddr :=
  let tl := rev (take 15 (rev peer)) in
  V6 (xfd :: replicate (15 - length tl) x00 ++ tl).

(** ** Copying from a sibling *)
Section sibling.
Context {W : Type} `{Connection W}.
Notation Sib A := (Step W unit A).

Definition sibling_call (req : Request) : Sib Response := λ w,
  let (r, w) := request req w in Some (map_err (λ _, tt) r, w).

Definition max_seq (since : N) (rows : list (N * bytes)) : N :=
  match rows with [] => since | r :: rows => foldl N.max r.1 rows.*1 end.
(** [fetch_channel_from], until the sibling has no more or 100000 rows came. *)
Fixpoint fetch_rows (fuel : nat) (channel_id : bytes) (since : N) (out : list (N * bytes)) : Sib (list (N * bytes)) :=
  match fuel with
  | O => st_index None
  | S fuel =>
    do! resp := sibling_call (RqFetchChannel channel_id since) in
    match resp with
    | RsChannelLog rows =>
      if bool_decide (rows = []) then st_ret out
      else
        let out := out ++ rows in
        if (100000 <? len out)%N then st_ret out else fetch_rows fuel channel_id (max_seq since rows) out
    | _ => st_lift (Err tt)
    end
  end.
Definition FETCH_FUEL : nat := N.to_nat 100002.
Definition fetch_channel_from (channel_id : bytes) : Sib (list (N * bytes)) := fetch_rows FETCH_FUEL channel_id 0 [].

(** The siblings are asked in turn until one has rows. *)
Fixpoint adopt_from (siblings : list W) (channel_id : bytes) (now : N) (s : RelayState) : option RelayState :=
  match siblings with
  | [] => Some s
  | w :: siblings =>
    match fetch_channel_from channel_id w with
    | None => None
    | Some (Ok (row :: rows), _) =>
      Some (lens_set of_channels (adopt_channel_log channel_id (row :: rows) now (st_channels s)) s)
    | Some (_, _) => adopt_from siblings channel_id now s
    end
  end.

(** The records of one answer. *)
Fixpoint ingest_all (blobs : list bytes) (now : N) (accepted : N) (s : RelayState) : option (N * RelayState) :=
  match blobs with
  | [] => Some (accepted, s)
  | blob :: blobs =>
    match ingest_gossiped_record blob now (st_ledger s) with
    | Some (ok, p) => ingest_all blobs now (if ok then accepted + 1 else accepted)%N (lens_set of_ledger p s)
    | None => None
    end
  end.
(** [backfill_ledger_from]; [fuel] bounds the answers of 256 records. *)
Fixpoint backfill_loop (fuel : nat) (size from now accepted : N) : Step (W * RelayState) unit N := λ '(w, s),
  if (from <? size)%N then
    match fuel with
    | O => None
    | S fuel =>
      let to := N.min (wrap64 (from + 256)) size in
      match sibling_call (RqGetRecords from to) w with
      | Some (Ok (RsRecords blobs), w) =>
        if bool_decide (blobs = []) then Some (Ok accepted, (w, s))
        else match ingest_all blobs now accepted s with
             | Some (accepted, s) => backfill_loop fuel size to now accepted (w, s)
             | None => None
             end
      | Some (_, w) => Some (Err tt, (w, s))
      | None => None
      end
    end
  else Some (Ok accepted, (w, s)).
Definition backfill_ledger_from (now : N) : Step (W * RelayState) unit N := λ '(w, s),
  match sibling_call RqGetTreeHead w with
  | Some (Ok (RsTreeHead size _), w) => backfill_loop (N.to_nat (size / 256 + 1)) size 0 now 0 (w, s)
  | Some (_, w) => Some (Err tt, (w, s))
  | None => None
  end.
End sibling.
End relay.

(** ** The client's side *)

(** Little-endian integers. *)
Definition le (k : nat) (v : N) : bytes := rev (be k v).
Definition of_le (bs : bytes) : N := of_be (rev bs).

Definition prekey_key (identity_id : bytes) : bytes := lit "dante/prekey/v1:" ++ identity_id.
(** [publish_channel] *)
Definition client_gossip (channel_id : bytes) (seq : N) (frame : bytes) : bytes * bytes :=
  (channel_topic channel_id, le 8 seq ++ frame).

Record GossipBuffers := mkGossip { gb_ledger : list bytes; gb_chan : list (bytes * N * bytes) }.
(** One message of [pump]. *)
Definition pump_one (g : GossipBuffers) (m : bytes * bytes) : GossipBuffers :=
  let '(topic, data) := m in
  if bool_decide (topic = LEDGER_TOPIC) then mkGossip (gb_ledger g ++ [data]) (gb_chan g)
  else
    match parse_channel_topic topic with
    | Some cid =>
      if (8 <=? length data)%nat
      then mkGossip (gb_ledger g) (gb_chan g ++ [(cid, of_le (take 8 data), drop 8 data)])
      else g
    | None => g
    end.
(** [pump], on the messages that are waiting. *)
Definition pump (events : list (bytes * bytes)) (g : GossipBuffers) : GossipBuffers := foldl pump_one g events.
Definition drain_channel_frames (events : list (bytes * bytes)) (g : GossipBuffers) : list (bytes * N * bytes) * GossipBuffers :=
  let g := pump events g in (gb_chan g, mkGossip (gb_ledger g) []).
Definition drain_ledger_records (events : list (bytes * bytes)) (g : GossipBuffers) : list bytes * GossipBuffers :=
  let g := pump events g in (gb_ledger g, mkGossip [] (gb_chan g)).
