(* ===== verification/FederationTheorems.v ===== *)
(** * What holds of the federation
    A tick carries all that is queued to the siblings, entry by entry, and
    posts unchanged; whatever a relay hears or copies keeps it in a reachable
    state; and clients and relays do not understand each other's channel
    gossip. *)

From S2P Require Import Prelude Utf8 Enc Crypto ProtoRecord IdentityRecords Server Ledger Mailbox RateLimit Wire WireProofs RelayParts RelayChannels ChannelProofs Relay RelayProofs Roles RolesProofs Invite Sync LedgerTheorems RelayTheorems ServerRemoval Federation.

#[local] Instance ChanGossip_eq_dec : EqDecision ChanGossip.
Proof. solve_decision. Defined.

(** ** The codec *)
Definition gossip_ok (g : ChanGossip) : Prop :=
  match g with
  | CgFrame seq identity sig blob => ok_u64 seq ∧ ok_len 32 identity ∧ ok_len 64 sig ∧ fits_u32 blob
  | CgRoster root version members sig => ok_len 32 root ∧ ok_u64 version ∧ ok_len 64 sig ∧ ok_list (ok_len 32) members
  end.
Definition gossip_tag (g : ChanGossip) : N := match g with CgFrame _ _ _ _ => TAG_FRAME | CgRoster _ _ _ _ => TAG_ROSTER end.
Definition gossip_bytes (g : ChanGossip) : bytes :=
  match g with
  | CgFrame seq identity sig blob => be 8 seq ++ identity ++ sig ++ lenp blob
  | CgRoster root version members sig => root ++ be 8 version ++ sig ++ enc_list id members
  end.

#[local] Instance members_parses : Parses (r_bounded 32 (r_fixed 32)) (enc_list id) (ok_list (ok_len 32)).
Proof. apply bounded_parses; [apply _|]. intros a Ha. unfold id. unfold ok_len in Ha. cbn [Nat.max]. lia. Qed.
#[local] Instance members_canon : Canon (r_bounded 32 (r_fixed 32)) (enc_list id) (ok_list (ok_len 32)).
Proof. apply bounded_canon, _. Qed.

Lemma gossip_encode_eq g : gossip_encode g = enc_u8 (gossip_tag g) ++ gossip_bytes g.
Proof.
  destruct g as [seq identity sig blob|root version members sig]; unfold gossip_encode, gossip_tag, gossip_bytes.
  - by enc_norm.
  - rewrite w_into_vec_buf, (w_buf_each _ id) by done. unfold enc_list. by enc_norm.
Qed.

Lemma gossip_round g : gossip_ok g → gossip_decode (gossip_encode g) = Some g.
Proof.
  intros Hok. unfold gossip_decode. rewrite gossip_encode_eq. unfold gossip_read.
  rewrite (message_round gossip_body (gossip_tag g) (gossip_bytes g) g); [done|by destruct g|].
  intros pre post. destruct g; cbn [gossip_ok] in Hok; destruct_and?; unfold gossip_bytes, gossip_tag;
    match goal with |- gossip_body ?t _ = _ => let t' := eval cbv in t in change t with t' end;
    cbn [gossip_body N.eqb Pos.eqb TAG_FRAME TAG_ROSTER]; rewrite <- ?app_assoc; parses; unfold r_ret, id;
    rewrite <- ?app_assoc, ?app_nil_r; done.
Qed.
Lemma gossip_decode_canon data g : gossip_decode data = Some g → gossip_ok g ∧ gossip_encode g = data.
Proof.
  unfold gossip_decode. destruct (run gossip_read data) as [g'|] eqn:Hr; [|done]. intros [= ->].
  apply message_canon in Hr as (tag & post & r' & _ & -> & Hm & H0). rewrite gossip_encode_eq. unfold gossip_body in Hm.
  repeat (case_match; try discriminate); canons Hm; injection Hm as <- <-; (split; [cbn [gossip_ok]; auto|]);
    rewrite r_remaining_rd in H0; apply nil_length_inv in H0 as ->;
    match goal with H : (_ =? _)%N = true |- _ => apply N.eqb_eq in H as -> end;
    cbn [gossip_tag gossip_bytes]; unfold id; rewrite ?app_nil_r; rewrite <- ?app_assoc; done.
Qed.

(** ** Topics *)
Lemma hex_pair_nibbles (b : byte) : hex_pair (nibble (N.shiftr (b2n b) 4)) (nibble (N.land (b2n b) 15)) = Some b.
Proof. destruct b; vm_compute; reflexivity. Qed.
Lemma hex_pairs_hex bs : hex_pairs (hex_of bs) = Some bs.
Proof. induction bs as [|b bs IH]; [done|]. rewrite hex_of_cons. cbn [hex_pairs]. rewrite hex_pair_nibbles. cbn. by rewrite IH. Qed.
Lemma channel_topic_round cid : length cid = 32%nat → parse_channel_topic (channel_topic cid) = Some cid.
Proof.
  intros Hl. unfold parse_channel_topic, channel_topic, strip_prefix.
  rewrite take_app_length, bool_decide_eq_true_2, drop_app_length by done. cbn [mbind option_bind].
  rewrite hex_of_length, Hl. cbn [Nat.mul Nat.eqb Nat.add]. apply hex_pairs_hex.
Qed.
(** A channel's topic is none of the four others. *)
Lemma channel_topic_own cid t : t ∈ [LEDGER_TOPIC; PREKEY_TOPIC; MAILBOX_TOPIC; KEYPKG_TOPIC] → channel_topic cid ≠ t.
Proof.
  intros Ht E. apply (f_equal (take 8)) in E. unfold channel_topic in E. 
  repeat (apply elem_of_cons in Ht as [->|Ht]; [by vm_compute in E|]). by apply not_elem_of_nil in Ht.
Qed.

Section relay.
Context `{CryptoPrims, !CryptoLaws, TurnAuth}.

(** Hearing a channel's gossip. *)
Lemma hear_channel cid g now s :
  length cid = 32%nat → gossip_ok g →
  on_message (channel_topic cid) (gossip_encode g) now s =
    Some match g with
         | CgFrame seq identity sig blob =>
           lens_set of_channels (ingest_gossiped_channel_frame (lp_ledger (st_ledger s)) cid seq blob identity sig now (st_channels s)).2 s
         | CgRoster root version members sig =>
           lens_set of_channels (ingest_gossiped_channel_roster cid root version members sig (st_channels s)).2 s
         end.
Proof.
  intros Hc Hg. unfold on_message.
  rewrite !bool_decide_eq_false_2 by (apply channel_topic_own; set_solver).
  rewrite channel_topic_round, gossip_round by done. by destruct g.
Qed.

Lemma pushed_last {A} cap (x : A) q : (0 < cap)%nat → x ∈ push_capped cap x q.
Proof.
  intros Hc. unfold push_capped. rewrite drop_app_le by (rewrite length_app; cbn; lia). apply elem_of_app. right. by left.
Qed.

Lemma flush_frames subs s e : e ∈ cs_outbox (st_channels s) → frame_gossip e ∈ fl_published (flush_tick subs s).
Proof.
  intros He. unfold flush_tick. cbn. destruct (subscribe_all _ _) as [l sb]. cbn [fl_published].
  rewrite !elem_of_app. do 4 right. left. by apply list_elem_of_fmap_2.
Qed.
(** ** What is heard and copied *)

Lemma ingest_all_run blobs now n s :
  relay_wf s → ∃ m s', ingest_all blobs now n s = Some (m, s') ∧ relay_run s s' ∧ relay_wf s'.
Proof.
  revert n s. induction blobs as [|blob blobs IH]; intros n s Hs; cbn [ingest_all]; [by exists n, s; split_and!|].
  destruct (ingest_record_safe blob now (st_ledger s) (rw_ledger s Hs)) as (b & p & Hi & _). rewrite Hi.
  assert (Hst : relay_step s (lens_set of_ledger p s)) by by eapply rs_gossip_record.
  destruct (IH (if b then n + 1 else n)%N (lens_set of_ledger p s)) as (m & s' & Hm & Hr & Hw); [by eapply relay_step_wf|].
  exists m, s'. split_and!; [exact Hm|by eapply rtc_l|done].
Qed.

Lemma N2Nat_pos n : (0 < n)%N → (0 < N.to_nat n)%nat.
Proof. lia. Qed.

Section backfill.
Context {W : Type} `{!Connection W}.

Lemma backfill_loop_run fuel size from now n w s :
  relay_wf s → (size ≤ 18446744073709551360)%N → (size ≤ from + 256 * N.of_nat fuel)%N →
  ∃ r w' s', backfill_loop fuel size from now n (w, s) = Some (r, (w', s')) ∧ relay_run s s'.
Proof.
  revert from n w s. induction fuel as [|fuel IH]; intros from n w s Hs Hsz Hf; cbn [backfill_loop];
    (destruct (N.ltb_spec from size) as [Hlt|Hge]; [|by exists (Ok n), w, s]); [lia|].
  unfold sibling_call. destruct (request _ w) as [[resp|e] w1]; cbn [map_err]; [|by exists (Err tt), w1, s].
  destruct resp; try by exists (Err tt), w1, s.
  destruct (bool_decide (blobs = [])); [by exists (Ok n), w1, s|].
  destruct (ingest_all_run blobs now n s Hs) as (m & s1 & -> & Hr & Hw).
  assert (Hto : (wrap64 (from + 256) = from + 256)%N) by (apply N.mod_small; lia).
  destruct (IH (N.min (wrap64 (from + 256)) size) m w1 s1 Hw Hsz) as (r & w' & s' & E & Hr'); [rewrite Hto; lia|].
  exists r, w', s'. split; [exact E|by etrans].
Qed.

Lemma backfill_run now w s :
  relay_wf s → (∀ w size root w', request RqGetTreeHead w = (Ok (RsTreeHead size root), w') → (size ≤ 18446744073709551360)%N) →
  ∃ r w' s', backfill_ledger_from now (w, s) = Some (r, (w', s')) ∧ relay_run s s'.
Proof.
  intros Hs Hsz. unfold backfill_ledger_from, sibling_call. destruct (request RqGetTreeHead w) as [[resp|e] w1] eqn:E; cbn [map_err];
    [|by exists (Err tt), w1, s].
  destruct resp; try by exists (Err tt), w1, s. specialize (Hsz _ _ _ _ E). apply backfill_loop_run; [done..|].
  rewrite N2Nat.id. pose proof (N.div_mod' size 256). pose proof (N.mod_lt size 256). lia.
Qed.
End backfill.

(** Copying a channel's log ends: each answer that is not the last has a row. *)
Lemma fetch_rows_total {W} `{!Connection W} fuel cid since out w :
  (0 < fuel)%nat → (100002 ≤ N.of_nat fuel + len out)%N → ∃ r w', fetch_rows fuel cid since out w = Some (r, w').
Proof.
  revert since out w. induction fuel as [|fuel IH]; intros since out w Hf Hl; [lia|]. cbn [fetch_rows].
  unfold st_bind, sibling_call. destruct (request _ w) as [[resp|e] w1]; cbn [map_err]; [|by eauto].
  destruct resp; try by (eexists _, _; reflexivity).
  destruct (bool_decide_reflect (entries = [])) as [_|Hne]; [by eexists _, _|]. cbv zeta.
  destruct (N.ltb_spec 100000 (len (out ++ entries))) as [Hbig|Hsmall]; [by eexists _, _|].
  destruct entries as [|row rows]; [done|]. rewrite len_app, len_cons in Hsmall.
  apply IH; [lia|]. rewrite len_app, len_cons. lia.
Qed.
Lemma fetch_channel_total {W} `{!Connection W} cid w : ∃ r w', fetch_channel_from cid w = Some (r, w').
Proof. apply fetch_rows_total; unfold FETCH_FUEL; [apply N2Nat_pos; done|]. rewrite N2Nat.id. cbn. lia. Qed.

Lemma adopt_run {W} `{!Connection W} siblings cid now s :
  (∀ w rows w', fetch_channel_from cid w = Some (Ok rows, w') →
     (∀ sb, sb ∈ rows → (sb.1 < u64_max)%N) ∧ (cs_bytes (st_channels s) + sum_by (λ sb, len sb.2) rows ≤ u64_max)%N) →
  ∃ s', adopt_from siblings cid now s = Some s' ∧ relay_run s s'.
Proof.
  intros Hrows. induction siblings as [|w siblings IH]; cbn [adopt_from]; [by exists s|].
  destruct (fetch_channel_total cid w) as (r & w' & E). rewrite E. destruct r as [[|row rows]|e]; [exact IH| |exact IH].
  destruct (Hrows _ _ _ E) as [Hseq Hsum]. eexists. split; [done|]. apply rtc_once, rs_channels. by apply ch_adopt.
Qed.

Lemma on_message_run topic data now s :
  relay_wf s → (∀ seq i g b, gossip_decode data = Some (CgFrame seq i g b) → (seq < u64_max)%N) →
  ∃ s', on_message topic data now s = Some s' ∧ relay_run s s'.
Proof.
  intros Hs Hseq. unfold on_message.
  destruct (bool_decide _).
  { destruct (ingest_record_safe data now _ (rw_ledger s Hs)) as (b & p & Hi & _). rewrite Hi. eexists. split; [done|].
    apply rtc_once. by eapply rs_gossip_record. }
  destruct (bool_decide _); [eexists; split; [done|apply rtc_once, rs_gossip_prekey]|].
  destruct (bool_decide _).
  { destruct (ingest_envelope_safe data now _ (rw_mail s Hs)) as (b & p & Hi & _). rewrite Hi. eexists. split; [done|].
    apply rtc_once. by eapply rs_gossip_envelope. }
  destruct (bool_decide _); [eexists; split; [done|apply rtc_once, rs_gossip_keypackage]|].
  destruct (parse_channel_topic topic) as [cid|]; [|by exists s].
  destruct (gossip_decode data) as [[seq i g b|root v ms g]|] eqn:Hg; [..|by exists s];
    (eexists; split; [done|]); apply rtc_once, rs_channels.
  - eapply ch_frame; [by eapply Hseq|apply surjective_pairing].
  - eapply ch_gossip_roster, surjective_pairing.
Qed.

Lemma flush_run subs s : relay_run s (fl_state (flush_tick subs s)).
Proof.
  unfold flush_tick. cbn. destruct (subscribe_all _ _) as [l sb]. cbn [fl_state].
  eapply rtc_l; [apply rs_drain_ledger|]. eapply rtc_l; [apply rs_drain_prekeys|].
  eapply rtc_l; [apply rs_drain_mail|]. eapply rtc_l; [apply rs_drain_keypkgs|].
  eapply rtc_l; [apply rs_channels, ch_drain_outbox|]. eapply rtc_l; [apply rs_channels, ch_drain_rosters|].
  eapply rtc_l; [apply rs_channels, ch_drain_backfill|]. apply rtc_refl.
Qed.

(** The federation keeps a relay in a reachable state.  Whatever message
    arrives on whatever topic, every tick that empties the queues, and every
    copying of a sibling's ledger or of a channel's log, whatever the siblings
    answer (numbers and sizes at the very top of [u64] apart, where the code
    wraps), returns and is a run of the relay's steps, so that what is shown
    of every run holds between relays too. *)
Theorem federation_is_run s :
  relay_wf s →
  (∀ topic data now, (∀ seq i g b, gossip_decode data = Some (CgFrame seq i g b) → (seq < u64_max)%N) →
     ∃ s', on_message topic data now s = Some s' ∧ relay_run s s') ∧
  (∀ subs, relay_run s (fl_state (flush_tick subs s))) ∧
  (∀ W (sibling : Connection W) now w,
     (∀ w size root w', request RqGetTreeHead w = (Ok (RsTreeHead size root), w') → (size ≤ u64_max - 255)%N) →
     ∃ r w' s', backfill_ledger_from now (w, s) = Some (r, (w', s')) ∧ relay_run s s') ∧
  (∀ W (sibling : Connection W) siblings cid now,
     (∀ w rows w', fetch_channel_from cid w = Some (Ok rows, w') →
        (∀ sb, sb ∈ rows → (sb.1 < u64_max)%N) ∧ (cs_bytes (st_channels s) + sum_by (λ sb, len sb.2) rows ≤ u64_max)%N) →
     ∃ s', adopt_from siblings cid now s = Some s' ∧ relay_run s s').
Proof.
  intros Hs. split_and!; [intros; by apply on_message_run|intros; apply flush_run|intros; by apply backfill_run|intros; by apply adopt_run].
Qed.

(** What the queues hold, in the order in which a tick takes it. *)
Inductive Item : Type :=
  | ItRecord (blob : bytes)
  | ItPrekeys (blob : bytes)
  | ItEnvelope (blob : bytes)
  | ItKeyPackage (msg : bytes)
  | ItFrame (e : ChannelOutboxEntry)
  | ItRoster (e : ChannelRosterOutboxEntry).

Definition queued s : list Item :=
  (ItRecord <$> (take_ledger_outbox (st_ledger s)).1) ++ (ItPrekeys <$> (take_prekey_outbox (st_prekeys s)).1) ++
  (ItEnvelope <$> (take_mbox_outbox (st_mail s)).1) ++ (ItKeyPackage <$> (take_keypkg_outbox (st_keypkgs s)).1) ++
  (ItFrame <$> cs_outbox (st_channels s)) ++ (ItRoster <$> cs_roster_outbox (st_channels s)).

(** What a sibling makes of one. *)
Definition ingest_item (now : N) (it : Item) (t : RelayState) : option RelayState :=
  match it with
  | ItRecord blob => (λ bp, lens_set of_ledger bp.2 t) <$> ingest_gossiped_record blob now (st_ledger t)
  | ItPrekeys blob => Some (lens_set of_prekeys (ingest_gossiped_prekey blob (st_prekeys t)).2 t)
  | ItEnvelope blob => (λ bp, lens_set of_mail bp.2 t) <$> ingest_gossiped_envelope blob now (st_mail t)
  | ItKeyPackage msg =>
    Some (lens_set of_keypkgs (ingest_gossiped_keypackage (lp_ledger (st_ledger t)) msg (st_keypkgs t)).2 t)
  | ItFrame e =>
    Some (lens_set of_channels (ingest_gossiped_channel_frame (lp_ledger (st_ledger t)) (co_channel_id e) (co_seq e)
      (co_blob e) (co_identity e) (co_sig e) now (st_channels t)).2 t)
  | ItRoster e =>
    Some (lens_set of_channels (ingest_gossiped_channel_roster (cr_channel_id e) (cr_server_root e) (cr_version e)
      (cr_members e) (cr_sig e) (st_channels t)).2 t)
  end.

(** The sizes that the types of the fields fix, and a number with room. *)
Definition item_typed (it : Item) : Prop :=
  match it with
  | ItFrame e => length (co_channel_id e) = 32%nat ∧ (co_seq e < u64_max)%N ∧
      gossip_ok (CgFrame (co_seq e) (co_identity e) (co_sig e) (co_blob e))
  | ItRoster e => length (cr_channel_id e) = 32%nat ∧
      gossip_ok (CgRoster (cr_server_root e) (cr_version e) (cr_members e) (cr_sig e))
  | _ => True
  end.

(** Hearing one message after the other, and taking one item after the other. *)
Definition hear_all (now : N) (msgs : list (bytes * bytes)) (t : RelayState) : option RelayState :=
  foldl (λ acc m, t ← acc; on_message m.1 m.2 now t) (Some t) msgs.
Definition ingest_items (now : N) (items : list Item) (t : RelayState) : option RelayState :=
  foldl (λ acc it, t ← acc; ingest_item now it t) (Some t) items.

(** The message an item is published as. *)
Definition item_message (it : Item) : bytes * bytes :=
  match it with
  | ItRecord blob => (LEDGER_TOPIC, blob)
  | ItPrekeys blob => (PREKEY_TOPIC, blob)
  | ItEnvelope blob => (MAILBOX_TOPIC, blob)
  | ItKeyPackage msg => (KEYPKG_TOPIC, msg)
  | ItFrame e => frame_gossip e
  | ItRoster e => roster_gossip e
  end.

Lemma item_heard now it t :
  item_typed it → on_message (item_message it).1 (item_message it).2 now t = ingest_item now it t.
Proof.
  destruct it as [b|b|b|b|e|e]; cbn [item_typed item_message fst snd]; intros Hit; try reflexivity.
  - destruct Hit as (Hc & _ & Hg). unfold frame_gossip. cbn [fst snd]. by rewrite hear_channel.
  - destruct Hit as (Hc & Hg). unfold roster_gossip. cbn [fst snd]. by rewrite hear_channel.
Qed.

Lemma items_heard now items t :
  Forall item_typed items → hear_all now (item_message <$> items) t = ingest_items now items t.
Proof.
  unfold hear_all, ingest_items. intros Hall. generalize (Some t). 
  induction Hall as [|it items Hit Hall IH]; intros acc; [done|]. cbn [fmap list_fmap foldl].
  rewrite IH. f_equal. destruct acc as [t'|]; [|done]. cbn [mbind option_bind]. by apply item_heard.
Qed.

Lemma ingest_item_run now it t :
  relay_wf t → item_typed it → ∃ t', ingest_item now it t = Some t' ∧ relay_run t t'.
Proof.
  intros Ht Hit. destruct it as [b|b|b|b|e|e]; cbn [ingest_item item_typed] in *.
  - destruct (ingest_record_safe b now _ (rw_ledger t Ht)) as (ok & p & Hi & _). rewrite Hi. eexists. split; [done|].
    apply rtc_once. by eapply rs_gossip_record.
  - eexists. split; [done|]. apply rtc_once, rs_gossip_prekey.
  - destruct (ingest_envelope_safe b now _ (rw_mail t Ht)) as (ok & p & Hi & _). rewrite Hi. eexists. split; [done|].
    apply rtc_once. by eapply rs_gossip_envelope.
  - eexists. split; [done|]. apply rtc_once, rs_gossip_keypackage.
  - eexists. split; [done|]. apply rtc_once, rs_channels. eapply ch_frame; [by apply Hit|apply surjective_pairing].
  - eexists. split; [done|]. apply rtc_once, rs_channels. eapply ch_gossip_roster, surjective_pairing.
Qed.

Lemma ingest_items_run now items t :
  relay_wf t → Forall item_typed items → ∃ t', ingest_items now items t = Some t' ∧ relay_run t t'.
Proof.
  unfold ingest_items. intros Ht Hall. revert t Ht. induction Hall as [|it items Hit Hall IH]; intros t Ht; [by exists t|].
  cbn [foldl mbind option_bind]. destruct (ingest_item_run now it t Ht Hit) as (t1 & -> & Hr1).
  destruct (IH t1) as (t2 & E & Hr2); [by eapply relay_run_wf|]. exists t2. split; [exact E|by etrans].
Qed.

(** Subscribing: what is new, and what is subscribed after. *)
Lemma subscribe_all_spec cids subs l subs' :
  subscribe_all cids subs = (l, subs') →
  subs ⊆ subs' ∧ (∀ c, c ∈ l ↔ c ∈ subs' ∧ c ∉ subs) ∧
  ∀ c, c ∈ cids → c ∈ subs' ∨ (MAX_CHAN_SUBS ≤ N.of_nat (size subs'))%N.
Proof.
  revert subs l subs'. induction cids as [|c0 cids IH]; intros subs l subs'; cbn [subscribe_all].
  { intros [= <- <-]. split_and!; [done|set_solver|set_solver]. }
  destruct (_ <? _)%N eqn:Efull; cbn [andb].
  2: { intros Hs. apply IH in Hs as (Hsub & Hl & Hc). apply N.ltb_ge in Efull. split_and!; [done..|].
       intros c [->|Hin]%elem_of_cons; [right|by apply Hc]. apply subseteq_size in Hsub. lia. }
  case_bool_decide as Hin; cbn [negb].
  - intros Hs. apply IH in Hs as (Hsub & Hl & Hc). split_and!; [done..|]. intros c [->|?]%elem_of_cons; [left; set_solver|by apply Hc].
  - destruct (subscribe_all cids _) as [l1 subs1] eqn:Es. intros [= <- <-]. apply IH in Es as (Hsub & Hl & Hc).
    split_and!; [set_solver| |].
    + intros c. rewrite elem_of_cons, Hl. destruct (decide (c = c0)) as [->|]; set_solver.
    + intros c [->|?]%elem_of_cons; [left; set_solver|by apply Hc].
Qed.

Lemma flush_published subs s : fl_published (flush_tick subs s) = item_message <$> queued s.
Proof.
  unfold flush_tick, queued. cbn. destruct (subscribe_all _ _) as [l sb]. cbn [fl_published].
  rewrite !fmap_app, <- !list_fmap_compose. done.
Qed.

(** C27: A tick carries the queues over.  It publishes everything the queues
    hold and leaves them empty; a relay that hears what is published, in order,
    is afterwards where it would be had it ingested each entry by the function
    of its kind, with everything the entry says; it does not panic, and what it
    does is a run of its steps, so that what is shown of every run holds of
    gossip too.  The tick subscribes to the channel of every frame and roster
    it publishes and of every channel it goes on to fetch, once each, as long
    as there is room for 16384.  (The entries have the sizes their types fix,
    and no frame has the number [2^64 - 1].) *)
Theorem tick_carries_queues subs s :
  let f := flush_tick subs s in
  queued (fl_state f) = [] ∧ fl_to_fetch f = cs_backfill (st_channels s) ∧ cs_backfill (st_channels (fl_state f)) = [] ∧
  (Forall item_typed (queued s) → ∀ now sibling,
     hear_all now (fl_published f) sibling = ingest_items now (queued s) sibling ∧
     (relay_wf sibling → ∃ sibling', hear_all now (fl_published f) sibling = Some sibling' ∧ relay_run sibling sibling')) ∧
  subs ⊆ fl_subs f ∧ (∀ c, c ∈ fl_subscribed f ↔ c ∈ fl_subs f ∧ c ∉ subs) ∧
  ∀ c, c ∈ (co_channel_id <$> cs_outbox (st_channels s)) ++ (cr_channel_id <$> cs_roster_outbox (st_channels s)) ++ fl_to_fetch f →
    c ∈ fl_subs f ∨ (MAX_CHAN_SUBS ≤ N.of_nat (size (fl_subs f)))%N.
Proof.
  cbv zeta. rewrite (flush_published subs s).
  assert (Hhear : Forall item_typed (queued s) → ∀ now sibling,
    hear_all now (item_message <$> queued s) sibling = ingest_items now (queued s) sibling ∧
    (relay_wf sibling → ∃ sibling', hear_all now (item_message <$> queued s) sibling = Some sibling' ∧ relay_run sibling sibling')).
  { intros Ht now sibling. rewrite items_heard by done. split; [done|]. intros Hwf. by apply ingest_items_run. }
  unfold flush_tick. cbn. destruct (subscribe_all _ _) as [l sb] eqn:Es. cbn [fl_state fl_to_fetch fl_subs fl_subscribed].
  apply subscribe_all_spec in Es as (Hsub & Hl & Hc). by split_and!.
Qed.

(** C31: A member's post reaches the siblings.  When a relay accepts a post, its
    next tick publishes a message on the channel's topic, and any relay that
    hears it, whenever, ingests exactly the post: the same channel, frame,
    author and signature, under the number the first relay gave it. *)
Theorem post_reaches_siblings cid blob identity sig ip now s seq s' subs :
  relay_wf s → request_ok (RqPostToChannel cid blob identity sig) →
  handle (RqPostToChannel cid blob identity sig) ip now s = Some (Ok (RsPosted seq), s') →
  ∃ topic data, (topic, data) ∈ fl_published (flush_tick subs s') ∧
    ∀ later sibling,
      on_message topic data later sibling =
        Some (lens_set of_channels
          (ingest_gossiped_channel_frame (lp_ledger (st_ledger sibling)) cid seq blob identity sig later (st_channels sibling)).2 sibling).
Proof.
  intros Hs Hq Hr. cbn [request_ok] in Hq. destruct Hq as (Hc & Hb & Hi & Hg).
  cbn [handle] in Hr. apply charged_Ok in Hr as (s1 & _ & Hr).
  apply post_cases in Hr as [(e & [=] & _)|([= ->] & _ & Hs')].
  set (e := mkOut cid (cl_next_seq (log_of (st_channels s) cid)) blob identity sig).
  exists (channel_topic cid), (gossip_encode (CgFrame (co_seq e) (co_identity e) (co_sig e) (co_blob e))). split.
  - apply (flush_frames subs s' e). rewrite Hs'. cbn. apply pushed_last. unfold CHANNEL_FED_QUEUE_CAP. lia.
  - intros later sibling. rewrite hear_channel; [done|done|]. cbn [gossip_ok co_seq co_identity co_sig co_blob e]. split_and!; [|done..].
    unfold log_of. destruct (cs_channels (st_channels s) !! cid) as [log|] eqn:El; cbn; [|done].
    pose proof (lw_range _ (cw_logs _ (rw_channels s Hs) _ _ El)) as Hl. unfold ok_u64. unfold u64_max in Hl. lia.
Qed.

(** ** Clients and relays *)

Lemma tag_byte t : t = TAG_FRAME ∨ t = TAG_ROSTER → enc_u8 t = [n2b t].
Proof. intros [-> | ->]; vm_compute; reflexivity. Qed.
Lemma gossip_length g : gossip_ok g → match g with CgFrame _ _ _ blob => length (gossip_encode g) = (109 + length blob)%nat | _ => True end.
Proof.
  destruct g as [seq i sg blob|]; [|done]. intros (_ & Hi & Hg & _). unfold ok_len in Hi, Hg.
  rewrite gossip_encode_eq. cbn [gossip_bytes gossip_tag]. rewrite tag_byte by (by left). pose proof (len_lenp blob) as Hl. unfold len in Hl.
  rewrite !length_app, length_be, Hi, Hg. cbn [length]. lia.
Qed.

(** The last byte of a big-endian integer is the first of a little-endian one. *)
Lemma be_snoc k v : be (S k) v = be k (v / 256) ++ [n2b v].
Proof.
  revert v. induction k as [|k IH]; intros v; [rewrite be_S; cbn; by rewrite N.div_1_r|].
  rewrite be_S, IH, (be_S k). cbn [app]. f_equal. rewrite N.Div0.div_div. do 2 f_equal.
  rewrite <- N.pow_succ_r'. f_equal. lia.
Qed.

(** C38: Clients and relays speak different languages on a channel's topic.  A
    client that hears what a relay publishes of a post never gets the post's
    frame; a relay that hears what a client publishes of its own post ignores
    it, unless the low byte of the post's number happens to be one of the two
    tags. *)
Theorem channel_gossip_clashes cid seq identity sig blob frame n now s g :
  length cid = 32%nat → gossip_ok (CgFrame seq identity sig blob) → (2 ≤ n mod 256)%N →
  (∀ x, x ∈ (drain_channel_frames [(channel_topic cid, gossip_encode (CgFrame seq identity sig blob))] (mkGossip g [])).1 → x.2 ≠ blob) ∧
  on_message (client_gossip cid n frame).1 (client_gossip cid n frame).2 now s = Some s.
Proof.
  intros Hc Hok Hn. split.
  - intros x. unfold drain_channel_frames, pump. cbn [foldl pump_one].
    rewrite bool_decide_eq_false_2 by (apply channel_topic_own; set_solver). rewrite channel_topic_round by done.
    pose proof (gossip_length _ Hok) as Hl. rewrite Hl, (proj2 (Nat.leb_le _ _)) by lia.
    cbn [gb_chan fst app]. intros ->%list_elem_of_singleton. cbn [snd]. intros E. apply (f_equal length) in E.
    rewrite length_drop, Hl in E. lia.
  - unfold client_gossip, on_message. cbn [fst snd]. rewrite !bool_decide_eq_false_2 by (apply channel_topic_own; set_solver).
    rewrite channel_topic_round by done. destruct (gossip_decode (le 8 n ++ frame)) as [d|] eqn:Hd; [|done]. exfalso.
    apply gossip_decode_canon in Hd as [_ Hd]. rewrite gossip_encode_eq in Hd.
    rewrite tag_byte in Hd by (destruct d; [by left|by right]). unfold le in Hd. rewrite be_snoc, rev_app_distr in Hd.
    cbn [rev app] in Hd. injection Hd as Hd _. apply (f_equal b2n) in Hd. rewrite !b2n_n2b in Hd.
    destruct d; unfold gossip_tag, TAG_FRAME, TAG_ROSTER in Hd; change (0 mod 256)%N with 0%N in Hd; change (1 mod 256)%N with 1%N in Hd; lia.
Qed.
End relay.

(** ** Witnesses *)
Section witnesses.
Import Toy LedgerDemo RelayDemo.
#[local] Existing Instance Toy.prims.

Lemma demo_typed items :
  forallb (λ it, match it with
    | ItFrame e => (length (co_channel_id e) =? 32)%nat && (co_seq e <? u64_max)%N &&
        bool_decide (gossip_decode (frame_gossip e).2 = Some (CgFrame (co_seq e) (co_identity e) (co_sig e) (co_blob e)))
    | ItRoster e => (length (cr_channel_id e) =? 32)%nat &&
        bool_decide (gossip_decode (roster_gossip e).2 = Some (CgRoster (cr_server_root e) (cr_version e) (cr_members e) (cr_sig e)))
    | _ => true
    end) items = true → Forall item_typed items.
Proof.
  intros Hall. rewrite forallb_forall in Hall. apply list.Forall_forall. intros it Hin%list_elem_of_In.
  apply Hall in Hin. destruct it as [b|b|b|b|e|e]; cbn [item_typed]; try done.
  - apply andb_true_iff in Hin as [[Hl Hs]%andb_true_iff Hg]. apply Nat.eqb_eq in Hl. apply N.ltb_lt in Hs.
    apply bool_decide_eq_true in Hg. by apply gossip_decode_canon in Hg as [? _].
  - apply andb_true_iff in Hin as [Hl Hg]. apply Nat.eqb_eq in Hl.
    apply bool_decide_eq_true in Hg. by apply gossip_decode_canon in Hg as [? _].
Qed.

(** The queues of a relay that took an announcement, a roster and a post; a
    sibling that has nothing hears of them and has them all. *)
Lemma tick_carries_queues_witness :
  length (queued r3) = 3%nat ∧ queued (fl_state (flush_tick ∅ r3)) = [] ∧
  ∃ sibling, hear_all 400 (fl_published (flush_tick ∅ r3)) start = Some sibling ∧ relay_run start sibling ∧
    ingest_items 400 (queued r3) start = Some sibling.
Proof.
  split; [vm_compute; reflexivity|].
  assert (Ht : Forall item_typed (queued r3)) by (apply demo_typed; vm_compute; reflexivity).
  destruct (tick_carries_queues ∅ r3) as (He & _ & _ & Hh & _). split; [exact He|].
  destruct (Hh Ht 400%N start) as [E Hr]. destruct (Hr (relay_reachable_wf start demo_start)) as (t & Et & Hrun).
  exists t. split; [exact Et|]. split; [exact Hrun|]. rewrite <- E. exact Et.
Defined.

Lemma post_reaches_siblings_witness :
  ∃ topic data, (topic, data) ∈ fl_published (flush_tick ∅ r3) ∧
    ∀ later sibling,
      on_message topic data later sibling =
        Some (lens_set of_channels
          (ingest_gossiped_channel_frame (lp_ledger (st_ledger sibling)) cid 1 hello ada
             (prim_sign (sk 1) (post_to_channel_challenge cid ada hello)) later (st_channels sibling)).2 sibling).
Proof.
  apply (post_reaches_siblings cid hello ada _ ip 300 r2 1 r3 ∅).
  - exact (relay_reachable_wf r2 reach_r2).
  - exact (proj1 (step_ok_spec _ _ step3)).
  - apply (answered_act (post_request hello) 300 r2). vm_compute; reflexivity.
Defined.

Lemma channel_gossip_clashes_witness :
  (∀ x, x ∈ (drain_channel_frames [(channel_topic cid, gossip_encode (CgFrame 1 ada (replicate 64 x00) hello))] (mkGossip [] [])).1 → x.2 ≠ hello) ∧
  on_message (client_gossip cid 5 hello).1 (client_gossip cid 5 hello).2 100 start = Some start.
Proof.
  refine (channel_gossip_clashes cid 1 ada (replicate 64 x00) hello hello 5 100 start [] eq_refl _ _).
  - cbn [gossip_ok]. split_and!; try reflexivity.
  - apply N.leb_le. reflexivity.
Defined.
End witnesses.
